(* ===== verification/_CoqProject ===== *)
-Q . S2P
Prelude.v
Task.v
RustInt.v
RustStr.v
RustPath.v
RustF64.v
F64Text.v
HashOrder.v
BTree.v
Ranges.v
RList.v
RSet.v
RHash.v
RSortedSet.v
Glob.v
Resp.v
Clock.v
Store.v
Database.v
Keyspace.v
Refinement.v
KeyOps.v
SetAlgebra.v
Invariant.v
PubSub.v
FileSystem.v
Aof.v
Snapshot.v
World.v
Command.v
Execute.v
Dispatch.v
ReadOnly.v
ErrorReply.v
Effects.v
Session.v
Config.v
Server.v
Wire.v
SelectLoop.v
Recovery.v
Durability.v
Crash.v
Restore.v
Connection.v
Registry.v
System.v
LogGrows.v
Torn.v
Lapsed.v
Linearize.v
Concrete.v
Tests.v
ValueTheorems.v
StoreTheorems.v
ProtocolTheorems.v
PersistenceTheorems.v
ServerTheorems.v
