(* ===== verification/Prelude.v ===== *)
(** RustKV, a Redis-like in-memory server ([src/src]): a model of the program and
    the theorems that make it correct.

    * The program

    A connection ([server/mod.rs]) reads requests, inline lines or RESP arrays,
    and hands each to its session ([session.rs]), which queues it in a
    transaction, changes its subscriptions ([database/pubsub.rs]) or dispatches
    it ([command/mod.rs]). Dispatching parses the tokens to a command, executes
    it on the shared store ([database/db.rs], whose values are the collections of
    [database/data_structure.rs]), encodes the reply ([resp.rs]) and appends a
    successful write to the log ([database/aof.rs]). Snapshots
    ([database/snapshot.rs]) are saved on demand and at shutdown; a restart
    recovers from the log or else from the snapshot. A sweeper removes expired
    keys, a flusher syncs the log.

    * How it is modelled

    An [async fn] is a [Task] (Task.v): a sequence of critical sections of the
    program's locks and atomics. A [Task] run alone is [run]; many tasks run in
    any interleaving of their sections by [step]. [keeps I t] says that every
    section of [t] preserves [I] and [ensures P t] that every result satisfies
    [P], whatever other tasks do between its sections.

    - RustInt, RustStr, RustPath, RustF64, BTree: what the program uses of the
      standard library: [i64]/[u64] arithmetic with its wrap-around and checks,
      decimal text, UTF-8 strings, [Path::with_extension], IEEE doubles with
      their parsing and printing, [BTreeSet]. F64Text: a double is what its text
      reads back as.
    - Ranges, RList, RSet, RHash, RSortedSet: [data_structure.rs], a definition
      per method; a method that takes [&mut self] returns the new value.
    - Glob: [glob_match] and its loops, with the patterns' meaning [glob_sem].
    - Store, Database: [db.rs], the helpers and the operations of [Database] on
      the store. [DbState] holds the map and how often the clock was read.
    - PubSub, FileSystem, Aof, Snapshot, World: the registry, the disk, the log,
      the snapshots, and the shared state [World] with the operations of
      [Database] that reach beyond the store.
    - Command, Execute: [command/mod.rs]; [Resp]: [resp.rs]; [Session]:
      [session.rs]; [Server]: [server/mod.rs]; [Config]: [config.rs].
    - SelectLoop: the inside of [handle_connection]: the task that reads the
      requests, the bounded channel, and the [select!] over requests and messages.
      In [Server] a connection is [serve] on a list of events; the loop refines it, and
      it ends ([loop_sn], [loop_stuck]).
    - System: [run] and [accept_loop]: a [Server] is the shared state, what [run] still
      has to do, the spawned tasks and which of them are the endless loops of the
      sweeper and the flusher, [act] one action of it.
    - Tests: the unit tests of the repository ([mod tests] of each file), run on the
      model: [unit_tests_pass].

    The code that is not in the repository is a class that the definitions take
    as an argument, with its documented behaviour as laws: [Clock] (readings of
    [Instant::now] never go back), [HashOrder] (iteration lists the content of a
    table in some order, a function of the content), [OrderedFloat] (the order of the
    [ordered_float] crate), [Mpsc] (unbounded channels),
    [FileSystem] (what an operation that succeeds does to the files; a write that has
    returned is in the file, although tokio may still be handing it over), [Serde]
    (what was written can be read), [Process] (the process id), [AsyncBufRead] and
    [SliceReader] (buffered reading of bytes). Concrete.v has an instance of each, on
    which the examples are evaluated.

    * Specifications and properties

    - Keyspace, Refinement, KeyOps, SetAlgebra: seen by a client the keyspace is
      a map without lapsed entries, [view t st] at the instant [t]; [refines op k
      f] says that the operation [op] acts on it as the function [f] on the entry
      of [k]. The specifications of the list, string, set, sorted-set and hash
      operations do not mention clocks, locks or eviction.
    - Invariant, Dispatch: the well-formedness of the store (no empty
      collection, no NaN, the two indexes of a sorted set agree), the frames of
      replies, well-formed commands, for every command under any interleaving.
    - ReadOnly, ErrorReply, Effects: commands that do not write, commands that
      fail, and what writes do to a store without deadlines.
    - Wire, Recovery, Durability, Crash, Restore: what is encoded is what is read and
      what is beyond the limits is refused, the content of the log after a run, its
      replay, what is left of a log that a crash cut short, and saving and loading.
      Torn, Lapsed: the two ways in which a replay can go wrong: an entry that was cut
      short and what is written after it, and a key that expired between two requests.
    - Connection: transactions and the tasks of a server. Registry: the phases of a
      connection and the invariant [consistent] that relates the phases of all tasks
      to the registry, the mailboxes and the counter of clients. LogGrows: the
      content of the log in every state of a server. An invariant that is [stable]
      holds in every state that a server reaches ([server_invariant]).
    - Linearize: each request about the keyspace has its moment in one section
      ([atomic]), so that an interleaving of clients is an order of requests
      ([one_at_a_time]).
    - ValueTheorems, StoreTheorems, ProtocolTheorems, PersistenceTheorems,
      ServerTheorems: the properties, C1 to C40, each with an example where its
      hypotheses hold. They say, in this order of files: ranges, indexes,
      sorted sets and patterns do what the documentation says; each store
      operation implements its specification, and the operations on several keys
      theirs; replies are well framed, failed commands and reads change nothing,
      pipelined requests are read as sent and what follows them is refused; the log records the successful
      writes, replaying it rebuilds the keyspace, also after a crash, snapshots are
      saved atomically and restored; in every state a server reaches from its start
      the invariant of the store holds, the registry follows the connections and the
      log consists of whole entries, [PUBLISH] reaches all subscribers, the loop of a
      connection ends and does what [serve] says, transactions run in order and are
      closed by [EXEC] and [DISCARD], and the requests of all clients take effect one
      at a time.

    Four of the properties describe behaviour the authors may not have meant:
    concurrent writes can be logged in another order than they were executed in,
    a lapsed key is alive in a quick replay, the bytes of an entry that a crash cut
    short spoil the entries after it, and an inline request with too many tokens
    ends the replay. The first says that there is such an interleaving; the others
    hold of all servers and contents in the situation they describe.

    * Bounds and fuel

    Loops that are not structural take fuel: the glob matcher and the class loop
    the length of the pattern, the replay and the reader task one more than the
    number of bytes, since each request takes at least one. Theorems show that
    this is enough: the matcher decides [glob_sem], and more fuel changes nothing
    for the replay and the reader. The printing of a double tries up to 17 digits and
    falls back on all of them, so that its round trip needs no argument that 17 are
    enough. The events of a connection, and how often the sweeper and the flusher have
    ticked, are arbitrary. [usize] is 64 bits wide.

    * Not modelled

    The process entry and tracing ([main.rs]), the flags ([clap]), sockets (the result
    of binding the listener is an argument of [run_server]; what [accept] and the
    signal give is any [Accept]), the timers (a background task that waits for its tick
    can get it at any time), the choice tokio makes between tasks and between the
    branches of [select!] (any), and memory exhaustion. A save that [BGSAVE] leaves
    running is an action of the system that may happen at any time. The one call of
    [dbsize] that only feeds a trace line is left out. Two paths that name the same
    file by links or by another spelling are not identified. The length of a list
    fits in 63 bits where a theorem says so, and a server has fewer than [2 ^ 64]
    connections over its life. *)


From stdpp Require Export base tactics numbers list strings gmap sets fin_maps.
From Stdlib Require Export ZArith Lia Ascii.

#[export] Set Default Goal Selector "!".

Declare Scope rustkv_scope.
Delimit Scope rustkv_scope with rustkv.
Open Scope rustkv_scope.
Open Scope Z_scope.

(** * Results of fallible code *)

(** Rust's [Result<A, E>]. *)
Inductive result (A E : Type) : Type :=
| Ok (a : A)
| Err (e : E).
Arguments Ok {A E} a.
Arguments Err {A E} e.

(** The [?] operator: an error returns at once. *)
Definition result_bind {A B E} (r : result A E) (k : A → result B E) : result B E :=
  match r with
  | Ok a => k a
  | Err e => Err e
  end.

Notation "'let?' x := r 'in' k" := (result_bind r (λ x, k))
  (at level 10, x pattern, r at level 100, k at level 200) : rustkv_scope.

Definition map_err {A E F} (f : E → F) (r : result A E) : result A F :=
  match r with
  | Ok a => Ok a
  | Err e => Err (f e)
  end.

(** [Option::ok_or] *)
Definition ok_or {A E} (o : option A) (e : E) : result A E :=
  match o with
  | Some a => Ok a
  | None => Err e
  end.

Definition is_ok {A E} (r : result A E) : bool :=
  match r with Ok _ => true | Err _ => false end.

#[export] Instance result_eq_dec {A E} `{EqDecision A, EqDecision E} :
  EqDecision (result A E).
Proof. solve_decision. Defined.

Lemma result_bind_ok {A B E} (r : result A E) (k : A → result B E) b :
  result_bind r k = Ok b ↔ ∃ a, r = Ok a ∧ k a = Ok b.
Proof. destruct r; simpl; naive_solver. Qed.

Lemma ok_or_ok {A E} (o : option A) (e : E) a : ok_or o e = Ok a ↔ o = Some a.
Proof. destruct o; simpl; naive_solver. Qed.

(** * State passing *)

(** A piece of code that runs with exclusive access to a state of type [S]. *)
Definition State (S A : Type) : Type := S → A * S.

#[export] Instance state_ret {S} : MRet (State S) := λ A a s, (a, s).
#[export] Instance state_bind {S} : MBind (State S) :=
  λ A B k m s, let '(a, s') := m s in k a s'.

Definition gets {S A} (f : S → A) : State S A := λ s, (f s, s).
Definition modify {S} (f : S → S) : State S unit := λ s, (tt, f s).

(** A [for] loop over a list that threads the state. *)
Fixpoint for_each {S A} (l : list A) (body : A → State S unit) : State S unit :=
  match l with
  | [] => mret tt
  | x :: l' => body x ;; for_each l' body
  end.

(** A loop that threads the state and an accumulator. *)
Fixpoint for_fold {S A B} (l : list A) (acc : B) (body : B → A → State S B) : State S B :=
  match l with
  | [] => mret acc
  | x :: l' => acc' ← body acc x; for_fold l' acc' body
  end.

(** [iter().filter(p)] where the predicate has an effect on the state. *)
Fixpoint filter_state {S A} (p : A → State S bool) (l : list A) : State S (list A) :=
  match l with
  | [] => mret []
  | x :: l' => b ← p x; r ← filter_state p l'; mret (if (b : bool) then x :: r else r)
  end.

(** [iter().map(f).collect()] where the function has an effect on the state. *)
Fixpoint map_state {S A B} (f : A → State S B) (l : list A) : State S (list B) :=
  match l with
  | [] => mret []
  | x :: l' => y ← f x; r ← map_state f l'; mret (y :: r)
  end.

(** A Hoare-style triple for state passing code: from a state satisfying [P]
    the code ends with a value and a state satisfying [Q]. *)
Definition hoare {S A} (P : S → Prop) (m : State S A) (Q : A → S → Prop) : Prop :=
  ∀ s, P s → let '(a, s') := m s in Q a s'.

(** A list changed at one place and then at another. *)
Lemma list_alter_insert {A} (f : A → A) i j x (l : list A) :
  alter f i (<[j := x]> l) = <[j := if decide (j = i) then f x else x]> (alter f i l).
Proof.
  revert i j. induction l as [|y l IH]; intros [|i] [|j]; try done.
  cbn. f_equal. etrans; [apply IH|]. repeat case_decide; by simplify_eq.
Qed.

Lemma list_insert_alter_eq {A} (f : A → A) i x y (l : list A) :
  f x = y → <[i := f x]> (alter f i l) = <[i := y]> l.
Proof.
  intros <-. revert i. induction l as [|z l IH]; intros [|i]; try done. cbn. f_equal. apply IH.
Qed.

(** * Automation *)

Create HintDb rustkv.
Lemma hoare_ret {S A} (P : S → Prop) (a : A) (Q : A → S → Prop) :
  (∀ s, P s → Q a s) → hoare P (mret a) Q.
Proof. intros H s Hs. exact (H s Hs). Qed.

Lemma hoare_gets {S A} (P : S → Prop) (f : S → A) (Q : A → S → Prop) :
  (∀ s, P s → Q (f s) s) → hoare P (gets f) Q.
Proof. intros H s Hs. exact (H s Hs). Qed.

Lemma hoare_modify {S} (P : S → Prop) (f : S → S) (Q : unit → S → Prop) :
  (∀ s, P s → Q tt (f s)) → hoare P (modify f) Q.
Proof. intros H s Hs. exact (H s Hs). Qed.

#[export] Hint Resolve hoare_ret hoare_gets hoare_modify : rustkv.

(** Case analysis on every [match] and [if] of the goal, keeping equations. *)
Ltac case_all := repeat (case_match; simplify_eq/=); try done.

(** Splits a pair-valued call [f s] in the goal, naming the equation. *)
Tactic Notation "split_call" constr(t) "as" ident(a) ident(s) ident(H) :=
  destruct t as [a s] eqn:H; simpl.

(** * Lists *)

Lemma length_fold_left_cons {A} (vs l : list A) :
  fold_left (λ acc v, v :: acc) vs l = rev vs ++ l.
Proof.
  revert l. induction vs as [|v vs IH]; intros l; simpl; [done|].
  by rewrite IH, <- app_assoc.
Qed.

Lemma fold_left_snoc {A} (vs l : list A) :
  fold_left (λ acc v, acc ++ [v]) vs l = l ++ vs.
Proof.
  revert l. induction vs as [|v vs IH]; intros l; simpl.
  { by rewrite app_nil_r. }
  by rewrite IH, <- app_assoc.
Qed.

Lemma filter_sublist_impl {A} (P Q : A → Prop) `{∀ x, Decision (P x), ∀ x, Decision (Q x)} (l : list A) :
  (∀ x, P x → Q x) → filter P l `sublist_of` filter Q l.
Proof.
  intros HPQ. induction l as [|x l IH]; [done|]. rewrite !filter_cons.
  case_decide as HP.
  - rewrite decide_True by auto. by apply sublist_skip.
  - case_decide; [by apply sublist_cons|done].
Qed.

Lemma list_filter_all {A} (P : A → Prop) `{∀ x, Decision (P x)} (l : list A) :
  Forall P l → filter P l = l.
Proof.
  induction 1 as [|x l Hx _ IH]; [done|]. by rewrite filter_cons, decide_True, IH.
Qed.

(** Filtering depends on the predicate at the elements only. *)
Lemma list_filter_iff' {A} (P Q : A → Prop) `{∀ x, Decision (P x), ∀ x, Decision (Q x)} (l : list A) :
  (∀ x, x ∈ l → P x ↔ Q x) → filter P l = filter Q l.
Proof.
  induction l as [|x l IH]; intros HPQ; [done|]. rewrite !filter_cons.
  assert (P x ↔ Q x) by (apply HPQ; left).
  rewrite IH by (intros; apply HPQ; by right).
  repeat case_decide; tauto.
Qed.

Lemma pair_of_fst {A B} (p : A * B) a : p.1 = a → p = (a, p.2).
Proof. intros <-. by destruct p. Qed.
