(* ===== verification/Task.v ===== *)
(** Asynchronous operations.

    An [async fn] of the program runs as a sequence of critical sections: each
    one takes a lock (the store's [RwLock], the [Mutex] of the log or of the
    pub/sub registry), runs to its end and releases it, and other tasks run
    between two of them.  A [Task] is that sequence.  [run] executes a task with
    nothing in between; [step] interleaves a pool of tasks one critical section
    at a time, which is how [tokio::spawn] runs the connections. *)

From S2P Require Import Prelude.
From stdpp Require Import relations.

(** [Section f]: one critical section; the state it leaves comes with what the
    task does next. *)
Inductive Task (S A : Type) : Type :=
| Done (a : A)
| Critical (f : S → Task S A * S).
Arguments Done {S A} a.
Arguments Critical {S A} f.

Section induction.
Context {S A : Type} (P : Task S A → Prop).
Hypothesis HDone : ∀ a, P (Done a).
Hypothesis HSection : ∀ f, (∀ s, P (f s).1) → P (Critical f).

(** Structural induction: the rest of a task is smaller whatever the state it
    is reached with. *)
Fixpoint Task_induction (t : Task S A) : P t :=
  match t with
  | Done a => HDone a
  | Critical f =>
      HSection f (λ s,
        match f s as p return P p.1 with
        | (t', _) => Task_induction t'
        end)
  end.
End induction.

Fixpoint task_bind {S A B} (k : A → Task S B) (t : Task S A) : Task S B :=
  match t with
  | Done a => k a
  | Critical f => Critical (λ s, match f s with (t', s') => (task_bind k t', s') end)
  end.

#[export] Instance task_ret {S} : MRet (Task S) := λ A a, Done a.
#[export] Instance task_mbind {S} : MBind (Task S) := λ A B k t, task_bind k t.

(** A single critical section. *)
Definition atomically {S A} (m : State S A) : Task S A :=
  Critical (λ s, let '(a, s') := m s in (Done a, s')).

(** The task with nothing interleaved. *)
Fixpoint run {S A} (t : Task S A) (s : S) : A * S :=
  match t with
  | Done a => (a, s)
  | Critical f => match f s with (t', s') => run t' s' end
  end.

(** A task on a part of the state. *)
Fixpoint on_part {S W A} (get : W → S) (put : S → W → W) (t : Task S A) : Task W A :=
  match t with
  | Done a => Done a
  | Critical f =>
      Critical (λ w, match f (get w) with (t', s') => (on_part get put t', put s' w) end)
  end.

Definition part_state {S W A} (get : W → S) (put : S → W → W) (m : State S A) : State W A :=
  λ w, let '(a, s') := m (get w) in (a, put s' w).

(** [for x in l { body(x).await }] collecting the results. *)
Fixpoint task_map {S A B} (f : A → Task S B) (l : list A) : Task S (list B) :=
  match l with
  | [] => mret []
  | x :: l' => y ← f x; r ← task_map f l'; mret (y :: r)
  end.

Lemma run_bind {S A B} (t : Task S A) (k : A → Task S B) s :
  run (x ← t; k x) s = let '(a, s') := run t s in run (k a) s'.
Proof.
  revert s. induction t as [a|f IH] using Task_induction; intros s; [done|].
  unfold mbind, task_mbind in *. simpl. specialize (IH s).
  destruct (f s) as [t' s']. apply IH.
Qed.

Lemma run_atomically {S A} (m : State S A) s : run (atomically m) s = m s.
Proof. unfold atomically; simpl. by destruct (m s). Qed.

Lemma run_on_part {S W A} (get : W → S) put (t : Task S A) w :
  (∀ s w, get (put s w) = s) →
  (∀ s1 s2 w, put s2 (put s1 w) = put s2 w) →
  (∀ w, put (get w) w = w) →
  run (on_part get put t) w = part_state get put (run t) w.
Proof.
  intros Hgp Hpp Hpg. unfold part_state. revert w.
  induction t as [a|f IH] using Task_induction; intros w; simpl.
  { by rewrite Hpg. }
  specialize (IH (get w)). destruct (f (get w)) as [t' s']; simpl in *.
  rewrite IH, Hgp. destruct (run t' s') as [a s'']. by rewrite Hpp.
Qed.

(** * Interleaving *)

Section interleaving.
Context {S A : Type}.

(** The shared state and the tasks running on it. *)
Definition Pool : Type := S * list (Task S A).

(** One task runs one critical section. *)
Inductive step : Pool → Pool → Prop :=
| step_section s ts i f t' s' :
    ts !! i = Some (Critical f) →
    f s = (t', s') →
    step (s, ts) (s', <[i := t']> ts).

(** A task all of whose critical sections keep [I], whatever other tasks that
    keep [I] did before each of them. *)
Inductive keeps (I : S → Prop) : Task S A → Prop :=
| keeps_done a : keeps I (Done a)
| keeps_section f :
    (∀ s, I s → keeps I (f s).1 ∧ I (f s).2) →
    keeps I (Critical f).

(** Every interleaving of tasks that keep [I] keeps it. *)
Lemma keeps_steps (I : S → Prop) p p' :
  rtc step p p' → I p.1 → Forall (keeps I) p.2 → I p'.1 ∧ Forall (keeps I) p'.2.
Proof.
  induction 1 as [p|p q p' Hstep _ IH]; [done|]. intros HI Hts. apply IH; clear IH;
    destruct Hstep as [s ts i f t' s' Hi Hf]; simpl in *;
    assert (Hk : keeps I (Critical f)) by (by eapply Forall_lookup_1);
    inversion Hk as [|f' Hsec]; subst; destruct (Hsec s HI) as [Hk' HI'];
    rewrite Hf in Hk', HI'; simpl in *; [done|].
  by apply Forall_insert.
Qed.

Lemma step_app p p' ts : step p p' → step (p.1, p.2 ++ ts) (p'.1, p'.2 ++ ts).
Proof.
  destruct 1 as [s l i f t' s' Hi Hf]; simpl. rewrite <- insert_app_l by by eapply lookup_lt_Some.
  econstructor; [|exact Hf]. by apply lookup_app_l_Some.
Qed.

(** Tasks that join later could have been there from the beginning. *)
Lemma steps_app p p' ts : rtc step p p' → rtc step (p.1, p.2 ++ ts) (p'.1, p'.2 ++ ts).
Proof.
  induction 1 as [p|p q p' Hstep _ IH]; [done|]. eapply rtc_l; [by apply step_app|done].
Qed.

Lemma step_cons t p p' : step p p' → step (p.1, t :: p.2) (p'.1, t :: p'.2).
Proof.
  destruct 1 as [s l i f t' s' Hi Hf]; simpl. by apply (step_section s (t :: l) (Datatypes.S i) f).
Qed.

Lemma step_length p p' : step p p' → length p'.2 = length p.2.
Proof. destruct 1. simpl. apply length_insert. Qed.

Lemma steps_length p p' : rtc step p p' → length p'.2 = length p.2.
Proof. induction 1 as [|p q p' Hstep _ IH]; [done|]. by rewrite IH, (step_length _ _ Hstep). Qed.

(** ** Where an interleaving ends *)

Definition is_done (t : Task S A) : bool := match t with Done _ => true | Critical _ => false end.

(** An interleaving stops only when all its tasks have ended. *)
Lemma step_stuck p : nf step p → Forall (λ t, is_done t = true) p.2.
Proof.
  intros Hnf. apply Forall_lookup. intros i [a|f] Hi; [done|]. destruct Hnf.
  destruct p as [s ts], (f s) as [t' s'] eqn:Hf. exists (s', <[i := t']> ts). by econstructor.
Qed.

Lemma done_stuck (p : Pool) : forallb is_done p.2 = true → nf step p.
Proof.
  intros Hd [p' Hstep]. destruct Hstep as [s ts i f t s' Hi Hf].
  rewrite forallb_forall in Hd. simpl in Hd. apply list_elem_of_lookup_2, list_elem_of_In in Hi.
  by apply Hd in Hi.
Qed.

(** A scheduler: the tasks at the given places run one section each. *)
Definition step_at (p : Pool) (i : nat) : Pool :=
  match p.2 !! i with
  | Some (Critical f) => let '(t, s) := f p.1 in (s, <[i := t]> p.2)
  | _ => p
  end.
Definition schedule (p : Pool) (order : list nat) : Pool := foldl step_at p order.

Lemma schedule_steps order p : rtc step p (schedule p order).
Proof.
  revert p. induction order as [|i order IH]; intros p; [constructor|]. cbn [schedule foldl].
  etrans; [|apply IH]. unfold step_at. destruct p as [s ts]; simpl.
  destruct (ts !! i) as [[a|f]|] eqn:E; [constructor| |constructor].
  destruct (f s) as [t s'] eqn:Hf. apply rtc_once. by econstructor.
Qed.
End interleaving.
Arguments Pool S A : clear implicits.

#[export] Hint Constructors keeps : rustkv.

Lemma keeps_bind {S A B} (I : S → Prop) (t : Task S A) (k : A → Task S B) :
  keeps I t → (∀ a, keeps I (k a)) → keeps I (x ← t; k x).
Proof.
  intros Ht Hk. induction t as [a|f IH] using Task_induction; [apply Hk|].
  unfold mbind, task_mbind in *. simpl. constructor. intros s Hs.
  inversion Ht as [|f' Hsec]; subst. destruct (Hsec s Hs) as [Hk' HI'].
  specialize (IH s). destruct (f s) as [t' s']; simpl in *. auto.
Qed.

Lemma keeps_atomically {S A} (I : S → Prop) (m : State S A) :
  hoare I m (λ _, I) → keeps I (atomically m).
Proof.
  intros Hm. constructor. intros s Hs. specialize (Hm s Hs).
  destruct (m s) as [a s']; simpl. auto with rustkv.
Qed.

(** A section that reads: what it reads comes from a state that satisfies [I]. *)
Lemma keeps_gets {S A B} (I : S → Prop) (f : S → A) (k : A → Task S B) :
  (∀ s, I s → keeps I (k (f s))) → keeps I (x ← atomically (gets f); k x).
Proof. intros Hk. constructor. intros s Hs. split; [by apply Hk|done]. Qed.

Lemma keeps_on_part {S W A} (get : W → S) put (I : S → Prop) (J : W → Prop) (t : Task S A) :
  (∀ w, J w → I (get w)) →
  (∀ s w, J w → I s → J (put s w)) →
  keeps I t → keeps J (on_part get put t).
Proof.
  intros Hget Hput. induction t as [a|f IH] using Task_induction; intros Hk; simpl.
  { constructor. }
  constructor. intros w Hw. inversion Hk as [|f' Hsec]; subst.
  specialize (Hsec (get w) (Hget w Hw)). specialize (IH (get w)).
  destruct (f (get w)) as [t' s']; simpl in *. naive_solver.
Qed.

(** A task that keeps [I] under interference keeps it when run alone. *)
Lemma keeps_run {S A} (I : S → Prop) (t : Task S A) s :
  keeps I t → I s → I (run t s).2.
Proof.
  revert s. induction t as [a|f IH] using Task_induction; intros s Hk HI; simpl; [done|].
  inversion Hk as [|f' Hsec]; subst. destruct (Hsec s HI) as [Hk' HI'].
  specialize (IH s). destruct (f s) as [t' s']; simpl in *. auto.
Qed.

(** A task each of whose critical sections changes the state within [R], whatever
    state it finds. *)
Inductive respects {S A} (R : S → S → Prop) : Task S A → Prop :=
| respects_done a : respects R (Done a)
| respects_section f :
    (∀ s, R s (f s).2 ∧ respects R (f s).1) → respects R (Critical f).

Lemma respects_bind {S A B} (R : S → S → Prop) (t : Task S A) (k : A → Task S B) :
  respects R t → (∀ a, respects R (k a)) → respects R (x ← t; k x).
Proof.
  intros Ht Hk. induction t as [a|f IH] using Task_induction; [apply Hk|].
  unfold mbind, task_mbind in *. simpl. constructor. intros s.
  inversion Ht as [|f' Hsec]; subst. destruct (Hsec s) as [HR Hrest].
  specialize (IH s). destruct (f s) as [t' s']; simpl in *. auto.
Qed.

Lemma respects_atomically {S A} (R : S → S → Prop) (m : State S A) :
  (∀ s, R s (m s).2) → respects R (atomically m).
Proof.
  intros Hm. constructor. intros s. specialize (Hm s). destruct (m s) as [a s']; simpl.
  split; [done|constructor].
Qed.

Lemma respects_on_part {S W A} (get : W → S) put (R : W → W → Prop) (t : Task S A) :
  (∀ s w, R w (put s w)) → respects R (on_part get put t).
Proof.
  intros Hput. induction t as [a|f IH] using Task_induction; simpl; [constructor|].
  constructor. intros w. specialize (IH (get w)). destruct (f (get w)) as [t' s']; simpl in *. auto.
Qed.

Lemma respects_weaken {S A} (R R' : S → S → Prop) (t : Task S A) :
  (∀ s s', R s s' → R' s s') → respects R t → respects R' t.
Proof.
  intros HR. induction t as [a|f IH] using Task_induction; intros H; inversion H as [|? Hf]; subst;
    constructor; intros s; destruct (Hf s); auto.
Qed.

(** Changes that preserve [I]. *)
Lemma respects_keeps {S A} (I : S → Prop) (t : Task S A) :
  respects (λ s s', I s → I s') t → keeps I t.
Proof.
  induction t as [a|f IH] using Task_induction; intros H; inversion H as [|? Hf]; subst;
    constructor; intros s Hs; destruct (Hf s); auto.
Qed.

(** * Executions of one task *)

(** What a task does to the shared state, section by section, and what is left of
    it: between two sections other tasks may have changed the state. *)
Inductive follows {S A} : Task S A → list (S * S) → Task S A → Prop :=
| follows_nil t : follows t [] t
| follows_section f s t1 s1 trace t :
    f s = (t1, s1) → follows t1 trace t → follows (Critical f) ((s, s1) :: trace) t.

Lemma follows_bind_section {S A B} (f : S → Task S A * S) (k : A → Task S B) s t1 s1 trace t :
  f s = (t1, s1) → follows (x ← t1; k x) trace t →
  follows (x ← Critical f; k x) ((s, s1) :: trace) t.
Proof.
  intros Hf H. unfold mbind, task_mbind in *. simpl. econstructor; [|exact H]. cbn. by rewrite Hf.
Qed.

Lemma follows_bind {S A B} (t t' : Task S A) (k : A → Task S B) trace :
  follows t trace t' → follows (x ← t; k x) trace (x ← t'; k x).
Proof. induction 1; [constructor|]. by eapply follows_bind_section. Qed.

(** A task that has more to do at the end could have had it from the beginning. *)
Lemma step_bind_at {S A} (k : A → Task S A) i p p' :
  step p p' → step (p.1, alter (λ t, x ← t; k x) i p.2) (p'.1, alter (λ t, x ← t; k x) i p'.2).
Proof.
  destruct 1 as [s ts j f t' s' Hj Hf]; simpl. rewrite list_alter_insert.
  destruct (decide (j = i)) as [->|Hne].
  - eapply (step_section s _ i (λ s, let '(t, s') := f s in (x ← t; k x, s')));
      [by rewrite list_lookup_alter_eq, Hj|by rewrite Hf].
  - apply (step_section s _ j f); [|done]. by rewrite list_lookup_alter_ne.
Qed.

Lemma steps_bind_at {S A} (k : A → Task S A) i p p' :
  rtc step p p' →
  rtc step (p.1, alter (λ t, x ← t; k x) i p.2) (p'.1, alter (λ t, x ← t; k x) i p'.2).
Proof.
  induction 1 as [p|p q p' Hstep _ IH]; [done|]. eapply rtc_l; [by apply step_bind_at|done].
Qed.

(** * Results *)

(** The value a task ends with satisfies [P], whatever state each of its critical
    sections finds. *)
Inductive ensures {S A} (P : A → Prop) : Task S A → Prop :=
| ensures_done a : P a → ensures P (Done a)
| ensures_section f : (∀ s, ensures P (f s).1) → ensures P (Critical f).

Lemma ensures_weaken {S A} (P Q : A → Prop) (t : Task S A) :
  ensures P t → (∀ a, P a → Q a) → ensures Q t.
Proof.
  intros Ht HPQ. induction t as [a|f IH] using Task_induction; inversion Ht; subst; constructor; auto.
Qed.

Lemma ensures_bind {S A B} (P : A → Prop) (Q : B → Prop) (t : Task S A) (k : A → Task S B) :
  ensures P t → (∀ a, P a → ensures Q (k a)) → ensures Q (x ← t; k x).
Proof.
  intros Ht Hk. induction t as [a|f IH] using Task_induction; inversion Ht as [|? Hf]; subst; [by apply Hk|].
  unfold mbind, task_mbind in *. simpl. constructor. intros s. specialize (IH s). specialize (Hf s).
  destruct (f s) as [t' s']; simpl in *. auto.
Qed.

Lemma ensures_atomically {S A} (P : A → Prop) (m : State S A) :
  (∀ s, P (m s).1) → ensures P (atomically m).
Proof.
  intros Hm. constructor. intros s. specialize (Hm s). destruct (m s) as [a s']. by constructor.
Qed.

Lemma ensures_true {S A} (t : Task S A) : ensures (λ _, True) t.
Proof. induction t as [a|f IH] using Task_induction; constructor; auto. Qed.

Lemma ensures_on_part {S W A} (get : W → S) put (P : A → Prop) (t : Task S A) :
  ensures P t → ensures P (on_part get put t).
Proof.
  induction t as [a|f IH] using Task_induction; intros H; inversion H as [|? Hf]; subst; simpl.
  { by constructor. }
  constructor. intros w. specialize (IH (get w)). specialize (Hf (get w)).
  destruct (f (get w)) as [t' s']; simpl in *. auto.
Qed.

Lemma ensures_run {S A} (P : A → Prop) (t : Task S A) s : ensures P t → P (run t s).1.
Proof.
  revert s. induction t as [a|f IH] using Task_induction; intros s H; inversion H as [|? Hf]; subst;
    [done|]. simpl. specialize (IH s). specialize (Hf s). destruct (f s) as [t' s']; simpl in *. auto.
Qed.

(** Any interleaving: a task of the pool that has ended has ended with a [P]. *)
Lemma ensures_steps {S A} (P : A → Prop) (p p' : Pool S A) i a :
  rtc step p p' → Forall (ensures P) p.2 → p'.2 !! i = Some (Done a) → P a.
Proof.
  induction 1 as [p|p q p' Hstep _ IH]; intros Hts Hi.
  - eapply Forall_lookup_1 in Hts; [|exact Hi]. by inversion Hts.
  - apply IH; [|done]. destruct Hstep as [s ts j f t' s' Hj Hf]; simpl in *.
    apply Forall_insert; [done|]. eapply Forall_lookup_1 in Hts; [|exact Hj].
    inversion Hts as [|? Hsec]; subst. specialize (Hsec s). by rewrite Hf in Hsec.
Qed.
