(* ===== verification/RustInt.v ===== *)
(** The machine integers of the program and their decimal text.

    Values of [i64], [u64] and [usize] (64 bits on the supported targets) are
    elements of [Z]; the operations below carry the width.  [parse_int] is
    [str::parse] for the integer types and [int_to_string] their [to_string],
    both of Rust's standard library; [int_text_roundtrip] relates the two. *)

From S2P Require Import Prelude.
Local Open Scope Z_scope.

Definition i64_min : Z := - 2 ^ 63.
Definition i64_max : Z := 2 ^ 63 - 1.
Definition u64_max : Z := 2 ^ 64 - 1.
Definition usize_max : Z := u64_max.

Definition in_i64 (z : Z) : Prop := i64_min ≤ z ≤ i64_max.
Definition in_u64 (z : Z) : Prop := 0 ≤ z ≤ u64_max.

#[export] Instance in_i64_dec z : Decision (in_i64 z).
Proof. unfold in_i64. apply _. Defined.
#[export] Instance in_u64_dec z : Decision (in_u64 z).
Proof. unfold in_u64. apply _. Defined.

(** Two's complement wrap-around to 64 bits: [as i64]. *)
Definition wrap_i64 (z : Z) : Z := (z + 2 ^ 63) `mod` 2 ^ 64 - 2 ^ 63.
(** [as u64] / [as usize]. *)
Definition wrap_u64 (z : Z) : Z := z `mod` 2 ^ 64.

(** [i64::checked_add] and [i64::checked_neg]. *)
Definition checked_add (a b : Z) : option Z :=
  let s := a + b in if decide (in_i64 s) then Some s else None.
Definition checked_neg (a : Z) : option Z :=
  let s := - a in if decide (in_i64 s) then Some s else None.

Lemma wrap_i64_id z : in_i64 z → wrap_i64 z = z.
Proof.
  unfold in_i64, wrap_i64, i64_min, i64_max. intros H.
  rewrite Z.mod_small; lia.
Qed.

Lemma wrap_i64_range z : in_i64 (wrap_i64 z).
Proof.
  unfold in_i64, wrap_i64, i64_min, i64_max.
  pose proof (Z.mod_pos_bound (z + 2 ^ 63) (2 ^ 64)). lia.
Qed.

Lemma wrap_u64_id z : in_u64 z → wrap_u64 z = z.
Proof. unfold in_u64, wrap_u64, u64_max. intros H. rewrite Z.mod_small; lia. Qed.

Lemma checked_add_some a b s : checked_add a b = Some s ↔ s = a + b ∧ in_i64 s.
Proof. unfold checked_add. case_decide; naive_solver. Qed.

Lemma checked_add_none a b : checked_add a b = None ↔ ¬ in_i64 (a + b).
Proof. unfold checked_add. case_decide; naive_solver. Qed.

Lemma checked_neg_some a s : in_i64 a → checked_neg a = Some s ↔ s = - a ∧ a ≠ i64_min.
Proof.
  unfold checked_neg, in_i64, i64_min, i64_max. intros Ha.
  case_decide as Hd; unfold in_i64, i64_min, i64_max in *; split; naive_solver lia.
Qed.

(** * Decimal digits *)

Definition digit_char (d : N) : ascii := ascii_of_N (48 + d).

Definition digit_of (c : ascii) : option Z :=
  let n := Z.of_N (N_of_ascii c) in
  if decide (48 ≤ n ≤ 57) then Some (n - 48) else None.

(** Digits of [n], most significant first, pushed on [acc]. *)
Fixpoint digits_go (fuel : nat) (n : N) (acc : string) : string :=
  let acc' := String (digit_char (n `mod` 10)) acc in
  match fuel with
  | O => acc'
  | S fuel' => if decide (n < 10)%N then acc' else digits_go fuel' (n / 10) acc'
  end.

Definition nat_to_string (n : N) : string := digits_go (N.to_nat (N.size n)) n "".

Definition int_to_string (z : Z) : string :=
  if decide (z < 0) then String "-" (nat_to_string (Z.to_N (- z)))
  else nat_to_string (Z.to_N z).

Fixpoint parse_digits (acc : Z) (s : string) : option Z :=
  match s with
  | EmptyString => Some acc
  | String c s' =>
      match digit_of c with
      | Some d => parse_digits (10 * acc + d) s'
      | None => None
      end
  end.

(** [str::parse] for an integer type: a leading [+] is accepted, a leading [-]
    by the signed types only; no digits, any other byte or a value that does not
    fit is an error. *)
Definition parse_int (signed : bool) (lo hi : Z) (s : string) : option Z :=
  let '(negative, digits) :=
    match s with
    | String "+" r => (false, r)
    | String "-" r => if signed then (true, r) else (false, s)
    | _ => (false, s)
    end in
  match digits with
  | EmptyString => None
  | _ =>
      match parse_digits 0 digits with
      | Some n =>
          let v := if (negative : bool) then - n else n in
          if decide (lo ≤ v ≤ hi) then Some v else None
      | None => None
      end
  end.

Definition parse_i64 : string → option Z := parse_int true i64_min i64_max.
Definition parse_u64 : string → option Z := parse_int false 0 u64_max.
Definition parse_usize : string → option Z := parse_int false 0 usize_max.

Lemma digit_char_N d : (d < 10)%N → N_of_ascii (digit_char d) = (48 + d)%N.
Proof. intros H. unfold digit_char. apply N_ascii_embedding. lia. Qed.

Lemma digit_of_char d : (d < 10)%N → digit_of (digit_char d) = Some (Z.of_N d).
Proof.
  intros H. unfold digit_of. rewrite digit_char_N by done.
  rewrite decide_True by lia. f_equal. lia.
Qed.

Lemma parse_digits_go fuel n s v :
  (n < 2 ^ N.of_nat fuel)%N →
  ∃ k, 0 ≤ k ∧ parse_digits v (digits_go fuel n s) = parse_digits (v * 10 ^ k + Z.of_N n) s.
Proof.
  assert (Hone : ∀ n s v, (n < 10)%N →
    parse_digits v (String (digit_char (n `mod` 10)) s) = parse_digits (v * 10 ^ 1 + Z.of_N n) s).
  { intros n' s' v' Hn. simpl. rewrite N.mod_small, digit_of_char by done. f_equal. lia. }
  revert n s v. induction fuel as [|fuel IH]; intros n s v Hn.
  { exists 1. split; [lia|]. simpl digits_go. apply Hone. simpl in Hn. lia. }
  simpl digits_go. case_decide as Hd.
  { exists 1. split; [lia|]. by apply Hone. }
  destruct (IH (n / 10)%N (String (digit_char (n `mod` 10)) s) v) as (k & Hk & ->).
  { apply N.Div0.div_lt_upper_bound. rewrite Nat2N.inj_succ, N.pow_succ_r' in Hn. lia. }
  exists (k + 1). split; [lia|]. simpl.
  rewrite digit_of_char by (apply N.mod_lt; lia). f_equal.
  rewrite Z.pow_add_r by lia. pose proof (N.div_mod n 10). lia.
Qed.

Lemma nat_to_string_parse n : parse_digits 0 (nat_to_string n) = Some (Z.of_N n).
Proof.
  unfold nat_to_string. destruct (parse_digits_go (N.to_nat (N.size n)) n "" 0) as (k & _ & ->).
  { rewrite N2Nat.id. apply N.size_gt. }
  simpl. f_equal.
Qed.

(** The bytes of a decimal numeral. *)
Definition is_digit (c : ascii) : Prop := is_Some (digit_of c).

Lemma digits_go_digits fuel n s :
  Forall is_digit (String.list_ascii_of_string s) →
  Forall is_digit (String.list_ascii_of_string (digits_go fuel n s)).
Proof.
  assert (∀ n s, Forall is_digit (String.list_ascii_of_string s) →
    Forall is_digit (String.list_ascii_of_string (String (digit_char (n `mod` 10)) s))).
  { intros n' s' Hs. simpl. constructor; [|done].
    unfold is_digit. rewrite digit_of_char by (apply N.mod_lt; lia). eauto. }
  revert n s. induction fuel as [|fuel IH]; intros n s Hs; simpl digits_go; [auto|].
  case_decide; auto.
Qed.

Lemma nat_to_string_digits n :
  Forall is_digit (String.list_ascii_of_string (nat_to_string n)).
Proof. apply digits_go_digits. constructor. Qed.

Lemma nat_to_string_cons n :
  ∃ c s, nat_to_string n = String c s ∧ is_digit c.
Proof.
  pose proof (nat_to_string_digits n) as Hd.
  destruct (nat_to_string n) as [|c s] eqn:E; [|exists c, s; split; [done|by inversion Hd]].
  exfalso. clear Hd. unfold nat_to_string in E.
  assert (∀ fuel n s, ∃ c s', digits_go fuel n s = String c s') as Hne.
  { clear. induction fuel; intros; simpl; [eauto|]. case_decide; eauto. }
  destruct (Hne (N.to_nat (N.size n)) n "") as (? & ? & ?). congruence.
Qed.

(** A positive number is written without leading zeros. *)
Lemma digits_go_head fuel n s :
  (0 < n < 2 ^ N.of_nat fuel)%N →
  ∃ c s' d, digits_go fuel n s = String c s' ∧ digit_of c = Some d ∧ 0 < d.
Proof.
  revert n s. induction fuel as [|fuel IH]; intros n s Hn; [simpl in Hn; lia|].
  simpl digits_go. case_decide as Hd.
  - exists (digit_char (n `mod` 10)), s, (Z.of_N n). rewrite N.mod_small by done.
    split; [done|]. split; [by apply digit_of_char|lia].
  - apply IH. split.
    + apply N.div_str_pos. lia.
    + apply N.Div0.div_lt_upper_bound. rewrite Nat2N.inj_succ, N.pow_succ_r' in Hn. lia.
Qed.

Lemma nat_to_string_head n :
  (0 < n)%N → ∃ c s' d, nat_to_string n = String c s' ∧ digit_of c = Some d ∧ 0 < d.
Proof. intros Hn. apply digits_go_head. split; [done|]. rewrite N2Nat.id. apply N.size_gt. Qed.

Lemma parse_digits_pos v s z : 0 < v → parse_digits v s = Some z → 0 < z.
Proof.
  revert v. induction s as [|c s IH]; intros v Hv; simpl; [by intros [= <-]|].
  unfold digit_of. case_decide; [|done]. apply IH. lia.
Qed.

(** Formatting an integer and parsing it back gives the integer. *)
Lemma int_text_roundtrip signed lo hi z :
  lo ≤ z ≤ hi → (signed = false → 0 ≤ z) →
  parse_int signed lo hi (int_to_string z) = Some z.
Proof.
  intros Hz Hs. unfold int_to_string. case_decide as Hneg.
  - destruct signed; [|lia]. unfold parse_int.
    destruct (nat_to_string_cons (Z.to_N (- z))) as (c & s & E & _).
    rewrite E. rewrite <- E, nat_to_string_parse.
    rewrite Z2N.id, Z.opp_involutive by lia. by rewrite decide_True.
  - destruct (nat_to_string_cons (Z.to_N z)) as (c & s & E & Hc).
    unfold parse_int. rewrite E.
    assert (c ≠ "+"%char ∧ c ≠ "-"%char) as [H1 H2].
    { split; intros ->; destruct Hc as [? Hc]; discriminate Hc. }
    assert (Hm : match String c s with
      | String "+" r => (false, r)
      | String "-" r => if signed then (true, r) else (false, String c s)
      | _ => (false, String c s) end = (false, String c s)).
    { clear -H1 H2. destruct c as [[] [] [] [] [] [] [] []]; done. }
    rewrite Hm. cbv beta iota. rewrite <- E, nat_to_string_parse, Z2N.id by lia.
    by rewrite decide_True.
Qed.

Lemma parse_i64_to_string z : in_i64 z → parse_i64 (int_to_string z) = Some z.
Proof. intros H. by apply int_text_roundtrip. Qed.

Lemma parse_u64_to_string z : in_u64 z → parse_u64 (int_to_string z) = Some z.
Proof. intros H. apply int_text_roundtrip; unfold in_u64 in *; lia. Qed.

Lemma parse_usize_to_string z : in_u64 z → parse_usize (int_to_string z) = Some z.
Proof. exact (parse_u64_to_string z). Qed.

Lemma parse_int_range signed lo hi s z : parse_int signed lo hi s = Some z → lo ≤ z ≤ hi.
Proof. unfold parse_int. intros H. repeat (case_match; simplify_eq); done. Qed.

Example parse_i64_examples :
  parse_i64 "-9223372036854775808" = Some i64_min
  ∧ parse_i64 "9223372036854775808" = None
  ∧ parse_i64 "+7" = Some 7 ∧ parse_i64 "-" = None ∧ parse_i64 "" = None
  ∧ parse_u64 "-0" = None ∧ parse_i64 "1x" = None ∧ int_to_string (-120) = "-120"%string.
Proof. vm_compute. repeat split. Qed.

(** The text of an integer ends with a digit. *)
Lemma int_text_last z : ∃ c r, reverse (String.list_ascii_of_string (int_to_string z)) = c :: r ∧ is_digit c.
Proof.
  assert (Hnat : ∀ n, ∃ c r,
    reverse (String.list_ascii_of_string (nat_to_string n)) = c :: r ∧ is_digit c).
  { intros n. pose proof (nat_to_string_digits n) as Hd.
    destruct (nat_to_string_cons n) as (c & s & Hs & _).
    destruct (reverse (String.list_ascii_of_string (nat_to_string n))) as [|x r] eqn:E.
    - apply (f_equal reverse) in E. rewrite reverse_involutive, Hs in E. discriminate E.
    - exists x, r. split; [done|]. rewrite Forall_forall in Hd. apply Hd.
      rewrite <- elem_of_reverse, E. apply elem_of_cons. by left. }
  unfold int_to_string. case_decide.
  - destruct (Hnat (Z.to_N (- z))) as (c & r & Hr & Hc). exists c, (r ++ ["-"%char]).
    simpl. rewrite reverse_cons, Hr. done.
  - apply Hnat.
Qed.
