(* ===== verification/RustStr.v ===== *)
(** Rust strings.

    A [String] or [&str] is the sequence of its UTF-8 bytes, a Rocq [string].
    This file models the parts of the standard library the program uses on them:
    ASCII case mapping, [split_whitespace] and [trim_end] (with the Unicode
    [White_Space] property), [String::from_utf8]'s validity check, the byte-wise
    order and replacement of characters. *)

From S2P Require Import Prelude RustInt.
From Stdlib Require String.
Local Open Scope Z_scope.

Abbreviation byte := ascii.
Notation slen s := (Z.of_nat (String.length s)).
Abbreviation bytes_of := String.list_ascii_of_string.
Abbreviation of_bytes := String.string_of_list_ascii.

(** The carriage return and line feed pair. *)
Definition CR : ascii := Ascii.ascii_of_nat 13.
Definition LF : ascii := Ascii.ascii_of_nat 10.
Definition CRLF : string := String CR (String LF EmptyString).
#[global] Arguments CRLF : simpl never.

(** * Concatenation *)

#[global] Arguments String.append : simpl nomatch.
#[global] Arguments String.length : simpl nomatch.

Lemma sapp_assoc (a b c : string) : (a +:+ b) +:+ c = a +:+ (b +:+ c).
Proof. induction a as [|x a IH]; simpl; [done|]. by rewrite IH. Qed.

Lemma sapp_nil_r (a : string) : a +:+ "" = a.
Proof. induction a as [|x a IH]; simpl; [done|]. by rewrite IH. Qed.

Lemma slen_app (a b : string) :
  String.length (a +:+ b) = (String.length a + String.length b)%nat.
Proof. induction a as [|x a IH]; simpl; [done|]. by rewrite IH. Qed.

Lemma bytes_of_app (a b : string) : bytes_of (a +:+ b) = bytes_of a ++ bytes_of b.
Proof. induction a as [|x a IH]; simpl; [done|]. by rewrite IH. Qed.

Lemma bytes_of_of (l : list ascii) : bytes_of (of_bytes l) = l.
Proof. apply String.list_ascii_of_string_of_list_ascii. Qed.

(** Concatenation of a list of strings: a loop of [push_str]. *)
Definition concat_all (l : list string) : string := foldr String.append "" l.

Lemma concat_all_app (l1 l2 : list string) :
  concat_all (l1 ++ l2) = concat_all l1 +:+ concat_all l2.
Proof. induction l1 as [|x l IH]; simpl; [done|]. by rewrite IH, sapp_assoc. Qed.

Lemma push_str_fold {A} (f : A → string) (l : list A) (acc : string) :
  fold_left (λ out x, out +:+ f x) l acc = acc +:+ concat_all (f <$> l).
Proof.
  revert acc. induction l as [|x l IH]; intros acc; simpl; [by rewrite sapp_nil_r|].
  by rewrite IH, sapp_assoc.
Qed.

(** The first [n] bytes and the rest. *)
Fixpoint stake (n : nat) (s : string) : string :=
  match n, s with
  | S n', String c s' => String c (stake n' s')
  | _, _ => ""
  end.
Fixpoint sdrop (n : nat) (s : string) : string :=
  match n, s with
  | S n', String _ s' => sdrop n' s'
  | _, _ => s
  end.

Lemma stake_app (a b : string) : stake (String.length a) (a +:+ b) = a.
Proof. induction a as [|x a IH]; simpl; [by destruct b|]. by rewrite IH. Qed.
Lemma sdrop_app (a b : string) : sdrop (String.length a) (a +:+ b) = b.
Proof. induction a as [|x a IH]; simpl; [by destruct b|]. done. Qed.
Lemma stake_sdrop n (s : string) : stake n s +:+ sdrop n s = s.
Proof.
  revert s. induction n as [|n IH]; intros [|x s]; simpl; try done. by rewrite IH.
Qed.
Lemma stake_length n (s : string) : String.length (stake n s) = (n `min` String.length s)%nat.
Proof. revert s. induction n as [|n IH]; intros [|x s]; simpl; try done. by rewrite IH. Qed.
Lemma stake_stake n m (s : string) : (n ≤ m)%nat → stake n (stake m s) = stake n s.
Proof.
  revert m s. induction n as [|n IH]; intros m s Hm; [done|]. destruct m as [|m]; [lia|].
  destruct s as [|x s]; [done|]. simpl. rewrite IH; [done|lia].
Qed.
Lemma sdrop_length n (s : string) : String.length (sdrop n s) = (String.length s - n)%nat.
Proof. revert s. induction n as [|n IH]; by intros [|x s]; simpl. Qed.

Lemma sapp_inj_r (a b c : string) : a +:+ c = b +:+ c → a = b.
Proof.
  intros H. apply (f_equal String.length) in H as Hlen. rewrite !slen_app in Hlen.
  rewrite <- (stake_app a c), <- (stake_app b c), H. f_equal. lia.
Qed.

(** [str::starts_with] for one character and [str::strip_prefix] for one. *)
Definition starts_with (c : ascii) (s : string) : bool :=
  match s with String c' _ => bool_decide (c' = c) | EmptyString => false end.
Definition strip_prefix (c : ascii) (s : string) : option string :=
  match s with
  | String c' r => if decide (c' = c) then Some r else None
  | EmptyString => None
  end.

Fixpoint smap (f : ascii → ascii) (s : string) : string :=
  match s with
  | EmptyString => EmptyString
  | String c s' => String (f c) (smap f s')
  end.

Fixpoint scontains (p : ascii → bool) (s : string) : bool :=
  match s with
  | EmptyString => false
  | String c s' => p c || scontains p s'
  end.

(** * ASCII case *)

Definition upper_char (c : ascii) : ascii :=
  let n := N_of_ascii c in
  if decide (97 ≤ n ≤ 122)%N then ascii_of_N (n - 32) else c.
Definition lower_char (c : ascii) : ascii :=
  let n := N_of_ascii c in
  if decide (65 ≤ n ≤ 90)%N then ascii_of_N (n + 32) else c.

Definition to_ascii_uppercase : string → string := smap upper_char.
Definition to_ascii_lowercase : string → string := smap lower_char.
Definition eq_ignore_ascii_case (a b : string) : bool :=
  bool_decide (to_ascii_lowercase a = to_ascii_lowercase b).

Lemma upper_char_idem c : upper_char (upper_char c) = upper_char c.
Proof. destruct c as [[] [] [] [] [] [] [] []]; vm_compute; done. Qed.

Lemma upper_lower_char c : upper_char (lower_char c) = upper_char c.
Proof. destruct c as [[] [] [] [] [] [] [] []]; vm_compute; done. Qed.

(** * White space *)

(** The Unicode [White_Space] characters by their UTF-8 encodings: one byte
    (U+0009 to U+000D and U+0020), two bytes (U+0085, U+00A0) and three bytes
    (U+1680, U+2000 to U+200A, U+2028, U+2029, U+202F, U+205F, U+3000). *)
Definition ws1 (a : ascii) : bool :=
  let n := N_of_ascii a in bool_decide (9 ≤ n ≤ 13)%N || bool_decide (n = 32)%N.
Definition ws2 (a b : ascii) : bool :=
  let n := N_of_ascii b in
  bool_decide (N_of_ascii a = 194)%N && (bool_decide (n = 133)%N || bool_decide (n = 160)%N).
Definition ws3 (a b c : ascii) : bool :=
  let x := N_of_ascii a in
  let y := N_of_ascii b in
  let z := N_of_ascii c in
  (bool_decide (x = 225)%N && bool_decide (y = 154)%N && bool_decide (z = 128)%N)
  || (bool_decide (x = 226)%N && bool_decide (y = 128)%N
      && (bool_decide (128 ≤ z ≤ 138)%N || bool_decide (z = 168)%N
          || bool_decide (z = 169)%N || bool_decide (z = 175)%N))
  || (bool_decide (x = 226)%N && bool_decide (y = 129)%N && bool_decide (z = 159)%N)
  || (bool_decide (x = 227)%N && bool_decide (y = 128)%N && bool_decide (z = 128)%N).

Definition flush (cur : string) : list string :=
  match cur with EmptyString => [] | _ => [cur] end.

(** [str::split_whitespace]; [cur] is the word being read. *)
Fixpoint split_ws (cur : string) (s : string) : list string :=
  match s with
  | EmptyString => flush cur
  | String a s1 =>
      if ws1 a then flush cur ++ split_ws "" s1
      else match s1 with
      | EmptyString => split_ws (cur +:+ String a "") s1
      | String b s2 =>
          if ws2 a b then flush cur ++ split_ws "" s2
          else match s2 with
          | EmptyString => split_ws (cur +:+ String a "") s1
          | String c s3 =>
              if ws3 a b c then flush cur ++ split_ws "" s3
              else split_ws (cur +:+ String a "") s1
          end
      end
  end.
Definition split_whitespace (s : string) : list string := split_ws "" s.

Fixpoint all_ws (s : string) : bool :=
  match s with
  | EmptyString => true
  | String a s1 =>
      if ws1 a then all_ws s1
      else match s1 with
      | EmptyString => false
      | String b s2 =>
          if ws2 a b then all_ws s2
          else match s2 with
          | EmptyString => false
          | String c s3 => if ws3 a b c then all_ws s3 else false
          end
      end
  end.

(** [str::trim_end]: the shortest prefix with only white space after it. *)
Fixpoint trim_end (s : string) : string :=
  if all_ws s then ""
  else match s with
  | EmptyString => ""
  | String a s' => String a (trim_end s')
  end.

(** A byte that is ASCII and not white space. *)
Definition plain (c : ascii) : Prop := (N_of_ascii c < 128)%N ∧ ws1 c = false.

Lemma plain_not_ws2 a b : plain a → ws2 a b = false.
Proof.
  intros [H _]. unfold ws2. rewrite (bool_decide_false (N_of_ascii a = 194)%N) by lia. done.
Qed.
Lemma plain_not_ws3 a b c : plain a → ws3 a b c = false.
Proof.
  intros [H _]. unfold ws3.
  rewrite !(bool_decide_false (N_of_ascii a = _)%N) by lia. done.
Qed.

Lemma all_ws_plain a s : plain a → all_ws (String a s) = false.
Proof.
  intros Ha. pose proof Ha as [_ Hw]. simpl. rewrite Hw.
  destruct s as [|b [|c s]]; [done|by rewrite plain_not_ws2|].
  by rewrite plain_not_ws2, plain_not_ws3.
Qed.

(** A line of plain bytes loses exactly its line terminator. *)
Lemma trim_end_plain s : Forall plain (bytes_of s) → trim_end (s +:+ CRLF) = s.
Proof.
  induction s as [|a s IH]; intros H; [done|]. inversion H as [|? ? Ha Hs]; subst.
  change (String a s +:+ CRLF) with (String a (s +:+ CRLF)).
  cbn [trim_end]. rewrite all_ws_plain by done. by rewrite IH.
Qed.

Lemma digit_plain c : is_digit c → plain c.
Proof.
  unfold is_digit, digit_of. intros [d H]. case_decide as Hd; [|done]. clear H.
  split; [lia|]. unfold ws1. rewrite !bool_decide_false by lia. done.
Qed.

(** * UTF-8 *)

Definition cont_byte (c : ascii) : bool := bool_decide (128 ≤ N_of_ascii c ≤ 191)%N.

(** [str::from_utf8]'s check: no overlong forms, no surrogates, nothing above
    U+10FFFF. *)
Fixpoint utf8_valid (s : string) : bool :=
  match s with
  | EmptyString => true
  | String a s1 =>
      let x := N_of_ascii a in
      if decide (x < 128)%N then utf8_valid s1
      else match s1 with
      | EmptyString => false
      | String b s2 =>
          let y := N_of_ascii b in
          if decide (194 ≤ x ≤ 223)%N then cont_byte b && utf8_valid s2
          else match s2 with
          | EmptyString => false
          | String c s3 =>
              if decide (224 ≤ x ≤ 239)%N then
                cont_byte b && cont_byte c
                && (if decide (x = 224)%N then bool_decide (160 ≤ y)%N else true)
                && (if decide (x = 237)%N then bool_decide (y ≤ 159)%N else true)
                && utf8_valid s3
              else match s3 with
              | EmptyString => false
              | String d s4 =>
                  if decide (240 ≤ x ≤ 244)%N then
                    cont_byte b && cont_byte c && cont_byte d
                    && (if decide (x = 240)%N then bool_decide (144 ≤ y)%N else true)
                    && (if decide (x = 244)%N then bool_decide (y ≤ 143)%N else true)
                    && utf8_valid s4
                  else false
              end
          end
      end
  end.

Lemma utf8_valid_ascii s t :
  Forall (λ c, N_of_ascii c < 128)%N (bytes_of s) → utf8_valid (s +:+ t) = utf8_valid t.
Proof.
  induction s as [|a s IH]; intros H; [done|]. inversion H; subst.
  change (String a s +:+ t) with (String a (s +:+ t)). cbn [utf8_valid].
  rewrite decide_True by done. auto.
Qed.

(** * Cut strings *)

Lemma sapp_split (a b c d : string) :
  a +:+ b = c +:+ d →
  (∃ x, a = c +:+ x ∧ d = x +:+ b) ∨ (∃ y x, c = a +:+ String y x ∧ b = String y x +:+ d).
Proof.
  revert c. induction a as [|h a IH]; intros c H.
  - simpl in H. destruct c as [|y c].
    + left. exists "". by subst.
    + right. by exists y, c.
  - destruct c as [|y c]; [left; by exists (String h a)|].
    simpl in H. injection H as -> H. destruct (IH c H) as [(x & -> & ->)|(z & x & -> & ->)].
    + left. by exists x.
    + right. by exists z, x.
Qed.

Lemma trim_end_plain_nil s : Forall plain (bytes_of s) → trim_end s = s.
Proof.
  induction s as [|a s IH]; intros H; [done|]. inversion H as [|? ? Ha Hs]; subst.
  cbn [trim_end]. rewrite all_ws_plain by done. by rewrite IH.
Qed.

Lemma trim_end_plain_cr s : Forall plain (bytes_of s) → trim_end (s +:+ String CR "") = s.
Proof.
  induction s as [|a s IH]; intros H; [done|]. inversion H as [|? ? Ha Hs]; subst.
  change (String a s +:+ String CR "") with (String a (s +:+ String CR "")).
  cbn [trim_end]. rewrite all_ws_plain by done. by rewrite IH.
Qed.

(** A line cut before its end: what is left is ASCII without a line feed, and
    trims to a prefix of the line. *)
Lemma cut_line line a y x :
  Forall plain (bytes_of line) → a +:+ String y x = line +:+ CRLF →
  Forall (λ c, N_of_ascii c < 128)%N (bytes_of a) ∧ Forall (λ c, c ≠ LF) (bytes_of a) ∧
  ∃ rest, line = trim_end a +:+ rest ∧ (trim_end a = "" → line ≠ "" → a = "").
Proof.
  intros Hline H.
  assert (Hplain : ∀ s, Forall plain (bytes_of s) →
    Forall (λ c, N_of_ascii c < 128)%N (bytes_of s) ∧ Forall (λ c, c ≠ LF) (bytes_of s)).
  { intros s Hs. split; (eapply Forall_impl; [exact Hs|]); intros c [Hc Hw]; [done|].
    intros ->. discriminate Hw. }
  symmetry in H. apply sapp_split in H as [(z & -> & H)|(c & z & -> & H)].
  - rewrite bytes_of_app in Hline. apply Forall_app in Hline as [Ha _].
    destruct (Hplain a Ha). rewrite trim_end_plain_nil by done. split_and!; [done|done|].
    exists z. split; [done|]. intros ->. done.
  - unfold CRLF in H. simpl in H. injection H as <- H.
    destruct z as [|d z].
    + simpl in H. destruct (Hplain line Hline) as [H1 H2].
      rewrite bytes_of_app. rewrite trim_end_plain_cr by done.
      split; [apply Forall_app; split; [done|by repeat constructor]|].
      split; [apply Forall_app; split; [done|by repeat constructor]|].
      exists "". rewrite sapp_nil_r. split; [done|]. by intros ->.
    + exfalso. simpl in H. injection H as _ H. by destruct z.
Qed.

(** * Lines *)

(** The bytes up to and including the first line feed, and the bytes after. *)
Fixpoint split_line (s : string) : string * string :=
  match s with
  | EmptyString => ("", "")
  | String c s' =>
      if decide (c = LF) then (String c "", s')
      else let '(l, r) := split_line s' in (String c l, r)
  end.

Lemma split_line_app a b :
  Forall (λ c, c ≠ LF) (bytes_of a) →
  split_line (a +:+ String LF b) = (a +:+ String LF "", b).
Proof.
  induction a as [|x a IH]; intros H; simpl; [done|].
  inversion H; subst. rewrite decide_False by done. by rewrite IH.
Qed.

Lemma split_line_crlf a b :
  Forall plain (bytes_of a) → split_line (a +:+ CRLF +:+ b) = (a +:+ CRLF, b).
Proof.
  intros Ha. unfold CRLF at 1.
  replace (a +:+ String CR (String LF "") +:+ b)
    with ((a +:+ String CR "") +:+ String LF b) by (by rewrite sapp_assoc).
  rewrite split_line_app; [by rewrite sapp_assoc|].
  rewrite bytes_of_app. apply Forall_app. split; [|by repeat constructor].
  eapply Forall_impl; [exact Ha|]. intros c [_ Hw] ->. discriminate Hw.
Qed.

Lemma split_line_none a : Forall (λ c, c ≠ LF) (bytes_of a) → split_line a = (a, "").
Proof.
  induction a as [|x a IH]; intros H; simpl; [done|].
  inversion H; subst. rewrite decide_False by done. by rewrite IH.
Qed.

Lemma split_line_join s : (split_line s).1 +:+ (split_line s).2 = s.
Proof.
  induction s as [|c s IH]; simpl; [done|]. case_decide; [done|].
  destruct (split_line s) as [l r]; simpl in *. by rewrite IH.
Qed.

(** * Byte order *)

(** [str::cmp]: lexicographic on the bytes. *)
Definition str_cmp (a b : string) : comparison := String.compare a b.

Lemma str_cmp_eq a b : str_cmp a b = Eq ↔ a = b.
Proof.
  split; [apply String.compare_eq_iff|]. intros <-.
  induction a as [|x a IH]; simpl; [done|].
  unfold Ascii.compare. by rewrite N.compare_refl.
Qed.

Lemma str_cmp_antisym a b : str_cmp a b = CompOpp (str_cmp b a).
Proof. apply String.compare_antisym. Qed.

Lemma str_cmp_trans a b c : str_cmp a b = Lt → str_cmp b c = Lt → str_cmp a c = Lt.
Proof.
  unfold str_cmp. revert b c.
  induction a as [|x a IH]; intros [|y b] [|z c]; simpl; try done.
  unfold Ascii.compare. intros H1 H2.
  destruct (N.compare_spec (N_of_ascii x) (N_of_ascii y)) as [E1|E1|E1]; [..|done];
  destruct (N.compare_spec (N_of_ascii y) (N_of_ascii z)) as [E2|E2|E2]; try done;
  destruct (N.compare_spec (N_of_ascii x) (N_of_ascii z)) as [E3|E3|E3];
    try done; try lia; eauto.
Qed.

Example split_whitespace_example :
  split_whitespace "  SET  k v " = ["SET"; "k"; "v"]%string.
Proof. vm_compute. done. Qed.
