(* ===== verification/RustPath.v ===== *)
(** The part of [std::path] the program uses: [Path::with_extension] on Unix
    paths, bytes separated by slashes. *)

From S2P Require Import Prelude RustInt RustStr.
Local Open Scope Z_scope.

Definition slash : ascii := "/"%char.
Definition dot : ascii := "."%char.

(** A list up to the first [c], and the rest from that [c] on. *)
Fixpoint break_at (c : ascii) (l : list ascii) : list ascii * list ascii :=
  match l with
  | [] => ([], [])
  | x :: r =>
      if decide (x = c) then ([], l)
      else let '(before, rest) := break_at c r in (x :: before, rest)
  end.

(** The components of a path that are separators or, after a separator, a dot
    alone are not seen at its end. The argument is the path reversed. *)
Fixpoint skip_trailing (r : list ascii) : list ascii :=
  match r with
  | x :: r' =>
      if decide (x = slash) then skip_trailing r'
      else if decide (x = dot) then
        match r' with
        | y :: _ => if decide (y = slash) then skip_trailing r' else r
        | [] => r
        end
      else r
  | [] => []
  end.

(** [Path::file_name], with what comes before it: none for an empty path, a
    root, and a path that ends in two dots or is a dot. *)
Definition file_parts (path : string) : option (list ascii * list ascii) :=
  let '(name, dir) := break_at slash (skip_trailing (reverse (bytes_of path))) in
  if decide (name = [] ∨ name = [dot] ∨ name = [dot; dot]) then None
  else Some (reverse dir, reverse name).

(** [Path::file_stem]: the name up to its last dot, unless that dot begins it. *)
Definition file_stem (name : list ascii) : list ascii :=
  match break_at dot (reverse name) with
  | (_, _ :: before) => if decide (before = []) then name else reverse before
  | (_, []) => name
  end.

Definition with_extension (path extension : string) : string :=
  match file_parts path with
  | None => path
  | Some (dir, name) =>
      of_bytes (dir ++ file_stem name) +:+ (if decide (extension = "") then "" else "." +:+ extension)
  end.

(** A path that ends in the name of a file. *)
Definition has_file_name (path : string) : Prop := is_Some (file_parts path).
#[export] Instance has_file_name_dec path : Decision (has_file_name path).
Proof. unfold has_file_name. apply _. Defined.

(** * Facts *)

Lemma break_at_app c l : (break_at c l).1 ++ (break_at c l).2 = l.
Proof.
  induction l as [|x r IH]; simpl; [done|]. case_decide; [done|].
  destruct (break_at c r). simpl in *. by rewrite IH.
Qed.

Lemma break_at_before c l : c ∉ (break_at c l).1.
Proof.
  induction l as [|x r IH]; simpl; [apply not_elem_of_nil|]. case_decide; [apply not_elem_of_nil|].
  destruct (break_at c r). simpl in *. apply not_elem_of_cons. auto.
Qed.

Lemma break_at_rest c l x rest : (break_at c l).2 = x :: rest → x = c.
Proof.
  induction l as [|y r IH]; simpl; [done|]. case_decide; [by intros [= <- _]|].
  by destruct (break_at c r).
Qed.

(** What is skipped begins with a separator or a dot. *)
Lemma skip_trailing_suffix r :
  skip_trailing r = r ∨
  ∃ x skipped, (x = slash ∨ x = dot) ∧ r = x :: skipped ++ skip_trailing r.
Proof.
  induction r as [|x r IH]; [by left|]. cbn [skip_trailing]. destruct (decide (x = slash)) as [->|].
  - right. destruct IH as [-> | (y & skipped & _ & IH)].
    + exists slash, []. auto.
    + exists slash, (y :: skipped). split; [auto|]. by rewrite IH at 1.
  - destruct (decide (x = dot)) as [->|]; [|by left].
    destruct r as [|y r]; [by left|]. destruct (decide (y = slash)) as [->|]; [|by left].
    right. destruct IH as [-> | (z & skipped & _ & IH)].
    + exists dot, []. auto.
    + exists dot, (z :: skipped). split; [auto|]. by rewrite IH at 1.
Qed.

(** A new extension that has a dot of its own and does not end like a path's
    trailing components gives another path: a path's own extension has no dot. *)
Lemma with_extension_ne path extension x r :
  has_file_name path → reverse (bytes_of extension) = x :: r →
  x ≠ slash → x ≠ dot → dot ∈ r → with_extension path extension ≠ path.
Proof.
  intros [[dir name] Hparts] Hrev Hslash Hdot Hin Heq. unfold with_extension in Heq.
  rewrite Hparts in Heq. rewrite decide_False in Heq by (intros ->; discriminate Hrev).
  apply (f_equal (λ s, reverse (bytes_of s))) in Heq. cbv beta in Heq.
  rewrite !bytes_of_app, bytes_of_of, !reverse_app, Hrev in Heq. cbn in Heq.
  unfold file_parts in Hparts.
  set (p := reverse (bytes_of path)) in *.
  pose proof (break_at_app slash (skip_trailing p)) as Happ.
  destruct (break_at slash (skip_trailing p)) as [rname rdir]. cbn [fst snd] in *.
  case_decide; [done|]. injection Hparts as <- <-. rewrite reverse_involutive in Heq.
  destruct (skip_trailing_suffix p) as [Hp | (y & skipped & Hy & Hp)].
  2: { rewrite Hp in Heq. injection Heq as -> _. by destruct Hy. }
  rewrite Hp in Happ. rewrite <- Happ, <- !app_assoc in Heq. cbn [app] in Heq.
  assert (Hname : x :: r ++ [dot] ++ reverse (file_stem (reverse rname)) = rname).
  { apply (app_inv_tail rdir). rewrite <- Heq. cbn. by rewrite <- app_assoc. }
  clear Heq Happ Hp. unfold file_stem in Hname. rewrite reverse_involutive in Hname.
  pose proof (break_at_app dot rname) as Hb. pose proof (break_at_before dot rname) as Hnot.
  pose proof (break_at_rest dot rname) as Hd.
  destruct (break_at dot rname) as [e rest]. cbn [fst snd] in *.
  assert (Hfull : x :: r ++ [dot] ++ reverse (reverse rname) ≠ rname).
  { intros H0. apply (f_equal length) in H0. rewrite reverse_involutive in H0.
    cbn in H0. rewrite !length_app in H0. cbn in H0. lia. }
  destruct rest as [|z before]; [done|]. case_decide; [done|].
  rewrite (Hd _ _ eq_refl) in Hb. rewrite reverse_involutive, <- Hb in Hname.
  apply (app_inv_tail (dot :: before) (x :: r)) in Hname. apply Hnot. rewrite <- Hname.
  apply elem_of_cons. by right.
Qed.

Example stem_of_snapshot : with_extension "data/dump.rdb.json" "tmp.7.0" = "data/dump.rdb.tmp.7.0".
Proof. reflexivity. Qed.
Example stem_of_hidden : with_extension "data/.dump/./" "tmp.7.0" = "data/.dump.tmp.7.0".
Proof. reflexivity. Qed.
Example no_file_name : with_extension "data/.." "tmp.7.0" = "data/..".
Proof. reflexivity. Qed.
