(* ===== verification/RustF64.v ===== *)
(** The [f64] scores of sorted sets.

    A double is a [spec_float] of the Standard Library's IEEE 754 model with 53
    bits of precision.  This file gives the operations the program applies to
    scores ([+], comparisons, [is_nan]), [str::parse::<f64>] and [f64]'s
    [to_string], and the interface of the [ordered_float] crate, whose
    [OrderedFloat] is what the sorted set stores. *)

From S2P Require Import Prelude RustInt RustStr.
From Stdlib Require Import SpecFloat.
Local Open Scope Z_scope.

Abbreviation f64 := spec_float.

#[export] Instance f64_eq_dec : EqDecision f64.
Proof. solve_decision. Defined.

Definition f64_prec : Z := 53.
Definition f64_emax : Z := 1024.

Definition f64_zero : f64 := S754_zero false.
Definition f64_infinity : f64 := S754_infinity false.
Definition f64_neg_infinity : f64 := S754_infinity true.

Definition is_nan (x : f64) : bool := match x with S754_nan => true | _ => false end.
Definition f64_add (x y : f64) : f64 := SFadd f64_prec f64_emax x y.
(** [<], [<=], [>] and [>=] on [f64]: false when an operand is NaN. *)
Definition f64_lt (x y : f64) : bool := SFltb x y.
Definition f64_le (x y : f64) : bool := SFleb x y.
Definition f64_gt (x y : f64) : bool := SFltb y x.
Definition f64_ge (x y : f64) : bool := SFleb y x.

(** * The [ordered_float] crate

    [OrderedFloat] is not code of this repository.  What the program relies on is
    its documented total order: on numbers it is the order of [f64] (so [-0] and
    [+0] are equal), and NaN is equal to itself and greater than every number. *)
Class OrderedFloat : Type := {
  of_cmp : f64 → f64 → comparison;
  of_eqb : f64 → f64 → bool;
  of_cmp_number x y c : SFcompare x y = Some c → of_cmp x y = c;
  of_cmp_nan : of_cmp S754_nan S754_nan = Eq;
  of_cmp_antisym x y : of_cmp x y = CompOpp (of_cmp y x);
  of_cmp_trans x y z : of_cmp x y = Lt → of_cmp y z = Lt → of_cmp x z = Lt;
  of_cmp_equal x y z : of_cmp x y = Eq → of_cmp x z = of_cmp y z;
  of_eqb_cmp x y : of_eqb x y = match of_cmp x y with Eq => true | _ => false end
}.

Section ordered_float.
Context {OF : OrderedFloat}.

Lemma of_cmp_refl x : of_cmp x x = Eq.
Proof. pose proof (of_cmp_antisym x x). by destruct (of_cmp x x). Qed.

Lemma of_eqb_true x y : of_eqb x y = true ↔ of_cmp x y = Eq.
Proof. rewrite of_eqb_cmp. by destruct (of_cmp x y). Qed.
End ordered_float.

(** ** An implementation of the interface *)

Definition total_cmp (x y : f64) : comparison :=
  match SFcompare x y with
  | Some c => c
  | None =>
      match is_nan x, is_nan y with
      | true, true => Eq
      | true, false => Gt
      | false, _ => Lt
      end
  end.

Definition total_eqb (x y : f64) : bool :=
  match total_cmp x y with Eq => true | _ => false end.

(** The place of a double in the order, as an integer triple compared
    lexicographically. *)
Definition cmp_key (x : f64) : Z * Z * Z :=
  match x with
  | S754_infinity true => (-2, 0, 0)
  | S754_finite true m e => (-1, - e, - Z.pos m)
  | S754_zero _ => (0, 0, 0)
  | S754_finite false m e => (1, e, Z.pos m)
  | S754_infinity false => (2, 0, 0)
  | S754_nan => (3, 0, 0)
  end.

Definition key_cmp (a b : Z * Z * Z) : comparison :=
  match a.1.1 ?= b.1.1 with
  | Eq => match a.1.2 ?= b.1.2 with Eq => a.2 ?= b.2 | c => c end
  | c => c
  end.

Lemma total_cmp_key x y : total_cmp x y = key_cmp (cmp_key x) (cmp_key y).
Proof.
  destruct x as [[]|[]| |[] m e], y as [[]|[]| |[] m' e'];
    unfold total_cmp, key_cmp; simpl; try done.
  - rewrite Z.compare_opp, (Z.compare_antisym e e'). by destruct (e ?= e').
Qed.

Lemma key_cmp_antisym a b : key_cmp a b = CompOpp (key_cmp b a).
Proof.
  unfold key_cmp. rewrite (Z.compare_antisym b.1.1), (Z.compare_antisym b.1.2), (Z.compare_antisym b.2).
  destruct (b.1.1 ?= a.1.1), (b.1.2 ?= a.1.2), (b.2 ?= a.2); done.
Qed.

Lemma key_cmp_eq a b : key_cmp a b = Eq → a = b.
Proof.
  unfold key_cmp. destruct a as [[a1 a2] a3], b as [[b1 b2] b3]; simpl.
  destruct (Z.compare_spec a1 b1), (Z.compare_spec a2 b2); try done.
  intros ?%Z.compare_eq. by subst.
Qed.

Lemma key_cmp_trans a b c : key_cmp a b = Lt → key_cmp b c = Lt → key_cmp a c = Lt.
Proof.
  unfold key_cmp. destruct a as [[a1 a2] a3], b as [[b1 b2] b3], c as [[c1 c2] c3]; simpl.
  destruct (Z.compare_spec a1 b1), (Z.compare_spec b1 c1), (Z.compare_spec a1 c1);
    try done; try lia; subst;
  destruct (Z.compare_spec a2 b2), (Z.compare_spec b2 c2), (Z.compare_spec a2 c2);
    try done; try lia; subst; rewrite !Z.compare_lt_iff; lia.
Qed.

#[export] Instance total_order : OrderedFloat.
Proof.
  refine {| of_cmp := total_cmp; of_eqb := total_eqb |}.
  - intros x y c H. unfold total_cmp. by rewrite H.
  - done.
  - intros x y. rewrite !total_cmp_key. apply key_cmp_antisym.
  - intros x y z. rewrite !total_cmp_key. apply key_cmp_trans.
  - intros x y z. rewrite !total_cmp_key. intros E%key_cmp_eq. by rewrite E.
  - done.
Defined.

(** * Parsing *)

(** The double nearest to [m * 10^e], ties to even. *)
Definition decimal_to_f64 (neg : bool) (m : Z) (e : Z) : f64 :=
  match m with
  | Z0 => S754_zero neg
  | _ =>
      if decide (0 ≤ e) then
        binary_round f64_prec f64_emax neg (Z.to_pos (m * 10 ^ e)) 0
      else
        let '(q, e', l) := SFdiv_core_binary f64_prec f64_emax m 0 (10 ^ (- e)) 0 in
        binary_round_aux f64_prec f64_emax neg q e' l
  end.

(** Leading digits: the value [acc] extended, how many were read, the rest. *)
Fixpoint scan_digits (acc n : Z) (s : string) : Z * Z * string :=
  match s with
  | EmptyString => (acc, n, s)
  | String c s' =>
      match digit_of c with
      | Some d => scan_digits (10 * acc + d) (n + 1) s'
      | None => (acc, n, s)
      end
  end.

(** An optional exponent, which must end the text. *)
Definition scan_exponent (s : string) : option Z :=
  match s with
  | EmptyString => Some 0
  | String c r =>
      if bool_decide (c = "e"%char) || bool_decide (c = "E"%char) then
        let '(neg, digits) :=
          match r with
          | String "-" r' => (true, r')
          | String "+" r' => (false, r')
          | _ => (false, r)
          end in
        let '(x, n, rest) := scan_digits 0 0 digits in
        if decide (n = 0 ∨ rest ≠ "") then None
        else Some (if (neg : bool) then - x else x)
      else None
  end.

Definition scan_number (neg : bool) (s : string) : option f64 :=
  let '(ip, n1, s1) := scan_digits 0 0 s in
  let '(m, n2, s2) :=
    match strip_prefix "." s1 with
    | Some r => scan_digits ip 0 r
    | None => (ip, 0, s1)
    end in
  if decide (n1 + n2 = 0) then None
  else match scan_exponent s2 with
  | Some e => Some (decimal_to_f64 neg m (e - n2))
  | None => None
  end.

Definition scan_special (neg : bool) (s : string) : option f64 :=
  let l := to_ascii_lowercase s in
  if decide (l = "nan"%string) then Some S754_nan
  else if decide (l = "inf"%string ∨ l = "infinity"%string) then Some (S754_infinity neg)
  else None.

(** [str::parse::<f64>] *)
Definition parse_f64 (s : string) : option f64 :=
  let '(neg, body) :=
    match s with
    | String "-" r => (true, r)
    | String "+" r => (false, r)
    | _ => (false, s)
    end in
  match body with
  | EmptyString => None
  | _ =>
      match scan_number neg body with
      | Some x => Some x
      | None => scan_special neg body
      end
  end.

(** * Formatting *)

(** The least [k >= k0] with [num/den < 10^k]. *)
Fixpoint dec_exponent (fuel : nat) (num den k : Z) : Z :=
  match fuel with
  | O => k
  | S fuel' =>
      let lt := if decide (0 ≤ k) then bool_decide (num < den * 10 ^ k)
                else bool_decide (num * 10 ^ (- k) < den) in
      if lt then k else dec_exponent fuel' num den (k + 1)
  end.

Fixpoint strip_zeros (fuel : nat) (d p : Z) : Z * Z :=
  match fuel with
  | O => (d, p)
  | S fuel' => if decide (d mod 10 = 0) then strip_zeros fuel' (d / 10) (p + 1) else (d, p)
  end.

(** [m * 2^e] in full. *)
Definition exact_decimal (m e : Z) : Z * Z :=
  if decide (0 ≤ e) then (m * 2 ^ e, 0) else (m * 5 ^ (- e), e).

(** The shortest decimal [d * 10^p] that parses back to the double [x], which is
    [m * 2^e] and is [num/den]; among those of that length the nearest. With [fuel = 16]
    it tries up to 17 digits, which always do; nothing depends on that, since the
    decimal in full is what is left. *)
Fixpoint shortest (fuel : nat) (n m e num den k : Z) : Z * Z :=
  let x := S754_finite false (Z.to_pos m) e in
  let p := k - n in
  let a := if decide (0 ≤ p) then num else num * 10 ^ (- p) in
  let b := if decide (0 ≤ p) then den * 10 ^ p else den in
  let lo := strip_zeros 18 (a / b) p in
  let hi := strip_zeros 18 (a / b + 1) p in
  let lo_ok := bool_decide (decimal_to_f64 false lo.1 lo.2 = x) in
  let hi_ok := bool_decide (decimal_to_f64 false hi.1 hi.2 = x) in
  match lo_ok, hi_ok, fuel with
  | true, true, _ => if decide (2 * (a mod b) < b) then lo else hi
  | true, false, _ => lo
  | false, true, _ => hi
  | false, false, O => exact_decimal m e
  | false, false, S fuel' => shortest fuel' (n + 1) m e num den k
  end.

Definition zeros (n : Z) : string := of_bytes (replicate (Z.to_nat n) "0"%char).

(** [d * 10^p] in positional notation. *)
Definition render_decimal (d p : Z) : string :=
  let ds := int_to_string d in
  let len := slen ds in
  if decide (0 ≤ p) then ds +:+ zeros p
  else if decide (- p < len) then
    stake (Z.to_nat (len + p)) ds +:+ "." +:+ sdrop (Z.to_nat (len + p)) ds
  else "0." +:+ zeros (- p - len) +:+ ds.

(** [f64::to_string]: positional, never an exponent, the shortest digits that
    read back as the same double. *)
Definition f64_to_string (x : f64) : string :=
  match x with
  | S754_nan => "NaN"
  | S754_infinity s => if s then "-inf" else "inf"
  | S754_zero s => if s then "-0" else "0"
  | S754_finite s m e =>
      let num := if decide (0 ≤ e) then Z.pos m * 2 ^ e else Z.pos m in
      let den := if decide (0 ≤ e) then 1 else 2 ^ (- e) in
      let k0 := ((Z.log2 (Z.pos m) + e) * 30103) / 100000 - 1 in
      let k := dec_exponent 5 num den k0 in
      let '(d, p) := shortest 16 1 (Z.pos m) e num den k in
      (if s then "-" else "") +:+ render_decimal d p
  end.

Definition f64_of_text (s : string) : f64 := default S754_nan (parse_f64 s).

Example f64_text_examples :
  f64_to_string (f64_of_text "3.0") = "3"%string
  ∧ f64_to_string (f64_of_text "1e2") = "100"%string
  ∧ f64_to_string (f64_of_text "-.50") = "-0.5"%string
  ∧ f64_to_string (f64_of_text "0.1") = "0.1"%string
  ∧ f64_to_string (f64_of_text "123456.789") = "123456.789"%string
  ∧ f64_to_string (f64_of_text "5e-324") =
      ("0." +:+ zeros 323 +:+ "5")%string
  ∧ f64_to_string (f64_of_text "1e400") = "inf"%string
  ∧ f64_to_string (f64_of_text "9007199254740993") = "9007199254740992"%string
  ∧ f64_to_string (f64_add (f64_of_text "0.1") (f64_of_text "0.2")) = "0.30000000000000004"%string
  ∧ f64_to_string (f64_of_text "1.7976931348623157e308") =
      ("17976931348623157" +:+ zeros 292)%string.
Proof. vm_compute. repeat split. Qed.

Example parse_f64_rejects :
  parse_f64 "." = None ∧ parse_f64 "e5" = None ∧ parse_f64 "" = None ∧ parse_f64 "1e" = None
  ∧ parse_f64 "-" = None ∧ parse_f64 "1x" = None ∧ parse_f64 "-Infinity" = Some f64_neg_infinity
  ∧ parse_f64 "+nAn" = Some S754_nan ∧ parse_f64 "1." = parse_f64 "1".
Proof. vm_compute. repeat split. Qed.

Lemma f64_add_zero_nan x : is_nan x = false → is_nan (f64_add f64_zero x) = false.
Proof. by destruct x as [[]|[]| |[] ? ?]. Qed.
