(* ===== verification/F64Text.v ===== *)
(** The text of a double reads back as that double: [str::parse::<f64>] undoes
    [f64]'s [to_string]. A snapshot keeps the scores of its sorted sets as texts. *)

From S2P Require Import Prelude RustInt RustStr RustF64.
From Stdlib Require Import SpecFloat.
Local Open Scope Z_scope.

(** A [spec_float] that a 64-bit double can be: no more than 53 bits, normalised, and an
    exponent in its range. *)
Definition f64_valid (x : f64) : Prop := valid_binary f64_prec f64_emax x = true.
#[export] Instance f64_valid_dec x : Decision (f64_valid x).
Proof. unfold f64_valid. apply _. Defined.

(** * What is exact is not rounded *)

Lemma digits2_log2 p : Z.pos (digits2_pos p) = Z.log2 (Z.pos p) + 1.
Proof.
  induction p as [p IH|p IH|]; [| |done]; cbn [digits2_pos]; rewrite Pos2Z.inj_succ, IH.
  - rewrite Pos2Z.inj_xI, Z.log2_succ_double by lia. lia.
  - rewrite Pos2Z.inj_xO, Z.log2_double by lia. lia.
Qed.

Lemma Zdigits2_log2 z : 0 < z → Zdigits2 z = Z.log2 z + 1.
Proof. destruct z; [done| |done]. intros _. apply digits2_log2. Qed.

Lemma iter_pos_shr p z :
  0 < z → iter_pos shr_1 p {| shr_m := z * 2 ^ Z.pos p; shr_r := false; shr_s := false |} =
    {| shr_m := z; shr_r := false; shr_s := false |}.
Proof.
  revert z. assert (Hone : ∀ z, 0 < z →
    shr_1 {| shr_m := z * 2; shr_r := false; shr_s := false |} = {| shr_m := z; shr_r := false; shr_s := false |}).
  { intros z Hz. rewrite Z.mul_comm. by destruct z. }
  induction p as [p IH|p IH|]; intros z Hz; cbn [iter_pos].
  - replace (z * 2 ^ Z.pos p~1) with (z * 2 ^ Z.pos p * 2 ^ Z.pos p * 2).
    + rewrite Hone, !IH by lia. done.
    + replace (Z.pos p~1) with (Z.pos p + Z.pos p + 1) by lia. rewrite !Z.pow_add_r by lia. lia.
  - replace (z * 2 ^ Z.pos p~0) with (z * 2 ^ Z.pos p * 2 ^ Z.pos p).
    + rewrite !IH by lia. done.
    + replace (Z.pos p~0) with (Z.pos p + Z.pos p) by lia. rewrite Z.pow_add_r by lia. lia.
  - rewrite Z.pow_1_r. by apply Hone.
Qed.

Lemma shr_exact z e j :
  0 < z → 0 ≤ j →
  shr {| shr_m := z * 2 ^ j; shr_r := false; shr_s := false |} e j =
    ({| shr_m := z; shr_r := false; shr_s := false |}, e + j).
Proof.
  intros Hz Hj. destruct j as [|j|j]; [|by cbn [shr]; rewrite iter_pos_shr|lia].
  simpl. f_equal; [f_equal|]; lia.
Qed.

Section exact.
Context (m : positive) (e : Z).
Context (Hvalid : bounded f64_prec f64_emax m e = true).

Lemma bounded_canonical : fexp f64_prec f64_emax (Z.log2 (Z.pos m) + 1 + e) = e ∧ e ≤ f64_emax - f64_prec.
Proof.
  unfold bounded, canonical_mantissa in Hvalid. rewrite andb_true_iff in Hvalid.
  destruct Hvalid as [H1 H2]. rewrite digits2_log2 in H1. lia.
Qed.

Lemma shr_fexp_exact j :
  0 ≤ j → shr_fexp f64_prec f64_emax (Z.pos m * 2 ^ j) (e - j) loc_Exact =
    ({| shr_m := Z.pos m; shr_r := false; shr_s := false |}, e).
Proof.
  intros Hj. unfold shr_fexp. cbn [shr_record_of_loc]. rewrite Zdigits2_log2 by lia.
  rewrite Z.log2_mul_pow2 by lia. destruct bounded_canonical as [Hc _].
  replace (j + Z.log2 (Z.pos m) + 1 + (e - j)) with (Z.log2 (Z.pos m) + 1 + e) by lia. rewrite Hc.
  replace (e - (e - j)) with j by lia. rewrite shr_exact by lia. f_equal. lia.
Qed.

Lemma round_exact s j :
  0 ≤ j → binary_round_aux f64_prec f64_emax s (Z.pos m * 2 ^ j) (e - j) loc_Exact = S754_finite s m e.
Proof.
  intros Hj. unfold binary_round_aux. rewrite shr_fexp_exact by done.
  cbn [shr_m loc_of_shr_record round_nearest_even].
  pose proof (shr_fexp_exact 0 ltac:(lia)) as H. rewrite Z.pow_0_r, Z.mul_1_r, Z.sub_0_r in H.
  rewrite H. cbn [shr_m]. destruct bounded_canonical as [_ He].
  assert ((e <=? f64_emax - f64_prec) = true) as -> by lia. done.
Qed.

(** The decimal in full is the double. *)
Lemma exact_decimal_reads :
  let '(d, p) := exact_decimal (Z.pos m) e in 0 < d ∧ decimal_to_f64 false d p = S754_finite false m e.
Proof.
  unfold exact_decimal. destruct bounded_canonical as [Hc He]. case_decide as Hpos.
  - split; [lia|]. assert (Hz : 0 < Z.pos m * 2 ^ e) by lia.
    unfold decimal_to_f64. destruct (Z.pos m * 2 ^ e) as [|z|z] eqn:Hm; [lia| |lia].
    rewrite decide_True by lia. rewrite Z.pow_0_r, Z.mul_1_r. cbn [Z.to_pos].
    unfold binary_round. rewrite digits2_log2, <- Hm, Z.log2_mul_pow2 by lia.
    replace (e + Z.log2 (Z.pos m) + 1 + 0) with (Z.log2 (Z.pos m) + 1 + e) by lia. rewrite Hc.
    assert (Halign : shl_align z 0 e = (z, 0)).
    { unfold shl_align. change (Z.sub e 0) with (e - 0). rewrite Z.sub_0_r. by destruct e. }
    rewrite Halign, <- Hm. replace 0 with (e - e) at 1 by lia. by apply round_exact.
  - set (k := - e). assert (Hk : 0 < k) by lia.
    assert (H5 : 0 < 5 ^ k) by (apply Z.pow_pos_nonneg; lia).
    assert (H10 : 10 ^ k = 5 ^ k * 2 ^ k) by (rewrite <- Z.pow_mul_l; done).
    assert (Hz : 0 < Z.pos m * 5 ^ k) by lia. split; [done|].
    unfold decimal_to_f64. rewrite decide_False by lia.
    destruct (Z.pos m * 5 ^ k) as [|z|z] eqn:Hm; [lia| |lia]. rewrite <- Hm.
    unfold SFdiv_core_binary. rewrite !Zdigits2_log2 by lia. fold k. cbv zeta.
    set (e' := Z.min _ _).
    assert (He' : e' ≤ e).
    { unfold e'. etrans; [apply Z.le_min_l|]. rewrite H10, Z.log2_mul_pow2 by lia.
      pose proof (Z.log2_mul_above (Z.pos m) (5 ^ k) ltac:(lia) ltac:(lia)) as Hlog.
      rewrite <- Hc. unfold fexp. apply Z.max_le_compat_r. lia. }
    replace (0 - 0 - e') with (k + (e - e')) by lia.
    destruct (k + (e - e')) as [|s|s] eqn:Hshift; [lia| |lia]. rewrite <- Hshift, Z.shiftl_mul_pow2 by lia.
    rewrite Z.pow_add_r by lia.
    assert (Hdiv : Z.pos m * 5 ^ k * (2 ^ k * 2 ^ (e - e')) = 10 ^ k * (Z.pos m * 2 ^ (e - e')) + 0) by (rewrite H10; lia).
    destruct (Z.div_eucl (Z.pos m * 5 ^ k * (2 ^ k * 2 ^ (e - e'))) (10 ^ k)) as [q r] eqn:Hqr.
    pose proof (Z_div_mod (Z.pos m * 5 ^ k * (2 ^ k * 2 ^ (e - e'))) (10 ^ k) ltac:(lia)) as Hspec.
    rewrite Hqr in Hspec. destruct Hspec as [Heq Hr].
    rewrite Hdiv in Heq. apply Z.div_mod_unique in Heq as [<- <-]; [|lia..].
    assert (Hloc : new_location (10 ^ k) 0 = loc_Exact) by (unfold new_location; by destruct (Z.even _)).
    rewrite Hloc. replace e' with (e - (e - e')) at 2 by lia. apply round_exact. lia.
Qed.
End exact.

(** * The digits of the text *)

Lemma strip_zeros_nonneg fuel d p : 0 ≤ d → 0 ≤ (strip_zeros fuel d p).1.
Proof.
  revert d p. induction fuel as [|fuel IH]; intros d p Hd; cbn [strip_zeros]; [done|].
  case_decide; [|done]. apply IH. apply Z.div_pos; lia.
Qed.

(** Whatever its fuel, the search ends with digits that read back. *)
Lemma shortest_reads fuel n m e num den k :
  bounded f64_prec f64_emax m e = true → 0 ≤ num → 0 < den →
  let '(d, p) := shortest fuel n (Z.pos m) e num den k in
  0 ≤ d ∧ decimal_to_f64 false d p = S754_finite false m e.
Proof.
  intros Hm Hnum Hden. revert n.
  assert (Hexact : let '(d, p) := exact_decimal (Z.pos m) e in
    0 ≤ d ∧ decimal_to_f64 false d p = S754_finite false m e).
  { pose proof (exact_decimal_reads m e Hm) as H. destruct (exact_decimal _ _).
    destruct H as [Hd H]. split; [lia|done]. }
  assert (Hdigits : ∀ a b p, 0 ≤ a → 0 < b →
    0 ≤ (strip_zeros 18 (a / b) p).1 ∧ 0 ≤ (strip_zeros 18 (a / b + 1) p).1).
  { intros a b p Ha Hb. pose proof (Z.div_pos a b Ha Hb). split; apply strip_zeros_nonneg; lia. }
  induction fuel as [|fuel IH]; intros n; cbn [shortest Z.to_pos]; cbv zeta;
    set (p := k - n); set (a := if decide (0 ≤ p) then num else _); set (b := if decide (0 ≤ p) then _ else den);
    (destruct (Hdigits a b p) as [Hlo Hhi];
     [unfold a; case_decide; [done|apply Z.mul_nonneg_nonneg; [done|apply Z.pow_nonneg; lia]]
     |unfold b; case_decide; [apply Z.mul_pos_pos; [done|apply Z.pow_pos_nonneg; lia]|done]
     |]);
    destruct (strip_zeros 18 (a / b) p) as [lo plo], (strip_zeros 18 (a / b + 1) p) as [hi phi];
    cbn [fst snd] in *; repeat case_bool_decide; repeat case_decide; auto; apply IH.
Qed.

Lemma parse_digits_app acc a b : parse_digits acc (a +:+ b) = parse_digits acc a ≫= λ v, parse_digits v b.
Proof.
  revert acc. induction a as [|c a IH]; intros acc; [done|]. cbn [parse_digits]. simpl.
  destruct (digit_of c); [apply IH|done].
Qed.

Lemma scan_digits_app acc n ds v rest :
  parse_digits acc ds = Some v → scan_digits acc n (ds +:+ rest) = scan_digits v (n + slen ds) rest.
Proof.
  revert acc n. induction ds as [|c ds IH]; intros acc n; cbn [parse_digits].
  - intros [= ->]. simpl. f_equal. lia.
  - simpl. destruct (digit_of c) as [d|]; [|done]. intros H. rewrite (IH _ _ H). f_equal. simpl. lia.
Qed.

Lemma parse_zeros acc n : parse_digits acc (zeros (Z.of_nat n)) = Some (acc * 10 ^ Z.of_nat n).
Proof.
  unfold zeros. rewrite Nat2Z.id. revert acc. induction n as [|n IH]; intros acc; cbn [replicate].
  - simpl. f_equal. lia.
  - change (of_bytes ("0"%char :: replicate n "0"%char)) with (String "0" (of_bytes (replicate n "0"%char))).
    cbn [parse_digits]. change (digit_of "0") with (Some 0). cbv iota. rewrite IH. f_equal.
    rewrite Nat2Z.inj_succ, Z.pow_succ_r by lia. lia.
Qed.

Lemma zeros_length n : slen (zeros (Z.of_nat n)) = Z.of_nat n.
Proof. unfold zeros. rewrite Nat2Z.id. induction n as [|n IH]; [done|]. simpl in *. lia. Qed.

Lemma decimal_shift neg d p : 0 < d → 0 ≤ p → decimal_to_f64 neg (d * 10 ^ p) 0 = decimal_to_f64 neg d p.
Proof.
  intros Hd Hp. assert (0 < d * 10 ^ p) by lia. unfold decimal_to_f64.
  destruct (d * 10 ^ p) as [|z|z] eqn:Hz; [lia| |lia]. destruct d as [|d|d]; [lia| |lia].
  rewrite !decide_True by lia. by rewrite Z.pow_0_r, Z.mul_1_r.
Qed.

Lemma decimal_sign d p : decimal_to_f64 true d p = SFopp (decimal_to_f64 false d p).
Proof.
  assert (Haux : ∀ q e l, binary_round_aux f64_prec f64_emax true q e l =
    SFopp (binary_round_aux f64_prec f64_emax false q e l)).
  { intros q e l. unfold binary_round_aux. repeat case_match; done. }
  unfold decimal_to_f64. destruct d; [done|..];
    (case_decide; [unfold binary_round; destruct (shl_align _ _ _); apply Haux|]);
    destruct (SFdiv_core_binary _ _ _ _ _ _) as [[q e] l]; apply Haux.
Qed.

Lemma scan_positive neg d p : 0 < d → scan_number neg (render_decimal d p) = Some (decimal_to_f64 neg d p).
Proof.
  intros Hd. unfold render_decimal. set (ds := int_to_string d).
  assert (Hds : parse_digits 0 ds = Some d).
  { unfold ds, int_to_string. rewrite decide_False by lia. rewrite nat_to_string_parse. f_equal. lia. }
  assert (Hlen : 0 < slen ds) by (destruct ds; [injection Hds as <-; lia|simpl; lia]).
  unfold scan_number. destruct (decide (0 ≤ p)) as [Hp|Hp].
  - rewrite <- (sapp_nil_r (ds +:+ zeros p)), sapp_assoc, (scan_digits_app 0 0 ds d) by done.
    pose proof (parse_zeros d (Z.to_nat p)) as Hz. pose proof (zeros_length (Z.to_nat p)) as Hl.
    rewrite Z2Nat.id in Hz, Hl by done. rewrite (scan_digits_app _ _ _ _ "" Hz), Hl.
    cbn [scan_digits strip_prefix]. rewrite decide_False by lia. simpl. by rewrite decimal_shift.
  - destruct (decide (- p < slen ds)) as [Hin|Hin].
    + set (n := Z.to_nat (slen ds + p)). pose proof (sdrop_length n ds) as Hrest.
      pose proof (f_equal String.length (stake_sdrop n ds)) as Hsplit. rewrite slen_app in Hsplit.
      rewrite <- (stake_sdrop n ds), parse_digits_app in Hds.
      destruct (parse_digits 0 (stake n ds)) as [v|] eqn:Hv; [|done]. simpl in Hds.
      rewrite (scan_digits_app 0 0 _ v _ Hv). cbn [scan_digits strip_prefix]. simpl.
      rewrite <- (sapp_nil_r (sdrop n ds)), (scan_digits_app _ _ _ _ "" Hds). cbn [scan_digits].
      rewrite decide_False by lia. simpl. repeat f_equal. lia.
    + pose proof (parse_zeros 0 (Z.to_nat (- p - slen ds))) as Hz.
      pose proof (zeros_length (Z.to_nat (- p - slen ds))) as Hl. rewrite Z2Nat.id in Hz, Hl by lia. rewrite Z.mul_0_l in Hz.
      change (scan_digits 0 0 ("0." +:+ zeros (- p - slen ds) +:+ ds))
        with (0, 1, "." +:+ zeros (- p - slen ds) +:+ ds). cbn [strip_prefix]. simpl.
      rewrite (scan_digits_app _ _ _ _ _ Hz), Hl.
      rewrite <- (sapp_nil_r ds) at 2. rewrite (scan_digits_app _ _ _ _ "" Hds). cbn [scan_digits].
      rewrite decide_False by lia. simpl. repeat f_equal. lia.
Qed.

(** * The round trip *)

Lemma render_digit d p : 0 ≤ d → ∃ c rest, render_decimal d p = String c rest ∧ is_digit c.
Proof.
  intros Hd. unfold render_decimal.
  assert (int_to_string d = nat_to_string (Z.to_N d)) as ->.
  { unfold int_to_string. by rewrite decide_False by lia. }
  destruct (nat_to_string_cons (Z.to_N d)) as (c & s & -> & Hc).
  case_decide; [by exists c, (s +:+ zeros p)|]. case_decide as Hp;
    [|eexists "0"%char, _; split; [reflexivity|by exists 0]].
  destruct (Z.to_nat (slen (String c s) + p)) as [|n] eqn:Hn; [lia|]. simpl. by eexists c, _.
Qed.

Lemma parse_f64_signed (s : bool) c rest x :
  is_digit c → scan_number s (String c rest) = Some x →
  parse_f64 ((if s then "-" else "") +:+ String c rest) = Some x.
Proof.
  intros Hc Hscan. destruct s; unfold parse_f64; simpl; [by rewrite Hscan|].
  assert (Hsign : c ≠ "-"%char ∧ c ≠ "+"%char) by (split; intros ->; by destruct Hc).
  assert (Hmatch : match String c rest with
    | String "-" r => (true, r) | String "+" r => (false, r) | _ => (false, String c rest)
    end = (false, String c rest)).
  { clear -Hsign. destruct Hsign as [H1 H2]. destruct c as [[] [] [] [] [] [] [] []]; done. }
  rewrite Hmatch. by rewrite Hscan.
Qed.

(** [str::parse::<f64>] undoes [to_string] on every double. *)
Theorem f64_text_reads x : f64_valid x → parse_f64 (f64_to_string x) = Some x.
Proof.
  intros Hx. destruct x as [[]|[]| |s m e]; [vm_compute; reflexivity..|].
  unfold f64_to_string. cbv zeta.
  set (num := if decide (0 ≤ e) then _ else _). set (den := if decide (0 ≤ e) then _ else _).
  set (k := dec_exponent _ _ _ _).
  pose proof (shortest_reads 16 1 m e num den k Hx) as H.
  destruct (shortest 16 1 (Z.pos m) e num den k) as [d p]. destruct H as [Hd Hreads].
  - unfold num. case_decide; [|done]. apply Z.mul_nonneg_nonneg; [done|apply Z.pow_nonneg; lia].
  - unfold den. case_decide; [done|]. apply Z.pow_pos_nonneg; lia.
  - assert (Hpos : 0 < d) by (destruct d; [discriminate Hreads|lia|lia]).
    destruct (render_digit d p Hd) as (c & rest & Hr & Hc).
    rewrite Hr. apply parse_f64_signed; [done|]. rewrite <- Hr, scan_positive by done. f_equal.
    destruct s; [by rewrite decimal_sign, Hreads|done].
Qed.
