(* ===== verification/HashOrder.v ===== *)
(** Iteration over hash tables.

    [HashMap] and [HashSet] iterate in an arbitrary order that depends on the
    table's random hasher and on its history.  The model keeps their contents as
    [gmap] and [gset] and takes the order from an instance of [HashOrder]; all
    that is known of it is that it visits each entry once.  Statements about two
    runs of the server (a restart, the replay of a log) quantify over two
    instances. *)

From S2P Require Import Prelude.

Class HashOrder : Type := {
  iter_map {A} : gmap string A → list (string * A);
  iter_set : gset string → list string;
  iter_ids {A} : gmap Z A → list (Z * A);
  iter_map_perm {A} (m : gmap string A) : iter_map m ≡ₚ map_to_list m;
  iter_set_perm (s : gset string) : iter_set s ≡ₚ elements s;
  iter_ids_perm {A} (m : gmap Z A) : iter_ids m ≡ₚ map_to_list m
}.

(** Two instances, for concrete examples: an order and its reverse. *)
#[export] Instance canonical_order : HashOrder := {|
  iter_map A := map_to_list;
  iter_set := elements;
  iter_ids A := map_to_list;
  iter_map_perm A m := reflexivity _;
  iter_set_perm s := reflexivity _;
  iter_ids_perm A m := reflexivity _
|}.

Definition reverse_order : HashOrder := {|
  iter_map A m := rev (map_to_list m);
  iter_set s := rev (elements s);
  iter_ids A m := rev (map_to_list m);
  iter_map_perm A m := Permutation_sym (Permutation_rev _);
  iter_set_perm s := Permutation_sym (Permutation_rev _);
  iter_ids_perm A m := Permutation_sym (Permutation_rev _)
|}.

Section order.
Context {HO : HashOrder}.

Lemma elem_of_iter_set x s : x ∈ iter_set s ↔ x ∈ s.
Proof. rewrite iter_set_perm. apply elem_of_elements. Qed.

Lemma elem_of_iter_map {A} k (v : A) m : (k, v) ∈ iter_map m ↔ m !! k = Some v.
Proof. rewrite iter_map_perm. apply elem_of_map_to_list. Qed.

Lemma NoDup_iter_set s : NoDup (iter_set s).
Proof. rewrite iter_set_perm. apply NoDup_elements. Qed.

Lemma NoDup_iter_map_keys {A} (m : gmap string A) : NoDup (iter_map m).*1.
Proof. rewrite iter_map_perm. apply NoDup_fst_map_to_list. Qed.

Lemma NoDup_iter_map {A} (m : gmap string A) : NoDup (iter_map m).
Proof. rewrite iter_map_perm. apply NoDup_map_to_list. Qed.

Lemma iter_set_nil s : iter_set s = [] ↔ s = ∅.
Proof.
  split; [|intros ->]; intros.
  - apply leibniz_equiv, set_equiv. intros x. rewrite <- elem_of_iter_set, H. set_solver.
  - apply Permutation_nil. rewrite iter_set_perm. by rewrite elements_empty.
Qed.
End order.
