(* ===== verification/BTree.v ===== *)
(** [BTreeSet] of the standard library: a list kept sorted by a total order
    whose equality may be coarser than Leibniz equality. *)

From stdpp Require Import sorting.
From S2P Require Import Prelude.
From Stdlib Require Import Sorted.

(** [Ord::cmp] of a type that respects its contract. *)
Class CmpOrder {A} (cmp : A → A → comparison) : Prop := {
  cmp_antisym x y : cmp x y = CompOpp (cmp y x);
  cmp_trans x y z : cmp x y = Lt → cmp y z = Lt → cmp x z = Lt;
  cmp_equal x y z : cmp x y = Eq → cmp x z = cmp y z
}.

Section btree.
Context {A : Type} (cmp : A → A → comparison).

(** An equal element that is already there stays. *)
Fixpoint btree_insert (x : A) (l : list A) : list A :=
  match l with
  | [] => [x]
  | y :: l' =>
      match cmp x y with
      | Lt => x :: l
      | Eq => l
      | Gt => y :: btree_insert x l'
      end
  end.

Fixpoint btree_remove (x : A) (l : list A) : list A :=
  match l with
  | [] => []
  | y :: l' =>
      match cmp x y with
      | Lt => l
      | Eq => l'
      | Gt => y :: btree_remove x l'
      end
  end.

Definition lt_of (x y : A) : Prop := cmp x y = Lt.
Definition btree_sorted (l : list A) : Prop := StronglySorted lt_of l.

Context {CO : CmpOrder cmp}.

Lemma cmp_refl x : cmp x x = Eq.
Proof. pose proof (cmp_antisym x x). by destruct (cmp x x). Qed.

Lemma cmp_gt x y : cmp x y = Gt ↔ cmp y x = Lt.
Proof. rewrite cmp_antisym. destruct (cmp y x); naive_solver. Qed.

Lemma sorted_cons_inv x l :
  btree_sorted (x :: l) → btree_sorted l ∧ ∀ y, y ∈ l → cmp x y = Lt.
Proof.
  intros H. inversion H as [|? ? Hl Hx]; subst. split; [done|].
  by apply Forall_forall.
Qed.

Lemma sorted_cons x l :
  btree_sorted l → (∀ y, y ∈ l → cmp x y = Lt) → btree_sorted (x :: l).
Proof.
  intros Hl Hx. constructor; [done|]. by apply Forall_forall.
Qed.

Lemma btree_insert_elem x y l :
  btree_sorted l →
  (y ∈ btree_insert x l ↔ y ∈ l ∨ (y = x ∧ ∀ z, z ∈ l → cmp x z ≠ Eq)).
Proof.
  induction l as [|h l IH]; intros Hs; simpl; [set_solver|].
  apply sorted_cons_inv in Hs as [Hl Hh]. destruct (cmp x h) eqn:E.
  - split; [by left|]. intros [?|[-> Hne]]; [done|].
    destruct (Hne h); [left|done].
  - rewrite elem_of_cons. split; [|naive_solver]. intros [->|?]; [right|by left].
    split; [done|]. intros z Hz Hxz.
    apply elem_of_cons in Hz as [->|Hz]; [congruence|].
    assert (cmp x z = Lt) by (eapply cmp_trans; eauto). congruence.
  - rewrite !elem_of_cons, IH by done. split.
    + intros [->|[?|[-> Hne]]]; [by left; left|by left; right|right].
      split; [done|]. intros z [->|?]%elem_of_cons; [congruence|auto].
    + intros [[->|?]|[-> Hne]]; [by left|by right; left|right; right].
      split; [done|]. intros z Hz. apply Hne. by right.
Qed.

Lemma btree_insert_subset x y l : y ∈ btree_insert x l → y = x ∨ y ∈ l.
Proof.
  induction l as [|h l IH]; simpl; [set_solver|].
  destruct (cmp x h); [set_solver..|]. rewrite !elem_of_cons. naive_solver.
Qed.

Lemma btree_insert_sorted x l : btree_sorted l → btree_sorted (btree_insert x l).
Proof.
  induction l as [|h l IH]; intros Hs; simpl; [by repeat constructor|].
  pose proof Hs as [Hl Hh]%sorted_cons_inv. destruct (cmp x h) eqn:E; [done| |].
  - apply sorted_cons; [done|]. intros y [->|Hy]%elem_of_cons; [done|].
    eapply cmp_trans; eauto.
  - apply sorted_cons; [auto|]. intros y [->|Hy]%btree_insert_subset; [by apply cmp_gt|auto].
Qed.

Lemma btree_remove_elem x y l :
  btree_sorted l → (y ∈ btree_remove x l ↔ y ∈ l ∧ cmp x y ≠ Eq).
Proof.
  induction l as [|h l IH]; intros Hs; simpl; [set_solver|].
  apply sorted_cons_inv in Hs as [Hl Hh]. destruct (cmp x h) eqn:E.
  - rewrite elem_of_cons. split.
    + intros Hy. split; [by right|]. rewrite (cmp_equal x h y), (Hh y) by done. done.
    + intros [[->|?] Hne]; [congruence|done].
  - split; [|tauto]. intros Hy. split; [done|].
    apply elem_of_cons in Hy as [->|Hy]; [congruence|].
    rewrite (cmp_trans x h y) by auto. done.
  - rewrite !elem_of_cons, IH by done. split; [|naive_solver].
    intros [->|[? ?]]; [|naive_solver]. split; [by left|congruence].
Qed.

Lemma btree_remove_sorted x l : btree_sorted l → btree_sorted (btree_remove x l).
Proof.
  induction l as [|h l IH]; intros Hs; simpl; [done|].
  pose proof Hs as [Hl Hh]%sorted_cons_inv. destruct (cmp x h) eqn:E; [done..|].
  apply sorted_cons; [auto|]. intros y Hy. apply Hh.
  apply btree_remove_elem in Hy; [tauto|done].
Qed.

Lemma btree_sorted_NoDup l : btree_sorted l → NoDup l.
Proof.
  induction l as [|h l IH]; intros Hs; [constructor|].
  apply sorted_cons_inv in Hs as [Hl Hh]. constructor; [|auto].
  intros Hin%Hh. by rewrite cmp_refl in Hin.
Qed.

Lemma btree_sorted_lookup l i j x y :
  btree_sorted l → l !! i = Some x → l !! j = Some y → (i < j)%nat → cmp x y = Lt.
Proof.
  revert i j. induction l as [|h l IH]; intros i j Hs Hi Hj Hij; [done|].
  apply sorted_cons_inv in Hs as [Hl Hh].
  destruct j as [|j]; [lia|]. destruct i as [|i]; simplify_eq/=.
  - apply Hh. by eapply list_elem_of_lookup_2.
  - eapply IH; eauto with lia.
Qed.

(** The tree is determined by its elements. *)
Lemma btree_sorted_ext l l' :
  btree_sorted l → btree_sorted l' → (∀ x, x ∈ l ↔ x ∈ l') → l = l'.
Proof.
  intros Hl Hl' Hiff. eapply StronglySorted_unique_strong; [|exact Hl|exact Hl'|].
  - intros x y _ _ Hxy Hyx. unfold lt_of in *. rewrite cmp_antisym, Hyx in Hxy. done.
  - by apply NoDup_Permutation; [apply btree_sorted_NoDup|apply btree_sorted_NoDup|].
Qed.
End btree.
