(* ===== verification/Ranges.v ===== *)
(** Index arithmetic of lists and sorted sets ([data_structure.rs]):
    [resolve_range] and [normalize_index].

    Arguments are [i64], the length a [usize].  The arithmetic is written with
    its 64-bit wrap-around and the lemmas show that no operation leaves the range
    of [i64], whatever the client sent. *)

From S2P Require Import Prelude RustInt.
Local Open Scope Z_scope.

(** A collection's length: [Vec] and the like never exceed [isize::MAX]. *)
Definition valid_len (len : Z) : Prop := 0 ≤ len ≤ i64_max.

(** The closure [normalize] of [resolve_range]. *)
Definition normalize (len index : Z) : Z :=
  if decide (index < 0) then wrap_i64 (index + len) else index.

Definition resolve_range (start stop len : Z) : option (Z * Z) :=
  if decide (len = 0) then None
  else
    let len := wrap_i64 len in
    let start := normalize len start `max` 0 in
    let stop := normalize len stop `min` wrap_i64 (len - 1) in
    if decide (start > stop ∨ start >= len) then None
    else Some (wrap_u64 start, wrap_u64 stop).

Definition normalize_index (index len : Z) : option Z :=
  if decide (len = 0) then None
  else
    let resolved := if decide (index < 0) then wrap_i64 (index + wrap_i64 len) else index in
    if decide (0 ≤ resolved < wrap_i64 len) then Some (wrap_u64 resolved) else None.

(** The element a Redis index denotes in a collection of [len] elements, with no
    bound on the integers. *)
Definition position (index len : Z) : Z := if decide (index < 0) then index + len else index.

Lemma normalize_position index len :
  in_i64 index → valid_len len → normalize len index = position index len.
Proof.
  unfold normalize, position, valid_len, in_i64, i64_max, i64_min. intros Hi Hl.
  case_decide; [|done]. apply wrap_i64_id. unfold in_i64, i64_max, i64_min. lia.
Qed.

(** The offsets selected by [start, stop] are those between the two positions
    that exist; [None] exactly when there is none. *)
Lemma resolve_range_spec start stop len :
  in_i64 start → in_i64 stop → valid_len len →
  match resolve_range start stop len with
  | Some (a, b) =>
      0 ≤ a ≤ b ∧ b < len
      ∧ ∀ i, 0 ≤ i < len → (position start len ≤ i ≤ position stop len ↔ a ≤ i ≤ b)
  | None => ∀ i, 0 ≤ i < len → ¬ (position start len ≤ i ≤ position stop len)
  end.
Proof.
  intros Hs Ht Hl. unfold resolve_range.
  case_decide as H0; [intros; lia|].
  assert (Hw : wrap_i64 len = len).
  { apply wrap_i64_id. unfold valid_len, in_i64, i64_max, i64_min in *. lia. }
  assert (Hw1 : wrap_i64 (len - 1) = len - 1).
  { apply wrap_i64_id. unfold valid_len, in_i64, i64_max, i64_min in *. lia. }
  rewrite Hw, Hw1, !normalize_position by done.
  case_decide as H1.
  { intros i Hi. unfold valid_len in Hl. lia. }
  unfold valid_len, i64_max in Hl.
  rewrite !wrap_u64_id by (unfold in_u64, u64_max; lia).
  split; [lia|]. split; [lia|]. intros i Hi. lia.
Qed.

Lemma normalize_index_spec index len :
  in_i64 index → valid_len len →
  normalize_index index len =
    if decide (0 ≤ position index len < len) then Some (position index len) else None.
Proof.
  intros Hi Hl. unfold normalize_index.
  assert (Hw : wrap_i64 len = len).
  { apply wrap_i64_id. unfold valid_len, in_i64, i64_max, i64_min in *. lia. }
  rewrite Hw. fold (normalize len index). rewrite normalize_position by done.
  case_decide as H0.
  { rewrite decide_False by lia. done. }
  case_decide as H1; [|done].
  rewrite wrap_u64_id; [done|].
  unfold valid_len, in_u64, u64_max, i64_max in *. lia.
Qed.

(** The intermediate sums stay in [i64]. *)
Lemma normalize_no_overflow index len :
  in_i64 index → valid_len len → index < 0 → in_i64 (index + len).
Proof. unfold in_i64, valid_len, i64_min, i64_max. lia. Qed.
