(* ===== verification/RList.v ===== *)
(** [RList] ([data_structure.rs]): a list of strings in a double-ended queue. *)

From S2P Require Import Prelude RustInt Ranges.
Local Open Scope Z_scope.

(** The queue from front to back. *)
Abbreviation RList := (list string).

Definition new : RList := [].
Definition lpush (l : RList) (value : string) : RList := value :: l.
Definition rpush (l : RList) (value : string) : RList := l ++ [value].

Definition lpop (l : RList) : option string * RList :=
  match l with
  | [] => (None, l)
  | x :: l' => (Some x, l')
  end.

Definition rpop (l : RList) : option string * RList :=
  match last l with
  | None => (None, l)
  | Some x => (Some x, take (length l - 1) l)
  end.

Definition len (l : RList) : Z := Z.of_nat (length l).
Definition is_empty (l : RList) : bool := match l with [] => true | _ => false end.

(** [iter().skip(start).take(stop - start + 1)] *)
Definition slice {A} (start stop : Z) (l : list A) : list A :=
  take (Z.to_nat (stop - start + 1)) (drop (Z.to_nat start) l).

Definition lrange (l : RList) (start stop : Z) : list string :=
  match resolve_range start stop (len l) with
  | Some (start, stop) => slice start stop l
  | None => []
  end.

Definition lindex (l : RList) (index : Z) : option string :=
  match normalize_index index (len l) with
  | Some i => l !! Z.to_nat i
  | None => None
  end.

Definition lset (l : RList) (index : Z) (value : string) : bool * RList :=
  match normalize_index index (len l) with
  | Some i => (true, <[Z.to_nat i := value]> l)
  | None => (false, l)
  end.

Lemma slice_all {A} (l : list A) : slice 0 (Z.of_nat (length l) - 1) l = l.
Proof. unfold slice. simpl. rewrite drop_0. apply take_ge. lia. Qed.

(** The elements an inclusive range of positions selects, in order. *)
Definition select_range {A} (start stop : Z) (l : list A) : list A :=
  let n := Z.of_nat (length l) in
  omap (λ i, l !! i)
    (filter (λ i : nat, position start n ≤ Z.of_nat i ≤ position stop n) (seq 0 (length l))).

Lemma filter_seq_none (P : nat → Prop) `{∀ i, Decision (P i)} k n :
  (∀ i, (k ≤ i < k + n)%nat → ¬ P i) → filter P (seq k n) = [].
Proof.
  revert k. induction n as [|n IH]; intros k HP; [done|].
  cbn [seq]. rewrite filter_cons_False by (apply HP; lia).
  apply IH. intros i Hi. apply HP. lia.
Qed.

Lemma filter_seq_interval (P : nat → Prop) `{∀ i, Decision (P i)} k n a b :
  (k ≤ a ≤ b)%nat → (b ≤ k + n)%nat →
  (∀ i, (k ≤ i < k + n)%nat → (P i ↔ (a ≤ i < b)%nat)) →
  filter P (seq k n) = seq a (b - a).
Proof.
  revert k a. induction n as [|n IH]; intros k a Ha Hb HP.
  { by replace (b - a)%nat with 0%nat by lia. }
  cbn [seq]. destruct (decide (k = a)) as [->|Hne].
  - destruct (decide (a = b)) as [->|Hab].
    { rewrite Nat.sub_diag. apply (filter_seq_none P b (S n)).
      intros i Hi. rewrite HP by done. lia. }
    rewrite filter_cons_True by (rewrite HP; lia).
    replace (b - a)%nat with (S (b - S a)) by lia. cbn [seq]. f_equal.
    apply IH; [lia|lia|]. intros i Hi. rewrite HP by lia. lia.
  - rewrite filter_cons_False by (rewrite HP; lia).
    apply IH; [lia|lia|]. intros i Hi. apply HP. lia.
Qed.

Lemma omap_lookup_seq {A} (l : list A) a n :
  omap (λ i, l !! i) (seq a n) = take n (drop a l).
Proof.
  revert a. induction n as [|n IH]; intros a; [done|]. cbn [seq omap list_omap].
  destruct (l !! a) as [x|] eqn:E.
  - rewrite (drop_S l x a) by done. simpl. by rewrite IH.
  - apply lookup_ge_None_1 in E. rewrite IH, !drop_ge by lia. by rewrite !take_nil.
Qed.

(** [skip]/[take] with the offsets of [resolve_range] is the selection. *)
Lemma resolve_select {A} (l : list A) start stop :
  in_i64 start → in_i64 stop → valid_len (Z.of_nat (length l)) →
  match resolve_range start stop (Z.of_nat (length l)) with
  | Some (a, b) => slice a b l
  | None => []
  end = select_range start stop l.
Proof.
  intros Hs Ht Hl. pose proof (resolve_range_spec start stop _ Hs Ht Hl) as Hr.
  unfold select_range. destruct (resolve_range start stop _) as [[a b]|].
  - destruct Hr as (Hab & Hb & Hi).
    erewrite (filter_seq_interval _ 0 (length l) (Z.to_nat a) (Z.to_nat (b + 1))); [|lia|lia|].
    { rewrite omap_lookup_seq. unfold slice. f_equal. lia. }
    intros i Hlt. rewrite Hi by lia. lia.
  - rewrite filter_seq_none; [done|]. intros i Hlt. apply Hr. lia.
Qed.

(** [0] to [-1] is everything. *)
Lemma resolve_all {A} (l : list A) :
  valid_len (Z.of_nat (length l)) →
  match resolve_range 0 (-1) (Z.of_nat (length l)) with
  | Some (a, b) => slice a b l
  | None => []
  end = l.
Proof.
  intros Hl.
  pose proof (resolve_range_spec 0 (-1) (Z.of_nat (length l))) as H. unfold position in H. simpl in H.
  destruct (resolve_range 0 (-1) (Z.of_nat (length l))) as [[a b]|].
  - destruct H as (Hab & Hb & Hi); [done|done|done|].
    pose proof (Hi 0 ltac:(lia)). pose proof (Hi (Z.of_nat (length l) - 1) ltac:(lia)).
    assert (a = 0) as -> by lia. assert (b = Z.of_nat (length l) - 1) as -> by lia.
    apply slice_all.
  - assert (length l = 0)%nat as ->%length_zero_iff_nil; [|done].
    destruct (decide (length l = 0)%nat); [done|]. exfalso. apply (H ltac:(done) ltac:(done) Hl 0); lia.
Qed.

(** [LINDEX] and [LSET] at the position that an index denotes. *)
Lemma lindex_position (l : RList) index :
  in_i64 index → valid_len (len l) →
  lindex l index =
    if decide (0 ≤ position index (len l) < len l) then l !! Z.to_nat (position index (len l)) else None.
Proof. intros. unfold lindex. rewrite normalize_index_spec by done. by case_decide. Qed.

Lemma lset_position (l : RList) index new :
  in_i64 index → valid_len (len l) →
  lset l index new =
    if decide (0 ≤ position index (len l) < len l)
    then (true, <[Z.to_nat (position index (len l)) := new]> l) else (false, l).
Proof. intros. unfold lset. rewrite normalize_index_spec by done. by case_decide. Qed.
