(* ===== verification/RSet.v ===== *)
(** [RSet] ([data_structure.rs]): a set of strings in a [HashSet]. *)

From S2P Require Import Prelude HashOrder.
Local Open Scope Z_scope.

Abbreviation RSet := (gset string).

Definition new : RSet := ∅.

(** [HashSet::insert]: [true] when the value was not there. *)
Definition sadd (s : RSet) (value : string) : bool * RSet :=
  (bool_decide (value ∉ s), {[value]} ∪ s).

(** [HashSet::remove]: [true] when the value was there. *)
Definition srem (s : RSet) (value : string) : bool * RSet :=
  (bool_decide (value ∈ s), s ∖ {[value]}).

Definition smembers {HO : HashOrder} (s : RSet) : list string := iter_set s.
Definition sismember (s : RSet) (value : string) : bool := bool_decide (value ∈ s).
Definition scard (s : RSet) : Z := Z.of_nat (size s).

(** The first member in iteration order. *)
Definition spop {HO : HashOrder} (s : RSet) : option string * RSet :=
  match iter_set s with
  | [] => (None, s)
  | member :: _ => (Some member, (srem s member).2)
  end.

Definition is_empty (s : RSet) : bool := bool_decide (s = ∅).

Lemma spop_spec {HO : HashOrder} (s : RSet) :
  match spop s with
  | (None, s') => s = ∅ ∧ s' = ∅
  | (Some m, s') => m ∈ s ∧ s' = s ∖ {[m]}
  end.
Proof.
  unfold spop. destruct (iter_set s) as [|m l] eqn:E.
  - apply iter_set_nil in E as ->. done.
  - split; [|done]. rewrite <- elem_of_iter_set, E. set_solver.
Qed.

Lemma size_insert (v : string) (s : gset string) : v ∉ s → size ({[v]} ∪ s) = S (size s).
Proof. intros H. rewrite size_union by set_solver. by rewrite size_singleton. Qed.

Lemma union_new (s t : gset string) : s ∖ t ∪ t = s ∪ t.
Proof. apply set_eq. intros x. destruct (decide (x ∈ t)); set_solver. Qed.

