(* ===== verification/RHash.v ===== *)
(** [RHash] ([data_structure.rs]): a map from field to value. *)

From S2P Require Import Prelude HashOrder.
Local Open Scope Z_scope.

Abbreviation RHash := (gmap string string).

Definition new : RHash := ∅.

(** [true] when the field is new. *)
Definition hset (h : RHash) (field value : string) : bool * RHash :=
  (bool_decide (h !! field = None), <[field := value]> h).

Definition hget (h : RHash) (field : string) : option string := h !! field.

(** [true] when the field was there. *)
Definition hdel (h : RHash) (field : string) : bool * RHash :=
  (bool_decide (is_Some (h !! field)), delete field h).

Definition hgetall {HO : HashOrder} (h : RHash) : list (string * string) := iter_map h.
Definition hkeys {HO : HashOrder} (h : RHash) : list string := (iter_map h).*1.
Definition hvals {HO : HashOrder} (h : RHash) : list string := (iter_map h).*2.
Definition hlen (h : RHash) : Z := Z.of_nat (size h).
Definition hexists (h : RHash) (field : string) : bool := bool_decide (is_Some (h !! field)).
Definition is_empty (h : RHash) : bool := bool_decide (h = ∅).

