(* ===== verification/RSortedSet.v ===== *)
(** [RSortedSet] ([data_structure.rs]): members with scores, kept in two
    indexes, a hash map from member to score and a [BTreeSet] ordered by score
    and then member. [zset_ok] says the two hold the same pairs; every operation
    keeps it, and the lemmas read the operations off either index. *)

From S2P Require Import Prelude RustInt RustStr RustF64 BTree Ranges RList.
From Stdlib Require Import Sorted.
Local Open Scope Z_scope.

Record SortedMember := { member : string; score : f64 }.
Record RSortedSet := { members : gmap string f64; sorted : list SortedMember }.

#[export] Instance SortedMember_eq_dec : EqDecision SortedMember.
Proof. solve_decision. Defined.

Section zset.
Context {OF : OrderedFloat}.

(** [Ord for SortedMember]: by score, then by member. *)
Definition sm_cmp (a b : SortedMember) : comparison :=
  match of_cmp (score a) (score b) with
  | Eq => str_cmp (member a) (member b)
  | c => c
  end.

(** [PartialEq for SortedMember]. *)
Definition sm_eq (a b : SortedMember) : bool :=
  bool_decide (member a = member b) && of_eqb (score a) (score b).

Definition new : RSortedSet := {| members := ∅; sorted := [] |}.

Definition zadd (z : RSortedSet) (sc : f64) (m : string) : bool * RSortedSet :=
  let insert_new (is_new : bool) (tree : list SortedMember) :=
    (is_new,
     {| members := <[m := sc]> (members z);
        sorted := btree_insert sm_cmp {| member := m; score := sc |} tree |}) in
  match members z !! m with
  | Some old_score =>
      if of_eqb old_score sc then (false, z)
      else insert_new false
        (btree_remove sm_cmp {| member := m; score := old_score |} (sorted z))
  | None => insert_new true (sorted z)
  end.

Definition zrem (z : RSortedSet) (m : string) : bool * RSortedSet :=
  match members z !! m with
  | Some sc =>
      (true,
       {| members := delete m (members z);
          sorted := btree_remove sm_cmp {| member := m; score := sc |} (sorted z) |})
  | None => (false, z)
  end.

Definition tree_len (z : RSortedSet) : Z := Z.of_nat (length (sorted z)).

Definition zrange (z : RSortedSet) (start stop : Z) : list string :=
  match resolve_range start stop (tree_len z) with
  | Some (start, stop) => member <$> slice start stop (sorted z)
  | None => []
  end.

Definition zscore (z : RSortedSet) (m : string) : option f64 := members z !! m.
Definition zcard (z : RSortedSet) : Z := Z.of_nat (size (members z)).

(** [iter().position(..)] *)
Definition zrank (z : RSortedSet) (m : string) : option Z :=
  (λ p : nat * SortedMember, Z.of_nat p.1) <$> list_find (λ e, member e = m) (sorted z).

Definition zrange_with_scores (z : RSortedSet) (start stop : Z) : list (string * f64) :=
  match resolve_range start stop (tree_len z) with
  | Some (start, stop) => (λ e, (member e, score e)) <$> slice start stop (sorted z)
  | None => []
  end.

(** The filter of [zrange_by_score]. *)
Definition score_in (min : f64) (min_inclusive : bool) (max : f64) (max_inclusive : bool)
    (sc : f64) : bool :=
  let above_min := if min_inclusive then f64_ge sc min else f64_gt sc min in
  let below_max := if max_inclusive then f64_le sc max else f64_lt sc max in
  above_min && below_max.

Definition zrange_by_score (z : RSortedSet) (min : f64) (min_inclusive : bool)
    (max : f64) (max_inclusive : bool) : list string :=
  member <$> filter (λ e, score_in min min_inclusive max max_inclusive (score e) = true) (sorted z).

Definition is_empty (z : RSortedSet) : bool := bool_decide (members z = ∅).

(** * The order *)

#[export] Instance sm_cmp_order : CmpOrder sm_cmp.
Proof.
  split; unfold sm_cmp.
  - intros x y. rewrite (of_cmp_antisym (score x)), (str_cmp_antisym (member x)).
    by destruct (of_cmp (score y) (score x)).
  - intros x y z.
    destruct (of_cmp (score x) (score y)) eqn:E1; try done.
    + rewrite (of_cmp_equal _ _ (score z) E1).
      destruct (of_cmp (score y) (score z)); try done. apply str_cmp_trans.
    + intros _. destruct (of_cmp (score y) (score z)) eqn:E2; try done.
      * intros _. rewrite (of_cmp_antisym (score x)).
        rewrite <- (of_cmp_equal _ _ (score x) E2), of_cmp_antisym, E1. done.
      * intros _. by rewrite (of_cmp_trans _ _ _ E1 E2).
  - intros x y z. destruct (of_cmp (score x) (score y)) eqn:E1; try done.
    intros E2%str_cmp_eq. by rewrite (of_cmp_equal _ _ (score z) E1), E2.
Qed.

Lemma sm_cmp_eq a b : sm_cmp a b = Eq ↔ member a = member b ∧ of_cmp (score a) (score b) = Eq.
Proof.
  unfold sm_cmp. rewrite <- str_cmp_eq. destruct (of_cmp (score a) (score b)); naive_solver.
Qed.

Lemma sm_eq_cmp a b : sm_eq a b = true ↔ sm_cmp a b = Eq.
Proof.
  unfold sm_eq. by rewrite sm_cmp_eq, andb_true_iff, bool_decide_eq_true, of_eqb_true.
Qed.

(** * The two indexes agree *)

Record zset_ok (z : RSortedSet) : Prop := {
  zset_sorted : btree_sorted sm_cmp (sorted z);
  zset_sync m s : members z !! m = Some s ↔ {| member := m; score := s |} ∈ sorted z
}.

Lemma new_ok : zset_ok new.
Proof. split; [constructor|]. intros m s. simpl. rewrite lookup_empty. set_solver. Qed.

Lemma sync_member z e : zset_ok z → e ∈ sorted z → members z !! member e = Some (score e).
Proof. intros Hz He. apply (zset_sync z Hz). by destruct e. Qed.

(** Removing the pair recorded for [m] removes it and nothing else. *)
Lemma remove_recorded z m s e :
  zset_ok z → members z !! m = Some s →
  (e ∈ btree_remove sm_cmp {| member := m; score := s |} (sorted z)
   ↔ e ∈ sorted z ∧ member e ≠ m).
Proof.
  intros Hz Hm. rewrite (btree_remove_elem sm_cmp) by apply Hz. split; intros [He Hne]; (split; [done|]).
  - intros <-. apply Hne, sm_cmp_eq. pose proof (sync_member z e Hz He).
    simplify_eq. split; [done|]. apply of_cmp_refl.
  - intros [Heq _]%sm_cmp_eq. by apply Hne.
Qed.

(** Inserting a member that is not in the tree. *)
Lemma insert_fresh l m s e :
  btree_sorted sm_cmp l → (∀ e', e' ∈ l → member e' ≠ m) →
  (e ∈ btree_insert sm_cmp {| member := m; score := s |} l
   ↔ e ∈ l ∨ e = {| member := m; score := s |}).
Proof.
  intros Hs Hf. rewrite (btree_insert_elem sm_cmp) by done. split; [naive_solver|].
  intros [?| ->]; [by left|right]. split; [done|].
  intros z Hz [Heq _]%sm_cmp_eq. by apply (Hf z Hz).
Qed.

Lemma zadd_ok z s m : zset_ok z → zset_ok (zadd z s m).2.
Proof.
  intros Hz. unfold zadd. destruct (members z !! m) as [old|] eqn:E.
  - case_match; [done|]. simpl.
    assert (Hs : btree_sorted sm_cmp (btree_remove sm_cmp {| member := m; score := old |} (sorted z))).
    { apply (btree_remove_sorted sm_cmp), Hz. }
    split; [by apply (btree_insert_sorted sm_cmp)|]. simpl. intros m' s'.
    rewrite insert_fresh; [|done|intros e' [_ ?]%remove_recorded; done].
    rewrite remove_recorded, <- (zset_sync z Hz) by done. simpl.
    destruct (decide (m = m')) as [<-|Hne]; simplify_map_eq; naive_solver.
  - simpl. split; [apply (btree_insert_sorted sm_cmp), Hz|]. simpl. intros m' s'.
    rewrite insert_fresh; [|apply Hz|].
    + rewrite <- (zset_sync z Hz).
      destruct (decide (m = m')) as [<-|Hne]; simplify_map_eq; naive_solver.
    + intros e He <-. apply (sync_member z e Hz) in He. congruence.
Qed.

Lemma zrem_ok z m : zset_ok z → zset_ok (zrem z m).2.
Proof.
  intros Hz. unfold zrem. destruct (members z !! m) as [s|] eqn:E; [|done]. simpl. split; simpl.
  - apply (btree_remove_sorted sm_cmp), Hz.
  - intros m' s'. rewrite remove_recorded, <- (zset_sync z Hz) by done. simpl.
    destruct (decide (m = m')) as [<-|Hne]; simplify_map_eq; naive_solver.
Qed.

(** * What the operations compute *)

(** The score recorded after an addition: the new one, unless the member had an
    equal one, which stays ([-0] is not replaced by [+0]). *)
Definition recorded_score (old : option f64) (s : f64) : f64 :=
  match old with
  | Some o => if of_eqb o s then o else s
  | None => s
  end.

Lemma zadd_members z s m :
  members (zadd z s m).2 = <[m := recorded_score (members z !! m) s]> (members z).
Proof.
  unfold zadd, recorded_score. destruct (members z !! m) as [old|] eqn:E; [|done].
  case_match; [|done]. simpl. by rewrite insert_id.
Qed.

Lemma zadd_new z s m : (zadd z s m).1 = bool_decide (members z !! m = None).
Proof. unfold zadd. destruct (members z !! m) as [old|] eqn:E; [by case_match|done]. Qed.

Lemma zrem_members z m : members (zrem z m).2 = delete m (members z).
Proof.
  unfold zrem. destruct (members z !! m) as [s|] eqn:E; [done|]. simpl.
  by rewrite delete_id.
Qed.

Lemma zrem_found z m : (zrem z m).1 = bool_decide (is_Some (members z !! m)).
Proof. unfold zrem. by destruct (members z !! m). Qed.

Lemma tree_map_to_list z :
  zset_ok z → (λ e, (member e, score e)) <$> sorted z ≡ₚ map_to_list (members z).
Proof.
  intros Hz. apply NoDup_Permutation.
  - apply NoDup_fmap_2.
    + intros [m1 s1] [m2 s2] ?; by simplify_eq/=.
    + apply (btree_sorted_NoDup sm_cmp), Hz.
  - apply NoDup_map_to_list.
  - intros [m s]. rewrite list_elem_of_fmap, elem_of_map_to_list, (zset_sync z Hz).
    split; [intros ([m' s'] & ? & ?); by simplify_eq/=|].
    intros H. by exists {| member := m; score := s |}.
Qed.

Lemma tree_len_zcard z : zset_ok z → tree_len z = zcard z.
Proof.
  intros Hz. unfold tree_len, zcard. f_equal.
  rewrite <- length_map_to_list, <- (tree_map_to_list z Hz). by rewrite length_fmap.
Qed.

Lemma NoDup_members z : zset_ok z → NoDup (member <$> sorted z).
Proof.
  intros Hz. pose proof (NoDup_fst_map_to_list (members z)) as H.
  rewrite <- (tree_map_to_list z Hz), <- list_fmap_compose in H. exact H.
Qed.

(** [zrank] is the place of the member in the order [zrange] lists. *)
Lemma zrank_lookup z m i :
  zset_ok z →
  (zrank z m = Some i ↔ 0 ≤ i ∧ (member <$> sorted z) !! Z.to_nat i = Some m).
Proof.
  intros Hz. unfold zrank. split.
  - intros ([j e] & (Hj & He & _)%list_find_Some & ->)%fmap_Some. simpl. split; [lia|].
    rewrite Nat2Z.id, list_lookup_fmap, Hj. simpl. by rewrite He.
  - intros [Hi Hl]. rewrite list_lookup_fmap in Hl.
    apply fmap_Some in Hl as (e & Hl & ->). apply fmap_Some. exists (Z.to_nat i, e).
    split; [|simpl; lia]. apply list_find_Some. split_and!; [done|done|].
    intros j y Hj Hlt Heq.
    pose proof (NoDup_members z Hz) as Hnd.
    enough (j = Z.to_nat i) by lia.
    eapply (NoDup_lookup _ j (Z.to_nat i) (member e) Hnd); rewrite list_lookup_fmap.
    + rewrite Hj. simpl. by rewrite Heq.
    + by rewrite Hl.
Qed.

Lemma zrank_none z m : zset_ok z → (zrank z m = None ↔ zscore z m = None).
Proof.
  intros Hz. unfold zrank, zscore. rewrite fmap_None, list_find_None, Forall_forall. split.
  - intros H. destruct (members z !! m) as [s|] eqn:E; [|done].
    apply (zset_sync z Hz) in E. by apply H in E.
  - intros H e He <-. apply (sync_member z e Hz) in He. congruence.
Qed.

(** The whole listing, and any range as a selection of it. *)
Lemma zrange_all z : valid_len (tree_len z) → zrange z 0 (-1) = member <$> sorted z.
Proof.
  intros Hlen. unfold zrange, tree_len. pose proof (resolve_all (sorted z) Hlen) as H.
  destruct (resolve_range 0 (-1) _) as [[a b]|]; [by rewrite H|by rewrite <- H].
Qed.

Lemma zrange_select z start stop :
  in_i64 start → in_i64 stop → valid_len (tree_len z) →
  zrange z start stop = select_range start stop (member <$> sorted z).
Proof.
  intros Hstart Hstop Hlen. unfold zrange, tree_len.
  rewrite <- resolve_select; rewrite ?length_fmap; try done.
  destruct (resolve_range start stop _) as [[a b]|]; [|done]. unfold slice.
  by rewrite fmap_take, fmap_drop.
Qed.

Lemma by_score_sublist z lo lo_incl hi hi_incl :
  zrange_by_score z lo lo_incl hi hi_incl `sublist_of` member <$> sorted z.
Proof. unfold zrange_by_score. apply fmap_sublist, sublist_filter. Qed.

Lemma score_in_iff lo (lo_incl : bool) hi (hi_incl : bool) s :
  score_in lo lo_incl hi hi_incl s = true ↔
  (if lo_incl then f64_le lo s = true else f64_lt lo s = true) ∧
  (if hi_incl then f64_le s hi = true else f64_lt s hi = true).
Proof. unfold score_in. rewrite andb_true_iff. by destruct lo_incl, hi_incl. Qed.

Lemma elem_of_by_score z lo (lo_incl : bool) hi (hi_incl : bool) m :
  zset_ok z →
  (m ∈ zrange_by_score z lo lo_incl hi hi_incl ↔ ∃ s, zscore z m = Some s ∧
    (if lo_incl then f64_le lo s = true else f64_lt lo s = true) ∧
    (if hi_incl then f64_le s hi = true else f64_lt s hi = true)).
Proof.
  intros Hz. unfold zrange_by_score, zscore. rewrite list_elem_of_fmap. split.
  - intros (e & -> & [Hs He]%list_elem_of_filter). exists (score e).
    split; [by apply sync_member|]. by apply score_in_iff.
  - intros (s & Hs & Hin). exists {| member := m; score := s |}. split; [done|].
    apply list_elem_of_filter. split; [by apply score_in_iff|by apply zset_sync].
Qed.

(** A sorted set is determined by the scores of its members. *)
Lemma zset_ext z z' : zset_ok z → zset_ok z' → members z = members z' → z = z'.
Proof.
  intros Hz Hz' Hm. destruct z as [m t], z' as [m' t']; simpl in *. subst m'. f_equal.
  apply (btree_sorted_ext sm_cmp); [apply Hz|apply Hz'|].
  intros [k s]. rewrite <- (zset_sync _ Hz k s), <- (zset_sync _ Hz' k s). done.
Qed.

(** Adding members that are not there yet. *)
Lemma zadd_fresh (items : list (string * f64)) z :
  NoDup items.*1 → (∀ m, m ∈ items.*1 → members z !! m = None) → zset_ok z →
  let z' := fold_left (λ z '(m, s), (zadd z s m).2) items z in
  zset_ok z' ∧ members z' = list_to_map items ∪ members z.
Proof.
  revert z. induction items as [|[m s] items IH]; intros z Hnd Hfresh Hz; cbn [fold_left].
  { split; [done|]. symmetry. apply (map_empty_union (members z)). }
  simpl in Hnd. inversion Hnd as [|? ? Hm Hnd']; subst.
  destruct (IH (zadd z s m).2 Hnd') as [Hok ->].
  - intros m' Hm'. rewrite zadd_members, lookup_insert_ne by (by intros <-).
    apply Hfresh. by right.
  - by apply zadd_ok.
  - split; [done|]. rewrite zadd_members, (Hfresh m) by left. unfold recorded_score.
    rewrite list_to_map_cons, <- insert_union_l, insert_union_r; [done|].
    by apply not_elem_of_list_to_map_1.
Qed.
End zset.
