(* ===== verification/Glob.v ===== *)
(** Glob matching for [KEYS] ([db.rs]: [glob_match], [glob_match_bytes],
    [match_class]).

    The functions are transcribed with the code's loops and indices; fuel is the
    length of the pattern, which every iteration shortens ([glob_go_fuel]).
    [glob_sem] gives the meaning of a pattern as a language over its tokens, and
    [glob_match_sem] shows the matcher decides it. *)

From S2P Require Import Prelude RustInt RustStr.

Definition byte_le (a b : byte) : bool := bool_decide (N_of_ascii a ≤ N_of_ascii b)%N.
Definition byte_min (a b : byte) : byte := if byte_le a b then a else b.
Definition byte_max (a b : byte) : byte := if byte_le a b then b else a.

(** One turn of the loop of [match_class] per unit of fuel. *)
Fixpoint class_loop (fuel : nat) (class : list byte) (ch : byte) (i : nat) (matched : bool)
    : bool * nat :=
  match fuel with
  | O => (matched, i)
  | S fuel' =>
      match class !! i with
      | None => (matched, i)
      | Some c =>
          if decide (c = "]"%char) then (matched, i)
          else
            match class !! (i + 1)%nat, class !! (i + 2)%nat with
            | Some c1, c2 =>
                if decide (c = "\"%char) then
                  class_loop fuel' class ch (i + 2) (matched || bool_decide (c1 = ch))
                else
                  match c2 with
                  | Some c2 =>
                      if decide (c1 = "-"%char ∧ c2 ≠ "]"%char) then
                        let lo := byte_min c c2 in
                        let hi := byte_max c c2 in
                        class_loop fuel' class ch (i + 3)
                          (matched || (byte_le lo ch && byte_le ch hi))
                      else class_loop fuel' class ch (i + 1) (matched || bool_decide (c = ch))
                  | None => class_loop fuel' class ch (i + 1) (matched || bool_decide (c = ch))
                  end
            | None, _ => class_loop fuel' class ch (i + 1) (matched || bool_decide (c = ch))
            end
      end
  end.

Definition match_class (class : list byte) (ch : byte) : bool * nat :=
  let negate :=
    match class with
    | c :: _ => bool_decide (c = "^"%char) || bool_decide (c = "!"%char)
    | [] => false
    end in
  let '(matched, i) := class_loop (length class) class ch (if negate then 1 else 0)%nat false in
  let consumed := if decide (i < length class)%nat then (i + 1)%nat else i in
  (xorb matched negate, consumed).

(** [while let Some((&b'*', next)) = tail_pattern.split_first()] *)
Fixpoint skip_stars (pattern : list byte) : list byte :=
  match pattern with
  | c :: next => if decide (c = "*"%char) then skip_stars next else pattern
  | [] => []
  end.

(** The inner [loop] of the [*] case: the tail pattern at every position. *)
Fixpoint try_suffixes (f : list byte → bool) (text : list byte) : bool :=
  if f text then true
  else match text with
  | [] => false
  | _ :: next => try_suffixes f next
  end.

Fixpoint glob_go (fuel : nat) (pattern text : list byte) : bool :=
  match fuel, pattern with
  | _, [] => bool_decide (text = [])
  | O, _ :: _ => false
  | S fuel', token :: rest =>
      if decide (token = "*"%char) then
        let tail_pattern := skip_stars rest in
        match tail_pattern with
        | [] => true
        | _ => try_suffixes (glob_go fuel' tail_pattern) text
        end
      else if decide (token = "?"%char) then
        match text with
        | _ :: next => glob_go fuel' rest next
        | [] => false
        end
      else if decide (token = "["%char) then
        match text with
        | [] => false
        | ch :: next =>
            let '(matched, consumed) := match_class rest ch in
            if (matched : bool) then glob_go fuel' (drop consumed rest) next else false
        end
      else if decide (token = "\"%char) then
        let '(literal, next_pattern) :=
          match rest with
          | literal :: next => (literal, next)
          | [] => ("\"%char, rest)
          end in
        match text with
        | ch :: next => if decide (ch = literal) then glob_go fuel' next_pattern next else false
        | [] => false
        end
      else
        match text with
        | ch :: next => if decide (ch = token) then glob_go fuel' rest next else false
        | [] => false
        end
  end.

Definition glob_match_bytes (pattern text : list byte) : bool :=
  glob_go (length pattern) pattern text.

Definition glob_match (pattern text : string) : bool :=
  glob_match_bytes (bytes_of pattern) (bytes_of text).

(** * Meaning of a pattern *)

Inductive item :=
| Single (c : byte)
| Range (lo hi : byte).

Inductive gtoken :=
| Star
| Any
| Class (negate : bool) (items : list item)
| Lit (c : byte).

Definition in_item (ch : byte) (it : item) : bool :=
  match it with
  | Single c => bool_decide (c = ch)
  | Range lo hi => byte_le lo ch && byte_le ch hi
  end.

Definition in_class (negate : bool) (items : list item) (ch : byte) : Prop :=
  xorb (existsb (in_item ch) items) negate = true.

(** The items of a class up to its closing bracket (or the end of the pattern),
    and what follows the bracket. *)
Fixpoint class_items (l : list byte) : list item * list byte :=
  match l with
  | [] => ([], [])
  | c :: r =>
      if decide (c = "]"%char) then ([], r)
      else match r with
      | [] => ([Single c], [])
      | c1 :: r1 =>
          if decide (c = "\"%char) then
            let '(its, rest) := class_items r1 in (Single c1 :: its, rest)
          else match r1 with
          | [] => let '(its, rest) := class_items r in (Single c :: its, rest)
          | c2 :: r2 =>
              if decide (c1 = "-"%char ∧ c2 ≠ "]"%char) then
                let '(its, rest) := class_items r2 in
                (Range (byte_min c c2) (byte_max c c2) :: its, rest)
              else let '(its, rest) := class_items r in (Single c :: its, rest)
          end
      end
  end.

Definition class_body (l : list byte) : bool * list byte :=
  match l with
  | c :: r => if bool_decide (c = "^"%char) || bool_decide (c = "!"%char) then (true, r) else (false, l)
  | [] => (false, [])
  end.

Fixpoint tokenize (fuel : nat) (pattern : list byte) : list gtoken :=
  match fuel, pattern with
  | S fuel', token :: rest =>
      if decide (token = "*"%char) then Star :: tokenize fuel' rest
      else if decide (token = "?"%char) then Any :: tokenize fuel' rest
      else if decide (token = "["%char) then
        let '(negate, body) := class_body rest in
        let '(items, rest') := class_items body in
        Class negate items :: tokenize fuel' rest'
      else if decide (token = "\"%char) then
        match rest with
        | literal :: next => Lit literal :: tokenize fuel' next
        | [] => [Lit "\"%char]
        end
      else Lit token :: tokenize fuel' rest
  | _, _ => []
  end.

Definition pattern_tokens (pattern : list byte) : list gtoken :=
  tokenize (length pattern) pattern.

(** The texts a token list matches. *)
Inductive glob_sem : list gtoken → list byte → Prop :=
| sem_end : glob_sem [] []
| sem_star ts s1 s2 : glob_sem ts s2 → glob_sem (Star :: ts) (s1 ++ s2)
| sem_any ts c s : glob_sem ts s → glob_sem (Any :: ts) (c :: s)
| sem_class ts negate items c s :
    in_class negate items c → glob_sem ts s → glob_sem (Class negate items :: ts) (c :: s)
| sem_lit ts c s : glob_sem ts s → glob_sem (Lit c :: ts) (c :: s).
#[export] Hint Constructors glob_sem : rustkv.

(** * The class loop *)

(** The first item of a class body [c :: r] that does not start with a bracket. *)
Definition next_item (c : byte) (r : list byte) : item * list byte :=
  match r with
  | [] => (Single c, [])
  | c1 :: r1 =>
      if decide (c = "\"%char) then (Single c1, r1)
      else match r1 with
      | [] => (Single c, r)
      | c2 :: r2 =>
          if decide (c1 = "-"%char ∧ c2 ≠ "]"%char) then (Range (byte_min c c2) (byte_max c c2), r2)
          else (Single c, r)
      end
  end.

Lemma next_item_length c r : (length (next_item c r).2 ≤ length r)%nat.
Proof. destruct r as [|c1 [|c2 r]]; simpl; repeat case_decide; simpl; lia. Qed.

Lemma class_items_eq c r :
  class_items (c :: r) =
    if decide (c = "]"%char) then ([], r)
    else let '(it, r') := next_item c r in
         let '(its, rest) := class_items r' in (it :: its, rest).
Proof.
  cbn [class_items]. case_decide; [done|]. unfold next_item.
  destruct r as [|c1 r1]; [done|]. case_decide; [done|].
  destruct r1 as [|c2 r2]; [done|]. by case_decide.
Qed.

Lemma class_items_length l : (length (class_items l).2 ≤ length l)%nat.
Proof.
  induction l as [l IH] using (induction_ltof1 _ length); unfold ltof in IH.
  destruct l as [|c r]; [done|]. rewrite class_items_eq. case_decide; [simpl; lia|].
  pose proof (next_item_length c r). destruct (next_item c r) as [it r']; simpl in *.
  specialize (IH r' ltac:(lia)). destruct (class_items r'); simpl in *; lia.
Qed.

(** One turn of the loop reads one item. *)
Lemma class_loop_step fuel class ch i matched c r :
  drop i class = c :: r → c ≠ "]"%char →
  ∃ i', drop i' class = (next_item c r).2
    ∧ (i < i')%nat ∧ length class = (i' + length (next_item c r).2)%nat
    ∧ class_loop (S fuel) class ch i matched
      = class_loop fuel class ch i' (matched || in_item ch (next_item c r).1).
Proof.
  intros Hd Hc.
  assert (Hl : ∀ j, class !! (i + j)%nat = (c :: r) !! j) by (intros j; by rewrite <- lookup_drop, Hd).
  assert (Hr : ∀ j, drop (i + j) class = drop j (c :: r)) by (intros j; by rewrite <- drop_drop, Hd).
  assert (Hlen : length class = (i + S (length r))%nat).
  { pose proof (length_drop class i) as E. rewrite Hd in E. simpl in E. lia. }
  pose proof (Hl 0%nat) as H0. rewrite Nat.add_0_r in H0.
  cbn [class_loop]. rewrite H0, !Hl. simpl. rewrite decide_False by done.
  destruct r as [|c1 r1]; simpl in *.
  { exists (i + 1)%nat. rewrite Hr. split_and!; [done|lia|lia|done]. }
  case_decide; simpl in *.
  { exists (i + 2)%nat. rewrite Hr. split_and!; [done|lia|lia|done]. }
  destruct r1 as [|c2 r2]; simpl in *.
  { exists (i + 1)%nat. rewrite Hr. split_and!; [done|lia|lia|done]. }
  case_decide; simpl in *.
  - exists (i + 3)%nat. rewrite Hr. split_and!; [done|lia|lia|done].
  - exists (i + 1)%nat. rewrite Hr. split_and!; [done|lia|lia|done].
Qed.

(** The loop: which items matched, and where it stops. *)
Lemma class_loop_spec fuel class ch i matched :
  (length class ≤ fuel + i)%nat → (i ≤ length class)%nat →
  ∃ j, class_loop fuel class ch i matched
       = (matched || existsb (in_item ch) (class_items (drop i class)).1, j)
    ∧ (i ≤ j ≤ length class)%nat
    ∧ drop (if decide (j < length class)%nat then j + 1 else j) class = (class_items (drop i class)).2.
Proof.
  revert i matched. induction fuel as [|fuel IH]; intros i matched Hf Hi.
  { exists i. rewrite decide_False, (drop_ge class i) by lia. simpl.
    rewrite orb_false_r. split_and!; [done|lia|lia|done]. }
  destruct (drop i class) as [|c r] eqn:Hd.
  { assert (length class = i) as Hlen.
    { pose proof (length_drop class i) as Hl. rewrite Hd in Hl. simpl in Hl. lia. }
    exists i. cbn [class_loop]. rewrite lookup_ge_None_2 by lia.
    rewrite decide_False by lia. rewrite Hd. simpl. rewrite orb_false_r.
    split_and!; [done|lia|lia|done]. }
  assert (i < length class)%nat as Hlt.
  { pose proof (length_drop class i) as Hl. rewrite Hd in Hl. simpl in Hl. lia. }
  rewrite class_items_eq. destruct (decide (c = "]"%char)) as [->|Hc].
  - exists i. cbn [class_loop].
    assert (class !! i = Some "]"%char) as ->.
    { rewrite <- (Nat.add_0_r i), <- lookup_drop, Hd. done. }
    rewrite decide_True by done. simpl. rewrite orb_false_r, decide_True by done.
    split_and!; [done|lia|lia|]. by rewrite <- drop_drop, Hd.
  - destruct (class_loop_step fuel class ch i matched c r Hd Hc) as (i' & Hd' & Hi' & Hlen & ->).
    destruct (next_item c r) as [it r'] eqn:E; simpl in *.
    destruct (IH i' (matched || in_item ch it)) as (j & -> & Hj & Hdj); [lia|lia|].
    rewrite Hd' in *. destruct (class_items r') as [its rest]; simpl in *.
    exists j. rewrite orb_assoc. split_and!; [done|lia|lia|done].
Qed.

Lemma class_body_drop l :
  (class_body l).2 = drop (if (class_body l).1 then 1 else 0)%nat l
  ∧ ((if (class_body l).1 then 1 else 0) ≤ length l)%nat.
Proof. destruct l as [|c r]; simpl; [done|]. destruct (_ || _); simpl; split; auto with lia. Qed.

(** [match_class] decides membership in the class and consumes exactly its text:
    the slice [rest[consumed..]] is in range. *)
Lemma match_class_spec l ch :
  ∃ consumed,
    match_class l ch
      = (xorb (existsb (in_item ch) (class_items (class_body l).2).1) (class_body l).1, consumed)
    ∧ drop consumed l = (class_items (class_body l).2).2
    ∧ (consumed ≤ length l)%nat.
Proof.
  unfold match_class.
  assert (match l with
    | c :: _ => bool_decide (c = "^"%char) || bool_decide (c = "!"%char)
    | [] => false end = (class_body l).1) as ->.
  { destruct l as [|c r]; simpl; [done|]. by destruct (_ || _). }
  destruct (class_body_drop l) as [-> Hi].
  destruct (class_loop_spec (length l) l ch (if (class_body l).1 then 1 else 0)%nat false)
    as (j & -> & Hj & Hd); [lia|done|]. simpl.
  eexists. split; [done|]. split; [done|]. case_decide; lia.
Qed.

(** * Fuel *)

Lemma class_rest_length l : (length (class_items (class_body l).2).2 ≤ length l)%nat.
Proof.
  pose proof (class_items_length (class_body l).2). destruct (class_body_drop l) as [E _].
  rewrite E in H at 2. rewrite length_drop in H. lia.
Qed.

Lemma skip_stars_length l : (length (skip_stars l) ≤ length l)%nat.
Proof. induction l as [|c l IH]; simpl; [lia|]. case_decide; simpl; lia. Qed.

Lemma tokenize_fuel f f' p :
  (length p ≤ f)%nat → (length p ≤ f')%nat → tokenize f p = tokenize f' p.
Proof.
  revert f' p. induction f as [|f IH]; intros f' [|c r] Hf Hf'; simpl in *; try lia.
  { by destruct f'. }
  { by destruct f'. }
  destruct f' as [|f']; [lia|]. simpl.
  repeat case_decide.
  - f_equal. apply IH; lia.
  - f_equal. apply IH; lia.
  - pose proof (class_rest_length r) as Hr. destruct (class_body r) as [negate body]; simpl in *.
    destruct (class_items body) as [its rest]; simpl in *. f_equal. apply IH; lia.
  - destruct r; [done|]. f_equal. simpl in *. apply IH; lia.
  - f_equal. apply IH; lia.
Qed.

(** * The matcher decides the meaning *)

Lemma try_suffixes_true f t :
  try_suffixes f t = true ↔ ∃ s1 s2, t = s1 ++ s2 ∧ f s2 = true.
Proof.
  induction t as [|c t IH]; simpl.
  - destruct (f []) eqn:E; split; try done.
    + intros _. by exists [], [].
    + intros ([|? ?] & [|? ?] & ? & ?); simplify_eq/=. congruence.
  - destruct (f (c :: t)) eqn:E.
    { split; [|done]. intros _. by exists [], (c :: t). }
    rewrite IH. split.
    + intros (s1 & s2 & -> & ?). by exists (c :: s1), s2.
    + intros ([|? s1] & s2 & ? & ?); simplify_eq/=; [congruence|eauto].
Qed.

Lemma sem_star_iff ts t :
  glob_sem (Star :: ts) t ↔ ∃ s1 s2, t = s1 ++ s2 ∧ glob_sem ts s2.
Proof.
  split; [|intros (s1 & s2 & -> & ?); eauto with rustkv].
  intros H. inversion H; subst. eauto.
Qed.

Lemma sem_star_star ts t : glob_sem (Star :: Star :: ts) t ↔ glob_sem (Star :: ts) t.
Proof.
  rewrite !sem_star_iff. split.
  - intros (s1 & s2 & -> & (s3 & s4 & -> & ?)%sem_star_iff).
    exists (s1 ++ s3), s4. by rewrite app_assoc.
  - intros (s1 & s2 & -> & ?). exists s1, s2. split; [done|].
    apply sem_star_iff. by exists [], s2.
Qed.

(** Collapsing a run of [*] does not change the meaning. *)
Lemma sem_skip_stars f p t :
  (length p ≤ f)%nat →
  glob_sem (Star :: tokenize f p) t ↔ glob_sem (Star :: tokenize f (skip_stars p)) t.
Proof.
  revert p t. induction f as [|f IH]; intros [|c r] t Hf;
    simpl in Hf; try done; try lia.
  cbn [skip_stars]. destruct (decide (c = "*"%char)) as [->|Hc]; [|done].
  cbn [tokenize]. rewrite decide_True by done.
  rewrite sem_star_star, IH by lia. pose proof (skip_stars_length r).
  by rewrite (tokenize_fuel f (S f)) by lia.
Qed.

Lemma glob_go_sem f p t :
  (length p ≤ f)%nat → glob_go f p t = true ↔ glob_sem (tokenize f p) t.
Proof.
  revert p t. induction f as [|f IH]; intros [|c r] t Hf; simpl in Hf; try lia.
  { simpl. rewrite bool_decide_eq_true. split; [intros ->; constructor|by inversion 1]. }
  { simpl. rewrite bool_decide_eq_true. split; [intros ->; constructor|by inversion 1]. }
  cbn [glob_go tokenize]. case_decide.
  { pose proof (skip_stars_length r). rewrite sem_skip_stars, sem_star_iff by lia.
    destruct (skip_stars r) as [|c' r'] eqn:E.
    - split; [|done]. intros _. exists t, []. rewrite app_nil_r. split; [done|].
      destruct f; simpl; constructor.
    - rewrite try_suffixes_true. setoid_rewrite IH; [done|lia]. }
  case_decide.
  { destruct t as [|x t]; [split; [done|by inversion 1]|]. rewrite IH by lia.
    split; [eauto with rustkv|by inversion 1]. }
  case_decide.
  { pose proof (class_rest_length r) as Hr.
    destruct t as [|x t].
    { destruct (class_body r), (class_items _); simpl. split; [done|by inversion 1]. }
    destruct (match_class_spec r x) as (consumed & -> & Hd & Hc). rewrite Hd.
    destruct (class_body r) as [negate body]; simpl in *.
    destruct (class_items body) as [items rest]; simpl in *.
    destruct (xorb _ _) eqn:Ex.
    - rewrite IH by lia. split; [|by inversion 1]. intros. by constructor.
    - split; [done|]. inversion 1; subst. unfold in_class in *. congruence. }
  case_decide.
  { destruct r as [|l r]; simpl in *.
    - destruct t as [|x t]; [split; [done|by inversion 1]|].
      case_decide; subst; [|split; [done|by inversion 1]].
      rewrite IH by (simpl; lia). split; [|inversion 1; subst].
      + intros Hg. constructor. by destruct f.
      + by destruct f.
    - destruct t as [|x t]; [split; [done|by inversion 1]|].
      case_decide; subst; [|split; [done|by inversion 1]].
      rewrite IH by lia. split; [eauto with rustkv|by inversion 1]. }
  destruct t as [|x t]; [split; [done|by inversion 1]|].
  case_decide; subst; [|split; [done|by inversion 1]].
  rewrite IH by lia. split; [eauto with rustkv|by inversion 1].
Qed.

(** More fuel changes nothing. *)
Lemma glob_go_fuel f p t :
  (length p ≤ f)%nat → glob_go f p t = glob_match_bytes p t.
Proof.
  intros Hf. unfold glob_match_bytes. apply eq_true_iff_eq.
  rewrite !glob_go_sem by lia. by rewrite (tokenize_fuel f (length p)) by lia.
Qed.

Lemma glob_match_tokens pattern text :
  glob_match pattern text = true ↔ glob_sem (pattern_tokens (bytes_of pattern)) (bytes_of text).
Proof. apply glob_go_sem. lia. Qed.

Example glob_examples :
  glob_match "user:*" "user:1" = true ∧ glob_match "user:*" "post:1" = false
  ∧ glob_match "[a-c]?[^x]*" "bzq" = true ∧ glob_match "a\*" "a*" = true
  ∧ glob_match "[z-a]" "m" = true ∧ glob_match "[" "[" = false ∧ glob_match "" "" = true.
Proof. vm_compute. repeat split. Qed.
