(* ===== verification/Resp.v ===== *)
(** The reply encoders ([resp.rs]) and the protocol they implement.

    [frame] is a RESP reply as a value, [encode] its bytes and [decode] a client
    that reads one frame and leaves the rest of the stream; [decode_encode] shows
    that encoded frames are read back one by one, so a pipelining client stays in
    step. Every encoder of the program produces the bytes of a frame. *)

From S2P Require Import Prelude RustInt RustStr.
Local Open Scope Z_scope.

Definition simple_string (value : string) : string := "+" +:+ value +:+ CRLF.

Definition is_crlf (c : byte) : bool := bool_decide (c = CR) || bool_decide (c = LF).

Definition error (message : string) : string :=
  if scontains is_crlf message then
    let sanitized := smap (λ c, if is_crlf c then " "%char else c) message in
    "-" +:+ sanitized +:+ CRLF
  else "-" +:+ message +:+ CRLF.

Definition integer (value : Z) : string := ":" +:+ int_to_string value +:+ CRLF.

Definition bulk_string (value : string) : string :=
  "$" +:+ int_to_string (slen value) +:+ CRLF +:+ value +:+ CRLF.

Definition null : string := "$-1" +:+ CRLF.

Definition array (items : list string) : string :=
  fold_left (λ out item, out +:+ bulk_string item) items
    ("*" +:+ int_to_string (Z.of_nat (length items)) +:+ CRLF).

Definition nullable_array (items : list (option string)) : string :=
  fold_left
    (λ out item,
      match item with
      | Some value => out +:+ bulk_string value
      | None => out +:+ null
      end)
    items ("*" +:+ int_to_string (Z.of_nat (length items)) +:+ CRLF).

(** * Frames *)

Inductive frame :=
| FSimple (s : string)
| FError (s : string)
| FInt (z : Z)
| FBulk (s : string)
| FNull
| FArray (l : list frame).

Section frame_induction.
Context (P : frame → Prop).
Hypothesis Hs : ∀ s, P (FSimple s).
Hypothesis He : ∀ s, P (FError s).
Hypothesis Hi : ∀ z, P (FInt z).
Hypothesis Hb : ∀ s, P (FBulk s).
Hypothesis Hn : P FNull.
Hypothesis Ha : ∀ l, Forall P l → P (FArray l).

Fixpoint frame_induction (f : frame) : P f :=
  match f with
  | FSimple s => Hs s
  | FError s => He s
  | FInt z => Hi z
  | FBulk s => Hb s
  | FNull => Hn
  | FArray l =>
      Ha l ((fix go (l : list frame) : Forall P l :=
        match l with
        | [] => Forall_nil_2 _
        | f :: l' => Forall_cons_2 _ _ _ (frame_induction f) (go l')
        end) l)
  end.
End frame_induction.

Fixpoint encode (f : frame) : string :=
  match f with
  | FSimple s => simple_string s
  | FError s => "-" +:+ s +:+ CRLF
  | FInt z => integer z
  | FBulk s => bulk_string s
  | FNull => null
  | FArray l =>
      "*" +:+ int_to_string (Z.of_nat (length l)) +:+ CRLF +:+ concat_all (encode <$> l)
  end.

Definition encode_all (l : list frame) : string := concat_all (encode <$> l).

(** A line without line terminators inside. *)
Definition one_line (s : string) : Prop := scontains is_crlf s = false.

Fixpoint frame_ok (f : frame) : Prop :=
  match f with
  | FSimple s | FError s => one_line s
  | FInt z => in_i64 z
  | FBulk _ | FNull => True
  | FArray l => foldr (λ f rest, frame_ok f ∧ rest) True l
  end.

Lemma encode_array l :
  encode (FArray l) = "*" +:+ int_to_string (Z.of_nat (length l)) +:+ CRLF +:+ encode_all l.
Proof. done. Qed.

Lemma frame_ok_array l : frame_ok (FArray l) ↔ Forall frame_ok l.
Proof.
  simpl. induction l as [|f l IH]; [by split; [constructor|]|].
  rewrite Forall_cons, <- IH. done.
Qed.

(** * A client *)

(** The bytes before the first CRLF and those after it. *)
Fixpoint split_crlf (s : string) : option (string * string) :=
  match s with
  | String c s' =>
      match s' with
      | String d r =>
          if bool_decide (c = CR) && bool_decide (d = LF) then Some ("", r)
          else '(l, rest) ← split_crlf s'; Some (String c l, rest)
      | EmptyString => None
      end
  | EmptyString => None
  end.

Definition parse_length (l : string) : option Z :=
  match l with
  | EmptyString => None
  | _ => parse_digits 0 l
  end.

Section decode_items.
Context (decode1 : string → option (frame * string)).
Fixpoint decode_items (n : nat) (s : string) : option (list frame * string) :=
  match n with
  | O => Some ([], s)
  | S n' =>
      '(f, s1) ← decode1 s;
      '(l, s2) ← decode_items n' s1;
      Some (f :: l, s2)
  end.
End decode_items.

(** One frame off the front of the stream; [fuel] bounds the nesting. *)
Fixpoint decode (fuel : nat) (s : string) : option (frame * string) :=
  match fuel, s with
  | S fuel', String tag r =>
      '(line, rest) ← split_crlf r;
      if decide (tag = "+"%char) then Some (FSimple line, rest)
      else if decide (tag = "-"%char) then Some (FError line, rest)
      else if decide (tag = ":"%char) then
        z ← parse_i64 line; Some (FInt z, rest)
      else if decide (tag = "$"%char) then
        if decide (line = "-1"%string) then Some (FNull, rest)
        else
          n ← parse_length line;
          if decide (stake 2 (sdrop (Z.to_nat n) rest) = CRLF) then
            Some (FBulk (stake (Z.to_nat n) rest), sdrop (Z.to_nat n + 2) rest)
          else None
      else if decide (tag = "*"%char) then
        n ← parse_length line;
        '(l, s') ← decode_items (decode fuel') (Z.to_nat n) rest;
        Some (FArray l, s')
      else None
  | _, _ => None
  end.

Fixpoint depth (f : frame) : nat :=
  match f with
  | FArray l => S (foldr (λ f n, Nat.max (depth f) n) 0%nat l)
  | _ => 1
  end.

Lemma depth_array l f : f ∈ l → (S (depth f) ≤ depth (FArray l))%nat.
Proof.
  intros Hf. simpl. apply le_n_S. induction Hf as [|f' f l Hf IH]; simpl; lia.
Qed.

Lemma split_crlf_line l rest : one_line l → split_crlf (l +:+ CRLF +:+ rest) = Some (l, rest).
Proof.
  unfold one_line. induction l as [|c l IH]; intros Hl; [done|].
  simpl in Hl. apply orb_false_iff in Hl as [Hc Hl]. specialize (IH Hl).
  unfold is_crlf in Hc. apply orb_false_iff in Hc as [Hc _].
  destruct l as [|d l]; simpl in *; rewrite Hc; simpl; [done|]. by rewrite IH.
Qed.

Lemma digits_one_line s : Forall is_digit (bytes_of s) → one_line s.
Proof.
  unfold one_line. induction s as [|c s IH]; [done|]. intros H. inversion H as [|? ? Hc Hs]; subst.
  simpl. rewrite IH by done. rewrite orb_false_r. apply digit_plain in Hc as [_ Hw].
  unfold is_crlf. rewrite !bool_decide_false; [done|intros ->; discriminate Hw..].
Qed.

Lemma int_one_line z : one_line (int_to_string z).
Proof.
  unfold int_to_string. case_decide.
  - pose proof (digits_one_line _ (nat_to_string_digits (Z.to_N (- z)))). done.
  - apply digits_one_line, nat_to_string_digits.
Qed.

Lemma parse_length_int n : 0 ≤ n → parse_length (int_to_string n) = Some n.
Proof.
  intros Hn. unfold int_to_string. rewrite decide_False by lia.
  destruct (nat_to_string_cons (Z.to_N n)) as (c & s & E & _). unfold parse_length.
  rewrite E. rewrite <- E, nat_to_string_parse. f_equal. lia.
Qed.

Lemma int_not_minus_one n : 0 ≤ n → int_to_string n ≠ "-1"%string.
Proof.
  intros Hn E. pose proof (parse_length_int n Hn) as H. rewrite E in H. discriminate H.
Qed.

Lemma decode_items_encode fuel l rest :
  (∀ f rest, f ∈ l → decode fuel (encode f +:+ rest) = Some (f, rest)) →
  decode_items (decode fuel) (length l) (encode_all l +:+ rest) = Some (l, rest).
Proof.
  induction l as [|f l IH]; intros H; [done|].
  change (encode_all (f :: l)) with (encode f +:+ encode_all l). cbn [length decode_items].
  rewrite sapp_assoc, H by set_solver. simpl. rewrite IH; [done|]. set_solver.
Qed.

(** What [decode] does once the header line is split off. *)
Lemma decode_header fuel tag line rest :
  one_line line →
  decode (S fuel) (String tag (line +:+ CRLF +:+ rest)) =
    if decide (tag = "+"%char) then Some (FSimple line, rest)
    else if decide (tag = "-"%char) then Some (FError line, rest)
    else if decide (tag = ":"%char) then
      z ← parse_i64 line; Some (FInt z, rest)
    else if decide (tag = "$"%char) then
      if decide (line = "-1"%string) then Some (FNull, rest)
      else
        n ← parse_length line;
        if decide (stake 2 (sdrop (Z.to_nat n) rest) = CRLF) then
          Some (FBulk (stake (Z.to_nat n) rest), sdrop (Z.to_nat n + 2) rest)
        else None
    else if decide (tag = "*"%char) then
      n ← parse_length line;
      '(l, s') ← decode_items (decode fuel) (Z.to_nat n) rest;
      Some (FArray l, s')
    else None.
Proof. intros Hl. cbn [decode]. by rewrite split_crlf_line. Qed.

(** A length-prefixed payload comes back whole. *)
Lemma payload_split value rest :
  let body := value +:+ CRLF +:+ rest in
  let n := String.length value in
  stake 2 (sdrop n body) = CRLF ∧ stake n body = value ∧ sdrop (n + 2) body = rest.
Proof.
  intros body n. unfold body, n. rewrite sdrop_app, stake_app. split_and!; [done|done|].
  replace (String.length value + 2)%nat with (String.length (value +:+ CRLF)) by by rewrite slen_app.
  by rewrite <- sapp_assoc, sdrop_app.
Qed.

(** Reading back what was written, whatever follows it. *)
Lemma decode_encode fuel f rest :
  frame_ok f → (depth f ≤ fuel)%nat → decode fuel (encode f +:+ rest) = Some (f, rest).
Proof.
  revert fuel rest. induction f as [s|s|z|s| |l IH] using frame_induction;
    intros fuel rest Hok Hf; (destruct fuel as [|fuel]; [simpl in Hf; lia|]).
  - change (encode (FSimple s) +:+ rest) with (String "+" ((s +:+ CRLF) +:+ rest)).
    by rewrite sapp_assoc, decode_header.
  - change (encode (FError s) +:+ rest) with (String "-" ((s +:+ CRLF) +:+ rest)).
    by rewrite sapp_assoc, decode_header.
  - change (encode (FInt z) +:+ rest) with (String ":" ((int_to_string z +:+ CRLF) +:+ rest)).
    rewrite sapp_assoc, decode_header by apply int_one_line. simpl.
    by rewrite parse_i64_to_string.
  - change (encode (FBulk s) +:+ rest)
      with (String "$" ((int_to_string (slen s) +:+ CRLF +:+ s +:+ CRLF) +:+ rest)).
    rewrite !sapp_assoc, decode_header by apply int_one_line.
    rewrite (decide_False (P := "$"%char = "+"%char)), (decide_False (P := "$"%char = "-"%char)),
      (decide_False (P := "$"%char = ":"%char)), (decide_True (P := "$"%char = "$"%char)),
      decide_False by (done || (apply int_not_minus_one; lia)).
    rewrite parse_length_int by lia. cbn [mbind option_bind]. rewrite Nat2Z.id.
    destruct (payload_split s rest) as (-> & -> & ->). by rewrite decide_True.
  - done.
  - rewrite frame_ok_array in Hok. rewrite encode_array.
    change (("*" +:+ ?x) +:+ rest) with (String "*" (x +:+ rest)).
    rewrite !sapp_assoc, decode_header by apply int_one_line. simpl.
    rewrite parse_length_int by lia. simpl. rewrite Nat2Z.id.
    rewrite decode_items_encode; [done|]. intros f rest' Hin.
    rewrite Forall_forall in IH, Hok. apply IH; [done|by apply Hok|].
    apply depth_array in Hin. lia.
Qed.

(** * The encoders produce frames *)

Lemma array_encode items : array items = encode (FArray (FBulk <$> items)).
Proof.
  rewrite encode_array. unfold array, encode_all. rewrite push_str_fold, length_fmap.
  by rewrite <- list_fmap_compose, !sapp_assoc.
Qed.

Definition nullable (o : option string) : frame :=
  match o with Some v => FBulk v | None => FNull end.

Lemma nullable_array_encode items : nullable_array items = encode (FArray (nullable <$> items)).
Proof.
  rewrite encode_array. unfold nullable_array, encode_all.
  rewrite length_fmap, <- list_fmap_compose.
  transitivity (fold_left (λ out item, out +:+ encode (nullable item)) items
    ("*" +:+ int_to_string (Z.of_nat (length items)) +:+ CRLF)).
  - generalize ("*" +:+ int_to_string (Z.of_nat (length items)) +:+ CRLF).
    induction items as [|[v|] items IH]; intros acc; simpl; [done|apply IH..].
  - by rewrite push_str_fold, !sapp_assoc.
Qed.

Lemma smap_sanitized s :
  one_line (smap (λ c, if is_crlf c then " "%char else c) s).
Proof.
  unfold one_line. induction s as [|c s IH]; [done|]. simpl. rewrite IH, orb_false_r.
  destruct (is_crlf c) eqn:E; [done|done].
Qed.

(** An error reply is one line whatever the message holds. *)
Lemma error_encode message : ∃ line, error message = encode (FError line) ∧ one_line line.
Proof.
  unfold error. destruct (scontains is_crlf message) eqn:E.
  - eexists. split; [reflexivity|apply smap_sanitized].
  - by exists message.
Qed.

Lemma bulks_ok items : Forall frame_ok (FBulk <$> items).
Proof. apply Forall_fmap. by apply Forall_true. Qed.

Lemma nullables_ok items : Forall frame_ok (nullable <$> items).
Proof. apply Forall_fmap, Forall_true. by intros []. Qed.
