(* ===== verification/Clock.v ===== *)
(** The monotonic clock.

    [tokio::time::Instant] is not code of this repository.  An instance of
    [Clock] gives the successive readings of [Instant::now()] in nanoseconds;
    they never decrease and stay within what an [Instant] can represent. *)

From S2P Require Import Prelude.
Local Open Scope Z_scope.

Abbreviation Instant := Z.

Class Clock : Type := {
  instant_at : nat → Instant;
  instant_max : Instant;
  instant_mono n : instant_at n ≤ instant_at (S n);
  instant_bound n : instant_at n ≤ instant_max
}.

Definition nanos_per_sec : Z := 10 ^ 9.

(** [Duration::from_secs], [Instant::checked_add],
    [Instant::saturating_duration_since], [Duration::as_secs]. *)
Definition from_secs (seconds : Z) : Z := seconds * nanos_per_sec.
Definition checked_add_instant {CK : Clock} (t d : Z) : option Instant :=
  if decide (t + d ≤ instant_max) then Some (t + d) else None.
Definition saturating_duration_since (later earlier : Instant) : Z := (later - earlier) `max` 0.
Definition as_secs (d : Z) : Z := d / nanos_per_sec.

Lemma instant_le {CK : Clock} n m : (n ≤ m)%nat → instant_at n ≤ instant_at m.
Proof.
  induction 1 as [|m _ IH]; [done|]. pose proof (instant_mono m). lia.
Qed.

(** Clocks for concrete examples: one that stands still, and one that gains a
    second between two readings. *)
Definition still_clock : Clock.
Proof.
  refine {| instant_at _ := 0; instant_max := 2 ^ 63 * nanos_per_sec |}.
  - intros _. reflexivity.
  - intros _. by vm_compute.
Defined.

Definition capped_seconds (n : nat) : Z :=
  Z.min (Z.of_nat n * nanos_per_sec) (2 ^ 63 * nanos_per_sec).

Definition ticking_clock : Clock.
Proof.
  refine {| instant_at := capped_seconds; instant_max := 2 ^ 63 * nanos_per_sec |}.
  - intros n. unfold capped_seconds, nanos_per_sec. lia.
  - intros n. unfold capped_seconds. lia.
Defined.
