(* ===== verification/Store.v ===== *)
(** The key/value store ([db.rs]): values, entries with their expiry deadline,
    errors, and the helpers every operation is built from.

    [DbState] is what the store's lock protects, with the number of clock
    readings taken so far.  Code that runs under the lock is a [State DbState]
    program; each [Instant::now()] of the code is one [now] of the model. *)

From S2P Require Import Prelude Task RustInt RustStr RustF64 HashOrder Clock.
From S2P Require RList RSet RHash RSortedSet.
Local Open Scope Z_scope.

Inductive StoreError :=
| WrongType
| NotAnInteger
| NotAHashInteger
| Overflow
| NoSuchKey
| IndexOutOfRange
| ScoreNaN.

#[export] Instance StoreError_eq_dec : EqDecision StoreError.
Proof. solve_decision. Defined.

(** [Display for StoreError]. *)
Definition store_error_to_string (e : StoreError) : string :=
  match e with
  | WrongType => "WRONGTYPE Operation against a key holding the wrong kind of value"
  | NotAnInteger => "ERR value is not an integer or out of range"
  | NotAHashInteger => "ERR hash value is not an integer"
  | Overflow => "ERR increment or decrement would overflow"
  | NoSuchKey => "ERR no such key"
  | IndexOutOfRange => "ERR index out of range"
  | ScoreNaN => "ERR resulting score is not a number (NaN)"
  end.

Inductive Value :=
| VStr (s : string)
| VList (l : list string)
| VSet (s : gset string)
| VSortedSet (z : RSortedSet.RSortedSet)
| VHash (h : gmap string string).

Record Entry := { value : Value; expires_at : option Instant }.

(** [HashMap<String, Entry>] *)
Abbreviation Store := (gmap string Entry).

Record DbState := { store : Store; tick : nat }.

Section store.
Context {CK : Clock}.

(** [Instant::now()] *)
Definition now : State DbState Instant :=
  λ s, (instant_at (tick s), {| store := store s; tick := S (tick s) |}).

Definition get_entry (key : string) : State DbState (option Entry) :=
  gets (λ s, store s !! key).
Definition set_store (f : Store → Store) : State DbState unit :=
  modify (λ s, {| store := f (store s); tick := tick s |}).
Definition insert_entry (key : string) (e : Entry) : State DbState unit :=
  set_store (λ st, <[key := e]> st).
Definition remove_key (key : string) : State DbState unit :=
  set_store (λ st, delete key st).

(** Assignment through a [&mut Value] of the entry at [key]. *)
Definition put_value (key : string) (v : Value) : State DbState unit :=
  set_store (λ st, alter (λ e, {| value := v; expires_at := expires_at e |}) key st).

(** [Entry::is_expired]: the clock is read only when there is a deadline. *)
Definition is_expired (e : Entry) : State DbState bool :=
  match expires_at e with
  | Some deadline => t ← now; mret (bool_decide (deadline ≤ t))
  | None => mret false
  end.

Definition deadline_after (seconds : Z) : State DbState (option Instant) :=
  t ← now; mret (checked_add_instant t (from_secs seconds)).

(** [store.get(key).is_some_and(Entry::is_expired)] *)
Definition key_expired (key : string) : State DbState bool :=
  e ← get_entry key;
  match e with
  | Some e => is_expired e
  | None => mret false
  end.

Definition live_entry (key : string) : State DbState (option Entry) :=
  expired ← key_expired key;
  if (expired : bool) then remove_key key ;; mret None
  else get_entry key.

(** [store.entry(key).or_insert_with(default)] *)
Definition entry_or_insert (key : string) (default : Entry) : State DbState Entry :=
  e ← get_entry key;
  match e with
  | Some e => mret e
  | None => insert_entry key default ;; mret default
  end.

(** Evicts the key when it has expired. *)
Definition evict_expired (key : string) : State DbState unit :=
  expired ← key_expired key;
  if (expired : bool) then remove_key key else mret tt.

(** The [entry_accessor!] macro: the inner collection of the key's entry, which
    is created when the key is absent or expired. *)
Definition entry_accessor {T} (inject : T → Value) (project : Value → option T) (new : T)
    (key : string) : State DbState (result T StoreError) :=
  evict_expired key ;;
  entry ← entry_or_insert key {| value := inject new; expires_at := None |};
  mret (match project (value entry) with
        | Some inner => Ok inner
        | None => Err WrongType
        end).

Definition as_str (v : Value) : option string :=
  match v with VStr s => Some s | _ => None end.
Definition as_list (v : Value) : option (list string) :=
  match v with VList l => Some l | _ => None end.
Definition as_set (v : Value) : option (gset string) :=
  match v with VSet s => Some s | _ => None end.
Definition as_sorted_set (v : Value) : option RSortedSet.RSortedSet :=
  match v with VSortedSet z => Some z | _ => None end.
Definition as_hash (v : Value) : option (gmap string string) :=
  match v with VHash h => Some h | _ => None end.

Definition list_or_create := entry_accessor VList as_list RList.new.
Definition set_or_create := entry_accessor VSet as_set RSet.new.
Definition sorted_set_or_create := entry_accessor VSortedSet as_sorted_set RSortedSet.new.
Definition hash_or_create := entry_accessor VHash as_hash RHash.new.

(** Members of the set at [key] for the multi-key set operations. The code
    copies the members into a fresh [HashSet]. *)
Definition set_members_of {HO : HashOrder} (key : string)
    : State DbState (result (gset string) StoreError) :=
  e ← get_entry key;
  match e with
  | Some entry =>
      expired ← is_expired entry;
      if (expired : bool) then mret (Ok ∅)
      else mret (match value entry with
                 | VSet s => Ok (list_to_set (RSet.smembers s))
                 | _ => Err WrongType
                 end)
  | None => mret (Ok ∅)
  end.

(** [Database::read_entry]: a read-locked section, then, only for an expired
    key, a write-locked one that checks again before it evicts. *)
Definition read_entry {T} (key : string) (absent : T) (read : Entry → State DbState T)
    : Task DbState T :=
  Critical (
    e ← get_entry key;
    match e with
    | None => mret (Done absent)
    | Some entry =>
        expired ← is_expired entry;
        if (expired : bool) then
          mret (Critical (evict_expired key ;; mret (Done absent)))
        else r ← read entry; mret (Done r)
    end).
End store.

(** * Expiry as a property of a store at an instant *)

Definition expired_at (t : Instant) (e : Entry) : bool :=
  match expires_at e with
  | Some deadline => bool_decide (deadline ≤ t)
  | None => false
  end.

Definition live_at (t : Instant) (e : Entry) : Prop := expired_at t e = false.
#[export] Instance live_at_dec t e : Decision (live_at t e).
Proof. unfold live_at. apply _. Defined.

(** The keys a client can see at instant [t]. *)
Definition view (t : Instant) (st : Store) : Store := filter (λ p, live_at t p.2) st.

Lemma lookup_view t st k :
  view t st !! k = e ← st !! k; if expired_at t e then None else Some e.
Proof.
  unfold view. rewrite map_lookup_filter. destruct (st !! k) as [e|]; [|done]. simpl.
  destruct (decide (live_at t e)) as [H|H].
  - rewrite option_guard_True by done. unfold live_at in H. by rewrite H.
  - rewrite option_guard_False by done. unfold live_at in H. by destruct (expired_at t e).
Qed.

Lemma lookup_view_some t st k e : view t st !! k = Some e ↔ st !! k = Some e ∧ expired_at t e = false.
Proof.
  rewrite lookup_view. destruct (st !! k) as [e'|]; simpl; [|naive_solver].
  split.
  - destruct (expired_at t e') eqn:X; [done|]. by intros [= <-].
  - intros [[= ->] H]. by rewrite H.
Qed.

Lemma view_insert t st k e :
  expired_at t e = false → view t (<[k := e]> st) = <[k := e]> (view t st).
Proof.
  intros He. apply map_eq. intros j. rewrite lookup_view.
  destruct (decide (k = j)) as [<-|Hne].
  - rewrite !lookup_insert_eq. simpl. by rewrite He.
  - rewrite !lookup_insert_ne, lookup_view by done. done.
Qed.

Lemma view_insert_expired t st k e :
  expired_at t e = true → view t (<[k := e]> st) = delete k (view t st).
Proof.
  intros He. apply map_eq. intros j. rewrite lookup_view.
  destruct (decide (k = j)) as [<-|Hne].
  - rewrite lookup_insert_eq, lookup_delete_eq. simpl. by rewrite He.
  - rewrite lookup_insert_ne, lookup_delete_ne, lookup_view by done. done.
Qed.

Lemma view_delete t st k : view t (delete k st) = delete k (view t st).
Proof.
  apply map_eq. intros j. rewrite lookup_view.
  destruct (decide (k = j)) as [<-|Hne].
  - by rewrite !lookup_delete_eq.
  - rewrite !lookup_delete_ne, lookup_view by done. done.
Qed.

(** Evicting an expired key is not visible. *)
Lemma view_evict t st k e :
  st !! k = Some e → expired_at t e = true → view t (delete k st) = view t st.
Proof.
  intros Hk He. rewrite view_delete. apply delete_id. rewrite lookup_view, Hk. simpl. by rewrite He.
Qed.

Lemma expired_later t t' e : t ≤ t' → expired_at t e = true → expired_at t' e = true.
Proof.
  unfold expired_at. destruct (expires_at e); [|done]. rewrite !bool_decide_eq_true. lia.
Qed.

Lemma view_later t t' st k e : t ≤ t' → view t' st !! k = Some e → view t st !! k = Some e.
Proof.
  rewrite !lookup_view_some. intros Ht [Hk He]. split; [done|].
  destruct (expired_at t e) eqn:X; [|done]. by rewrite (expired_later t t') in He.
Qed.
