(* ===== verification/Database.v ===== *)
(** The operations of [Database] on the key/value store ([db.rs]).

    Each [async fn] that takes the lock once is one critical section; those that
    go through [read_entry] have a read-locked section and, for an expired key, a
    write-locked one.  The names are the methods' names ([exists_] is
    [exists]). *)

From S2P Require Import Prelude Task RustInt RustStr RustF64 HashOrder Glob Clock Store.
From S2P Require RList RSet RHash RSortedSet.
Local Open Scope Z_scope.

Section database.
Context {CK : Clock} {HO : HashOrder} {OF : OrderedFloat}.

Abbreviation Db := (Task DbState).
Abbreviation StoreResult A := (result A StoreError).

(** [if is_empty { store.remove(key); }] *)
Definition drop_if_empty (key : string) (is_empty : bool) : State DbState unit :=
  if is_empty then remove_key key else mret tt.

(** ** Strings *)

(** [ttl.and_then(deadline_after)] *)
Definition deadline_of (ttl : option Z) : State DbState (option Instant) :=
  match ttl with
  | Some seconds => deadline_after seconds
  | None => mret None
  end.

Definition set (key value : string) (ttl : option Z) : Db unit :=
  atomically (
    expires_at ← deadline_of ttl;
    insert_entry key {| value := VStr value; expires_at := expires_at |}).

Definition get (key : string) : Db (StoreResult (option string)) :=
  read_entry key (Ok None) (λ entry, mret
    match value entry with
    | VStr value => Ok (Some value)
    | _ => Err WrongType
    end).

Definition del (keys : list string) : Db Z :=
  atomically (
    for_fold keys 0 (λ removed key,
      entry ← live_entry key;
      match entry with
      | Some _ => remove_key key ;; mret (removed + 1)
      | None => mret removed
      end)).

Definition incr_by (key : string) (delta : Z) : Db (StoreResult Z) :=
  atomically (
    evict_expired key ;;
    entry ← entry_or_insert key {| value := VStr "0"; expires_at := None |};
    match value entry with
    | VStr current =>
        match
          let? value := ok_or (parse_i64 current) NotAnInteger in
          ok_or (checked_add value delta) Overflow
        with
        | Ok next => put_value key (VStr (int_to_string next)) ;; mret (Ok next)
        | Err e => mret (Err e)
        end
    | _ => mret (Err WrongType)
    end).

Definition append (key suffix : string) : Db (StoreResult Z) :=
  atomically (
    evict_expired key ;;
    entry ← entry_or_insert key {| value := VStr ""; expires_at := None |};
    match value entry with
    | VStr current =>
        put_value key (VStr (current +:+ suffix)) ;; mret (Ok (slen (current +:+ suffix)))
    | _ => mret (Err WrongType)
    end).

Definition strlen (key : string) : Db (StoreResult Z) :=
  read_entry key (Ok 0) (λ entry, mret
    match value entry with
    | VStr value => Ok (slen value)
    | _ => Err WrongType
    end).

(** One element of [mget]. *)
Definition read_string (key : string) : State DbState (option string) :=
  e ← get_entry key;
  match e with
  | Some entry =>
      expired ← is_expired entry;
      mret (if (expired : bool) then None else as_str (value entry))
  | None => mret None
  end.

Definition mget (keys : list string) : Db (list (option string)) :=
  atomically (map_state read_string keys).

Definition mset (pairs : list (string * string)) : Db unit :=
  atomically (
    for_each pairs (λ '(key, value),
      insert_entry key {| value := VStr value; expires_at := None |})).

Definition setnx (key value : string) : Db bool :=
  atomically (
    entry ← live_entry key;
    match entry with
    | Some _ => mret false
    | None => insert_entry key {| value := VStr value; expires_at := None |} ;; mret true
    end).

Definition getset (key value : string) : Db (StoreResult (option string)) :=
  atomically (
    entry ← live_entry key;
    let store_new previous :=
      insert_entry key {| value := VStr value; expires_at := None |} ;; mret (Ok previous) in
    match entry with
    | Some entry =>
        match Store.value entry with
        | VStr current => store_new (Some current)
        | _ => mret (Err WrongType)
        end
    | None => store_new None
    end).

(** ** Lists *)

Definition push (op : RList.RList → string → RList.RList) (key : string) (values : list string)
    : Db (StoreResult Z) :=
  atomically (
    list ← list_or_create key;
    match list with
    | Ok list =>
        let list := fold_left op values list in
        put_value key (VList list) ;; mret (Ok (RList.len list))
    | Err e => mret (Err e)
    end).

Definition lpush := push RList.lpush.
Definition rpush := push RList.rpush.

Definition pop (key : string) (take : RList.RList → option string * RList.RList)
    : Db (StoreResult (option string)) :=
  atomically (
    entry ← live_entry key;
    match entry with
    | None => mret (Ok None)
    | Some entry =>
        match value entry with
        | VList list =>
            let '(popped, list) := take list in
            put_value key (VList list) ;;
            drop_if_empty key (RList.is_empty list) ;;
            mret (Ok popped)
        | _ => mret (Err WrongType)
        end
    end).

Definition lpop (key : string) := pop key RList.lpop.
Definition rpop (key : string) := pop key RList.rpop.

(** A read of the list, set, sorted set or hash at a key. *)
Definition read_as {A T} (project : Value → option A) (f : A → T) (entry : Entry)
    : State DbState (StoreResult T) :=
  mret match project (value entry) with
       | Some inner => Ok (f inner)
       | None => Err WrongType
       end.

Definition lrange (key : string) (start stop : Z) : Db (StoreResult (list string)) :=
  read_entry key (Ok []) (read_as as_list (λ list, RList.lrange list start stop)).
Definition llen (key : string) : Db (StoreResult Z) :=
  read_entry key (Ok 0) (read_as as_list RList.len).
Definition lindex (key : string) (index : Z) : Db (StoreResult (option string)) :=
  read_entry key (Ok None) (read_as as_list (λ list, RList.lindex list index)).

Definition lset (key : string) (index : Z) (new : string) : Db (StoreResult unit) :=
  atomically (
    entry ← live_entry key;
    match entry with
    | None => mret (Err NoSuchKey)
    | Some entry =>
        match value entry with
        | VList list =>
            let '(found, list) := RList.lset list index new in
            put_value key (VList list) ;;
            mret (if (found : bool) then Ok tt else Err IndexOutOfRange)
        | _ => mret (Err WrongType)
        end
    end).

(** ** Sets *)

(** One step of the loop of [sadd]. *)
Definition sadd_step (acc : Z * RSet.RSet) (value : string) : Z * RSet.RSet :=
  let '(is_new, set) := RSet.sadd acc.2 value in
  (if (is_new : bool) then acc.1 + 1 else acc.1, set).

Definition sadd (key : string) (values : list string) : Db (StoreResult Z) :=
  atomically (
    set ← set_or_create key;
    match set with
    | Ok set =>
        let '(added, set) := fold_left sadd_step values (0, set) in
        put_value key (VSet set) ;; mret (Ok added)
    | Err e => mret (Err e)
    end).

(** One step of [values.iter().filter(|value| set.srem(value)).count()]. *)
Definition srem_step (acc : Z * RSet.RSet) (value : string) : Z * RSet.RSet :=
  let '(found, set) := RSet.srem acc.2 value in
  (if (found : bool) then acc.1 + 1 else acc.1, set).

Definition srem (key : string) (values : list string) : Db (StoreResult Z) :=
  atomically (
    entry ← live_entry key;
    match entry with
    | None => mret (Ok 0)
    | Some entry =>
        match value entry with
        | VSet set =>
            let '(removed, set) := fold_left srem_step values (0, set) in
            put_value key (VSet set) ;;
            drop_if_empty key (RSet.is_empty set) ;;
            mret (Ok removed)
        | _ => mret (Err WrongType)
        end
    end).

Definition smembers (key : string) : Db (StoreResult (list string)) :=
  read_entry key (Ok []) (read_as as_set RSet.smembers).
Definition sismember (key member : string) : Db (StoreResult bool) :=
  read_entry key (Ok false) (read_as as_set (λ set, RSet.sismember set member)).
Definition scard (key : string) : Db (StoreResult Z) :=
  read_entry key (Ok 0) (read_as as_set RSet.scard).

Definition spop (key : string) : Db (StoreResult (option string)) :=
  atomically (
    entry ← live_entry key;
    match entry with
    | None => mret (Ok None)
    | Some entry =>
        match value entry with
        | VSet set =>
            let '(popped, set) := RSet.spop set in
            put_value key (VSet set) ;;
            drop_if_empty key (RSet.is_empty set) ;;
            mret (Ok popped)
        | _ => mret (Err WrongType)
        end
    end).

(** The loop of a multi-key set operation: an error ends it. *)
Fixpoint combine_sets (f : gset string → gset string → gset string)
    (keys : list string) (acc : gset string) : State DbState (StoreResult (gset string)) :=
  match keys with
  | [] => mret (Ok acc)
  | key :: keys =>
      other ← set_members_of key;
      match other with
      | Ok other => combine_sets f keys (f acc other)
      | Err e => mret (Err e)
      end
  end.

(** [result.into_iter().collect()] *)
Definition collect_set (r : StoreResult (gset string)) : StoreResult (list string) :=
  let? set := r in Ok (iter_set set).

Definition first_and_rest (f : gset string → gset string → gset string) (keys : list string)
    : Db (StoreResult (list string)) :=
  atomically
    match keys with
    | [] => mret (Ok [])
    | key :: keys =>
        first ← set_members_of key;
        match first with
        | Ok first => r ← combine_sets f keys first; mret (collect_set r)
        | Err e => mret (Err e)
        end
    end.

(** [result.retain(|member| other.contains(member))] *)
Definition retain_in (result other : gset string) : gset string :=
  filter (λ member, member ∈ other) result.
(** [for member in other { result.remove(&member); }] *)
Definition remove_each (result other : gset string) : gset string :=
  fold_left (λ result member, result ∖ {[member]}) (iter_set other) result.
(** [result.extend(other)] *)
Definition extend (result other : gset string) : gset string :=
  fold_left (λ result member, {[member]} ∪ result) (iter_set other) result.

Definition sinter (keys : list string) := first_and_rest retain_in keys.
Definition sunion (keys : list string) : Db (StoreResult (list string)) :=
  atomically (r ← combine_sets extend keys ∅; mret (collect_set r)).
Definition sdiff (keys : list string) := first_and_rest remove_each keys.

(** ** Sorted sets *)

(** One step of the loop of [zadd]. *)
Definition zadd_step (acc : Z * RSortedSet.RSortedSet) (p : f64 * string)
    : Z * RSortedSet.RSortedSet :=
  let '(is_new, zset) := RSortedSet.zadd acc.2 p.1 p.2 in
  (if (is_new : bool) then acc.1 + 1 else acc.1, zset).

Definition zadd (key : string) (members : list (f64 * string)) : Db (StoreResult Z) :=
  atomically (
    zset ← sorted_set_or_create key;
    match zset with
    | Ok zset =>
        let '(added, zset) := fold_left zadd_step members (0, zset) in
        put_value key (VSortedSet zset) ;; mret (Ok added)
    | Err e => mret (Err e)
    end).

Definition zrem (key member : string) : Db (StoreResult bool) :=
  atomically (
    entry ← live_entry key;
    match entry with
    | None => mret (Ok false)
    | Some entry =>
        match value entry with
        | VSortedSet zset =>
            let '(removed, zset) := RSortedSet.zrem zset member in
            put_value key (VSortedSet zset) ;;
            drop_if_empty key (RSortedSet.is_empty zset) ;;
            mret (Ok removed)
        | _ => mret (Err WrongType)
        end
    end).

Definition zrange (key : string) (start stop : Z) : Db (StoreResult (list string)) :=
  read_entry key (Ok []) (read_as as_sorted_set (λ z, RSortedSet.zrange z start stop)).
Definition zscore (key member : string) : Db (StoreResult (option f64)) :=
  read_entry key (Ok None) (read_as as_sorted_set (λ z, RSortedSet.zscore z member)).
Definition zcard (key : string) : Db (StoreResult Z) :=
  read_entry key (Ok 0) (read_as as_sorted_set RSortedSet.zcard).
Definition zrank (key member : string) : Db (StoreResult (option Z)) :=
  read_entry key (Ok None) (read_as as_sorted_set (λ z, RSortedSet.zrank z member)).

Definition zincrby (key : string) (increment : f64) (member : string) : Db (StoreResult f64) :=
  atomically (
    zset ← sorted_set_or_create key;
    match zset with
    | Ok zset =>
        let new_score := f64_add (default f64_zero (RSortedSet.zscore zset member)) increment in
        if is_nan new_score then mret (Err ScoreNaN)
        else
          put_value key (VSortedSet (RSortedSet.zadd zset new_score member).2) ;;
          mret (Ok new_score)
    | Err e => mret (Err e)
    end).

Definition zrange_with_scores (key : string) (start stop : Z)
    : Db (StoreResult (list (string * f64))) :=
  read_entry key (Ok [])
    (read_as as_sorted_set (λ z, RSortedSet.zrange_with_scores z start stop)).
Definition zrange_by_score (key : string) (min : f64) (min_inclusive : bool)
    (max : f64) (max_inclusive : bool) : Db (StoreResult (list string)) :=
  read_entry key (Ok []) (read_as as_sorted_set
    (λ z, RSortedSet.zrange_by_score z min min_inclusive max max_inclusive)).

(** ** Hashes *)

Definition hset (key field new : string) : Db (StoreResult bool) :=
  atomically (
    hash ← hash_or_create key;
    match hash with
    | Ok hash =>
        let '(is_new, hash) := RHash.hset hash field new in
        put_value key (VHash hash) ;; mret (Ok is_new)
    | Err e => mret (Err e)
    end).

Definition hget (key field : string) : Db (StoreResult (option string)) :=
  read_entry key (Ok None) (read_as as_hash (λ hash, RHash.hget hash field)).

Definition hdel (key field : string) : Db (StoreResult bool) :=
  atomically (
    entry ← live_entry key;
    match entry with
    | None => mret (Ok false)
    | Some entry =>
        match value entry with
        | VHash hash =>
            let '(removed, hash) := RHash.hdel hash field in
            put_value key (VHash hash) ;;
            drop_if_empty key (RHash.is_empty hash) ;;
            mret (Ok removed)
        | _ => mret (Err WrongType)
        end
    end).

(** [flat.push(field); flat.push(value);] for each pair. *)
Definition flatten_pairs (pairs : list (string * string)) : list string :=
  fold_left (λ flat '(field, value), (flat ++ [field]) ++ [value]) pairs [].

Definition hgetall (key : string) : Db (StoreResult (list string)) :=
  read_entry key (Ok []) (read_as as_hash (λ hash, flatten_pairs (RHash.hgetall hash))).
Definition hkeys (key : string) : Db (StoreResult (list string)) :=
  read_entry key (Ok []) (read_as as_hash RHash.hkeys).
Definition hvals (key : string) : Db (StoreResult (list string)) :=
  read_entry key (Ok []) (read_as as_hash RHash.hvals).
Definition hlen (key : string) : Db (StoreResult Z) :=
  read_entry key (Ok 0) (read_as as_hash RHash.hlen).
Definition hexists (key field : string) : Db (StoreResult bool) :=
  read_entry key (Ok false) (read_as as_hash (λ hash, RHash.hexists hash field)).

Definition hincrby (key field : string) (delta : Z) : Db (StoreResult Z) :=
  atomically (
    hash ← hash_or_create key;
    match hash with
    | Ok hash =>
        match
          let? current :=
            match RHash.hget hash field with
            | Some value => ok_or (parse_i64 value) NotAHashInteger
            | None => Ok 0
            end in
          ok_or (checked_add current delta) Overflow
        with
        | Ok next =>
            put_value key (VHash (RHash.hset hash field (int_to_string next)).2) ;;
            mret (Ok next)
        | Err e => mret (Err e)
        end
    | Err e => mret (Err e)
    end).

(** ** Generic key operations *)

(** [matches!(store.get(key), Some(entry) if !entry.is_expired())] *)
Definition is_live (key : string) : State DbState bool :=
  e ← get_entry key;
  match e with
  | Some entry => expired ← is_expired entry; mret (negb expired)
  | None => mret false
  end.

Definition exists_ (keys : list string) : Db Z :=
  atomically (live ← filter_state is_live keys; mret (Z.of_nat (length live))).

Definition type_name (v : Value) : string :=
  match v with
  | VStr _ => "string"
  | VList _ => "list"
  | VSet _ => "set"
  | VSortedSet _ => "zset"
  | VHash _ => "hash"
  end.

Definition type_of (key : string) : Db string :=
  read_entry key "none" (λ entry, mret (type_name (value entry))).

(** [store.iter().filter(|(_, entry)| !entry.is_expired())] *)
Definition live_entries : State DbState (list (string * Entry)) :=
  st ← gets store;
  filter_state (λ p, expired ← is_expired p.2; mret (negb expired)) (iter_map st).

Definition keys (pattern : string) : Db (list string) :=
  atomically (
    live ← live_entries;
    mret (filter (λ key, glob_match pattern key = true) live.*1)).

Definition expire (key : string) (seconds : Z) : Db bool :=
  atomically (
    entry ← live_entry key;
    match entry with
    | None => mret false
    | Some _ =>
        (if decide (seconds ≤ 0) then remove_key key
         else
           entry ← get_entry key;
           match entry with
           | Some entry =>
               deadline ← deadline_after seconds;
               insert_entry key {| value := value entry; expires_at := deadline |}
           | None => mret tt
           end) ;;
        mret true
    end).

Definition ttl (key : string) : Db Z :=
  read_entry key (-2) (λ entry,
    match expires_at entry with
    | Some deadline =>
        t ← now;
        mret (wrap_i64 (as_secs (saturating_duration_since deadline t)))
    | None => mret (-1)
    end).

Definition persist (key : string) : Db bool :=
  atomically (
    entry ← live_entry key;
    match entry with
    | Some entry =>
        match expires_at entry with
        | Some _ =>
            insert_entry key {| value := value entry; expires_at := None |} ;; mret true
        | None => mret false
        end
    | None => mret false
    end).

Definition rename (key new_key : string) : Db bool :=
  atomically (
    entry ← live_entry key;
    match entry with
    | None => mret false
    | Some _ =>
        entry ← get_entry key;
        remove_key key ;;
        match entry with
        | Some entry => insert_entry new_key entry ;; mret true
        | None => mret false
        end
    end).

Definition dbsize : Db Z :=
  atomically (live ← live_entries; mret (Z.of_nat (length live))).

Definition flushall : Db unit := atomically (set_store (λ _, ∅)).

(** ** Maintenance *)

(** [store.retain(|_, entry| !entry.is_expired())] *)
Definition retain_live : State DbState unit :=
  st ← gets store;
  for_each (iter_map st) (λ p,
    expired ← is_expired p.2;
    if (expired : bool) then remove_key p.1 else mret tt).

Definition sweep_expired : Db Z :=
  atomically (
    before ← gets (λ s, Z.of_nat (size (store s)));
    retain_live ;;
    after ← gets (λ s, Z.of_nat (size (store s)));
    mret (wrap_u64 (before - after))).
End database.
