(* ===== verification/Keyspace.v ===== *)
(** The abstract keyspace and its refinement by [Database].

    Seen from a client the keyspace is a finite map without expired entries,
    [view t st].  An operation on one key is specified by a function of what the
    key holds ([key_spec]); [refines] says that an operation of [Database], from
    any store, answers with the specification's result and leaves the
    specification's keyspace, both seen at the instant of the operation's first
    clock reading.  Lazy eviction, get-or-create and the removal of emptied
    collections are in the code and not in the specifications. *)

From S2P Require Import Prelude Task RustInt RustStr RustF64 HashOrder Ranges Clock Store Database.
From S2P Require RList RSet RHash RSortedSet.
Local Open Scope Z_scope.

(** What an operation on one key does: its answer and what the key then holds. *)
Definition key_spec (T : Type) : Type := option Entry → T * option Entry.

Definition apply_spec {T} (k : string) (f : key_spec T) (V : Store) : T * Store :=
  let '(r, o) := f (V !! k) in (r, partial_alter (λ _, o) k V).

(** A string stored without a deadline. *)
Definition fresh_string (s : string) : Entry := {| value := VStr s; expires_at := None |}.

Section keyspace.
Context {CK : Clock} {HO : HashOrder} {OF : OrderedFloat}.

(** The instant of a state's next clock reading, and the keyspace then. *)
Definition instant (s : DbState) : Instant := instant_at (tick s).
Definition seen (s : DbState) : Store := view (instant s) (store s).

(** The first clause of [refines] is about the answer and the keyspace.  The
    others say that time does not go back and that in the store itself nothing
    but the key's entry changed. *)
Definition refines {T} (op : Task DbState T) (k : string) (f : key_spec T) : Prop :=
  ∀ s, let '(r, s') := run op s in
    (r, view (instant s) (store s')) = apply_spec k f (seen s) ∧ (tick s ≤ tick s')%nat ∧
    store s' = partial_alter (λ _, (f (seen s !! k)).2) k (store s).

(** ** The building blocks *)

(** The state once [k] has been looked at and evicted if need be. *)
Definition touch (k : string) (s : DbState) : DbState := (evict_expired k s).2.

Lemma key_expired_eq k s :
  key_expired k s =
    (match store s !! k with Some e => expired_at (instant s) e | None => false end,
     {| store := store s;
        tick := match store s !! k with
                | Some {| expires_at := Some _ |} => S (tick s)
                | _ => tick s
                end |}).
Proof.
  unfold key_expired, get_entry, gets, mbind, state_bind.
  destruct s as [st n]; simpl. destruct (st !! k) as [[v [d|]]|]; reflexivity.
Qed.

Lemma seen_lookup s k :
  seen s !! k = e ← store s !! k; if expired_at (instant s) e then None else Some e.
Proof. apply lookup_view. Qed.

Lemma evict_expired_eq k s : evict_expired k s = (tt, touch k s).
Proof. unfold touch. by destruct (evict_expired k s) as [[] s']. Qed.

Lemma touch_lookup k s : store (touch k s) !! k = seen s !! k.
Proof.
  unfold touch, evict_expired, mbind, state_bind. rewrite key_expired_eq, seen_lookup.
  destruct (store s !! k) as [e|] eqn:E; simpl; [|done].
  destruct (expired_at (instant s) e); simpl; [apply lookup_delete_eq|done].
Qed.

Lemma touch_view k s : view (instant s) (store (touch k s)) = seen s.
Proof.
  unfold touch, evict_expired, mbind, state_bind. rewrite key_expired_eq.
  destruct (store s !! k) as [e|] eqn:E; simpl; [|done].
  destruct (expired_at (instant s) e) eqn:X; simpl; [|done]. by eapply view_evict.
Qed.

Lemma touch_raw k s : store (touch k s) = partial_alter (λ _, seen s !! k) k (store s).
Proof.
  unfold touch, evict_expired, mbind, state_bind. rewrite key_expired_eq, seen_lookup.
  destruct (store s !! k) as [e|] eqn:E; simpl.
  - destruct (expired_at (instant s) e); simpl; [done|]. by rewrite <- E, partial_alter_self.
  - by rewrite <- E, partial_alter_self.
Qed.

Lemma touch_tick k s : (tick s ≤ tick (touch k s))%nat.
Proof.
  unfold touch, evict_expired, mbind, state_bind. rewrite key_expired_eq.
  destruct (store s !! k) as [[v [d|]]|]; simpl; [|lia|lia].
  case_match; simpl; lia.
Qed.

Lemma live_entry_eq k s : live_entry k s = (seen s !! k, touch k s).
Proof.
  rewrite <- touch_lookup. unfold touch, live_entry, evict_expired, mbind, state_bind.
  destruct (key_expired k s) as [[] s']; simpl; [|done]. by rewrite lookup_delete_eq.
Qed.

(** The state with [e] stored at [k]. *)
Definition stored (k : string) (e : Entry) (s : DbState) : DbState :=
  {| store := <[k := e]> (store s); tick := tick s |}.
Definition removed (k : string) (s : DbState) : DbState :=
  {| store := delete k (store s); tick := tick s |}.

Lemma insert_entry_eq k e s : insert_entry k e s = (tt, stored k e s).
Proof. done. Qed.

Lemma stored_same k e s : store s !! k = Some e → stored k e s = s.
Proof. intros H. unfold stored. rewrite insert_id by done. by destruct s. Qed.

Definition with_value (e : Entry) (v : Value) : Entry :=
  {| value := v; expires_at := expires_at e |}.

Lemma put_value_stored k v e s : put_value k v (stored k e s) = (tt, stored k (with_value e v) s).
Proof.
  unfold put_value, set_store, modify, stored. simpl. do 2 f_equal.
  apply map_eq. intros j. destruct (decide (j = k)) as [->|Hj].
  - by rewrite lookup_alter_eq, !lookup_insert_eq.
  - by rewrite lookup_alter_ne, !lookup_insert_ne by done.
Qed.

Lemma touch_stored k e s : seen s !! k = Some e → touch k s = stored k e (touch k s).
Proof. intros H. symmetry. apply stored_same. by rewrite touch_lookup. Qed.

Lemma or_insert_eq k default s :
  entry_or_insert k default (touch k s) =
    let e := from_option id default (seen s !! k) in (e, stored k e (touch k s)).
Proof.
  unfold entry_or_insert, mbind, state_bind, get_entry, gets. simpl. rewrite touch_lookup.
  destruct (seen s !! k) as [e|] eqn:E; [|done]. simpl. by rewrite <- touch_stored.
Qed.

(** ** From states back to the keyspace *)

Lemma seen_live s k e : seen s !! k = Some e → expired_at (instant s) e = false.
Proof. unfold seen. rewrite lookup_view_some. tauto. Qed.

Lemma view_stored s k e :
  expired_at (instant s) e = false →
  view (instant s) (store (stored k e (touch k s))) = partial_alter (λ _, Some e) k (seen s).
Proof. intros H. simpl. by rewrite view_insert, touch_view. Qed.

Lemma view_removed s k :
  view (instant s) (store (removed k (touch k s))) = partial_alter (λ _, None) k (seen s).
Proof. simpl. by rewrite view_delete, touch_view. Qed.

(** ** Operations that only read *)

Lemma refines_read {T} k (absent : T) (f : Entry → T) :
  refines (read_entry k absent (λ e, mret (f e))) k (λ o, (from_option f absent o, o)).
Proof.
  intros s. unfold apply_spec, read_entry, get_entry, gets. simpl.
  unfold mbind, state_bind. rewrite partial_alter_self, seen_lookup.
  destruct (store s !! k) as [[v d]|] eqn:E; simpl.
  2: { split_and!; [done|done|]. by rewrite <- E, partial_alter_self. }
  destruct d as [d|]; simpl.
  2: { split_and!; [done|done|]. by rewrite <- E, partial_alter_self. }
  change (instant_at (tick s)) with (instant s).
  unfold expired_at; simpl. case_bool_decide as X; simpl.
  2: { split_and!; [done|lia|]. by rewrite <- E, partial_alter_self. }
  assert (Hexp : expired_at (instant s) {| value := v; expires_at := Some d |} = true)
    by (unfold expired_at; simpl; by apply bool_decide_eq_true).
  assert (Hlater : expired_at (instant_at (S (tick s))) {| value := v; expires_at := Some d |} = true)
    by (eapply expired_later, Hexp; apply instant_mono).
  unfold evict_expired, mbind, state_bind. rewrite key_expired_eq. simpl. rewrite E.
  unfold instant at 1. simpl. rewrite Hlater. simpl. split_and!; [|lia|done].
  by erewrite view_evict.
Qed.

(** The answer is settled by the first section, whatever happens between the
    two. *)
Lemma read_linearizes {T} k (absent : T) (f : Entry → T) :
  ∃ first, read_entry k absent (λ e, mret (f e)) = Critical first ∧
    ∀ s, ensures (eq (from_option f absent (seen s !! k))) (first s).1.
Proof.
  eexists. split; [reflexivity|]. intros s. rewrite seen_lookup.
  unfold mbind, state_bind, get_entry, gets.
  destruct (store s !! k) as [[v [d|]]|]; cbn; [|by constructor|by constructor].
  unfold mbind, state_bind, expired_at, instant. cbn. case_bool_decide; cbn; [|by constructor].
  constructor. intros s'. unfold evict_expired, mbind, state_bind.
  destruct (key_expired k s') as [[] s1]; by constructor.
Qed.

(** A specification for one of the collection types, [None] for no key. A key
    of another type is an error and is left alone. *)
Definition typed_spec {A T} (inject : A → Value) (project : Value → option A)
    (f : option A → result T StoreError * option A) : key_spec (result T StoreError) := λ o,
  match o with
  | None =>
      let '(r, a) := f None in
      (r, (λ a, {| value := inject a; expires_at := None |}) <$> a)
  | Some e =>
      match project (value e) with
      | Some a => let '(r, a') := f (Some a) in (r, (λ a', with_value e (inject a')) <$> a')
      | None => (Err WrongType, Some e)
      end
  end.

Lemma refines_ext {T} op k (f g : key_spec T) :
  refines op k f → (∀ o, f o = g o) → refines op k g.
Proof.
  intros H Hfg s. specialize (H s). destruct (run op s) as [r s'].
  unfold apply_spec in *. by rewrite <- !Hfg.
Qed.

Lemma refines_run {T} (op op' : Task DbState T) k (f : key_spec T) :
  (∀ s, run op s = run op' s) → refines op' k f → refines op k f.
Proof. intros Heq H s. rewrite Heq. apply H. Qed.

Lemma refines_read_as {A T} inject (project : Value → option A) k (absent : T) (f : A → T) :
  (∀ v a, project v = Some a → v = inject a) →
  refines (read_entry k (Ok absent) (read_as project f)) k
    (typed_spec inject project (λ a, (Ok (from_option f absent a), a))).
Proof.
  intros Hproj. eapply refines_ext; [apply refines_read|]. intros [[v d]|]; [|done].
  unfold typed_spec, with_value; simpl.
  destruct (project v) as [a|] eqn:E; simpl; [|done]. by rewrite (Hproj v a E).
Qed.

(** ** Operations that update the value *)

(** The state in which the key holds [o]. *)
Definition settled (k : string) (o : option Entry) (s : DbState) : DbState :=
  match o with Some e => stored k e s | None => removed k s end.

(** [e'] does not expire before [e]. *)
Definition outlives (e e' : Entry) : Prop :=
  expires_at e' = expires_at e ∨ expires_at e' = None.

Lemma outlives_live t e e' : outlives e e' → expired_at t e = false → expired_at t e' = false.
Proof. unfold expired_at. by intros [-> | ->]. Qed.

Lemma view_settled s k o :
  (∀ e, o = Some e → expired_at (instant s) e = false) →
  view (instant s) (store (settled k o (touch k s))) = partial_alter (λ _, o) k (seen s).
Proof. intros H. destruct o; simpl settled; [apply view_stored; auto|apply view_removed]. Qed.

Lemma store_settled s k o :
  store (settled k o (touch k s)) = partial_alter (λ _, o) k (store s).
Proof.
  destruct o; simpl; rewrite touch_raw; apply map_eq; intros j;
    (destruct (decide (j = k)) as [->|Hj];
     [by rewrite ?lookup_insert_eq, ?lookup_delete_eq, !lookup_partial_alter_eq
     |by rewrite ?lookup_insert_ne, ?lookup_delete_ne, !lookup_partial_alter_ne]).
Qed.

Lemma settled_tick k o s : tick (settled k o s) = tick s.
Proof. by destruct o. Qed.

Lemma settled_same k o s : store s !! k = o → settled k o s = s.
Proof.
  intros H. destruct o; simpl; [by apply stored_same|]. unfold removed.
  rewrite delete_id by done. by destruct s.
Qed.

(** Operations built on [live_entry]. *)
Lemma refines_live_entry {T} k (body : option Entry → State DbState T) (g : key_spec T) :
  (∀ o s, store s !! k = o → body o s = let '(r, o') := g o in (r, settled k o' s)) →
  (∀ o e', (g o).2 = Some e' → expires_at e' = None ∨ ∃ e, o = Some e ∧ outlives e e') →
  refines (atomically (entry ← live_entry k; body entry)) k g.
Proof.
  intros Hbody Hlive s. rewrite run_atomically. unfold apply_spec, mbind, state_bind.
  rewrite live_entry_eq, Hbody by apply touch_lookup.
  specialize (Hlive (seen s !! k)). destruct (g (seen s !! k)) as [r o].
  rewrite settled_tick, view_settled; [split_and!; [done|apply touch_tick|apply store_settled]|].
  intros e' ->. destruct (Hlive e') as [Hnone|(e & He & Hout)]; [done| |].
  - unfold expired_at. by rewrite Hnone.
  - eapply outlives_live; [exact Hout|]. by eapply seen_live.
Qed.

Lemma refines_live {T} k (absent : T) (body : Entry → State DbState T)
    (g : Entry → T * option Entry) :
  (∀ e s, body e (stored k e s) = let '(r, o) := g e in (r, settled k o s)) →
  (∀ e e', (g e).2 = Some e' → outlives e e') →
  refines
    (atomically (
      entry ← live_entry k;
      match entry with
      | None => mret absent
      | Some e => body e
      end)) k
    (λ o, match o with Some e => g e | None => (absent, None) end).
Proof.
  intros Hbody Hlive. apply refines_live_entry.
  - intros [e|] s Hs; [|by rewrite settled_same].
    rewrite <- (stored_same k e s Hs) at 1. rewrite Hbody. by destruct (g e).
  - intros [e|] e'; [|done]. intros H. right. eauto.
Qed.

(** Operations built on [entry_or_insert]. *)
Lemma refines_or_insert {T} k (v0 : Value) (body : Entry → State DbState T)
    (g : Entry → T * option Entry) :
  (∀ e s, body e (stored k e s) = let '(r, o) := g e in (r, settled k o s)) →
  (∀ e e', (g e).2 = Some e' → outlives e e') →
  refines
    (atomically (
      evict_expired k ;;
      entry ← entry_or_insert k {| value := v0; expires_at := None |};
      body entry)) k
    (λ o, g (default {| value := v0; expires_at := None |} o)).
Proof.
  intros Hbody Hlive s. rewrite run_atomically. unfold apply_spec, mbind, state_bind.
  rewrite evict_expired_eq, or_insert_eq. simpl.
  set (e := from_option id _ _). assert (He : expired_at (instant s) e = false).
  { unfold e. destruct (seen s !! k) as [e'|] eqn:E; simpl; [by eapply seen_live|done]. }
  rewrite Hbody. specialize (Hlive e). destruct (g e) as [r o].
  rewrite settled_tick, view_settled;
    [split_and!; [done|apply touch_tick|apply store_settled]|].
  intros e' ->. eapply outlives_live; [by apply Hlive|done].
Qed.

Lemma put_drop_eq {T} k v b (r : T) e s :
  (put_value k v ;; drop_if_empty k b ;; mret r) (stored k e s) =
    (r, settled k (if (b : bool) then None else Some (with_value e v)) s).
Proof.
  unfold mbind, state_bind. rewrite put_value_stored. unfold drop_if_empty.
  destruct b; [|done]. unfold remove_key, set_store, modify. simpl.
  unfold removed, mret, state_ret. by rewrite delete_insert_eq.
Qed.

Lemma put_eq {T} k v (r : T) e s :
  (put_value k v ;; mret r) (stored k e s) = (r, settled k (Some (with_value e v)) s).
Proof. unfold mbind, state_bind. by rewrite put_value_stored. Qed.

(** The same for the collections, at the type of the collection. *)
Lemma refines_accessor {A T} (inject : A → Value) project (new : A) k
    (body : A → State DbState (result T StoreError)) (f : A → result T StoreError * A) :
  (∀ v a, project v = Some a ↔ v = inject a) →
  (∀ a e s, value e = inject a →
     body a (stored k e s) =
       let '(r, a') := f a in (r, stored k (with_value e (inject a')) s)) →
  refines
    (atomically (
      inner ← entry_accessor inject project new k;
      match inner with
      | Ok a => body a
      | Err e => mret (Err e)
      end)) k
    (typed_spec inject project (λ o, let '(r, a) := f (default new o) in (r, Some a))).
Proof.
  intros Hproj Hbody.
  set (body' e := match project (value e) with
                  | Some a => body a
                  | None => mret (Err WrongType)
                  end).
  set (g e := match project (value e) with
              | Some a => let '(r, a') := f a in (r, Some (with_value e (inject a')))
              | None => (Err WrongType, Some e)
              end).
  assert (Hor := refines_or_insert k (inject new) body' g).
  eassert (H : refines _ k _); [apply Hor|].
  - intros e s'. unfold body', g. destruct (project (value e)) as [a|] eqn:E; [|done].
    rewrite Hbody by (by apply Hproj). by destruct (f a).
  - intros e e'. unfold g, outlives. destruct (project (value e)) as [a|]; [destruct (f a)|];
      simpl; intros [= <-]; by left.
  - eapply refines_run; [|eapply refines_ext; [exact H|]].
    + intros s. rewrite !run_atomically. unfold entry_accessor, mbind, state_bind.
      rewrite evict_expired_eq, or_insert_eq. simpl. unfold body'. by destruct (project _).
    + intros [e|]; unfold typed_spec, g; simpl.
      * destruct (project (value e)) as [a|]; [|done]. simpl. by destruct (f a).
      * assert (Hn : project (inject new) = Some new) by (by apply Hproj).
        rewrite Hn. by destruct (f new).
Qed.

Lemma refines_live_as {A T} (inject : A → Value) project k (absent : result T StoreError)
    (body : Entry → State DbState (result T StoreError))
    (f : A → result T StoreError * option A) :
  (∀ e s, body e (stored k e s) =
     match project (value e) with
     | Some a => let '(r, a') := f a in (r, settled k (with_value e ∘ inject <$> a') s)
     | None => (Err WrongType, stored k e s)
     end) →
  refines
    (atomically (
      entry ← live_entry k;
      match entry with
      | None => mret absent
      | Some e => body e
      end)) k
    (typed_spec inject project (λ o, match o with Some a => f a | None => (absent, None) end)).
Proof.
  intros Hbody. eapply refines_ext.
  - apply (refines_live k absent body (λ e,
      match project (value e) with
      | Some a => let '(r, a') := f a in (r, with_value e ∘ inject <$> a')
      | None => (Err WrongType, Some e)
      end)).
    + intros e s. rewrite Hbody. destruct (project (value e)) as [a|]; [by destruct (f a)|done].
    + intros e e'. unfold outlives. destruct (project (value e)) as [a|]; [|naive_solver].
      destruct (f a) as [r [a'|]]; simpl; [|done]. intros [= <-]. by left.
  - intros [e|]; [|done]. unfold typed_spec.
    destruct (project (value e)) as [a|]; [|done]. by destruct (f a) as [r [a'|]].
Qed.
End keyspace.
