(* ===== verification/Refinement.v ===== *)
(** Specifications of the single-key operations, one family per type of value,
    and the theorems that [Database] implements them.

    A specification speaks of the value only: [None] is a key that does not
    exist.  [typed_spec] adds the check of the type and carries the expiry
    deadline along. *)

From S2P Require Import Prelude Task RustInt RustStr RustF64 HashOrder Ranges Clock Store Database.
From S2P Require Import Keyspace.
From S2P Require RList RSet RHash RSortedSet.
Local Open Scope Z_scope.

(** The test [is_empty] of the code and the [nonempty] of the specification. *)
Lemma drop_none {A B} (P : Prop) `{!Decision P} (f : A → B) (x : A) :
  (if bool_decide P then None else Some (f x)) = f <$> (if decide P then None else Some x).
Proof. by case_bool_decide; case_decide. Qed.

Section refinement.
Context {CK : Clock} {HO : HashOrder} {OF : OrderedFloat}.

(** ** Lists *)

Inductive list_op : Type → Type :=
| LPush (values : list string) : list_op Z
| RPush (values : list string) : list_op Z
| LPop : list_op (option string)
| RPop : list_op (option string)
| LRange (start stop : Z) : list_op (list string)
| LLen : list_op Z
| LIndex (index : Z) : list_op (option string)
| LSet (index : Z) (new : string) : list_op unit.

Definition run_list_op {T} (k : string) (op : list_op T) : Task DbState (result T StoreError) :=
  match op with
  | LPush values => lpush k values
  | RPush values => rpush k values
  | LPop => lpop k
  | RPop => rpop k
  | LRange start stop => lrange k start stop
  | LLen => llen k
  | LIndex index => lindex k index
  | LSet index new => lset k index new
  end.

(** A collection that became empty is no longer stored. *)
Definition nonempty_list (l : list string) : option (list string) :=
  match l with [] => None | _ => Some l end.

Definition list_spec {T} (op : list_op T) (o : option (list string))
    : result T StoreError * option (list string) :=
  let l := default [] o in
  match op with
  | LPush values => (Ok (RList.len (rev values ++ l)), Some (rev values ++ l))
  | RPush values => (Ok (RList.len (l ++ values)), Some (l ++ values))
  | LPop => (Ok (head l), o ≫= λ l, nonempty_list (tail l))
  | RPop => (Ok (last l), o ≫= λ l, nonempty_list (take (length l - 1) l))
  | LRange start stop => (Ok (RList.lrange l start stop), o)
  | LLen => (Ok (RList.len l), o)
  | LIndex index => (Ok (RList.lindex l index), o)
  | LSet index new =>
      match o with
      | None => (Err NoSuchKey, None)
      | Some l =>
          match normalize_index index (RList.len l) with
          | Some i => (Ok tt, Some (<[Z.to_nat i := new]> l))
          | None => (Err IndexOutOfRange, Some l)
          end
      end
  end.

Lemma as_list_inj v l : as_list v = Some l ↔ v = VList l.
Proof. destruct v; naive_solver. Qed.

Lemma push_refines op k values :
  refines (push op k values) k (typed_spec VList as_list (λ o,
    let l := fold_left op values (default [] o) in (Ok (RList.len l), Some l))).
Proof.
  apply (refines_accessor VList as_list RList.new k _
    (λ l, let l := fold_left op values l in (Ok (RList.len l), l)) as_list_inj).
  intros a e s _. apply put_eq.
Qed.

Lemma pop_refines take k :
  refines (pop k take) k (typed_spec VList as_list (λ o,
    match o with
    | Some l => let '(r, l) := take l in (Ok r, nonempty_list l)
    | None => (Ok None, None)
    end)).
Proof.
  apply refines_live_as. intros e s. destruct (value e) as [|l| | |]; try done. simpl.
  destruct (take l) as [r l']. etrans; [apply put_drop_eq|]. by destruct l'.
Qed.

Lemma list_ops_refine {T} (k : string) (op : list_op T) :
  refines (run_list_op k op) k (typed_spec VList as_list (list_spec op)).
Proof.
  destruct op; simpl;
    try (eapply refines_ext;
      [ first [ apply push_refines | apply pop_refines
              | apply refines_read_as; intros; by apply as_list_inj ] | ]);
    try (intros [[[] d]|]; unfold typed_spec; simpl; done).
  - intros [[[] d]|]; unfold typed_spec; simpl; try done; unfold RList.lpush; by rewrite length_fold_left_cons.
  - intros [[[] d]|]; unfold typed_spec; simpl; try done; unfold RList.rpush; by rewrite fold_left_snoc.
  - intros [[[|[|? []]| | |] d]|]; done.
  - intros [[[] d]|]; unfold typed_spec; simpl; try done.
    unfold RList.rpop. destruct (last l) eqn:E; [done|]. by apply last_None in E as ->.
  - apply refines_live_as; intros e s. destruct (value e) as [|l| | |] eqn:E; try done. simpl.
    unfold RList.lset. destruct (normalize_index index _) as [i|]; etrans; try apply put_eq; done.
Qed.

(** ** Strings *)

Inductive string_op : Type → Type :=
| Get : string_op (option string)
| IncrBy (delta : Z) : string_op Z
| Append (suffix : string) : string_op Z
| StrLen : string_op Z.

Definition run_string_op {T} (k : string) (op : string_op T)
    : Task DbState (result T StoreError) :=
  match op with
  | Get => get k
  | IncrBy delta => incr_by k delta
  | Append suffix => append k suffix
  | StrLen => strlen k
  end.

Definition string_spec {T} (op : string_op T) (o : option string)
    : result T StoreError * option string :=
  match op with
  | Get => (Ok o, o)
  | IncrBy delta =>
      match from_option parse_i64 (Some 0) o with
      | None => (Err NotAnInteger, o)
      | Some current =>
          match checked_add current delta with
          | Some next => (Ok next, Some (int_to_string next))
          | None => (Err Overflow, o)
          end
      end
  | Append suffix =>
      let s := default "" o +:+ suffix in (Ok (slen s), Some s)
  | StrLen => (Ok (from_option (λ s, slen s) 0 o), o)
  end.

(** The arguments are those a parsed command can have. *)
Definition string_op_ok {T} (op : string_op T) : Prop :=
  match op with IncrBy delta => in_i64 delta | _ => True end.

Lemma checked_add_0 delta : in_i64 delta → checked_add 0 delta = Some delta.
Proof. intros H. by apply checked_add_some. Qed.

Lemma incr_by_refines k delta :
  in_i64 delta → refines (incr_by k delta) k (typed_spec VStr as_str (string_spec (IncrBy delta))).
Proof.
  intros Hd. eapply refines_ext.
  - apply (refines_or_insert k (VStr "0") _ (λ e,
      match as_str (value e) with
      | Some s => let '(r, a) := string_spec (IncrBy delta) (Some s) in
                  (r, with_value e ∘ VStr <$> a)
      | None => (Err WrongType, Some e)
      end)).
    + intros [[s| | | |] d] st; try done. simpl. destruct (parse_i64 s) as [c|]; simpl; [|done].
      destruct (checked_add c delta) as [n|]; simpl; [apply put_eq|done].
    + intros [[s|l|s|z|h] d] e'; simpl; try (intros [= <-]; by left).
      destruct (parse_i64 s) as [c|]; [destruct (checked_add c delta)|]; intros [= <-]; by left.
  - intros [[[s| | | |] d]|]; unfold typed_spec; simpl; try done.
    change (10 * 0 + _) with 0. by rewrite checked_add_0.
Qed.

Lemma string_ops_refine {T} (k : string) (op : string_op T) :
  string_op_ok op →
  refines (run_string_op k op) k (typed_spec VStr as_str (string_spec op)).
Proof.
  intros Hok. destruct op as [|delta|suffix|]; simpl.
  - eapply refines_ext; [apply refines_read|]. by intros [[[] d]|].
  - by apply incr_by_refines.
  - eapply refines_ext.
    + apply (refines_or_insert k (VStr "") _ (λ e,
        match as_str (value e) with
        | Some s => (Ok (slen (s +:+ suffix)), Some (with_value e (VStr (s +:+ suffix))))
        | None => (Err WrongType, Some e)
        end)).
      * intros [[s| | | |] d] st; try done. simpl. etrans; [apply put_eq|done].
      * intros [[s| | | |] d] e'; simpl; intros [= <-]; by left.
    + by intros [[[] d]|].
  - eapply refines_ext; [apply refines_read|]. by intros [[[] d]|].
Qed.

(** Operations that replace the entry, and with it the deadline. *)
Definition getset_spec (new : string) : key_spec (result (option string) StoreError) := λ o,
  match o with
  | None => (Ok None, Some (fresh_string new))
  | Some e =>
      match value e with
      | VStr old => (Ok (Some old), Some (fresh_string new))
      | _ => (Err WrongType, o)
      end
  end.

Definition setnx_spec (new : string) : key_spec bool := λ o,
  match o with
  | None => (true, Some (fresh_string new))
  | Some e => (false, o)
  end.

Lemma getset_refines k new : refines (getset k new) k (getset_spec new).
Proof.
  apply refines_live_entry.
  - intros [[[old|l|m|z|h] d]|] s Hs; simpl; try done; by rewrite stored_same.
  - intros [[[old|l|m|z|h] d]|] e'; simpl; intros [= <-]; unfold outlives;
      first [by left | right; eauto].
Qed.

Lemma setnx_refines k new : refines (setnx k new) k (setnx_spec new).
Proof.
  apply refines_live_entry.
  - intros [e|] s Hs; simpl; [by rewrite stored_same|done].
  - intros [e|] e'; simpl; intros [= <-]; unfold outlives; first [by left | right; eauto].
Qed.

(** ** Sets *)

Inductive set_op : Type → Type :=
| SAdd (values : list string) : set_op Z
| SRem (values : list string) : set_op Z
| SMembers : set_op (list string)
| SIsMember (member : string) : set_op bool
| SCard : set_op Z
| SPop : set_op (option string).

Definition run_set_op {T} (k : string) (op : set_op T) : Task DbState (result T StoreError) :=
  match op with
  | SAdd values => sadd k values
  | SRem values => srem k values
  | SMembers => smembers k
  | SIsMember member => sismember k member
  | SCard => scard k
  | SPop => spop k
  end.

Definition nonempty_set (s : gset string) : option (gset string) :=
  if decide (s = ∅) then None else Some s.

(** [SADD] counts the values that were not members, each once. *)
Definition set_spec {T} (op : set_op T) (o : option (gset string))
    : result T StoreError * option (gset string) :=
  let s := default ∅ o in
  match op with
  | SAdd values =>
      let new := list_to_set values ∖ s in (Ok (Z.of_nat (size new)), Some (new ∪ s))
  | SRem values =>
      (Ok (Z.of_nat (size (s ∩ list_to_set values))),
       o ≫= λ s, nonempty_set (s ∖ list_to_set values))
  | SMembers => (Ok (from_option iter_set [] o), o)
  | SIsMember member => (Ok (bool_decide (member ∈ s)), o)
  | SCard => (Ok (Z.of_nat (size s)), o)
  | SPop =>
      match o with
      | None => (Ok None, None)
      | Some s => (Ok (head (iter_set s)),
                   nonempty_set (s ∖ from_option singleton ∅ (head (iter_set s))))
      end
  end.

Lemma as_set_inj v s : as_set v = Some s ↔ v = VSet s.
Proof. destruct v; naive_solver. Qed.

Lemma fold_sadd values n (s : gset string) :
  fold_left sadd_step values (n, s) =
    (n + Z.of_nat (size (list_to_set values ∖ s : gset string)), list_to_set values ∪ s).
Proof.
  revert n s. induction values as [|v values IH]; intros n s; cbn [fold_left list_to_set].
  { replace (∅ ∖ s) with (∅ : gset string) by set_solver.
    rewrite size_empty. f_equal; [lia|set_solver]. }
  unfold sadd_step at 2, RSet.sadd; cbn [fst snd]. rewrite IH. f_equal; [|set_solver].
  case_bool_decide as Hv.
  - assert (({[v]} ∪ list_to_set values) ∖ s =
            {[v]} ∪ (list_to_set values ∖ ({[v]} ∪ s) : gset string)) as ->.
    { apply set_eq. intros x. destruct (decide (x = v)); set_solver. }
    rewrite RSet.size_insert by set_solver. lia.
  - assert (({[v]} ∪ list_to_set values) ∖ s =
            (list_to_set values ∖ ({[v]} ∪ s) : gset string)) as -> by set_solver. done.
Qed.

Lemma fold_srem values n (s : gset string) :
  fold_left srem_step values (n, s) =
    (n + Z.of_nat (size (s ∩ list_to_set values : gset string)), s ∖ list_to_set values).
Proof.
  revert n s. induction values as [|v values IH]; intros n s; cbn [fold_left list_to_set].
  { replace (s ∩ ∅) with (∅ : gset string) by set_solver.
    rewrite size_empty. f_equal; [lia|set_solver]. }
  unfold srem_step at 2, RSet.srem; cbn [fst snd]. rewrite IH. f_equal; [|set_solver].
  case_bool_decide as Hv.
  - assert (s ∩ ({[v]} ∪ list_to_set values) =
            {[v]} ∪ ((s ∖ {[v]}) ∩ list_to_set values : gset string)) as ->.
    { apply set_eq. intros x. destruct (decide (x = v)); set_solver. }
    rewrite RSet.size_insert by set_solver. lia.
  - assert (s ∩ ({[v]} ∪ list_to_set values) =
            ((s ∖ {[v]}) ∩ list_to_set values : gset string)) as -> by set_solver. done.
Qed.

Lemma set_ops_refine {T} (k : string) (op : set_op T) :
  refines (run_set_op k op) k (typed_spec VSet as_set (set_spec op)).
Proof.
  destruct op as [values|values| |m| |]; simpl;
    try (eapply refines_ext;
      [ apply refines_read_as; intros; by apply as_set_inj
      | intros [[[] d]|]; unfold typed_spec; simpl; done ]).
  - eapply refines_ext.
    + apply (refines_accessor VSet as_set RSet.new k _
        (λ s, let '(n, s) := fold_left sadd_step values (0, s) in (Ok n, s)) as_set_inj).
      intros a e s _. destruct (fold_left sadd_step values _). apply put_eq.
    + intros [[[] d]|]; unfold typed_spec; simpl; try done; by rewrite fold_sadd, RSet.union_new.
  - eapply refines_ext.
    + apply (refines_live_as VSet as_set k (Ok 0) _ (λ s,
        (Ok (Z.of_nat (size (s ∩ list_to_set values))), nonempty_set (s ∖ list_to_set values)))).
      intros e s. destruct (value e) as [| |m| |] eqn:E; try done. simpl.
      rewrite fold_srem. etrans; [apply put_drop_eq|].
      do 2 f_equal. apply (drop_none _ (with_value e ∘ VSet)).
    + intros [[[] d]|]; unfold typed_spec; simpl; try done.
      replace (∅ ∩ list_to_set values) with (∅ : gset string) by set_solver.
      by rewrite size_empty.
  - eapply refines_ext.
    + apply (refines_live_as VSet as_set k (Ok None) _ (λ s, (Ok (head (iter_set s)),
        nonempty_set (s ∖ from_option singleton ∅ (head (iter_set s)))))).
      intros e s. destruct (value e) as [| |m| |] eqn:E; try done. simpl.
      assert (RSet.spop m =
        (head (iter_set m), m ∖ from_option singleton ∅ (head (iter_set m)))) as ->.
      { unfold RSet.spop. destruct (iter_set m); [|done]. simpl. f_equal. set_solver. }
      etrans; [apply put_drop_eq|].
      do 2 f_equal. apply (drop_none _ (with_value e ∘ VSet)).
    + by intros [[[] d]|].
Qed.

(** ** Sorted sets *)

Inductive zset_op : Type → Type :=
| ZAdd (members : list (f64 * string)) : zset_op Z
| ZRem (member : string) : zset_op bool
| ZRange (start stop : Z) : zset_op (list string)
| ZRangeWithScores (start stop : Z) : zset_op (list (string * f64))
| ZRangeByScore (min : f64) (min_inclusive : bool) (max : f64) (max_inclusive : bool)
    : zset_op (list string)
| ZScore (member : string) : zset_op (option f64)
| ZCard : zset_op Z
| ZRank (member : string) : zset_op (option Z)
| ZIncrBy (increment : f64) (member : string) : zset_op f64.

Definition run_zset_op {T} (k : string) (op : zset_op T) : Task DbState (result T StoreError) :=
  match op with
  | ZAdd members => zadd k members
  | ZRem member => zrem k member
  | ZRange start stop => zrange k start stop
  | ZRangeWithScores start stop => zrange_with_scores k start stop
  | ZRangeByScore min mini max maxi => zrange_by_score k min mini max maxi
  | ZScore member => zscore k member
  | ZCard => zcard k
  | ZRank member => zrank k member
  | ZIncrBy increment member => zincrby k increment member
  end.

Definition nonempty_zset (z : RSortedSet.RSortedSet) : option RSortedSet.RSortedSet :=
  if decide (RSortedSet.members z = ∅) then None else Some z.

(** The score a member has after [ZINCRBY]. *)
Definition incremented (z : RSortedSet.RSortedSet) (increment : f64) (m : string) : f64 :=
  f64_add (default f64_zero (RSortedSet.zscore z m)) increment.

Definition zset_spec {T} (op : zset_op T) (o : option RSortedSet.RSortedSet)
    : result T StoreError * option RSortedSet.RSortedSet :=
  let z := default RSortedSet.new o in
  match op with
  | ZAdd members => let '(n, z) := fold_left zadd_step members (0, z) in (Ok n, Some z)
  | ZRem member =>
      (Ok (bool_decide (is_Some (RSortedSet.zscore z member))),
       o ≫= λ z, nonempty_zset (RSortedSet.zrem z member).2)
  | ZRange start stop => (Ok (from_option (λ z, RSortedSet.zrange z start stop) [] o), o)
  | ZRangeWithScores start stop =>
      (Ok (from_option (λ z, RSortedSet.zrange_with_scores z start stop) [] o), o)
  | ZRangeByScore min mini max maxi =>
      (Ok (from_option (λ z, RSortedSet.zrange_by_score z min mini max maxi) [] o), o)
  | ZScore member => (Ok (RSortedSet.zscore z member), o)
  | ZCard => (Ok (RSortedSet.zcard z), o)
  | ZRank member => (Ok (RSortedSet.zrank z member), o)
  | ZIncrBy increment member =>
      let new_score := incremented z increment member in
      if is_nan new_score then (Err ScoreNaN, o)
      else (Ok new_score, Some (RSortedSet.zadd z new_score member).2)
  end.

Definition zset_op_ok {T} (op : zset_op T) : Prop :=
  match op with
  | ZIncrBy increment _ => is_nan increment = false
  | _ => True
  end.

Lemma as_zset_inj v z : as_sorted_set v = Some z ↔ v = VSortedSet z.
Proof. destruct v; naive_solver. Qed.

Lemma with_same_value e v : value e = v → with_value e v = e.
Proof. intros <-. by destruct e. Qed.

Lemma zincrby_refines k inc m :
  is_nan inc = false →
  refines (zincrby k inc m) k (typed_spec VSortedSet as_sorted_set (zset_spec (ZIncrBy inc m))).
Proof.
  intros Hinc. eapply refines_ext.
  - apply (refines_accessor VSortedSet as_sorted_set RSortedSet.new k _ (λ z,
      let '(r, o) := zset_spec (ZIncrBy inc m) (Some z) in (r, default z o)) as_zset_inj).
    intros z e s He. simpl. fold (incremented z inc m).
    destruct (is_nan (incremented z inc m)); simpl; [by rewrite with_same_value|apply put_eq].
  - intros [[[s|l|s|z|h] d]|]; unfold typed_spec; simpl; try done.
    + by destruct (is_nan (incremented z inc m)).
    + replace (is_nan (incremented RSortedSet.new inc m)) with false; [done|].
      symmetry. by apply f64_add_zero_nan.
Qed.

Lemma zset_ops_refine {T} (k : string) (op : zset_op T) :
  zset_op_ok op →
  refines (run_zset_op k op) k (typed_spec VSortedSet as_sorted_set (zset_spec op)).
Proof.
  intros Hok. destruct op as [members|m|a b|a b|min mini max maxi|m| |m|inc m]; simpl;
    try (eapply refines_ext;
      [ apply refines_read_as; intros; by apply as_zset_inj
      | intros [[[] d]|]; unfold typed_spec; simpl; done ]).
  - eapply refines_ext.
    + apply (refines_accessor VSortedSet as_sorted_set RSortedSet.new k _
        (λ z, let '(n, z) := fold_left zadd_step members (0, z) in (Ok n, z)) as_zset_inj).
      intros a e s _. destruct (fold_left zadd_step members _). apply put_eq.
    + intros [[[] d]|]; unfold typed_spec; simpl; try done; by destruct (fold_left _ _ _).
  - eapply refines_ext.
    + apply (refines_live_as VSortedSet as_sorted_set k (Ok false) _ (λ z,
        (Ok (bool_decide (is_Some (RSortedSet.zscore z m))),
         nonempty_zset (RSortedSet.zrem z m).2))).
      intros e s. destruct (value e) as [| | |z|] eqn:E; try done. simpl.
      pose proof (RSortedSet.zrem_found z m) as Hf.
      destruct (RSortedSet.zrem z m) as [removed z']; simpl in *. subst removed.
      etrans; [apply put_drop_eq|].
      do 2 f_equal. apply (drop_none _ (with_value e ∘ VSortedSet)).
    + by intros [[[] d]|].
  - by apply zincrby_refines.
Qed.

(** ** Hashes *)

Inductive hash_op : Type → Type :=
| HSet (field new : string) : hash_op bool
| HGet (field : string) : hash_op (option string)
| HDel (field : string) : hash_op bool
| HGetAll : hash_op (list string)
| HKeys : hash_op (list string)
| HVals : hash_op (list string)
| HLen : hash_op Z
| HExists (field : string) : hash_op bool
| HIncrBy (field : string) (delta : Z) : hash_op Z.

Definition run_hash_op {T} (k : string) (op : hash_op T) : Task DbState (result T StoreError) :=
  match op with
  | HSet field new => hset k field new
  | HGet field => hget k field
  | HDel field => hdel k field
  | HGetAll => hgetall k
  | HKeys => hkeys k
  | HVals => hvals k
  | HLen => hlen k
  | HExists field => hexists k field
  | HIncrBy field delta => hincrby k field delta
  end.

Definition nonempty_hash (h : gmap string string) : option (gmap string string) :=
  if decide (h = ∅) then None else Some h.

Definition hash_spec {T} (op : hash_op T) (o : option (gmap string string))
    : result T StoreError * option (gmap string string) :=
  let h := default ∅ o in
  match op with
  | HSet field new => (Ok (bool_decide (h !! field = None)), Some (<[field := new]> h))
  | HGet field => (Ok (h !! field), o)
  | HDel field =>
      (Ok (bool_decide (is_Some (h !! field))), o ≫= λ h, nonempty_hash (delete field h))
  | HGetAll => (Ok (from_option (λ h, iter_map h ≫= λ '(f, v), [f; v]) [] o), o)
  | HKeys => (Ok (from_option (λ h, (iter_map h).*1) [] o), o)
  | HVals => (Ok (from_option (λ h, (iter_map h).*2) [] o), o)
  | HLen => (Ok (Z.of_nat (size h)), o)
  | HExists field => (Ok (bool_decide (is_Some (h !! field))), o)
  | HIncrBy field delta =>
      match from_option parse_i64 (Some 0) (h !! field) with
      | None => (Err NotAHashInteger, o)
      | Some current =>
          match checked_add current delta with
          | Some next => (Ok next, Some (<[field := int_to_string next]> h))
          | None => (Err Overflow, o)
          end
      end
  end.

Definition hash_op_ok {T} (op : hash_op T) : Prop :=
  match op with HIncrBy _ delta => in_i64 delta | _ => True end.

Lemma as_hash_inj v h : as_hash v = Some h ↔ v = VHash h.
Proof. destruct v; naive_solver. Qed.

Lemma flatten_pairs_bind pairs : flatten_pairs pairs = pairs ≫= λ '(f, v), [f; v].
Proof.
  assert (H : ∀ acc, fold_left (λ flat '(field, value), (flat ++ [field]) ++ [value]) pairs acc =
            acc ++ (pairs ≫= λ '(f, v), [f; v])); [|apply H].
  induction pairs as [|[f v] pairs IH]; intros acc; simpl; [by rewrite app_nil_r|].
  rewrite IH. by rewrite <- !app_assoc.
Qed.

Lemma hincrby_refines k field delta :
  in_i64 delta →
  refines (hincrby k field delta) k (typed_spec VHash as_hash (hash_spec (HIncrBy field delta))).
Proof.
  intros Hd. eapply refines_ext.
  - apply (refines_accessor VHash as_hash RHash.new k _ (λ h,
      let '(r, o) := hash_spec (HIncrBy field delta) (Some h) in (r, default h o)) as_hash_inj).
    intros h e s He. simpl. unfold RHash.hget.
    destruct (h !! field) as [v|]; simpl; [destruct (parse_i64 v) as [c|]; simpl|];
      try destruct (checked_add _ _) as [n|]; simpl;
      first [apply put_eq | by rewrite with_same_value].
  - intros [[[] d]|]; unfold typed_spec; simpl; try done.
    + destruct (from_option _ _ _) as [c|]; [|done]. by destruct (checked_add c delta).
    + unfold RHash.new. rewrite lookup_empty. simpl. by rewrite checked_add_0.
Qed.

Lemma hash_ops_refine {T} (k : string) (op : hash_op T) :
  hash_op_ok op →
  refines (run_hash_op k op) k (typed_spec VHash as_hash (hash_spec op)).
Proof.
  intros Hok. destruct op as [f v|f|f| | | | |f|f delta]; simpl;
    try (eapply refines_ext;
      [ apply refines_read_as; intros; by apply as_hash_inj
      | intros [[[] d]|]; unfold typed_spec; simpl; try done; by rewrite flatten_pairs_bind ]).
  - eapply refines_ext.
    + apply (refines_accessor VHash as_hash RHash.new k _
        (λ h, (Ok (bool_decide (h !! f = None)), <[f := v]> h)) as_hash_inj).
      intros h e s _. apply put_eq.
    + by intros [[[] d]|].
  - eapply refines_ext.
    + apply (refines_live_as VHash as_hash k (Ok false) _ (λ h,
        (Ok (bool_decide (is_Some (h !! f))), nonempty_hash (delete f h)))).
      intros e s. destruct (value e) as [| | | |h] eqn:E; try done. simpl.
      etrans; [apply put_drop_eq|]. do 2 f_equal. apply (drop_none _ (with_value e ∘ VHash)).
    + intros [[[] d]|]; done.
  - by apply hincrby_refines.
Qed.
End refinement.
