(* ===== verification/KeyOps.v ===== *)
(** What the operations on keys and on the whole keyspace do: expiry, renaming,
    deletion, the variadic commands, the sweeper.

    An operation that looks at several keys reads the clock once per key, so a
    key may expire while it runs.  The theorems place its answer between the
    keyspace at its first reading and at its last. *)

From S2P Require Import Prelude Task RustInt RustStr RustF64 HashOrder Glob Clock Store Database.
From S2P Require Import Keyspace.
From S2P Require RList RSet RHash RSortedSet.
Local Open Scope Z_scope.


Section keyops.
Context {CK : Clock} {HO : HashOrder} {OF : OrderedFloat}.

(** ** One key *)

(** The deadline of [seconds] counted from [t]; none when it is too far. *)
Definition deadline_from (t : Instant) (seconds : Z) : option Instant :=
  checked_add_instant t (from_secs seconds).

Definition expire_spec (seconds : Z) (t : Instant) : key_spec bool := λ o,
  match o with
  | None => (false, None)
  | Some e =>
      (true, if decide (seconds ≤ 0) then None
             else Some {| value := value e; expires_at := deadline_from t seconds |})
  end.

Definition persist_spec : key_spec bool := λ o,
  match o with
  | Some {| value := v; expires_at := Some _ |} =>
      (true, Some {| value := v; expires_at := None |})
  | _ => (false, o)
  end.

Definition type_spec : key_spec string := λ o,
  (from_option (type_name ∘ value) "none" o, o).

(** [SET] replaces whatever the key held. A deadline of 0 seconds is over at
    once. *)
Definition set_string_spec (v : string) (ttl : option Z) (t : Instant) : key_spec unit := λ _,
  let e := {| value := VStr v; expires_at := ttl ≫= deadline_from t |} in
  (tt, if expired_at t e then None else Some e).

Lemma expire_refines k seconds s :
  let '(r, s') := run (expire k seconds) s in
  ∃ n, (tick s ≤ n ≤ tick s')%nat ∧
    (r, view (instant s) (store s')) =
      apply_spec k (expire_spec seconds (instant_at n)) (seen s).
Proof.
  unfold expire. rewrite run_atomically. unfold mbind at 1, state_bind at 1.
  rewrite live_entry_eq. pose proof (touch_tick k s) as Ht. unfold apply_spec, expire_spec.
  destruct (seen s !! k) as [e|] eqn:E.
  - destruct (decide (seconds ≤ 0)) as [Hs|Hs].
    + exists (tick s). simpl. split; [lia|]. by rewrite view_delete, touch_view.
    + unfold mbind, state_bind, get_entry, gets. simpl. rewrite touch_lookup, E. simpl.
      exists (tick (touch k s)). split; [lia|]. unfold deadline_from.
      rewrite view_insert, touch_view; [done|]. unfold expired_at, checked_add_instant. simpl.
      case_decide; [|done]. apply bool_decide_eq_false. unfold from_secs, nanos_per_sec.
      pose proof (instant_le _ _ Ht). unfold instant. lia.
  - exists (tick s). simpl. split; [lia|]. by rewrite touch_view, <- E, partial_alter_self.
Qed.

(** With no time left, the key goes at once. *)
Lemma expire_now_eq k seconds s :
  seconds ≤ 0 →
  run (expire k seconds) s =
    match seen s !! k with
    | None => (false, touch k s)
    | Some _ => (true, removed k (touch k s))
    end.
Proof.
  intros Hs. unfold expire. rewrite run_atomically. unfold mbind, state_bind. rewrite live_entry_eq.
  destruct (seen s !! k); [|done]. by rewrite decide_True.
Qed.

Lemma persist_refines k : refines (persist k) k persist_spec.
Proof.
  unfold persist.
  eapply refines_ext; [apply (refines_live k false _ (λ e, persist_spec (Some e)))|].
  - intros [v [d|]] s; [|done]. simpl. unfold insert_entry, set_store, modify, mbind, state_bind, stored.
    simpl. by rewrite insert_insert_eq.
  - intros [v [d|]] e'; simpl; intros [= <-]; unfold outlives; auto.
  - by intros [[v [d|]]|].
Qed.

Lemma type_of_refines k : refines (type_of k) k type_spec.
Proof. apply (refines_read k "none" (λ e, type_name (value e))). Qed.

Lemma set_refines k v ttl s :
  let '(r, s') := run (set k v ttl) s in
  (r, view (instant s) (store s')) = apply_spec k (set_string_spec v ttl (instant s)) (seen s).
Proof.
  unfold set. rewrite run_atomically. unfold apply_spec, set_string_spec, mbind, state_bind.
  assert (∃ n, deadline_of ttl s =
    (ttl ≫= deadline_from (instant s), {| store := store s; tick := n |})) as [n ->].
  { destruct ttl as [z|]; simpl; [by eexists|]. exists (tick s). by destruct s. }
  simpl. set (e := {| value := _ |}).
  destruct (expired_at (instant s) e) eqn:X; [by rewrite view_insert_expired|by rewrite view_insert].
Qed.

(** [TTL] reads the clock again after the check that the key is live. *)
Lemma ttl_spec k s :
  let '(r, s') := run (ttl k) s in
  view (instant s) (store s') = seen s ∧
  match seen s !! k with
  | None => r = -2
  | Some {| expires_at := None |} => r = -1
  | Some {| expires_at := Some d |} =>
      (S (tick s) < tick s')%nat ∧
      r = wrap_i64 (as_secs (saturating_duration_since d (instant_at (S (tick s)))))
  end.
Proof.
  pose proof (refines_read k (-2) (λ e, match expires_at e with None => -1 | Some _ => 0 end) s) as H.
  unfold ttl, read_entry, get_entry, gets in *. simpl in *. unfold mbind, state_bind in *.
  unfold apply_spec in H. rewrite partial_alter_self in H. rewrite seen_lookup in *.
  destruct (store s !! k) as [[v [d|]]|] eqn:E; simpl in *; [|done|done].
  unfold expired_at in *. simpl in *. fold (instant s) in *.
  case_bool_decide as X; simpl in *.
  - destruct (evict_expired _ _) as [[] s']. simpl in *. destruct H as [H _]. by simplify_eq/=.
  - split; [|split; [lia|done]]. destruct H as [H _]. by simplify_eq/=.
Qed.

(** What the store holds once a key has been given some time. *)
Lemma expire_stored k seconds e s :
  0 < seconds → seen s !! k = Some e →
  let '(r, s') := run (expire k seconds) s in
  r = true ∧ ∃ n, (tick s ≤ n ≤ tick s')%nat ∧
    store s' !! k = Some {| value := value e; expires_at := deadline_from (instant_at n) seconds |}.
Proof.
  intros Hs He. pose proof (expire_refines k seconds s) as H.
  destruct (run (expire k seconds) s) as [r s']. destruct H as (n & Hn & H).
  unfold apply_spec, expire_spec in H. rewrite He, decide_False in H by lia.
  injection H as -> Hview. split; [done|]. exists n. split; [done|].
  apply (f_equal (λ m, m !! k)) in Hview. rewrite lookup_partial_alter_eq in Hview.
  by apply lookup_view_some in Hview as [? _].
Qed.

(** The time left, by the deadline the store holds. *)
Lemma ttl_of_stored k v d s :
  store s !! k = Some {| value := v; expires_at := d |} →
  let '(r, s') := run (ttl k) s in
  match d with
  | None => r = -1
  | Some d =>
      if decide (d ≤ instant s) then r = -2
      else (S (tick s) < tick s')%nat ∧
           r = wrap_i64 (as_secs (saturating_duration_since d (instant_at (S (tick s)))))
  end.
Proof.
  intros Hk. pose proof (ttl_spec k s) as H. destruct (run (ttl k) s) as [r s'].
  destruct H as [_ H]. rewrite seen_lookup, Hk in H. simpl in H. unfold expired_at in H. simpl in H.
  destruct d as [d|]; [|done]. case_bool_decide; case_decide; done.
Qed.

(** The time between two readings of the clock, in whole seconds, that is left of a
    number of seconds: a number no larger. *)
Lemma seconds_left t t' seconds :
  t ≤ t' → 0 < seconds → in_i64 seconds →
  let remaining := ((t + seconds * 10 ^ 9 - t') `max` 0) / 10 ^ 9 in
  wrap_i64 (as_secs (saturating_duration_since (t + from_secs seconds) t')) = remaining ∧
  0 ≤ remaining ≤ seconds.
Proof.
  intros Ht Hs Hi. unfold as_secs, saturating_duration_since, from_secs, nanos_per_sec.
  cbv zeta. set (x := (_ `max` 0) / _). assert (Hx : 0 ≤ x ≤ seconds).
  { split; [apply Z.div_pos; lia|]. apply Z.div_le_upper_bound; lia. }
  rewrite wrap_i64_id; [done|]. unfold in_i64, i64_min, i64_max in *. lia.
Qed.

(** [TTL] after [EXPIRE]: [n] and [n'] are the readings of the clock by each. *)
Lemma expire_then_ttl k seconds e s :
  0 < seconds → in_i64 seconds → seen s !! k = Some e →
  let '(set, s1) := run (expire k seconds) s in
  let '(remaining, s2) := run (ttl k) s1 in
  set = true ∧ ∃ n, (tick s ≤ n ≤ tick s1)%nat ∧
  let deadline := instant_at n + seconds * 10 ^ 9 in
  if decide (instant_max < deadline) then remaining = -1
  else if decide (deadline ≤ instant s1) then remaining = -2
  else ∃ n', (tick s1 < n' < tick s2)%nat ∧
    remaining = ((deadline - instant_at n') `max` 0) / 10 ^ 9 ∧ 0 ≤ remaining ≤ seconds.
Proof.
  intros Hs Hi He. pose proof (expire_stored k seconds e s Hs He) as H.
  destruct (run (expire k seconds) s) as [r s1]. destruct H as (-> & n & Hn & Hk).
  pose proof (ttl_of_stored k _ _ s1 Hk) as Ht. destruct (run (ttl k) s1) as [remaining s2].
  split; [done|]. exists n. split; [done|]. unfold deadline_from, checked_add_instant, from_secs in Ht.
  change nanos_per_sec with (10 ^ 9) in Ht. cbv zeta.
  destruct (decide (instant_at n + seconds * 10 ^ 9 ≤ instant_max)) as [Hmax|Hmax];
    [|by rewrite decide_True by lia].
  rewrite decide_False by lia.
  destruct (decide (instant_at n + seconds * 10 ^ 9 ≤ instant s1)) as [Hover|Hover]; [done|].
  destruct Ht as [Ht ->]. exists (S (tick s1)). split; [lia|].
  destruct (seconds_left (instant_at n) (instant_at (S (tick s1))) seconds) as [Heq Hr];
    [apply instant_le; lia|done|done|]. by rewrite <- Heq in Hr |- *.
Qed.

Lemma rename_eq k new_key s :
  run (rename k new_key) s =
    match seen s !! k with
    | None => (false, touch k s)
    | Some e => (true, stored new_key e (removed k (touch k s)))
    end.
Proof.
  unfold rename. rewrite run_atomically. unfold mbind, state_bind. rewrite live_entry_eq.
  destruct (seen s !! k) as [e|] eqn:E; simpl; [|done]. by rewrite touch_lookup, E.
Qed.

Lemma rename_spec k new_key s :
  let '(r, s') := run (rename k new_key) s in
  (r, view (instant s) (store s')) =
    match seen s !! k with
    | None => (false, seen s)
    | Some e => (true, <[new_key := e]> (delete k (seen s)))
    end.
Proof.
  rewrite rename_eq. destruct (seen s !! k) as [e|] eqn:E; [|by rewrite touch_view].
  simpl. rewrite view_insert by (by eapply seen_live). by rewrite view_delete, touch_view.
Qed.

(** ** Several keys *)

Definition live_key (t : Instant) (st : Store) (k : string) : Prop := is_Some (view t st !! k).
#[export] Instance live_key_dec t st k : Decision (live_key t st k).
Proof. unfold live_key. apply _. Defined.

Lemma live_key_later n m st k :
  (n ≤ m)%nat → live_key (instant_at m) st k → live_key (instant_at n) st k.
Proof. intros Hle [e He]. exists e. eapply view_later, He. by apply instant_le. Qed.

(** Reading an expiry: the store is untouched, the clock moves by one at most. *)
Lemma is_expired_eq e s :
  is_expired e s =
    (expired_at (instant s) e,
     {| store := store s;
        tick := match expires_at e with Some _ => S (tick s) | None => tick s end |}).
Proof. unfold is_expired, expired_at. destruct (expires_at e); [done|]. by destruct s. Qed.

Lemma live_key_bool t st k :
  bool_decide (live_key t st k) = from_option (negb ∘ expired_at t) false (st !! k).
Proof.
  unfold live_key. case_bool_decide as H.
  - destruct H as [e [-> He]%lookup_view_some]. simpl. by rewrite He.
  - destruct (st !! k) as [e|] eqn:E; [|done]. simpl.
    destruct (expired_at t e) eqn:X; [done|]. destruct H. exists e. by apply lookup_view_some.
Qed.

Lemma is_live_eq k s :
  ∃ n, (tick s ≤ n)%nat ∧
    is_live k s = (bool_decide (live_key (instant s) (store s) k), {| store := store s; tick := n |}).
Proof.
  unfold is_live, get_entry, gets, mbind, state_bind. rewrite live_key_bool.
  destruct (store s !! k) as [e|]; simpl.
  - rewrite is_expired_eq. eexists; (split; [|done]). destruct (expires_at e); lia.
  - exists (tick s). split; [lia|]. by destruct s.
Qed.

(** A scan that keeps what is live keeps at least what is live at its end and at
    most what was live at its start. *)
Lemma filter_state_between {A} (p : A → State DbState bool) (P : nat → A → Prop)
    `{∀ n x, Decision (P n x)} (l : list A) s :
  (∀ n m x, (n ≤ m)%nat → P m x → P n x) →
  (∀ x s', x ∈ l → store s' = store s → ∃ n, (tick s' ≤ n)%nat ∧
     p x s' = (bool_decide (P (tick s') x), {| store := store s; tick := n |})) →
  ∃ l' n, (tick s ≤ n)%nat ∧
    filter_state p l s = (l', {| store := store s; tick := n |}) ∧
    filter (P n) l `sublist_of` l' ∧ l' `sublist_of` filter (P (tick s)) l.
Proof.
  intros Hmono. revert s. induction l as [|x l IH]; intros s Hp; simpl.
  { exists [], (tick s). split; [lia|]. destruct s. done. }
  destruct (Hp x s) as (n & Hn & Hpx); [set_solver|done|].
  destruct (IH {| store := store s; tick := n |}) as (l' & m & Hm & Hrun & Hlo & Hhi).
  { intros y s' Hy. apply Hp. set_solver. }
  simpl in *. exists (if bool_decide (P (tick s) x) then x :: l' else l'), m.
  split; [lia|]. split.
  { unfold mbind, state_bind. by rewrite Hpx, Hrun. }
  rewrite !filter_cons. split.
  - case_decide as Hx.
    + rewrite bool_decide_true by (by apply (Hmono _ m); [lia|]). by apply sublist_skip.
    + case_bool_decide; [by apply sublist_cons|done].
  - assert (Hnow : l' `sublist_of` filter (P (tick s)) l).
    { etrans; [exact Hhi|]. apply filter_sublist_impl. intros y. by apply Hmono. }
    case_bool_decide; [rewrite decide_True by done; by apply sublist_skip|].
    by rewrite decide_False.
Qed.

Lemma exists_spec ks s :
  let '(r, s') := run (exists_ ks) s in
  store s' = store s ∧ (tick s ≤ tick s')%nat ∧
  Z.of_nat (length (filter (live_key (instant s') (store s)) ks)) ≤ r ≤
    Z.of_nat (length (filter (live_key (instant s) (store s)) ks)).
Proof.
  unfold exists_. rewrite run_atomically. unfold mbind, state_bind.
  destruct (filter_state_between is_live (λ n, live_key (instant_at n) (store s)) ks s)
    as (l & n & Hn & -> & Hlo & Hhi).
  - intros n m x Hnm. by apply live_key_later.
  - intros x s' _ Hst. destruct (is_live_eq x s') as (n & Hn & ->). rewrite Hst. eauto.
  - simpl. split; [done|]. split; [done|].
    apply sublist_length in Hlo, Hhi. unfold instant. simpl. lia.
Qed.

(** ** The whole keyspace *)

Lemma filter_iter_map (P : string * Entry → Prop) `{∀ x, Decision (P x)} (m : Store) :
  filter P (iter_map m) ≡ₚ map_to_list (filter P m).
Proof.
  apply NoDup_Permutation; [apply NoDup_filter, NoDup_iter_map|apply NoDup_map_to_list|].
  intros [k e]. rewrite list_elem_of_filter, elem_of_iter_map, elem_of_map_to_list.
  rewrite map_lookup_filter_Some. tauto.
Qed.

Lemma live_entries_spec s :
  let '(l, s') := live_entries s in
  store s' = store s ∧ (tick s ≤ tick s')%nat ∧ NoDup l.*1 ∧
  filter (λ p, live_at (instant s') p.2) (iter_map (store s)) `sublist_of` l ∧
  l `sublist_of` filter (λ p, live_at (instant s) p.2) (iter_map (store s)).
Proof.
  unfold live_entries, gets. unfold mbind at 1, state_bind at 1.
  destruct (filter_state_between
    (λ p : string * Entry, expired ← is_expired p.2; mret (negb expired))
    (λ n p, live_at (instant_at n) p.2) (iter_map (store s)) s) as (l & n & Hn & -> & Hlo & Hhi).
  - intros n m x Hnm. unfold live_at. destruct (expired_at (instant_at n) x.2) eqn:X; [|done].
    by rewrite (expired_later _ _ _ (instant_le _ _ Hnm) X).
  - intros x s' _ Hst. unfold mbind, state_bind. rewrite is_expired_eq. rewrite Hst.
    eexists. split; [|f_equal].
    + destruct (expires_at x.2); lia.
    + apply eq_bool_prop_intro. rewrite bool_decide_spec. unfold live_at, instant.
      by destruct (expired_at _ _).
  - simpl. split_and!; try done. eapply sublist_NoDup; [apply (NoDup_iter_map_keys (store s))|].
    apply fmap_sublist. etrans; [exact Hhi|]. apply sublist_filter.
Qed.

Lemma live_count t st :
  length (filter (λ p, live_at t p.2) (iter_map st)) = size (view t st).
Proof. by rewrite filter_iter_map, length_map_to_list. Qed.

Lemma dbsize_spec s :
  let '(r, s') := run dbsize s in
  store s' = store s ∧ (tick s ≤ tick s')%nat ∧
  Z.of_nat (size (view (instant s') (store s))) ≤ r ≤ Z.of_nat (size (seen s)).
Proof.
  unfold dbsize. rewrite run_atomically. unfold mbind, state_bind.
  pose proof (live_entries_spec s) as H. destruct (live_entries s) as [l s']. simpl.
  destruct H as (? & ? & _ & Hlo & Hhi). apply sublist_length in Hlo, Hhi.
  rewrite !live_count in *. unfold seen. split_and!; [done|done|lia|lia].
Qed.

Lemma elem_of_live t st k :
  k ∈ (filter (λ p, live_at t p.2) (iter_map st)).*1 ↔ live_key t st k.
Proof.
  rewrite list_elem_of_fmap. unfold live_key. split.
  - intros ([k' e] & -> & [Hl He%elem_of_iter_map]%list_elem_of_filter). exists e.
    by apply lookup_view_some.
  - intros [e [He Hl]%lookup_view_some]. exists (k, e). split; [done|].
    apply list_elem_of_filter. split; [done|]. by apply elem_of_iter_map.
Qed.

Lemma keys_spec pattern s :
  let '(r, s') := run (keys pattern) s in
  store s' = store s ∧ (tick s ≤ tick s')%nat ∧ NoDup r ∧
  (∀ k, k ∈ r → glob_match pattern k = true ∧ live_key (instant s) (store s) k) ∧
  (∀ k, glob_match pattern k = true → live_key (instant s') (store s) k → k ∈ r).
Proof.
  unfold keys. rewrite run_atomically. unfold mbind, state_bind.
  pose proof (live_entries_spec s) as H. destruct (live_entries s) as [l s']. simpl.
  destruct H as (? & ? & Hnd & Hlo & Hhi). split_and!; [done|done|by apply NoDup_filter| |].
  - intros k [Hg Hk]%list_elem_of_filter. split; [done|]. rewrite <- elem_of_live.
    eapply elem_of_sublist; [exact Hk|]. by apply fmap_sublist.
  - intros k Hg Hk%elem_of_live. apply list_elem_of_filter. split; [done|].
    eapply elem_of_sublist; [exact Hk|]. by apply fmap_sublist.
Qed.

(** ** Deletion *)

(** The live keys among [ks]. *)
Definition live_among (ks : list string) (V : Store) : gset string :=
  filter (λ k, k ∈ ks) (dom V).

Lemma delete_keys_raw k s : removed k (touch k s) = {| store := delete k (store s); tick := tick (touch k s) |}.
Proof.
  unfold removed. f_equal. unfold touch, evict_expired, mbind, state_bind. rewrite key_expired_eq.
  destruct (store s !! k) as [e|] eqn:E; simpl; [|done]. case_match; simpl; [|done].
  by rewrite delete_delete_eq.
Qed.

Lemma live_among_cons k ks V :
  Z.of_nat (size (live_among (k :: ks) V)) =
    from_option (λ _, 1) 0 (V !! k) +
    Z.of_nat (size (live_among ks (delete k V))).
Proof.
  unfold live_among. destruct (V !! k) as [e|] eqn:Hk; simpl from_option.
  - assert (filter (λ j, j ∈ k :: ks) (dom V) =
            {[k]} ∪ filter (λ j, j ∈ ks) (dom (delete k V))) as ->.
    { apply set_eq. intros j. rewrite elem_of_union, !elem_of_filter, elem_of_singleton.
      rewrite dom_delete, elem_of_difference, elem_of_singleton, elem_of_cons, elem_of_dom.
      assert (Hs : is_Some (V !! k)) by eauto.
      destruct (decide (j = k)) as [->|]; tauto. }
    rewrite RSet.size_insert; [lia|]. rewrite elem_of_filter, dom_delete. set_solver.
  - assert (filter (λ j, j ∈ k :: ks) (dom V) = filter (λ j, j ∈ ks) (dom (delete k V))) as ->;
      [|lia].
    apply set_eq. intros j. rewrite !elem_of_filter, dom_delete, elem_of_difference.
    rewrite elem_of_singleton, elem_of_cons, elem_of_dom.
    rewrite eq_None_not_Some in Hk. destruct (decide (j = k)) as [->|]; tauto.
Qed.

Lemma live_among_nil V : live_among [] V = ∅.
Proof. unfold live_among. apply set_eq. intros j. rewrite elem_of_filter. set_solver. Qed.

Lemma live_among_mono ks V W :
  (∀ k, is_Some (V !! k) → is_Some (W !! k)) →
  (size (live_among ks V) ≤ size (live_among ks W))%nat.
Proof.
  intros H. apply subseteq_size. unfold live_among. intros k.
  rewrite !elem_of_filter, !elem_of_dom. naive_solver.
Qed.

Lemma del_spec ks s :
  let '(r, s') := run (del ks) s in
  store s' = foldl (λ st k, delete k st) (store s) ks ∧ (tick s ≤ tick s')%nat ∧
  Z.of_nat (size (live_among ks (view (instant s') (store s)))) ≤ r ≤
    Z.of_nat (size (live_among ks (seen s))).
Proof.
  unfold del. rewrite run_atomically.
  set (body := λ (removed : Z) key, _).
  enough (H : ∀ s n, let '(r, s') := for_fold ks n body s in
    store s' = foldl (λ st k, delete k st) (store s) ks ∧ (tick s ≤ tick s')%nat ∧
    n + Z.of_nat (size (live_among ks (view (instant s') (store s)))) ≤ r ≤
    n + Z.of_nat (size (live_among ks (seen s)))) by exact (H s 0).
  clear s. induction ks as [|k ks IH]; intros s n.
  { simpl. rewrite !live_among_nil, size_empty. split_and!; [done|done|lia|lia]. }
  cbn [for_fold foldl]. unfold mbind, state_bind.
  assert (Hb : body n k s = (n + from_option (λ _, 1) 0 (seen s !! k),
            {| store := delete k (store s); tick := tick (touch k s) |})).
  { rewrite <- delete_keys_raw. unfold body, mbind, state_bind. rewrite live_entry_eq.
    destruct (seen s !! k) as [e|] eqn:E; [done|]. simpl. rewrite Z.add_0_r.
    f_equal. unfold removed. rewrite delete_id by (by rewrite touch_lookup).
    by destruct (touch k s). }
  rewrite Hb. specialize (IH {| store := delete k (store s); tick := tick (touch k s) |}).
  set (n' := n + _) in *. specialize (IH n').
  destruct (for_fold ks n' body _) as [r s']. simpl in IH. destruct IH as (Hst & Ht & Hlo & Hhi).
  pose proof (touch_tick k s) as Htk. split_and!; [done|lia| |].
  - rewrite live_among_cons. rewrite view_delete in Hlo. unfold n' in Hlo.
    assert (is_Some (view (instant s') (store s) !! k) → is_Some (seen s !! k)).
    { apply (live_key_later (tick s) (tick s')). lia. }
    unfold is_Some in *.
    destruct (view _ _ !! k), (seen s !! k); simpl in *; naive_solver lia.
  - rewrite live_among_cons. unfold n', seen, instant in *. simpl in Hhi.
    rewrite view_delete in Hhi. etrans; [exact Hhi|]. rewrite <- Z.add_assoc.
    do 2 apply Z.add_le_mono_l. apply inj_le, live_among_mono. intros j [e Hj].
    destruct (decide (j = k)) as [->|]; [by rewrite lookup_delete_eq in Hj|].
    rewrite lookup_delete_ne in * by done. exists e. eapply view_later, Hj. by apply instant_le.
Qed.

Lemma foldl_delete_lookup ks (st : Store) j :
  foldl (λ st k, delete k st) st ks !! j = if decide (j ∈ ks) then None else st !! j.
Proof.
  revert st. induction ks as [|k ks IH]; intros st; [done|]. cbn [foldl].
  rewrite IH. destruct (decide (j = k)) as [->|Hne].
  - rewrite lookup_delete_eq. repeat case_decide; set_solver.
  - rewrite lookup_delete_ne by done.
    repeat case_decide; set_solver.
Qed.

(** ** Multi-key strings *)

Definition string_at (t : Instant) (st : Store) (k : string) : option string :=
  e ← view t st !! k; as_str (value e).

Lemma read_string_eq k s :
  ∃ n, (tick s ≤ n)%nat ∧
    read_string k s = (string_at (instant s) (store s) k, {| store := store s; tick := n |}).
Proof.
  unfold read_string, string_at, get_entry, gets. unfold mbind at 1 2, state_bind.
  fold (seen s). rewrite seen_lookup. destruct (store s !! k) as [e|]; simpl.
  - unfold mbind, state_bind. rewrite is_expired_eq. eexists. split; [|simpl; f_equal].
    + destruct (expires_at e); lia.
    + by destruct (expired_at _ _).
  - exists (tick s). split; [lia|]. by destruct s.
Qed.

(** Each element is what the key held at some instant of the scan. *)
Lemma mget_spec ks s :
  let '(r, s') := run (mget ks) s in
  store s' = store s ∧ (tick s ≤ tick s')%nat ∧
  Forall2 (λ k v, ∃ n, (tick s ≤ n ≤ tick s')%nat ∧ v = string_at (instant_at n) (store s) k) ks r.
Proof.
  unfold mget. rewrite run_atomically. revert s.
  induction ks as [|k ks IH]; intros s; simpl; [done|].
  destruct (read_string_eq k s) as (n & Hn & Hk).
  unfold mbind, state_bind. rewrite Hk.
  specialize (IH {| store := store s; tick := n |}). destruct (map_state _ _ _) as [r s'].
  simpl in *. destruct IH as (-> & Ht & Hr). split_and!; [done|lia|]. constructor.
  - exists (tick s). split; [lia|done].
  - eapply Forall2_impl; [exact Hr|]. intros j v (m & Hm & ->). exists m. split; [lia|done].
Qed.

(** Later pairs overwrite earlier ones. *)
Lemma mset_spec pairs s :
  run (mset pairs) s =
    (tt, {| store := foldl (λ st '(k, v), <[k := fresh_string v]> st) (store s) pairs;
            tick := tick s |}).
Proof.
  unfold mset. rewrite run_atomically. revert s.
  induction pairs as [|[k v] pairs IH]; intros s; [by destruct s|].
  cbn [for_each foldl]. unfold mbind, state_bind. by rewrite insert_entry_eq, IH.
Qed.

Lemma foldl_insert_lookup pairs (st : Store) k :
  foldl (λ st '(k, v), <[k := fresh_string v]> st) st pairs !! k =
    match (list_to_map (reverse pairs) : gmap string string) !! k with
    | Some v => Some (fresh_string v)
    | None => st !! k
    end.
Proof.
  revert st. induction pairs as [|[j v] pairs IH]; intros st; [done|].
  cbn [foldl]. rewrite IH, reverse_cons, list_to_map_app, lookup_union.
  destruct ((list_to_map (reverse pairs) : gmap string string) !! k) as [w|] eqn:E; simpl.
  - by match goal with |- context [Some w ∪ ?o] => destruct o end.
  - rewrite (left_id_L None (∪)). destruct (decide (j = k)) as [->|Hne]; [by rewrite !lookup_insert_eq|].
    by rewrite !lookup_insert_ne, lookup_empty by done.
Qed.

Lemma string_at_mset t pairs (st : Store) k :
  string_at t (foldl (λ st '(k, v), <[k := fresh_string v]> st) st pairs) k =
    match (list_to_map (reverse pairs) : gmap string string) !! k with
    | Some last => Some last
    | None => string_at t st k
    end.
Proof.
  unfold string_at. rewrite !lookup_view, foldl_insert_lookup.
  by destruct ((list_to_map (reverse pairs) : gmap string string) !! k).
Qed.

(** ** The sweeper *)

Lemma retain_spec (l : list (string * Entry)) s :
  NoDup l.*1 → (∀ k e, (k, e) ∈ l → store s !! k = Some e) →
  let s' := (for_each l (λ p, expired ← is_expired p.2;
               if (expired : bool) then remove_key p.1 else mret tt) s).2 in
  store s' ⊆ store s ∧ (tick s ≤ tick s')%nat ∧
  (∀ k e, store s !! k = Some e → live_at (instant s') e → store s' !! k = Some e) ∧
  (∀ k e, (k, e) ∈ l → store s' !! k = Some e → live_at (instant s) e).
Proof.
  revert s. induction l as [|[k e] l IH]; intros s Hnd Hl; cbn [for_each].
  { simpl. split_and!; set_solver. }
  inversion Hnd as [|? ? Hk Hnd']; subst. unfold mbind, state_bind. simpl. rewrite is_expired_eq.
  set (m := match expires_at e with Some _ => S (tick s) | None => tick s end).
  assert (Hm : (tick s ≤ m)%nat) by (unfold m; destruct (expires_at e); lia).
  assert (Hke : store s !! k = Some e) by (apply Hl; set_solver).
  assert (Hnotin : ∀ e', (k, e') ∉ l).
  { intros e' He'. apply Hk. apply list_elem_of_fmap. by exists (k, e'). }
  destruct (expired_at (instant s) e) eqn:X; simpl.
  - destruct (IH {| store := delete k (store s); tick := m |}) as (Hsub & Ht & Hkeep & Hlive).
    { done. }
    { intros j e' Hj. simpl. rewrite lookup_delete_ne; [apply Hl; set_solver|].
      intros <-. by apply (Hnotin e'). }
    simpl in *. set (s' := (for_each _ _ _).2) in *. split_and!.
    + etrans; [exact Hsub|apply delete_subseteq].
    + lia.
    + intros j e' Hj He'. apply Hkeep; [|done]. rewrite lookup_delete_ne; [done|]. intros <-.
      simplify_eq. unfold live_at in He'.
      by rewrite (expired_later (instant s) (instant s')) in He' by (done || (apply instant_le; lia)).
    + intros j e' [Hj|Hj]%elem_of_cons Hst.
      * simplify_eq. eapply lookup_weaken in Hst; [|exact Hsub]. by rewrite lookup_delete_eq in Hst.
      * specialize (Hlive j e' Hj Hst). unfold live_at, instant in *. simpl in *.
        destruct (expired_at (instant_at (tick s)) e') eqn:X'; [|done].
        by rewrite (expired_later _ _ _ (instant_le _ _ Hm) X') in Hlive.
  - destruct (IH {| store := store s; tick := m |}) as (Hsub & Ht & Hkeep & Hlive); [done| |].
    { intros j e' Hj. apply Hl. set_solver. }
    simpl in *. set (s' := (for_each _ _ _).2) in *. split_and!; [done|lia|done|].
    intros j e' [Hj|Hj]%elem_of_cons Hst; [by simplify_eq|].
    specialize (Hlive j e' Hj Hst). unfold live_at, instant in *. simpl in *.
    destruct (expired_at (instant_at (tick s)) e') eqn:X'; [|done].
    by rewrite (expired_later _ _ _ (instant_le _ _ Hm) X') in Hlive.
Qed.

Lemma sweep_lapses s :
  let s' := (run sweep_expired s).2 in
  (tick s ≤ tick s')%nat ∧ store s' ⊆ store s ∧
  view (instant s') (store s') = view (instant s') (store s) ∧
  map_Forall (λ _, live_at (instant s)) (store s').
Proof.
  unfold sweep_expired. rewrite run_atomically.
  unfold mbind, state_bind, gets, retain_live. cbn [fst snd].
  destruct (retain_spec (iter_map (store s)) s) as (Hsub & Ht & Hkeep & Hlive).
  { apply NoDup_iter_map_keys. }
  { intros k e. by rewrite elem_of_iter_map. }
  unfold mbind, state_bind, gets. destruct (for_each _ _ _) as [[] s']. simpl in *.
  split_and!; [done|done| |].
  - apply map_eq. intros k. apply option_eq. intros e. rewrite !lookup_view_some. split.
    + intros [Hk ?]. split; [by eapply lookup_weaken|done].
    + intros [Hk ?]. split; [by apply Hkeep|done].
  - intros k e Hk. apply (Hlive k); [|done]. apply elem_of_iter_map. by eapply lookup_weaken.
Qed.

Lemma sweep_spec s :
  Z.of_nat (size (store s)) ≤ usize_max →
  let '(r, s') := run sweep_expired s in
  (tick s ≤ tick s')%nat ∧ store s' ⊆ store s ∧
  view (instant s') (store s') = view (instant s') (store s) ∧
  map_Forall (λ _, live_at (instant s)) (store s') ∧
  r = Z.of_nat (size (store s)) - Z.of_nat (size (store s')).
Proof.
  intros Hsize. pose proof (sweep_lapses s) as H. destruct (run sweep_expired s) as [r s'] eqn:E.
  destruct H as (Ht & Hsub & Hview & Hlive). cbn [snd] in *. split_and!; [done..|].
  unfold sweep_expired in E. rewrite run_atomically in E.
  unfold mbind, state_bind, gets in E. destruct (retain_live s) as [[] s1]. cbn in E.
  injection E as <- ->. apply map_subseteq_size in Hsub.
  apply wrap_u64_id. unfold in_u64, usize_max in *. lia.
Qed.

Lemma flushall_spec s : run flushall s = (tt, {| store := ∅; tick := tick s |}).
Proof. done. Qed.
End keyops.
