(* ===== verification/SetAlgebra.v ===== *)
(** [SINTER], [SUNION] and [SDIFF]: what the multi-key set operations compute.

    Each key is looked at once, at an instant of its own between the operation's
    first and last clock readings; the answer is the intersection, union or
    difference of the sets found there. *)

From S2P Require Import Prelude Task RustInt RustF64 HashOrder Clock Store Database Keyspace KeyOps.
From S2P Require RSet.
Local Open Scope Z_scope.

Section algebra.
Context {CK : Clock} {HO : HashOrder} {OF : OrderedFloat}.

(** The set a key holds at an instant; a missing key is the empty set. *)
Definition members_at (t : Instant) (st : Store) (k : string) : result (gset string) StoreError :=
  match view t st !! k with
  | None => Ok ∅
  | Some e => ok_or (as_set (value e)) WrongType
  end.

(** [Xs] are the sets at [ks], each at some reading between [lo] and [hi]. *)
Definition sampled (st : Store) (lo hi : nat) (ks : list string) (Xs : list (gset string)) : Prop :=
  Forall2 (λ k X, ∃ n, (lo ≤ n ≤ hi)%nat ∧ members_at (instant_at n) st k = Ok X) ks Xs.

(** An error is due to one of the keys. *)
Definition failed (st : Store) (lo hi : nat) (ks : list string) (e : StoreError) : Prop :=
  ∃ k n, k ∈ ks ∧ (lo ≤ n ≤ hi)%nat ∧ members_at (instant_at n) st k = Err e.

Lemma set_members_of_eq k s :
  ∃ n, (tick s ≤ n)%nat ∧
    set_members_of k s = (members_at (instant s) (store s) k, {| store := store s; tick := n |}).
Proof.
  unfold set_members_of, members_at, get_entry, gets. unfold mbind at 1, state_bind at 1.
  fold (seen s). rewrite seen_lookup. destruct (store s !! k) as [e|]; simpl.
  - unfold mbind, state_bind. rewrite is_expired_eq.
    exists (match expires_at e with Some _ => S (tick s) | None => tick s end).
    split; [destruct (expires_at e); lia|].
    destruct (expired_at (instant s) e); simpl; [done|]. destruct (value e); try done.
    unfold mret, state_ret. simpl. do 2 f_equal. apply set_eq. intros x.
    by rewrite elem_of_list_to_set, elem_of_iter_set.
  - exists (tick s). split; [lia|]. by destruct s.
Qed.

Lemma sampled_weaken st lo lo' hi hi' ks Xs :
  (lo' ≤ lo)%nat → (hi ≤ hi')%nat → sampled st lo hi ks Xs → sampled st lo' hi' ks Xs.
Proof.
  intros Hl Hh H. eapply Forall2_impl; [exact H|]. intros k X (n & Hn & HX).
  exists n. split; [lia|done].
Qed.

(** The loop over the keys. *)
Lemma combine_sets_spec f ks acc s :
  let '(r, s') := combine_sets f ks acc s in
  store s' = store s ∧ (tick s ≤ tick s')%nat ∧
  match r with
  | Ok X => ∃ Xs, sampled (store s) (tick s) (tick s') ks Xs ∧ X = foldl f acc Xs
  | Err e => failed (store s) (tick s) (tick s') ks e
  end.
Proof.
  revert acc s. induction ks as [|k ks IH]; intros acc s; cbn [combine_sets].
  { simpl. split_and!; [done|done|]. exists []. split; [constructor|done]. }
  unfold mbind, state_bind. destruct (set_members_of_eq k s) as (n & Hn & ->).
  destruct (members_at (instant s) (store s) k) as [X|e] eqn:HX; simpl.
  - specialize (IH (f acc X) {| store := store s; tick := n |}).
    destruct (combine_sets f ks (f acc X) _) as [r s']; simpl in *.
    destruct IH as (Hst & Ht & Hr). split_and!; [done|lia|]. destruct r as [Y|e].
    + destruct Hr as (Xs & HXs & ->). exists (X :: Xs). split; [|done]. constructor.
      * exists (tick s). split; [lia|done].
      * eapply sampled_weaken, HXs; lia.
    + destruct Hr as (j & m & Hj & Hm & He). exists j, m. split_and!; [set_solver|lia|lia|done].
  - split_and!; [done|lia|]. exists k, (tick s). split_and!; [set_solver|lia|lia|done].
Qed.

(** The shape the three operations share: [P Xs x] says which elements the answer
    has, given the sets. *)
Definition answers (s s' : DbState) (ks : list string) (P : list (gset string) → string → Prop)
    (r : result (list string) StoreError) : Prop :=
  store s' = store s ∧ (tick s ≤ tick s')%nat ∧
  match r with
  | Ok l => NoDup l ∧ ∃ Xs, sampled (store s) (tick s) (tick s') ks Xs ∧ ∀ x, x ∈ l ↔ P Xs x
  | Err e => failed (store s) (tick s) (tick s') ks e
  end.

Lemma first_and_rest_spec f ks s P :
  (∀ x, ¬ P [] x) →
  (∀ X Xs x, x ∈ foldl f X Xs ↔ P (X :: Xs) x) →
  let '(r, s') := run (first_and_rest f ks) s in answers s s' ks P r.
Proof.
  intros Hnil Hf. unfold first_and_rest. rewrite run_atomically. destruct ks as [|k ks].
  { simpl. split; [done|]. split; [done|]. split; [constructor|]. exists []. split; [constructor|].
    intros x. pose proof (Hnil x). set_solver. }
  unfold mbind, state_bind. destruct (set_members_of_eq k s) as (n & Hn & ->).
  destruct (members_at (instant s) (store s) k) as [X|e] eqn:HX.
  - pose proof (combine_sets_spec f ks X {| store := store s; tick := n |}) as H.
    destruct (combine_sets f ks X _) as [r s']; simpl in *. destruct H as (Hst & Ht & Hr).
    split; [done|]. split; [simpl; lia|]. destruct r as [Y|e]; simpl.
    + destruct Hr as (Xs & HXs & ->). split; [apply NoDup_iter_set|]. exists (X :: Xs). split.
      * constructor; [exists (tick s); split; [lia|done]|]. eapply sampled_weaken, HXs; lia.
      * intros x. by rewrite elem_of_iter_set.
    + destruct Hr as (j & m & Hj & Hm & He). exists j, m. split_and!; [set_solver|lia|lia|done].
  - split; [done|]. split; [simpl; lia|]. exists k, (tick s).
    split_and!; simpl; [set_solver|lia|lia|done].
Qed.

Lemma elem_of_foldl_inter X Xs x :
  x ∈ foldl retain_in X Xs ↔ ∀ Y, Y ∈ X :: Xs → x ∈ Y.
Proof.
  revert X. induction Xs as [|Y Xs IH]; intros X; cbn [foldl]; [set_solver|].
  rewrite IH. unfold retain_in. split; intros H Z.
  - assert (Hf : x ∈ filter (λ m, m ∈ Y) X) by (apply H; left).
    apply elem_of_filter in Hf as [HY HX].
    intros [->|[->|HZ]%elem_of_cons]%elem_of_cons; [done|done|]. apply H. by right.
  - intros [->|HZ]%elem_of_cons; [|apply H; by do 2 right].
    apply elem_of_filter. split; apply H; [right; left|left].
Qed.

Lemma elem_of_remove_each X Y x : x ∈ remove_each X Y ↔ x ∈ X ∧ x ∉ Y.
Proof.
  unfold remove_each. rewrite <- (elem_of_iter_set x Y). generalize (iter_set Y). intros l.
  revert X. induction l as [|y l IH]; intros X; cbn [fold_left]; [set_solver|].
  rewrite IH. set_solver.
Qed.

Lemma elem_of_extend X Y x : x ∈ extend X Y ↔ x ∈ X ∨ x ∈ Y.
Proof.
  unfold extend. rewrite <- (elem_of_iter_set x Y). generalize (iter_set Y). intros l.
  revert X. induction l as [|y l IH]; intros X; cbn [fold_left]; [set_solver|].
  rewrite IH. set_solver.
Qed.

Lemma sinter_spec ks s :
  let '(r, s') := run (sinter ks) s in
  answers s s' ks (λ Xs x, Xs ≠ [] ∧ ∀ X, X ∈ Xs → x ∈ X) r.
Proof.
  apply first_and_rest_spec; [tauto|]. intros X Xs x. rewrite elem_of_foldl_inter. naive_solver.
Qed.

Lemma sdiff_spec ks s :
  let '(r, s') := run (sdiff ks) s in
  answers s s' ks (λ Xs x, ∃ X Ys, Xs = X :: Ys ∧ x ∈ X ∧ ∀ Y, Y ∈ Ys → x ∉ Y) r.
Proof.
  apply first_and_rest_spec; [naive_solver|]. intros X Ys x. trans (x ∈ X ∧ ∀ Y, Y ∈ Ys → x ∉ Y).
  - revert X. induction Ys as [|Y Ys IH]; intros X; cbn [foldl]; [set_solver|].
    rewrite IH, elem_of_remove_each. set_solver.
  - naive_solver.
Qed.

Lemma sunion_spec ks s :
  let '(r, s') := run (sunion ks) s in
  answers s s' ks (λ Xs x, ∃ X, X ∈ Xs ∧ x ∈ X) r.
Proof.
  unfold sunion. rewrite run_atomically. unfold mbind, state_bind.
  pose proof (combine_sets_spec extend ks ∅ s) as H.
  destruct (combine_sets extend ks ∅ s) as [r s']; simpl in *. destruct H as (Hst & Ht & Hr).
  split; [done|]. split; [done|]. destruct r as [Y|e]; simpl; [|done].
  destruct Hr as (Xs & HXs & ->). split; [apply NoDup_iter_set|]. exists Xs. split; [done|].
  intros x. rewrite elem_of_iter_set.
  assert (Hgen : ∀ acc, x ∈ foldl extend acc Xs ↔ x ∈ acc ∨ ∃ X, X ∈ Xs ∧ x ∈ X).
  { clear. induction Xs as [|Y Xs IH]; intros acc; cbn [foldl]; [set_solver|].
    rewrite IH, elem_of_extend. set_solver. }
  rewrite Hgen. set_solver.
Qed.
End algebra.
