(* ===== verification/Invariant.v ===== *)
(** The store's invariant, and that every operation of [Database] keeps it under
    any interleaving with other operations.

    A stored collection is never empty ("as Redis does": a key disappears with
    its last element), the two indexes of a sorted set agree, and no score is
    NaN. *)

From S2P Require Import Prelude Task RustInt RustStr RustF64 HashOrder Ranges Clock Store Database.
From S2P Require Import Keyspace Refinement KeyOps SetAlgebra.
From S2P Require RList RSet RHash RSortedSet.
Local Open Scope Z_scope.

Section invariant.
Context {CK : Clock} {HO : HashOrder} {OF : OrderedFloat}.

Definition no_nan (z : RSortedSet.RSortedSet) : Prop :=
  map_Forall (λ _ sc, is_nan sc = false) (RSortedSet.members z).

Definition zset_wf (z : RSortedSet.RSortedSet) : Prop := RSortedSet.zset_ok z ∧ no_nan z.

Definition value_wf (v : Value) : Prop :=
  match v with
  | VStr _ => True
  | VList l => l ≠ []
  | VSet s => s ≠ ∅
  | VSortedSet z => zset_wf z ∧ RSortedSet.members z ≠ ∅
  | VHash h => h ≠ ∅
  end.

Definition entry_wf (e : Entry) : Prop := value_wf (value e).
Definition store_wf (st : Store) : Prop := map_Forall (λ _, entry_wf) st.
Definition db_wf (s : DbState) : Prop := store_wf (store s).

(** ** The invariant and the store's operations *)

Lemma store_wf_insert k e st : entry_wf e → store_wf st → store_wf (<[k := e]> st).
Proof. intros. by apply map_Forall_insert_2. Qed.

Lemma store_wf_delete k st : store_wf st → store_wf (delete k st).
Proof. intros. by apply map_Forall_delete. Qed.

Lemma store_wf_subseteq st st' : st' ⊆ st → store_wf st → store_wf st'.
Proof. intros Hsub H k e Hk. apply (H k). by eapply lookup_weaken. Qed.

Lemma store_wf_alter k o st :
  (∀ e, o = Some e → entry_wf e) → store_wf st → store_wf (partial_alter (λ _, o) k st).
Proof.
  intros Ho H j e. destruct (decide (j = k)) as [->|Hj].
  - rewrite lookup_partial_alter_eq. apply Ho.
  - rewrite lookup_partial_alter_ne by done. apply H.
Qed.

Lemma seen_wf s k e : db_wf s → seen s !! k = Some e → entry_wf e.
Proof. intros H [Hk _]%lookup_view_some. by apply (H k). Qed.

(** ** From specifications to the invariant *)

Definition spec_wf {T} (f : key_spec T) : Prop :=
  ∀ o e, (∀ e, o = Some e → entry_wf e) → (f o).2 = Some e → entry_wf e.

Lemma refines_wf {T} op k (f : key_spec T) s :
  refines op k f → spec_wf f → db_wf s → db_wf (run op s).2.
Proof.
  intros Hop Hf Hs. specialize (Hop s). unfold apply_spec in Hop.
  destruct (run op s) as [r s']. destruct Hop as (_ & _ & Hst). unfold db_wf. simpl. rewrite Hst.
  apply store_wf_alter; [|done]. intros e. apply Hf. intros e' He'. by eapply seen_wf.
Qed.

(** An operation that takes the lock once. *)
Definition one_section {T} (t : Task DbState T) : Prop := ∃ m, t = atomically m.

Lemma keeps_one_section {T} (I : DbState → Prop) (t : Task DbState T) :
  one_section t → (∀ s, I s → I (run t s).2) → keeps I t.
Proof.
  intros [m ->] H. apply keeps_atomically. intros s Hs. specialize (H s Hs).
  rewrite run_atomically in H. by destruct (m s).
Qed.

Lemma keeps_refines {T} (op : Task DbState T) k f :
  one_section op → refines op k f → spec_wf f → keeps db_wf op.
Proof. intros. apply keeps_one_section; [done|]. intros s. by eapply refines_wf. Qed.

(** Reading never writes, apart from evictions. *)
Lemma keeps_read_entry {T} (I : DbState → Prop) k (absent : T) read :
  (∀ s s', store s' = store s → I s → I s') →
  (∀ s, I s → I (removed k s)) →
  (∀ e s, store (read e s).2 = store s) →
  keeps I (read_entry k absent read).
Proof.
  intros Hclock Hdel Hread. constructor. intros s Hs. unfold mbind, state_bind, get_entry, gets.
  destruct (store s !! k) as [e|]; [|split; [constructor|done]].
  rewrite is_expired_eq. destruct (expired_at (instant s) e).
  - simpl. split; [|by apply (Hclock s)]. constructor. clear s Hs. intros s Hs.
    rewrite evict_expired_eq. simpl. split; [constructor|].
    unfold touch, evict_expired, mbind, state_bind. rewrite key_expired_eq. simpl.
    match goal with |- context [if ?b then _ else _] => destruct b end.
    + by apply (Hclock (removed k s)), Hdel.
    + by apply (Hclock s).
  - specialize (Hread e). set (s1 := {| store := store s; tick := _ |}). specialize (Hread s1).
    destruct (read e s1) as [r s']. simpl in *. split; [constructor|]. by apply (Hclock s).
Qed.

Lemma keeps_read_as {A T} k (absent : result T StoreError) (project : Value → option A) (f : A → T) :
  keeps db_wf (read_entry k absent (read_as project f)).
Proof.
  apply keeps_read_entry; [|intros s; apply store_wf_delete|done].
  intros s s'. unfold db_wf. by intros ->.
Qed.

Lemma typed_spec_wf {A T} (inject : A → Value) project (wf : A → Prop)
    (f : option A → result T StoreError * option A) :
  (∀ v a, project v = Some a ↔ v = inject a) →
  (∀ a, value_wf (inject a) ↔ wf a) →
  (∀ o a, (∀ a, o = Some a → wf a) → (f o).2 = Some a → wf a) →
  spec_wf (typed_spec inject project f).
Proof.
  intros Hproj Hwf Hf [e0|] e Ho He; unfold typed_spec in He; unfold entry_wf.
  - specialize (Ho e0 eq_refl). unfold entry_wf in Ho.
    destruct (project (value e0)) as [a|] eqn:E; [|simpl in He; by simplify_eq].
    apply Hproj in E. specialize (Hf (Some a)). destruct (f (Some a)) as [r [a'|]]; [|done].
    simpl in He. injection He as <-. simpl. apply Hwf, Hf; [|done].
    intros a0 [= <-]. apply Hwf. by rewrite <- E.
  - specialize (Hf None). destruct (f None) as [r [a'|]]; [|done].
    simpl in He. injection He as <-. simpl. apply Hwf, Hf; done.
Qed.

(** ** The operations on one key *)

(** What the parser guarantees of the arguments: pushed and added values are
    not empty, deltas are [i64], scores are not NaN. *)
Definition list_op_ok {T} (op : list_op T) : Prop :=
  match op with
  | LPush values | RPush values => values ≠ []
  | _ => True
  end.
Definition set_op_ok {T} (op : set_op T) : Prop :=
  match op with
  | SAdd values => values ≠ []
  | _ => True
  end.
Definition zset_args_ok {T} (op : zset_op T) : Prop :=
  match op with
  | ZAdd members => members ≠ [] ∧ Forall (λ p, is_nan p.1 = false) members
  | ZIncrBy increment _ => is_nan increment = false
  | _ => True
  end.

Lemma zset_args_op_ok {T} (op : zset_op T) : zset_args_ok op → zset_op_ok op.
Proof. by destruct op. Qed.

Lemma list_spec_wf {T} (op : list_op T) :
  list_op_ok op → spec_wf (typed_spec VList as_list (list_spec op)).
Proof.
  intros Hok. apply (typed_spec_wf _ _ (λ l, l ≠ [])); [apply as_list_inj|done|].
  intros o l Ho. destruct op as [vs|vs| | | | | |i v]; simpl in *; try (intros ->; by apply Ho).
  - intros [= <-] H. apply Hok. apply app_eq_nil in H as [H _].
    apply length_zero_iff_nil. by rewrite <- length_rev, H.
  - intros [= <-] H. apply Hok. by apply app_eq_nil in H as [_ ?].
  - destruct o as [l'|]; [|done]. simpl. unfold nonempty_list. by destruct (tail l'); intros [= <-].
  - destruct o as [l'|]; [|done]. simpl. unfold nonempty_list.
    by destruct (take _ _); intros [= <-].
  - destruct o as [l'|]; [|done]. destruct (normalize_index i _); simpl; intros [= <-].
    + intros H. apply (Ho l'); [done|]. apply length_zero_iff_nil. rewrite <- (length_insert l' (Z.to_nat z) v).
      by rewrite H.
    + by apply Ho.
Qed.

Lemma set_spec_wf {T} (op : set_op T) :
  set_op_ok op → spec_wf (typed_spec VSet as_set (set_spec op)).
Proof.
  intros Hok. apply (typed_spec_wf _ _ (λ s, s ≠ ∅)); [apply as_set_inj|done|].
  intros o s Ho. destruct op as [vs|vs| | | |]; simpl in *; try (intros ->; by apply Ho).
  - intros [= <-] H. destruct vs as [|v vs]; [done|]. rewrite RSet.union_new in H. set_solver.
  - destruct o as [l'|]; [|done]. simpl. unfold nonempty_set. by case_decide; intros [= <-].
  - destruct o as [l'|]; [|done]. simpl. unfold nonempty_set. by case_decide; intros [= <-].
Qed.

Lemma zadd_wf z sc m :
  is_nan sc = false → zset_wf z →
  zset_wf (RSortedSet.zadd z sc m).2 ∧ RSortedSet.members (RSortedSet.zadd z sc m).2 ≠ ∅.
Proof.
  intros Hsc [Hok Hnan]. split; [split|].
  - by apply RSortedSet.zadd_ok.
  - unfold no_nan. rewrite RSortedSet.zadd_members. apply map_Forall_insert_2; [|done].
    unfold RSortedSet.recorded_score. destruct (RSortedSet.members z !! m) as [old|] eqn:E; [|done].
    case_match; [|done]. by apply (Hnan m).
  - rewrite RSortedSet.zadd_members. apply insert_non_empty.
Qed.

Lemma zadd_fold_wf members n z :
  Forall (λ p, is_nan p.1 = false) members → zset_wf z →
  let z' := (fold_left zadd_step members (n, z)).2 in
  zset_wf z' ∧ (members ≠ [] ∨ RSortedSet.members z ≠ ∅ → RSortedSet.members z' ≠ ∅).
Proof.
  intros Hf. revert n z. induction Hf as [|[sc m] members Hsc _ IH]; intros n z Hz; simpl.
  { split; [done|]. by intros [?|?]. }
  destruct (zadd_wf z sc m Hsc Hz) as [Hz' Hne].
  assert (∃ n', zadd_step (n, z) (sc, m) = (n', (RSortedSet.zadd z sc m).2)) as [n' ->].
  { unfold zadd_step; simpl. destruct (RSortedSet.zadd z sc m). by eexists. }
  destruct (IH n' _ Hz') as [Hwf Hne']. split; [done|]. intros _. apply Hne'. by right.
Qed.

Lemma zset_new_wf : zset_wf RSortedSet.new.
Proof. split; [apply RSortedSet.new_ok|]. apply map_Forall_empty. Qed.

Lemma zset_spec_wf {T} (op : zset_op T) :
  zset_args_ok op → spec_wf (typed_spec VSortedSet as_sorted_set (zset_spec op)).
Proof.
  intros Hok.
  apply (typed_spec_wf _ _ (λ z, zset_wf z ∧ RSortedSet.members z ≠ ∅)); [apply as_zset_inj|done|].
  intros o z Ho.
  assert (Hz : zset_wf (default RSortedSet.new o)).
  { destruct o; [by apply Ho|apply zset_new_wf]. }
  destruct op as [ms|m| | | | | | |inc m]; simpl in *; try (intros ->; by apply Ho).
  - destruct Hok as [Hne Hf]. destruct (zadd_fold_wf ms 0 _ Hf Hz) as [Hwf Hnonempty].
    destruct (fold_left _ _ _) as [n z']. simpl in *. intros [= <-]. auto.
  - destruct o as [z0|]; [|done]. simpl. unfold nonempty_zset. case_decide; intros [= <-].
    split; [|done]. simpl in Hz. destruct Hz as [Hzok Hnan]. split.
    + by apply RSortedSet.zrem_ok.
    + unfold no_nan. rewrite RSortedSet.zrem_members. by apply map_Forall_delete.
  - destruct (is_nan (incremented _ _ _)) eqn:E; simpl; [intros ->; by apply Ho|].
    intros [= <-]. by apply zadd_wf.
Qed.

Lemma hash_spec_wf {T} (op : hash_op T) :
  spec_wf (typed_spec VHash as_hash (hash_spec op)).
Proof.
  apply (typed_spec_wf _ _ (λ h, h ≠ ∅)); [apply as_hash_inj|done|].
  intros o h Ho. destruct op as [f v|f|f| | | | |f|f delta]; simpl in *; try (intros ->; by apply Ho).
  - intros [= <-]. apply insert_non_empty.
  - destruct o as [h'|]; [|done]. simpl. unfold nonempty_hash. by case_decide; intros [= <-].
  - destruct (from_option _ _ _) as [c|]; [destruct (checked_add c delta)|]; simpl;
      try (intros ->; by apply Ho). intros [= <-]. apply insert_non_empty.
Qed.

Lemma string_spec_wf {T} (op : string_op T) :
  spec_wf (typed_spec VStr as_str (string_spec op)).
Proof.
  apply (typed_spec_wf _ _ (λ _, True)); [|done|done]. intros v s. destruct v; naive_solver.
Qed.

(** ** Every operation keeps the invariant, whatever runs in between *)

Lemma keeps_read_state {T} k (absent : T) (f : Entry → T) :
  keeps db_wf (read_entry k absent (λ e, mret (f e))).
Proof.
  apply keeps_read_entry; [|intros s; apply store_wf_delete|done].
  intros s s'. unfold db_wf. by intros ->.
Qed.

Lemma keeps_list_op {T} k (op : list_op T) : list_op_ok op → keeps db_wf (run_list_op k op).
Proof.
  intros Hok. pose proof (list_ops_refine k op) as Href. apply list_spec_wf in Hok.
  destruct op; try (eapply keeps_refines; [by eexists|exact Href|exact Hok]);
    apply keeps_read_as.
Qed.

Lemma keeps_set_op {T} k (op : set_op T) : set_op_ok op → keeps db_wf (run_set_op k op).
Proof.
  intros Hok. pose proof (set_ops_refine k op) as Href. apply set_spec_wf in Hok.
  destruct op; try (eapply keeps_refines; [by eexists|exact Href|exact Hok]);
    apply keeps_read_as.
Qed.

Lemma keeps_zset_op {T} k (op : zset_op T) : zset_args_ok op → keeps db_wf (run_zset_op k op).
Proof.
  intros Hok. pose proof (zset_ops_refine k op (zset_args_op_ok op Hok)) as Href.
  apply zset_spec_wf in Hok.
  destruct op; try (eapply keeps_refines; [by eexists|exact Href|exact Hok]);
    apply keeps_read_as.
Qed.

Lemma keeps_hash_op {T} k (op : hash_op T) : hash_op_ok op → keeps db_wf (run_hash_op k op).
Proof.
  intros Hok. pose proof (hash_ops_refine k op Hok) as Href.
  pose proof (hash_spec_wf op) as Hwf.
  destruct op; try (eapply keeps_refines; [by eexists|exact Href|exact Hwf]);
    apply keeps_read_as.
Qed.

Lemma keeps_string_op {T} k (op : string_op T) :
  string_op_ok op → keeps db_wf (run_string_op k op).
Proof.
  intros Hok. pose proof (string_ops_refine k op Hok) as Href.
  pose proof (string_spec_wf op) as Hwf.
  destruct op; try (eapply keeps_refines; [by eexists|exact Href|exact Hwf]);
    apply keeps_read_state.
Qed.

(** An operation whose effect on the store is known. *)
Lemma keeps_effect {T} (op : Task DbState T) (F : DbState → DbState → Prop) :
  one_section op → (∀ s, F s (run op s).2) →
  (∀ s s', F s s' → db_wf s → db_wf s') → keeps db_wf op.
Proof. intros Hone Hrun HF. apply keeps_one_section; [done|]. intros s Hs. by eapply HF. Qed.

Lemma keeps_unchanged {T} (op : Task DbState T) :
  one_section op → (∀ s, store (run op s).2 = store s) → keeps db_wf op.
Proof.
  intros Hone Hrun. eapply (keeps_effect _ (λ s s', store s' = store s)); [done|done|].
  intros s s'. unfold db_wf. by intros ->.
Qed.

Ltac unchanged_by H :=
  apply keeps_unchanged; [by eexists|];
  let s := fresh in intros s; pose proof (H s); destruct (run _ s); simpl; tauto.

Lemma keeps_scans ks pattern :
  keeps db_wf (exists_ ks) ∧ keeps db_wf dbsize ∧ keeps db_wf (keys pattern) ∧
  keeps db_wf (mget ks).
Proof.
  split_and!.
  - unchanged_by (exists_spec ks).
  - unchanged_by dbsize_spec.
  - unchanged_by (keys_spec pattern).
  - unchanged_by (mget_spec ks).
Qed.

Lemma keeps_set_algebra ks :
  keeps db_wf (sinter ks) ∧ keeps db_wf (sunion ks) ∧ keeps db_wf (sdiff ks).
Proof.
  split_and!; apply keeps_unchanged; try (by eexists); intros s;
    [pose proof (sinter_spec ks s) as H | pose proof (sunion_spec ks s) as H
    | pose proof (sdiff_spec ks s) as H];
    destruct (run _ s); by destruct H.
Qed.

Lemma keeps_string_writes k v ttl pairs :
  keeps db_wf (set k v ttl) ∧ keeps db_wf (setnx k v) ∧ keeps db_wf (getset k v) ∧
  keeps db_wf (mset pairs).
Proof.
  split_and!.
  - apply keeps_one_section; [by eexists|]. intros s Hs. unfold set. rewrite run_atomically.
    unfold mbind, state_bind. destruct (deadline_of ttl s) as [d s'] eqn:E.
    assert (store s' = store s) as Hst by (destruct ttl; unfold deadline_of in E; by inversion E).
    unfold db_wf. simpl. rewrite Hst. by apply store_wf_insert.
  - eapply keeps_refines; [by eexists|apply setnx_refines|].
    intros [e|] e' He; simpl; intros [= <-]; [by apply He|done].
  - eapply keeps_refines; [by eexists|apply getset_refines|].
    intros [[[] d]|] e' He; simpl; intros [= <-]; first [by apply (He _ eq_refl) | done].
  - apply keeps_one_section; [by eexists|]. intros s Hs. rewrite mset_spec. unfold db_wf in *. simpl.
    generalize dependent (store s). induction pairs as [|[j w] pairs IH]; intros st Hst; [done|].
    simpl. apply IH. by apply store_wf_insert.
Qed.

Lemma keeps_key_ops k new_key seconds ks :
  keeps db_wf (expire k seconds) ∧ keeps db_wf (persist k) ∧ keeps db_wf (type_of k) ∧
  keeps db_wf (ttl k) ∧ keeps db_wf (rename k new_key) ∧ keeps db_wf (del ks) ∧
  keeps db_wf sweep_expired ∧ keeps db_wf flushall.
Proof.
  split_and!.
  - apply keeps_one_section; [by eexists|]. intros s Hs. unfold expire. rewrite run_atomically.
    unfold mbind at 1, state_bind at 1. rewrite live_entry_eq.
    assert (Ht : store_wf (store (touch k s))) by (rewrite touch_raw; apply store_wf_alter; [|done];
      intros e; by apply seen_wf).
    destruct (seen s !! k) as [e|] eqn:E; [|done].
    destruct (decide (seconds ≤ 0)); [by apply store_wf_delete|].
    unfold mbind, state_bind, get_entry, gets. simpl. rewrite touch_lookup, E. simpl.
    apply store_wf_insert; [|done]. by apply (seen_wf s k e).
  - eapply keeps_refines; [by eexists|apply persist_refines|].
    intros [[v [d|]]|] e' He; simpl; try done; intros [= <-]; apply (He _ eq_refl).
  - apply keeps_read_state.
  - apply keeps_read_entry; [|intros s; apply store_wf_delete|by intros [v [d|]] s].
    intros s s'. unfold db_wf. by intros ->.
  - apply keeps_one_section; [by eexists|]. intros s Hs. unfold rename. rewrite run_atomically.
    unfold mbind, state_bind. rewrite live_entry_eq.
    assert (Ht : store_wf (store (touch k s))) by (rewrite touch_raw; apply store_wf_alter; [|done];
      intros e; by apply seen_wf).
    destruct (seen s !! k) as [e|] eqn:E; [|done]. simpl. rewrite touch_lookup, E. simpl.
    apply store_wf_insert; [by apply (seen_wf s k e)|]. by apply store_wf_delete.
  - apply keeps_one_section; [by eexists|]. intros s Hs. pose proof (del_spec ks s) as H.
    destruct (run (del ks) s) as [r s']. destruct H as [H _]. unfold db_wf in *. simpl.
    rewrite H. clear H. generalize dependent (store s).
    induction ks as [|j ks IH]; intros st Hst; [done|]. simpl. apply IH. by apply store_wf_delete.
  - apply keeps_one_section; [by eexists|]. intros s Hs.
    destruct (sweep_lapses s) as (_ & Hsub & _). by eapply store_wf_subseteq.
  - apply keeps_one_section; [by eexists|]. intros s Hs. apply map_Forall_empty.
Qed.
End invariant.
