(* ===== verification/PubSub.v ===== *)
(** The publish/subscribe registry ([pubsub.rs]).

    [tokio::sync::mpsc] is not code of this repository: an instance of [Mpsc]
    gives its channels and what their operations do to the mailboxes.  The laws are
    the documented behaviour of an unbounded channel: [send] fails exactly when
    the receiver is gone and otherwise queues the message, [recv] takes the oldest
    message, and a new channel is none of those there were. *)

From S2P Require Import Prelude RustInt RustStr HashOrder Resp.
Local Open Scope Z_scope.

Class Mpsc : Type := {
  Sender : Type;
  (** [Sender::same_channel] *)
  same_channel :: EqDecision Sender;
  (** The state of all channels of the process. *)
  Mail : Type;
  (** The channels there have been. *)
  known : Sender → Mail → Prop;
  (** The messages queued for a receiver, [None] once it is dropped. *)
  mailbox : Sender → Mail → option (list string);
  send : Sender → string → Mail → bool * Mail;
  (** The [recv] of the sender's receiver, when it is polled: [None] when it is
      not ready. *)
  poll_recv : Sender → Mail → option string * Mail;
  (** The end of the receiver's life. *)
  drop_receiver : Sender → Mail → Mail;
  (** [unbounded_channel()]: a sender of its own, with an empty mailbox. *)
  unbounded_channel : Mail → Sender * Mail;

  mailbox_known s m : is_Some (mailbox s m) → known s m;
  send_spec s msg m :
    match mailbox s m with
    | None => send s msg m = (false, m)
    | Some queue =>
        (send s msg m).1 = true ∧
        mailbox s (send s msg m).2 = Some (queue ++ [msg]) ∧
        ∀ s', s' ≠ s → mailbox s' (send s msg m).2 = mailbox s' m
    end;
  send_known s msg m s' : known s' (send s msg m).2 ↔ known s' m;
  poll_recv_spec s m :
    match mailbox s m with
    | Some (msg :: queue) =>
        (poll_recv s m).1 = Some msg ∧ mailbox s (poll_recv s m).2 = Some queue ∧
        ∀ s', s' ≠ s → mailbox s' (poll_recv s m).2 = mailbox s' m
    | _ => poll_recv s m = (None, m)
    end;
  poll_recv_known s m s' : known s' (poll_recv s m).2 ↔ known s' m;
  drop_receiver_spec s m :
    mailbox s (drop_receiver s m) = None ∧
    ∀ s', s' ≠ s → mailbox s' (drop_receiver s m) = mailbox s' m;
  drop_receiver_known s m s' : known s' (drop_receiver s m) ↔ known s' m;
  unbounded_channel_spec m :
    ¬ known (unbounded_channel m).1 m ∧
    mailbox (unbounded_channel m).1 (unbounded_channel m).2 = Some [] ∧
    ∀ s', s' ≠ (unbounded_channel m).1 → mailbox s' (unbounded_channel m).2 = mailbox s' m;
  unbounded_channel_known m s' :
    known s' (unbounded_channel m).2 ↔ s' = (unbounded_channel m).1 ∨ known s' m
}.

(** Channels numbered from 0, for concrete examples. *)
Definition numbered_mailbox (s : nat) (m : list (option (list string))) : option (list string) :=
  mjoin (m !! s).

Lemma numbered_insert (s : nat) q m s' :
  is_Some (m !! s) →
  numbered_mailbox s' (<[s := q]> m) = if decide (s' = s) then q else numbered_mailbox s' m.
Proof.
  intros Hs. unfold numbered_mailbox. case_decide as E; [subst|by rewrite list_lookup_insert_ne].
  rewrite list_lookup_insert_eq; [by destruct q|]. by apply lookup_lt_is_Some.
Qed.

Lemma numbered_insert_known (s s' : nat) (q : option (list string)) (m : list (option (list string))) :
  is_Some (<[s := q]> m !! s') ↔ is_Some (m !! s').
Proof. by rewrite !lookup_lt_is_Some, length_insert. Qed.

Lemma numbered_known (s : nat) m : is_Some (numbered_mailbox s m) → is_Some (m !! s).
Proof. unfold numbered_mailbox. destruct (m !! s); [by eexists|by intros [? ?]]. Qed.

Definition counted_channels : Mpsc.
Proof.
  refine {|
    Sender := nat;
    same_channel := Nat.eq_dec;
    Mail := list (option (list string));
    known s m := is_Some (m !! s);
    mailbox := numbered_mailbox;
    send s msg m :=
      match numbered_mailbox s m with
      | Some q => (true, <[s := Some (q ++ [msg])]> m)
      | None => (false, m)
      end;
    poll_recv s m :=
      match numbered_mailbox s m with
      | Some (msg :: q) => (Some msg, <[s := Some q]> m)
      | _ => (None, m)
      end;
    drop_receiver s m := <[s := None]> m;
    unbounded_channel m := (length m, m ++ [Some []])
  |}.
  - intros s m. apply numbered_known.
  - intros s msg m. destruct (numbered_mailbox s m) as [q|] eqn:E; [|done]. simpl.
    assert (Hs : is_Some (m !! s)) by (apply numbered_known; by rewrite E).
    split; [done|]. split; [by rewrite numbered_insert, decide_True|].
    intros s' Hs'. by rewrite numbered_insert, decide_False.
  - intros s msg m s'. destruct (numbered_mailbox s m); [apply numbered_insert_known|done].
  - intros s m. destruct (numbered_mailbox s m) as [[|msg q]|] eqn:E; [done| |done]. simpl.
    assert (Hs : is_Some (m !! s)) by (apply numbered_known; by rewrite E).
    split; [done|]. split; [by rewrite numbered_insert, decide_True|].
    intros s' Hs'. by rewrite numbered_insert, decide_False.
  - intros s m s'. destruct (numbered_mailbox s m) as [[|msg q]|]; [done|apply numbered_insert_known|done].
  - intros s m. destruct (decide (is_Some (m !! s))) as [Hs|Hs].
    + split; [by rewrite numbered_insert, decide_True|].
      intros s' Hs'. by rewrite numbered_insert, decide_False.
    + rewrite list_insert_ge by (rewrite lookup_lt_is_Some in Hs; lia). split; [|done].
      unfold numbered_mailbox. apply eq_None_not_Some in Hs. by rewrite Hs.
  - intros s m s'. apply numbered_insert_known.
  - intros m. simpl. unfold numbered_mailbox. split_and!.
    + apply eq_None_not_Some, lookup_ge_None. done.
    + rewrite lookup_app_r by lia. by rewrite Nat.sub_diag.
    + intros s' Hs. destruct (decide (s' < length m)%nat); [by rewrite lookup_app_l|].
      rewrite lookup_app_r by lia. rewrite (proj2 (lookup_ge_None m s')) by lia.
      destruct (s' - length m)%nat eqn:E; [lia|done].
  - intros m s'. simpl. rewrite !lookup_lt_is_Some, length_app. simpl. lia.
Defined.

Section pubsub.
Context {MP : Mpsc} {HO : HashOrder}.

Record PubSub := { channels : gmap string (gmap Z Sender); next_subscriber : Z }.

Definition new_pubsub : PubSub := {| channels := ∅; next_subscriber := 0 |}.

(** [fetch_add(1)] on an [AtomicU64]. *)
Definition next_id : State PubSub Z := λ p,
  (next_subscriber p,
   {| channels := channels p; next_subscriber := wrap_u64 (next_subscriber p + 1) |}).

Definition set_channels (f : gmap string (gmap Z Sender) → gmap string (gmap Z Sender))
    : State PubSub unit :=
  modify (λ p, {| channels := f (channels p); next_subscriber := next_subscriber p |}).

Definition subscribe (channel : string) (id : Z) (sender : Sender) : State PubSub unit :=
  set_channels (λ c, <[channel := <[id := sender]> (default ∅ (c !! channel))]> c).

Definition unsubscribe (channel : string) (id : Z) : State PubSub unit :=
  set_channels (λ c,
    match c !! channel with
    | Some subscribers =>
        let subscribers := delete id subscribers in
        if decide (subscribers = ∅) then delete channel c
        else <[channel := subscribers]> c
    | None => c
    end).

(** The encoded message. *)
Definition message (channel payload : string) : string := array ["message"; channel; payload].

(** [publish] holds the registry's lock; it changes the mailboxes only. *)
Definition publish (channel payload : string) (p : PubSub) : State Mail Z :=
  match channels p !! channel with
  | None => mret 0
  | Some subscribers =>
      for_fold (iter_ids subscribers) 0 (λ received s,
        ok ← send s.2 (message channel payload);
        mret (if (ok : bool) then received + 1 else received))
  end.

(** * The registry holds the subscriptions and nothing else *)

Definition no_empty_channel (p : PubSub) : Prop := map_Forall (λ _ subs, subs ≠ ∅) (channels p).

(** Whether [id] is registered on [channel]. *)
Definition registered (p : PubSub) (channel : string) (id : Z) : Prop :=
  ∃ subs, channels p !! channel = Some subs ∧ is_Some (subs !! id).

Definition sender_of (p : PubSub) (channel : string) (id : Z) : option Sender :=
  subs ← channels p !! channel; subs !! id.

Lemma registered_sender p channel id : registered p channel id ↔ is_Some (sender_of p channel id).
Proof.
  unfold registered, sender_of. destruct (channels p !! channel) as [subs|]; simpl.
  - split; [by intros (? & [= ->] & ?)|]. intros ?. by exists subs.
  - split; [by intros (? & ? & ?)|]. by intros [? ?].
Qed.

Lemma subscribe_sender p ch id sender ch' id' :
  sender_of (subscribe ch id sender p).2 ch' id' =
    if decide (ch' = ch ∧ id' = id) then Some sender else sender_of p ch' id'.
Proof.
  unfold sender_of. simpl. destruct (decide (ch' = ch)) as [->|Hc].
  - rewrite lookup_insert_eq. simpl. destruct (decide (id' = id)) as [->|Hi].
    + rewrite lookup_insert_eq. by rewrite decide_True.
    + rewrite lookup_insert_ne by done. rewrite decide_False by naive_solver.
      by destruct (channels p !! ch).
  - rewrite lookup_insert_ne by done. rewrite decide_False by naive_solver. done.
Qed.

Lemma unsubscribe_sender p ch id ch' id' :
  sender_of (unsubscribe ch id p).2 ch' id' =
    if decide (ch' = ch ∧ id' = id) then None else sender_of p ch' id'.
Proof.
  unfold sender_of. simpl. destruct (channels p !! ch) as [subs|] eqn:E.
  - destruct (decide (ch' = ch)) as [->|Hc].
    + rewrite E. simpl. case_decide as He.
      * rewrite lookup_delete_eq. simpl. case_decide; [done|].
        assert (Hn : delete id subs !! id' = None) by (rewrite He; apply lookup_empty).
        rewrite lookup_delete_ne in Hn by naive_solver. done.
      * rewrite lookup_insert_eq. simpl. destruct (decide (id' = id)) as [->|Hi].
        -- rewrite lookup_delete_eq. by rewrite decide_True.
        -- rewrite lookup_delete_ne by done. by rewrite decide_False by naive_solver.
    + rewrite (decide_False (P := ch' = ch ∧ _)) by naive_solver.
      case_decide; [by rewrite lookup_delete_ne|by rewrite lookup_insert_ne].
  - case_decide as H; [|done]. destruct H as [-> ->]. by rewrite E.
Qed.

Lemma subscribe_no_empty p ch id sender :
  no_empty_channel p → no_empty_channel (subscribe ch id sender p).2.
Proof. intros H. apply map_Forall_insert_2; [apply insert_non_empty|done]. Qed.

Lemma unsubscribe_no_empty p ch id : no_empty_channel p → no_empty_channel (unsubscribe ch id p).2.
Proof.
  intros H. unfold no_empty_channel. simpl. destruct (channels p !! ch) as [subs|] eqn:E; [|done].
  case_decide; [by apply map_Forall_delete|by apply map_Forall_insert_2].
Qed.

(** * Delivery *)

Definition is_open (m : Mail) (s : Sender) : Prop := is_Some (mailbox s m).
#[export] Instance is_open_dec m s : Decision (is_open m s).
Proof. unfold is_open. apply _. Defined.

(** A send reaches its own mailbox, if there is one, and no other. *)
Lemma send_deliver s msg m :
  (send s msg m).1 = bool_decide (is_open m s) ∧
  mailbox s (send s msg m).2 = (λ q, q ++ [msg]) <$> mailbox s m ∧
  ∀ s', s' ≠ s → mailbox s' (send s msg m).2 = mailbox s' m.
Proof.
  pose proof (send_spec s msg m) as H. case_bool_decide as Ho; unfold is_open in Ho.
  - destruct Ho as [q Hq]. rewrite Hq in *. tauto.
  - apply eq_None_not_Some in Ho. rewrite Ho in *. rewrite H. simpl. by rewrite Ho.
Qed.

Lemma deliver_all msg (l : list (Z * Sender)) m n :
  NoDup l.*2 →
  let '(n', m') := for_fold l n (λ received s,
    ok ← send s.2 msg; mret (if (ok : bool) then received + 1 else received)) m in
  n' = n + Z.of_nat (length (filter (is_open m) l.*2)) ∧
  (∀ s, s ∈ l.*2 → mailbox s m' = (λ q, q ++ [msg]) <$> mailbox s m) ∧
  (∀ s, s ∉ l.*2 → mailbox s m' = mailbox s m).
Proof.
  revert m n. induction l as [|[id s] l IH]; intros m n Hnd; cbn [for_fold].
  { simpl. split_and!; [lia|set_solver|done]. }
  simpl in Hnd. inversion Hnd as [|? ? Hs Hnd']; subst.
  unfold mbind, state_bind. simpl.
  destruct (send_deliver s msg m) as (Hok & Hself & Hother).
  destruct (send s msg m) as [ok m1]; simpl in *.
  specialize (IH m1 (if ok then n + 1 else n) Hnd').
  destruct (for_fold l _ _ m1) as [n' m']. destruct IH as (Hn & Hin & Hout).
  assert (Hopen : filter (is_open m1) l.*2 = filter (is_open m) l.*2).
  { apply list_filter_iff'. intros s' Hs'. unfold is_open. rewrite Hother; [done|]. by intros ->. }
  split_and!.
  - change (list_fmap _ _ snd l) with (l.*2) in *. rewrite Hn, Hopen, filter_cons, Hok.
    case_bool_decide; [rewrite decide_True by done|by rewrite decide_False].
    cbn [length]. lia.
  - intros s' [->|Hs']%elem_of_cons; [by rewrite Hout|]. rewrite Hin by done.
    rewrite Hother; [done|]. by intros ->.
  - intros s' [Hne Hs']%not_elem_of_cons. by rewrite Hout, Hother.
Qed.

(** The same channels, each with its receiver there or gone as before. *)
Definition same_mailboxes (m m' : Mail) : Prop :=
  ∀ s, (known s m' ↔ known s m) ∧ (is_open m' s ↔ is_open m s).

#[export] Instance same_mailboxes_preorder : PreOrder same_mailboxes.
Proof.
  split; [done|]. intros m1 m2 m3 H H' s. by rewrite (proj1 (H' s)), (proj2 (H' s)).
Qed.

Lemma send_same s msg m : same_mailboxes m (send s msg m).2.
Proof.
  intros s'. split; [apply send_known|]. destruct (send_deliver s msg m) as (_ & Hself & Hother).
  unfold is_open. destruct (decide (s' = s)) as [->|Hs]; [|by rewrite Hother].
  by rewrite Hself, fmap_is_Some.
Qed.

Lemma poll_recv_same s m : same_mailboxes m (poll_recv s m).2.
Proof.
  intros s'. split; [apply poll_recv_known|]. pose proof (poll_recv_spec s m) as H. unfold is_open.
  destruct (mailbox s m) as [[|msg q]|] eqn:E; [by rewrite H| |by rewrite H].
  destruct H as (_ & Hself & Hother). destruct (decide (s' = s)) as [->|Hs]; [|by rewrite Hother].
  by rewrite Hself, E.
Qed.

(** Publishing opens and closes no channel. *)
Lemma publish_same ch payload p m : same_mailboxes m (publish ch payload p m).2.
Proof.
  unfold publish. destruct (channels p !! ch) as [subs|]; [|done].
  generalize (iter_ids subs) as l. generalize 0 as n. intros n l. revert n m.
  induction l as [|[i s'] l IH]; intros n m; cbn [for_fold]; [done|].
  unfold mbind, state_bind. simpl. pose proof (send_same s' (message ch payload) m) as Hs.
  destruct (send s' (message ch payload) m) as [ok m1]. simpl in *. etrans; [exact Hs|apply IH].
Qed.

(** Each connection has a mailbox of its own. *)
Definition own_mailboxes (p : PubSub) : Prop :=
  ∀ ch id id' s, sender_of p ch id = Some s → sender_of p ch id' = Some s → id = id'.

Lemma own_senders_NoDup p ch subs :
  own_mailboxes p → channels p !! ch = Some subs → NoDup (iter_ids subs).*2.
Proof.
  intros Hown Hch. rewrite iter_ids_perm. apply NoDup_fmap_2_strong; [|apply NoDup_map_to_list].
  intros [i s] [j s'] Hi%elem_of_map_to_list Hj%elem_of_map_to_list Heq. simpl in Heq. subst.
  assert (i = j) as ->; [|done].
  apply (Hown ch i j s'); unfold sender_of; by rewrite Hch.
Qed.

(** The subscribers of a channel. *)
Definition subscribers_of (p : PubSub) (ch : string) : gmap Z Sender :=
  default ∅ (channels p !! ch).

Lemma elem_of_subscribers p ch s :
  s ∈ (iter_ids (subscribers_of p ch)).*2 ↔ ∃ id, sender_of p ch id = Some s.
Proof.
  unfold subscribers_of, sender_of. rewrite iter_ids_perm, list_elem_of_fmap. split.
  - intros ([id s'] & -> & H%elem_of_map_to_list). exists id.
    destruct (channels p !! ch); [done|]. cbn [from_option] in H. by rewrite lookup_empty in H.
  - intros (id & H). exists (id, s). split; [done|]. apply elem_of_map_to_list.
    by destruct (channels p !! ch).
Qed.

Lemma publish_spec ch payload p m :
  own_mailboxes p →
  let '(n, m') := publish ch payload p m in
  n = Z.of_nat (length (filter (is_open m) (iter_ids (subscribers_of p ch)).*2)) ∧
  (∀ s, (∃ id, sender_of p ch id = Some s) →
     mailbox s m' = (λ q, q ++ [message ch payload]) <$> mailbox s m) ∧
  (∀ s, ¬ (∃ id, sender_of p ch id = Some s) → mailbox s m' = mailbox s m).
Proof.
  intros Hown. assert (Hsame : publish ch payload p m =
    for_fold (iter_ids (subscribers_of p ch)) 0 (λ received s,
      ok ← send s.2 (message ch payload);
      mret (if (ok : bool) then received + 1 else received)) m).
  { unfold publish, subscribers_of. destruct (channels p !! ch); [done|]. simpl.
    assert (iter_ids (∅ : gmap Z Sender) = []) as ->; [|done].
    apply Permutation_nil_r. by rewrite iter_ids_perm, map_to_list_empty. }
  rewrite Hsame. pose proof (deliver_all (message ch payload) (iter_ids (subscribers_of p ch)) m 0) as H.
  destruct (for_fold _ _ _ m) as [n m']. destruct H as (Hn & Hin & Hout).
  { unfold subscribers_of. destruct (channels p !! ch) as [subs|] eqn:E; [by eapply own_senders_NoDup|].
    simpl. rewrite iter_ids_perm, map_to_list_empty. constructor. }
  split; [lia|]. split; intros s Hs.
  - by apply Hin, elem_of_subscribers.
  - apply Hout. by rewrite elem_of_subscribers.
Qed.
End pubsub.
