(* ===== verification/FileSystem.v ===== *)
(** The file system, as the code uses it.

    [tokio::fs] is not code of this repository: an instance of [FileSystem] gives
    its operations, with the outcome of each left to the instance.  The laws are
    the documented effect of an operation that succeeds on the contents of the
    files; they say nothing of when an operation fails. A path is identified with
    the file it names: two paths that alias, by links or as [./x] and [x] do, are
    outside the model. *)

From S2P Require Import Prelude RustStr.
Local Open Scope Z_scope.

Class FileSystem : Type := {
  Fs : Type;
  (** A file opened for appending. *)
  File : Type;
  IoError : Type;
  io_not_found : IoError → bool;
  io_text : IoError → string;
  (** [io::Error::other] *)
  io_other : string → IoError;
  (** [Error::new(ErrorKind::InvalidInput, cause)] *)
  io_invalid_input : string → IoError;

  open_append : string → Fs → result File IoError * Fs;
  write_all : File → string → Fs → result unit IoError * Fs;
  sync_data : File → Fs → result unit IoError * Fs;
  read_file : string → Fs → result string IoError;
  write_file : string → string → Fs → result unit IoError * Fs;
  rename_file : string → string → Fs → result unit IoError * Fs;

  content : string → Fs → option string;
  file_path : File → string;

  read_file_ok p fs b : read_file p fs = Ok b → content p fs = Some b;
  read_file_missing p fs :
    content p fs = None → ∃ e, read_file p fs = Err e ∧ io_not_found e = true;
  open_append_ok p fs f fs' :
    open_append p fs = (Ok f, fs') →
    file_path f = p ∧ content p fs' = Some (default "" (content p fs)) ∧
    ∀ q, q ≠ p → content q fs' = content q fs;
  write_all_ok f s fs fs' :
    write_all f s fs = (Ok tt, fs') →
    content (file_path f) fs' = Some (default "" (content (file_path f) fs) +:+ s) ∧
    ∀ q, q ≠ file_path f → content q fs' = content q fs;
  sync_data_ok f fs q : content q (sync_data f fs).2 = content q fs;
  write_file_ok p s fs fs' :
    write_file p s fs = (Ok tt, fs') →
    content p fs' = Some s ∧ ∀ q, q ≠ p → content q fs' = content q fs;
  write_file_err p s fs e fs' :
    write_file p s fs = (Err e, fs') → ∀ q, q ≠ p → content q fs' = content q fs;
  rename_file_ok p q fs fs' :
    p ≠ q → rename_file p q fs = (Ok tt, fs') →
    content q fs' = content p fs ∧ content p fs' = None ∧
    ∀ r, r ≠ p → r ≠ q → content r fs' = content r fs;
  rename_file_err p q fs e fs' :
    rename_file p q fs = (Err e, fs') → ∀ r, content r fs' = content r fs
}.

(** A disk in memory on which everything succeeds, for concrete examples. *)
Definition memory_fs : FileSystem.
Proof.
  refine {|
    Fs := gmap string string;
    File := string;
    IoError := bool * string;
    io_not_found e := e.1;
    io_text e := e.2;
    io_other s := (false, s);
    io_invalid_input s := (false, s);
    open_append p fs := (Ok p, <[p := default "" (fs !! p)]> fs);
    write_all f s fs := (Ok tt, <[f := default "" (fs !! f) +:+ s]> fs);
    sync_data f fs := (Ok tt, fs);
    read_file p fs := ok_or (fs !! p) (true, "No such file or directory");
    write_file p s fs := (Ok tt, <[p := s]> fs);
    rename_file p q fs :=
      match fs !! p with
      | Some s => (Ok tt, <[q := s]> (delete p fs))
      | None => (Err (true, "No such file or directory"), fs)
      end;
    content p fs := fs !! p;
    file_path f := f
  |}.
  - intros p fs b. apply ok_or_ok.
  - intros p fs ->. by eexists.
  - intros p fs f fs' [= <- <-]. split_and!; [done|by rewrite lookup_insert_eq|].
    intros q Hq. by rewrite lookup_insert_ne.
  - intros f s fs fs' [= <-]. split; [by rewrite lookup_insert_eq|].
    intros q Hq. by rewrite lookup_insert_ne.
  - done.
  - intros p s fs fs' [= <-]. split; [by rewrite lookup_insert_eq|].
    intros q Hq. by rewrite lookup_insert_ne.
  - done.
  - intros p q fs fs' Hpq. destruct (fs !! p) as [s|]; [|done]. intros [= <-].
    rewrite lookup_insert_eq, lookup_insert_ne, lookup_delete_eq by done.
    split_and!; [done|done|]. intros r Hrp Hrq. by rewrite lookup_insert_ne, lookup_delete_ne.
  - intros p q fs e fs'. by destruct (fs !! p) as [s|]; [|intros [= <- <-]].
Defined.
