(* ===== verification/Aof.v ===== *)
(** The append-only file ([aof.rs]): a log of the mutating commands, each in the
    framing clients send. *)

From S2P Require Import Prelude RustStr Resp FileSystem.
Local Open Scope Z_scope.

Inductive FsyncPolicy := Always | EverySec | No.

#[export] Instance FsyncPolicy_eq_dec : EqDecision FsyncPolicy.
Proof. solve_decision. Defined.

(** [FromStr for FsyncPolicy] *)
Definition policy_from_str (value : string) : result FsyncPolicy string :=
  let other := to_ascii_lowercase value in
  if decide (other = "always") then Ok Always
  else if decide (other = "everysec") then Ok EverySec
  else if decide (other = "no") then Ok No
  else Err ("unknown fsync policy '" +:+ other +:+ "' (expected always, everysec, or no)").

Section aof.
Context {FS : FileSystem}.

Record Aof := { file : File; policy : FsyncPolicy }.

(** [Aof::open] *)
Definition aof_open (path : string) (policy : FsyncPolicy) : State Fs (result Aof IoError) :=
  f ← open_append path;
  mret (let? f := f in Ok {| file := f; policy := policy |}).

(** [Aof::append]: one critical section of the file's mutex. *)
Definition append (aof : Aof) (tokens : list string) : State Fs (result unit IoError) :=
  written ← write_all (file aof) (array tokens);
  match written with
  | Err e => mret (Err e)
  | Ok _ => if decide (policy aof = Always) then sync_data (file aof) else mret (Ok tt)
  end.

(** [Aof::sync] *)
Definition sync (aof : Aof) : State Fs (result unit IoError) := sync_data (file aof).

(** The log of a sequence of commands. *)
Definition log_of (commands : list (list string)) : string := concat_all (array <$> commands).

Lemma log_of_app l1 l2 : log_of (l1 ++ l2) = log_of l1 +:+ log_of l2.
Proof. unfold log_of. by rewrite fmap_app, concat_all_app. Qed.

Lemma log_of_snoc commands tokens : log_of (commands ++ [tokens]) = log_of commands +:+ array tokens.
Proof. unfold log_of. rewrite fmap_app, concat_all_app. simpl. by rewrite sapp_nil_r. Qed.

Lemma append_content aof tokens fs fs' :
  append aof tokens fs = (Ok tt, fs') →
  content (file_path (file aof)) fs' =
    Some (default "" (content (file_path (file aof)) fs) +:+ array tokens) ∧
  ∀ q, q ≠ file_path (file aof) → content q fs' = content q fs.
Proof.
  unfold append, mbind, state_bind.
  destruct (write_all (file aof) (array tokens) fs) as [[[]|e] fs1] eqn:E; [|done].
  apply write_all_ok in E as [Hself Hother]. case_decide.
  - intros Hs. pose proof (sync_data_ok (file aof) fs1) as Hsync. rewrite Hs in Hsync. simpl in Hsync.
    split; [by rewrite Hsync|]. intros q Hq. rewrite Hsync. auto.
  - intros [= <-]. auto.
Qed.

Lemma append_logs aof fs fs' base tokens :
  content (file_path (file aof)) fs = Some base →
  append aof tokens fs = (Ok tt, fs') →
  content (file_path (file aof)) fs' = Some (base +:+ log_of [tokens]).
Proof. intros Hc [-> _]%append_content. rewrite Hc. unfold log_of. simpl. by rewrite sapp_nil_r. Qed.
End aof.
