(* ===== verification/Snapshot.v ===== *)
(** Snapshots ([snapshot.rs], and [snapshot] / [load_snapshot] of [db.rs]).

    The serialised form is a flat list of entries.  [serde_json] is not code of
    this repository: an instance of [Serde] gives the encoder and the decoder,
    with the documented law that what was encoded decodes to the same value. *)

From S2P Require Import Prelude Task RustInt RustStr RustF64 F64Text HashOrder BTree Ranges RList Clock.
From S2P Require Import Store Database Keyspace KeyOps Invariant.
From S2P Require RSet RHash RSortedSet.
Local Open Scope Z_scope.

Inductive SerValue :=
| SStr (s : string)
| SList (items : list string)
| SSet (items : list string)
| SZSet (items : list (string * string))
| SHash (items : list (string * string)).

Record SnapshotEntry := { entry_key : string; ttl_secs : option Z; ser_value : SerValue }.
Record Snapshot := { entries : list SnapshotEntry }.

Class Serde : Type := {
  to_vec_pretty : Snapshot → result string string;
  from_slice : string → result Snapshot string;
  from_to s json : to_vec_pretty s = Ok json → from_slice json = Ok s
}.

Section snapshot.
Context {CK : Clock} {HO : HashOrder} {OF : OrderedFloat}.

Definition ser_of (v : Value) : SerValue :=
  match v with
  | VStr s => SStr s
  | VList l => SList (RList.lrange l 0 (-1))
  | VSet s => SSet (RSet.smembers s)
  | VSortedSet z =>
      SZSet ((λ '(m, sc), (m, f64_to_string sc)) <$> RSortedSet.zrange_with_scores z 0 (-1))
  | VHash h => SHash (RHash.hgetall h)
  end.

(** One element of the snapshot; [now] is the instant the snapshot began at. *)
Definition snapshot_entry (now : Instant) (p : string * Entry) : SnapshotEntry :=
  {| entry_key := p.1;
     ttl_secs := (λ deadline, as_secs (saturating_duration_since deadline now)) <$> expires_at p.2;
     ser_value := ser_of (value p.2) |}.

Definition snapshot : State DbState Snapshot :=
  t ← now;
  live ← live_entries;
  mret {| entries := snapshot_entry t <$> live |}.

Definition value_of (v : SerValue) : Value :=
  match v with
  | SStr s => VStr s
  | SList items => VList (fold_left RList.rpush items RList.new)
  | SSet items => VSet (fold_left (λ set item, (RSet.sadd set item).2) items RSet.new)
  | SZSet items =>
      VSortedSet (fold_left (λ z '(m, score),
        (RSortedSet.zadd z (default f64_zero (parse_f64 score)) m).2) items RSortedSet.new)
  | SHash items =>
      VHash (fold_left (λ h '(f, v), (RHash.hset h f v).2) items RHash.new)
  end.

Definition load_entry (e : SnapshotEntry) : State DbState unit :=
  expires_at ← deadline_of (ttl_secs e);
  insert_entry (entry_key e) {| value := value_of (ser_value e); expires_at := expires_at |}.

Definition load_snapshot (s : Snapshot) : State DbState unit :=
  set_store (λ _, ∅) ;; for_each (entries s) load_entry.

(** * A value survives the round trip *)

(** What a value is in the program: its lengths fit in an [i64], and its scores are
    64-bit doubles. *)
Definition representable (v : Value) : Prop :=
  match v with
  | VList l => valid_len (RList.len l)
  | VSortedSet z =>
      valid_len (RSortedSet.tree_len z) ∧
      map_Forall (λ _, f64_valid) (RSortedSet.members z)
  | _ => True
  end.

Lemma load_set (s : gset string) :
  fold_left (λ set item, (RSet.sadd set item).2) (RSet.smembers s) RSet.new = s.
Proof.
  assert (H : ∀ l acc, fold_left (λ set item, (RSet.sadd set item).2) l acc = list_to_set l ∪ acc).
  { induction l as [|x l IH]; intros acc; cbn [fold_left list_to_set]; [set_solver|].
    rewrite IH. simpl. set_solver. }
  rewrite H. apply set_eq. intros x. unfold RSet.smembers, RSet.new.
  rewrite elem_of_union, elem_of_list_to_set, elem_of_iter_set. set_solver.
Qed.

Lemma load_hash (h : gmap string string) :
  fold_left (λ h '(f, v), (RHash.hset h f v).2) (RHash.hgetall h) RHash.new = h.
Proof.
  assert (H : ∀ l acc, NoDup l.*1 →
    fold_left (λ h '(f, v), (RHash.hset h f v).2) l acc = list_to_map l ∪ acc).
  { induction l as [|[f v] l IH]; intros acc Hnd; cbn [fold_left].
    { symmetry. apply (map_empty_union acc). }
    simpl in Hnd. inversion Hnd as [|? ? Hf Hnd']; subst. rewrite IH by done.
    unfold RHash.hset. cbn [snd].
    rewrite list_to_map_cons, <- insert_union_l, insert_union_r; [done|].
    by apply not_elem_of_list_to_map_1. }
  rewrite H by apply NoDup_iter_map_keys. unfold RHash.hgetall, RHash.new.
  rewrite map_union_empty. rewrite (list_to_map_proper _ (map_to_list h)).
  - apply list_to_map_to_list.
  - apply NoDup_iter_map_keys.
  - apply iter_map_perm.
Qed.

Lemma load_zset z :
  RSortedSet.zset_ok z → valid_len (RSortedSet.tree_len z) →
  map_Forall (λ _, f64_valid) (RSortedSet.members z) →
  value_of (ser_of (VSortedSet z)) = VSortedSet z.
Proof.
  intros Hz Hlen Hvalid. cbn [ser_of value_of]. f_equal.
  unfold RSortedSet.zrange_with_scores, RSortedSet.tree_len in *.
  pose proof (resolve_all (RSortedSet.sorted z) Hlen) as Hall.
  assert (Hpairs : match resolve_range 0 (-1) (Z.of_nat (length (RSortedSet.sorted z))) with
    | Some (start, stop) =>
        (λ e, (RSortedSet.member e, RSortedSet.score e)) <$> slice start stop (RSortedSet.sorted z)
    | None => []
    end = (λ e, (RSortedSet.member e, RSortedSet.score e)) <$> RSortedSet.sorted z).
  { rewrite <- Hall at 2. by destruct (resolve_range _ _ _) as [[]|]. }
  rewrite Hpairs. clear Hpairs Hall. rewrite <- list_fmap_compose.
  pose proof (RSortedSet.tree_map_to_list z Hz) as Hperm.
  set (pairs := (λ e, (RSortedSet.member e, RSortedSet.score e)) <$> RSortedSet.sorted z) in *.
  assert (Hfold : ∀ acc,
    fold_left (λ z '(m, score), (RSortedSet.zadd z (default f64_zero (parse_f64 score)) m).2)
      (((λ '(m, sc), (m, f64_to_string sc)) ∘ λ e, (RSortedSet.member e, RSortedSet.score e))
         <$> RSortedSet.sorted z) acc =
    fold_left (λ z '(m, s), (RSortedSet.zadd z s m).2) pairs acc).
  { assert (Hok : ∀ e, e ∈ RSortedSet.sorted z →
      parse_f64 (f64_to_string (RSortedSet.score e)) = Some (RSortedSet.score e)).
    { intros e He. apply f64_text_reads, (Hvalid (RSortedSet.member e)).
      by apply RSortedSet.sync_member. }
    unfold pairs. revert Hok. generalize (RSortedSet.sorted z). clear.
    induction l as [|e l IH]; intros Hok acc; [done|]. cbn. rewrite (Hok e) by left. simpl.
    apply IH. intros e' He'. apply Hok. by right. }
  rewrite Hfold. destruct (RSortedSet.zadd_fresh pairs RSortedSet.new) as [Hok Hm].
  - rewrite Hperm. apply NoDup_fst_map_to_list.
  - done.
  - apply RSortedSet.new_ok.
  - apply RSortedSet.zset_ext; [done|done|]. rewrite Hm. unfold RSortedSet.new. simpl.
    rewrite map_union_empty. rewrite (list_to_map_proper pairs (map_to_list (RSortedSet.members z)));
      [apply list_to_map_to_list| |done].
    rewrite Hperm. apply NoDup_fst_map_to_list.
Qed.

Lemma value_roundtrip v : value_wf v → representable v → value_of (ser_of v) = v.
Proof.
  intros Hwf Hser. destruct v as [s|l|s|z|h].
  - done.
  - cbn [ser_of value_of]. f_equal. unfold RList.lrange, RList.len in *.
    rewrite resolve_all by done. unfold RList.rpush. by rewrite fold_left_snoc.
  - cbn [ser_of value_of]. f_equal. apply load_set.
  - apply load_zset; [apply Hwf|apply Hser..].
  - cbn [ser_of value_of]. f_equal. apply load_hash.
Qed.

(** * A keyspace survives the round trip *)

Lemma load_entry_eq e s :
  ∃ n, (tick s ≤ n)%nat ∧
    load_entry e s = (tt, {| store := <[entry_key e :=
        {| value := value_of (ser_value e); expires_at := ttl_secs e ≫= deadline_from (instant s) |}]>
        (store s); tick := n |}).
Proof.
  unfold load_entry, deadline_of, mbind, state_bind. destruct (ttl_secs e) as [z|]; simpl.
  - exists (S (tick s)). split; [lia|done].
  - exists (tick s). split; [lia|]. by destruct s.
Qed.

Lemma load_entries_spec es s :
  NoDup (entry_key <$> es) →
  let s' := (for_each es load_entry s).2 in
  (tick s ≤ tick s')%nat ∧
  (∀ e, e ∈ es → ∃ n, (tick s ≤ n ≤ tick s')%nat ∧
     store s' !! entry_key e =
       Some {| value := value_of (ser_value e);
               expires_at := ttl_secs e ≫= deadline_from (instant_at n) |}) ∧
  (∀ k, k ∉ entry_key <$> es → store s' !! k = store s !! k).
Proof.
  revert s. induction es as [|e es IH]; intros s Hnd; cbn [for_each].
  { simpl. split_and!; set_solver. }
  rewrite fmap_cons in Hnd. inversion Hnd as [|? ? He Hnd']; subst.
  unfold mbind, state_bind. destruct (load_entry_eq e s) as (n & Hn & ->).
  match goal with |- context [for_each es load_entry ?s1] => destruct (IH s1 Hnd') as (Ht & Hin & Hout) end.
  set (s' := (for_each es load_entry _).2) in *. simpl in Ht, Hin, Hout. split_and!; [lia| |].
  - intros e' [->|He']%elem_of_cons.
    + exists (tick s). split; [lia|]. rewrite Hout by done. by rewrite lookup_insert_eq.
    + destruct (Hin e' He') as (m & Hm & Hst). exists m. split; [lia|done].
  - intros k. rewrite fmap_cons, not_elem_of_cons. intros [Hk Hks]. rewrite Hout by done.
    by rewrite lookup_insert_ne.
Qed.

Lemma snapshot_spec s :
  let '(snap, s') := snapshot s in
  store s' = store s ∧ (tick s ≤ tick s')%nat ∧ NoDup (entry_key <$> entries snap) ∧
  (∀ x, x ∈ entries snap → ∃ k e, x = snapshot_entry (instant s) (k, e) ∧
     store s !! k = Some e ∧ live_at (instant s) e) ∧
  (∀ k e, store s !! k = Some e → live_at (instant s') e →
     snapshot_entry (instant s) (k, e) ∈ entries snap).
Proof.
  unfold snapshot. unfold mbind at 1, state_bind at 1. cbn [now].
  unfold mbind, state_bind. set (s1 := {| store := store s; tick := S (tick s) |}).
  pose proof (live_entries_spec s1) as H. destruct (live_entries s1) as [l s'].
  destruct H as (Hst & Ht & Hnd & Hlo & Hhi). simpl in *. split_and!; [done|lia| | |].
  - rewrite <- list_fmap_compose. exact Hnd.
  - intros x ([k e] & -> & Hx)%list_elem_of_fmap. exists k, e. split; [done|].
    eapply elem_of_sublist in Hx; [|exact Hhi].
    apply list_elem_of_filter in Hx as [Hlive Hx%elem_of_iter_map]. split; [done|].
    simpl in Hlive. unfold live_at in *. destruct (expired_at (instant s) e) eqn:X; [|done].
    rewrite (expired_later (instant s) (instant s1)) in Hlive; [done| |done]. apply instant_le. simpl. lia.
  - intros k e Hk Hlive. apply list_elem_of_fmap. exists (k, e). split; [done|].
    eapply elem_of_sublist; [|exact Hlo]. apply list_elem_of_filter. split; [done|].
    by apply elem_of_iter_map.
Qed.
End snapshot.

(** * Restoring

    The server that loads a snapshot has a clock and hash tables of its own. *)

Section restoring.
Context {OF : OrderedFloat} {CK1 CK2 : Clock} {HO1 HO2 : HashOrder}.

(** What a restored entry is: the value of the original, and a deadline as far
    from the loading as the original's was from the snapshot, whole seconds. *)
Definition restored (t t' : Instant) (e e' : Entry) : Prop :=
  value e' = value e ∧
  expires_at e' =
    (expires_at e ≫= λ d, deadline_from t' (as_secs (saturating_duration_since d t))).

Lemma snapshot_load s s2 :
  db_wf s → map_Forall (λ _ e, representable (value e)) (store s) →
  let '(snap, s1) := snapshot (CK := CK1) (HO := HO1) s in
  let s3 := (load_snapshot (CK := CK2) snap s2).2 in
  (∀ k e', store s3 !! k = Some e' →
     ∃ e n, store s !! k = Some e ∧ live_at (instant (CK := CK1) s) e ∧ (tick s2 ≤ n ≤ tick s3)%nat ∧
            restored (instant (CK := CK1) s) (instant_at (Clock := CK2) n) e e') ∧
  (∀ k e, store s !! k = Some e → live_at (instant (CK := CK1) s1) e → is_Some (store s3 !! k)).
Proof.
  intros Hwf Hser. pose proof (snapshot_spec (CK := CK1) (HO := HO1) s) as H.
  destruct (snapshot s) as [snap s1].
  destruct H as (_ & _ & Hnd & Hin & Hcover).
  unfold load_snapshot. unfold mbind at 1, state_bind at 1. cbn [set_store modify].
  match goal with |- context [for_each _ _ ?s0] =>
    destruct (load_entries_spec (CK := CK2) (entries snap) s0 Hnd) as (Ht & Hload & Hrest) end.
  set (s3 := (for_each _ _ _).2) in *. cbn [tick store] in *. split.
  - intros k e' Hk. destruct (decide (k ∈ entry_key <$> entries snap)) as [Hkin|Hkout].
    + apply list_elem_of_fmap in Hkin as (x & -> & Hx).
      destruct (Hload x Hx) as (n & Hn & Hst). destruct (Hin x Hx) as (k & e & -> & Hke & Hlive).
      simpl in *. rewrite Hst in Hk. injection Hk as <-. exists e, n.
      split; [done|]. split; [done|]. split; [done|]. split; simpl.
      * apply value_roundtrip; [by apply (Hwf k)|by apply (Hser k)].
      * by destruct (expires_at e).
    + rewrite Hrest in Hk by done. by rewrite lookup_empty in Hk.
  - intros k e Hk Hlive. specialize (Hcover k e Hk Hlive).
    destruct (Hload _ Hcover) as (n & _ & Hst). simpl in Hst. by eexists.
Qed.

(** A restored key lives no longer from its loading than the original had left
    when the snapshot was taken. *)
Lemma restored_time t t' e e' d d' :
  restored t t' e e' → t ≤ d → expires_at e = Some d → expires_at e' = Some d' →
  d - t - nanos_per_sec < d' - t' ≤ d - t.
Proof.
  intros [_ He'] Ht He Hd'. rewrite He' in Hd'. rewrite He in Hd'. simpl in Hd'.
  unfold deadline_from, checked_add_instant in Hd'. case_decide; [|done]. injection Hd' as <-.
  unfold from_secs, as_secs, saturating_duration_since, nanos_per_sec.
  pose proof (Z.mul_div_le ((d - t) `max` 0) (10 ^ 9) ltac:(lia)).
  pose proof (Z.mul_succ_div_gt ((d - t) `max` 0) (10 ^ 9) ltac:(lia)). lia.
Qed.
End restoring.
