(* ===== verification/World.v ===== *)
(** The shared state of the server: what the clones of a [Database] point to
    ([db.rs]), with the parts of the environment its operations reach.

    Every operation of [Database] becomes a [Task] on the whole [World]; the
    store, the registry, the log and the counters each have a lock or an atomic
    of their own, so an operation that touches two of them has a critical section
    for each. *)

From S2P Require Import Prelude Task RustInt RustStr RustPath RustF64 HashOrder Clock Store.
From S2P Require Import Database PubSub FileSystem Aof Snapshot.
Local Open Scope Z_scope.

(** The id of the process. *)
Class Process : Type := { process_id : Z }.

(** The path of a temporary file:
    [path.with_extension(format!("tmp.{}.{unique}", std::process::id()))]. *)
Definition temp_path {PR : Process} (path : string) (unique : Z) : string :=
  with_extension path ("tmp." +:+ int_to_string process_id +:+ "." +:+ int_to_string unique).

Lemma temp_path_ne {PR : Process} path n : has_file_name path → temp_path path n ≠ path.
Proof.
  intros Hpath. destruct (int_text_last n) as (c & r & Hrev & [d Hd]).
  set (front := "tmp." +:+ int_to_string process_id +:+ ".").
  apply (with_extension_ne path _ c (r ++ reverse (bytes_of front))); [done| | | |].
  - fold front. rewrite !bytes_of_app, !reverse_app, Hrev. cbn [app].
    unfold front. rewrite !bytes_of_app, !reverse_app, <- !app_assoc. reflexivity.
  - intros ->. discriminate Hd.
  - intros ->. discriminate Hd.
  - apply elem_of_app. right. apply elem_of_reverse. unfold front. rewrite bytes_of_app.
    apply elem_of_app. left. unfold dot. cbn. rewrite !elem_of_cons. tauto.
Qed.

Section world.
Context {CK : Clock} {HO : HashOrder} {OF : OrderedFloat} {MP : Mpsc} {FS : FileSystem}
  {SD : Serde} {TP : Process}.

Record Stats := { started_at : Instant; connected_clients : Z }.

Record Persistence := {
  snapshot_path : option string;
  aof : option Aof;
  replaying : bool
}.

Record World := {
  db : DbState;
  stats : Stats;
  persistence : Persistence;
  pubsub : PubSub;
  mail : Mail;
  fs : Fs;
  temp_counter : Z
}.

Definition set_db (d : DbState) (w : World) : World :=
  {| db := d; stats := stats w; persistence := persistence w; pubsub := pubsub w;
     mail := mail w; fs := fs w; temp_counter := temp_counter w |}.
Definition set_stats (s : Stats) (w : World) : World :=
  {| db := db w; stats := s; persistence := persistence w; pubsub := pubsub w;
     mail := mail w; fs := fs w; temp_counter := temp_counter w |}.
Definition set_persistence (p : Persistence) (w : World) : World :=
  {| db := db w; stats := stats w; persistence := p; pubsub := pubsub w;
     mail := mail w; fs := fs w; temp_counter := temp_counter w |}.
Definition set_pubsub (p : PubSub) (w : World) : World :=
  {| db := db w; stats := stats w; persistence := persistence w; pubsub := p;
     mail := mail w; fs := fs w; temp_counter := temp_counter w |}.
Definition set_mail (m : Mail) (w : World) : World :=
  {| db := db w; stats := stats w; persistence := persistence w; pubsub := pubsub w;
     mail := m; fs := fs w; temp_counter := temp_counter w |}.
Definition set_fs (f : Fs) (w : World) : World :=
  {| db := db w; stats := stats w; persistence := persistence w; pubsub := pubsub w;
     mail := mail w; fs := f; temp_counter := temp_counter w |}.
Definition set_temp_counter (n : Z) (w : World) : World :=
  {| db := db w; stats := stats w; persistence := persistence w; pubsub := pubsub w;
     mail := mail w; fs := fs w; temp_counter := n |}.

Definition on_db {A} (t : Task DbState A) : Task World A := on_part db set_db t.
Definition on_pubsub {A} (m : State PubSub A) : Task World A :=
  atomically (part_state pubsub set_pubsub m).
Definition on_mail {A} (m : State Mail A) : Task World A :=
  atomically (part_state mail set_mail m).
Definition on_fs {A} (m : State Fs A) : Task World A := atomically (part_state fs set_fs m).

(** [Database::with_persistence] *)
Definition with_persistence (t0 : Instant) (snapshot_path : option string) (aof : option Aof)
    (mail : Mail) (fs : Fs) (ticks : nat) : World :=
  {| db := {| store := ∅; tick := ticks |};
     stats := {| started_at := t0; connected_clients := 0 |};
     persistence := {| snapshot_path := snapshot_path; aof := aof; replaying := false |};
     pubsub := new_pubsub; mail := mail; fs := fs; temp_counter := 0 |}.

(** ** Statistics *)

(** [fetch_add(1) + 1] on an [AtomicUsize]. *)
Definition client_connected : Task World Z :=
  atomically (λ w,
    let n := connected_clients (stats w) in
    (wrap_u64 (n + 1),
     set_stats {| started_at := started_at (stats w); connected_clients := wrap_u64 (n + 1) |} w)).

Definition client_disconnected : Task World unit :=
  atomically (modify (λ w,
    set_stats {| started_at := started_at (stats w);
                 connected_clients := wrap_u64 (connected_clients (stats w) - 1) |} w)).

Definition info_text (uptime clients keys : Z) : string :=
  "# Server" +:+ CRLF +:+ "server_name:redis_clone" +:+ CRLF +:+
  "uptime_in_seconds:" +:+ int_to_string uptime +:+ CRLF +:+
  CRLF +:+ "# Clients" +:+ CRLF +:+
  "connected_clients:" +:+ int_to_string clients +:+ CRLF +:+
  CRLF +:+ "# Keyspace" +:+ CRLF +:+
  "keys:" +:+ int_to_string keys +:+ CRLF.

Definition info : Task World string :=
  t ← on_db (atomically now);
  st ← atomically (gets stats);
  keys ← on_db dbsize;
  mret (info_text (as_secs (saturating_duration_since t (started_at st)))
          (connected_clients st) keys).

(** ** Publish/subscribe *)

Definition db_publish (channel payload : string) : Task World Z :=
  atomically (λ w,
    let '(n, m) := publish channel payload (pubsub w) (mail w) in (n, set_mail m w)).

(** ** Snapshots *)

Definition next_temp : State World Z :=
  λ w, (temp_counter w, set_temp_counter (wrap_u64 (temp_counter w + 1)) w).

Definition save_to (path : string) : Task World (result unit IoError) :=
  snap ← on_db (atomically snapshot);
  match to_vec_pretty snap with
  | Err e => mret (Err (io_other e))
  | Ok json =>
      unique ← atomically next_temp;
      let temp := temp_path path unique in
      written ← on_fs (write_file temp json);
      match written with
      | Err e => mret (Err e)
      | Ok _ => on_fs (rename_file temp path)
      end
  end.

Definition load_from (path : string) : Task World (result bool IoError) :=
  bytes ← on_fs (gets (read_file path));
  match bytes with
  | Ok bytes =>
      match from_slice bytes with
      | Err e => mret (Err (io_other e))
      | Ok snap => on_db (atomically (load_snapshot snap)) ;; mret (Ok true)
      end
  | Err e => if io_not_found e then mret (Ok false) else mret (Err e)
  end.

Definition save : Task World (result unit IoError) :=
  p ← atomically (gets persistence);
  match snapshot_path p with
  | Some path => save_to path
  | None => mret (Ok tt)
  end.

(** ** The log *)

(** A failed append is reported in the server's own log only. *)
Definition log_write (tokens : list string) : Task World unit :=
  p ← atomically (gets persistence);
  if replaying p then mret tt
  else
    match aof p with
    | Some aof => on_fs (append aof tokens) ;; mret tt
    | None => mret tt
    end.

Definition set_replaying (b : bool) : Task World unit :=
  atomically (modify (λ w,
    set_persistence {| snapshot_path := snapshot_path (persistence w);
                       aof := aof (persistence w); replaying := b |} w)).
Definition begin_replay : Task World unit := set_replaying true.
Definition end_replay : Task World unit := set_replaying false.

Definition sync_aof : Task World (result unit IoError) :=
  p ← atomically (gets persistence);
  match aof p with
  | Some aof => on_fs (sync aof)
  | None => mret (Ok tt)
  end.

(** ** Running the parts *)

Lemma run_on_db {A} (t : Task DbState A) w :
  run (on_db t) w = let '(a, d) := run t (db w) in (a, set_db d w).
Proof. apply run_on_part; try done. by intros []. Qed.

Lemma run_on_fs {A} (m : State Fs A) w :
  run (on_fs m) w = let '(a, f) := m (fs w) in (a, set_fs f w).
Proof. unfold on_fs. rewrite run_atomically. done. Qed.

Lemma run_gets {A} (f : World → A) w : run (atomically (gets f)) w = (f w, w).
Proof. done. Qed.

(** Keeping an invariant of the store. *)
Lemma keeps_on_db {A} (I : DbState → Prop) (t : Task DbState A) :
  keeps I t → keeps (λ w, I (db w)) (on_db t).
Proof. by apply keeps_on_part. Qed.

(** Code that leaves the store alone keeps every invariant of it. *)
Lemma keeps_off_db {A} (I : DbState → Prop) (m : State World A) :
  (∀ w, db (m w).2 = db w) → keeps (λ w, I (db w)) (atomically m).
Proof.
  intros Hm. apply keeps_atomically. intros w Hw. specialize (Hm w).
  destruct (m w) as [a w']; simpl in *. by rewrite Hm.
Qed.

Lemma on_fs_db {A} (m : State Fs A) w : db (part_state fs set_fs m w).2 = db w.
Proof. unfold part_state. by destruct (m (fs w)). Qed.
End world.
