(* ===== verification/Command.v ===== *)
(** Commands and their parser ([command/mod.rs]).

    The [match] on the upper-cased name is the list [arms], in the order of the
    code, of which the first arm with the name applies. *)

From S2P Require Import Prelude RustInt RustStr RustF64.
Local Open Scope Z_scope.

Inductive Command :=
| Set_ (key value : string) (ttl : option Z)
| Get (key : string)
| Del (keys : list string)
| LPush (key : string) (values : list string)
| RPush (key : string) (values : list string)
| LPop (key : string)
| RPop (key : string)
| LRange (key : string) (start stop : Z)
| SAdd (key : string) (values : list string)
| SRem (key : string) (values : list string)
| SMembers (key : string)
| SIsMember (key value : string)
| ZAdd (key : string) (members : list (f64 * string))
| ZRem (key member : string)
| ZRange (key : string) (start stop : Z) (with_scores : bool)
| ZScore (key member : string)
| HSet (key field value : string)
| HGet (key field : string)
| HDel (key field : string)
| HGetAll (key : string)
| HKeys (key : string)
| HVals (key : string)
| HLen (key : string)
| HExists (key field : string)
| HIncrBy (key field : string) (delta : Z)
| Exists_ (keys : list string)
| Type_ (key : string)
| Keys (pattern : string)
| Expire (key : string) (seconds : Z)
| Ttl (key : string)
| Persist (key : string)
| Rename (key new_key : string)
| Ping (message : option string)
| Echo (message : string)
| DbSize
| FlushAll
| Info
| Save
| BgSave
| Publish (channel message : string)
| IncrBy (key : string) (delta : Z)
| Append (key value : string)
| StrLen (key : string)
| MGet (keys : list string)
| MSet (pairs : list (string * string))
| SetNx (key value : string)
| GetSet (key value : string)
| LLen (key : string)
| LIndex (key : string) (index : Z)
| LSet (key : string) (index : Z) (value : string)
| SCard (key : string)
| SPop (key : string)
| SInter (keys : list string)
| SUnion (keys : list string)
| SDiff (keys : list string)
| ZCard (key : string)
| ZRank (key member : string)
| ZIncrBy (key : string) (increment : f64) (member : string)
| ZRangeByScore (key : string) (min : f64) (min_inclusive : bool) (max : f64) (max_inclusive : bool).

Inductive CommandError :=
| Empty
| Unknown (name : string)
| WrongArity (command : string)
| NotAnInteger (value : string)
| NotAFloat (value : string).

#[export] Instance CommandError_eq_dec : EqDecision CommandError.
Proof. solve_decision. Defined.

(** [Display for CommandError] *)
Definition command_error_to_string (e : CommandError) : string :=
  match e with
  | Empty => "ERR empty command"
  | Unknown name => "ERR unknown command '" +:+ name +:+ "'"
  | WrongArity command =>
      "ERR wrong number of arguments for '" +:+ to_ascii_lowercase command +:+ "' command"
  | NotAnInteger value => "ERR value '" +:+ value +:+ "' is not a valid integer"
  | NotAFloat value => "ERR value '" +:+ value +:+ "' is not a valid float"
  end.

(** ** Argument helpers *)

Abbreviation Parsed A := (result A CommandError).

Definition arity (command : string) : CommandError := WrongArity command.

Definition single_key (args : list string) (command : string) : Parsed string :=
  match args with
  | [key] => Ok key
  | _ => Err (arity command)
  end.

Definition key_value (args : list string) (command : string) : Parsed (string * string) :=
  match args with
  | [key; value] => Ok (key, value)
  | _ => Err (arity command)
  end.

Definition non_empty_args (args : list string) (command : string) : Parsed (list string) :=
  match args with
  | [] => Err (arity command)
  | _ => Ok args
  end.

Definition key_and_values (args : list string) (command : string) : Parsed (string * list string) :=
  match args with
  | key :: ((_ :: _) as values) => Ok (key, values)
  | _ => Err (arity command)
  end.

(** [raw.parse::<T>()] for a numeric type. *)
Definition parse_number {A} (from_str : string → option A) (raw : string) : Parsed A :=
  ok_or (from_str raw) (NotAnInteger raw).

Definition parse_score (raw : string) : Parsed f64 :=
  let? score := ok_or (parse_f64 raw) (NotAFloat raw) in
  if is_nan score then Err (NotAFloat raw) else Ok score.

Definition negate (value : Z) : Parsed Z :=
  ok_or (checked_neg value) (NotAnInteger (int_to_string value)).

Definition parse_score_bound (raw : string) : Parsed (f64 * bool) :=
  let '(inclusive, number) :=
    match strip_prefix "("%char raw with
    | Some rest => (false, rest)
    | None => (true, raw)
    end in
  let other := to_ascii_lowercase number in
  let? score :=
    if decide (other = "+inf" ∨ other = "inf") then Ok f64_infinity
    else if decide (other = "-inf") then Ok f64_neg_infinity
    else
      let? score := ok_or (parse_f64 other) (NotAFloat raw) in
      if is_nan score then Err (NotAFloat raw) else Ok score in
  Ok (score, inclusive).

(** [chunks_exact(2)]: a last odd element is left out. *)
Fixpoint chunks2 (l : list string) : list (string * string) :=
  match l with
  | a :: b :: l' => (a, b) :: chunks2 l'
  | _ => []
  end.

(** The loop over the pairs of [ZADD], ended by the first bad score. *)
Fixpoint parse_members (pairs : list (string * string)) : Parsed (list (f64 * string)) :=
  match pairs with
  | [] => Ok []
  | (raw, member) :: pairs' =>
      let? score := parse_score raw in
      let? members := parse_members pairs' in
      Ok ((score, member) :: members)
  end.

(** ** The arms of [Command::parse] *)

Abbreviation Arm := (list string → Parsed Command).

Definition arm_key (make : string → Command) (name : string) : Arm := λ args,
  let? key := single_key args name in Ok (make key).
Definition arm_key_value (make : string → string → Command) (name : string) : Arm := λ args,
  let? (a, b) := key_value args name in Ok (make a b).
Definition arm_keys (make : list string → Command) (name : string) : Arm := λ args,
  let? keys := non_empty_args args name in Ok (make keys).
Definition arm_key_values (make : string → list string → Command) (name : string) : Arm := λ args,
  let? (key, values) := key_and_values args name in Ok (make key values).
Definition arm_none (command : Command) (name : string) : Arm := λ args,
  match args with
  | [] => Ok command
  | _ => Err (arity name)
  end.

Definition parse_set : Arm := λ args,
  match args with
  | [key; value] => Ok (Set_ key value None)
  | [key; value; option; ttl] =>
      if eq_ignore_ascii_case option "EX" || eq_ignore_ascii_case option "EXP" then
        let? ttl := parse_number parse_u64 ttl in Ok (Set_ key value (Some ttl))
      else Err (arity "SET")
  | _ => Err (arity "SET")
  end.

Definition parse_lrange : Arm := λ args,
  match args with
  | [key; start; stop] =>
      let? start := parse_number parse_i64 start in
      let? stop := parse_number parse_i64 stop in
      Ok (LRange key start stop)
  | _ => Err (arity "LRANGE")
  end.

Definition parse_zadd : Arm := λ args,
  match args with
  | key :: rest =>
      if negb (bool_decide (rest = [])) && Nat.even (length rest) then
        let? members := parse_members (chunks2 rest) in Ok (ZAdd key members)
      else Err (arity "ZADD")
  | [] => Err (arity "ZADD")
  end.

Definition parse_zrange : Arm := λ args,
  let range key start stop with_scores :=
    let? start := parse_number parse_i64 start in
    let? stop := parse_number parse_i64 stop in
    Ok (ZRange key start stop with_scores) in
  match args with
  | [key; start; stop] => range key start stop false
  | [key; start; stop; option] =>
      if eq_ignore_ascii_case option "WITHSCORES" then range key start stop true
      else Err (arity "ZRANGE")
  | _ => Err (arity "ZRANGE")
  end.

Definition parse_hset : Arm := λ args,
  match args with
  | [key; field; value] => Ok (HSet key field value)
  | _ => Err (arity "HSET")
  end.

Definition parse_hincrby : Arm := λ args,
  match args with
  | [key; field; delta] =>
      let? delta := parse_number parse_i64 delta in Ok (HIncrBy key field delta)
  | _ => Err (arity "HINCRBY")
  end.

Definition parse_expire : Arm := λ args,
  match args with
  | [key; seconds] =>
      let? seconds := parse_number parse_i64 seconds in Ok (Expire key seconds)
  | _ => Err (arity "EXPIRE")
  end.

Definition parse_ping : Arm := λ args,
  match args with
  | [] => Ok (Ping None)
  | [message] => Ok (Ping (Some message))
  | _ => Err (arity "PING")
  end.

Definition parse_incrby : Arm := λ args,
  match args with
  | [key; delta] => let? delta := parse_number parse_i64 delta in Ok (IncrBy key delta)
  | _ => Err (arity "INCRBY")
  end.

Definition parse_decrby : Arm := λ args,
  match args with
  | [key; delta] =>
      let? delta := parse_number parse_i64 delta in
      let? delta := negate delta in
      Ok (IncrBy key delta)
  | _ => Err (arity "DECRBY")
  end.

Definition parse_mset : Arm := λ args,
  if bool_decide (args = []) || negb (Nat.even (length args)) then Err (arity "MSET")
  else Ok (MSet (chunks2 args)).

Definition parse_lindex : Arm := λ args,
  match args with
  | [key; index] => let? index := parse_number parse_i64 index in Ok (LIndex key index)
  | _ => Err (arity "LINDEX")
  end.

Definition parse_lset : Arm := λ args,
  match args with
  | [key; index; value] =>
      let? index := parse_number parse_i64 index in Ok (LSet key index value)
  | _ => Err (arity "LSET")
  end.

Definition parse_zincrby : Arm := λ args,
  match args with
  | [key; increment; member] =>
      let? increment := parse_score increment in Ok (ZIncrBy key increment member)
  | _ => Err (arity "ZINCRBY")
  end.

Definition parse_zrangebyscore : Arm := λ args,
  match args with
  | [key; min; max] =>
      let? (min, min_inclusive) := parse_score_bound min in
      let? (max, max_inclusive) := parse_score_bound max in
      Ok (ZRangeByScore key min min_inclusive max max_inclusive)
  | _ => Err (arity "ZRANGEBYSCORE")
  end.

(** The arms, in three groups that follow each other. *)
Definition collection_arms : list (string * Arm) := [
  ("SET", parse_set);
  ("GET", arm_key Get "GET");
  ("DEL", arm_keys Del "DEL");
  ("LPUSH", arm_key_values LPush "LPUSH");
  ("RPUSH", arm_key_values RPush "RPUSH");
  ("LPOP", arm_key LPop "LPOP");
  ("RPOP", arm_key RPop "RPOP");
  ("LRANGE", parse_lrange);
  ("SADD", arm_key_values SAdd "SADD");
  ("SREM", arm_key_values SRem "SREM");
  ("SMEMBERS", arm_key SMembers "SMEMBERS");
  ("SISMEMBER", arm_key_value SIsMember "SISMEMBER");
  ("ZADD", parse_zadd);
  ("ZREM", arm_key_value ZRem "ZREM");
  ("ZRANGE", parse_zrange);
  ("ZSCORE", arm_key_value ZScore "ZSCORE");
  ("HSET", parse_hset);
  ("HGET", arm_key_value HGet "HGET");
  ("HDEL", arm_key_value HDel "HDEL");
  ("HGETALL", arm_key HGetAll "HGETALL");
  ("HKEYS", arm_key HKeys "HKEYS");
  ("HVALS", arm_key HVals "HVALS");
  ("HLEN", arm_key HLen "HLEN");
  ("HEXISTS", arm_key_value HExists "HEXISTS");
  ("HINCRBY", parse_hincrby)
].

Definition key_arms : list (string * Arm) := [
  ("EXISTS", arm_keys Exists_ "EXISTS");
  ("TYPE", arm_key Type_ "TYPE");
  ("KEYS", arm_key Keys "KEYS");
  ("EXPIRE", parse_expire);
  ("TTL", arm_key Ttl "TTL");
  ("PERSIST", arm_key Persist "PERSIST");
  ("RENAME", arm_key_value Rename "RENAME");
  ("PING", parse_ping);
  ("ECHO", arm_key Echo "ECHO");
  ("DBSIZE", arm_none DbSize "DBSIZE");
  ("FLUSHALL", arm_none FlushAll "FLUSHALL");
  ("INFO", λ _, Ok Info);
  ("SAVE", λ _, Ok Save);
  ("BGSAVE", λ _, Ok BgSave);
  ("PUBLISH", arm_key_value Publish "PUBLISH")
].

Definition later_arms : list (string * Arm) := [
  ("INCR", arm_key (λ key, IncrBy key 1) "INCR");
  ("DECR", arm_key (λ key, IncrBy key (-1)) "DECR");
  ("INCRBY", parse_incrby);
  ("DECRBY", parse_decrby);
  ("APPEND", arm_key_value Append "APPEND");
  ("STRLEN", arm_key StrLen "STRLEN");
  ("MGET", arm_keys MGet "MGET");
  ("MSET", parse_mset);
  ("SETNX", arm_key_value SetNx "SETNX");
  ("GETSET", arm_key_value GetSet "GETSET");
  ("LLEN", arm_key LLen "LLEN");
  ("LINDEX", parse_lindex);
  ("LSET", parse_lset);
  ("SCARD", arm_key SCard "SCARD");
  ("SPOP", arm_key SPop "SPOP");
  ("SINTER", arm_keys SInter "SINTER");
  ("SUNION", arm_keys SUnion "SUNION");
  ("SDIFF", arm_keys SDiff "SDIFF");
  ("ZCARD", arm_key ZCard "ZCARD");
  ("ZRANK", arm_key_value ZRank "ZRANK");
  ("ZINCRBY", parse_zincrby);
  ("ZRANGEBYSCORE", parse_zrangebyscore)
].

Definition arms : list (string * Arm) := collection_arms ++ key_arms ++ later_arms.

Fixpoint find_arm (name : string) (l : list (string * Arm)) : option Arm :=
  match l with
  | [] => None
  | (n, arm) :: l' => if decide (n = name) then Some arm else find_arm name l'
  end.

(** [Command::parse] *)
Definition parse (tokens : list string) : Parsed Command :=
  match tokens with
  | [] => Err Empty
  | name :: args =>
      match find_arm (to_ascii_uppercase name) arms with
      | Some arm => arm args
      | None => Err (Unknown name)
      end
  end.

(** [Command::is_write] *)
Definition is_write (command : Command) : bool :=
  match command with
  | Set_ _ _ _ | Del _ | LPush _ _ | RPush _ _ | LPop _ | RPop _ | SAdd _ _ | SRem _ _
  | ZAdd _ _ | ZRem _ _ | HSet _ _ _ | HDel _ _ | HIncrBy _ _ _ | Expire _ _ | Persist _
  | Rename _ _ | FlushAll | IncrBy _ _ | Append _ _ | MSet _ | SetNx _ _ | GetSet _ _
  | LSet _ _ _ | ZIncrBy _ _ _ => true
  | _ => false
  end.
