(* ===== verification/Execute.v ===== *)
(** Running commands ([command/mod.rs]): [execute], the reply helpers and
    [dispatch].

    [BGSAVE] replies at once and leaves the saving to a task of its own, which is
    [background]: it joins the pool of tasks when the command has run. *)

From S2P Require Import Prelude Task RustInt RustStr RustF64 HashOrder Resp Clock Store PubSub.
From S2P Require Import FileSystem Aof Snapshot World Command.
From S2P Require Database.
Local Open Scope Z_scope.

Section execute.
Context {CK : Clock} {HO : HashOrder} {OF : OrderedFloat} {MP : Mpsc} {FS : FileSystem}
  {SD : Serde} {TP : Process}.

Abbreviation StoreResult A := (result A StoreError).

Definition store_error (e : StoreError) : string := error (store_error_to_string e).

Definition reply_optional (r : StoreResult (option string)) : string :=
  match r with
  | Ok (Some value) => bulk_string value
  | Ok None => null
  | Err e => store_error e
  end.

Definition reply_array (r : StoreResult (list string)) : string :=
  match r with
  | Ok values => array values
  | Err e => store_error e
  end.

Definition reply_bool (r : StoreResult bool) : string :=
  match r with
  | Ok value => integer (Z.b2z value)
  | Err e => store_error e
  end.

(** [count as i64] *)
Definition reply_count (r : StoreResult Z) : string :=
  match r with
  | Ok count => integer (wrap_i64 count)
  | Err e => store_error e
  end.

Definition reply_signed (r : StoreResult Z) : string :=
  match r with
  | Ok value => integer value
  | Err e => store_error e
  end.

Definition reply_status (r : StoreResult unit) : string :=
  match r with
  | Ok _ => simple_string "OK"
  | Err e => store_error e
  end.

Definition format_score (score : f64) : string := f64_to_string score.

(** The flat reply of [ZRANGE ... WITHSCORES]. *)
Definition reply_scored (r : StoreResult (list (string * f64))) : string :=
  match r with
  | Ok pairs =>
      array (fold_left (λ flat '(member, score), (flat ++ [member]) ++ [format_score score]) pairs [])
  | Err e => store_error e
  end.

Definition reply_score (r : StoreResult (option f64)) : string :=
  match r with
  | Ok (Some score) => bulk_string (format_score score)
  | Ok None => null
  | Err e => store_error e
  end.

Definition reply_rank (r : StoreResult (option Z)) : string :=
  match r with
  | Ok (Some rank) => integer (wrap_i64 rank)
  | Ok None => null
  | Err e => store_error e
  end.

Definition reply_new_score (r : StoreResult f64) : string :=
  match r with
  | Ok score => bulk_string (format_score score)
  | Err e => store_error e
  end.

(** [reply(db.operation(..).await)] *)
Definition answer {A} (reply : A → string) (op : Task DbState A) : Task World string :=
  r ← on_db op; mret (reply r).

Definition ok_reply : string := simple_string "OK".

Definition execute (command : Command) : Task World string :=
  match command with
  | Set_ key value ttl => answer (λ _, ok_reply) (Database.set key value ttl)
  | Get key => answer reply_optional (Database.get key)
  | Del keys => answer (λ n, integer (wrap_i64 n)) (Database.del keys)
  | LPush key values => answer reply_count (Database.lpush key values)
  | RPush key values => answer reply_count (Database.rpush key values)
  | LPop key => answer reply_optional (Database.lpop key)
  | RPop key => answer reply_optional (Database.rpop key)
  | LRange key start stop => answer reply_array (Database.lrange key start stop)
  | SAdd key values => answer reply_count (Database.sadd key values)
  | SRem key values => answer reply_count (Database.srem key values)
  | SMembers key => answer reply_array (Database.smembers key)
  | SIsMember key value => answer reply_bool (Database.sismember key value)
  | ZAdd key members => answer reply_count (Database.zadd key members)
  | ZRem key member => answer reply_bool (Database.zrem key member)
  | ZRange key start stop with_scores =>
      if with_scores then answer reply_scored (Database.zrange_with_scores key start stop)
      else answer reply_array (Database.zrange key start stop)
  | ZScore key member => answer reply_score (Database.zscore key member)
  | HSet key field value => answer reply_bool (Database.hset key field value)
  | HGet key field => answer reply_optional (Database.hget key field)
  | HDel key field => answer reply_bool (Database.hdel key field)
  | HGetAll key => answer reply_array (Database.hgetall key)
  | HKeys key => answer reply_array (Database.hkeys key)
  | HVals key => answer reply_array (Database.hvals key)
  | HLen key => answer reply_count (Database.hlen key)
  | HExists key field => answer reply_bool (Database.hexists key field)
  | HIncrBy key field delta => answer reply_signed (Database.hincrby key field delta)
  | Exists_ keys => answer (λ n, integer (wrap_i64 n)) (Database.exists_ keys)
  | Type_ key => answer simple_string (Database.type_of key)
  | Keys pattern => answer array (Database.keys pattern)
  | Expire key seconds => answer (λ b, integer (Z.b2z b)) (Database.expire key seconds)
  | Ttl key => answer integer (Database.ttl key)
  | Persist key => answer (λ b, integer (Z.b2z b)) (Database.persist key)
  | Rename key new_key =>
      answer (λ b : bool, if b then ok_reply else error "ERR no such key")
        (Database.rename key new_key)
  | Ping message =>
      mret match message with
           | Some message => bulk_string message
           | None => simple_string "PONG"
           end
  | Echo message => mret (bulk_string message)
  | DbSize => answer (λ n, integer (wrap_i64 n)) Database.dbsize
  | FlushAll => answer (λ _, ok_reply) Database.flushall
  | Info => text ← info; mret (bulk_string text)
  | Save =>
      r ← save;
      mret match r with
           | Ok _ => ok_reply
           | Err cause => error ("ERR " +:+ io_text cause)
           end
  | BgSave => mret (simple_string "Background saving started")
  | Publish channel message =>
      n ← db_publish channel message; mret (integer (wrap_i64 n))
  | IncrBy key delta => answer reply_signed (Database.incr_by key delta)
  | Append key value => answer reply_count (Database.append key value)
  | StrLen key => answer reply_count (Database.strlen key)
  | MGet keys => answer nullable_array (Database.mget keys)
  | MSet pairs => answer (λ _, ok_reply) (Database.mset pairs)
  | SetNx key value => answer (λ b, integer (Z.b2z b)) (Database.setnx key value)
  | GetSet key value => answer reply_optional (Database.getset key value)
  | LLen key => answer reply_count (Database.llen key)
  | LIndex key index => answer reply_optional (Database.lindex key index)
  | LSet key index value => answer reply_status (Database.lset key index value)
  | SCard key => answer reply_count (Database.scard key)
  | SPop key => answer reply_optional (Database.spop key)
  | SInter keys => answer reply_array (Database.sinter keys)
  | SUnion keys => answer reply_array (Database.sunion keys)
  | SDiff keys => answer reply_array (Database.sdiff keys)
  | ZCard key => answer reply_count (Database.zcard key)
  | ZRank key member => answer reply_rank (Database.zrank key member)
  | ZIncrBy key increment member =>
      answer reply_new_score (Database.zincrby key increment member)
  | ZRangeByScore key min min_inclusive max max_inclusive =>
      answer reply_array (Database.zrange_by_score key min min_inclusive max max_inclusive)
  end.

(** The task a command leaves running. *)
Definition background (command : Command) : option (Task World (result unit IoError)) :=
  match command with
  | BgSave => Some save
  | _ => None
  end.

(** [SPOP]: the member that was removed is logged, as an [SREM]. *)
Definition dispatch_spop (key : string) : Task World string :=
  popped ← on_db (Database.spop key);
  match popped with
  | Ok (Some member) => log_write ["SREM"; key; member]
  | _ => mret tt
  end ;;
  mret (reply_optional popped).

Definition dispatch (tokens : list string) : Task World string :=
  match tokens with
  | [] => mret ""
  | _ =>
      match parse tokens with
      | Ok (SPop key) => dispatch_spop key
      | Ok command =>
          reply ← execute command;
          (if is_write command && negb (starts_with "-"%char reply) then log_write tokens
           else mret tt) ;;
          mret reply
      | Err e => mret (error (command_error_to_string e))
      end
  end.
End execute.
