(* ===== verification/Dispatch.v ===== *)
(** What holds of every command, whoever runs at the same time: the parser only
    builds well-formed commands, every reply is one RESP frame, and the store
    keeps its invariant. *)

From S2P Require Import Prelude Task RustInt RustStr RustF64 HashOrder Resp Clock Store PubSub.
From S2P Require Import FileSystem Aof Snapshot World Command Execute.
From S2P Require Database Keyspace Refinement KeyOps Invariant.
Local Open Scope Z_scope.

(** ** The parser *)

Definition not_nan (x : f64) : Prop := is_nan x = false.

(** What the types of [Command] and its parser guarantee of the arguments. *)
Definition command_wf (c : Command) : Prop :=
  match c with
  | Set_ _ _ (Some ttl) => in_u64 ttl
  | LPush _ vs | RPush _ vs | SAdd _ vs | SRem _ vs => vs ≠ []
  | Del ks | Exists_ ks | MGet ks | SInter ks | SUnion ks | SDiff ks => ks ≠ []
  | ZAdd _ ms => ms ≠ [] ∧ Forall (λ p, not_nan p.1) ms
  | ZIncrBy _ x _ => not_nan x
  | ZRangeByScore _ min _ max _ => not_nan min ∧ not_nan max
  | LRange _ a b | ZRange _ a b _ => in_i64 a ∧ in_i64 b
  | HIncrBy _ _ d | IncrBy _ d | Expire _ d | LIndex _ d | LSet _ d _ => in_i64 d
  | MSet pairs => pairs ≠ []
  | _ => True
  end.

Definition arm_wf (arm : list string → result Command CommandError) : Prop :=
  ∀ args c, arm args = Ok c → command_wf c.

Lemma parse_i64_number raw z : parse_number parse_i64 raw = Ok z → in_i64 z.
Proof. intros H%ok_or_ok. by eapply parse_int_range. Qed.

Lemma parse_u64_number raw z : parse_number parse_u64 raw = Ok z → in_u64 z.
Proof. intros H%ok_or_ok. by eapply parse_int_range. Qed.

Lemma parse_score_not_nan raw x : parse_score raw = Ok x → not_nan x.
Proof.
  unfold parse_score, not_nan. intros (y & _ & H)%result_bind_ok. by destruct (is_nan y) eqn:E; simplify_eq.
Qed.

Lemma parse_score_bound_not_nan raw x b : parse_score_bound raw = Ok (x, b) → not_nan x.
Proof.
  unfold parse_score_bound. destruct (match strip_prefix _ raw with Some _ => _ | None => _ end) as [i n].
  intros (y & Hy & [= <- <-])%result_bind_ok. repeat case_decide; simplify_eq/=; [done|done|].
  apply result_bind_ok in Hy as (z & _ & Hz). unfold not_nan. by destruct (is_nan z) eqn:E; simplify_eq.
Qed.

Lemma parse_members_ok pairs ms :
  parse_members pairs = Ok ms → Forall (λ p, not_nan p.1) ms ∧ (pairs ≠ [] → ms ≠ []).
Proof.
  revert ms. induction pairs as [|[raw m] pairs IH]; intros ms; simpl.
  { intros [= <-]. by split. }
  intros (x & Hx%parse_score_not_nan & Hms)%result_bind_ok.
  apply result_bind_ok in Hms as (ms' & Hms' & [= <-]). split; [|done].
  constructor; [done|]. by apply IH.
Qed.

Lemma negate_ok z d : in_i64 z → negate z = Ok d → in_i64 d.
Proof.
  intros Hz H%ok_or_ok. apply checked_neg_some in H as [-> Hne]; [|done].
  unfold in_i64, i64_min, i64_max in *. lia.
Qed.

Lemma chunks2_nonempty l : l ≠ [] → Nat.even (length l) = true → chunks2 l ≠ [].
Proof. by destruct l as [|a [|b l]]. Qed.

(** The arms, by their shapes. *)
Ltac arm_cases :=
  let args := fresh "args" in let c := fresh "c" in intros args c;
  unfold arm_key, arm_key_value, arm_keys, arm_key_values, arm_none, single_key, key_value,
    non_empty_args, key_and_values;
  repeat case_match; simplify_eq/=; intros; simplify_eq/=; try done.

#[export] Hint Resolve parse_i64_number parse_u64_number parse_score_not_nan
  parse_score_bound_not_nan negate_ok : rustkv.

(** The arms that parse numbers: one [let?] after the other. *)
Ltac arm_numbers arm :=
  intros args c; unfold arm; repeat case_match; intros; simplify_eq/=; try done;
  repeat (match goal with
    | H : result_bind _ _ = Ok _ |- _ => apply result_bind_ok in H as (? & ? & ?)
    end || (case_match; simplify_eq/=));
  simplify_eq/=; eauto with rustkv.

Lemma parse_arms_wf : Forall (λ p, arm_wf p.2) arms.
Proof.
  unfold arms, collection_arms, key_arms, later_arms. cbn [app]. repeat (constructor; [|]); [..|constructor]; simpl; unfold arm_wf; try by arm_cases.
  - arm_numbers parse_set.
  - arm_numbers parse_lrange.
  - arm_numbers parse_zadd.
    apply parse_members_ok in H as [Hnan Hne]. split; [|done]. apply Hne.
    apply andb_true_iff in H0 as [Hl%negb_true_iff Heven]. apply chunks2_nonempty; [|done].
    by apply bool_decide_eq_false in Hl.
  - arm_numbers parse_zrange.
  - arm_numbers parse_hset.
  - arm_numbers parse_hincrby.
  - arm_numbers parse_expire.
  - arm_numbers parse_ping.
  - arm_numbers parse_incrby.
  - arm_numbers parse_decrby.
  - arm_numbers parse_mset.
    apply orb_false_iff in H as [Hl Heven%negb_false_iff]. apply chunks2_nonempty; [|done].
    by apply bool_decide_eq_false in Hl.
  - arm_numbers parse_lindex.
  - arm_numbers parse_lset.
  - arm_numbers parse_zincrby.
  - arm_numbers parse_zrangebyscore.
Qed.

Lemma find_arm_in name l arm : find_arm name l = Some arm → (name, arm) ∈ l.
Proof.
  induction l as [|[n a] l IH]; simpl; [done|]. case_decide as Hn.
  - intros [= <-]. subst. left.
  - intros H. right. auto.
Qed.

Lemma parse_wf tokens c : parse tokens = Ok c → command_wf c.
Proof.
  unfold parse. destruct tokens as [|name args]; [done|].
  destruct (find_arm _ arms) as [arm|] eqn:E; [|done]. apply find_arm_in in E.
  pose proof parse_arms_wf as H. rewrite Forall_forall in H. apply (H _ E).
Qed.

(** The name's case does not matter. *)
Lemma parse_ignores_case name name' args :
  eq_ignore_ascii_case name name' = true → is_ok (parse (name :: args)) = true →
  parse (name :: args) = parse (name' :: args).
Proof.
  unfold eq_ignore_ascii_case, parse. intros Hname%bool_decide_eq_true.
  assert (to_ascii_uppercase name = to_ascii_uppercase name') as Hup.
  { assert (Hul : ∀ s, to_ascii_uppercase (to_ascii_lowercase s) = to_ascii_uppercase s).
    { induction s as [|c s IH]; simpl; [done|]. unfold to_ascii_uppercase, to_ascii_lowercase in *.
      simpl. by rewrite IH, upper_lower_char. }
    by rewrite <- (Hul name), Hname, Hul. }
  rewrite Hup. by destruct (find_arm _ arms).
Qed.

(** ** The store's invariant *)

Section dispatch.
Context {CK : Clock} {HO : HashOrder} {OF : OrderedFloat} {MP : Mpsc} {FS : FileSystem}
  {SD : Serde} {TP : Process}.

Definition world_wf (w : World) : Prop := Invariant.db_wf (db w).

Lemma keeps_answer {A} (reply : A → string) (op : Task DbState A) :
  keeps Invariant.db_wf op → keeps world_wf (answer reply op).
Proof.
  intros Hop. apply keeps_bind; [by apply (keeps_on_db Invariant.db_wf)|]. intros a. constructor.
Qed.

(** Sections that touch the store only to read it, or not at all. *)
Lemma keeps_elsewhere {A} (m : State World A) :
  (∀ w, db (m w).2 = db w) → keeps world_wf (atomically m).
Proof. apply (keeps_off_db Invariant.db_wf). Qed.

Lemma keeps_on_fs {A} (m : State Fs A) : keeps world_wf (on_fs m).
Proof. apply keeps_elsewhere. intros w. apply on_fs_db. Qed.

Lemma keeps_log_write tokens : keeps world_wf (log_write tokens).
Proof.
  apply keeps_bind; [by apply keeps_elsewhere|]. intros p.
  destruct (replaying p); [constructor|]. destruct (aof p) as [a|]; [|constructor].
  apply keeps_bind; [apply keeps_on_fs|]. constructor.
Qed.

Lemma keeps_reading {A} (m : State DbState A) :
  (∀ s, store (m s).2 = store s) → keeps Invariant.db_wf (atomically m).
Proof.
  intros Hm. apply keeps_atomically. intros s Hs. specialize (Hm s). destruct (m s) as [a s'].
  unfold Invariant.db_wf in *. simpl in *. by rewrite Hm.
Qed.

Lemma snapshot_store s : store (snapshot s).2 = store s.
Proof. pose proof (snapshot_spec s) as H. destruct (snapshot s). apply H. Qed.

Lemma keeps_save : keeps world_wf save.
Proof.
  apply keeps_bind; [by apply keeps_elsewhere|]. intros p.
  destruct (snapshot_path p) as [path|]; [|constructor].
  apply keeps_bind; [apply (keeps_on_db Invariant.db_wf), keeps_reading, snapshot_store|].
  intros snap. destruct (to_vec_pretty snap) as [json|e]; [|constructor].
  apply keeps_bind; [by apply keeps_elsewhere|]. intros n.
  apply keeps_bind; [apply keeps_on_fs|]. intros [u|e]; [apply keeps_on_fs|constructor].
Qed.

Lemma keeps_info : keeps world_wf info.
Proof.
  apply keeps_bind; [by apply (keeps_on_db Invariant.db_wf), keeps_reading|]. intros t.
  apply keeps_bind; [by apply keeps_elsewhere|]. intros st.
  apply keeps_bind; [apply (keeps_on_db Invariant.db_wf), (Invariant.keeps_scans [] "")|].
  constructor.
Qed.

Lemma keeps_publish channel payload : keeps world_wf (db_publish channel payload).
Proof.
  apply keeps_elsewhere. intros w. by destruct (publish channel payload (pubsub w) (mail w)).
Qed.

(** Every command keeps the invariant under any interleaving. *)
Lemma keeps_execute c : command_wf c → keeps world_wf (execute c).
Proof.
  intros Hc. destruct c; cbn [execute command_wf] in *; try (destruct with_scores);
    try (apply keeps_answer); try (by constructor).
  - apply (Invariant.keeps_string_writes key value ttl []).
  - by apply (Invariant.keeps_string_op key Refinement.Get).
  - apply (Invariant.keeps_key_ops "" "" 0 keys).
  - by apply (Invariant.keeps_list_op key (Refinement.LPush values)).
  - by apply (Invariant.keeps_list_op key (Refinement.RPush values)).
  - by apply (Invariant.keeps_list_op key Refinement.LPop).
  - by apply (Invariant.keeps_list_op key Refinement.RPop).
  - by apply (Invariant.keeps_list_op key (Refinement.LRange start stop)).
  - by apply (Invariant.keeps_set_op key (Refinement.SAdd values)).
  - by apply (Invariant.keeps_set_op key (Refinement.SRem values)).
  - by apply (Invariant.keeps_set_op key Refinement.SMembers).
  - by apply (Invariant.keeps_set_op key (Refinement.SIsMember value)).
  - by apply (Invariant.keeps_zset_op key (Refinement.ZAdd members)).
  - by apply (Invariant.keeps_zset_op key (Refinement.ZRem member)).
  - by apply (Invariant.keeps_zset_op key (Refinement.ZRangeWithScores start stop)).
  - by apply (Invariant.keeps_zset_op key (Refinement.ZRange start stop)).
  - by apply (Invariant.keeps_zset_op key (Refinement.ZScore member)).
  - by apply (Invariant.keeps_hash_op key (Refinement.HSet field value)).
  - by apply (Invariant.keeps_hash_op key (Refinement.HGet field)).
  - by apply (Invariant.keeps_hash_op key (Refinement.HDel field)).
  - by apply (Invariant.keeps_hash_op key Refinement.HGetAll).
  - by apply (Invariant.keeps_hash_op key Refinement.HKeys).
  - by apply (Invariant.keeps_hash_op key Refinement.HVals).
  - by apply (Invariant.keeps_hash_op key Refinement.HLen).
  - by apply (Invariant.keeps_hash_op key (Refinement.HExists field)).
  - by apply (Invariant.keeps_hash_op key (Refinement.HIncrBy field delta)).
  - apply (Invariant.keeps_scans keys "").
  - apply (Invariant.keeps_key_ops key "" 0 []).
  - apply (Invariant.keeps_scans [] pattern).
  - apply (Invariant.keeps_key_ops key "" seconds []).
  - apply (Invariant.keeps_key_ops key "" 0 []).
  - apply (Invariant.keeps_key_ops key "" 0 []).
  - apply (Invariant.keeps_key_ops key new_key 0 []).
  - apply (Invariant.keeps_scans [] "").
  - apply (Invariant.keeps_key_ops "" "" 0 []).
  - apply keeps_bind; [apply keeps_info|constructor].
  - apply keeps_bind; [apply keeps_save|constructor].
  - apply keeps_bind; [apply keeps_publish|constructor].
  - by apply (Invariant.keeps_string_op key (Refinement.IncrBy delta)).
  - by apply (Invariant.keeps_string_op key (Refinement.Append value)).
  - by apply (Invariant.keeps_string_op key Refinement.StrLen).
  - apply (Invariant.keeps_scans keys "").
  - apply (Invariant.keeps_string_writes "" "" None pairs).
  - apply (Invariant.keeps_string_writes key value None []).
  - apply (Invariant.keeps_string_writes key value None []).
  - by apply (Invariant.keeps_list_op key Refinement.LLen).
  - by apply (Invariant.keeps_list_op key (Refinement.LIndex index)).
  - by apply (Invariant.keeps_list_op key (Refinement.LSet index value)).
  - by apply (Invariant.keeps_set_op key Refinement.SCard).
  - by apply (Invariant.keeps_set_op key Refinement.SPop).
  - apply (Invariant.keeps_set_algebra keys).
  - apply (Invariant.keeps_set_algebra keys).
  - apply (Invariant.keeps_set_algebra keys).
  - by apply (Invariant.keeps_zset_op key Refinement.ZCard).
  - by apply (Invariant.keeps_zset_op key (Refinement.ZRank member)).
  - by apply (Invariant.keeps_zset_op key (Refinement.ZIncrBy increment member)).
  - by apply (Invariant.keeps_zset_op key
      (Refinement.ZRangeByScore min min_inclusive max max_inclusive)).
Qed.

Lemma keeps_dispatch tokens : keeps world_wf (dispatch tokens).
Proof.
  unfold dispatch. destruct tokens as [|t ts]; [constructor|].
  destruct (parse (t :: ts)) as [c|e] eqn:Hp; [|constructor]. apply parse_wf in Hp.
  assert (Hgen : ∀ b : bool, keeps world_wf
    (reply ← execute c; (if b && negb (starts_with "-"%char reply) then log_write (t :: ts) else mret tt) ;;
     mret reply)).
  { intros b. apply keeps_bind; [by apply keeps_execute|]. intros reply.
    apply keeps_bind; [|constructor].
    destruct (b && negb (starts_with "-"%char reply)); [apply keeps_log_write|constructor]. }
  destruct c; try apply Hgen. unfold dispatch_spop.
  apply keeps_bind;
    [by apply (keeps_on_db Invariant.db_wf), (Invariant.keeps_set_op key Refinement.SPop)|].
  intros popped. apply keeps_bind; [|constructor].
  destruct popped as [[m|]|e]; [apply keeps_log_write|constructor|constructor].
Qed.

(** ** Replies *)

(** The bytes of exactly one RESP frame. *)
Definition reply_ok (s : string) : Prop := ∃ f, frame_ok f ∧ s = encode f.

Lemma simple_ok s : one_line s → reply_ok (simple_string s).
Proof. intros H. by exists (FSimple s). Qed.
Lemma error_ok s : reply_ok (error s).
Proof. destruct (error_encode s) as (line & -> & H). by exists (FError line). Qed.
Lemma integer_ok z : in_i64 z → reply_ok (integer z).
Proof. intros H. by exists (FInt z). Qed.
Lemma wrapped_ok z : reply_ok (integer (wrap_i64 z)).
Proof. apply integer_ok, wrap_i64_range. Qed.
Lemma bool_ok b : reply_ok (integer (Z.b2z b)).
Proof. apply integer_ok. by destruct b. Qed.
Lemma bulk_ok s : reply_ok (bulk_string s).
Proof. by exists (FBulk s). Qed.
Lemma null_ok : reply_ok null.
Proof. by exists FNull. Qed.
Lemma array_ok items : reply_ok (array items).
Proof. exists (FArray (FBulk <$> items)). rewrite frame_ok_array. split; [apply bulks_ok|apply array_encode]. Qed.
Lemma nullable_array_ok items : reply_ok (nullable_array items).
Proof.
  exists (FArray (nullable <$> items)). rewrite frame_ok_array.
  split; [apply nullables_ok|apply nullable_array_encode].
Qed.
Hint Resolve error_ok integer_ok wrapped_ok bool_ok bulk_ok null_ok array_ok nullable_array_ok : rustkv.

Lemma ok_reply_ok : reply_ok ok_reply.
Proof. by apply simple_ok. Qed.

Lemma reply_optional_ok r : reply_ok (reply_optional r).
Proof. destruct r as [[v|]|e]; simpl; unfold store_error; auto with rustkv. Qed.
Lemma reply_array_ok r : reply_ok (reply_array r).
Proof. destruct r; simpl; unfold store_error; auto with rustkv. Qed.
Lemma reply_bool_ok r : reply_ok (reply_bool r).
Proof. destruct r; simpl; unfold store_error; auto with rustkv. Qed.
Lemma reply_count_ok r : reply_ok (reply_count r).
Proof. destruct r; simpl; unfold store_error; auto with rustkv. Qed.
Lemma reply_status_ok r : reply_ok (reply_status r).
Proof. destruct r; simpl; unfold store_error; auto using ok_reply_ok with rustkv. Qed.
Lemma reply_scored_ok r : reply_ok (reply_scored r).
Proof. destruct r; simpl; unfold store_error; auto with rustkv. Qed.
Lemma reply_score_ok r : reply_ok (reply_score r).
Proof. destruct r as [[v|]|e]; simpl; unfold store_error; auto with rustkv. Qed.
Lemma reply_rank_ok r : reply_ok (reply_rank r).
Proof. destruct r as [[v|]|e]; simpl; unfold store_error; auto with rustkv. Qed.
Lemma reply_new_score_ok r : reply_ok (reply_new_score r).
Proof. destruct r; simpl; unfold store_error; auto with rustkv. Qed.
Hint Resolve ok_reply_ok reply_optional_ok reply_array_ok reply_bool_ok reply_count_ok
  reply_status_ok reply_scored_ok reply_score_ok reply_rank_ok reply_new_score_ok : rustkv.

(** What a counter answers fits in an [i64]. *)
Definition ok_i64 (r : result Z StoreError) : Prop := ∀ z, r = Ok z → in_i64 z.

Lemma reply_signed_ok r : ok_i64 r → reply_ok (reply_signed r).
Proof. intros H. destruct r; simpl; unfold store_error; auto with rustkv. Qed.

Lemma ensures_incr_by key delta : ensures ok_i64 (Database.incr_by key delta).
Proof.
  apply ensures_atomically. intros s. unfold mbind, state_bind.
  destruct (evict_expired key s) as [[] s1]. destruct (entry_or_insert _ _ s1) as [e s2].
  destruct (value e) as [cur| | | |]; simpl; try done.
  destruct (parse_i64 cur) as [v|]; simpl; [|done].
  destruct (checked_add v delta) as [n|] eqn:E; simpl; [|done].
  apply checked_add_some in E as [_ Hn]. by intros z [= <-].
Qed.

Lemma ensures_hincrby key field delta : ensures ok_i64 (Database.hincrby key field delta).
Proof.
  apply ensures_atomically. intros s. unfold mbind, state_bind.
  destruct (hash_or_create key s) as [[h|e] s1]; simpl; [|done].
  match goal with |- context [result_bind ?x _] => destruct x as [c|e] end; simpl; [|done].
  destruct (checked_add c delta) as [n|] eqn:E; simpl; [|done].
  apply checked_add_some in E as [_ Hn]. by intros z [= <-].
Qed.

Lemma ensures_read_entry {T} (P : T → Prop) key absent (read : Entry → State DbState T) :
  P absent → (∀ e s, P (read e s).1) → ensures P (read_entry key absent read).
Proof.
  intros Habs Hread. constructor. intros s. unfold mbind, state_bind, get_entry, gets.
  destruct (store s !! key) as [e|]; [|by constructor].
  destruct (is_expired e s) as [[] s1].
  - simpl. constructor. intros s2. destruct (evict_expired key s2). by constructor.
  - specialize (Hread e s1). destruct (read e s1). by constructor.
Qed.

Lemma ensures_ttl key : ensures in_i64 (Database.ttl key).
Proof.
  apply ensures_read_entry; [done|]. intros [v [d|]] s; simpl; [apply wrap_i64_range|done].
Qed.

Lemma ensures_type_of key : ensures one_line (Database.type_of key).
Proof. apply ensures_read_entry; [done|]. by intros [[str|l|set|z|h] d] st. Qed.

Lemma ensures_answer {A} (P : A → Prop) (reply : A → string) (op : Task DbState A) :
  ensures P op → (∀ a, P a → reply_ok (reply a)) → ensures reply_ok (answer reply op).
Proof.
  intros Hop Hreply. eapply ensures_bind; [by apply ensures_on_part|].
  intros a Ha. constructor. auto.
Qed.

Lemma ensures_then {A} (t : Task World A) (reply : A → string) :
  (∀ a, reply_ok (reply a)) → ensures reply_ok (a ← t; mret (reply a)).
Proof. intros H. eapply ensures_bind; [apply ensures_true|]. intros a _. by constructor. Qed.

Lemma ensures_execute c : ensures reply_ok (execute c).
Proof.
  destruct c; cbn [execute]; try (destruct with_scores); try (match goal with m : option string |- _ => destruct m end);
    try (constructor; auto using simple_ok with rustkv; fail);
    try (eapply ensures_answer; [apply ensures_true|]; intros; auto with rustkv; fail);
    try (apply ensures_then; intros; auto with rustkv; fail).
  - eapply ensures_answer; [apply ensures_hincrby|apply reply_signed_ok].
  - eapply ensures_answer; [apply ensures_type_of|apply simple_ok].
  - eapply ensures_answer; [apply ensures_ttl|apply integer_ok].
  - eapply ensures_answer; [apply ensures_true|]. intros [] _; auto with rustkv.
  - constructor. by apply simple_ok.
  - apply ensures_then. intros [u|e]; auto with rustkv.
  - constructor. by apply simple_ok.
  - eapply ensures_answer; [apply ensures_incr_by|apply reply_signed_ok].
Qed.

Lemma ensures_dispatch tokens : tokens ≠ [] → ensures reply_ok (dispatch tokens).
Proof.
  intros Hne. unfold dispatch. destruct tokens as [|t ts]; [done|]. clear Hne.
  destruct (parse (t :: ts)) as [c|e]; [|constructor; apply error_ok].
  assert (Hgen : ∀ b : bool, ensures reply_ok
    (reply ← execute c; (if b && negb (starts_with "-"%char reply) then log_write (t :: ts) else mret tt) ;;
     mret reply)).
  { intros b. eapply ensures_bind; [apply ensures_execute|]. intros reply Hr.
    eapply ensures_bind; [apply ensures_true|]. by constructor. }
  destruct c; try apply Hgen. unfold dispatch_spop.
  eapply ensures_bind; [apply ensures_true|]. intros popped _.
  eapply ensures_bind; [apply ensures_true|]. intros _ _. constructor. apply reply_optional_ok.
Qed.
End dispatch.
