(* ===== verification/ReadOnly.v ===== *)
(** Commands that do not write.

    A command that is not a write may evict keys whose deadline has passed; it
    does nothing else to the keyspace, and neither does a write that is answered
    with an error. [only_lapses st s] says that [s] is [st] less such keys. *)

From S2P Require Import Prelude Task RustInt RustStr RustF64 HashOrder Resp Clock Store PubSub.
From S2P Require Import FileSystem Aof Snapshot World Command Execute Dispatch.
From S2P Require Database Keyspace Refinement KeyOps SetAlgebra Invariant.
From S2P Require RSortedSet.
Local Open Scope Z_scope.

Section readonly.
Context {CK : Clock} {HO : HashOrder} {OF : OrderedFloat} {MP : Mpsc} {FS : FileSystem}
  {SD : Serde} {TP : Process}.

Definition only_lapses (st : Store) (s : DbState) : Prop :=
  store s ⊆ st ∧ Keyspace.seen s = view (Keyspace.instant s) st.

Lemma lapses_start s : only_lapses (store s) s.
Proof. done. Qed.

Lemma view_twice t t' st : t ≤ t' → view t' (view t st) = view t' st.
Proof.
  intros Ht. apply map_eq. intros k. rewrite !lookup_view.
  destruct (st !! k) as [e|]; [|done]. simpl. destruct (expired_at t e) eqn:X; [|done].
  simpl. by rewrite (expired_later t t').
Qed.

Lemma instant_mono s s' : (tick s ≤ tick s')%nat → Keyspace.instant s ≤ Keyspace.instant s'.
Proof. apply instant_le. Qed.

(** The clock may move on. *)
Lemma lapses_same st s s' :
  only_lapses st s → store s' = store s → (tick s ≤ tick s')%nat → only_lapses st s'.
Proof.
  intros [Hsub Hview] Hst Htick. split; [by rewrite Hst|].
  pose proof (instant_mono s s' Htick) as Ht. unfold Keyspace.seen in *.
  rewrite Hst, <- (view_twice _ _ (store s) Ht), Hview. by apply view_twice.
Qed.

(** A key whose deadline has passed may go. *)
Lemma lapses_remove st s k e :
  only_lapses st s → store s !! k = Some e → expired_at (Keyspace.instant s) e = true →
  only_lapses st (Keyspace.removed k s).
Proof.
  intros [Hsub Hview] Hk He. split; [etrans; [apply delete_subseteq|done]|].
  unfold Keyspace.seen. change (Keyspace.instant (Keyspace.removed k s)) with (Keyspace.instant s).
  rewrite <- Hview. by eapply view_evict.
Qed.

Lemma lapses_touch st k s : only_lapses st s → only_lapses st (Keyspace.touch k s).
Proof.
  intros H. unfold Keyspace.touch, evict_expired, mbind, state_bind.
  rewrite Keyspace.key_expired_eq. destruct (store s !! k) as [e|] eqn:E; simpl.
  2: { by eapply lapses_same. }
  destruct (expired_at (Keyspace.instant s) e) eqn:X; simpl.
  - eapply (lapses_same _ (Keyspace.removed k s)); [by eapply lapses_remove|done|].
    simpl. case_match. case_match; lia.
  - eapply lapses_same; [exact H|done|]. simpl. case_match. case_match; lia.
Qed.

Lemma keeps_lapses_read {T} st k (absent : T) read :
  (∀ e s, store (read e s).2 = store s ∧ (tick s ≤ tick (read e s).2)%nat) →
  keeps (only_lapses st) (read_entry k absent read).
Proof.
  intros Hread. constructor. intros s Hs. unfold mbind, state_bind, get_entry, gets.
  destruct (store s !! k) as [e|]; [|split; [constructor|done]].
  rewrite KeyOps.is_expired_eq. set (s1 := {| store := store s; tick := _ |}).
  assert (Hs1 : only_lapses st s1).
  { eapply lapses_same; [exact Hs|done|]. simpl. case_match; lia. }
  destruct (expired_at (Keyspace.instant s) e).
  - simpl. split; [|done]. constructor. clear. intros s Hs. rewrite Keyspace.evict_expired_eq.
    simpl. split; [constructor|]. by apply lapses_touch.
  - specialize (Hread e s1). destruct (read e s1) as [r s']. split; [constructor|].
    destruct Hread. by eapply lapses_same.
Qed.

(** A single section that leaves the store as it is. *)
Lemma keeps_lapses_scan {T} st (op : Task DbState T) :
  Invariant.one_section op →
  (∀ s, store (run op s).2 = store s ∧ (tick s ≤ tick (run op s).2)%nat) →
  keeps (only_lapses st) op.
Proof.
  intros Hone Hop. apply Invariant.keeps_one_section; [done|]. intros s Hs.
  destruct (Hop s). by eapply lapses_same.
Qed.

Lemma lapses_read_as {A T} st k (absent : result T StoreError) project (f : A → T) :
  keeps (only_lapses st) (read_entry k absent (Database.read_as project f)).
Proof. by apply keeps_lapses_read. Qed.

Lemma lapses_ttl st k : keeps (only_lapses st) (Database.ttl k).
Proof.
  apply keeps_lapses_read. intros [v [d|]] s; simpl; split; by auto with lia.
Qed.

Ltac scan_by H :=
  apply keeps_lapses_scan; [by eexists|];
  let s := fresh in intros s; pose proof (H s); destruct (run _ s); simpl; tauto.

Lemma lapses_scans st ks pattern :
  keeps (only_lapses st) (Database.exists_ ks) ∧ keeps (only_lapses st) Database.dbsize ∧
  keeps (only_lapses st) (Database.keys pattern) ∧ keeps (only_lapses st) (Database.mget ks).
Proof.
  split_and!.
  - scan_by (KeyOps.exists_spec ks).
  - scan_by KeyOps.dbsize_spec.
  - scan_by (KeyOps.keys_spec pattern).
  - scan_by (KeyOps.mget_spec ks).
Qed.

Lemma lapses_set_algebra st ks :
  keeps (only_lapses st) (Database.sinter ks) ∧ keeps (only_lapses st) (Database.sunion ks) ∧
  keeps (only_lapses st) (Database.sdiff ks).
Proof.
  split_and!; (apply keeps_lapses_scan; [by eexists|]); intros s;
    [pose proof (SetAlgebra.sinter_spec ks s) as H | pose proof (SetAlgebra.sunion_spec ks s) as H
    | pose proof (SetAlgebra.sdiff_spec ks s) as H];
    destruct (run _ s); unfold SetAlgebra.answers in H; simpl; tauto.
Qed.

Lemma lapses_now st : keeps (only_lapses st) (atomically now).
Proof. apply keeps_lapses_scan; [by eexists|]. intros s. simpl. auto with lia. Qed.

Lemma lapses_snapshot st : keeps (only_lapses st) (atomically snapshot).
Proof.
  apply keeps_lapses_scan; [by eexists|]. intros s. rewrite run_atomically.
  pose proof (snapshot_spec s). destruct (snapshot s). simpl. tauto.
Qed.

(** ** Commands *)

Definition world_lapses (st : Store) (w : World) : Prop := only_lapses st (db w).

Lemma lapses_answer {A} st (reply : A → string) (op : Task DbState A) :
  keeps (only_lapses st) op → keeps (world_lapses st) (answer reply op).
Proof.
  intros H. apply keeps_bind; [by apply (keeps_on_db (only_lapses st))|]. intros a. constructor.
Qed.

Lemma lapses_elsewhere {A} st (m : State World A) :
  (∀ w, db (m w).2 = db w) → keeps (world_lapses st) (atomically m).
Proof. apply (keeps_off_db (only_lapses st)). Qed.

Lemma lapses_on_fs {A} st (m : State Fs A) : keeps (world_lapses st) (on_fs m).
Proof. apply lapses_elsewhere. intros w. apply on_fs_db. Qed.

Lemma lapses_save st : keeps (world_lapses st) save.
Proof.
  apply keeps_bind; [by apply lapses_elsewhere|]. intros p.
  destruct (snapshot_path p) as [path|]; [|constructor].
  apply keeps_bind; [apply (keeps_on_db (only_lapses st)), lapses_snapshot|].
  intros snap. destruct (to_vec_pretty snap) as [json|e]; [|constructor].
  apply keeps_bind; [by apply lapses_elsewhere|]. intros n.
  apply keeps_bind; [apply lapses_on_fs|]. intros [u|e]; [apply lapses_on_fs|constructor].
Qed.

Lemma lapses_info st : keeps (world_lapses st) info.
Proof.
  apply keeps_bind; [apply (keeps_on_db (only_lapses st)), lapses_now|]. intros t.
  apply keeps_bind; [by apply lapses_elsewhere|]. intros stats.
  apply keeps_bind; [apply (keeps_on_db (only_lapses st)), (lapses_scans st [] "")|].
  constructor.
Qed.

Lemma lapses_publish st channel payload : keeps (world_lapses st) (db_publish channel payload).
Proof.
  apply lapses_elsewhere. intros w. by destruct (publish channel payload (pubsub w) (mail w)).
Qed.

(** A command that is not a write; [SPOP] is one, though [is_write] says
    otherwise, since [dispatch] logs it in its own way. *)
Definition read_only (c : Command) : Prop :=
  is_write c = false ∧ match c with SPop _ => False | _ => True end.

Lemma lapses_execute st c : read_only c → keeps (world_lapses st) (execute c).
Proof.
  intros [Hw Hpop]. destruct c; try done; clear Hw Hpop; cbn [execute]; try (destruct with_scores);
    try apply lapses_answer; try (by apply lapses_read_as); try (by apply keeps_lapses_read);
    try apply lapses_set_algebra; try apply (lapses_scans st keys pattern);
    try apply (lapses_scans st keys ""); try apply (lapses_scans st [] pattern);
    try apply (lapses_scans st [] "").
  - apply lapses_ttl.
  - constructor.
  - constructor.
  - apply keeps_bind; [apply lapses_info|]. constructor.
  - apply keeps_bind; [apply lapses_save|]. constructor.
  - constructor.
  - apply keeps_bind; [apply lapses_publish|]. constructor.
Qed.

Lemma lapses_dispatch st tokens :
  (∀ c, parse tokens = Ok c → read_only c) → keeps (world_lapses st) (dispatch tokens).
Proof.
  intros Hro. unfold dispatch. destruct tokens as [|name args]; [constructor|].
  destruct (parse (name :: args)) as [c|e]; [|constructor].
  assert (Hc : read_only c) by auto.
  assert (Ht : keeps (world_lapses st)
    (reply ← execute c;
     (if is_write c && negb (starts_with "-"%char reply) then log_write (name :: args)
      else mret tt) ;; mret reply)).
  { apply keeps_bind; [by apply lapses_execute|]. intros reply. destruct Hc as [-> _].
    apply keeps_bind; [constructor|]. constructor. }
  destruct c; try exact Ht. by destruct Hc.
Qed.
End readonly.
