(* ===== verification/ErrorReply.v ===== *)
(** Commands answered with an error.

    An error reply starts with a dash; a command that is answered with one has
    left the keyspace as it was, keys that lapsed apart. *)

From S2P Require Import Prelude Task RustInt RustStr RustF64 HashOrder Ranges Resp Clock Store.
From S2P Require Import PubSub FileSystem Aof Snapshot World Command Execute Dispatch ReadOnly.
From S2P Require Database Keyspace Refinement KeyOps Invariant.
From S2P Require RList RSortedSet.
Local Open Scope Z_scope.

Section errors.
Context {CK : Clock} {HO : HashOrder} {OF : OrderedFloat} {MP : Mpsc} {FS : FileSystem}
  {SD : Serde} {TP : Process}.

Definition is_error (reply : string) : bool := starts_with "-"%char reply.

(** An operation that leaves what its key holds. *)
Lemma refines_lapses {T} (op : Task DbState T) k f s :
  Keyspace.refines op k f → (f (Keyspace.seen s !! k)).2 = Keyspace.seen s !! k →
  only_lapses (store s) (run op s).2.
Proof.
  intros Hop Hf. specialize (Hop s). destruct (run op s) as [r s'].
  destruct Hop as (_ & Ht & Hst). rewrite Hf in Hst. cbn [snd].
  rewrite Keyspace.seen_lookup in Hst. destruct (store s !! k) as [e|] eqn:E; simpl in Hst.
  - destruct (expired_at (Keyspace.instant s) e) eqn:X.
    + eapply (lapses_same _ (Keyspace.removed k s)); [|exact Hst|exact Ht].
      by eapply lapses_remove.
    + rewrite <- E, partial_alter_self in Hst. by eapply lapses_same.
  - rewrite <- E, partial_alter_self in Hst. by eapply lapses_same.
Qed.

(** A specification whose errors change nothing. *)
Definition errors_quiet {T} (f : Keyspace.key_spec (result T StoreError)) : Prop :=
  ∀ o e, (f o).1 = Err e → (f o).2 = o.

Lemma typed_errors_quiet {A T} inject project (f : option A → result T StoreError * option A) :
  (∀ v a, project v = Some a ↔ v = inject a) →
  (∀ o e, (f o).1 = Err e → (f o).2 = o) →
  errors_quiet (Keyspace.typed_spec inject project f).
Proof.
  intros Hproj Hf [e|] err; unfold Keyspace.typed_spec.
  - destruct (project (value e)) as [a|] eqn:E; [|done]. specialize (Hf (Some a) err).
    destruct (f (Some a)) as [r o]. simpl in *. intros Hr. rewrite Hf by done. simpl.
    f_equal. apply Refinement.with_same_value. by apply Hproj.
  - specialize (Hf None err). destruct (f None) as [r o]. simpl in *. intros Hr.
    by rewrite Hf.
Qed.

Lemma list_errors_quiet {T} (op : Refinement.list_op T) o e :
  (Refinement.list_spec op o).1 = Err e → (Refinement.list_spec op o).2 = o.
Proof.
  destruct op; simpl; try done. destruct o as [l|]; [|done]. by destruct (normalize_index _ _).
Qed.

Lemma set_errors_quiet {T} (op : Refinement.set_op T) o e :
  (Refinement.set_spec op o).1 = Err e → (Refinement.set_spec op o).2 = o.
Proof. destruct op; simpl; try done. by destruct o. Qed.

Lemma zset_errors_quiet {T} (op : Refinement.zset_op T) o e :
  (Refinement.zset_spec op o).1 = Err e → (Refinement.zset_spec op o).2 = o.
Proof.
  destruct op; simpl; try done; [by destruct (fold_left _ _ _)|]. by case_match.
Qed.

Lemma hash_errors_quiet {T} (op : Refinement.hash_op T) o e :
  (Refinement.hash_spec op o).1 = Err e → (Refinement.hash_spec op o).2 = o.
Proof.
  destruct op; simpl; try done. destruct (from_option _ _ _); [|done]. by destruct (checked_add _ _).
Qed.

Lemma string_errors_quiet {T} (op : Refinement.string_op T) o e :
  (Refinement.string_spec op o).1 = Err e → (Refinement.string_spec op o).2 = o.
Proof.
  destruct op; simpl; try done. destruct (from_option _ _ _); [|done]. by destruct (checked_add _ _).
Qed.

Lemma getset_errors_quiet v : errors_quiet (Refinement.getset_spec v).
Proof. intros [[[] d]|] e; simpl; done. Qed.

(** ** Replies *)

(** Running the task, an error reply means that keys at most lapsed. *)
Definition error_quiet (t : Task World string) : Prop :=
  ∀ w, let '(reply, w') := run t w in
    is_error reply = true → only_lapses (store (db w)) (db w').

Lemma run_answer {A} (reply : A → string) (op : Task DbState A) w :
  run (answer reply op) w = (reply (run op (db w)).1, set_db (run op (db w)).2 w).
Proof.
  unfold answer. rewrite run_bind, run_on_db. by destruct (run op (db w)) as [a d].
Qed.

Lemma error_quiet_answer {T} (reply : result T StoreError → string) op k f :
  Keyspace.refines op k f → errors_quiet f → (∀ a, is_error (reply (Ok a)) = false) →
  error_quiet (answer reply op).
Proof.
  intros Hop Hf Hreply w. rewrite run_answer. intros He. simpl db.
  assert (∃ e, (run op (db w)).1 = Err e) as [e Hr].
  { destruct ((run op (db w)).1) as [a|e]; [|by eexists]. by rewrite Hreply in He. }
  eapply refines_lapses; [exact Hop|]. apply (Hf _ e). specialize (Hop (db w)).
  destruct (run op (db w)) as [r s']. destruct Hop as (Hspec & _). simpl in Hr. subst r.
  unfold Keyspace.apply_spec in Hspec. destruct (f _) as [r o]. by inversion Hspec.
Qed.

Lemma error_quiet_never {A} (reply : A → string) (op : Task DbState A) :
  (∀ a, is_error (reply a) = false) → error_quiet (answer reply op).
Proof. intros H w. rewrite run_answer, H. done. Qed.

Lemma error_quiet_lapses t : (∀ st, keeps (world_lapses st) t) → error_quiet t.
Proof.
  intros H w. pose proof (keeps_run _ t w (H (store (db w))) (lapses_start (db w))) as Hk.
  by destruct (run t w).
Qed.

(** The replies to a success. *)
Lemma ok_count n : is_error (reply_count (Ok n)) = false.
Proof. done. Qed.
Lemma ok_signed n : is_error (reply_signed (Ok n)) = false.
Proof. done. Qed.
Lemma ok_bool b : is_error (reply_bool (Ok b)) = false.
Proof. done. Qed.
Lemma ok_optional o : is_error (reply_optional (Ok o)) = false.
Proof. by destruct o. Qed.
Hint Resolve ok_count ok_signed ok_bool ok_optional : rustkv.

Lemma error_quiet_list {T} k (op : Refinement.list_op T) reply :
  (∀ a, is_error (reply (Ok a)) = false) →
  error_quiet (answer reply (Refinement.run_list_op k op)).
Proof.
  eapply error_quiet_answer; [apply Refinement.list_ops_refine|].
  apply typed_errors_quiet; [apply Refinement.as_list_inj|apply list_errors_quiet].
Qed.

Lemma error_quiet_set {T} k (op : Refinement.set_op T) reply :
  (∀ a, is_error (reply (Ok a)) = false) →
  error_quiet (answer reply (Refinement.run_set_op k op)).
Proof.
  eapply error_quiet_answer; [apply Refinement.set_ops_refine|].
  apply typed_errors_quiet; [apply Refinement.as_set_inj|apply set_errors_quiet].
Qed.

Lemma error_quiet_zset {T} k (op : Refinement.zset_op T) reply :
  Refinement.zset_op_ok op → (∀ a, is_error (reply (Ok a)) = false) →
  error_quiet (answer reply (Refinement.run_zset_op k op)).
Proof.
  intros Hop. eapply error_quiet_answer; [by apply Refinement.zset_ops_refine|].
  apply typed_errors_quiet; [apply Refinement.as_zset_inj|apply zset_errors_quiet].
Qed.

Lemma error_quiet_hash {T} k (op : Refinement.hash_op T) reply :
  Refinement.hash_op_ok op → (∀ a, is_error (reply (Ok a)) = false) →
  error_quiet (answer reply (Refinement.run_hash_op k op)).
Proof.
  intros Hop. eapply error_quiet_answer; [by apply Refinement.hash_ops_refine|].
  apply typed_errors_quiet; [apply Refinement.as_hash_inj|apply hash_errors_quiet].
Qed.

Lemma as_str_inj v s : as_str v = Some s ↔ v = VStr s.
Proof. destruct v; naive_solver. Qed.

Lemma error_quiet_string {T} k (op : Refinement.string_op T) reply :
  Refinement.string_op_ok op → (∀ a, is_error (reply (Ok a)) = false) →
  error_quiet (answer reply (Refinement.run_string_op k op)).
Proof.
  intros Hop. eapply error_quiet_answer; [by apply Refinement.string_ops_refine|].
  apply typed_errors_quiet; [apply as_str_inj|apply string_errors_quiet].
Qed.

Lemma error_quiet_rename k new_key :
  error_quiet (answer (λ b : bool, if b then ok_reply else error "ERR no such key")
    (Database.rename k new_key)).
Proof.
  intros w. rewrite run_answer, KeyOps.rename_eq.
  destruct (Keyspace.seen (db w) !! k) as [e|]; simpl; [done|]. intros _.
  apply lapses_touch, lapses_start.
Qed.

(** ** Every command *)

Lemma error_quiet_execute c : command_wf c → error_quiet (execute c).
Proof.
  intros Hc. destruct (is_write c) eqn:Hw.
  - destruct c; try done; cbn [execute command_wf] in *; clear Hw;
      try (by apply error_quiet_never);
      first
      [ apply error_quiet_rename
      | apply (error_quiet_list key (Refinement.LPush values))
      | apply (error_quiet_list key (Refinement.RPush values))
      | apply (error_quiet_list key Refinement.LPop)
      | apply (error_quiet_list key Refinement.RPop)
      | apply (error_quiet_list key (Refinement.LSet index value))
      | apply (error_quiet_set key (Refinement.SAdd values))
      | apply (error_quiet_set key (Refinement.SRem values))
      | apply (error_quiet_zset key (Refinement.ZAdd members))
      | apply (error_quiet_zset key (Refinement.ZRem member))
      | apply (error_quiet_zset key (Refinement.ZIncrBy increment member))
      | apply (error_quiet_hash key (Refinement.HSet field value))
      | apply (error_quiet_hash key (Refinement.HDel field))
      | apply (error_quiet_hash key (Refinement.HIncrBy field delta))
      | apply (error_quiet_string key (Refinement.IncrBy delta))
      | apply (error_quiet_string key (Refinement.Append value))
      | eapply error_quiet_answer; [apply Refinement.getset_refines|apply getset_errors_quiet|] ];
      simpl; auto with rustkv; try (by intros []).
  - destruct c; try done;
      try (apply error_quiet_lapses; intros st; by apply lapses_execute).
    apply (error_quiet_set key Refinement.SPop). auto with rustkv.
Qed.

(** Writing to the log does not touch the store. *)
Lemma run_log_db tokens w : db (run (log_write tokens) w).2 = db w.
Proof.
  unfold log_write. rewrite run_bind, run_gets. destruct (replaying _); [done|].
  destruct (aof (persistence w)) as [a|]; [|done]. rewrite run_bind, run_on_fs.
  by destruct (append a tokens (fs w)).
Qed.

Lemma error_quiet_dispatch tokens : error_quiet (dispatch tokens).
Proof.
  intros w. unfold dispatch. destruct tokens as [|name args]; [done|].
  destruct (parse (name :: args)) as [c|e] eqn:Hparse; [|intros _; apply lapses_start].
  pose proof (error_quiet_execute c (parse_wf _ _ Hparse) w) as Hc.
  assert (Hgen : let '(reply, w') := run (reply ← execute c;
      (if is_write c && negb (starts_with "-"%char reply) then log_write (name :: args)
       else mret tt) ;; mret reply) w in
    is_error reply = true → only_lapses (store (db w)) (db w')).
  { rewrite run_bind. destruct (run (execute c) w) as [reply w1]. rewrite run_bind.
    destruct (is_write c && _).
    - pose proof (run_log_db (name :: args) w1) as Hlog.
      destruct (run (log_write _) w1) as [[] w2]. simpl in *. by rewrite Hlog.
    - exact Hc. }
  destruct c; try exact Hgen. clear Hgen. cbn [execute] in Hc. rewrite run_answer in Hc.
  unfold dispatch_spop. rewrite run_bind, run_on_db.
  destruct (run (Database.spop key) (db w)) as [r d]. simpl in Hc. rewrite run_bind.
  destruct r as [[m|]|e]; try (intros Hr; by apply Hc).
  destruct (run (log_write _) _) as [[] w2] eqn:Hlog. simpl. intros Hr. discriminate Hr.
Qed.
End errors.
