(* ===== verification/Effects.v ===== *)
(** What a write does to a store without deadlines, as a function of the store
    alone.

    [effect] takes neither the clock nor the iteration order of a hash table, so
    two servers that apply the same writes agree. It is read off the
    specifications of [Refinement] and [KeyOps]. *)

From S2P Require Import Prelude Task RustInt RustStr RustF64 HashOrder Ranges Resp Clock Store.
From S2P Require Import PubSub FileSystem Aof Snapshot World Command Execute Dispatch ReadOnly.
From S2P Require Import ErrorReply.
From S2P Require Database Keyspace Refinement KeyOps Invariant.
From S2P Require RList RSortedSet.
Local Open Scope Z_scope.

(** No key has a deadline. *)
Definition no_deadlines (st : Store) : Prop := map_Forall (λ _ e, expires_at e = None) st.

(** The commands that give a key no deadline. [EXPIRE] with no time left
    deletes. *)
Definition untimed (c : Command) : Prop :=
  match c with
  | Set_ _ _ (Some _) => False
  | Expire _ seconds => seconds ≤ 0
  | _ => True
  end.

(** The store once a key's specification has been applied. *)
Definition on_key {T} (k : string) (f : Keyspace.key_spec T) (st : Store) : Store :=
  partial_alter (λ _, (f (st !! k)).2) k st.

Section effect.
Context {OF : OrderedFloat}.

Definition list_effect {T} k (op : Refinement.list_op T) : Store → Store :=
  on_key k (Keyspace.typed_spec VList as_list (Refinement.list_spec op)).
Definition string_effect {T} k (op : Refinement.string_op T) : Store → Store :=
  on_key k (Keyspace.typed_spec VStr as_str (Refinement.string_spec op)).
Definition set_effect {T} k (op : Refinement.set_op T) : Store → Store :=
  on_key k (Keyspace.typed_spec VSet as_set (@Refinement.set_spec canonical_order T op)).
Definition zset_effect {T} k (op : Refinement.zset_op T) : Store → Store :=
  on_key k (Keyspace.typed_spec VSortedSet as_sorted_set (Refinement.zset_spec op)).
Definition hash_effect {T} k (op : Refinement.hash_op T) : Store → Store :=
  on_key k (Keyspace.typed_spec VHash as_hash (@Refinement.hash_spec canonical_order T op)).

Definition effect (c : Command) : Store → Store :=
  match c with
  | Set_ key value _ => <[key := Keyspace.fresh_string value]>
  | Del keys => λ st, foldl (λ st k, delete k st) st keys
  | LPush key values => list_effect key (Refinement.LPush values)
  | RPush key values => list_effect key (Refinement.RPush values)
  | LPop key => list_effect key Refinement.LPop
  | RPop key => list_effect key Refinement.RPop
  | LSet key index value => list_effect key (Refinement.LSet index value)
  | SAdd key values => set_effect key (Refinement.SAdd values)
  | SRem key values => set_effect key (Refinement.SRem values)
  | ZAdd key members => zset_effect key (Refinement.ZAdd members)
  | ZRem key member => zset_effect key (Refinement.ZRem member)
  | ZIncrBy key increment member => zset_effect key (Refinement.ZIncrBy increment member)
  | HSet key field value => hash_effect key (Refinement.HSet field value)
  | HDel key field => hash_effect key (Refinement.HDel field)
  | HIncrBy key field delta => hash_effect key (Refinement.HIncrBy field delta)
  | IncrBy key delta => string_effect key (Refinement.IncrBy delta)
  | Append key value => string_effect key (Refinement.Append value)
  | GetSet key value => on_key key (Refinement.getset_spec value)
  | SetNx key value => on_key key (Refinement.setnx_spec value)
  | MSet pairs => λ st, foldl (λ st '(k, v), <[k := Keyspace.fresh_string v]> st) st pairs
  | Expire key _ => delete key
  | Rename key new_key => λ st,
      match st !! key with
      | Some e => <[new_key := e]> (delete key st)
      | None => st
      end
  | FlushAll => λ _, ∅
  | _ => id
  end.

(** ** Stores without deadlines stay so *)

Lemma no_deadlines_insert k e st :
  expires_at e = None → no_deadlines st → no_deadlines (<[k := e]> st).
Proof. intros He Hst. by apply map_Forall_insert_2. Qed.

Lemma no_deadlines_delete k st : no_deadlines st → no_deadlines (delete k st).
Proof. apply map_Forall_delete. Qed.

Lemma no_deadlines_on_key {T} k (f : Keyspace.key_spec T) st :
  (∀ o e, (∀ e, o = Some e → expires_at e = None) → (f o).2 = Some e → expires_at e = None) →
  no_deadlines st → no_deadlines (on_key k f st).
Proof.
  intros Hf Hst j e. unfold on_key. destruct (decide (j = k)) as [->|Hj].
  - rewrite lookup_partial_alter_eq. apply Hf. intros e'. apply Hst.
  - rewrite lookup_partial_alter_ne by done. apply Hst.
Qed.

Lemma no_deadlines_typed {A T} inject project (f : option A → result T StoreError * option A) k st :
  no_deadlines st → no_deadlines (on_key k (Keyspace.typed_spec inject project f) st).
Proof.
  apply no_deadlines_on_key. intros [e0|] e He; unfold Keyspace.typed_spec.
  - destruct (project (value e0)) as [a|]; [|intros [= <-]; by apply He].
    destruct (f (Some a)) as [r [a'|]]; simpl; [|done].
    intros [= <-]. exact (He e0 eq_refl).
  - destruct (f None) as [r [a'|]]; simpl; [|done]. by intros [= <-].
Qed.

Lemma no_deadlines_effect c st : no_deadlines st → no_deadlines (effect c st).
Proof.
  intros H. destruct c; simpl; try done; try (by apply no_deadlines_typed).
  - by apply no_deadlines_insert.
  - revert st H. induction keys as [|k ks IH]; intros st H; [done|]. by apply IH, no_deadlines_delete.
  - by apply no_deadlines_delete.
  - destruct (st !! key) as [e|] eqn:E; [|done].
    apply no_deadlines_insert; [by apply (H key)|by apply no_deadlines_delete].
  - revert st H. induction pairs as [|[k v] ps IH]; intros st H; [done|].
    by apply IH, no_deadlines_insert.
  - revert H. apply no_deadlines_on_key. intros [e0|] e He; simpl; [naive_solver|]. by intros [= <-].
  - revert H. apply no_deadlines_on_key. intros [[[] d]|] e He; simpl; try (naive_solver);
      by intros [= <-].
Qed.
End effect.

Section effects.
Context {CK : Clock} {HO : HashOrder} {OF : OrderedFloat} {MP : Mpsc} {FS : FileSystem}
  {SD : Serde} {TP : Process}.

(** Without deadlines everything stored is seen, and nothing lapses. *)
Lemma no_deadlines_view t st : no_deadlines st → view t st = st.
Proof.
  intros H. apply map_eq. intros k. rewrite lookup_view. destruct (st !! k) as [e|] eqn:E; [|done].
  simpl. unfold expired_at. by rewrite (H k e E).
Qed.

Lemma no_deadlines_seen s : no_deadlines (store s) → Keyspace.seen s = store s.
Proof. apply no_deadlines_view. Qed.

Lemma no_deadlines_lapses st s : no_deadlines st → only_lapses st s → store s = st.
Proof.
  intros H [Hsub Hview]. rewrite no_deadlines_view in Hview by done.
  apply (anti_symm (⊆)); [done|]. rewrite <- Hview. unfold Keyspace.seen, view.
  apply map_filter_subseteq.
Qed.

Lemma refines_on_key {T} (op : Task DbState T) k f s :
  Keyspace.refines op k f → no_deadlines (store s) →
  store (run op s).2 = on_key k f (store s).
Proof.
  intros Hop H. specialize (Hop s). destruct (run op s) as [r s']. destruct Hop as (_ & _ & Hst).
  simpl. by rewrite Hst, no_deadlines_seen.
Qed.

Lemma touch_no_deadlines k s : no_deadlines (store s) → store (Keyspace.touch k s) = store s.
Proof. intros H. by rewrite Keyspace.touch_raw, no_deadlines_seen, partial_alter_self. Qed.

Lemma expire_effect k seconds s :
  seconds ≤ 0 → no_deadlines (store s) →
  store (run (Database.expire k seconds) s).2 = delete k (store s).
Proof.
  intros Hs H. rewrite KeyOps.expire_now_eq, no_deadlines_seen by done.
  destruct (store s !! k) eqn:E; simpl; rewrite touch_no_deadlines by done; [done|].
  by rewrite delete_id.
Qed.

Lemma persist_effect k s :
  no_deadlines (store s) → store (run (Database.persist k) s).2 = store s.
Proof.
  intros H. rewrite (refines_on_key _ _ _ _ (KeyOps.persist_refines k) H). unfold on_key.
  assert ((KeyOps.persist_spec (store s !! k)).2 = store s !! k) as ->; [|apply partial_alter_self].
  destruct (store s !! k) as [[v d]|] eqn:E; [|done]. pose proof (H k _ E) as Hd. simpl in Hd. by subst.
Qed.

Lemma rename_effect k new_key s :
  no_deadlines (store s) →
  store (run (Database.rename k new_key) s).2 =
    match store s !! k with Some e => <[new_key := e]> (delete k (store s)) | None => store s end.
Proof.
  intros H. rewrite KeyOps.rename_eq, no_deadlines_seen by done.
  destruct (store s !! k) as [e|]; simpl; by rewrite touch_no_deadlines.
Qed.

(** A write does what [effect] says, whatever the clock and the hash order. *)
Lemma execute_effect c w :
  command_wf c → is_write c = true → untimed c → no_deadlines (store (db w)) →
  store (db (run (execute c) w).2) = effect c (store (db w)).
Proof.
  intros Hwf Hw Ht Hst. set (s := db w).
  assert (Hans : ∀ A (reply : A → string) op,
    store (run op s).2 = effect c (store s) →
    store (db (run (answer reply op) w).2) = effect c (store s)).
  { intros A reply op H. by rewrite run_answer. }
  destruct c; try done; cbn [execute command_wf untimed] in *; apply Hans; clear Hans Hw.
  - by destruct ttl.
  - pose proof (KeyOps.del_spec keys s) as H. destruct (run _ s) as [r s']. by destruct H.
  - by apply refines_on_key; [apply (Refinement.list_ops_refine key (Refinement.LPush values))|].
  - by apply refines_on_key; [apply (Refinement.list_ops_refine key (Refinement.RPush values))|].
  - by apply refines_on_key; [apply (Refinement.list_ops_refine key Refinement.LPop)|].
  - by apply refines_on_key; [apply (Refinement.list_ops_refine key Refinement.RPop)|].
  - rewrite (refines_on_key _ _ _ s (Refinement.set_ops_refine key (Refinement.SAdd values)) Hst). done.
  - rewrite (refines_on_key _ _ _ s (Refinement.set_ops_refine key (Refinement.SRem values)) Hst). done.
  - by apply refines_on_key; [apply (Refinement.zset_ops_refine key (Refinement.ZAdd members))|].
  - by apply refines_on_key; [apply (Refinement.zset_ops_refine key (Refinement.ZRem member))|].
  - rewrite (refines_on_key _ _ _ s
      (Refinement.hash_ops_refine key (Refinement.HSet field value) I) Hst). done.
  - rewrite (refines_on_key _ _ _ s (Refinement.hash_ops_refine key (Refinement.HDel field) I) Hst). done.
  - rewrite (refines_on_key _ _ _ s
      (Refinement.hash_ops_refine key (Refinement.HIncrBy field delta) Hwf) Hst). done.
  - by apply expire_effect.
  - by apply persist_effect.
  - by apply rename_effect.
  - by apply refines_on_key; [apply (Refinement.string_ops_refine key (Refinement.IncrBy delta))|].
  - by apply refines_on_key; [apply (Refinement.string_ops_refine key (Refinement.Append value))|].
  - by rewrite KeyOps.mset_spec.
  - by apply refines_on_key; [apply Refinement.setnx_refines|].
  - by apply refines_on_key; [apply Refinement.getset_refines|].
  - by apply refines_on_key; [apply (Refinement.list_ops_refine key (Refinement.LSet index value))|].
  - by apply refines_on_key; [apply (Refinement.zset_ops_refine key (Refinement.ZIncrBy increment member))|].
Qed.
End effects.
