(* ===== verification/Session.v ===== *)
(** Sessions ([session.rs]): transactions and subscriptions of one connection.

    A [Session] belongs to its connection's task alone, so its methods take and
    return it; what they do to the shared state is in the [Task]. *)

From S2P Require Import Prelude Task RustInt RustStr RustF64 HashOrder Resp Clock Store PubSub.
From S2P Require Import FileSystem Aof Snapshot World Command Execute.
Local Open Scope Z_scope.

Section session.
Context {CK : Clock} {HO : HashOrder} {OF : OrderedFloat} {MP : Mpsc} {FS : FileSystem}
  {SD : Serde} {TP : Process}.

Record Transaction := { commands : list (list string); dirty : bool }.

Record Session := {
  id : Z;
  mailbox_sender : Sender;
  subscriptions : gset string;
  transaction : option Transaction
}.

Definition set_subscriptions (c : gset string) (s : Session) : Session :=
  {| id := id s; mailbox_sender := mailbox_sender s; subscriptions := c;
     transaction := transaction s |}.
Definition set_transaction (t : option Transaction) (s : Session) : Session :=
  {| id := id s; mailbox_sender := mailbox_sender s; subscriptions := subscriptions s;
     transaction := t |}.

(** [Session::new]. The receiver is the sender's mailbox. *)
Definition new_session : Task World Session :=
  sender ← on_mail unbounded_channel;
  id ← on_pubsub next_id;
  mret {| id := id; mailbox_sender := sender; subscriptions := ∅; transaction := None |}.

Definition is_subscribed (s : Session) : bool := negb (bool_decide (subscriptions s = ∅)).

Definition begin_multi (s : Session) : string * Session :=
  match transaction s with
  | Some _ => (error "ERR MULTI calls can not be nested", s)
  | None => (simple_string "OK", set_transaction (Some {| commands := []; dirty := false |}) s)
  end.

Definition discard (s : Session) : string * Session :=
  match transaction s with
  | Some _ => (simple_string "OK", set_transaction None s)
  | None => (error "ERR DISCARD without MULTI", s)
  end.

(** The loop of [exec]. *)
Fixpoint run_queue (queue : list (list string)) (reply : string) : Task World string :=
  match queue with
  | [] => mret reply
  | command :: queue =>
      r ← dispatch command;
      run_queue queue (reply +:+ r)
  end.

Definition exec (s : Session) : Task World (string * Session) :=
  match transaction s with
  | None => mret (error "ERR EXEC without MULTI", s)
  | Some t =>
      let s := set_transaction None s in
      if dirty t then
        mret (error "EXECABORT Transaction discarded because of previous errors.", s)
      else
        reply ← run_queue (commands t)
                  ("*" +:+ int_to_string (Z.of_nat (length (commands t))) +:+ CRLF);
        mret (reply, s)
  end.

Definition subscription_reply (kind channel : string) (count : Z) : string :=
  "*3" +:+ CRLF +:+ bulk_string kind +:+ bulk_string channel +:+ integer (wrap_i64 count).

Definition subscription_reply_null (kind : string) : string :=
  "*3" +:+ CRLF +:+ bulk_string kind +:+ null +:+ integer 0.

Definition subscribed_count (s : Session) : Z := Z.of_nat (size (subscriptions s)).

(** The loop of [subscribe]. *)
Fixpoint subscribe_each (channels : list string) (reply : string) (s : Session)
    : Task World (string * Session) :=
  match channels with
  | [] => mret (reply, s)
  | channel :: channels =>
      let s' := set_subscriptions ({[channel]} ∪ subscriptions s) s in
      (if decide (channel ∈ subscriptions s) then mret tt
       else on_pubsub (subscribe channel (id s) (mailbox_sender s))) ;;
      subscribe_each channels
        (reply +:+ subscription_reply "subscribe" channel (subscribed_count s')) s'
  end.

Definition subscribe_command (channels : list string) (s : Session)
    : Task World (string * Session) :=
  match channels with
  | [] => mret (error "ERR wrong number of arguments for 'subscribe' command", s)
  | _ => subscribe_each channels "" s
  end.

(** The loop of [unsubscribe]. *)
Fixpoint unsubscribe_each (targets : list string) (reply : string) (s : Session)
    : Task World (string * Session) :=
  match targets with
  | [] => mret (reply, s)
  | channel :: targets =>
      let s' := set_subscriptions (subscriptions s ∖ {[channel]}) s in
      (if decide (channel ∈ subscriptions s) then on_pubsub (unsubscribe channel (id s))
       else mret tt) ;;
      unsubscribe_each targets
        (reply +:+ subscription_reply "unsubscribe" channel (subscribed_count s')) s'
  end.

Definition unsubscribe_command (channels : list string) (s : Session)
    : Task World (string * Session) :=
  let targets := match channels with [] => iter_set (subscriptions s) | _ => channels end in
  match targets with
  | [] => mret (subscription_reply_null "unsubscribe", s)
  | _ => unsubscribe_each targets "" s
  end.

(** A command inside a transaction. *)
Definition queue_command (name : string) (tokens : list string) (t : Transaction) (s : Session)
    : string * Session :=
  let spoiled := set_transaction (Some {| commands := commands t; dirty := true |}) s in
  if decide (name = "SUBSCRIBE" ∨ name = "UNSUBSCRIBE") then
    (error ("ERR " +:+ name +:+ " is not allowed in transactions"), spoiled)
  else
    match parse tokens with
    | Ok _ =>
        (simple_string "QUEUED",
         set_transaction (Some {| commands := commands t ++ [tokens]; dirty := dirty t |}) s)
    | Err e => (error (command_error_to_string e), spoiled)
    end.

(** [Session::handle] *)
Definition handle (tokens : list string) (s : Session) : Task World (string * Session) :=
  match tokens with
  | [] => mret ("", s)
  | name :: args =>
      let name := to_ascii_uppercase name in
      if is_subscribed s &&
         negb (bool_decide (name = "SUBSCRIBE" ∨ name = "UNSUBSCRIBE" ∨ name = "PING")) then
        mret (error ("ERR Can't execute '" +:+ to_ascii_lowercase name +:+
                "': only (UN)SUBSCRIBE / PING are allowed in subscribe mode"), s)
      else if decide (name = "MULTI") then mret (begin_multi s)
      else if decide (name = "EXEC") then exec s
      else if decide (name = "DISCARD") then mret (discard s)
      else
        match transaction s with
        | Some t => mret (queue_command name tokens t s)
        | None =>
            if decide (name = "SUBSCRIBE") then subscribe_command args s
            else if decide (name = "UNSUBSCRIBE") then unsubscribe_command args s
            else reply ← dispatch tokens; mret (reply, s)
        end
  end.

(** [Session::cleanup] *)
Fixpoint cleanup_each (channels : list string) (id : Z) : Task World unit :=
  match channels with
  | [] => mret tt
  | channel :: channels =>
      on_pubsub (unsubscribe channel id) ;; cleanup_each channels id
  end.

Definition cleanup (s : Session) : Task World unit :=
  cleanup_each (iter_set (subscriptions s)) (id s).
End session.
