(* ===== verification/Config.v ===== *)
(** The configuration ([config.rs]). The parsing of flags and environment
    variables is [clap]'s. *)

From S2P Require Import Prelude RustInt Clock.
Local Open Scope Z_scope.

Record Config := {
  host : string;
  port : Z;
  log_level : string;
  sweep_secs : Z;
  snapshot_file : string;
  appendonly : bool;
  appendfsync : string;
  aof_file : string
}.

(** The [default_value] of each flag. *)
Definition default_config : Config := {|
  host := "127.0.0.1"; port := 7335; log_level := "info"; sweep_secs := 10;
  snapshot_file := "dump.rdb.json"; appendonly := false; appendfsync := "everysec";
  aof_file := "appendonly.aof"
|}.

Definition address (c : Config) : string := host c +:+ ":" +:+ int_to_string (port c).

(** In nanoseconds. *)
Definition sweep_interval (c : Config) : Z := from_secs (sweep_secs c `max` 1).
