(* ===== verification/Server.v ===== *)
(** The request reader, the replay of the log and the life of a connection
    ([server/mod.rs]).

    [tokio::io] is not code of this repository: a reader is an instance of
    [AsyncBufRead].  [SliceReader] adds the documented behaviour of a buffered
    reader over bytes in memory, which is what the replay uses and what a socket
    is as long as the client's bytes arrive. *)

From S2P Require Import Prelude Task RustInt RustStr RustF64 HashOrder Resp Clock Store PubSub.
From S2P Require Import FileSystem Aof Snapshot World Command Execute Session Config.
From S2P Require Database.
Local Open Scope Z_scope.

Definition MAX_MULTIBULK : Z := 1024 * 1024.
Definition MAX_BULK_BYTES : Z := 512 * 1024 * 1024.

(** [read_line] reads up to and including a line feed and fails when the line is
    not UTF-8; [read_exact] fails when the stream ends before. *)
Class AsyncBufRead : Type := {
  Reader : Type;
  ReadError : Type;
  read_line : State Reader (result string ReadError);
  read_exact : nat → State Reader (result string ReadError);
  (** [Error::new(ErrorKind::InvalidData, message)] *)
  invalid_data : string → ReadError
}.

Class SliceReader (AR : AsyncBufRead) : Type := {
  (** The bytes not read yet. *)
  remaining : Reader → string;
  slice_reader : string → Reader;
  remaining_slice b : remaining (slice_reader b) = b;
  read_line_spec r :
    let '(line, rest) := split_line (remaining r) in
    if utf8_valid line then
      (read_line r).1 = Ok line ∧ remaining (read_line r).2 = rest
    else ∃ e, (read_line r).1 = Err e;
  read_exact_spec n r :
    if decide (n ≤ String.length (remaining r))%nat then
      (read_exact n r).1 = Ok (stake n (remaining r)) ∧
      remaining (read_exact n r).2 = sdrop n (remaining r)
    else ∃ e, (read_exact n r).1 = Err e
}.

(** Reading from a string, for concrete examples. *)
Definition string_read : AsyncBufRead := {|
  Reader := string;
  ReadError := string;
  read_line s :=
    let '(line, rest) := split_line s in
    if utf8_valid line then (Ok line, rest) else (Err "stream did not contain valid UTF-8", rest);
  read_exact n s :=
    if decide (n ≤ String.length s)%nat then (Ok (stake n s), sdrop n s)
    else (Err "early eof", "");
  invalid_data message := message
|}.

#[export] Instance string_slice : SliceReader string_read.
Proof.
  refine (Build_SliceReader string_read (λ s : string, s) (λ b : string, b) _ _ _).
  - done.
  - intros r. simpl. destruct (split_line r) as [line rest]. destruct (utf8_valid line); eauto.
  - intros n r. simpl. case_decide; eauto.
Defined.

Section reader.
Context {AR : AsyncBufRead}.

Definition protocol_error (message : string) : ReadError :=
  invalid_data ("protocol error: " +:+ message).

(** [header.trim_end().strip_prefix('$').ok_or(..)?.parse().map_err(..)?] and
    the check of the size. *)
Definition bulk_length (header : string) : result Z ReadError :=
  let? digits := ok_or (strip_prefix "$"%char (trim_end header))
                   (protocol_error "expected a bulk string") in
  let? length := ok_or (parse_usize digits) (protocol_error "invalid bulk length") in
  if decide (length > MAX_BULK_BYTES) then Err (protocol_error "bulk length out of range")
  else Ok length.

Definition read_bulk_string : State Reader (result string ReadError) :=
  header ← read_line;
  match header with
  | Err e => mret (Err e)
  | Ok header =>
      if decide (header = "") then mret (Err (protocol_error "unexpected end of input"))
      else
        match bulk_length header with
        | Err e => mret (Err e)
        | Ok length =>
            buffer ← read_exact (Z.to_nat (length + 2));
            mret match buffer with
                 | Err e => Err e
                 | Ok buffer =>
                     let data := stake (Z.to_nat length) buffer in
                     if utf8_valid data then Ok data
                     else Err (protocol_error "invalid UTF-8 in bulk string")
                 end
        end
  end.

(** The loop of [read_multibulk]. *)
Fixpoint read_bulks (count : nat) : State Reader (result (list string) ReadError) :=
  match count with
  | O => mret (Ok [])
  | S count =>
      token ← read_bulk_string;
      match token with
      | Err e => mret (Err e)
      | Ok token =>
          tokens ← read_bulks count;
          mret (let? tokens := tokens in Ok (token :: tokens))
      end
  end.

Definition read_multibulk (count : string) : State Reader (result (list string) ReadError) :=
  match parse_usize count with
  | None => mret (Err (protocol_error "invalid multibulk length"))
  | Some count =>
      if decide (count > MAX_MULTIBULK) then
        mret (Err (protocol_error "multibulk length out of range"))
      else read_bulks (Z.to_nat count)
  end.

Definition read_request : State Reader (result (option (list string)) ReadError) :=
  line ← read_line;
  match line with
  | Err e => mret (Err e)
  | Ok line =>
      if decide (line = "") then mret (Ok None)
      else
        let line := trim_end line in
        match strip_prefix "*"%char line with
        | Some count =>
            tokens ← read_multibulk count;
            mret (let? tokens := tokens in Ok (Some tokens))
        | None => mret (Ok (Some (split_whitespace line)))
        end
  end.
End reader.

Section server.
Context {CK : Clock} {HO : HashOrder} {OF : OrderedFloat} {MP : Mpsc} {FS : FileSystem}
  {SD : Serde} {TP : Process} {AR : AsyncBufRead} {SR : SliceReader AR}.

(** The loop of [replay_aof], [fuel] being a bound on the number of requests:
    each takes at least a byte. *)
Fixpoint replay_loop (fuel : nat) (reader : Reader) (count : Z) : Task World Z :=
  match fuel with
  | O => mret count
  | S fuel =>
      let '(request, reader) := read_request reader in
      match request with
      | Ok (Some tokens) =>
          dispatch tokens ;;
          replay_loop fuel reader (count + 1)
      | Ok None => mret count
      | Err _ => mret count
      end
  end.

Definition replay_aof (path : string) : Task World (result Z IoError) :=
  bytes ← on_fs (gets (read_file path));
  match bytes with
  | Ok bytes =>
      begin_replay ;;
      count ← replay_loop (S (String.length bytes)) (slice_reader bytes) 0;
      end_replay ;;
      mret (Ok count)
  | Err cause => if io_not_found cause then mret (Ok 0) else mret (Err cause)
  end.

(** ** A connection *)

(** What the [select!] of the loop can give: a request of the client or a
    message of the mailbox, each with whether writing to the socket succeeds,
    or the end of the requests. *)
Inductive Event :=
| Request (tokens : list string) (written : bool)
| Message (written : bool)
| Disconnected.

(** The loop: what is written to the socket, and the session it ends with. An
    empty mailbox is not ready, so the loop waits for something else. *)
Fixpoint serve (events : list Event) (session : Session) : Task World (list string * Session) :=
  match events with
  | [] => mret ([], session)
  | Disconnected :: _ => mret ([], session)
  | Request tokens written :: events =>
      r ← handle tokens session;
      let '(reply, session) := (r : string * Session) in
      if decide (reply = "") then serve events session
      else if (written : bool) then
        rest ← serve events session;
        mret (reply :: rest.1, rest.2)
      else mret ([], session)
  | Message written :: events =>
      received ← on_mail (poll_recv (mailbox_sender session));
      match received with
      | None => serve events session
      | Some message =>
          if (written : bool) then
            rest ← serve events session;
            mret (message :: rest.1, rest.2)
          else mret ([], session)
      end
  end.

(** [handle_connection], from the new session to the cleanup; the mailbox is
    dropped with the other locals. *)
Definition handle_connection (events : list Event) : Task World (list string) :=
  session ← new_session;
  r ← serve events session;
  cleanup r.2 ;;
  on_mail (λ m, (tt, drop_receiver (mailbox_sender r.2) m)) ;;
  mret r.1.

(** The task [accept_loop] spawns. *)
Definition connection_task (events : list Event) : Task World (list string) :=
  client_connected ;;
  out ← handle_connection events;
  client_disconnected ;;
  mret out.

(** The task that reads the requests: it ends at the end of the stream and at
    the first error. [fuel] bounds the number of requests. *)
Fixpoint reader_task (fuel : nat) (reader : Reader) : list (list string) :=
  match fuel with
  | O => []
  | S fuel =>
      let '(request, reader) := read_request reader in
      match request with
      | Ok (Some tokens) => tokens :: reader_task fuel reader
      | _ => []
      end
  end.

(** ** Background tasks *)

(** What the endless loops of [spawn_sweeper] and [spawn_aof_flusher] do at a tick.
    [System] has the loops. *)
Definition sweeper : Task World unit := on_db Database.sweep_expired ;; mret tt.
Definition aof_flusher : Task World unit := sync_aof ;; mret tt.

(** The first rounds of a loop. *)
Fixpoint rounds (n : nat) (body : Task World unit) : Task World unit :=
  match n with
  | O => mret tt
  | S n => rounds n body ;; body
  end.

(** ** Start and stop *)

(** The database with its persistence, recovered from the log when there is
    one and from the snapshot otherwise, and the log's policy. A recovery that
    fails is a warning. *)
Definition init_persistence (config : Config) (m : Mail) (f : Fs) (ticks : nat)
    : result (World * option FsyncPolicy) IoError :=
  let snapshot_path := snapshot_file config in
  if appendonly config then
    match policy_from_str (appendfsync config) with
    | Err cause => Err (io_invalid_input cause)
    | Ok policy =>
        let '(opened, f) := aof_open (aof_file config) policy f in
        let? aof := opened in
        let db := with_persistence (instant_at ticks) (Some snapshot_path) (Some aof) m f (S ticks) in
        Ok ((run (replay_aof (aof_file config)) db).2, Some policy)
    end
  else
    let db := with_persistence (instant_at ticks) (Some snapshot_path) None m f (S ticks) in
    Ok ((run (load_from snapshot_path) db).2, None).

(** The end of [run], after the last connection was accepted. *)
Definition shutdown : Task World unit := save ;; sync_aof ;; mret tt.
End server.
