(* ===== verification/Wire.v ===== *)
(** Requests on the wire: what a client or the log encodes with [array] is what
    [read_request] reads; what is beyond the limits, not UTF-8 or cut short is
    refused. *)

From S2P Require Import Prelude Task RustInt RustStr RustF64 HashOrder Resp Clock Store PubSub.
From S2P Require Import FileSystem Aof Snapshot World Command Execute Session Server.
Local Open Scope Z_scope.

(** A request the reader's limits allow. *)
Definition token_ok (t : string) : Prop := utf8_valid t = true ∧ slen t ≤ MAX_BULK_BYTES.
Definition request_ok (tokens : list string) : Prop :=
  Forall token_ok tokens ∧ Z.of_nat (length tokens) ≤ MAX_MULTIBULK.

#[export] Instance token_ok_dec t : Decision (token_ok t).
Proof. unfold token_ok. apply _. Defined.
#[export] Instance request_ok_dec tokens : Decision (request_ok tokens).
Proof. unfold request_ok. apply _. Defined.

Lemma int_to_string_plain n : 0 ≤ n → Forall plain (bytes_of (int_to_string n)).
Proof.
  intros Hn. unfold int_to_string. rewrite decide_False by lia.
  eapply Forall_impl; [apply nat_to_string_digits|]. intros c. apply digit_plain.
Qed.

Lemma plain_ascii s : Forall plain (bytes_of s) → Forall (λ c, N_of_ascii c < 128)%N (bytes_of s).
Proof. intros H. eapply Forall_impl; [exact H|]. by intros c []. Qed.

Section reader.
Context {AR : AsyncBufRead} {SR : SliceReader AR}.

(** A header line is read whole and trims to the tag and the number. *)
Lemma read_header r tag n rest :
  plain tag → 0 ≤ n →
  remaining r = String tag (int_to_string n) +:+ CRLF +:+ rest →
  let '(line, r') := read_line r in
  line = Ok (String tag (int_to_string n) +:+ CRLF) ∧ remaining r' = rest ∧
  trim_end (String tag (int_to_string n) +:+ CRLF) = String tag (int_to_string n).
Proof.
  intros Htag Hn Hr. set (header := String tag (int_to_string n)) in *.
  assert (Hp : Forall plain (bytes_of header)).
  { constructor; [done|]. by apply int_to_string_plain. }
  pose proof (read_line_spec r) as H. rewrite Hr, split_line_crlf in H by done.
  rewrite (utf8_valid_ascii header CRLF) in H by (by apply plain_ascii).
  change (utf8_valid CRLF) with true in H. cbv iota in H.
  destruct (read_line r) as [line r']; cbn [fst snd] in H. destruct H as [-> ->].
  split_and!; [done|done|]. by apply trim_end_plain.
Qed.

Lemma bulk_length_header n :
  0 ≤ n ≤ MAX_BULK_BYTES → bulk_length (String "$" (int_to_string n) +:+ CRLF) = Ok n.
Proof.
  intros Hn. unfold bulk_length.
  rewrite trim_end_plain by (constructor; [by vm_compute|apply int_to_string_plain; lia]).
  unfold strip_prefix. rewrite decide_True by done. simpl.
  rewrite parse_usize_to_string by (unfold in_u64, u64_max, MAX_BULK_BYTES in *; lia).
  simpl. by rewrite decide_False by lia.
Qed.

(** The two bytes after the data are read and not looked at. *)
Lemma read_exact_loose r t tail rest :
  String.length tail = 2%nat → remaining r = t +:+ tail +:+ rest →
  ∃ r', read_exact (Z.to_nat (slen t + 2)) r = (Ok (t +:+ tail), r') ∧ remaining r' = rest.
Proof.
  intros Htail Hr. assert (Hn : Z.to_nat (slen t + 2) = String.length (t +:+ tail)).
  { rewrite slen_app, Htail. lia. }
  pose proof (read_exact_spec (Z.to_nat (slen t + 2)) r) as H. rewrite Hr, Hn, <- sapp_assoc in H.
  rewrite decide_True in H by (rewrite (slen_app (t +:+ tail) rest); lia). rewrite Hn.
  destruct (read_exact _ r) as [buf r2]; cbn [fst snd] in H. destruct H as [-> Hr2].
  exists r2. rewrite stake_app. by rewrite sdrop_app in Hr2.
Qed.

Lemma read_bulk_string_loose r t tail rest :
  token_ok t → String.length tail = 2%nat →
  remaining r = "$" +:+ int_to_string (slen t) +:+ CRLF +:+ t +:+ tail +:+ rest →
  let '(x, r') := read_bulk_string r in x = Ok t ∧ remaining r' = rest.
Proof.
  intros [Hutf Hlen] Htail Hr. unfold read_bulk_string, mbind, state_bind.
  pose proof (read_header r "$" (slen t) _ ltac:(by vm_compute) ltac:(lia) Hr) as H.
  destruct (read_line r) as [line r1]. destruct H as (-> & Hr1 & _).
  rewrite decide_False by done. rewrite bulk_length_header by lia.
  destruct (read_exact_loose r1 t tail rest Htail Hr1) as (r2 & -> & Hr2).
  by rewrite Nat2Z.id, stake_app, Hutf.
Qed.

Lemma read_bulk_string_spec r t rest :
  token_ok t → remaining r = bulk_string t +:+ rest →
  let '(x, r') := read_bulk_string r in x = Ok t ∧ remaining r' = rest.
Proof.
  intros Ht Hr. apply (read_bulk_string_loose r t CRLF); [done|done|].
  rewrite Hr. unfold bulk_string. by rewrite !sapp_assoc.
Qed.

(** The bulk strings of a request, up to some point. *)
Lemma read_bulks_then tokens n r tail :
  Forall token_ok tokens → remaining r = concat_all (bulk_string <$> tokens) +:+ tail →
  ∃ r1, remaining r1 = tail ∧
    read_bulks (length tokens + n) r =
      let '(x, r2) := read_bulks n r1 in (let? rest := x in Ok (tokens ++ rest), r2).
Proof.
  intros Hok. revert r. induction Hok as [|t tokens Ht _ IH]; intros r Hr.
  - exists r. split; [done|]. cbn. by destruct (read_bulks n r) as [[ts|e] r2].
  - rewrite fmap_cons in Hr. simpl in Hr. rewrite sapp_assoc in Hr.
    pose proof (read_bulk_string_spec r t _ Ht Hr) as H.
    cbn [length Nat.add read_bulks]. unfold mbind, state_bind.
    destruct (read_bulk_string r) as [x r1]. destruct H as [-> Hr1].
    destruct (IH r1 Hr1) as (r' & Hr' & Heq). exists r'. split; [done|]. rewrite Heq.
    by destruct (read_bulks n r') as [[ts|e] r2].
Qed.

Lemma read_bulks_spec tokens r rest :
  Forall token_ok tokens → remaining r = concat_all (bulk_string <$> tokens) +:+ rest →
  let '(x, r') := read_bulks (length tokens) r in x = Ok tokens ∧ remaining r' = rest.
Proof.
  intros Hok Hr. destruct (read_bulks_then tokens 0 r rest Hok Hr) as (r1 & Hr1 & Heq).
  rewrite Nat.add_0_r in Heq. rewrite Heq. cbn. by rewrite app_nil_r.
Qed.

(** A request is read up to its header, and then its bulk strings. *)
Lemma read_request_header n r rest :
  0 ≤ n ≤ MAX_MULTIBULK → remaining r = String "*" (int_to_string n) +:+ CRLF +:+ rest →
  ∃ r1, remaining r1 = rest ∧
    read_request r = let '(x, r2) := read_bulks (Z.to_nat n) r1 in (let? ts := x in Ok (Some ts), r2).
Proof.
  intros Hn Hr. unfold read_request, mbind, state_bind.
  pose proof (read_header r "*" n rest ltac:(by vm_compute) ltac:(lia) Hr) as H.
  destruct (read_line r) as [line r1]. destruct H as (-> & Hr1 & Htrim).
  rewrite decide_False by done. rewrite Htrim. unfold strip_prefix. rewrite decide_True by done.
  unfold read_multibulk.
  rewrite parse_usize_to_string by (unfold in_u64, u64_max, MAX_MULTIBULK in *; lia).
  rewrite decide_False by lia. exists r1. split; [done|].
  by destruct (read_bulks (Z.to_nat n) r1) as [[ts|e] r2].
Qed.

Lemma array_bytes tokens :
  array tokens = String "*" (int_to_string (Z.of_nat (length tokens))) +:+ CRLF +:+
    concat_all (bulk_string <$> tokens).
Proof. unfold array. rewrite push_str_fold. by rewrite !sapp_assoc. Qed.

Lemma read_request_array tokens r rest :
  request_ok tokens → remaining r = array tokens +:+ rest →
  let '(x, r') := read_request r in x = Ok (Some tokens) ∧ remaining r' = rest.
Proof.
  intros [Htok Hlen] Hr. rewrite array_bytes, !sapp_assoc in Hr.
  destruct (read_request_header (Z.of_nat (length tokens)) r _ ltac:(lia) Hr) as (r1 & Hr1 & Heq).
  rewrite Heq, Nat2Z.id. pose proof (read_bulks_spec tokens r1 rest Htok Hr1) as H.
  destruct (read_bulks (length tokens) r1) as [y r2]. destruct H as [-> Hr2]. done.
Qed.

(** A line that is not the header of an array is an inline command. *)
Lemma read_request_inline r line rest :
  split_line (remaining r) = (line, rest) → line ≠ "" → utf8_valid line = true →
  strip_prefix "*"%char (trim_end line) = None →
  let '(x, r') := read_request r in
  x = Ok (Some (split_whitespace (trim_end line))) ∧ remaining r' = rest.
Proof.
  intros Hsplit Hne Hutf Hstar. unfold read_request, mbind, state_bind.
  pose proof (read_line_spec r) as H. rewrite Hsplit, Hutf in H.
  destruct (read_line r) as [l r1]. destruct H as [Hl Hr]. cbn [fst snd] in *. subst l.
  rewrite decide_False by done. rewrite Hstar. done.
Qed.

(** ** Requests that are refused *)

Definition fails {A} (m : State Reader (result A ReadError)) (r : Reader) : Prop :=
  ∃ e, (m r).1 = Err e.

(** A request with more tokens than the limit is refused at its header. *)
Lemma read_request_oversized tokens r rest :
  MAX_MULTIBULK < Z.of_nat (length tokens) ≤ usize_max →
  remaining r = array tokens +:+ rest → ∃ e, (read_request r).1 = Err e.
Proof.
  intros Hlen Hr. rewrite array_bytes, !sapp_assoc in Hr.
  unfold read_request, mbind, state_bind.
  pose proof (read_header r "*" _ _ ltac:(by vm_compute) (Zle_0_nat _) Hr) as H.
  destruct (read_line r) as [line r1]. destruct H as (-> & Hr1 & Htrim).
  rewrite decide_False by done. rewrite Htrim. unfold strip_prefix. rewrite decide_True by done.
  unfold read_multibulk.
  rewrite parse_usize_to_string by (unfold in_u64, usize_max in *; lia).
  rewrite decide_True by lia. by eexists.
Qed.

(** What [array] can be read of at all: numbers that a [usize] can hold. *)
Definition countable (tokens : list string) : Prop :=
  Z.of_nat (length tokens) ≤ usize_max ∧ Forall (λ t, slen t ≤ usize_max) tokens.

Lemma read_bulk_bad r t tail rest :
  ¬ token_ok t → slen t ≤ usize_max → String.length tail = 2%nat →
  remaining r = "$" +:+ int_to_string (slen t) +:+ CRLF +:+ t +:+ tail +:+ rest → fails read_bulk_string r.
Proof.
  intros Hbad Hlen Htail Hr. unfold fails, read_bulk_string, mbind, state_bind.
  pose proof (read_header r "$" (slen t) _ ltac:(by vm_compute) ltac:(lia) Hr) as H.
  destruct (read_line r) as [line r1]. destruct H as (-> & Hr1 & Htrim).
  rewrite decide_False by done. destruct (decide (slen t ≤ MAX_BULK_BYTES)) as [Hmax|Hmax].
  - rewrite bulk_length_header by lia.
    destruct (read_exact_loose r1 t tail rest Htail Hr1) as (r2 & -> & _).
    rewrite Nat2Z.id, stake_app. destruct (utf8_valid t) eqn:Hu; [by destruct Hbad|by eexists].
  - unfold bulk_length. rewrite Htrim. unfold strip_prefix. rewrite decide_True by done.
    cbn [ok_or result_bind].
    rewrite parse_usize_to_string by (pose proof (Zle_0_nat (String.length t)); unfold in_u64, usize_max in *; lia).
    cbn [ok_or result_bind]. rewrite decide_True by lia. by eexists.
Qed.

(** A request that is beyond the limits, or not UTF-8, is refused. *)
Lemma read_request_bad tokens r rest :
  ¬ request_ok tokens → countable tokens → remaining r = array tokens +:+ rest → fails read_request r.
Proof.
  intros Hbad [Hn Hlens] Hr. destruct (decide (Z.of_nat (length tokens) ≤ MAX_MULTIBULK)) as [Hmax|Hmax].
  2: { apply (read_request_oversized tokens r rest); [lia|done]. }
  assert (Htok : ¬ Forall token_ok tokens) by (intros H; by apply Hbad).
  apply not_Forall_Exists in Htok; [|apply _].
  assert (∃ good t more, tokens = good ++ t :: more ∧ Forall token_ok good ∧ ¬ token_ok t)
    as (good & t & more & -> & Hgood & Ht).
  { clear -Htok. induction tokens as [|t tokens IH]; [by inversion Htok|].
    destruct (decide (token_ok t)) as [Ht|Ht]; [|by exists [], t, tokens].
    inversion Htok as [|? ? Hin]; subst; [done|].
    destruct (IH Hin) as (good & t' & more & -> & ? & ?). exists (t :: good), t', more.
    split; [done|]. split; [by constructor|done]. }
  rewrite array_bytes, !sapp_assoc in Hr.
  destruct (read_request_header (Z.of_nat (length (good ++ t :: more))) r _ ltac:(lia) Hr) as (r1 & Hr1 & Heq).
  rewrite fmap_app, concat_all_app, fmap_cons, sapp_assoc in Hr1.
  rewrite Nat2Z.id, length_app in Heq. cbn [length] in Heq.
  destruct (read_bulks_then good (S (length more)) r1 _ Hgood Hr1) as (r2 & Hr2 & Hbulks).
  rewrite Hbulks in Heq. cbn [read_bulks] in Heq. unfold mbind, state_bind in Heq.
  assert (Hr3 : remaining r2 = bulk_string t +:+ (concat_all (bulk_string <$> more) +:+ rest))
    by (rewrite Hr2; simpl; by rewrite sapp_assoc).
  unfold bulk_string at 1 in Hr3. rewrite !sapp_assoc in Hr3.
  destruct (read_bulk_bad r2 t CRLF _ Ht ltac:(apply Forall_app in Hlens as [_ H]; by inversion H) eq_refl Hr3)
    as [e He].
  destruct (read_bulk_string r2) as [x r3]. cbn [fst] in He. subst x.
  unfold fails. rewrite Heq. by eexists.
Qed.

(** ** A request cut short *)

Lemma read_line_tail r a :
  remaining r = a → Forall (λ c, N_of_ascii c < 128)%N (bytes_of a) →
  Forall (λ c, c ≠ LF) (bytes_of a) →
  (read_line r).1 = Ok a ∧ remaining (read_line r).2 = "".
Proof.
  intros Hr Hascii Hlf. pose proof (read_line_spec r) as H.
  rewrite Hr, split_line_none in H by done.
  pose proof (utf8_valid_ascii a "" Hascii) as Hu. rewrite sapp_nil_r in Hu. by rewrite Hu in H.
Qed.

Lemma read_exact_short r n : (String.length (remaining r) < n)%nat → fails (read_exact n) r.
Proof.
  intros Hn. pose proof (read_exact_spec n r) as H. rewrite decide_False in H by lia. exact H.
Qed.

Lemma header_plain tag n : plain tag → 0 ≤ n → Forall plain (bytes_of (String tag (int_to_string n))).
Proof. intros. constructor; [done|]. by apply int_to_string_plain. Qed.

(** The beginning of a positive number is a positive number. *)
Lemma parse_cut_pos n d rest m :
  0 < n ∧ int_to_string n = d +:+ rest → parse_usize d = Some m → 0 < m.
Proof.
  intros [Hn Hd] Hm. unfold int_to_string in Hd. rewrite decide_False in Hd by lia.
  destruct (nat_to_string_head (Z.to_N n)) as (c & s & v & Hs & Hc & Hv); [lia|].
  rewrite Hs in Hd. destruct d as [|a d]; [done|]. simpl in Hd. injection Hd as <- Hd.
  unfold parse_usize, parse_int in Hm.
  assert (Hplus : c ≠ "+"%char ∧ c ≠ "-"%char) by (split; intros ->; discriminate Hc).
  assert (Hmatch : match String c d with
    | String "+" r => (false, r)
    | String "-" r => (false, String c d)
    | _ => (false, String c d)
    end = (false, String c d)).
  { clear -Hplus. destruct Hplus as [H1 H2]. destruct c as [[] [] [] [] [] [] [] []]; done. }
  rewrite Hmatch in Hm. cbn [parse_digits] in Hm. rewrite Hc in Hm.
  destruct (parse_digits (10 * 0 + v) d) as [z|] eqn:Hz; [|done].
  apply parse_digits_pos in Hz; [|lia]. case_decide; [|done]. by injection Hm as <-.
Qed.

Lemma bulk_length_nonneg header n : bulk_length header = Ok n → 0 ≤ n.
Proof.
  unfold bulk_length. intros (d & _ & H)%result_bind_ok.
  apply result_bind_ok in H as (z & Hz%ok_or_ok & H). case_decide; [done|]. injection H as <-.
  by apply parse_int_range in Hz as [? _].
Qed.

Lemma read_bulk_eof r : remaining r = "" → fails read_bulk_string r.
Proof.
  intros Hr. unfold fails, read_bulk_string, mbind, state_bind.
  destruct (read_line_tail r "" Hr) as [H1 H2]; [constructor|constructor|].
  destruct (read_line r) as [line r1]; cbn [fst snd] in *. subst line.
  rewrite decide_True by done. by eexists.
Qed.

Lemma read_bulk_cut r p y x t :
  token_ok t → p +:+ String y x = bulk_string t → remaining r = p → fails read_bulk_string r.
Proof.
  intros [_ Hlen] Hcut Hr. unfold bulk_string in Hcut.
  change ("$" +:+ int_to_string (slen t) +:+ CRLF +:+ t +:+ CRLF)
    with (String "$" (int_to_string (slen t)) +:+ CRLF +:+ t +:+ CRLF) in Hcut.
  rewrite <- sapp_assoc in Hcut.
  apply sapp_split in Hcut as [(q & -> & Hbody)|(c & z & Hhead & _)].
  - unfold fails, read_bulk_string, mbind, state_bind. rewrite sapp_assoc in Hr.
    pose proof (read_header r "$" (slen t) q ltac:(by vm_compute) ltac:(lia) Hr) as H.
    destruct (read_line r) as [line r1]. destruct H as (-> & Hr1 & _).
    rewrite decide_False by done. rewrite bulk_length_header by lia.
    destruct (read_exact_short r1 (Z.to_nat (slen t + 2))) as [e He].
    { rewrite Hr1. apply (f_equal String.length) in Hbody. rewrite !slen_app in Hbody.
      change (String.length CRLF) with 2%nat in Hbody. simpl in Hbody. lia. }
    destruct (read_exact _ r1) as [buf r2]; cbn [fst] in He. subst buf. by eexists.
  - unfold fails, read_bulk_string, mbind, state_bind. symmetry in Hhead.
    apply cut_line in Hhead as (Hascii & Hlf & _); [|apply header_plain; [by vm_compute|lia]].
    destruct (read_line_tail r p Hr Hascii Hlf) as [H1 H2].
    destruct (read_line r) as [line r1]; cbn [fst snd] in *. subst line.
    case_decide; [by eexists|]. destruct (bulk_length p) as [n|e] eqn:Hn; [|by eexists].
    apply bulk_length_nonneg in Hn.
    destruct (read_exact_short r1 (Z.to_nat (n + 2))) as [e He]; [rewrite H2; simpl; lia|].
    destruct (read_exact _ r1) as [buf r2]; cbn [fst] in He. subst buf. by eexists.
Qed.

Lemma read_bulks_cut tokens r p y x :
  Forall token_ok tokens → p +:+ String y x = concat_all (bulk_string <$> tokens) →
  remaining r = p → fails (read_bulks (length tokens)) r.
Proof.
  intros Hok. revert r p. induction Hok as [|t tokens Ht _ IH]; intros r p Hcut Hr.
  { by destruct p. }
  rewrite fmap_cons in Hcut.
  change (p +:+ String y x = bulk_string t +:+ concat_all (bulk_string <$> tokens)) in Hcut.
  unfold fails. cbn [length read_bulks].
  unfold mbind, state_bind. apply sapp_split in Hcut as [(q & -> & Hrest)|(c & z & Hbulk & _)].
  - pose proof (read_bulk_string_spec r t q Ht Hr) as H.
    destruct (read_bulk_string r) as [tok r1]. destruct H as [-> Hr1].
    destruct (IH r1 q (eq_sym Hrest) Hr1) as [e He].
    destruct (read_bulks (length tokens) r1) as [ts r2]; cbn [fst] in He. subst ts. by eexists.
  - destruct (read_bulk_cut r p c z t Ht (eq_sym Hbulk) Hr) as [e He].
    destruct (read_bulk_string r) as [tok r1]; cbn [fst] in He. subst tok. by eexists.
Qed.

(** A log that ends in the middle of an entry: the entry is not a request, and
    the end of the log is the end of the stream. *)
Lemma read_request_cut tokens r p y x :
  tokens ≠ [] → request_ok tokens → p +:+ String y x = array tokens → remaining r = p →
  (read_request r).1 = Ok None ∨ fails read_request r.
Proof.
  intros Hne [Htok Hlen] Hcut Hr. rewrite array_bytes, <- sapp_assoc in Hcut.
  set (n := Z.of_nat (length tokens)) in *.
  assert (Hn : 0 < n) by (destruct tokens; [done|unfold n; simpl; lia]).
  assert (Hplain : Forall plain (bytes_of (String "*" (int_to_string n))))
    by (apply header_plain; [by vm_compute|lia]).
  apply sapp_split in Hcut as [(q & -> & Hbody)|(c & z & Hhead & _)].
  - right. rewrite sapp_assoc in Hr.
    destruct (read_request_header n r q ltac:(lia) Hr) as (r1 & Hr1 & Heq).
    unfold fails. rewrite Heq. unfold n. rewrite Nat2Z.id.
    destruct (read_bulks_cut tokens r1 q y x Htok (eq_sym Hbody) Hr1) as [e He].
    destruct (read_bulks (length tokens) r1) as [ts r2]; cbn [fst] in He. subst ts. by eexists.
  - symmetry in Hhead.
    apply cut_line in Hhead as (Hascii & Hlf & rest & Hline & Hempty); [|done].
    destruct (read_line_tail r p Hr Hascii Hlf) as [H1 H2].
    unfold fails, read_request, mbind, state_bind.
    destruct (read_line r) as [line r1]; cbn [fst snd] in *. subst line.
    case_decide as Hp; [by left|right].
    destruct (trim_end p) as [|a d] eqn:Htrim; [by destruct Hp; apply Hempty|].
    simpl in Hline. injection Hline as <- Hd. unfold strip_prefix. rewrite decide_True by done.
    unfold read_multibulk. destruct (parse_usize d) as [m|] eqn:Hm; [|by eexists].
    case_decide; [by eexists|].
    assert (Hm1 : 0 < m).
    { by eapply (parse_cut_pos n d rest). }
    destruct (Z.to_nat m) as [|k] eqn:Hk; [lia|]. cbn [read_bulks].
    unfold mbind, state_bind. destruct (read_bulk_eof r1 H2) as [e He].
    destruct (read_bulk_string r1) as [tok r2]; cbn [fst] in He. subst tok. by eexists.
Qed.

(** ** Reading consumes the stream *)

Lemma read_line_consumes r line r' :
  read_line r = (Ok line, r') → remaining r = line +:+ remaining r'.
Proof.
  intros Hrd. pose proof (read_line_spec r) as H. rewrite Hrd in H. cbn [fst snd] in H.
  pose proof (split_line_join (remaining r)) as Hjoin.
  destruct (split_line (remaining r)) as [l rest]. cbn [fst snd] in Hjoin.
  destruct (utf8_valid l).
  - destruct H as [[= ->] ->]. done.
  - by destruct H.
Qed.

Lemma read_exact_consumes n r buf r' :
  read_exact n r = (Ok buf, r') → remaining r = buf +:+ remaining r'.
Proof.
  intros Hrd. pose proof (read_exact_spec n r) as H. rewrite Hrd in H. cbn [fst snd] in H.
  case_decide; [|by destruct H]. destruct H as [[= ->] ->]. by rewrite stake_sdrop.
Qed.

Lemma read_bulk_consumes r t r' :
  read_bulk_string r = (Ok t, r') → ∃ bytes, remaining r = bytes +:+ remaining r'.
Proof.
  unfold read_bulk_string, mbind, state_bind.
  destruct (read_line r) as [[line|e] r1] eqn:Hline; [|done]. apply read_line_consumes in Hline.
  case_decide; [done|]. destruct (bulk_length line) as [n|e]; [|done].
  destruct (read_exact (Z.to_nat (n + 2)) r1) as [[buf|e] r2] eqn:Hbuf; [|done].
  apply read_exact_consumes in Hbuf. intros Heq. assert (r2 = r') as -> by (by injection Heq).
  exists (line +:+ buf). by rewrite Hline, Hbuf, sapp_assoc.
Qed.

Lemma read_bulks_consumes n r ts r' :
  read_bulks n r = (Ok ts, r') → ∃ bytes, remaining r = bytes +:+ remaining r'.
Proof.
  revert r ts. induction n as [|n IH]; intros r ts; cbn [read_bulks].
  { intros [= _ <-]. by exists "". }
  unfold mbind, state_bind. destruct (read_bulk_string r) as [[t|e] r1] eqn:Ht; [|done].
  apply read_bulk_consumes in Ht as [b1 Hb1].
  destruct (read_bulks n r1) as [[ts1|e] r2] eqn:Hts; [|done]. intros [= _ <-].
  destruct (IH r1 ts1 Hts) as [b2 Hb2]. exists (b1 +:+ b2). by rewrite Hb1, Hb2, sapp_assoc.
Qed.

(** A request takes at least a byte. *)
Lemma read_request_consumes r tokens r' :
  read_request r = (Ok (Some tokens), r') →
  (String.length (remaining r') < String.length (remaining r))%nat.
Proof.
  unfold read_request, mbind, state_bind.
  destruct (read_line r) as [[line|e] r1] eqn:Hline; [|done]. apply read_line_consumes in Hline.
  case_decide as Hempty; [done|]. rewrite Hline, slen_app.
  assert (Hpos : (0 < String.length line)%nat) by (destruct line; [done|simpl; lia]).
  destruct (strip_prefix _ (trim_end line)) as [count|].
  - unfold read_multibulk. destruct (parse_usize count) as [n|]; [|done].
    case_decide; [done|].
    destruct (read_bulks (Z.to_nat n) r1) as [[ts|e] r2] eqn:Hts; [|done]. intros [= _ <-].
    apply read_bulks_consumes in Hts as [b ->]. rewrite slen_app. lia.
  - intros [= _ <-]. lia.
Qed.
End reader.
