(* ===== verification/SelectLoop.v ===== *)
(** The inside of [handle_connection] ([server/mod.rs]): the task that reads the
    requests, the bounded channel between it and the loop, and the [select!] of the
    loop over that channel and the mailbox.

    [Loop] is the state of both.  A move of [act_local] concerns the connection alone;
    one of [act_shared] is a critical section of the shared state.  Whatever the order
    of the moves, a run does to the shared state and to the socket what [serve] does
    for some list of events, and the requests among them are those of the client, in
    order.  And the loop ends ([loop_step], [work]). *)

From S2P Require Import Prelude Task RustInt RustStr RustF64 HashOrder Resp Clock Store PubSub.
From S2P Require Import FileSystem Aof Snapshot World Command Execute Session Config Server Wire.
From stdpp Require Import relations.
Local Open Scope Z_scope.

Section loop.
Context {CK : Clock} {HO : HashOrder} {OF : OrderedFloat} {MP : Mpsc} {FS : FileSystem}
  {SD : Serde} {TP : Process} {AR : AsyncBufRead}.

(** [mpsc::channel::<Vec<String>>(16)] *)
Definition CAPACITY : nat := 16.

(** Where the loop is: at the [select!], in [session.handle], in [write_all], or after
    its [break]. *)
Inductive Control :=
| Selecting (s : Session)
| Handling (t : Task World (string * Session))
| Writing (text : string) (s : Session)
| Broken (s : Session).

Record Loop := {
  (** What the reader task has not read; [None] once it has ended. *)
  reader : option Reader;
  (** The request that it waits to send. *)
  sending : option (list string);
  requests : list (list string);
  control : Control;
  (** The replies and messages written to the socket. *)
  written : list string
}.

Definition set_control (k : Control) (c : Loop) : Loop :=
  {| reader := reader c; sending := sending c; requests := requests c; control := k;
     written := written c |}.

(** The beginning of [handle_connection], with its new session. *)
Definition open_loop (r : Reader) (s : Session) : Loop :=
  {| reader := Some r; sending := None; requests := []; control := Selecting s; written := [] |}.

Inductive Local :=
| Reads
| Sends
| Takes
| Answers
| Writes (succeeds : bool)
| Closes.

(** A move of the reader task or of the loop; [None] when it is not ready. *)
Definition act_local (l : Local) (c : Loop) : option Loop :=
  match l, control c with
  | Reads, _ =>
      match reader c, sending c with
      | Some r, None =>
          let '(request, r) := read_request r in
          Some match request with
               | Ok (Some tokens) =>
                   {| reader := Some r; sending := Some tokens; requests := requests c;
                      control := control c; written := written c |}
               | _ =>
                   {| reader := None; sending := None; requests := requests c;
                      control := control c; written := written c |}
               end
      | _, _ => None
      end
  | Sends, _ =>
      match sending c with
      | Some tokens =>
          if decide (length (requests c) < CAPACITY)%nat then
            Some {| reader := reader c; sending := None; requests := requests c ++ [tokens];
                    control := control c; written := written c |}
          else None
      | None => None
      end
  | Takes, Selecting s =>
      match requests c with
      | tokens :: rest =>
          Some {| reader := reader c; sending := sending c; requests := rest;
                  control := Handling (handle tokens s); written := written c |}
      | [] => None
      end
  | Answers, Handling (Done (reply, s)) =>
      Some (set_control (if decide (reply = "") then Selecting s else Writing reply s) c)
  | Writes true, Writing text s =>
      Some {| reader := reader c; sending := sending c; requests := requests c;
              control := Selecting s; written := written c ++ [text] |}
  | Writes false, Writing text s => Some (set_control (Broken s) c)
  | Closes, Selecting s =>
      (** [recv] gives [None]: the sender is dropped and the channel is empty. *)
      match reader c, sending c, requests c with
      | None, None, [] => Some (set_control (Broken s) c)
      | _, _, _ => None
      end
  | _, _ => None
  end.

(** A critical section: of [session.handle], or the receiving of a message. *)
Definition act_shared (c : Loop) (w : World) : option (Loop * World) :=
  match control c with
  | Handling (Critical f) => let '(t, w) := f w in Some (set_control (Handling t) c, w)
  | Selecting s =>
      match poll_recv (mailbox_sender s) (mail w) with
      | (Some message, m) => Some (set_control (Writing message s) c, set_mail m w)
      | (None, _) => None
      end
  | _ => None
  end.

(** A run, with the shared state before and after each of its sections. *)
Inductive loop_runs : Loop → list (World * World) → Loop → Prop :=
| loop_stops c : loop_runs c [] c
| loop_local l c c1 trace c' :
    act_local l c = Some c1 → loop_runs c1 trace c' → loop_runs c trace c'
| loop_shared c w c1 w1 trace c' :
    act_shared c w = Some (c1, w1) → loop_runs c1 trace c' → loop_runs c ((w, w1) :: trace) c'.

(** ** The requests *)

Definition channel_bounded (c : Loop) : Prop := (length (requests c) ≤ CAPACITY)%nat.

Lemma local_bounded l c c' : act_local l c = Some c' → channel_bounded c → channel_bounded c'.
Proof.
  unfold act_local, channel_bounded. intros H Hc.
  repeat case_match; simplify_eq/=; rewrite ?length_app; simpl; try lia.
  by match goal with E : requests c = [] |- _ => rewrite E end.
Qed.

Lemma shared_bounded c w c' w' :
  act_shared c w = Some (c', w') → channel_bounded c → channel_bounded c'.
Proof. unfold act_shared, channel_bounded. intros H Hc. repeat case_match; by simplify_eq/=. Qed.

Lemma runs_bounded c trace c' : loop_runs c trace c' → channel_bounded c → channel_bounded c'.
Proof. induction 1; eauto using local_bounded, shared_bounded. Qed.

(** The requests on their way to the loop, the reader going on for [fuel] requests. *)
Definition incoming (fuel : nat) (c : Loop) : list (list string) :=
  requests c ++ option_list (sending c) ++ from_option (reader_task fuel) [] (reader c).

(** The requests of a list of events. *)
Definition requests_of (events : list Event) : list (list string) :=
  omap (λ e, match e with Request tokens _ => Some tokens | _ => None end) events.

(** ** The loop refines [serve] *)

(** What is left of [serve] at a point of the loop; [flag] tells whether the writing of
    the answer that is being made will succeed. *)
Definition remainder (k : Control) (flag : bool) (events : list Event)
    : Task World (list string * Session) :=
  let answer text s :=
    if flag then rest ← serve events s; mret (text :: rest.1, rest.2) else mret ([], s) in
  match k with
  | Selecting s => serve events s
  | Handling t =>
      r ← t;
      let '(reply, s) := (r : string * Session) in
      if decide (reply = "") then serve events s else answer reply s
  | Writing text s => answer text s
  | Broken s => mret ([], s)
  end.

(** A run of the loop to its end, and a list of events that explains it. *)
Definition refined (c : Loop) (trace : list (World * World)) (c' : Loop) (s : Session) : Prop :=
  ∃ flag events out,
    follows (remainder (control c) flag events) trace (Done (out, s)) ∧
    written c' = written c ++ out ∧
    ∃ k, ∀ fuel, incoming (k + fuel) c = requests_of events ++ incoming fuel c'.

Lemma reads_refines c c1 trace c' s :
  act_local Reads c = Some c1 → refined c1 trace c' s → refined c trace c' s.
Proof.
  unfold act_local. destruct (reader c) as [r|] eqn:Er; [|by destruct (control c)].
  destruct (sending c) eqn:Es; [by destruct (control c)|].
  destruct (read_request r) as [request r'] eqn:Hr. intros H (flag & events & out & Hf & Hw & k & Hk).
  assert (c1 = match request with
    | Ok (Some tokens) => {| reader := Some r'; sending := Some tokens; requests := requests c;
        control := control c; written := written c |}
    | _ => {| reader := None; sending := None; requests := requests c;
        control := control c; written := written c |} end) as -> by (by destruct (control c); injection H).
  exists flag, events, out. destruct request as [[tokens|]|e]; cbn [control written] in *;
    (split; [done|]); (split; [done|]); exists (S k); intros fuel; rewrite <- Hk; unfold incoming;
    rewrite Er, Es; cbn [reader sending requests option_list from_option Nat.add reader_task app];
    by rewrite Hr.
Qed.

Lemma sends_refines c c1 trace c' s :
  act_local Sends c = Some c1 → refined c1 trace c' s → refined c trace c' s.
Proof.
  unfold act_local. destruct (sending c) as [tokens|] eqn:Es; [|by destruct (control c)].
  case_decide; [|by destruct (control c)]. intros Hact (flag & events & out & Hf & Hw & k & Hk).
  assert (c1 = {| reader := reader c; sending := None; requests := requests c ++ [tokens];
    control := control c; written := written c |}) as -> by (by destruct (control c); injection Hact).
  exists flag, events, out. split; [done|]. split; [done|].
  exists k. intros fuel. rewrite <- Hk. unfold incoming. rewrite Es.
  cbn [reader sending requests option_list app]. by rewrite <- app_assoc.
Qed.

Lemma local_refines l c c1 trace c' s :
  act_local l c = Some c1 → refined c1 trace c' s → refined c trace c' s.
Proof.
  destruct l as [| | | |succeeds|]; [apply reads_refines|apply sends_refines|..]; unfold act_local;
    intros Hact (flag & events & out & Hf & Hw & k & Hk).
  - destruct (control c) as [s0| | |] eqn:Ec; [|done..].
    destruct (requests c) as [|tokens rest] eqn:Eq; [done|]. injection Hact as <-.
    exists true, (Request tokens flag :: events), out. rewrite Ec. split; [exact Hf|]. split; [exact Hw|].
    exists k. intros fuel. specialize (Hk fuel). unfold incoming in *. rewrite Eq.
    cbn [requests sending reader] in Hk. cbn. by rewrite Hk.
  - destruct (control c) as [|[[reply s0]|]| |] eqn:Ec; [done| |done..]. injection Hact as <-.
    exists flag, events, out. rewrite Ec. split; [|by split; [|exists k]].
    cbn [control set_control] in Hf. cbn. by destruct (decide (reply = "")).
  - destruct (control c) as [| |text s0|] eqn:Ec; [by destruct succeeds..| |by destruct succeeds].
    destruct succeeds; injection Hact as <-; cbn [control written set_control] in *.
    + exists true, events, (text :: out). rewrite Ec. split.
      * cbn. eapply (follows_bind _ _ (λ rest, mret (text :: rest.1, rest.2))) in Hf. exact Hf.
      * split; [by rewrite Hw, <- app_assoc|by exists k].
    + exists false, events, out. rewrite Ec. split; [exact Hf|]. split; [exact Hw|by exists k].
  - destruct (control c) as [s0| | |] eqn:Ec; [|done..].
    destruct (reader c) eqn:Er; [done|]. destruct (sending c) eqn:Es; [done|].
    destruct (requests c) eqn:Eq; [|done]. injection Hact as <-.
    exists flag, (Disconnected :: events), out. rewrite Ec.
    split; [exact Hf|]. split; [exact Hw|by exists k].
Qed.

Lemma shared_refines c w c1 w1 trace c' s :
  act_shared c w = Some (c1, w1) → refined c1 trace c' s → refined c ((w, w1) :: trace) c' s.
Proof.
  unfold act_shared. intros Hact (flag & events & out & Hf & Hw & k & Hk).
  destruct (control c) as [s0|[|f]| |] eqn:Ec; try done.
  - destruct (poll_recv (mailbox_sender s0) (mail w)) as [[message|] m] eqn:Hm; [|done].
    injection Hact as <- <-. exists true, (Message flag :: events), out. rewrite Ec.
    split; [|split; [exact Hw|by exists k]]. cbn [control set_control remainder serve] in *.
    eapply (follows_bind_section _ _ _ (Done (Some message))); [|exact Hf].
    unfold part_state. by rewrite Hm.
  - destruct (f w) as [t w'] eqn:Hfw. injection Hact as <- <-. exists flag, events, out. rewrite Ec.
    split; [|split; [exact Hw|by exists k]]. cbn [control set_control remainder] in *.
    by eapply follows_bind_section.
Qed.

Lemma runs_refine c trace c' s :
  loop_runs c trace c' → control c' = Broken s → refined c trace c' s.
Proof.
  induction 1 as [c|l c c1 trace c' Hact _ IH|c w c1 w1 trace c' Hact _ IH]; intros Hend.
  - exists true, [], []. rewrite Hend. split; [constructor|]. split; [by rewrite app_nil_r|].
    by exists 0%nat.
  - eapply local_refines; eauto.
  - eapply shared_refines; eauto.
Qed.

(** Neither the loop nor the reader ever waits for the other for good, nor for a
    message. *)
Lemma loop_progress c w :
  (∃ s, control c = Broken s) ∨ (∃ l c', act_local l c = Some c') ∨
  (∃ f c' w', control c = Handling (Critical f) ∧ act_shared c w = Some (c', w')).
Proof.
  destruct (control c) as [s|[[reply s]|f]|text s|s] eqn:Ec; [|right..|left; by exists s].
  - right. left. destruct (requests c) as [|tokens rest] eqn:Eq.
    + destruct (sending c) as [tokens|] eqn:Es.
      * exists Sends. unfold act_local. rewrite Ec, Es, Eq. by eexists.
      * destruct (reader c) as [r|] eqn:Er.
        -- exists Reads. unfold act_local. rewrite Ec, Es, Er.
           destruct (read_request r) as [request r']. by eexists.
        -- exists Closes. unfold act_local. rewrite Ec, Es, Er, Eq. by eexists.
    + exists Takes. unfold act_local. rewrite Ec, Eq. by eexists.
  - left. exists Answers. unfold act_local. rewrite Ec. by eexists.
  - right. exists f. unfold act_shared. rewrite Ec. destruct (f w). by eexists _, _.
  - left. exists (Writes true). unfold act_local. rewrite Ec. by eexists.
Qed.

(** A run of the loop alone, by a list of its moves; [None] is a critical section. *)
Fixpoint loop_moves (moves : list (option Local)) (c : Loop) (w : World)
    : option (Loop * list (World * World) * World) :=
  match moves with
  | [] => Some (c, [], w)
  | Some l :: moves => c ← act_local l c; loop_moves moves c w
  | None :: moves =>
      '(c, w1) ← act_shared c w;
      '(c, trace, w2) ← loop_moves moves c w1;
      Some (c, (w, w1) :: trace, w2)
  end.

Lemma loop_moves_runs moves c w c' trace w' :
  loop_moves moves c w = Some (c', trace, w') → loop_runs c trace c'.
Proof.
  revert c w trace. induction moves as [|[l|] moves IH]; intros c w trace; cbn [loop_moves].
  - intros [= -> <- ->]. constructor.
  - destruct (act_local l c) as [c1|] eqn:E; [|done]. intros H. econstructor; [exact E|]. by eapply IH.
  - destruct (act_shared c w) as [[c1 w1]|] eqn:E; [|done]. simpl.
    destruct (loop_moves moves c1 w1) as [[[c2 trace2] w2]|] eqn:Em; [|done]. intros [= -> <- ->].
    econstructor; [exact E|]. by eapply IH.
Qed.

(** ** The loop ends *)

(** A move of a loop that may still receive a number of messages. The shared state is
    whatever the other tasks have made of it. *)
Inductive loop_step : nat * Loop → nat * Loop → Prop :=
| step_local n l c c' : act_local l c = Some c' → loop_step (n, c) (n, c')
| step_handle n c f w c' w' :
    control c = Handling (Critical f) → act_shared c w = Some (c', w') → loop_step (n, c) (n, c')
| step_message n c s w c' w' :
    control c = Selecting s → act_shared c w = Some (c', w') → loop_step (S n, c) (n, c').

(** A loop with no move left has ended: it does not wait for a message. *)
Lemma loop_stuck (w : World) p : nf loop_step p → ∃ s, control p.2 = Broken s.
Proof.
  destruct p as [n c]. intros Hnf.
  destruct (loop_progress c w) as [H|[(l & c' & H)|(f & c' & w' & Hc & H)]]; [done|..];
    destruct Hnf; eexists; [by eapply step_local|by eapply step_handle].
Qed.

Context {SR : SliceReader AR}.

(** What the loop has before it, the time in [session.handle] apart: the bytes that are
    not read, the requests on their way, the messages. *)
Definition control_work (k : Control) : nat :=
  match k with Selecting _ => 1 | Handling _ => 3 | Writing _ _ => 2 | Broken _ => 0 end.
Definition work (p : nat * Loop) : nat :=
  (2 * p.1 + 5 * from_option (λ r, S (String.length (remaining r))) 0 (reader p.2) +
   4 * from_option (λ _, 1) 0 (sending p.2) + 3 * length (requests p.2) +
   control_work (control p.2))%nat.

Lemma local_work n l c c' : act_local l c = Some c' → (work (n, c') < work (n, c))%nat.
Proof.
  intros H. unfold work. destruct l as [| | | |[]|]; unfold act_local in H; cbn [fst snd].
  - assert (Hread : ∃ r, reader c = Some r ∧ sending c = None ∧
      let '(request, r') := read_request r in
      c' = match request with
           | Ok (Some tokens) => {| reader := Some r'; sending := Some tokens; requests := requests c;
                                    control := control c; written := written c |}
           | _ => {| reader := None; sending := None; requests := requests c;
                     control := control c; written := written c |}
           end).
    { destruct (reader c) as [r|], (sending c); try (by destruct (control c)).
      exists r. split_and!; [done..|]. destruct (read_request r) as [request r'].
      destruct (control c); by injection H. }
    destruct Hread as (r & Hr & Hs & Hc). rewrite Hr, Hs.
    destruct (read_request r) as [[[tokens|]|e] r'] eqn:Hreq; subst c'; simpl; [|lia..].
    apply read_request_consumes in Hreq. lia.
  - assert (Hsend : is_Some (sending c) ∧ reader c' = reader c ∧ sending c' = None ∧
      length (requests c') = S (length (requests c)) ∧ control c' = control c).
    { destruct (sending c) as [tokens|]; [|by destruct (control c)].
      destruct (decide _); [|by destruct (control c)].
      destruct (control c); injection H as <-; simpl; rewrite length_app; simpl; eauto with lia. }
    destruct Hsend as ([tokens ->] & -> & -> & -> & ->). simpl. lia.
  - destruct (control c); [|done..]. destruct (requests c); [done|]. injection H as <-. simpl. lia.
  - destruct (control c) as [|[[reply s]|]| |]; [done| |done..]. injection H as <-. simpl.
    destruct (decide _); simpl; lia.
  - destruct (control c); [done..| |done]. injection H as <-. simpl. lia.
  - destruct (control c); [done..| |done]. injection H as <-. simpl. lia.
  - destruct (control c); [|done..].
    destruct (reader c) eqn:Er, (sending c) eqn:Es, (requests c) eqn:Eq; try done.
    injection H as <-. simpl. rewrite Er, Es, Eq. simpl. lia.
Qed.

(** No run of the loop goes on for ever, whatever state each of its sections finds:
    the moves, and the sections of a request that is being handled, use something up. *)
Lemma loop_sn p : sn loop_step p.
Proof.
  remember (work p) as k eqn:Hk. revert p Hk.
  induction (lt_wf k) as [k _ IH]. intros p Hk.
  assert (Hless : ∀ q, (work q < k)%nat → sn loop_step q) by (intros q Hq; by apply (IH (work q))).
  clear IH.
  assert (Hhandling : ∀ t n c, control c = Handling t → (work (n, c) ≤ k)%nat → sn loop_step (n, c)).
  { induction t as [a|f IHt] using Task_induction; intros n c Hc Hle; constructor; intros q Hq;
      inversion Hq as [? l ? c' Hact|? ? f' w c' w' Hc' Hact|? ? s w c' w' Hc' Hact]; subst.
    1,4: apply Hless; apply (local_work n) in Hact; lia.
    1,2,4: congruence.
    rewrite Hc in Hc'. injection Hc' as <-. unfold act_shared in Hact. rewrite Hc in Hact.
    pose proof (IHt w) as IHw. destruct (f w) as [t' w1]. injection Hact as <- _.
    apply IHw; [done|]. unfold work in *. cbn in *. rewrite Hc in Hle. simpl in Hle. lia. }
  constructor. intros q Hq.
  inversion Hq as [n l c c' Hact|n c f w c' w' Hc Hact|n c s w c' w' Hc Hact]; subst.
  - apply Hless. by apply local_work with (l := l).
  - unfold act_shared in Hact. rewrite Hc in Hact. destruct (f w) as [t' w1]. injection Hact as <- _.
    apply (Hhandling t'); [done|]. unfold work. cbn. rewrite Hc. simpl. lia.
  - apply Hless. unfold act_shared in Hact. rewrite Hc in Hact.
    destruct (poll_recv _ _) as [[message|] m]; [|done]. injection Hact as <- _.
    unfold work. cbn. rewrite Hc. simpl. lia.
Qed.

(** ** Why the loop ends *)

(** What makes a loop break: the end of the requests, when every one of them is taken, or
    a write that fails. *)
Inductive breaks (c c' : Loop) (s : Session) : Prop :=
| breaks_end :
    control c = Selecting s → reader c = None → sending c = None → requests c = [] → breaks c c' s
| breaks_write text :
    control c = Writing text s → written c' = written c → breaks c c' s.

Lemma step_breaks p q s :
  loop_step p q → control q.2 = Broken s → control p.2 = Broken s ∨ breaks p.2 q.2 s.
Proof.
  intros [n l c c' H|n c f w c' w' Hc H|n c s0 w c' w' Hc H] Hend; cbn [snd] in *.
  - destruct l as [| | | |[]|]; unfold act_local in H;
      repeat case_match; simplify_eq/=; eauto using breaks.
  - unfold act_shared in H. rewrite Hc in H. destruct (f w). by simplify_eq/=.
  - unfold act_shared in H. rewrite Hc in H. by repeat case_match; simplify_eq/=.
Qed.

Lemma ended_nf n c s : control c = Broken s → reader c = None → sending c = None → nf loop_step (n, c).
Proof.
  intros Hc Hr Hs [q Hq]. inversion Hq as [? l ? c' H|? ? f w c' w' H _|? ? s' w c' w' H _]; subst; [|congruence..].
  destruct l as [| | | |[]|]; unfold act_local in H; by rewrite Hc, ?Hr, ?Hs in H.
Qed.

(** A run by a list of moves is a run with as many messages as it receives. *)
Lemma loop_moves_steps moves c w c' trace w' :
  loop_moves moves c w = Some (c', trace, w') → ∃ n, ∀ k, rtc loop_step ((n + k)%nat, c) (k, c').
Proof.
  revert c w trace. induction moves as [|[l|] moves IH]; intros c w trace; cbn [loop_moves].
  - intros [= -> <- ->]. exists 0%nat. constructor.
  - destruct (act_local l c) as [c1|] eqn:E; [|done]. intros (n & H)%IH. exists n. intros k.
    eapply rtc_l; [|apply H]. by apply step_local with (l := l).
  - destruct (act_shared c w) as [[c1 w1]|] eqn:E; [|done]. simpl.
    destruct (loop_moves moves c1 w1) as [[[c2 trace2] w2]|] eqn:Em; [|done]. intros [= -> <- ->].
    apply IH in Em as (n & H). unfold act_shared in E.
    destruct (control c) as [s|[|f]| |] eqn:Ec; try done.
    + exists (S n). intros k. eapply rtc_l; [|apply H]. apply (step_message _ _ s w _ w1); [done|].
      unfold act_shared. by rewrite Ec.
    + exists n. intros k. eapply rtc_l; [|apply H]. apply (step_handle _ _ f w _ w1); [done|].
      unfold act_shared. by rewrite Ec.
Qed.
End loop.
