(* ===== verification/Recovery.v ===== *)
(** Reading and recovery: what [dispatch] leaves alone, what the reader task gets from
    bytes, and what [replay_aof] makes of the same bytes. *)

From S2P Require Import Prelude Task RustInt RustStr RustF64 HashOrder Resp Clock Store PubSub.
From S2P Require Import FileSystem Aof Snapshot World Command Execute Session Server Wire.
From S2P Require Database.
Local Open Scope Z_scope.

Section recovery.
Context {CK : Clock} {HO : HashOrder} {OF : OrderedFloat} {MP : Mpsc} {FS : FileSystem}
  {SD : Serde} {TP : Process} {AR : AsyncBufRead} {SR : SliceReader AR}.

(** ** What a command leaves alone *)

(** Changes that a relation allows: any to the store, and any to the mailboxes that
    opens and closes no channel. *)
Definition off_store (R : World → World → Prop) : Prop := ∀ d w, R w (set_db d w).
Definition off_mail (R : World → World → Prop) : Prop :=
  ∀ m w, same_mailboxes (mail w) m → R w (set_mail m w).

Lemma frame_on_db {A} R (t : Task DbState A) : off_store R → respects R (on_db t).
Proof. intros HR. by apply respects_on_part. Qed.

Lemma frame_answer {A} R (reply : A → string) (op : Task DbState A) :
  off_store R → respects R (answer reply op).
Proof. intros HR. apply respects_bind; [by apply frame_on_db|]. constructor. Qed.

Lemma frame_gets {A} R (f : World → A) : off_store R → respects R (atomically (gets f)).
Proof. intros HR. apply respects_atomically. intros w. specialize (HR (db w) w). by destruct w. Qed.

Lemma frame_info R : off_store R → respects R info.
Proof.
  intros HR. apply respects_bind; [by apply frame_on_db|]. intros t.
  apply respects_bind; [by apply frame_gets|]. intros st.
  apply respects_bind; [by apply frame_on_db|]. constructor.
Qed.

Lemma frame_publish R channel payload : off_mail R → respects R (db_publish channel payload).
Proof.
  intros HR. apply respects_atomically. intros w.
  pose proof (publish_same channel payload (pubsub w) (mail w)) as Hk.
  destruct (publish channel payload (pubsub w) (mail w)). by apply HR.
Qed.

Lemma frame_execute R c :
  off_store R → off_mail R → (c = Save → respects R save) → respects R (execute c).
Proof.
  intros HR Hm Hsave. destruct c; cbn [execute]; try (destruct with_scores);
    try (by apply frame_answer); try (by constructor).
  - apply respects_bind; [by apply frame_info|constructor].
  - apply respects_bind; [by apply Hsave|constructor].
  - apply respects_bind; [by apply frame_publish|constructor].
Qed.

(** What a command may change: the store, the mailboxes, the files, and the counter
    of temporary files; so not the configuration, the replay flag, the registry of
    subscriptions, and the counter of connections. *)
Record outside (R : World → World → Prop) : Prop := {
  outside_store : off_store R;
  outside_mail : off_mail R;
  outside_fs f w : R w (set_fs f w);
  outside_temp n w : R w (set_temp_counter n w)
}.

Lemma outside_eq {A} (part : World → A) (a : A) :
  (∀ d w, part (set_db d w) = part w) → (∀ m w, part (set_mail m w) = part w) →
  (∀ f w, part (set_fs f w) = part w) → (∀ n w, part (set_temp_counter n w) = part w) →
  outside (λ w w', part w = a → part w' = a).
Proof. intros Hd Hm Hf Ht. split; [intros x w <-|intros x w _ <-|intros x w <-|intros x w <-]; auto. Qed.

Lemma frame_on_fs {A} R (m : State Fs A) : outside R → respects R (on_fs m).
Proof.
  intros HR. apply respects_atomically. intros w. unfold part_state.
  destruct (m (fs w)) as [a f]. by apply HR.
Qed.

Lemma frame_log R t : outside R → respects R (log_write t).
Proof.
  intros HR. apply respects_bind; [apply frame_gets, HR|]. intros q.
  destruct (replaying q); [constructor|]. destruct (aof q) as [a|]; [|constructor].
  apply respects_bind; [by apply frame_on_fs|constructor].
Qed.

Lemma frame_save R : outside R → respects R save.
Proof.
  intros HR. apply respects_bind; [apply frame_gets, HR|]. intros q.
  destruct (snapshot_path q) as [path|]; [|constructor].
  apply respects_bind; [apply frame_on_db, HR|]. intros snap.
  destruct (to_vec_pretty snap) as [json|e]; [|constructor].
  apply respects_bind; [apply respects_atomically; intros w; by apply HR|]. intros n.
  apply respects_bind; [by apply frame_on_fs|]. intros [u|e]; [by apply frame_on_fs|constructor].
Qed.

Lemma frame_dispatch R tokens : outside R → respects R (dispatch tokens).
Proof.
  intros HR. unfold dispatch. destruct tokens as [|t ts]; [constructor|].
  destruct (parse (t :: ts)) as [c|e]; [|constructor].
  assert (Hgen : ∀ b : bool, respects R
    (reply ← execute c; (if b && negb (starts_with "-"%char reply) then log_write (t :: ts) else mret tt) ;;
     mret reply)).
  { intros b. apply respects_bind; [apply frame_execute; [apply HR..|by intros; apply frame_save]|].
    intros reply. apply respects_bind; [|constructor].
    destruct (b && negb (starts_with "-"%char reply)); [by apply frame_log|constructor]. }
  destruct c; try apply Hgen. unfold dispatch_spop.
  apply respects_bind; [apply frame_on_db, HR|].
  intros popped. apply respects_bind; [|constructor].
  destruct popped as [[m|]|e]; [by apply frame_log|constructor|constructor].
Qed.

(** An invariant about what no command touches. *)
Lemma outside_dispatch I tokens :
  outside (λ w w', I w → I w') → keeps I (dispatch tokens).
Proof. intros HI. by apply respects_keeps, frame_dispatch. Qed.

(** ** The replay *)

Fixpoint dispatch_all (commands : list (list string)) : Task World unit :=
  match commands with
  | [] => mret tt
  | tokens :: commands => dispatch tokens ;; dispatch_all commands
  end.

(** Bytes at which the replay stops. *)
Definition stops (tail : string) : Prop :=
  ∀ r, remaining r = tail → (read_request r).1 = Ok None ∨ fails read_request r.

Lemma stops_empty : stops "".
Proof.
  intros r Hr. left. unfold read_request, mbind, state_bind.
  destruct (read_line_tail r "" Hr) as [H1 H2]; [constructor|constructor|].
  destruct (read_line r) as [line r1]; cbn [fst snd] in *. subst line. by rewrite decide_True.
Qed.

Lemma stops_cut tokens p y x :
  tokens ≠ [] → request_ok tokens → p +:+ String y x = array tokens → stops p.
Proof. intros Hne Hok Hcut r Hr. by eapply read_request_cut. Qed.

(** The requests a client sends are the requests the connection gets. *)
Lemma reader_task_log requests tail fuel r :
  Forall request_ok requests → stops tail → (length requests < fuel)%nat →
  remaining r = log_of requests +:+ tail → reader_task fuel r = requests.
Proof.
  intros Hok Hstop. revert fuel r. induction Hok as [|tokens requests Ht _ IH]; intros fuel r Hf Hr;
    (destruct fuel as [|fuel]; [simpl in Hf; lia|]); cbn [reader_task].
  - destruct (Hstop r Hr) as [H|[e H]]; destruct (read_request r) as [x r']; simpl in H; by subst.
  - unfold log_of in Hr. rewrite fmap_cons in Hr. simpl in Hr. rewrite sapp_assoc in Hr.
    pose proof (read_request_array tokens r _ Ht Hr) as H.
    destruct (read_request r) as [x r']. destruct H as [-> Hr']. f_equal. apply IH; [simpl in Hf; lia|done].
Qed.

(** The replay dispatches the requests of the file, which are those that a connection
    would get from the same bytes. *)
Lemma replay_loop_reads fuel r n w :
  run (replay_loop fuel r n) w =
    (n + Z.of_nat (length (reader_task fuel r)), (run (dispatch_all (reader_task fuel r)) w).2).
Proof.
  revert r n w. induction fuel as [|fuel IH]; intros r n w; cbn [replay_loop reader_task].
  { cbn. f_equal. lia. }
  destruct (read_request r) as [[[tokens|]|e] r1]; [|cbn; f_equal; lia..].
  cbn [dispatch_all]. rewrite !run_bind. destruct (run (dispatch tokens) w) as [reply w1].
  rewrite IH. f_equal. cbn [length]. lia.
Qed.

Lemma replay_loop_log commands tail fuel r n w :
  Forall request_ok commands → stops tail → (length commands < fuel)%nat →
  remaining r = log_of commands +:+ tail →
  run (replay_loop fuel r n) w =
    (n + Z.of_nat (length commands), (run (dispatch_all commands) w).2).
Proof. intros Hok Htail Hfuel Hr. by rewrite replay_loop_reads, (reader_task_log commands tail). Qed.

(** An entry over the limit ends the replay, whatever comes after it. *)
Lemma stops_oversized tokens rest :
  MAX_MULTIBULK < Z.of_nat (length tokens) ≤ usize_max → stops (array tokens +:+ rest).
Proof. intros Hlen r Hr. right. by eapply read_request_oversized. Qed.

(** A request beyond the limits or not in UTF-8 ends the reading as well. *)
Lemma stops_bad tokens rest : ¬ request_ok tokens → countable tokens → stops (array tokens +:+ rest).
Proof. intros Hbad Hc r Hr. right. by eapply read_request_bad. Qed.

(** What may come after the last whole request of a client: nothing, a request that is
    cut short, or one that the reader refuses, and then anything. *)
Inductive unread : string → Prop :=
| unread_nothing : unread ""
| unread_cut tokens cut y rest :
    tokens ≠ [] → request_ok tokens → cut +:+ String y rest = array tokens → unread cut
| unread_refused tokens rest :
    ¬ request_ok tokens → countable tokens → unread (array tokens +:+ rest).

Lemma unread_stops tail : unread tail → stops tail.
Proof.
  intros [|tokens cut y rest Hne Hok Hcut|tokens rest Hbad Hc];
    [apply stops_empty|by eapply stops_cut|by apply stops_bad].
Qed.

Lemma array_nonempty tokens : (0 < String.length (array tokens))%nat.
Proof. rewrite array_bytes, slen_app. simpl. lia. Qed.

Lemma log_length commands : (length commands ≤ String.length (log_of commands))%nat.
Proof.
  induction commands as [|t commands IH]; [simpl; lia|].
  change (log_of (t :: commands)) with (array t +:+ log_of commands).
  rewrite slen_app. pose proof (array_nonempty t). simpl. lia.
Qed.

(** The bound on the number of requests is never what ends the loop. *)
Lemma reader_task_fuel fuel fuel' r :
  (String.length (remaining r) < fuel)%nat → (String.length (remaining r) < fuel')%nat →
  reader_task fuel r = reader_task fuel' r.
Proof.
  revert fuel' r. induction fuel as [|fuel IH]; intros fuel' r Hf Hf'; [lia|].
  destruct fuel' as [|fuel']; [lia|]. cbn [reader_task].
  destruct (read_request r) as [[[tokens|]|e] r1] eqn:Hr; [|done|done].
  apply read_request_consumes in Hr. f_equal. apply IH; lia.
Qed.

Lemma replay_loop_fuel fuel fuel' r n :
  (String.length (remaining r) < fuel)%nat → (String.length (remaining r) < fuel')%nat →
  ∀ w, run (replay_loop fuel r n) w = run (replay_loop fuel' r n) w.
Proof. intros Hf Hf' w. by rewrite !replay_loop_reads, (reader_task_fuel fuel fuel'). Qed.

Lemma reader_task_length fuel r : (length (reader_task fuel r) ≤ String.length (remaining r))%nat.
Proof.
  revert r. induction fuel as [|fuel IH]; intros r; cbn [reader_task]; [simpl; lia|].
  destruct (read_request r) as [[[tokens|]|e] r1] eqn:Hr; simpl; [|lia..].
  apply read_request_consumes in Hr. specialize (IH r1). lia.
Qed.

Definition with_replaying (b : bool) (w : World) : World :=
  set_persistence {| snapshot_path := snapshot_path (persistence w);
                     aof := aof (persistence w); replaying := b |} w.

Lemma replay_aof_log path commands tail w :
  Forall request_ok commands → stops tail →
  read_file path (fs w) = Ok (log_of commands +:+ tail) →
  run (replay_aof path) w =
    (Ok (Z.of_nat (length commands)),
     with_replaying false (run (dispatch_all commands) (with_replaying true w)).2).
Proof.
  intros Hok Htail Hread. unfold replay_aof. rewrite run_bind, run_on_fs. unfold gets.
  assert (Hw : set_fs (fs w) w = w) by (by destruct w). rewrite Hw, Hread.
  rewrite run_bind. unfold begin_replay, set_replaying. rewrite run_atomically.
  unfold modify. fold (with_replaying true w). rewrite run_bind.
  rewrite (replay_loop_log commands tail); [|done|done| |apply remaining_slice].
  - rewrite run_bind. unfold end_replay, set_replaying. rewrite run_atomically. done.
  - rewrite slen_app. pose proof (log_length commands). lia.
Qed.
End recovery.
