(* ===== verification/Durability.v ===== *)
(** Durability: what the log holds after a run, and that replaying it rebuilds
    the keyspace. *)

From S2P Require Import Prelude Task RustInt RustStr RustPath RustF64 HashOrder Resp Clock Store.
From S2P Require Import PubSub FileSystem Aof Snapshot World Command Execute Dispatch ReadOnly.
From S2P Require Import ErrorReply Effects Session Config Server Wire Recovery.
From S2P Require Database Keyspace Refinement KeyOps Invariant.
Local Open Scope Z_scope.

(** The effect of a log on a store without deadlines. *)
Definition apply_entry {OF : OrderedFloat} (st : Store) (tokens : list string) : Store :=
  match parse tokens with
  | Ok c => effect c st
  | Err _ => st
  end.
Definition apply_log {OF : OrderedFloat} (entries : list (list string)) (st : Store) : Store :=
  foldl apply_entry st entries.

(** A log entry is a write that parses, without a deadline. *)
Definition replayable (tokens : list string) : Prop :=
  ∃ c, parse tokens = Ok c ∧ is_write c = true ∧ untimed c.

(** A request that gives no deadline. *)
Definition request_untimed (tokens : list string) : Prop := ∀ c, parse tokens = Ok c → untimed c.

Section durability.
Context {CK : Clock} {HO : HashOrder} {OF : OrderedFloat} {MP : Mpsc} {FS : FileSystem}
  {SD : Serde} {TP : Process}.

(** The entries that dispatching the tokens from [w] adds to the log. *)
Definition logged (tokens : list string) (w : World) : list (list string) :=
  match parse tokens with
  | Err _ => []
  | Ok (SPop key) =>
      match (run (Database.spop key) (db w)).1 with
      | Ok (Some member) => [["SREM"; key; member]]
      | _ => []
      end
  | Ok c => if is_write c && negb (is_error (run (execute c) w).1) then [tokens] else []
  end.

(** The state after the command and before its log entry. *)
Definition executed (tokens : list string) (w : World) : World :=
  match parse tokens with
  | Ok c => (run (execute c) w).2
  | Err _ => w
  end.

Fixpoint log_all (entries : list (list string)) : Task World unit :=
  match entries with
  | [] => mret tt
  | tokens :: entries => log_write tokens ;; log_all entries
  end.

(** A dispatch is the command and then its log entries. *)
Lemma dispatch_split tokens w :
  (run (dispatch tokens) w).2 = (run (log_all (logged tokens w)) (executed tokens w)).2.
Proof.
  unfold dispatch, logged, executed. destruct tokens as [|name args]; [done|].
  destruct (parse (name :: args)) as [c|e]; [|done].
  assert (Hgen : (run (reply ← execute c;
      (if is_write c && negb (starts_with "-"%char reply) then log_write (name :: args)
       else mret tt) ;; mret reply) w).2 =
    (run (log_all (if is_write c && negb (is_error (run (execute c) w).1)
                   then [name :: args] else [])) (run (execute c) w).2).2).
  { rewrite run_bind. destruct (run (execute c) w) as [reply w1]. cbn [fst snd]. rewrite run_bind.
    unfold is_error. destruct (is_write c && _); [|done]. cbn [log_all]. rewrite run_bind.
    by destruct (run (log_write _) w1) as [[] w2]. }
  destruct c; try exact Hgen. clear Hgen. unfold dispatch_spop. cbn [execute].
  rewrite run_answer, run_bind, run_on_db. destruct (run (Database.spop key) (db w)) as [r d].
  cbn [fst snd]. rewrite run_bind. destruct r as [[m|]|e]; [|done|done].
  cbn [log_all]. rewrite run_bind. by destruct (run (log_write _) _) as [[] w2].
Qed.

Lemma log_all_db entries w : db (run (log_all entries) w).2 = db w.
Proof.
  revert w. induction entries as [|t entries IH]; intros w; [done|]. cbn [log_all].
  rewrite run_bind. pose proof (run_log_db t w) as H.
  destruct (run (log_write t) w) as [[] w1]. by rewrite IH.
Qed.

Lemma dispatch_db tokens w : db (run (dispatch tokens) w).2 = db (executed tokens w).
Proof. by rewrite dispatch_split, log_all_db. Qed.

(** ** The store is the effect of the log *)

Lemma spop_logged key w :
  world_wf w → no_deadlines (store (db w)) →
  store (db (run (execute (SPop key)) w).2) =
    apply_log (match (run (Database.spop key) (db w)).1 with
               | Ok (Some member) => [["SREM"; key; member]]
               | _ => []
               end) (store (db w)).
Proof.
  intros Hwf H. cbn [execute]. rewrite run_answer. cbn [snd].
  change (db (set_db ?d w)) with d.
  pose proof (Refinement.set_ops_refine key Refinement.SPop (db w)) as Hs.
  cbn [Refinement.run_set_op] in Hs. destruct (run (Database.spop key) (db w)) as [r s'].
  cbn [fst snd]. destruct Hs as (Hans & _ & Hst). rewrite no_deadlines_seen in Hst, Hans by done.
  rewrite Hst. unfold Keyspace.apply_spec in Hans. set (st := store (db w)) in *.
  assert (Hr : (Keyspace.typed_spec VSet as_set (Refinement.set_spec Refinement.SPop) (st !! key)).1 = r).
  { destruct (Keyspace.typed_spec _ _ _ _) as [r0 o]. by inversion Hans. }
  clear Hans Hst. destruct (st !! key) as [e|] eqn:E; cbn in Hr |- *.
  2: { subst r. cbn. by rewrite <- E, partial_alter_self. }
  destruct (value e) as [|?|s|?|?] eqn:Hv; cbn in Hr |- *; subst r; cbn;
    try (by rewrite <- E, partial_alter_self).
  destruct (head (iter_set s)) as [m|] eqn:Hm; cbn.
  - unfold apply_entry. change (parse ["SREM"; key; m]) with (Ok (E := CommandError) (SRem key [m])).
    unfold effect, set_effect, on_key, Keyspace.typed_spec. rewrite E. cbn. rewrite Hv. cbn.
    by rewrite (right_id_L ∅ (∪)).
  - destruct (iter_set s) as [|x l] eqn:Hs; [|done]. apply iter_set_nil in Hs.
    pose proof (Hwf key e E) as He. unfold Invariant.entry_wf in He. by rewrite Hv in He.
Qed.

Lemma srem_replayable key m : replayable ["SREM"; key; m].
Proof. by exists (SRem key [m]). Qed.

Lemma logged_replayable tokens w : request_untimed tokens → Forall replayable (logged tokens w).
Proof.
  unfold logged. intros Ht. destruct (parse tokens) as [c|e] eqn:Hp; [|constructor].
  assert (Hgen : Forall replayable
    (if is_write c && negb (is_error (run (execute c) w).1) then [tokens] else [])).
  { destruct (is_write c) eqn:Hw; [|constructor]. destruct (negb _); [|constructor].
    apply Forall_singleton. exists c. auto. }
  destruct c; try exact Hgen. destruct (run (Database.spop key) (db w)).1 as [[m|]|]; try constructor.
  { apply srem_replayable. } constructor.
Qed.

Lemma logged_effect tokens w :
  world_wf w → no_deadlines (store (db w)) → request_untimed tokens →
  store (db (executed tokens w)) = apply_log (logged tokens w) (store (db w)).
Proof.
  intros Hwf H Ht. unfold logged, executed. destruct (parse tokens) as [c|e] eqn:Hp; [|done].
  assert (Hgen : (∀ key, c ≠ SPop key) → store (db (run (execute c) w).2) =
    apply_log (if is_write c && negb (is_error (run (execute c) w).1) then [tokens] else [])
      (store (db w))).
  { intros Hpop. destruct (is_write c) eqn:Hw; simpl.
    - destruct (is_error (run (execute c) w).1) eqn:He; simpl.
      + pose proof (error_quiet_execute c (parse_wf _ _ Hp) w) as Hq.
        destruct (run (execute c) w) as [reply w']. by apply no_deadlines_lapses; [|apply Hq].
      + unfold apply_entry. rewrite Hp. apply execute_effect; try done; [by eapply parse_wf|by apply Ht].
    - apply no_deadlines_lapses; [done|].
      apply (keeps_run (world_lapses (store (db w)))); [|apply lapses_start].
      apply lapses_execute. split; [done|]. destruct c; try done. by eapply Hpop. }
  destruct c; try (apply Hgen; done). by apply spop_logged.
Qed.

(** The log of a whole run. *)
Fixpoint logged_all (commands : list (list string)) (w : World) : list (list string) :=
  match commands with
  | [] => []
  | tokens :: commands => logged tokens w ++ logged_all commands (run (dispatch tokens) w).2
  end.

Lemma logged_all_app c1 c2 w :
  logged_all (c1 ++ c2) w = logged_all c1 w ++ logged_all c2 (run (dispatch_all c1) w).2.
Proof.
  revert w. induction c1 as [|tokens c1 IH]; intros w; [done|]. cbn [app logged_all dispatch_all].
  rewrite IH, run_bind, <- app_assoc. by destruct (run (dispatch tokens) w).
Qed.

(** A request adds an entry at most. *)
Lemma logged_length tokens w : (length (logged tokens w) ≤ 1)%nat.
Proof. unfold logged. repeat case_match; simpl; lia. Qed.

(** Any number of entries of a run is what some prefix of its requests logged. *)
Lemma logged_all_take commands w m :
  (m ≤ length (logged_all commands w))%nat →
  ∃ k, (k ≤ length commands)%nat ∧ logged_all (take k commands) w = take m (logged_all commands w).
Proof.
  revert w m. induction commands as [|tokens commands IH]; intros w m; cbn [logged_all].
  { intros _. exists 0%nat. split; [done|]. by rewrite !take_nil. }
  rewrite length_app. intros Hm. destruct (decide (m = 0)%nat) as [->|Hne]; [exists 0%nat; split; [lia|done]|].
  pose proof (logged_length tokens w) as Hl.
  destruct (IH (run (dispatch tokens) w).2 (m - length (logged tokens w))%nat) as (k & Hk & Heq); [lia|].
  exists (S k). split; [simpl; lia|]. cbn [take logged_all]. rewrite Heq, take_app.
  by rewrite (take_ge (logged tokens w)) by lia.
Qed.

Lemma logged_all_replayable commands w :
  Forall request_untimed commands → Forall replayable (logged_all commands w).
Proof.
  intros H. revert w. induction H as [|tokens commands Ht _ IH]; intros w; [constructor|].
  apply Forall_app. split; [by apply logged_replayable|apply IH].
Qed.

Lemma apply_log_no_deadlines entries st :
  no_deadlines st → no_deadlines (apply_log entries st).
Proof.
  revert st. induction entries as [|t entries IH]; intros st H; [done|]. apply IH.
  unfold apply_entry. destruct (parse t); [by apply no_deadlines_effect|done].
Qed.

Lemma run_is_log commands w :
  world_wf w → no_deadlines (store (db w)) → Forall request_untimed commands →
  store (db (run (dispatch_all commands) w).2) =
    apply_log (logged_all commands w) (store (db w)).
Proof.
  intros Hwf H Hc. revert w Hwf H. induction Hc as [|tokens commands Ht _ IH]; intros w Hwf H; [done|].
  cbn [dispatch_all logged_all]. rewrite run_bind.
  pose proof (dispatch_db tokens w) as Hdb.
  pose proof (keeps_run world_wf _ w (keeps_dispatch tokens) Hwf) as Hwf'.
  pose proof (logged_effect tokens w Hwf H Ht) as He.
  destruct (run (dispatch tokens) w) as [reply w1]. cbn [snd] in *.
  rewrite <- Hdb in He. unfold apply_log. rewrite foldl_app.
  fold (apply_log (logged tokens w) (store (db w))). rewrite <- He. apply IH; [done|].
  rewrite He. by apply apply_log_no_deadlines.
Qed.

(** Replaying a log applies it. *)
Lemma replay_is_log entries w :
  no_deadlines (store (db w)) → Forall replayable entries →
  store (db (run (dispatch_all entries) w).2) = apply_log entries (store (db w)).
Proof.
  intros H He. revert w H. induction He as [|tokens entries Ht _ IH]; intros w H; [done|].
  cbn [dispatch_all]. rewrite run_bind. pose proof (dispatch_db tokens w) as Hdb.
  destruct (run (dispatch tokens) w) as [reply w1]. cbn [snd] in *.
  destruct Ht as (c & Hp & Hw & Hu). unfold executed in Hdb. rewrite Hp in Hdb.
  assert (Hst : store (db w1) = apply_entry (store (db w)) tokens).
  { rewrite Hdb. unfold apply_entry. rewrite Hp. apply execute_effect; try done. by eapply parse_wf. }
  cbn [apply_log foldl]. fold (apply_log entries (apply_entry (store (db w)) tokens)).
  rewrite IH, Hst; [done|]. unfold apply_entry in Hst. rewrite Hp in Hst. rewrite Hst.
  by apply no_deadlines_effect.
Qed.

(** ** What the log holds *)

(** Appends to the log succeed. *)
Definition healthy (a : Aof) : Prop := ∀ tokens f, (append a tokens f).1 = Ok tt.

Definition log_path (a : Aof) : string := file_path (file a).

(** The log is [a], and snapshots are written elsewhere. *)
Definition logs_to (a : Aof) (p : Persistence) : Prop :=
  aof p = Some a ∧ replaying p = false ∧
  ∀ path, snapshot_path p = Some path →
    has_file_name path ∧ path ≠ log_path a ∧ ∀ n, temp_path path n ≠ log_path a.

(** Entries are appended to whatever is there. *)
Lemma log_write_appends a base tokens w :
  healthy a → logs_to a (persistence w) → content (log_path a) (fs w) = Some base →
  let w' := (run (log_write tokens) w).2 in
  content (log_path a) (fs w') = Some (base +:+ log_of [tokens]) ∧ persistence w' = persistence w.
Proof.
  intros Hh (Ha & Hr & _) Hc. unfold log_write. rewrite run_bind, run_gets, Hr, Ha, run_bind, run_on_fs.
  specialize (Hh tokens (fs w)). destruct (append a tokens (fs w)) as [r f] eqn:E.
  simpl in Hh. subst r. cbn. split; [|done]. by eapply append_logs.
Qed.

Lemma log_all_appends a base entries w :
  healthy a → logs_to a (persistence w) → content (log_path a) (fs w) = Some base →
  let w' := (run (log_all entries) w).2 in
  content (log_path a) (fs w') = Some (base +:+ log_of entries) ∧ persistence w' = persistence w.
Proof.
  intros Hh. revert base w. induction entries as [|t entries IH]; intros base w Ha Hc; cbn [log_all].
  { by rewrite sapp_nil_r. }
  rewrite run_bind. destruct (log_write_appends a base t w Hh Ha Hc) as [Hc' Hp].
  destruct (run (log_write t) w) as [[] w1]. cbn [snd] in *.
  destruct (IH (base +:+ log_of [t]) w1) as [Hc2 Hp2]; [by rewrite Hp|done|].
  rewrite sapp_assoc, <- log_of_app in Hc2. split; [done|]. by rewrite Hp2.
Qed.

(** Saving a snapshot writes to its path and to temporary files of its own. *)
Lemma save_content q w :
  (∀ path, snapshot_path (persistence w) = Some path →
    has_file_name path ∧ path ≠ q ∧ ∀ n, temp_path path n ≠ q) →
  let w' := (run save w).2 in
  content q (fs w') = content q (fs w) ∧ persistence w' = persistence w.
Proof.
  intros Hq. unfold save. rewrite run_bind, run_gets.
  destruct (snapshot_path (persistence w)) as [path|]; [|done].
  destruct (Hq path eq_refl) as (Hname & Hpath & Htemp). unfold save_to. rewrite run_bind, run_on_db.
  destruct (run (atomically snapshot) (db w)) as [snap d]. destruct (to_vec_pretty snap) as [json|e]; [|done].
  rewrite run_bind, run_atomically. unfold next_temp. cbn [temp_counter set_db].
  rewrite run_bind, run_on_fs. cbn [fs set_temp_counter set_db].
  set (temp := temp_path path _). assert (Hne : temp ≠ path) by by apply temp_path_ne.
  assert (Hq1 : q ≠ temp) by (intros Heq; by apply (Htemp _ (eq_sym Heq))).
  assert (Hq2 : q ≠ path) by done. clear Hpath Htemp.
  destruct (write_file temp json (fs w)) as [[[]|e] f] eqn:Hwrite.
  - apply write_file_ok in Hwrite as [_ Hother]. rewrite run_on_fs. cbn [fs set_fs].
    destruct (rename_file temp path f) as [[[]|e] f'] eqn:Hren; cbn; (split; [|done]).
    + apply rename_file_ok in Hren as (_ & _ & Hrest); [|done].
      by rewrite Hrest, Hother.
    + by rewrite (rename_file_err _ _ _ _ _ Hren), Hother.
  - cbn. split; [|done]. by rewrite (write_file_err _ _ _ _ _ Hwrite).
Qed.

Lemma executed_content a tokens w :
  logs_to a (persistence w) →
  content (log_path a) (fs (executed tokens w)) = content (log_path a) (fs w) ∧
  persistence (executed tokens w) = persistence w.
Proof.
  intros (_ & _ & Hpaths). unfold executed. destruct (parse tokens) as [c|e]; [|done].
  set (I w' := content (log_path a) (fs w') = content (log_path a) (fs w) ∧
               persistence w' = persistence w).
  assert (Hframe : c ≠ Save → I (run (execute c) w).2).
  { intros Hs. apply keeps_run; [|done].
    apply respects_keeps, frame_execute; [by intros d w' [??]|by intros m w' _ [??]|done]. }
  assert (Hc : c = Save ∨ c ≠ Save) by (destruct c; (by left) || (by right)).
  destruct Hc as [-> | Hs]; [|by apply Hframe]. cbn [execute]. rewrite run_bind.
  pose proof (save_content (log_path a) w Hpaths) as Hsave.
  by destruct (run save w) as [r w'].
Qed.

(** After a run the log holds its entries, in the order of the run. *)
Lemma run_appends a base commands w :
  healthy a → logs_to a (persistence w) → content (log_path a) (fs w) = Some base →
  content (log_path a) (fs (run (dispatch_all commands) w).2) =
    Some (base +:+ log_of (logged_all commands w)).
Proof.
  intros Hh. revert base w. induction commands as [|tokens commands IH]; intros base w Ha Hc.
  { cbn. by rewrite sapp_nil_r. }
  cbn [dispatch_all logged_all]. rewrite run_bind.
  pose proof (dispatch_split tokens w) as Hsplit.
  destruct (run (dispatch tokens) w) as [reply w1]. cbn [snd] in *.
  destruct (executed_content a tokens w Ha) as [Hfs Hp].
  destruct (log_all_appends a base (logged tokens w) (executed tokens w) Hh) as [Hc' Hp'];
    [by rewrite Hp|by rewrite Hfs|]. rewrite <- Hsplit in Hc', Hp'.
  rewrite log_of_app, <- sapp_assoc. apply IH; [by rewrite Hp', Hp|done].
Qed.

(** The log tells the store: what the server is when it runs with a log from
    the start. *)
Definition recorded (a : Aof) (w : World) : Prop :=
  ∃ L, content (log_path a) (fs w) = Some (log_of L) ∧
    Forall replayable L ∧ Forall request_ok L ∧ store (db w) = apply_log L ∅.

Lemma recorded_run a commands w :
  healthy a → logs_to a (persistence w) → world_wf w →
  Forall request_untimed commands → Forall request_ok (logged_all commands w) →
  recorded a w → recorded a (run (dispatch_all commands) w).2.
Proof.
  intros Hh Ha Hwf Ht Hok (L & Hc & HL & HLok & Hst). exists (L ++ logged_all commands w).
  split_and!.
  - rewrite log_of_app. by apply run_appends.
  - apply Forall_app. split; [done|]. by apply logged_all_replayable.
  - by apply Forall_app.
  - unfold apply_log. rewrite foldl_app. fold (apply_log L ∅). rewrite <- Hst.
    apply run_is_log; try done. rewrite Hst. by apply apply_log_no_deadlines.
Qed.

(** The disk gives back what is on it. *)
Definition readable (path : string) : Prop :=
  ∀ f b, content path f = Some b → read_file path f = Ok b.

Context {AR : AsyncBufRead} {SR : SliceReader AR}.

(** Whatever the file holds, the replay ends with the store well formed and the
    replay flag off. *)
Lemma keeps_replay_loop (I : World → Prop) fuel r n :
  (∀ tokens, keeps I (dispatch tokens)) → keeps I (replay_loop fuel r n).
Proof.
  intros Hd. revert r n. induction fuel as [|fuel IH]; intros r n; cbn [replay_loop]; [constructor|].
  destruct (read_request r) as [[[tokens|]|e] r']; try constructor.
  apply keeps_bind; [apply Hd|]. intros _. apply IH.
Qed.

Lemma run_replay_aof path w :
  run (replay_aof path) w =
    match read_file path (fs w) with
    | Ok bytes =>
        let '(n, w') := run (replay_loop (S (String.length bytes)) (slice_reader bytes) 0)
                          (with_replaying true w) in
        (Ok n, with_replaying false w')
    | Err e => (if io_not_found e then Ok 0 else Err e, w)
    end.
Proof.
  unfold replay_aof. rewrite run_bind, run_on_fs. cbn [gets].
  assert (Hw : set_fs (fs w) w = w) by (by destruct w). rewrite Hw.
  destruct (read_file path (fs w)) as [bytes|e]; [|by destruct (io_not_found e)].
  rewrite run_bind. unfold begin_replay, set_replaying. rewrite run_atomically. unfold modify.
  fold (with_replaying true w). rewrite run_bind.
  by destruct (run (replay_loop _ _ _) _) as [n w'].
Qed.

Lemma replay_any_file path w :
  world_wf w → replaying (persistence w) = false →
  world_wf (run (replay_aof path) w).2 ∧ persistence (run (replay_aof path) w).2 = persistence w.
Proof.
  intros Hwf Hr. rewrite run_replay_aof. destruct (read_file path (fs w)) as [bytes|e]; [|done].
  set (loop := replay_loop _ _ _).
  assert (H1 : world_wf (run loop (with_replaying true w)).2).
  { apply keeps_run; [|exact Hwf]. apply keeps_replay_loop. apply keeps_dispatch. }
  assert (H2 : persistence (run loop (with_replaying true w)).2 = persistence (with_replaying true w)).
  { apply (keeps_run (λ w', persistence w' = persistence (with_replaying true w))); [|done].
    apply keeps_replay_loop. intros tokens. apply outside_dispatch, outside_eq; done. }
  destruct (run loop _) as [n w']. cbn [fst snd] in *. split; [exact H1|].
  unfold with_replaying. cbn [persistence set_persistence]. rewrite H2. cbn.
  destruct (persistence w). simpl in *. by subst.
Qed.

(** ** A start with the log turned on *)

(** The server has been started at a reading of the clock, and its log gave these
    requests. *)
Definition replayed (now : nat) (requests : list (list string)) (w : World) : Prop :=
  ∃ w0, store (db w0) = ∅ ∧ tick (db w0) = S now ∧
    w = with_replaying false (run (dispatch_all requests) w0).2.

(** A start reads the log as a connection would. *)
Lemma init_replayed config m f now w policy bytes :
  appendonly config = true → readable (aof_file config) → content (aof_file config) f = Some bytes →
  init_persistence config m f now = Ok (w, policy) →
  replayed now (reader_task (S (String.length bytes)) (slice_reader bytes)) w.
Proof.
  intros Hon Hread Hc. unfold init_persistence. rewrite Hon.
  destruct (policy_from_str (appendfsync config)) as [pol|e]; [|done].
  unfold aof_open, mbind, state_bind.
  destruct (open_append (aof_file config) f) as [[fl|e] f'] eqn:Hopen; [|done].
  apply open_append_ok in Hopen as (_ & Hc' & _). rewrite Hc in Hc'. cbn [mret state_ret result_bind].
  set (w0 := with_persistence _ _ _ _ _ _). remember (run (replay_aof (aof_file config)) w0).2 as w1 eqn:Hw1.
  intros [= <- _]. rewrite Hw1, run_replay_aof. change (fs w0) with f'. rewrite (Hread f' bytes Hc').
  rewrite replay_loop_reads. by exists (with_replaying true w0).
Qed.

(** Entries, and bytes at which the replay stops. *)
Lemma init_replayed_log config m f now L tail w policy :
  appendonly config = true → readable (aof_file config) →
  content (aof_file config) f = Some (log_of L +:+ tail) → stops tail → Forall request_ok L →
  init_persistence config m f now = Ok (w, policy) → replayed now L w.
Proof.
  intros Hon Hread Hc Htail Hok Hinit. pose proof (init_replayed _ _ _ _ _ _ _ Hon Hread Hc Hinit) as H.
  rewrite (reader_task_log L tail) in H; [done..| |apply remaining_slice].
  rewrite slen_app. pose proof (log_length L). lia.
Qed.

Lemma restart_store config mail f ticks L tail w policy :
  appendonly config = true → readable (aof_file config) →
  content (aof_file config) f = Some (log_of L +:+ tail) → stops tail →
  Forall replayable L → Forall request_ok L →
  init_persistence config mail f ticks = Ok (w, policy) →
  store (db w) = apply_log L ∅.
Proof.
  intros Hon Hread Hc Htail HL Hok Hinit.
  destruct (init_replayed_log _ _ _ _ _ _ _ _ Hon Hread Hc Htail Hok Hinit) as (w0 & Hst & _ & ->).
  change (db (with_replaying false ?w)) with (db w). rewrite <- Hst.
  apply replay_is_log; [|done]. by rewrite Hst.
Qed.

Lemma restart_wf config mail f ticks w policy :
  appendonly config = true → init_persistence config mail f ticks = Ok (w, policy) →
  world_wf w ∧ replaying (persistence w) = false.
Proof.
  intros Hon. unfold init_persistence. rewrite Hon.
  destruct (policy_from_str (appendfsync config)) as [pol|e]; [|done].
  destruct (aof_open (aof_file config) pol f) as [[opened|e] f']; [|done]. cbn [result_bind].
  set (w0 := with_persistence _ _ _ _ _ _).
  pose proof (replay_any_file (aof_file config) w0) as H.
  remember (run (replay_aof (aof_file config)) w0).2 as w1 eqn:Hw1.
  intros [= <- _]. destruct H as [Hwf Hp]; [apply map_Forall_empty|done|]. by rewrite Hp.
Qed.
End durability.
