(* ===== verification/Crash.v ===== *)
(** Crashes: what a restart makes of a log of which only the beginning reached the
    disk, perhaps up to the middle of an entry. *)

From S2P Require Import Prelude Task RustInt RustStr RustPath RustF64 HashOrder Resp Clock Store.
From S2P Require Import PubSub FileSystem Aof Snapshot World Command Execute Dispatch.
From S2P Require Import Effects Session Config Server Wire Recovery Durability.
Local Open Scope Z_scope.

Section cut.
Context {AR : AsyncBufRead} {SR : SliceReader AR}.

(** Bytes at the beginning of a log are whole entries and a tail at which the replay
    stops; every entry that is whole in them is among the entries. *)
Lemma cut_log L p lost :
  Forall request_ok L → Forall (λ t, t ≠ []) L → p +:+ lost = log_of L →
  ∃ m tail, (m ≤ length L)%nat ∧ p = log_of (take m L) +:+ tail ∧ stops tail ∧
    ∀ L1 L2 extra, L = L1 ++ L2 → p = log_of L1 +:+ extra → (length L1 ≤ m)%nat.
Proof.
  intros Hok. revert p. induction Hok as [|t L Ht _ IH]; intros p Hne Hcut.
  - exists 0%nat, "". assert (p = "") as -> by (by destruct p).
    split; [done|]. split; [done|]. split; [apply stops_empty|].
    intros L1 L2 extra HL _. symmetry in HL. apply app_nil in HL as [-> _]. simpl. lia.
  - inversion Hne as [|? ? Htne HneL]; subst. change (log_of (t :: L)) with (array t +:+ log_of L) in Hcut.
    apply sapp_split in Hcut as [(x & -> & Hx)|(y & x & Hcut & _)].
    + destruct (IH x HneL (eq_sym Hx)) as (m & tail & Hm & -> & Hstop & Hmax). exists (S m), tail.
      split; [simpl; lia|]. split.
      { cbn [take]. change (log_of (t :: take m L)) with (array t +:+ log_of (take m L)).
        by rewrite sapp_assoc. }
      split; [done|]. intros [|t' L1] L2 extra HL Hp; [simpl; lia|].
      injection HL as <- HL. change (log_of (t :: L1)) with (array t +:+ log_of L1) in Hp.
      rewrite sapp_assoc in Hp. apply (inj (String.append (array t))) in Hp.
      simpl. pose proof (Hmax L1 L2 extra HL Hp). lia.
    + exists 0%nat, p. split; [lia|]. split; [done|]. split; [by eapply stops_cut|].
      intros [|t' L1] L2 extra HL Hp; [simpl; lia|]. injection HL as <- HL. exfalso.
      change (log_of (t :: L1)) with (array t +:+ log_of L1) in Hp.
      apply (f_equal String.length) in Hcut, Hp. rewrite slen_app in Hcut. rewrite sapp_assoc, slen_app in Hp. cbn [String.length] in Hcut. lia.
Qed.
End cut.

Section crash.
Context {CK : Clock} {HO : HashOrder} {OF : OrderedFloat} {MP : Mpsc} {FS : FileSystem}
  {SD : Serde} {TP : Process}.

(** The server after the first requests. *)
Definition after (n : nat) (commands : list (list string)) (w : World) : World :=
  (run (dispatch_all (take n commands)) w).2.

Lemma replayable_nonempty t : replayable t → t ≠ [].
Proof. intros (c & Hp & _) ->. discriminate Hp. Qed.

(** The beginning of the log, at least up to what it was after the first [j] requests,
    tells the keyspace after the first [k] for some [k] from [j] on. *)
Lemma cut_is_prefix {AR : AsyncBufRead} {SR : SliceReader AR} a commands w j synced unsynced lost :
  healthy a → logs_to a (persistence w) → world_wf w → recorded a w →
  Forall request_untimed commands → Forall request_ok (logged_all commands w) →
  (j ≤ length commands)%nat →
  content (log_path a) (fs (after j commands w)) = Some synced →
  content (log_path a) (fs (after (length commands) commands w)) =
    Some (synced +:+ unsynced +:+ lost) →
  ∃ L tail k, synced +:+ unsynced = log_of L +:+ tail ∧ stops tail ∧
    Forall replayable L ∧ Forall request_ok L ∧ (j ≤ k ≤ length commands)%nat ∧
    store (db (after k commands w)) = apply_log L ∅.
Proof.
  intros Hh Ha Hwf (L0 & Hc & HL & HLok & Hst) Ht Hok Hj Hsynced Hall. unfold after in *.
  rewrite take_ge in Hall by lia.
  rewrite (run_appends a (log_of L0) commands w Hh Ha Hc), <- log_of_app in Hall.
  rewrite (run_appends a (log_of L0) (take j commands) w Hh Ha Hc), <- log_of_app in Hsynced.
  injection Hall as Hall. injection Hsynced as <-. rewrite <- sapp_assoc in Hall.
  set (Lj := L0 ++ logged_all (take j commands) w) in *.
  set (rest := logged_all (drop j commands) (run (dispatch_all (take j commands)) w).2).
  assert (HL' : L0 ++ logged_all commands w = Lj ++ rest).
  { unfold Lj, rest. by rewrite <- app_assoc, <- logged_all_app, take_drop. }
  rewrite HL' in Hall.
  assert (Hrep : Forall replayable (Lj ++ rest)).
  { rewrite <- HL'. apply Forall_app. split; [done|]. by apply logged_all_replayable. }
  assert (Hreq : Forall request_ok (Lj ++ rest)) by (rewrite <- HL'; by apply Forall_app).
  destruct (cut_log (Lj ++ rest) (log_of Lj +:+ unsynced) lost Hreq) as (m & tail & Hm & Hp & Hstop & Hmax);
    [eapply Forall_impl; [exact Hrep|apply replayable_nonempty]|done|].
  specialize (Hmax Lj rest unsynced eq_refl eq_refl). rewrite length_app in Hm.
  destruct (logged_all_take (drop j commands) (run (dispatch_all (take j commands)) w).2
    (m - length Lj)) as (k & Hk & Hlog); [fold rest; lia|].
  fold rest in Hlog. rewrite length_drop in Hk.
  exists (take m (Lj ++ rest)), tail, (j + k)%nat. split; [done|]. split; [done|].
  split; [by apply Forall_take|]. split; [by apply Forall_take|]. split; [lia|].
  assert (Htake : L0 ++ logged_all (take (j + k) commands) w = take m (Lj ++ rest)).
  { rewrite <- take_take_drop, logged_all_app, Hlog, app_assoc. fold Lj.
    rewrite take_app. by rewrite (take_ge Lj) by lia. }
  rewrite <- Htake. unfold apply_log. rewrite foldl_app. fold (apply_log L0 ∅). rewrite <- Hst.
  apply run_is_log; [done| |].
  - rewrite Hst. by apply apply_log_no_deadlines.
  - by apply Forall_take.
Qed.
End crash.
