(* ===== verification/Restore.v ===== *)
(** Saving to disk and loading back ([save_to] and [load_from] of [db.rs]). *)

From S2P Require Import Prelude Task RustInt RustStr RustPath RustF64 HashOrder Clock Store PubSub.
From S2P Require Import FileSystem Aof Snapshot World Dispatch Durability.
From S2P Require Database Keyspace KeyOps Invariant.
Local Open Scope Z_scope.

Section saving.
Context {CK : Clock} {HO : HashOrder} {OF : OrderedFloat} {MP : Mpsc} {FS : FileSystem}
  {SD : Serde} {TP : Process}.

(** Whether it succeeds or not, saving replaces the file as a whole: what is
    there afterwards is the new snapshot or what was there before. *)
Lemma save_to_atomic path w :
  has_file_name path →
  let '(r, w') := run (save_to path) w in
  (∀ q, q ≠ path → (∀ n, q ≠ temp_path path n) → content q (fs w') = content q (fs w)) ∧
  match r with
  | Ok _ => ∃ json, to_vec_pretty (snapshot (db w)).1 = Ok json ∧ content path (fs w') = Some json
  | Err _ => content path (fs w') = content path (fs w)
  end.
Proof.
  intros Hname. unfold save_to. rewrite run_bind, run_on_db, run_atomically.
  destruct (snapshot (db w)) as [snap d] eqn:Hsnap. cbn [fst].
  destruct (to_vec_pretty snap) as [json|e] eqn:Hjson; [|done].
  rewrite run_bind, run_atomically. unfold next_temp. cbn [temp_counter set_db].
  rewrite run_bind, run_on_fs. cbn [fs set_temp_counter set_db].
  set (n := temp_counter w). assert (Hne : temp_path path n ≠ path) by by apply temp_path_ne.
  destruct (write_file (temp_path path n) json (fs w)) as [[[]|e] f] eqn:Hwrite.
  - apply write_file_ok in Hwrite as [Hnew Hother]. rewrite run_on_fs. cbn [fs set_fs].
    destruct (rename_file (temp_path path n) path f) as [[[]|e] f'] eqn:Hren; cbn.
    + apply rename_file_ok in Hren as (Hpath & _ & Hrest); [|done]. split.
      * intros q Hq Ht. by rewrite Hrest, Hother.
      * exists json. by rewrite Hpath.
    + pose proof (rename_file_err _ _ _ _ _ Hren) as Hsame. split.
      * intros q Hq Ht. by rewrite Hsame, Hother.
      * by rewrite Hsame, Hother.
  - cbn. pose proof (write_file_err _ _ _ _ _ Hwrite) as Hsame. split.
    + intros q Hq Ht. by rewrite Hsame.
    + by rewrite Hsame.
Qed.

Lemma save_to_db path w : db (run (save_to path) w).2 = (snapshot (db w)).2.
Proof.
  unfold save_to. rewrite run_bind, run_on_db, run_atomically.
  destruct (snapshot (db w)) as [snap d]. destruct (to_vec_pretty snap) as [json|e]; [|done].
  rewrite run_bind, run_atomically. unfold next_temp. rewrite run_bind, run_on_fs.
  destruct (write_file _ _ _) as [[[]|e] f]; [|done]. rewrite run_on_fs.
  by destruct (rename_file _ _ _) as [[[]|e] f'].
Qed.

Lemma load_from_ok path json snap w :
  read_file path (fs w) = Ok json → from_slice json = Ok snap →
  run (load_from path) w = (Ok true, set_db (load_snapshot snap (db w)).2 w).
Proof.
  intros Hread Hsnap. unfold load_from. rewrite run_bind, run_on_fs. cbn [gets].
  rewrite Hread, Hsnap, run_bind, run_on_db, run_atomically. cbn [db set_fs].
  destruct (load_snapshot snap (db w)) as [[] d]. by destruct w.
Qed.

(** A file that is missing or cannot be read leaves the keyspace alone. *)
Lemma load_from_failed path w :
  (run (load_from path) w).1 ≠ Ok true → db (run (load_from path) w).2 = db w.
Proof.
  unfold load_from. rewrite run_bind, run_on_fs. cbn [gets].
  destruct (read_file path (fs w)) as [b|e].
  - destruct (from_slice b) as [snap|e]; [|done]. rewrite run_bind, run_on_db, run_atomically.
    by destruct (load_snapshot snap _) as [[] d].
  - by destruct (io_not_found e).
Qed.
End saving.

Section restarting.
Context {OF : OrderedFloat} {FS : FileSystem} {SD : Serde} {CK1 CK2 : Clock}
  {HO1 HO2 : HashOrder} {MP1 MP2 : Mpsc} {TP1 TP2 : Process}.

(** A snapshot written by one server and loaded by another. *)
Lemma save_then_load path (w1 : @World MP1 FS) (w2 : @World MP2 FS) :
  let '(saved, w1') := run (save_to (CK := CK1) (HO := HO1) (TP := TP1) path) w1 in
  let '(loaded, w2') := run (load_from (CK := CK2) path) w2 in
  has_file_name path → Invariant.db_wf (db w1) → map_Forall (λ _ e, representable (value e)) (store (db w1)) →
  saved = Ok tt → readable path → content path (fs w2) = content path (fs w1') →
  loaded = Ok true ∧
  (∀ k e', store (db w2') !! k = Some e' → ∃ e n,
     Keyspace.seen (CK := CK1) (db w1) !! k = Some e ∧ (tick (db w2) ≤ n)%nat ∧
     restored (CK2 := CK2) (Keyspace.instant (CK := CK1) (db w1)) (instant_at (Clock := CK2) n) e e') ∧
  (∀ k e, store (db w1) !! k = Some e → live_at (Keyspace.instant (CK := CK1) (db w1')) e →
     is_Some (store (db w2') !! k)).
Proof.
  pose proof (save_to_atomic (CK := CK1) (HO := HO1) (TP := TP1) path w1) as Hsave.
  pose proof (save_to_db (CK := CK1) (HO := HO1) (TP := TP1) path w1) as Hdb.
  destruct (run (save_to path) w1) as [saved w1']. cbn [snd] in Hdb.
  destruct (run (load_from path) w2) as [loaded w2'] eqn:Hrun.
  intros Hname Hwf Hser -> Hread Hcontent. destruct (Hsave Hname) as (_ & json & Hjson & Hdisk).
  rewrite Hdisk in Hcontent. apply Hread in Hcontent.
  rewrite (load_from_ok (CK := CK2) path json _ w2 Hcontent (from_to _ _ Hjson)) in Hrun.
  injection Hrun as <- <-. split; [done|].
  pose proof (snapshot_load (CK1 := CK1) (CK2 := CK2) (HO1 := HO1) (db w1) (db w2) Hwf Hser) as H.
  destruct (snapshot (db w1)) as [snap d]. cbn [fst snd] in *. subst d. destruct H as [Hfrom Hto]. split.
  - intros k e' Hk. destruct (Hfrom k e' Hk) as (e & n & He & Hlive & Hn & Hres).
    exists e, n. split; [|split; [lia|done]]. unfold Keyspace.seen. by apply lookup_view_some.
  - exact Hto.
Qed.
End restarting.
