(* ===== verification/Connection.v ===== *)
(** What a connection does to the shared state: invariants that every task of a server
    keeps under any interleaving, among them the store's, and transactions. *)

From S2P Require Import Prelude Task RustInt RustStr RustF64 HashOrder Resp Clock Store PubSub.
From S2P Require Import FileSystem Aof Snapshot World Command Execute Dispatch Session Server Wire.
From S2P Require Import Recovery.
From S2P Require Database Invariant.
Local Open Scope Z_scope.

Section connection.
Context {CK : Clock} {HO : HashOrder} {OF : OrderedFloat} {MP : Mpsc} {FS : FileSystem}
  {SD : Serde} {TP : Process} {AR : AsyncBufRead} {SR : SliceReader AR}.

(** ** Invariants of the shared state *)

(** What the tasks of a server are made of keeps the invariant. *)
Record stable (I : World → Prop) : Prop := {
  stable_dispatch tokens : keeps I (dispatch tokens);
  stable_pubsub p w : I w → I (set_pubsub p w);
  stable_mail m w : I w → I (set_mail m w);
  stable_stats st w : I w → I (set_stats st w);
  stable_sweep : keeps I (on_db Database.sweep_expired);
  stable_save : keeps I save;
  stable_sync : keeps I sync_aof
}.

Section stable.
Context {I : World → Prop} (HI : stable I).

Lemma keeps_on_pubsub {A} (m : State PubSub A) : keeps I (on_pubsub m).
Proof.
  apply keeps_atomically. intros w Hw. unfold part_state.
  destruct (m (pubsub w)). by apply HI.
Qed.

Lemma keeps_on_mail {A} (m : State Mail A) : keeps I (on_mail m).
Proof.
  apply keeps_atomically. intros w Hw. unfold part_state.
  destruct (m (mail w)). by apply HI.
Qed.

Lemma keeps_run_queue queue reply : keeps I (run_queue queue reply).
Proof.
  revert reply. induction queue as [|c queue IH]; intros reply; [constructor|].
  apply keeps_bind; [apply HI|]. intros r. apply IH.
Qed.

Lemma keeps_subscribe_each chs reply s : keeps I (subscribe_each chs reply s).
Proof.
  revert reply s. induction chs as [|ch chs IH]; intros reply s; [constructor|].
  apply keeps_bind; [case_decide; [constructor|apply keeps_on_pubsub]|]. intros _. apply IH.
Qed.

Lemma keeps_unsubscribe_each chs reply s : keeps I (unsubscribe_each chs reply s).
Proof.
  revert reply s. induction chs as [|ch chs IH]; intros reply s; [constructor|].
  apply keeps_bind; [case_decide; [apply keeps_on_pubsub|constructor]|]. intros _. apply IH.
Qed.

Lemma keeps_handle tokens s : keeps I (handle tokens s).
Proof.
  unfold handle. destruct tokens as [|name args]; [constructor|].
  repeat (case_match; try (by constructor)).
  - unfold exec. destruct (transaction s) as [t|]; [|constructor].
    destruct (dirty t); [constructor|].
    apply keeps_bind; [apply keeps_run_queue|constructor].
  - unfold subscribe_command. destruct args; [constructor|apply keeps_subscribe_each].
  - unfold unsubscribe_command. case_match; [constructor|apply keeps_unsubscribe_each].
  - apply keeps_bind; [apply HI|constructor].
Qed.

Lemma keeps_serve events s : keeps I (serve events s).
Proof.
  revert s. induction events as [|[tokens written|written|] events IH]; intros s;
    cbn [serve]; try (by constructor).
  - apply keeps_bind; [apply keeps_handle|]. intros [reply s'].
    case_decide; [apply IH|]. destruct written; [|constructor].
    apply keeps_bind; [apply IH|constructor].
  - apply keeps_bind; [apply keeps_on_mail|]. intros [m|]; [|apply IH].
    destruct written; [|constructor]. apply keeps_bind; [apply IH|constructor].
Qed.

Lemma keeps_cleanup chs n : keeps I (cleanup_each chs n).
Proof.
  induction chs as [|ch chs IH]; [constructor|].
  apply keeps_bind; [apply keeps_on_pubsub|]. intros _. exact IH.
Qed.

Lemma keeps_connection events : keeps I (connection_task events).
Proof.
  apply keeps_bind; [by apply keeps_atomically; intros w Hw; apply HI|]. intros n.
  apply keeps_bind.
  - apply keeps_bind; [|intros s; apply keeps_bind; [apply keeps_serve|]; intros r;
      apply keeps_bind; [apply keeps_cleanup|]; intros _; apply keeps_bind; [apply keeps_on_mail|constructor]].
    apply keeps_bind; [apply keeps_on_mail|]. intros sender.
    apply keeps_bind; [apply keeps_on_pubsub|constructor].
  - intros out. apply keeps_bind; [by apply keeps_atomically; intros w Hw; apply HI|constructor].
Qed.
End stable.

(** ** Transactions *)

(** Subscriptions and an open transaction exclude each other. *)
Definition session_ok (s : Session) : Prop := subscriptions s = ∅ ∨ transaction s = None.

Lemma ensures_subscribe_each chs reply s :
  transaction s = None → ensures (λ r, transaction r.2 = None) (subscribe_each chs reply s).
Proof.
  revert reply s. induction chs as [|ch chs IH]; intros reply s Hs; [by constructor|].
  cbn [subscribe_each]. eapply ensures_bind; [apply ensures_true|]. intros _ _. by apply IH.
Qed.

Lemma ensures_unsubscribe_each chs reply s :
  transaction s = None → ensures (λ r, transaction r.2 = None) (unsubscribe_each chs reply s).
Proof.
  revert reply s. induction chs as [|ch chs IH]; intros reply s Hs; [by constructor|].
  cbn [unsubscribe_each]. eapply ensures_bind; [apply ensures_true|]. intros _ _. by apply IH.
Qed.

Lemma is_subscribed_false s : is_subscribed s = false ↔ subscriptions s = ∅.
Proof. unfold is_subscribed. by rewrite negb_false_iff, bool_decide_eq_true. Qed.

Lemma handle_session_ok tokens s :
  session_ok s → ensures (λ r, session_ok r.2) (handle tokens s).
Proof.
  intros Hs. unfold handle. destruct tokens as [|name args]; [by constructor|].
  set (upper := to_ascii_uppercase name).
  destruct (is_subscribed s && _) eqn:Hsub; [by constructor|].
  assert (Hcmd : ∀ n, n = upper → n ≠ "SUBSCRIBE" → n ≠ "UNSUBSCRIBE" →
    n ≠ "PING" → subscriptions s = ∅).
  { intros n -> H1 H2 H3. apply is_subscribed_false. apply andb_false_iff in Hsub as [H|H]; [done|].
    apply negb_false_iff, bool_decide_eq_true in H. naive_solver. }
  destruct (decide (upper = "MULTI")) as [Hmulti|_].
  { constructor. unfold begin_multi. destruct (transaction s); [done|]. left. simpl.
    by apply (Hcmd "MULTI"). }
  destruct (decide (upper = "EXEC")) as [_|_].
  { unfold exec. destruct (transaction s) as [t|] eqn:Ht; [|by constructor].
    destruct (dirty t); [constructor; by right|].
    eapply ensures_bind; [apply ensures_true|]. intros reply _. constructor. by right. }
  destruct (decide (upper = "DISCARD")) as [_|_].
  { constructor. unfold discard. destruct (transaction s); [by right|done]. }
  destruct (transaction s) as [t|] eqn:Ht.
  { constructor. destruct Hs as [Hs|Hs]; [|congruence]. left. unfold queue_command.
    destruct (decide (upper = "SUBSCRIBE" ∨ upper = "UNSUBSCRIBE")); [exact Hs|].
    destruct (parse (name :: args)); exact Hs. }
  destruct (decide (upper = "SUBSCRIBE")) as [_|_].
  { unfold subscribe_command. destruct args; [by constructor; right|].
    eapply ensures_weaken; [by apply ensures_subscribe_each|]. intros r Hr. by right. }
  destruct (decide (upper = "UNSUBSCRIBE")) as [_|_].
  { unfold unsubscribe_command. case_match; [by constructor; right|].
    eapply ensures_weaken; [by apply ensures_unsubscribe_each|]. intros r Hr. by right. }
  eapply ensures_bind; [apply ensures_true|]. intros reply _. constructor. by right.
Qed.

(** The queued commands run one after the other. *)
Fixpoint dispatch_each (queue : list (list string)) : Task World (list string) :=
  match queue with
  | [] => mret []
  | tokens :: queue => r ← dispatch tokens; rs ← dispatch_each queue; mret (r :: rs)
  end.

Lemma run_run_queue queue reply w :
  run (run_queue queue reply) w =
    let '(rs, w') := run (dispatch_each queue) w in (reply +:+ concat_all rs, w').
Proof.
  revert reply w. induction queue as [|c queue IH]; intros reply w; cbn [run_queue dispatch_each].
  { simpl. by rewrite sapp_nil_r. }
  rewrite !run_bind. destruct (run (dispatch c) w) as [r w1]. rewrite IH, run_bind.
  destruct (run (dispatch_each queue) w1) as [rs w2]. simpl. by rewrite sapp_assoc.
Qed.

Lemma ensures_dispatch_each queue :
  Forall (λ tokens, tokens ≠ []) queue →
  ensures (λ rs, length rs = length queue ∧ Forall reply_ok rs) (dispatch_each queue).
Proof.
  induction 1 as [|tokens queue Hne _ IH]; [by repeat constructor|]. cbn [dispatch_each].
  eapply ensures_bind; [by apply ensures_dispatch|]. intros r Hr.
  eapply ensures_bind; [exact IH|]. intros rs [Hlen Hrs]. constructor. simpl.
  split; [by rewrite Hlen|by constructor].
Qed.

Lemma exec_frame rs :
  Forall reply_ok rs →
  reply_ok ("*" +:+ int_to_string (Z.of_nat (length rs)) +:+ CRLF +:+ concat_all rs).
Proof.
  intros H. assert (∃ fs, Forall frame_ok fs ∧ rs = encode <$> fs) as (fs & Hfs & ->).
  { induction H as [|r rs (f & Hf & ->) _ (fs & Hfs & ->)]; [by exists []|].
    exists (f :: fs). split; [by constructor|done]. }
  exists (FArray fs). rewrite frame_ok_array, encode_array, length_fmap. done.
Qed.

(** Inside a transaction nothing but [EXEC] reaches the shared state. *)
Lemma handle_in_transaction name args s t :
  transaction s = Some t → to_ascii_uppercase name ≠ "EXEC" →
  ∃ r, handle (name :: args) s = Done r.
Proof.
  intros Ht Hexec. unfold handle. rewrite Ht.
  repeat (case_match; simplify_eq; try (by eexists)).
Qed.

Lemma handle_exec_dirty name args s t :
  transaction s = Some t → to_ascii_uppercase name = "EXEC" → dirty t = true →
  ∃ r, handle (name :: args) s = Done r.
Proof.
  intros Ht He Hd. unfold handle, exec. rewrite He, Ht, Hd. case_match; [by eexists|].
  rewrite decide_False by done. rewrite decide_True by done. by eexists.
Qed.

(** What a request makes of the transaction that is open. *)
Inductive continues (tokens : list string) (name : string) (t : Transaction)
    : option Transaction → Prop :=
| continues_closed :
    name = "EXEC" ∨ name = "DISCARD" → continues tokens name t None
| continues_nested :
    name = "MULTI" → continues tokens name t (Some t)
| continues_queued :
    name ∉ ["EXEC"; "DISCARD"; "MULTI"; "SUBSCRIBE"; "UNSUBSCRIBE"] → is_ok (parse tokens) = true →
    continues tokens name t (Some {| commands := commands t ++ [tokens]; dirty := dirty t |})
| continues_spoiled :
    name ∉ ["EXEC"; "DISCARD"; "MULTI"] → name ∈ ["SUBSCRIBE"; "UNSUBSCRIBE"] ∨ is_ok (parse tokens) = false →
    continues tokens name t (Some {| commands := commands t; dirty := true |}).

Lemma handle_continues name args s t :
  subscriptions s = ∅ → transaction s = Some t →
  ensures (λ r, continues (name :: args) (to_ascii_uppercase name) t (transaction r.2) ∧
                subscriptions r.2 = ∅) (handle (name :: args) s).
Proof.
  intros Hsub Ht. unfold handle. apply is_subscribed_false in Hsub as Hfalse. rewrite Hfalse, Ht.
  simpl andb. cbv iota. set (upper := to_ascii_uppercase name).
  destruct (decide (upper = "MULTI")) as [Hmulti|Hmulti].
  { constructor. unfold begin_multi. rewrite Ht. split; [|done]. simpl. rewrite Ht. by apply continues_nested. }
  destruct (decide (upper = "EXEC")) as [He|He].
  { unfold exec. rewrite Ht. assert (Hclosed : continues (name :: args) upper t None) by (constructor; auto).
    destruct (dirty t); [by constructor|].
    eapply ensures_bind; [apply ensures_true|]. intros reply _. by constructor. }
  destruct (decide (upper = "DISCARD")) as [Hd|Hd].
  { constructor. unfold discard. rewrite Ht. split; [|done]. constructor. auto. }
  constructor. unfold queue_command.
  destruct (decide (upper = "SUBSCRIBE" ∨ upper = "UNSUBSCRIBE")) as [Hpub|Hpub].
  { split; [|done]. apply continues_spoiled; set_solver. }
  destruct (parse (name :: args)) eqn:Hp; (split; [|done]).
  - apply continues_queued; [set_solver|by rewrite Hp].
  - apply continues_spoiled; [set_solver|right; by rewrite Hp].
Qed.

(** ** A whole transaction *)

Definition request (tokens : list string) : Event := Request tokens true.

(** A session with an open transaction that holds [queue]. *)
Definition in_multi (queue : list (list string)) (s : Session) : Session :=
  set_transaction (Some {| commands := queue; dirty := false |}) s.

Lemma parse_ok_arm name args :
  is_ok (parse (name :: args)) = true → is_Some (find_arm (to_ascii_uppercase name) arms).
Proof. unfold parse. destruct (find_arm _ arms); [by eexists|done]. Qed.

Lemma handle_queued queue tokens s :
  subscriptions s = ∅ → is_ok (parse tokens) = true →
  handle tokens (in_multi queue s) = Done (simple_string "QUEUED", in_multi (queue ++ [tokens]) s).
Proof.
  intros Hsub Hok. destruct tokens as [|name args]; [done|].
  pose proof (parse_ok_arm name args Hok) as Harm. unfold handle. cbn [transaction in_multi set_transaction].
  set (upper := to_ascii_uppercase name) in *.
  assert (Hfalse : is_subscribed (in_multi queue s) = false) by (by apply is_subscribed_false).
  unfold in_multi, set_transaction in Hfalse |- *. rewrite Hfalse. simpl andb. cbv iota.
  rewrite (decide_False (P := upper = "MULTI")) by (intros ->; by destruct Harm).
  rewrite (decide_False (P := upper = "EXEC")) by (intros ->; by destruct Harm).
  rewrite (decide_False (P := upper = "DISCARD")) by (intros ->; by destruct Harm).
  unfold queue_command.
  rewrite decide_False by (intros [-> | ->]; by destruct Harm).
  by destruct (parse (name :: args)).
Qed.

Lemma serve_request tokens events s w :
  run (serve (request tokens :: events) s) w =
    let '((reply, s1), w1) := run (handle tokens s) w in
    if decide (reply = "") then run (serve events s1) w1
    else let '((out, s2), w2) := run (serve events s1) w1 in ((reply :: out, s2), w2).
Proof.
  cbn [serve request]. rewrite run_bind. destruct (run (handle tokens s) w) as [[reply s1] w1].
  destruct (decide (reply = "")); [done|]. rewrite run_bind.
  by destruct (run (serve events s1) w1) as [[out s2] w2].
Qed.

Lemma serve_queued cmds rest queue s w :
  subscriptions s = ∅ → Forall (λ c, is_ok (parse c) = true) cmds →
  run (serve ((request <$> cmds) ++ rest) (in_multi queue s)) w =
    let '((out, s'), w') := run (serve rest (in_multi (queue ++ cmds) s)) w in
    ((replicate (length cmds) (simple_string "QUEUED") ++ out, s'), w').
Proof.
  intros Hsub Hcmds. revert queue w. induction Hcmds as [|c cmds Hc _ IH]; intros queue w.
  { rewrite app_nil_r. simpl. by destruct (run (serve rest _) w) as [[out s'] w']. }
  rewrite fmap_cons, <- app_comm_cons, serve_request, handle_queued by done.
  cbn [run]. rewrite decide_False by done. rewrite IH, <- (app_assoc queue).
  change ([c] ++ cmds) with (c :: cmds).
  by destruct (run (serve rest (in_multi (queue ++ c :: cmds) s)) w) as [[out s'] w'].
Qed.

Definition transaction_events (cmds : list (list string)) : list Event :=
  [request ["MULTI"]] ++ (request <$> cmds) ++ [request ["EXEC"]; Disconnected].

Lemma serve_transaction cmds s w :
  subscriptions s = ∅ → transaction s = None → Forall (λ c, is_ok (parse c) = true) cmds →
  let '(rs, w') := run (dispatch_each cmds) w in
  let reply := "*" +:+ int_to_string (Z.of_nat (length cmds)) +:+ CRLF +:+ concat_all rs in
  run (serve (transaction_events cmds) s) w =
    ((simple_string "OK" :: replicate (length cmds) (simple_string "QUEUED") ++ [reply], s), w') ∧
  length rs = length cmds ∧ Forall reply_ok rs ∧ reply_ok reply.
Proof.
  intros Hsub Ht Hcmds. unfold transaction_events.
  assert (Hnot : is_subscribed s = false) by (by apply is_subscribed_false).
  assert (Hmulti : handle ["MULTI"] s = Done (simple_string "OK", in_multi [] s)).
  { unfold handle. rewrite Hnot. cbn [andb]. change (to_ascii_uppercase "MULTI") with "MULTI".
    rewrite decide_True by done. unfold begin_multi. by rewrite Ht. }
  assert (Hexec : handle ["EXEC"] (in_multi cmds s) = exec (in_multi cmds s)).
  { unfold handle. assert (is_subscribed (in_multi cmds s) = false) as ->
      by (by apply is_subscribed_false).
    cbn [andb]. change (to_ascii_uppercase "EXEC") with "EXEC".
    rewrite decide_False by done. by rewrite decide_True. }
  cbn [app]. rewrite serve_request, Hmulti. cbn [run]. rewrite decide_False by done.
  rewrite serve_queued by done. cbn [app]. rewrite serve_request, Hexec.
  unfold exec. cbn [transaction in_multi set_transaction dirty commands].
  assert (Hok : ensures (λ rs, length rs = length cmds ∧ Forall reply_ok rs) (dispatch_each cmds)).
  { apply ensures_dispatch_each. eapply Forall_impl; [exact Hcmds|]. by intros [|? ?]. }
  apply (ensures_run _ _ w) in Hok.
  rewrite run_bind, run_run_queue. destruct (run (dispatch_each cmds) w) as [rs w'].
  destruct Hok as [Hlen Hrs]. split; [|split_and!; [done|done|rewrite <- Hlen; by apply exec_frame]].
  cbn [run mret task_ret]. rewrite decide_False by done.
  assert (set_transaction None (in_multi cmds s) = s) as ->
    by (destruct s; simpl in *; by subst).
  cbn [serve run mret task_ret]. by rewrite !sapp_assoc.
Qed.

(** ** The other tasks of the server *)

(** What the server runs: connections, the sweeper, the flusher of the log,
    saves started by [BGSAVE], the shutdown. *)
Inductive server_task : Task World unit → Prop :=
| task_connection events : server_task (connection_task events ;; mret tt)
| task_sweeper ticks : server_task (rounds ticks sweeper)
| task_flusher ticks : server_task (rounds ticks aof_flusher)
| task_save : server_task (save ;; mret tt)
| task_shutdown : server_task shutdown.

Lemma keeps_rounds I n body : keeps I body → keeps I (rounds n body).
Proof.
  intros Hb. induction n as [|n IH]; [constructor|]. apply keeps_bind; [exact IH|]. by intros _.
Qed.

Lemma respects_rounds R n body : respects R body → respects R (rounds n body).
Proof.
  intros Hb. induction n as [|n IH]; [constructor|]. apply respects_bind; [exact IH|]. by intros _.
Qed.

Lemma keeps_server_task I t : stable I → server_task t → keeps I t.
Proof.
  intros HI. destruct 1 as [events|ticks|ticks| |].
  - apply keeps_bind; [by apply keeps_connection|]. constructor.
  - apply keeps_rounds, keeps_bind; [apply HI|constructor].
  - apply keeps_rounds, keeps_bind; [apply HI|constructor].
  - apply keeps_bind; [apply HI|]. constructor.
  - apply keeps_bind; [apply HI|]. intros _. apply keeps_bind; [apply HI|]. constructor.
Qed.

(** The store's invariant is one. *)
Lemma stable_wf : stable world_wf.
Proof.
  split; try done.
  - apply keeps_dispatch.
  - apply (keeps_on_db Invariant.db_wf), (Invariant.keeps_key_ops "" "" 0 []).
  - apply keeps_save.
  - apply keeps_bind; [by apply keeps_elsewhere|]. intros p.
    destruct (aof p); [apply keeps_on_fs|constructor].
Qed.
End connection.
