(* ===== verification/Registry.v ===== *)
(** Connections and what the server knows of them, under any interleaving: the
    registry of subscriptions, the mailboxes and the counter of clients.

    A connection goes through the phases of its task.  [moves] is what a connection
    may do to the shared state in each phase, [conforms] that a task does nothing
    else, and [consistent] the invariant of the server as a whole: the registry
    holds exactly the subscriptions of the open connections. *)

From stdpp Require Import relations.
From S2P Require Import Prelude Task RustInt RustStr RustF64 HashOrder Resp Clock Store PubSub.
From S2P Require Import FileSystem Aof Snapshot World Command Execute Session Server Recovery.
From S2P Require Import Connection.
Local Open Scope Z_scope.

Section registry.
Context {CK : Clock} {HO : HashOrder} {OF : OrderedFloat} {MP : Mpsc} {FS : FileSystem}
  {SD : Serde} {TP : Process}.

(** The phases of a task: not a connection; a connection that is not counted yet,
    counted, with a mailbox, open with its id, mailbox and channels, with its
    mailbox dropped, and gone. *)
Inductive phase :=
| Background
| Arriving
| Counted
| Mailed (s : Sender)
| Open (n : Z) (s : Sender) (subscribed : gset string)
| Closed
| Gone.

Definition same_channels (w w' : World) : Prop := same_mailboxes (mail w) (mail w').
Definition same_clients (w w' : World) : Prop :=
  connected_clients (stats w') = connected_clients (stats w).

(** Nothing changed for the other connections. *)
Definition same_others (n : Z) (p p' : PubSub) : Prop :=
  ∀ ch n', n' ≠ n → sender_of p' ch n' = sender_of p ch n'.

(** What a connection does not own stays as it is. *)
Definition quiet (w w' : World) : Prop :=
  pubsub w' = pubsub w ∧ same_clients w w' ∧ same_channels w w'.

(** The registry knows the connection's subscriptions, with its mailbox. *)
Definition tracks (n : Z) (s : Sender) (subscribed : gset string) (p : PubSub) : Prop :=
  ∀ ch, sender_of p ch n = if decide (ch ∈ subscribed) then Some s else None.

(** What a phase knows of the shared state. *)
Definition here (ph : phase) (w : World) : Prop :=
  match ph with
  | Open n s subscribed => tracks n s subscribed (pubsub w)
  | _ => True
  end.

(** What a critical section of a connection does to the shared state. *)
Inductive moves (w w' : World) : phase → phase → Prop :=
| moves_quiet ph : quiet w w' → moves w w' ph ph
| moves_arrive :
    pubsub w' = pubsub w → same_channels w w' →
    connected_clients (stats w') = wrap_u64 (connected_clients (stats w) + 1) →
    moves w w' Arriving Counted
| moves_mailbox s :
    pubsub w' = pubsub w → same_clients w w' → ¬ known s (mail w) → is_open (mail w') s →
    (∀ s', known s' (mail w') ↔ s' = s ∨ known s' (mail w)) →
    (∀ s', s' ≠ s → is_open (mail w') s' ↔ is_open (mail w) s') →
    moves w w' Counted (Mailed s)
| moves_id s :
    channels (pubsub w') = channels (pubsub w) → same_clients w w' → same_channels w w' →
    next_subscriber (pubsub w') = wrap_u64 (next_subscriber (pubsub w) + 1) →
    moves w w' (Mailed s) (Open (next_subscriber (pubsub w)) s ∅)
| moves_registry n s subscribed subscribed' :
    next_subscriber (pubsub w') = next_subscriber (pubsub w) →
    same_clients w w' → same_channels w w' → same_others n (pubsub w) (pubsub w') →
    tracks n s subscribed' (pubsub w') →
    (no_empty_channel (pubsub w) → no_empty_channel (pubsub w')) →
    moves w w' (Open n s subscribed) (Open n s subscribed')
| moves_close n s :
    pubsub w' = pubsub w → same_clients w w' →
    (∀ s', known s' (mail w') ↔ known s' (mail w)) →
    (∀ s', s' ≠ s → is_open (mail w') s' ↔ is_open (mail w) s') →
    moves w w' (Open n s ∅) Closed
| moves_leave :
    pubsub w' = pubsub w → same_channels w w' →
    connected_clients (stats w') = wrap_u64 (connected_clients (stats w) - 1) →
    moves w w' Closed Gone.

(** A task that moves through the phases and ends as [Q] says. *)
Inductive conforms {A} (Q : phase → A → Prop) : phase → Task World A → Prop :=
| conforms_done ph a : Q ph a → conforms Q ph (Done a)
| conforms_section ph f :
    (∀ w, here ph w → ∃ ph', moves w (f w).2 ph ph' ∧ conforms Q ph' (f w).1) →
    conforms Q ph (Critical f).

(** A task that has ended is no client. *)
Definition ended (ph : phase) (a : unit) : Prop := ph = Gone ∨ ph = Background.

(** ** The invariant of the server *)

Definition phase_id (ph : phase) : option Z := match ph with Open n _ _ => Some n | _ => None end.
Definition phase_sender (ph : phase) : option Sender :=
  match ph with Mailed s | Open _ s _ => Some s | _ => None end.
Definition is_client (ph : phase) : bool :=
  match ph with Counted | Mailed _ | Open _ _ _ | Closed => true | _ => false end.
Definition had_id (ph : phase) : bool :=
  match ph with Open _ _ _ | Closed | Gone => true | _ => false end.
Definition count (p : phase → bool) (phs : list phase) : Z :=
  Z.of_nat (length (filter (λ ph, p ph = true) phs)).

(** The phases of the tasks against the shared state: the registry holds the
    subscriptions of the open connections and nothing else, each under an id and
    with a mailbox that no other connection has; the counters count. *)
Record consistent (phs : list phase) (w : World) : Prop := {
  registry_exact ch n s :
    sender_of (pubsub w) ch n = Some s ↔ ∃ subscribed, Open n s subscribed ∈ phs ∧ ch ∈ subscribed;
  no_channel_empty : no_empty_channel (pubsub w);
  ids_unique : NoDup (omap phase_id phs);
  ids_below n : n ∈ omap phase_id phs → n < next_subscriber (pubsub w);
  senders_unique : NoDup (omap phase_sender phs);
  senders_open s : s ∈ omap phase_sender phs → is_open (mail w) s;
  next_counts : next_subscriber (pubsub w) = count had_id phs;
  clients_counted : connected_clients (stats w) = count is_client phs
}.

Lemma count_middle p l1 ph l2 :
  count p (l1 ++ ph :: l2) = count p l1 + (if p ph then 1 else 0) + count p l2.
Proof.
  unfold count. rewrite filter_app, filter_cons, length_app.
  destruct (p ph); [rewrite decide_True by done|rewrite decide_False by done]; cbn [length]; lia.
Qed.

Lemma count_bounds p phs : 0 ≤ count p phs ≤ Z.of_nat (length phs).
Proof. unfold count. pose proof (length_filter (λ ph, p ph = true) phs). lia. Qed.

(** Ids and mailboxes are those of the other tasks and of this one. *)
Lemma omap_middle {B} (f : phase → option B) l1 ph l2 :
  omap f (l1 ++ ph :: l2) ≡ₚ option_list (f ph) ++ omap f (l1 ++ l2).
Proof.
  rewrite !omap_app. simpl. destruct (f ph); simpl; [|done]. symmetry. apply Permutation_middle.
Qed.

Lemma elem_of_option_list {B} (x : B) (o : option B) : x ∈ option_list o ↔ o = Some x.
Proof. destruct o; simpl; set_solver. Qed.

(** What the tasks have that is theirs alone, and taken, when one task goes to
    another phase with what it had or with something free. *)
Lemma taken_middle {B} (f : phase → option B) (taken taken' : B → Prop) l1 ph l2 ph' :
  NoDup (omap f (l1 ++ ph :: l2)) → (∀ x, x ∈ omap f (l1 ++ ph :: l2) → taken x) →
  (∀ x, f ph ≠ Some x → taken x → taken' x) →
  (∀ x, f ph' = Some x → taken' x ∧ (f ph = Some x ∨ ¬ taken x)) →
  NoDup (omap f (l1 ++ ph' :: l2)) ∧ (∀ x, x ∈ omap f (l1 ++ ph' :: l2) → taken' x).
Proof.
  intros Hnd Htaken Hmono Hph. rewrite omap_middle in Hnd |- *.
  assert (Hin : ∀ x, f ph = Some x ∨ x ∈ omap f (l1 ++ l2) → taken x).
  { intros x Hx. apply Htaken. by rewrite omap_middle, elem_of_app, elem_of_option_list. }
  apply NoDup_app in Hnd as (_ & Hdisj & Hnd). setoid_rewrite elem_of_option_list in Hdisj. split.
  - apply NoDup_app. split_and!; [|intros x|done].
    + destruct (f ph'); simpl; [apply NoDup_singleton|constructor].
    + rewrite elem_of_option_list. intros Hx. destruct (Hph x Hx) as [_ [Hx'|Hfree]]; naive_solver.
  - intros x. rewrite omap_middle, elem_of_app, elem_of_option_list. intros [Hx|Hx]; [naive_solver|].
    apply Hmono; [|by auto]. intros Hx'. by destruct (Hdisj x Hx').
Qed.

(** An open connection is the only one with its id. *)
Lemma open_unique l1 n s subscribed l2 s' subscribed' :
  NoDup (omap phase_id (l1 ++ Open n s subscribed :: l2)) →
  Open n s' subscribed' ∈ l1 ++ Open n s subscribed :: l2 →
  s' = s ∧ subscribed' = subscribed.
Proof.
  rewrite omap_middle. cbn [phase_id option_list app]. intros [Hn _]%NoDup_cons.
  intros H. apply elem_of_app in H as [H|[H|H]%elem_of_cons]; [|by injection H as -> ->|];
    exfalso; apply Hn, list_elem_of_omap; exists (Open n s' subscribed'); (split; [|done]);
    apply elem_of_app; auto.
Qed.

Lemma consistent_here l1 ph l2 w : consistent (l1 ++ ph :: l2) w → here ph w.
Proof.
  intros H. destruct ph as [| | | |n s subscribed| |]; try exact I. intros ch.
  destruct (sender_of (pubsub w) ch n) as [s'|] eqn:E.
  - apply (registry_exact _ _ H) in E as (subscribed' & Hin & Hch).
    apply open_unique in Hin as [-> ->]; [|apply H]. by rewrite decide_True.
  - case_decide as Hch; [|done]. exfalso.
    assert (Hin : sender_of (pubsub w) ch n = Some s); [|by rewrite E in Hin].
    apply (registry_exact _ _ H). exists subscribed. split; [|done].
    apply elem_of_app. right. by left.
Qed.

(** What one phase contributes to the registry, and what the others do. *)
Definition contributes (ph : phase) (ch : string) (n : Z) (s : Sender) : Prop :=
  match ph with
  | Open n' s' subscribed => n' = n ∧ s' = s ∧ ch ∈ subscribed
  | _ => False
  end.
Definition subscription (phs : list phase) (ch : string) (n : Z) (s : Sender) : Prop :=
  ∃ subscribed, Open n s subscribed ∈ phs ∧ ch ∈ subscribed.

Lemma subscription_middle l1 ph l2 ch n s :
  subscription (l1 ++ ph :: l2) ch n s ↔ contributes ph ch n s ∨ subscription (l1 ++ l2) ch n s.
Proof.
  unfold subscription. split.
  - intros (subscribed & Hin & Hch). rewrite elem_of_app, elem_of_cons in Hin.
    destruct Hin as [Hin|[<-|Hin]]; [|by left|]; right; exists subscribed;
      (split; [|done]); apply elem_of_app; auto.
  - intros [Hph|(subscribed & Hin & Hch)].
    + destruct ph as [| | | |n' s' subscribed| |]; try done. destruct Hph as (-> & -> & Hch).
      exists subscribed. split; [|done]. apply elem_of_app. right. by left.
    + exists subscribed. split; [|done]. rewrite elem_of_app, elem_of_cons.
      apply elem_of_app in Hin. tauto.
Qed.

Lemma exact_middle l1 ph l2 w :
  consistent (l1 ++ ph :: l2) w → ∀ ch n s,
  sender_of (pubsub w) ch n = Some s ↔ contributes ph ch n s ∨ subscription (l1 ++ l2) ch n s.
Proof.
  intros H ch n s. rewrite <- subscription_middle. apply (registry_exact _ _ H).
Qed.

(** A phase that follows another keeps the invariant under these conditions. *)
Lemma consistent_middle l1 ph l2 w ph' w' :
  consistent (l1 ++ ph :: l2) w →
  (∀ ch n s, sender_of (pubsub w') ch n = Some s ↔
     contributes ph' ch n s ∨ subscription (l1 ++ l2) ch n s) →
  (no_empty_channel (pubsub w) → no_empty_channel (pubsub w')) →
  next_subscriber (pubsub w') =
    next_subscriber (pubsub w) - (if had_id ph then 1 else 0) + (if had_id ph' then 1 else 0) →
  next_subscriber (pubsub w) ≤ next_subscriber (pubsub w') →
  (∀ n, phase_id ph' = Some n → phase_id ph = Some n ∨
     n = next_subscriber (pubsub w) ∧ n < next_subscriber (pubsub w')) →
  (∀ s, phase_sender ph ≠ Some s → is_open (mail w) s → is_open (mail w') s) →
  (∀ s, phase_sender ph' = Some s →
     is_open (mail w') s ∧ (phase_sender ph = Some s ∨ ¬ is_open (mail w) s)) →
  connected_clients (stats w') =
    connected_clients (stats w) - (if is_client ph then 1 else 0) + (if is_client ph' then 1 else 0) →
  consistent (l1 ++ ph' :: l2) w'.
Proof.
  intros [_ Hempty Hids Hbelow Hsenders Hopen Hnext Hclients] Hexact Hempty' Hnext' Hmono Hid
    Hopen' Hsender Hclients'.
  rewrite count_middle in Hnext, Hclients.
  destruct (taken_middle phase_id (λ n, n < next_subscriber (pubsub w))
    (λ n, n < next_subscriber (pubsub w')) l1 ph l2 ph') as [? ?]; [done|done|cbv beta; lia|cbv beta|].
  { intros n Hn. destruct (Hid n Hn) as [Hn'|[-> ?]]; [|split; [done|right; lia]].
    split; [|by left]. assert (n < next_subscriber (pubsub w)); [|lia]. apply Hbelow.
    rewrite omap_middle, Hn'. by left. }
  destruct (taken_middle phase_sender (is_open (mail w)) (is_open (mail w')) l1 ph l2 ph')
    as [? ?]; try done.
  split; try done; [|auto|rewrite count_middle; lia..].
  intros ch n s. rewrite Hexact. symmetry. apply subscription_middle.
Qed.

Lemma sender_of_channels p p' ch n :
  channels p' = channels p → sender_of p' ch n = sender_of p ch n.
Proof. unfold sender_of. by intros ->. Qed.

(** The ids of the other connections are not this one's. *)
Lemma others_differ l1 n s subscribed l2 w ch n' s' :
  consistent (l1 ++ Open n s subscribed :: l2) w → subscription (l1 ++ l2) ch n' s' → n' ≠ n.
Proof.
  intros H (subscribed' & Hin & _) ->. pose proof (ids_unique _ _ H) as Hids.
  rewrite omap_middle in Hids. apply NoDup_cons in Hids as [Hn _]. apply Hn.
  apply list_elem_of_omap. by exists (Open n s' subscribed').
Qed.

(** Every move keeps the invariant, as long as there are fewer than [2 ^ 64]
    connections. *)
Lemma moves_consistent l1 ph l2 w w' ph' :
  Z.of_nat (length (l1 ++ ph :: l2)) ≤ u64_max →
  moves w w' ph ph' → consistent (l1 ++ ph :: l2) w → consistent (l1 ++ ph' :: l2) w'.
Proof.
  intros Hlen Hmove H. pose proof (exact_middle _ _ _ _ H) as Hexact.
  pose proof (next_counts _ _ H) as Hnext. pose proof (clients_counted _ _ H) as Hclients.
  assert (Hopen : ∀ s, phase_sender ph = Some s → is_open (mail w) s).
  { intros s Hs. apply (senders_open _ _ H). rewrite omap_middle, Hs. by left. }
  rewrite count_middle in Hnext, Hclients. rewrite length_app in Hlen. cbn [length] in Hlen.
  pose proof (count_bounds had_id l1). pose proof (count_bounds had_id l2).
  pose proof (count_bounds is_client l1). pose proof (count_bounds is_client l2).
  destruct Hmove as [ph (Hp & Hc & Hk)|Hp Hk Hc|s Hp Hc Hnew Hs Hk Ho|s Hch Hc Hk Hn
    |n s subscribed subscribed' Hn Hc Hk Hothers Htracks Hempty|n s Hp Hc Hk Ho|Hp Hk Hc];
    cbn [had_id is_client] in *; (eapply consistent_middle; [exact H|..]);
    cbn [had_id is_client phase_id phase_sender contributes] in *;
    try rewrite Hp; try (unfold same_clients in Hc); try rewrite Hc; auto; try done;
    try (intros s' _; apply Hk); try (intros s' Hs'; rewrite (proj2 (Hk s')); by auto);
    try (rewrite wrap_u64_id; unfold in_u64; lia); try lia.
  - intros s' _ [q Hq]. destruct (decide (s' = s)) as [->|Hne]; [done|]. apply Ho; [done|]. by exists q.
  - intros s' [= <-]. split; [done|]. right. intros Hopen'. by apply Hnew, mailbox_known.
  - intros ch n s'. rewrite (sender_of_channels _ _ _ _ Hch), Hexact. set_solver.
  - unfold no_empty_channel. by rewrite Hch.
  - rewrite Hn, wrap_u64_id; unfold in_u64; lia.
  - rewrite Hn, wrap_u64_id; unfold in_u64; lia.
  - intros n [= <-]. right. rewrite Hn, wrap_u64_id; unfold in_u64; lia.
  - intros ch n' s'. destruct (decide (n' = n)) as [->|Hne].
    + rewrite Htracks. split.
      * case_decide; [|done]. intros [= ->]. by left.
      * intros [(_ & -> & ?)|Hsub]; [by rewrite decide_True|].
        by destruct (others_differ _ _ _ _ _ _ _ _ _ H Hsub).
    + rewrite Hothers by done. rewrite Hexact. naive_solver.
  - intros ch n' s'. rewrite Hexact. set_solver.
  - intros s' Hs'. apply Ho. congruence.
Qed.

(** ** Tasks that move through the phases *)

Lemma conforms_bind {A B} (Q : phase → A → Prop) (R : phase → B → Prop) ph
    (t : Task World A) (k : A → Task World B) :
  conforms Q ph t → (∀ ph' a, Q ph' a → conforms R ph' (k a)) → conforms R ph (x ← t; k x).
Proof.
  intros Ht Hk. revert ph Ht. induction t as [a|f IH] using Task_induction; intros ph Ht;
    inversion Ht as [|? ? Hf]; subst; [by apply Hk|].
  unfold mbind, task_mbind in *. simpl. constructor. intros w Hw.
  destruct (Hf w Hw) as (ph' & Hmove & Hrest). specialize (IH w ph').
  destruct (f w) as [t' w']; simpl in *. eauto.
Qed.

Lemma conforms_weaken {A} (Q R : phase → A → Prop) ph (t : Task World A) :
  conforms Q ph t → (∀ ph' a, Q ph' a → R ph' a) → conforms R ph t.
Proof.
  intros Ht HQ. revert ph Ht. induction t as [a|f IH] using Task_induction; intros ph Ht;
    inversion Ht as [|? ? Hf]; subst; constructor; [auto|]. intros w Hw.
  destruct (Hf w Hw) as (ph' & Hmove & Hrest). eauto.
Qed.

Lemma conforms_atomically {A} (Q : phase → A → Prop) ph (m : State World A) :
  (∀ w, here ph w → ∃ ph', moves w (m w).2 ph ph' ∧ Q ph' (m w).1) →
  conforms Q ph (atomically m).
Proof.
  intros Hm. constructor. intros w Hw. destruct (Hm w Hw) as (ph' & Hmove & HQ).
  exists ph'. destruct (m w) as [a w']. split; [done|by constructor].
Qed.

Lemma conforms_quiet {A} ph (t : Task World A) :
  respects quiet t → conforms (λ ph' _, ph' = ph) ph t.
Proof.
  induction t as [a|f IH] using Task_induction; intros H; inversion H as [|? Hf]; subst;
    constructor; [done|]. intros w _. destruct (Hf w) as [Hq Hrest].
  exists ph. split; [by constructor|]. by apply IH.
Qed.

Lemma outside_quiet : outside quiet.
Proof.
  split; intros; hnf; intros; repeat split; try done; by apply H.
Qed.

Lemma quiet_on_mail {A} (m : State Mail A) :
  (∀ x, same_mailboxes x (m x).2) → respects quiet (on_mail m).
Proof.
  intros Hm. apply respects_atomically. intros w. unfold part_state. specialize (Hm (mail w)).
  destruct (m (mail w)) as [a x]. split_and!; done.
Qed.

(** The phase of the connection of a session. *)
Definition opened (s : Session) : phase := Open (id s) (mailbox_sender s) (subscriptions s).

(** Taking part in a session: the phase follows what is subscribed. *)
Notation session_task := (conforms (λ ph r, ph = opened (snd r))).

Lemma subscribe_moves ch n s subscribed w :
  here (Open n s subscribed) w →
  moves w (set_pubsub (subscribe ch n s (pubsub w)).2 w)
    (Open n s subscribed) (Open n s ({[ch]} ∪ subscribed)).
Proof.
  intros Hw. apply moves_registry; try done.
  - intros ch' n' Hn. cbn [pubsub set_pubsub]. rewrite subscribe_sender. by rewrite decide_False by naive_solver.
  - intros ch'. cbn [pubsub set_pubsub]. rewrite subscribe_sender. specialize (Hw ch').
    destruct (decide (ch' = ch)) as [->|Hne].
    + rewrite !decide_True by set_solver. done.
    + rewrite decide_False by naive_solver. rewrite Hw. repeat case_decide; set_solver.
  - apply subscribe_no_empty.
Qed.

Lemma unsubscribe_moves ch n s subscribed w :
  here (Open n s subscribed) w →
  moves w (set_pubsub (unsubscribe ch n (pubsub w)).2 w)
    (Open n s subscribed) (Open n s (subscribed ∖ {[ch]})).
Proof.
  intros Hw. apply moves_registry; try done.
  - intros ch' n' Hn. cbn [pubsub set_pubsub]. rewrite unsubscribe_sender. by rewrite decide_False by naive_solver.
  - intros ch'. cbn [pubsub set_pubsub]. rewrite unsubscribe_sender. specialize (Hw ch').
    destruct (decide (ch' = ch)) as [->|Hne].
    + rewrite decide_True by done. by rewrite decide_False by set_solver.
    + rewrite decide_False by naive_solver. rewrite Hw. repeat case_decide; set_solver.
  - apply unsubscribe_no_empty.
Qed.

Lemma subscribe_each_conforms chs reply s :
  session_task (opened s) (subscribe_each chs reply s).
Proof.
  revert reply s. induction chs as [|ch chs IH]; intros reply s; [by constructor|].
  cbn [subscribe_each].
  apply (conforms_bind (λ ph _, ph = opened (set_subscriptions ({[ch]} ∪ subscriptions s) s)));
    [|intros ph _ ->; apply IH].
  case_decide.
  - constructor. unfold opened. cbn. f_equal. set_solver.
  - apply conforms_atomically. intros w Hw. eexists. split; [by apply subscribe_moves|done].
Qed.

Lemma unsubscribe_each_conforms chs reply s :
  session_task (opened s) (unsubscribe_each chs reply s).
Proof.
  revert reply s. induction chs as [|ch chs IH]; intros reply s; [by constructor|].
  cbn [unsubscribe_each].
  apply (conforms_bind (λ ph _, ph = opened (set_subscriptions (subscriptions s ∖ {[ch]}) s)));
    [|intros ph _ ->; apply IH].
  case_decide.
  - apply conforms_atomically. intros w Hw. eexists. split; [by apply unsubscribe_moves|done].
  - constructor. unfold opened. cbn. f_equal. set_solver.
Qed.

Lemma quiet_run_queue queue reply : respects quiet (run_queue queue reply).
Proof.
  revert reply. induction queue as [|c queue IH]; intros reply; [constructor|].
  apply respects_bind; [apply frame_dispatch, outside_quiet|]. intros r. apply IH.
Qed.

(** Code that leaves the registry alone, and gives back the same subscriptions. *)
Lemma conforms_same {A} s (t : Task World A) (k : A → Task World (string * Session)) :
  respects quiet t → (∀ a, ∃ reply s', k a = mret (reply, s') ∧ opened s' = opened s) →
  session_task (opened s) (x ← t; k x).
Proof.
  intros Ht Hk. eapply conforms_bind; [by apply conforms_quiet|]. intros ph a ->.
  destruct (Hk a) as (reply & s' & -> & Hs). by constructor.
Qed.

(** A request, whatever other tasks do meanwhile. *)
Lemma handle_conforms tokens s : session_task (opened s) (handle tokens s).
Proof.
  unfold handle. destruct tokens as [|name args]; [by constructor|].
  set (upper := to_ascii_uppercase name).
  destruct (is_subscribed s && _); [by constructor|].
  destruct (decide (upper = "MULTI")) as [_|_].
  { constructor. unfold begin_multi. by destruct (transaction s). }
  destruct (decide (upper = "EXEC")) as [_|_].
  { unfold exec. destruct (transaction s) as [t|]; [|by constructor].
    destruct (dirty t); [by constructor|].
    apply conforms_same; [apply quiet_run_queue|]. intros r. by eexists _, _. }
  destruct (decide (upper = "DISCARD")) as [_|_].
  { constructor. unfold discard. by destruct (transaction s). }
  destruct (transaction s) as [t|].
  { constructor. unfold queue_command.
    destruct (decide (upper = "SUBSCRIBE" ∨ upper = "UNSUBSCRIBE")); [done|].
    by destruct (parse (name :: args)). }
  destruct (decide (upper = "SUBSCRIBE")) as [_|_].
  { unfold subscribe_command. destruct args; [by constructor|]. apply subscribe_each_conforms. }
  destruct (decide (upper = "UNSUBSCRIBE")) as [_|_].
  { unfold unsubscribe_command. destruct (match args with [] => _ | _ => _ end);
      [by constructor|]. apply unsubscribe_each_conforms. }
  apply conforms_same; [apply frame_dispatch, outside_quiet|]. intros r. by eexists _, _.
Qed.

Lemma serve_conforms events s : session_task (opened s) (serve events s).
Proof.
  revert s. induction events as [|[tokens written|written|] events IH]; intros s; cbn [serve];
    try (by constructor).
  - eapply conforms_bind; [apply handle_conforms|]. intros ph [reply s'] ->. cbn [snd].
    case_decide; [apply IH|]. destruct written; [|by constructor].
    eapply conforms_bind; [apply IH|]. intros ph r ->. by constructor.
  - eapply conforms_bind; [apply conforms_quiet, quiet_on_mail; intros; apply poll_recv_same|].
    intros ph received ->. destruct received; [|apply IH]. destruct written; [|by constructor].
    eapply conforms_bind; [apply IH|]. intros ph r ->. by constructor.
Qed.

Lemma cleanup_each_conforms chs n s subscribed :
  conforms (λ ph _, ph = Open n s (subscribed ∖ list_to_set chs)) (Open n s subscribed)
    (cleanup_each chs n).
Proof.
  revert subscribed. induction chs as [|ch chs IH]; intros subscribed; cbn [cleanup_each].
  { constructor. f_equal. set_solver. }
  eapply (conforms_bind (λ ph _, ph = Open n s (subscribed ∖ {[ch]}))).
  - apply conforms_atomically. intros w Hw. eexists. split; [by apply unsubscribe_moves|done].
  - intros ph _ ->. rewrite list_to_set_cons, difference_union_distr_r_L.
    assert (subscribed ∖ {[ch]} ∩ (subscribed ∖ list_to_set chs) =
      subscribed ∖ {[ch]} ∖ list_to_set chs) as -> by set_solver. apply IH.
Qed.

Lemma cleanup_conforms s :
  conforms (λ ph _, ph = Open (id s) (mailbox_sender s) ∅) (opened s) (cleanup s).
Proof.
  unfold cleanup. pose proof (cleanup_each_conforms (iter_set (subscriptions s)) (id s)
    (mailbox_sender s) (subscriptions s)) as H.
  assert (subscriptions s ∖ list_to_set (iter_set (subscriptions s)) = ∅) as E; [|by rewrite E in H].
  apply set_eq. intros ch. rewrite elem_of_difference, elem_of_list_to_set, elem_of_iter_set.
  set_solver.
Qed.

Lemma new_session_conforms : conforms (λ ph s, ph = opened s) Counted new_session.
Proof.
  unfold new_session.
  apply (conforms_bind (λ ph s, ph = Mailed s)).
  - apply conforms_atomically. intros w _. unfold part_state.
    pose proof (unbounded_channel_spec (mail w)) as Hspec.
    pose proof (unbounded_channel_known (mail w)) as Hknown.
    destruct (unbounded_channel (mail w)) as [s m]. exists (Mailed s). split; [|done].
    destruct Hspec as (Hnew & Hempty & Hother). apply moves_mailbox; try done.
    + unfold is_open. simpl in *. by rewrite Hempty.
    + intros s' Hs'. unfold is_open. simpl in *. by rewrite Hother.
  - intros ph s ->. apply (conforms_bind (λ ph n, ph = Open n s ∅)).
    + apply conforms_atomically. intros w _. eexists. split; [by apply moves_id|done].
    + intros ph n ->. by constructor.
Qed.

(** A connection, from the moment it is counted. *)
Lemma handle_connection_conforms events :
  conforms (λ ph _, ph = Closed) Counted (handle_connection events).
Proof.
  eapply conforms_bind; [apply new_session_conforms|]. intros ph s ->.
  eapply conforms_bind; [apply serve_conforms|]. intros ph [out s'] ->. cbn [fst snd].
  eapply conforms_bind; [apply cleanup_conforms|]. intros ph _ ->.
  apply (conforms_bind (λ ph _, ph = Closed)); [|intros ph _ ->; by constructor].
  apply conforms_atomically. intros w _. exists Closed. split; [|done].
  pose proof (drop_receiver_spec (mailbox_sender s') (mail w)) as [_ Hother].
  apply moves_close; try done.
  - intros x. apply drop_receiver_known.
  - intros x Hx. unfold is_open. simpl. by rewrite Hother.
Qed.

Lemma connection_conforms events : conforms (λ ph _, ph = Gone) Arriving (connection_task events).
Proof.
  apply (conforms_bind (λ ph _, ph = Counted)).
  { apply conforms_atomically. intros w _. eexists. split; [by apply moves_arrive|done]. }
  intros ph _ ->. eapply conforms_bind; [apply handle_connection_conforms|]. intros ph out ->.
  apply (conforms_bind (λ ph _, ph = Gone)); [|intros ph _ ->; by constructor].
  apply conforms_atomically. intros w _. eexists. split; [by apply moves_leave|done].
Qed.

(** The other tasks of the server. *)
Lemma quiet_sync_aof : respects quiet sync_aof.
Proof.
  apply respects_bind; [by apply frame_gets|]. intros p.
  destruct (aof p); [apply frame_on_fs, outside_quiet|constructor].
Qed.

Lemma quiet_sweeper ticks : respects quiet (rounds ticks sweeper).
Proof. apply respects_rounds, respects_bind; [by apply frame_on_db|constructor]. Qed.

Lemma quiet_flusher ticks : respects quiet (rounds ticks aof_flusher).
Proof. apply respects_rounds, respects_bind; [apply quiet_sync_aof|constructor]. Qed.

Lemma conforms_background (t : Task World unit) : respects quiet t → conforms ended Background t.
Proof.
  intros Ht. eapply conforms_weaken; [by apply conforms_quiet|]. intros ph [] ->. by right.
Qed.

Lemma quiet_shutdown : respects quiet shutdown.
Proof.
  apply respects_bind; [apply frame_save, outside_quiet|]. intros _.
  apply respects_bind; [apply quiet_sync_aof|constructor].
Qed.

(** The phase a task of the server starts in. *)
Definition starting (ph : phase) : Prop := ph = Arriving ∨ ph = Background.

Lemma server_task_conforms t : server_task t → ∃ ph, starting ph ∧ conforms ended ph t.
Proof.
  destruct 1 as [events|ticks|ticks| |].
  - exists Arriving. split; [by left|].
    eapply conforms_bind; [apply connection_conforms|]. intros ph out ->. constructor. by left.
  - exists Background. split; [by right|]. apply conforms_background, quiet_sweeper.
  - exists Background. split; [by right|]. apply conforms_background, quiet_flusher.
  - exists Background. split; [by right|]. apply conforms_background, respects_bind;
      [apply frame_save, outside_quiet|constructor].
  - exists Background. split; [by right|]. apply conforms_background, quiet_shutdown.
Qed.

(** ** The tasks together *)

(** The phases of the tasks of a pool that is consistent with its shared state. *)
Definition phases (p : Pool World unit) (phs : list phase) : Prop :=
  Forall2 (conforms ended) phs p.2 ∧ consistent phs p.1.

(** A task in the background stays there. *)
Definition stays (phs phs' : list phase) : Prop :=
  ∀ i, phs !! i = Some Background → phs' !! i = Some Background.

Lemma phases_step p p' phs :
  Z.of_nat (length p.2) ≤ u64_max → step p p' → phases p phs →
  ∃ phs', phases p' phs' ∧ stays phs phs'.
Proof.
  intros Hlen Hstep [Htasks Hw]. destruct Hstep as [w ts i f t' w' Hi Hf]. cbn [fst snd] in *.
  pose proof (Forall2_lookup_r _ _ _ _ _ Htasks Hi) as (ph & Hph & Hc).
  pose proof (list_elem_of_split_length phs i ph Hph) as (l1 & l2 & -> & ->).
  inversion Hc as [|? ? Hsec]; subst. destruct (Hsec w) as (ph' & Hmove & Hrest).
  { by eapply consistent_here. }
  rewrite Hf in Hmove, Hrest. exists (<[length l1 := ph']> (l1 ++ ph :: l2)). split; [split; simpl|].
  - by apply Forall2_insert.
  - rewrite insert_app_r_alt, Nat.sub_diag by done. eapply moves_consistent; [|exact Hmove|exact Hw].
    by rewrite (Forall2_length _ _ _ Htasks).
  - intros j Hj. destruct (decide (j = length l1)) as [->|Hne]; [|by rewrite list_lookup_insert_ne].
    rewrite Hph in Hj. injection Hj as ->. rewrite list_lookup_insert_eq by by eapply lookup_lt_Some.
    inversion Hmove; by subst.
Qed.

Lemma phases_steps p p' phs :
  Z.of_nat (length p.2) ≤ u64_max → rtc step p p' → phases p phs →
  ∃ phs', phases p' phs' ∧ stays phs phs'.
Proof.
  intros Hlen Hsteps. revert phs. induction Hsteps as [p|p q p' Hstep _ IH]; intros phs H.
  { exists phs. split; [done|]. by intros i. }
  destruct (phases_step _ _ _ Hlen Hstep H) as (phs1 & H1 & Hs1).
  destruct (IH ltac:(by rewrite (step_length _ _ Hstep)) _ H1) as (phs2 & H2 & Hs2).
  exists phs2. split; [done|]. intros i Hi. auto.
Qed.

(** A server without connections. *)
Definition no_clients (w : World) : Prop :=
  pubsub w = new_pubsub ∧ connected_clients (stats w) = 0.

Lemma omap_starting {B} (f : phase → option B) phs :
  (∀ ph, starting ph → f ph = None) → Forall starting phs → omap f phs = [].
Proof. intros Hf. induction 1 as [|ph phs Hph _ IH]; [done|]. simpl. by rewrite Hf. Qed.

Lemma count_starting p phs :
  (∀ ph, starting ph → p ph = false) → Forall starting phs → count p phs = 0.
Proof.
  intros Hp H. unfold count. induction H as [|ph phs Hph _ IH]; [done|].
  rewrite filter_cons, decide_False; [done|]. by rewrite Hp.
Qed.

Lemma consistent_start phs w : no_clients w → Forall starting phs → consistent phs w.
Proof.
  intros [Hp Hc] Hphs.
  assert (Hid : omap phase_id phs = []) by (apply omap_starting; [by intros ? [-> | ->]|done]).
  assert (Hs : omap phase_sender phs = []) by (apply omap_starting; [by intros ? [-> | ->]|done]).
  split; rewrite ?Hid, ?Hs, ?Hp, ?Hc; try done; try constructor; try (by intros ? ?%elem_of_nil).
  - done.
  - intros (subscribed & Hin & _). rewrite Forall_forall in Hphs.
    by destruct (Hphs _ Hin) as [?|?].
  - symmetry. apply count_starting; [by intros ? [-> | ->]|done].
  - symmetry. apply count_starting; [by intros ? [-> | ->]|done].
Qed.

(** The phases in which the tasks of a server start. *)
Lemma server_tasks_start tasks :
  Forall server_task tasks → ∃ phs, Forall starting phs ∧ Forall2 (conforms ended) phs tasks.
Proof.
  induction 1 as [|t tasks Ht _ (phs & ? & ?)]; [by exists []|].
  destruct (server_task_conforms t Ht) as (ph & ? & ?). exists (ph :: phs). auto.
Qed.

(** ** What follows for the registry *)

(** Each connection has its own mailbox, and the mailboxes in the registry are
    those of connections that are there to read them. *)
Lemma consistent_own_mailboxes phs w : consistent phs w → own_mailboxes (pubsub w).
Proof.
  intros H ch n n' s Hn Hn'.
  apply (registry_exact _ _ H) in Hn as (subscribed & Hin & Hch).
  apply (registry_exact _ _ H) in Hn' as (subscribed' & Hin' & _).
  apply list_elem_of_split in Hin as (l1 & l2 & ->).
  pose proof (senders_unique _ _ H) as Hs. rewrite omap_middle in Hs.
  apply NoDup_cons in Hs as [Hs _]. rewrite elem_of_app, elem_of_cons in Hin'.
  destruct Hin' as [Hin'|[Heq|Hin']]; [|by injection Heq|];
    exfalso; apply Hs, list_elem_of_omap; exists (Open n' s subscribed'); (split; [|done]);
    apply elem_of_app; auto.
Qed.

Lemma consistent_open phs w ch n s :
  consistent phs w → sender_of (pubsub w) ch n = Some s → is_open (mail w) s.
Proof.
  intros H Hs. apply (registry_exact _ _ H) in Hs as (subscribed & Hin & _).
  apply (senders_open _ _ H), list_elem_of_omap. by exists (Open n s subscribed).
Qed.

(** A message reaches all subscribers of its channel, and [PUBLISH] counts them. *)
Lemma consistent_publish phs w ch payload :
  consistent phs w →
  let '(n, m) := publish ch payload (pubsub w) (mail w) in
  n = Z.of_nat (size (subscribers_of (pubsub w) ch)) ∧
  ∀ s, if decide (s ∈ (iter_ids (subscribers_of (pubsub w) ch)).*2)
       then ∃ q, mailbox s (mail w) = Some q ∧ mailbox s m = Some (q ++ [message ch payload])
       else mailbox s m = mailbox s (mail w).
Proof.
  intros H. pose proof (publish_spec ch payload (pubsub w) (mail w)
    (consistent_own_mailboxes _ _ H)) as Hspec.
  destruct (publish ch payload (pubsub w) (mail w)) as [n m]. destruct Hspec as (-> & Hin & Hout).
  setoid_rewrite <- elem_of_subscribers in Hin. setoid_rewrite <- elem_of_subscribers in Hout.
  assert (Hopen : ∀ s, s ∈ (iter_ids (subscribers_of (pubsub w) ch)).*2 → is_open (mail w) s).
  { intros s [id Hs]%elem_of_subscribers. by eapply consistent_open. }
  split.
  - f_equal. rewrite list_filter_all by by apply Forall_forall.
    by rewrite length_fmap, iter_ids_perm, length_map_to_list.
  - intros s. case_decide as Hs; [|auto]. destruct (Hopen s Hs) as [q Hq]. exists q.
    by rewrite Hin, Hq.
Qed.

End registry.
