(* ===== verification/System.v ===== *)
(** The server as a system ([run], [accept_loop] and the tasks they spawn, of
    [server/mod.rs]).

    A [Server] is the shared state, what [run] still has to do, and the tasks it
    spawned.  [act] is one action of the system: an iteration of [accept_loop], a tick
    of one of the endless loops, a save that a [BGSAVE] leaves running, or one critical
    section of a task, chosen by tokio's scheduler.  What holds of interleavings in
    [Task] holds of the server: its runs are runs of a pool of tasks, in which a loop
    is as many rounds as it had in the run ([unrolls]). *)

From stdpp Require Import relations.
From S2P Require Import Prelude Task RustInt RustStr RustF64 HashOrder Resp Clock Store PubSub.
From S2P Require Import FileSystem Aof Snapshot World Command Execute Dispatch Session Config.
From S2P Require Import Server Wire Recovery Durability Connection Registry.
From S2P Require Invariant.
Local Open Scope Z_scope.

Section system.
Context {CK : Clock} {HO : HashOrder} {OF : OrderedFloat} {MP : Mpsc} {FS : FileSystem}
  {SD : Serde} {TP : Process} {AR : AsyncBufRead} {SR : SliceReader AR}.

(** [main] is [None] in [accept_loop], and after it what is left of [run].
    [tickers] are the loops that wait for a [ticker]: the place of the loop's task
    among [tasks] and the body of the loop. *)
Record Server := {
  shared : World;
  main : option (Task World unit);
  tasks : list (Task World unit);
  tickers : list (nat * Task World unit)
}.

(** [tokio::spawn] *)
Definition spawn (t : Task World unit) (s : Server) : Server :=
  {| shared := shared s; main := main s; tasks := tasks s ++ [t]; tickers := tickers s |}.

(** [spawn(async move { loop { ticker.tick().await; body } })]; between two rounds
    its task has nothing to run. *)
Definition spawn_loop (body : Task World unit) (s : Server) : Server :=
  {| shared := shared s; main := main s; tasks := tasks s ++ [mret tt];
     tickers := tickers s ++ [(length (tasks s), body)] |}.

Definition spawn_sweeper : Server → Server := spawn_loop sweeper.
Definition spawn_aof_flusher : Server → Server := spawn_loop aof_flusher.

(** The beginning of [run]: [bound] is the result of binding the listener. *)
Definition run_server (bound : result unit IoError) (config : Config) (m : Mail) (f : Fs)
    (now : nat) : result Server IoError :=
  let? listener := bound in
  let? started := init_persistence config m f now in
  let '(w, aof_policy) := started in
  let s := spawn_sweeper {| shared := w; main := None; tasks := []; tickers := [] |} in
  Ok (if decide (aof_policy = Some EverySec) then spawn_aof_flusher s else s).

(** What the [select!] of [accept_loop] gives: a connection, with what its client will
    do, an error, or the signal to stop. *)
Inductive Accept :=
| Connection (events : list Event)
| Failed
| CtrlC.

(** An iteration of [accept_loop]. After the signal comes the end of [run]. *)
Definition accept_loop (result : Accept) (s : Server) : Server :=
  match result with
  | Connection events => spawn (connection_task events ;; mret tt) s
  | Failed => s
  | CtrlC => {| shared := shared s; main := Some shutdown; tasks := tasks s; tickers := tickers s |}
  end.

(** When [run] has returned, the process ends and its tasks with it. *)
Definition exited (s : Server) : bool := from_option is_done false (main s).

Inductive Action :=
| Accepts (result : Accept)
| Ticks (i : nat)
| Background_save
| Shuts_down
| Runs (i : nat).

Definition act (a : Action) (s : Server) : option Server :=
  if exited s then None
  else
    match a with
    | Accepts result =>
        match main s with None => Some (accept_loop result s) | Some _ => None end
    | Ticks i =>
        (** The loop goes on when its last round is over. *)
        '(place, body) ← tickers s !! i;
        match tasks s !! place with
        | Some (Done _) =>
            Some {| shared := shared s; main := main s; tasks := <[place := body]> (tasks s);
                    tickers := tickers s |}
        | _ => None
        end
    | Background_save => Some (spawn (save ;; mret tt) s)
    | Shuts_down =>
        match main s with
        | Some (Critical f) =>
            let '(t, w) := f (shared s) in Some {| shared := w; main := Some t; tasks := tasks s; tickers := tickers s |}
        | _ => None
        end
    | Runs i =>
        match tasks s !! i with
        | Some (Critical f) =>
            let '(t, w) := f (shared s) in
            Some {| shared := w; main := main s; tasks := <[i := t]> (tasks s);
                    tickers := tickers s |}
        | _ => None
        end
    end.

Definition server_step (s s' : Server) : Prop := ∃ a, act a s = Some s'.

(** A run of the server. *)
Fixpoint acts (l : list Action) (s : Server) : option Server :=
  match l with
  | [] => Some s
  | a :: l => s ← act a s; acts l s
  end.

Lemma acts_steps l s s' : acts l s = Some s' → rtc server_step s s'.
Proof.
  revert s. induction l as [|a l IH]; intros s; cbn [acts]; [by intros [= ->]|].
  destruct (act a s) as [s1|] eqn:E; [|done]. intros H. eapply rtc_l; [by exists a|by apply IH].
Qed.

(** ** Runs of the server are runs of a pool *)

(** The end of [run] waits for its turn like the other tasks. *)
Definition server_pool (s : Server) : Pool World unit :=
  (shared s, default shutdown (main s) :: tasks s).

(** The tasks that the tasks of a server come from: a loop that has ticked [n] times
    comes from its first [n] rounds. *)
Record origins (s : Server) (l : list (Task World unit)) : Prop := {
  origins_tasks : Forall server_task l;
  origins_loops i place body : tickers s !! i = Some (place, body) →
    (body = sweeper ∨ body = aof_flusher) ∧ ∃ n, l !! place = Some (rounds n body);
  origins_places i j place body body' :
    tickers s !! i = Some (place, body) → tickers s !! j = Some (place, body') → body = body'
}.

(** The run of the pool from the start [s0] that a run of the server is. *)
Definition unrolls (s0 s : Server) (l : list (Task World unit)) : Prop :=
  origins s l ∧ rtc step (shared s0, default shutdown (main s0) :: l) (server_pool s).

(** A task that joins now could have been there from the beginning. *)
Lemma unrolls_spawn s0 s l t s' :
  unrolls s0 s l → server_task t → tickers s' = tickers s →
  server_pool s' = (shared s, default shutdown (main s) :: tasks s ++ [t]) →
  unrolls s0 s' (l ++ [t]).
Proof.
  intros [[Hl Hloops Hplaces] Hr] Ht Htick Hp. split; [split|]; rewrite ?Htick.
  - by apply Forall_app; auto.
  - intros i place body Hi. destruct (Hloops i place body Hi) as (Hbody & n & Hn).
    split; [done|]. exists n. by apply lookup_app_l_Some.
  - done.
  - rewrite Hp. exact (steps_app _ _ [t] Hr).
Qed.

Lemma unrolls_step s0 s l s' :
  unrolls s0 s l → tickers s' = tickers s →
  server_pool s' = server_pool s ∨ step (server_pool s) (server_pool s') → unrolls s0 s' l.
Proof.
  intros [[Hl Hloops Hplaces] Hr] Htick Hstep. split; [split; rewrite ?Htick; done|].
  destruct Hstep as [-> | Hstep]; [done|by eapply rtc_r].
Qed.

(** One more round at the end is one more round at the beginning. *)
Lemma unrolls_tick s0 s l i place body u :
  unrolls s0 s l → tickers s !! i = Some (place, body) → tasks s !! place = Some (Done u) →
  unrolls s0 {| shared := shared s; main := main s; tasks := <[place := body]> (tasks s);
                tickers := tickers s |} (alter (λ t, t ;; body) place l).
Proof.
  intros [[Hl Hloops Hplaces] Hr] Hi Hdone. destruct (Hloops i place body Hi) as (Hbody & n & Hn).
  assert (Hhere : alter (λ t, t ;; body) place l !! place = Some (rounds (S n) body))
    by by rewrite list_lookup_alter_eq, Hn.
  split; [split|]; cbn [tickers tasks shared main].
  - apply Forall_lookup. intros j t Hj. destruct (decide (j = place)) as [->|Hne].
    + rewrite Hhere in Hj. injection Hj as <-. destruct Hbody as [-> | ->];
        [apply (task_sweeper (S n))|apply (task_flusher (S n))].
    + rewrite list_lookup_alter_ne in Hj by done. by eapply Forall_lookup_1.
  - intros i' place' body' Hi'. destruct (Hloops i' place' body' Hi') as (Hbody' & m & Hm).
    split; [done|]. destruct (decide (place' = place)) as [->|Hne].
    + rewrite (Hplaces _ _ _ _ _ Hi' Hi). by exists (S n).
    + exists m. by rewrite list_lookup_alter_ne.
  - done.
  - apply (steps_bind_at (λ _, body) (S place)) in Hr. cbn [fst snd server_pool] in Hr.
    match type of Hr with rtc _ (_, ?l1) (_, ?l2) =>
      change l1 with (default shutdown (main s0) :: alter (λ t, t ;; body) place l) in Hr;
      change l2 with (default shutdown (main s) :: alter (λ t, t ;; body) place (tasks s)) in Hr end.
    unfold server_pool. cbn [tasks shared main].
    replace (<[place := body]> (tasks s)) with (alter (λ t, t ;; body) place (tasks s)); [exact Hr|].
    rewrite <- (list_insert_id (tasks s) place (Done u)) at 1 by done.
    rewrite list_alter_insert, decide_True by done. by apply list_insert_alter_eq.
Qed.

(** Every run of a server is a run of a pool of tasks, interleaved. *)
Lemma act_unrolls s0 s l a s' :
  unrolls s0 s l → act a s = Some s' → ∃ l', unrolls s0 s' l'.
Proof.
  intros Hs. unfold act. destruct (exited s); [done|]. destruct a as [[events| |]|i| | |i].
  - destruct (main s) eqn:E; [done|]. intros [= <-]. eexists.
    eapply unrolls_spawn; [exact Hs|apply task_connection|done|]. unfold server_pool. simpl. by rewrite E.
  - destruct (main s); [done|]. intros [= <-]. eauto.
  - destruct (main s) eqn:E; [done|]. intros [= <-]. exists l. eapply unrolls_step; [exact Hs|done|].
    left. unfold server_pool. by rewrite E.
  - destruct (tickers s !! i) as [[place body]|] eqn:Hi; [|done]. cbn [mbind option_bind].
    destruct (tasks s !! place) as [[u|f]|] eqn:Hdone; [|done..]. intros [= <-]. eexists.
    by eapply unrolls_tick.
  - intros [= <-]. eexists. eapply unrolls_spawn; [exact Hs|apply task_save|done|done].
  - destruct (main s) as [[|f]|] eqn:E; [done| |done]. destruct (f (shared s)) as [t w] eqn:Hf.
    intros [= <-]. exists l. eapply unrolls_step; [exact Hs|done|]. right. unfold server_pool. rewrite E.
    by apply (step_section (shared s) (Critical f :: tasks s) 0%nat f).
  - destruct (tasks s !! i) as [[|f]|] eqn:E; [done| |done]. destruct (f (shared s)) as [t w] eqn:Hf.
    intros [= <-]. exists l. eapply unrolls_step; [exact Hs|done|]. right.
    by apply (step_section (shared s) (default shutdown (main s) :: tasks s) (S i) f).
Qed.

Lemma server_steps_unroll s0 s s' l :
  unrolls s0 s l → rtc server_step s s' → ∃ l', unrolls s0 s' l'.
Proof.
  intros Hs Hr. revert l Hs. induction Hr as [s|s s1 s' [a Ha] _ IH]; intros l Hs; [by exists l|].
  destruct (act_unrolls _ _ _ _ _ Hs Ha) as [l1 Hl1]. by apply (IH l1).
Qed.

(** ** Where the server starts *)

Definition boots (config : Config) (m : Mail) (f : Fs) (now : nat) (s : Server) : Prop :=
  ∃ bound, run_server bound config m f now = Ok s.

Lemma boots_unrolls config m f now s :
  boots config m f now s →
  main s = None ∧ unrolls s s (tasks s) ∧
  ∃ policy, init_persistence config m f now = Ok (shared s, policy).
Proof.
  intros (bound & H). unfold run_server in H.
  apply result_bind_ok in H as (u & _ & H). apply result_bind_ok in H as ([w policy] & Hw & H).
  injection H as <-. unfold spawn_aof_flusher, spawn_sweeper, spawn_loop.
  set (two := decide (policy = Some EverySec)).
  split; [by destruct two|]. split; [|exists policy; by destruct two]. split; [|by destruct two].
  destruct two; split; cbn [tickers tasks app length].
  1,4: by constructor; [apply (task_sweeper 0)|repeat constructor; apply (task_flusher 0)].
  1,3: intros [|[|i]] place body Hi; simplify_eq/=; (split; [auto|by exists 0%nat]).
  all: intros [|[|i]] [|[|j]] place body body' Hi Hj; by simplify_eq/=.
Qed.

(** A snapshot file with nothing in it that no server wrote: no empty collection and no
    NaN. *)
Definition sound_snapshot (path : string) (f : Fs) : Prop :=
  ∀ json snap, read_file path f = Ok json → from_slice json = Ok snap →
  Forall (λ e, Invariant.value_wf (value_of (ser_value e))) (entries snap).

(** The snapshot counts only when there is no log. *)
Definition sound_files (config : Config) (f : Fs) : Prop :=
  appendonly config = true ∨ sound_snapshot (snapshot_file config) f.

Lemma load_snapshot_wf snap d :
  Forall (λ e, Invariant.value_wf (value_of (ser_value e))) (entries snap) →
  Invariant.db_wf (load_snapshot snap d).2.
Proof.
  intros H. unfold load_snapshot. unfold mbind, state_bind. cbn [set_store modify].
  match goal with |- Invariant.db_wf (for_each _ _ ?d0).2 => assert (Hd : Invariant.db_wf d0) by apply map_Forall_empty;
    revert Hd; generalize d0 end.
  induction H as [|e es He _ IH]; intros d0 Hd; cbn [for_each]; [done|].
  unfold mbind, state_bind. destruct (load_entry_eq e d0) as (n & _ & ->). apply IH.
  by apply Invariant.store_wf_insert.
Qed.

Lemma load_from_wf path w :
  sound_snapshot path (fs w) → world_wf w → world_wf (run (load_from path) w).2.
Proof.
  intros Hsound Hw. unfold load_from. rewrite run_bind, run_on_fs. unfold gets.
  destruct (read_file path (fs w)) as [json|e] eqn:Hread; [|by destruct (io_not_found e)].
  destruct (from_slice json) as [snap|e] eqn:Hsnap; [|exact Hw].
  rewrite run_bind, run_on_db, run_atomically.
  pose proof (load_snapshot_wf snap (db (set_fs (fs w) w)) (Hsound _ _ Hread Hsnap)) as H.
  by destruct (load_snapshot snap _) as [[] d].
Qed.

Lemma init_wf config m f now w policy :
  sound_files config f → init_persistence config m f now = Ok (w, policy) → world_wf w.
Proof.
  intros Hsound Hinit. destruct (appendonly config) eqn:Hon; [by eapply restart_wf|].
  destruct Hsound as [|Hsound]; [congruence|].
  unfold init_persistence in Hinit. rewrite Hon in Hinit. revert Hinit.
  remember (run (load_from _) _).2 as w1 eqn:Hw1. intros [= <- _]. rewrite Hw1.
  apply load_from_wf; [exact Hsound|apply map_Forall_empty].
Qed.

(** Recovery makes no connection. *)
Lemma quiet_no_clients w w' : quiet w w' → no_clients w → no_clients w'.
Proof. intros (Hp & Hc & _) [H1 H2]. unfold no_clients, same_clients in *. by rewrite Hp, Hc. Qed.

Lemma quiet_run {A} (t : Task World A) w : respects quiet t → no_clients w → no_clients (run t w).2.
Proof.
  intros Ht. apply keeps_run, respects_keeps. eapply respects_weaken; [|exact Ht]. apply quiet_no_clients.
Qed.

Lemma quiet_replay_loop fuel r n : respects quiet (replay_loop fuel r n).
Proof.
  revert r n. induction fuel as [|fuel IH]; intros r n; cbn [replay_loop]; [constructor|].
  destruct (read_request r) as [[[tokens|]|e] r']; try constructor.
  apply respects_bind; [apply frame_dispatch, outside_quiet|]. intros _. apply IH.
Qed.

Lemma quiet_set_replaying b : respects quiet (set_replaying b).
Proof. apply respects_atomically. by intros w. Qed.

Lemma quiet_replay_aof path : respects quiet (replay_aof path).
Proof.
  apply respects_bind; [apply frame_on_fs, outside_quiet|]. intros [bytes|e]; [|destruct (io_not_found e); constructor].
  apply respects_bind; [apply quiet_set_replaying|]. intros _.
  apply respects_bind; [apply quiet_replay_loop|]. intros n.
  apply respects_bind; [apply quiet_set_replaying|constructor].
Qed.

Lemma quiet_load_from path : respects quiet (load_from path).
Proof.
  apply respects_bind; [apply frame_on_fs, outside_quiet|]. intros [bytes|e]; [|destruct (io_not_found e); constructor].
  destruct (from_slice bytes); [|constructor].
  apply respects_bind; [by apply frame_on_db|constructor].
Qed.

Lemma init_no_clients config m f now w policy :
  init_persistence config m f now = Ok (w, policy) → no_clients w.
Proof.
  unfold init_persistence. destruct (appendonly config).
  - destruct (policy_from_str (appendfsync config)) as [pol|e]; [|done].
    destruct (aof_open (aof_file config) pol f) as [[opened|e] f']; [|done]. cbn [result_bind].
    remember (run (replay_aof (aof_file config)) _).2 as w1 eqn:Hw1.
    intros [= <- _]. rewrite Hw1. by apply quiet_run; [apply quiet_replay_aof|].
  - remember (run (load_from _) _).2 as w1 eqn:Hw1.
    intros [= <- _]. rewrite Hw1. by apply quiet_run; [apply quiet_load_from|].
Qed.

(** ** What holds in every state of the server *)

Lemma server_reaches config m f now s s' :
  boots config m f now s → rtc server_step s s' →
  ∃ l, Forall server_task l ∧ no_clients (shared s) ∧
    rtc step (shared s, shutdown :: l) (server_pool s').
Proof.
  intros Hboot Hsteps. destruct (boots_unrolls _ _ _ _ _ Hboot) as (Hmain & Hs & policy & Hinit).
  destruct (server_steps_unroll _ _ _ _ Hs Hsteps) as (l & [[Hl _ _] Hr]). rewrite Hmain in Hr.
  exists l. split; [exact Hl|]. split; [by eapply init_no_clients|exact Hr].
Qed.

(** An invariant that the tasks keep. *)
Lemma server_invariant I config m f now s s' :
  stable I → boots config m f now s → rtc server_step s s' → I (shared s) → I (shared s').
Proof.
  intros HI Hboot Hsteps Hs. destruct (server_reaches _ _ _ _ _ _ Hboot Hsteps) as (l & Hl & _ & Hr).
  apply (keeps_steps I _ _ Hr); [exact Hs|].
  constructor; [by apply keeps_server_task, task_shutdown|].
  eapply Forall_impl; [exact Hl|]. intros t. by apply keeps_server_task.
Qed.

Lemma server_wf config m f now s s' :
  sound_files config f → boots config m f now s → rtc server_step s s' → world_wf (shared s').
Proof.
  intros Hsound Hboot Hsteps. eapply server_invariant; [apply stable_wf|exact Hboot|exact Hsteps|].
  destruct (boots_unrolls _ _ _ _ _ Hboot) as (_ & _ & policy & Hinit). by eapply init_wf.
Qed.

(** The end of [run] is no connection. *)
Lemma server_consistent config m f now s s' :
  boots config m f now s → rtc server_step s s' → Z.of_nat (length (tasks s')) < u64_max →
  ∃ phs, phases (server_pool s') (Background :: phs).
Proof.
  intros Hboot Hsteps Hlen. destruct (server_reaches _ _ _ _ _ _ Hboot Hsteps) as (l & Hl & Hw & Hr).
  destruct (server_tasks_start l Hl) as (phs & Hstart & Hphs).
  destruct (phases_steps _ _ (Background :: phs) ltac:(apply steps_length in Hr as <-; simpl; lia) Hr)
    as ([|ph phs'] & Hphs' & Hstays).
  - split; simpl.
    + constructor; [|done]. apply conforms_background, quiet_shutdown.
    + apply consistent_start; [done|]. constructor; [by right|done].
  - by specialize (Hstays 0%nat eq_refl).
  - specialize (Hstays 0%nat eq_refl). injection Hstays as ->. by exists phs'.
Qed.

End system.
