(* ===== verification/LogGrows.v ===== *)
(** The log of a running server: whatever its tasks do and however they interleave,
    it grows by whole entries, each a write that parses. *)

From stdpp Require Import relations.
From S2P Require Import Prelude Task RustInt RustStr RustPath RustF64 HashOrder Resp Clock Store.
From S2P Require Import PubSub FileSystem Aof Snapshot World Command Execute Dispatch Session.
From S2P Require Import Config Server Wire Recovery Durability Connection System.
From S2P Require Database.
Local Open Scope Z_scope.

Section files.
Context {FS : FileSystem}.

(** Saving a snapshot does not touch the other files, whether it succeeds or not. *)
Lemma write_file_other p b f q : q ≠ p → content q (write_file p b f).2 = content q f.
Proof.
  intros Hq. destruct (write_file p b f) as [[[]|e] f'] eqn:E.
  - apply write_file_ok in E as [_ Hother]. by apply Hother.
  - by apply (write_file_err _ _ _ _ _ E).
Qed.

Lemma rename_file_other p p' f q :
  p ≠ p' → q ≠ p → q ≠ p' → content q (rename_file p p' f).2 = content q f.
Proof.
  intros Hp Hq Hq'. destruct (rename_file p p' f) as [[[]|e] f'] eqn:E.
  - apply rename_file_ok in E as (_ & _ & Hother); [|done]. by apply Hother.
  - by apply (rename_file_err _ _ _ _ _ E).
Qed.
End files.

Section log.
Context {CK : Clock} {HO : HashOrder} {OF : OrderedFloat} {MP : Mpsc} {FS : FileSystem}
  {SD : Serde} {TP : Process}.

(** What may be in the log. *)
Definition is_entry (tokens : list string) : Prop :=
  ∃ c, parse tokens = Ok c ∧ is_write c = true.

(** The log is [a], and snapshots are written elsewhere. *)
Record log_settings (a : Aof) (p : Persistence) : Prop := {
  settings_aof : aof p = Some a;
  settings_paths path : snapshot_path p = Some path →
    has_file_name path ∧ path ≠ log_path a ∧ ∀ n, temp_path path n ≠ log_path a
}.

(** What was there at the start, and then entries; none during a replay. *)
Definition log_grown (a : Aof) (base : string) (p : Persistence) (w : World) : Prop :=
  persistence w = p ∧
  ∃ L, content (log_path a) (fs w) = Some (base +:+ log_of L) ∧ Forall is_entry L ∧
       (replaying p = true → L = []).

Context (a : Aof) (base : string) (p : Persistence).
Hypothesis Hhealthy : healthy a.
Hypothesis Hsettings : log_settings a p.

Notation grown := (log_grown a base p).

Lemma grown_elsewhere w w' : persistence w' = persistence w → fs w' = fs w → grown w → grown w'.
Proof. intros Hp Hf. unfold log_grown. by rewrite Hp, Hf. Qed.

Lemma grown_on_db {A} (t : Task DbState A) : keeps grown (on_db t).
Proof. apply respects_keeps, respects_on_part. intros d w. by apply grown_elsewhere. Qed.

(** A file operation that leaves the log alone. *)
Lemma grown_on_fs {A} (m : State Fs A) :
  (∀ f, content (log_path a) (m f).2 = content (log_path a) f) → keeps grown (on_fs m).
Proof.
  intros Hm. apply keeps_atomically. intros w (Hp & L & Hc & HL). unfold part_state.
  specialize (Hm (fs w)). destruct (m (fs w)) as [x f]. simpl in Hm. split; [done|].
  exists L. simpl. by rewrite Hm.
Qed.

Lemma grown_save : keeps grown save.
Proof.
  apply keeps_gets. intros w [-> _]. destruct (snapshot_path p) as [path|] eqn:Hpath; [|constructor].
  destruct (settings_paths _ _ Hsettings path Hpath) as (Hname & Hne & Htemp). unfold save_to.
  apply keeps_bind; [apply grown_on_db|]. intros snap.
  destruct (to_vec_pretty snap) as [json|e]; [|constructor].
  apply keeps_bind; [apply keeps_atomically; intros w'; by apply grown_elsewhere|]. intros n.
  apply keeps_bind; [apply grown_on_fs; intros f; by apply write_file_other|].
  intros [u|e]; [|constructor]. apply grown_on_fs. intros f.
  apply rename_file_other; [by apply temp_path_ne|done..].
Qed.

Lemma grown_sync : keeps grown sync_aof.
Proof.
  apply keeps_gets. intros w [-> _]. rewrite (settings_aof _ _ Hsettings).
  apply grown_on_fs. intros f. apply sync_data_ok.
Qed.

Lemma grown_log_write tokens : is_entry tokens → keeps grown (log_write tokens).
Proof.
  intros Htokens. apply keeps_gets. intros w [-> _].
  destruct (replaying p) eqn:Hr; [constructor|]. rewrite (settings_aof _ _ Hsettings).
  apply keeps_bind; [|constructor]. apply keeps_atomically. intros w' (Hp & L & Hc & HL & _).
  unfold part_state. pose proof (Hhealthy tokens (fs w')) as Hok.
  destruct (append a tokens (fs w')) as [r f] eqn:E. simpl in Hok. subst r.
  apply append_content in E as [E _]. fold (log_path a) in E. split; [done|].
  exists (L ++ [tokens]). cbn [fs set_fs]. rewrite E, Hc, log_of_snoc. cbn [default].
  split; [by rewrite <- sapp_assoc|]. split; [by apply Forall_app; auto|by rewrite Hr].
Qed.

(** A successful write is the only thing that a request adds. *)
Lemma grown_execute c : keeps grown (execute c).
Proof.
  assert (Hc : c = Save ∨ c ≠ Save) by (destruct c; (by left) || (by right)).
  destruct Hc as [-> | Hc].
  - apply keeps_bind; [apply grown_save|constructor].
  - apply respects_keeps, frame_execute; [..|done].
    + intros d w. by apply grown_elsewhere.
    + intros m w _. by apply grown_elsewhere.
Qed.

Lemma grown_dispatch tokens : keeps grown (dispatch tokens).
Proof.
  unfold dispatch. destruct tokens as [|t ts]; [constructor|].
  destruct (parse (t :: ts)) as [c|e] eqn:Hp; [|constructor].
  assert (Hgen : keeps grown
    (reply ← execute c; (if is_write c && negb (starts_with "-"%char reply) then log_write (t :: ts)
      else mret tt) ;; mret reply)).
  { apply keeps_bind; [apply grown_execute|]. intros reply. apply keeps_bind; [|constructor].
    destruct (is_write c) eqn:Hw; [|constructor]. destruct (negb _); [|constructor].
    apply grown_log_write. by exists c. }
  destruct c; try exact Hgen. unfold dispatch_spop. apply keeps_bind; [apply grown_on_db|].
  intros popped. apply keeps_bind; [|constructor].
  destruct popped as [[m|]|e]; [|constructor..]. apply grown_log_write. by exists (SRem key [m]).
Qed.

Lemma stable_grown : stable grown.
Proof.
  split.
  - apply grown_dispatch.
  - intros ps w. by apply grown_elsewhere.
  - intros m w. by apply grown_elsewhere.
  - intros st w. by apply grown_elsewhere.
  - apply grown_on_db.
  - apply grown_save.
  - apply grown_sync.
Qed.
End log.

Section start.
Context {CK : Clock} {HO : HashOrder} {OF : OrderedFloat} {MP : Mpsc} {FS : FileSystem}
  {SD : Serde} {TP : Process} {AR : AsyncBufRead} {SR : SliceReader AR}.

(** Settings under which the log is the log: it is turned on, its disk does not fail,
    and no snapshot file is the log's. *)
Record logging (config : Config) : Prop := {
  logging_on : appendonly config = true;
  logging_healthy a : log_path a = aof_file config → healthy a;
  logging_name : has_file_name (snapshot_file config);
  logging_apart : snapshot_file config ≠ aof_file config;
  logging_temp n : temp_path (snapshot_file config) n ≠ aof_file config
}.

(** The start opens the log and replays it without adding to it. *)
Lemma init_grown config m f now w policy :
  logging config → init_persistence config m f now = Ok (w, policy) →
  ∃ a p, log_path a = aof_file config ∧ healthy a ∧ log_settings a p ∧
    log_grown a (default "" (content (aof_file config) f)) p w ∧
    content (log_path a) (fs w) = Some (default "" (content (aof_file config) f)).
Proof.
  intros [Hon Hh Hname Happart Htemp]. unfold init_persistence. rewrite Hon.
  destruct (policy_from_str (appendfsync config)) as [pol|e]; [|done].
  unfold aof_open, mbind, state_bind.
  destruct (open_append (aof_file config) f) as [[fl|e] f'] eqn:Hopen; [|done].
  apply open_append_ok in Hopen as (Hpath & Hc & _).
  set (base := default "" (content (aof_file config) f)) in *. cbn [mret state_ret result_bind].
  set (a := {| file := fl; policy := pol |}). set (w0 := with_persistence _ _ _ _ _ _).
  remember (run (replay_aof (aof_file config)) w0).2 as w1 eqn:Hw1. intros [= <- _].
  assert (Hset : ∀ b, log_settings a
    {| snapshot_path := Some (snapshot_file config); aof := Some a; replaying := b |}).
  { intros b. split; [done|]. intros path [= <-]. unfold log_path. cbn [file a]. by rewrite Hpath. }
  assert (Ha : healthy a) by by apply Hh.
  exists a, (persistence w0). split; [done|]. split; [done|]. split; [apply Hset|].
  rewrite Hw1, run_replay_aof. assert (Hlog : content (log_path a) (fs w0) = Some (base +:+ log_of [])).
  { unfold log_path. cbn [file a fs w0 with_persistence]. by rewrite Hpath, sapp_nil_r. }
  destruct (read_file (aof_file config) (fs w0)) as [bytes|e].
  2: { cbn [snd]. split; [|by rewrite Hlog, sapp_nil_r]. split; [done|]. by exists []. }
  set (loop := replay_loop _ _ _).
  assert (H1 : log_grown a base (persistence (with_replaying true w0)) (run loop (with_replaying true w0)).2).
  { apply keeps_run; [|split; [done|by exists []]].
    apply keeps_replay_loop. intros tokens. apply grown_dispatch; [done|apply Hset]. }
  destruct (run loop _) as [n w']. cbn [snd] in H1. destruct H1 as (Hp & L & Hcontent & _ & HL).
  rewrite (HL eq_refl) in Hcontent. split; [|by rewrite sapp_nil_r in Hcontent].
  split; [unfold with_replaying; cbn; by rewrite Hp|]. by exists [].
Qed.

Lemma server_log_grows config m f now s s' :
  logging config → boots config m f now s → rtc server_step s s' →
  ∃ L, content (aof_file config) (fs (shared s')) =
         Some (default "" (content (aof_file config) f) +:+ log_of L) ∧ Forall is_entry L.
Proof.
  intros Hlogging Hboot Hsteps. destruct (boots_unrolls _ _ _ _ _ Hboot) as (_ & _ & policy & Hinit).
  destruct (init_grown _ _ _ _ _ _ Hlogging Hinit) as (a & p & Hpath & Ha & Hset & Hs & _).
  pose proof (server_invariant _ _ _ _ _ _ _ (stable_grown a _ p Ha Hset) Hboot Hsteps Hs) as H.
  destruct H as (_ & L & Hc & HL & _). rewrite Hpath in Hc. by exists L.
Qed.
End start.
