(* ===== verification/Torn.v ===== *)
(** What a crash leaves in the log: an entry that was cut short stays there, and what is
    written after the restart is appended to it. *)

From S2P Require Import Prelude Task RustInt RustStr RustPath RustF64 HashOrder Resp Clock Store.
From S2P Require Import PubSub FileSystem Aof Snapshot World Command Execute Dispatch Session.
From S2P Require Import Config Server Wire Recovery Durability Connection System LogGrows.
Local Open Scope Z_scope.

Section torn.
Context {AR : AsyncBufRead} {SR : SliceReader AR}.

(** The bytes that are there of an entry whose last argument [a +:+ b] is cut, and the
    bytes that come to be next to them: the reader takes as many as the entry lacks
    for the rest of the argument and its line end, whatever they are. *)
Lemma read_request_spliced r tokens a b torn c rest :
  request_ok (tokens ++ [a +:+ b]) → torn +:+ b +:+ CRLF = array (tokens ++ [a +:+ b]) →
  String.length c = (String.length b + 2)%nat → remaining r = torn +:+ c +:+ rest →
  let last := a +:+ stake (String.length b) c in
  if utf8_valid last
  then ∃ r', read_request r = (Ok (Some (tokens ++ [last])), r') ∧ remaining r' = rest
  else fails read_request r.
Proof.
  intros [Htok Hlen] Htorn Hc Hr last. apply Forall_app in Htok as [Htokens Hab%Forall_inv].
  set (n := Z.of_nat (length (tokens ++ [a +:+ b]))) in *.
  assert (Heq : torn = String "*" (int_to_string n) +:+ CRLF +:+ concat_all (bulk_string <$> tokens) +:+
    "$" +:+ int_to_string (slen (a +:+ b)) +:+ CRLF +:+ a).
  { apply (sapp_inj_r _ _ (b +:+ CRLF)). rewrite Htorn, array_bytes, fmap_app, concat_all_app.
    fold n. cbn [fmap list_fmap]. unfold concat_all at 2. cbn [foldr]. unfold bulk_string at 2.
    by rewrite sapp_nil_r, !sapp_assoc. }
  subst torn. rewrite !sapp_assoc in Hr.
  destruct (read_request_header n r _ ltac:(lia) Hr) as (r1 & Hr1 & Hreq).
  unfold fails. rewrite Hreq. clear Hr Hreq.
  unfold n. rewrite Nat2Z.id, length_app.
  destruct (read_bulks_then tokens 1 r1 _ Htokens Hr1) as (r2 & Hr2 & Hbulks).
  cbn [length]. rewrite Hbulks. clear Hr1 Hbulks.
  assert (Hlast : slen last = slen (a +:+ b)).
  { unfold last. rewrite !slen_app, stake_length. lia. }
  assert (Hend : remaining r2 = "$" +:+ int_to_string (slen last) +:+ CRLF +:+ last +:+
    sdrop (String.length b) c +:+ rest).
  { rewrite Hr2, Hlast. unfold last. rewrite <- (stake_sdrop (String.length b) c) at 1. by rewrite !sapp_assoc. }
  assert (Htwo : String.length (sdrop (String.length b) c) = 2%nat) by (rewrite sdrop_length; lia).
  destruct Hab as [_ Hmax]. rewrite <- Hlast in Hmax.
  cbn [read_bulks]. unfold mbind, state_bind. destruct (utf8_valid last) eqn:Hu.
  - pose proof (read_bulk_string_loose r2 last _ rest (conj Hu Hmax) Htwo Hend) as H.
    destruct (read_bulk_string r2) as [x r3]. destruct H as [-> Hr3]. by exists r3.
  - destruct (read_bulk_bad r2 last (sdrop (String.length b) c) rest) as [e He];
      [by intros [Hv _]; rewrite Hu in Hv|unfold MAX_BULK_BYTES, usize_max, u64_max in *; lia|done..|].
    destruct (read_bulk_string r2) as [x r3]. cbn [fst] in He. subst x. by exists e.
Qed.

(** All that is read of a log with such an entry in it. *)
Lemma reader_task_spliced L tokens a b torn c rest r fuel :
  Forall request_ok L → request_ok (tokens ++ [a +:+ b]) →
  torn +:+ b +:+ CRLF = array (tokens ++ [a +:+ b]) →
  String.length c = (String.length b + 2)%nat → remaining r = log_of L +:+ torn +:+ c +:+ rest →
  let last := a +:+ stake (String.length b) c in
  (String.length (remaining r) < fuel)%nat →
  if utf8_valid last
  then ∃ r', remaining r' = rest ∧
         reader_task fuel r = L ++ (tokens ++ [last]) :: reader_task (S (String.length rest)) r'
  else reader_task fuel r = L.
Proof.
  intros HL Hok Htorn Hc Hr last. revert fuel r Hr.
  induction HL as [|t L Ht _ IH]; intros fuel r Hr Hf; (destruct fuel as [|fuel]; [lia|]); cbn [reader_task].
  - change (log_of [] +:+ ?x) with x in Hr.
    pose proof (read_request_spliced r tokens a b torn c rest Hok Htorn Hc Hr) as H. cbv zeta in H. fold last in H.
    destruct (utf8_valid last).
    + destruct H as (r' & Hreq & Hr'). pose proof (read_request_consumes _ _ _ Hreq). rewrite Hreq.
      exists r'. split; [done|]. cbn [app]. f_equal.
      apply (reader_task_fuel fuel (S (String.length rest)) r'); [lia|rewrite Hr'; lia].
    + destruct H as [e He]. destruct (read_request r) as [x r']. cbn [fst] in He. by subst x.
  - assert (Hr1 : remaining r = array t +:+ (log_of L +:+ torn +:+ c +:+ rest))
      by (rewrite Hr; change (log_of (t :: L)) with (array t +:+ log_of L); by rewrite sapp_assoc).
    pose proof (read_request_array t r _ Ht Hr1) as H. destruct (read_request r) as [x r1] eqn:Hreq.
    destruct H as [-> Hr2]. pose proof (read_request_consumes _ _ _ Hreq).
    specialize (IH fuel r1 Hr2 ltac:(lia)). destruct (utf8_valid last); [|by rewrite IH].
    destruct IH as (r' & Hr' & ->). by exists r'.
Qed.
End torn.

Section restarts.
Context {CK : Clock} {HO : HashOrder} {OF : OrderedFloat} {MP : Mpsc} {FS : FileSystem}
  {SD : Serde} {TP : Process} {AR : AsyncBufRead} {SR : SliceReader AR}.

(** A log whose last entry was cut inside its last argument, a server that starts with
    it and runs, and the next start. *)
Lemma torn_restarts config m m' f now now' w w2 policy policy' L tokens a b torn commands :
  logging config → readable (aof_file config) →
  Forall request_ok L → request_ok (tokens ++ [a +:+ b]) →
  torn +:+ b +:+ CRLF = array (tokens ++ [a +:+ b]) →
  content (aof_file config) f = Some (log_of L +:+ torn) →
  init_persistence config m f now = Ok (w, policy) →
  let w1 := (run (dispatch_all commands) w).2 in
  let new := log_of (logged_all commands w) in
  let last := a +:+ stake (String.length b) new in
  replayed now L w ∧ content (aof_file config) (fs w1) = Some (log_of L +:+ torn +:+ new) ∧
  (init_persistence config m' (fs w1) now' = Ok (w2, policy') →
   (String.length b + 2 ≤ String.length new)%nat →
   if utf8_valid last
   then ∃ r, remaining r = sdrop (String.length b + 2) new ∧
     replayed now' (L ++ (tokens ++ [last]) :: reader_task (S (String.length (remaining r))) r) w2
   else replayed now' L w2).
Proof.
  intros Hlogging Hread HL Hok Htorn Hf Hinit w1 new last. pose proof Hlogging as [Hon _ _ _ _].
  assert (Hstop : stops torn).
  { apply (stops_cut (tokens ++ [a +:+ b]) torn (List.hd CR (bytes_of b)) (sdrop 1 (b +:+ CRLF)));
      [by destruct tokens|done|]. rewrite <- Htorn. f_equal. by destruct b. }
  assert (Hw1 : content (aof_file config) (fs w1) = Some (log_of L +:+ torn +:+ new)).
  { destruct (init_grown _ _ _ _ _ _ Hlogging Hinit) as (af & p & Hpath & Haf & [Haof Hpaths] & [Hp _] & Hc).
    destruct (restart_wf _ _ _ _ _ _ Hon Hinit) as [_ Hreplaying].
    rewrite Hf in Hc. rewrite <- Hpath, <- sapp_assoc. apply run_appends; [done| |done].
    rewrite Hp in *. by split_and!. }
  split; [|split; [done|]].
  - exact (init_replayed_log _ _ _ _ _ _ _ _ Hon Hread Hf Hstop HL Hinit).
  - intros Hinit2 Hlong. pose proof (init_replayed _ _ _ _ _ _ _ Hon Hread Hw1 Hinit2) as H.
    set (n := (String.length b + 2)%nat) in *. set (bytes := log_of L +:+ torn +:+ new) in *.
    assert (Hlast : stake (String.length b) (stake n new) = stake (String.length b) new).
    { apply stake_stake. unfold n. lia. }
    pose proof (reader_task_spliced L tokens a b torn (stake n new) (sdrop n new) (slice_reader bytes)
      (S (String.length bytes)) HL Hok Htorn) as Hsp. cbv zeta in Hsp. rewrite Hlast in Hsp. fold last in Hsp.
    rewrite stake_length, remaining_slice in Hsp. rewrite stake_sdrop in Hsp.
    specialize (Hsp ltac:(lia) eq_refl ltac:(lia)). destruct (utf8_valid last).
    + destruct Hsp as (r & Hr & Hsp). exists r. split; [done|]. rewrite Hr, <- Hsp. exact H.
    + by rewrite Hsp in H.
Qed.
End restarts.
