(* ===== verification/Lapsed.v ===== *)
(** A key whose time passes between two requests, and the replay of them: the log does
    not say when a key expired, and a replay counts its time anew. *)

From S2P Require Import Prelude Task RustInt RustStr RustF64 HashOrder Resp Clock Store.
From S2P Require Import PubSub FileSystem Aof Snapshot World Command Execute Dispatch ErrorReply.
From S2P Require Import Config Server Wire Recovery Durability Connection System LogGrows Torn.
From S2P Require Database Keyspace KeyOps.
Local Open Scope Z_scope.

(** A string with a time to live, and text to append to it. *)
Definition timed_requests (k a b : string) (seconds : Z) : list (list string) :=
  [["SET"; k; a; "EX"; int_to_string seconds]; ["APPEND"; k; b]].

Section lapsed.
Context {CK : Clock} {HO : HashOrder} {OF : OrderedFloat} {MP : Mpsc} {FS : FileSystem}
  {SD : Serde} {TP : Process}.

Lemma parse_set_timed k a seconds :
  in_u64 seconds → parse ["SET"; k; a; "EX"; int_to_string seconds] = Ok (Set_ k a (Some seconds)).
Proof. intros Hs. unfold parse. simpl. unfold parse_number. by rewrite parse_u64_to_string. Qed.

Lemma append_timed k a b deadline s :
  store s !! k = Some {| value := VStr a; expires_at := Some deadline |} →
  let '(r, s') := run (Database.append k b) s in
  is_ok r = true ∧
  store s' !! k = Some (if decide (deadline ≤ instant_at (tick s)) then Keyspace.fresh_string b
                        else {| value := VStr (a +:+ b); expires_at := Some deadline |}).
Proof.
  intros Hk. unfold Database.append. rewrite run_atomically. unfold mbind, state_bind.
  pose proof (Keyspace.touch_lookup k s) as Ht. rewrite Keyspace.seen_lookup, Hk in Ht.
  unfold Keyspace.touch in Ht. destruct (evict_expired k s) as [[] s1]. cbn [snd] in Ht.
  unfold expired_at, Keyspace.instant in Ht. simpl in Ht. unfold entry_or_insert, get_entry, gets, mbind, state_bind.
  rewrite Ht.
  case_bool_decide as Hd; cbn in Ht |- *.
  - rewrite decide_True by done. split; [done|]. by rewrite lookup_alter_eq, lookup_insert_eq.
  - rewrite decide_False by done. split; [done|]. by rewrite lookup_alter_eq, Ht.
Qed.

(** The two requests: what they leave depends on whether the clock has passed the
    deadline at its second reading, and the log does not tell. *)
Lemma timed_requests_run k a b seconds w :
  in_u64 seconds → instant_at (tick (db w)) + from_secs seconds ≤ instant_max →
  let deadline := instant_at (tick (db w)) + from_secs seconds in
  let w' := (run (dispatch_all (timed_requests k a b seconds)) w).2 in
  store (db w') !! k =
    Some (if decide (deadline ≤ instant_at (S (tick (db w)))) then Keyspace.fresh_string b
          else {| value := VStr (a +:+ b); expires_at := Some deadline |}) ∧
  logged_all (timed_requests k a b seconds) w = timed_requests k a b seconds.
Proof.
  intros Hs Hmax deadline w'. unfold w'. clear w'. cbn [timed_requests dispatch_all logged_all].
  rewrite run_bind. pose proof (dispatch_db ["SET"; k; a; "EX"; int_to_string seconds] w) as Hdb.
  set (e1 := ["SET"; k; a; "EX"; int_to_string seconds]) in *.
  assert (Hp : parse e1 = Ok (Set_ k a (Some seconds))) by by apply parse_set_timed.
  assert (Hset : run (Database.set k a (Some seconds)) (db w) =
    (tt, {| store := <[k := {| value := VStr a; expires_at := Some deadline |}]> (store (db w));
            tick := S (tick (db w)) |})).
  { unfold Database.set. rewrite run_atomically. unfold Database.deadline_of, deadline_after, mbind, state_bind.
    cbn [now]. unfold checked_add_instant. by rewrite decide_True by done. }
  assert (Hlog1 : logged e1 w = [e1]).
  { unfold logged. rewrite Hp. cbn [execute]. rewrite run_answer. done. }
  unfold executed in Hdb. rewrite Hp in Hdb. cbn [execute] in Hdb. rewrite run_answer, Hset in Hdb.
  rewrite Hlog1. destruct (run (dispatch e1) w) as [r w1]. cbn [snd db set_db] in Hdb |- *.
  rewrite run_bind. pose proof (dispatch_db ["APPEND"; k; b] w1) as Hdb2.
  assert (Hk : store (db w1) !! k = Some {| value := VStr a; expires_at := Some deadline |})
    by (rewrite Hdb; apply lookup_insert_eq).
  assert (Htick : tick (db w1) = S (tick (db w))) by by rewrite Hdb.
  pose proof (append_timed k a b deadline (db w1) Hk) as Happend. rewrite Htick in Happend.
  unfold executed in Hdb2. change (parse ["APPEND"; k; b]) with (Ok (E := CommandError) (Append k b)) in Hdb2.
  cbn [execute] in Hdb2. rewrite run_answer in Hdb2.
  assert (Hlog2 : logged ["APPEND"; k; b] w1 = [["APPEND"; k; b]]).
  { unfold logged. change (parse ["APPEND"; k; b]) with (Ok (E := CommandError) (Append k b)).
    cbn [execute]. rewrite run_answer. destruct (run (Database.append k b) (db w1)) as [[n|e] d]; [done|].
    by destruct Happend. }
  rewrite Hlog2. destruct (run (dispatch ["APPEND"; k; b]) w1) as [r2 w2]. cbn [snd run mret task_ret] in Hdb2 |- *.
  rewrite Hdb2. destruct (run (Database.append k b) (db w1)) as [x d]. cbn [fst snd db set_db] in *.
  destruct Happend as [_ ->]. done.
Qed.
End lapsed.

(** A server on which the key's time is over at the second request, and one that starts
    from its log, where it is not. *)
Section restart.
Context {OF : OrderedFloat} {FS : FileSystem} {SD : Serde} {AR : AsyncBufRead} {SR : SliceReader AR}
  {CK1 CK2 : Clock} {HO1 HO2 : HashOrder} {MP1 MP2 : Mpsc} {TP1 TP2 : Process}.

Lemma lapsed_restart config af (w : @World MP1 FS) m' now' (w2 : @World MP2 FS) policy k a b seconds :
  appendonly config = true → readable (aof_file config) →
  healthy af → logs_to (TP := TP1) af (persistence w) → log_path af = aof_file config →
  content (aof_file config) (fs w) = Some "" →
  in_u64 seconds → Forall request_ok (timed_requests k a b seconds) →
  instant_at (Clock := CK1) (tick (db w)) + from_secs seconds ≤ instant_at (Clock := CK1) (S (tick (db w))) →
  instant_at (Clock := CK2) (S (S now')) < instant_at (Clock := CK2) (S now') + from_secs seconds
    ≤ instant_max (Clock := CK2) →
  let w1 := (run (dispatch_all (CK := CK1) (HO := HO1) (TP := TP1) (timed_requests k a b seconds)) w).2 in
  store (db w1) !! k = Some (Keyspace.fresh_string b) ∧
  content (aof_file config) (fs w1) = Some (log_of (timed_requests k a b seconds)) ∧
  (init_persistence (CK := CK2) (HO := HO2) (MP := MP2) (TP := TP2) config m' (fs w1) now' = Ok (w2, policy) →
   store (db w2) !! k = Some {| value := VStr (a +:+ b);
     expires_at := Some (instant_at (Clock := CK2) (S now') + from_secs seconds) |}).
Proof.
  intros Hon Hread Haf Hlogs Hpath Hempty Hs Hok Hover Hahead w1.
  destruct (timed_requests_run (CK := CK1) (HO := HO1) (TP := TP1) k a b seconds w Hs) as [Hst Hlog].
  { pose proof (instant_bound (Clock := CK1) (S (tick (db w)))). lia. }
  rewrite decide_True in Hst by done. split; [exact Hst|]. rewrite <- Hpath in Hempty.
  pose proof (run_appends (CK := CK1) (HO := HO1) (TP := TP1) af ""
    (timed_requests k a b seconds) w Haf Hlogs Hempty) as Hc.
  rewrite Hlog, Hpath in Hc. split; [exact Hc|]. intros Hinit.
  rewrite <- (sapp_nil_r (log_of _)) in Hc.
  destruct (init_replayed_log (CK := CK2) (HO := HO2) (MP := MP2) (TP := TP2) _ _ _ _ _ _ _ _
    Hon Hread Hc stops_empty Hok Hinit) as (w0 & _ & Htick & ->).
  destruct (timed_requests_run (CK := CK2) (HO := HO2) (TP := TP2) k a b seconds w0 Hs) as [Hst2 _];
    [rewrite Htick; lia|]. rewrite Htick, decide_False in Hst2 by lia. exact Hst2.
Qed.
End restart.
