(* ===== verification/Linearize.v ===== *)
(** Requests take effect one at a time.

    Connections interleave critical section by critical section, and a request is
    several: the store's, a second one when it finds a key expired, and the log's.
    [client] proves that each request nevertheless answers and changes the keyspace
    as if it had run alone at one moment between its arrival and its reply: the
    moment of its first section.  What its other sections do, and what the tasks of
    the server do on their own, is to write files and to let expired keys go
    ([lapses]). *)

From S2P Require Import Prelude Task RustInt RustStr RustF64 HashOrder Resp Clock Store PubSub.
From S2P Require Import FileSystem Aof Snapshot World Command Execute Session Config Server ReadOnly.
From S2P Require Import Recovery Connection.
From S2P Require Database Keyspace KeyOps Invariant.
From stdpp Require Import relations.
Local Open Scope Z_scope.

(** * Time goes forward *)

(** The clock is read, and never set. *)
Definition forward {A} (m : State DbState A) : Prop := ∀ s, (tick s ≤ tick (m s).2)%nat.

Section forward.
Context {CK : Clock} {HO : HashOrder} {OF : OrderedFloat}.

Lemma forward_ret {A} (a : A) : forward (mret a).
Proof. intros s. done. Qed.
Lemma forward_gets {A} (f : DbState → A) : forward (gets f).
Proof. intros s. done. Qed.
Lemma forward_set_store f : forward (set_store f).
Proof. intros s. done. Qed.
Lemma forward_now : forward now.
Proof. intros s. simpl. lia. Qed.

Lemma forward_bind {A B} (m : State DbState A) (k : A → State DbState B) :
  forward m → (∀ a, forward (k a)) → forward (x ← m; k x).
Proof.
  intros Hm Hk s. unfold mbind, state_bind. specialize (Hm s). destruct (m s) as [a s1]. simpl in Hm.
  etrans; [exact Hm|apply Hk].
Qed.

End forward.

#[export] Hint Resolve forward_ret forward_gets forward_set_store forward_now : rustkv.

(** Through the code of a section: the sequence of its statements, case by case. *)
Ltac forward_steps :=
  repeat match goal with
  | |- forward (mbind _ _) => apply forward_bind; [|intros ?]
  | |- forward (mret _) => apply forward_ret
  | |- forward (gets _) => apply forward_gets
  | |- forward (set_store _) => apply forward_set_store
  | |- forward now => apply forward_now
  | |- forward (let x := _ in _) => cbv zeta
  | |- forward (match ?x with _ => _ end) => destruct x
  end.

Section sections.
Context {CK : Clock} {HO : HashOrder} {OF : OrderedFloat}.

Lemma forward_is_expired e : forward (is_expired e).
Proof. unfold is_expired. forward_steps. Qed.

Lemma forward_insert_entry k e : forward (insert_entry k e).
Proof. apply forward_set_store. Qed.
Lemma forward_remove_key k : forward (remove_key k).
Proof. apply forward_set_store. Qed.
Lemma forward_put_value k v : forward (put_value k v).
Proof. apply forward_set_store. Qed.
Lemma forward_drop_if_empty k b : forward (Database.drop_if_empty k b).
Proof. unfold Database.drop_if_empty, remove_key. forward_steps. Qed.

Lemma forward_get_entry k : forward (get_entry k).
Proof. apply forward_gets. Qed.

Lemma forward_or_insert k e : forward (entry_or_insert k e).
Proof. unfold entry_or_insert, insert_entry. forward_steps. apply forward_get_entry. Qed.

Lemma forward_deadline_after seconds : forward (deadline_after seconds).
Proof. unfold deadline_after. forward_steps. Qed.

Lemma forward_key_expired k : forward (key_expired k).
Proof. unfold key_expired, get_entry. forward_steps. apply forward_is_expired. Qed.

Lemma forward_live_entry k : forward (live_entry k).
Proof.
  unfold live_entry, remove_key, get_entry. forward_steps. apply forward_key_expired.
Qed.

Lemma forward_evict_expired k : forward (evict_expired k).
Proof. unfold evict_expired, remove_key. forward_steps. apply forward_key_expired. Qed.

Lemma forward_entry_accessor {T} inject project (new : T) k :
  forward (entry_accessor inject project new k).
Proof.
  unfold entry_accessor. forward_steps; [apply forward_evict_expired|apply forward_or_insert].
Qed.

Lemma forward_deadline_of ttl : forward (Database.deadline_of ttl).
Proof. unfold Database.deadline_of. forward_steps. apply forward_deadline_after. Qed.

Lemma forward_for_each {A} (l : list A) body : (∀ x, forward (body x)) → forward (for_each l body).
Proof. intros H. induction l; cbn [for_each]; forward_steps; auto. Qed.

Lemma forward_for_fold {A B} (l : list A) (b : B) body :
  (∀ b x, forward (body b x)) → forward (for_fold l b body).
Proof. intros H. revert b. induction l; intros b; cbn [for_fold]; forward_steps; auto. Qed.

Lemma forward_filter {A} (p : A → State DbState bool) l :
  (∀ x, forward (p x)) → forward (filter_state p l).
Proof. intros H. induction l; cbn [filter_state]; forward_steps; auto. Qed.

Lemma forward_map {A B} (f : A → State DbState B) l :
  (∀ x, forward (f x)) → forward (map_state f l).
Proof. intros H. induction l; cbn [map_state]; forward_steps; auto. Qed.

Lemma forward_set_members k : forward (set_members_of k).
Proof. unfold set_members_of, get_entry. forward_steps. apply forward_is_expired. Qed.

Lemma forward_combine f ks acc : forward (Database.combine_sets f ks acc).
Proof.
  revert acc. induction ks as [|k ks IH]; intros acc; cbn [Database.combine_sets]; forward_steps.
  - apply forward_set_members.
  - apply IH.
Qed.

Lemma forward_is_live k : forward (Database.is_live k).
Proof. unfold Database.is_live, get_entry. forward_steps. apply forward_is_expired. Qed.
Lemma forward_read_string k : forward (Database.read_string k).
Proof. unfold Database.read_string, get_entry. forward_steps. apply forward_is_expired. Qed.

Lemma forward_live_entries : forward Database.live_entries.
Proof.
  unfold Database.live_entries. forward_steps. apply forward_filter. intros x. forward_steps.
  apply forward_is_expired.
Qed.
End sections.

#[export] Hint Resolve forward_insert_entry forward_remove_key forward_put_value
  forward_drop_if_empty forward_get_entry forward_or_insert forward_deadline_after
  forward_is_expired forward_key_expired forward_live_entry forward_evict_expired forward_is_live
  forward_read_string forward_deadline_of forward_set_members forward_combine forward_live_entries
  forward_for_each forward_for_fold forward_filter forward_map : rustkv.
#[export] Hint Extern 1 (forward (list_or_create _)) => apply forward_entry_accessor : rustkv.
#[export] Hint Extern 1 (forward (set_or_create _)) => apply forward_entry_accessor : rustkv.
#[export] Hint Extern 1 (forward (sorted_set_or_create _)) => apply forward_entry_accessor : rustkv.
#[export] Hint Extern 1 (forward (hash_or_create _)) => apply forward_entry_accessor : rustkv.

Section linearize.
Context {CK : Clock} {HO : HashOrder} {OF : OrderedFloat} {MP : Mpsc} {FS : FileSystem}
  {SD : Serde} {TP : Process}.

(** * What does not count *)

(** Time passes, and keys whose deadline is over may go. *)
Definition lapses (w w' : World) : Prop :=
  (tick (db w) ≤ tick (db w'))%nat ∧ only_lapses (store (db w)) (db w').

#[local] Instance lapses_refl : Reflexive lapses.
Proof. intros w. done. Qed.

#[local] Instance lapses_trans : Transitive lapses.
Proof.
  intros w1 w2 w3 [Ht1 [Hsub1 Hview1]] [Ht2 [Hsub2 Hview2]]. split; [lia|]. split; [by etrans|].
  pose proof (instant_mono _ _ Ht2) as Ht. unfold Keyspace.seen in *.
  rewrite Hview2, <- (view_twice _ _ (store (db w2)) Ht), Hview1. by apply view_twice.
Qed.

Lemma lapses_off_db w w' : db w' = db w → lapses w w'.
Proof. unfold lapses. by intros ->. Qed.

(** The same keys, with the same values, can be seen at [w]'s instant. *)
Definition agrees (w v : World) : Prop :=
  view (Keyspace.instant (db w)) (store (db v)) = Keyspace.seen (db w).

(** A task that has only its answer [a] to give. *)
Definition settled {A} (a : A) (t : Task World A) : Prop :=
  respects lapses t ∧ ensures (λ b, b = a) t.

Lemma settled_done {A} (a : A) : settled a (Done a).
Proof. split; by constructor. Qed.

(** What follows a request's first section in the code of [dispatch]: files. *)
Definition files_only {A} (t : Task World A) : Prop := respects (λ w w', db w' = db w) t.

Lemma files_only_lapses {A} (t : Task World A) : files_only t → respects lapses t.
Proof. apply respects_weaken. intros w w'. apply lapses_off_db. Qed.

Lemma files_only_run {A} (t : Task World A) w : files_only t → db (run t w).2 = db w.
Proof.
  revert w. induction t as [a|f IH] using Task_induction; intros w H; inversion H as [|? Hf]; subst;
    [done|]. simpl. specialize (Hf w) as [Hw Hrest]. specialize (IH w (f w).2 Hrest).
  destruct (f w) as [t' w']. simpl in *. by rewrite IH.
Qed.

Lemma files_only_atomically {A} (m : State World A) :
  (∀ w, db (m w).2 = db w) → files_only (atomically m).
Proof. intros Hm. by apply (respects_atomically (λ w w', db w' = db w)). Qed.

Lemma files_only_log tokens : files_only (log_write tokens).
Proof.
  apply respects_bind; [by apply files_only_atomically|]. intros p.
  destruct (replaying p); [constructor|]. destruct (aof p) as [a|]; [|constructor].
  apply respects_bind; [|constructor]. apply files_only_atomically. intros w. apply on_fs_db.
Qed.

(** * Requests with one moment *)

(** Either the task does nothing, or its first section decides: it answers, and
    leaves the keyspace, as the whole task run alone from there would. *)
Inductive atomic {A} : Task World A → Prop :=
| atomic_done a : atomic (Done a)
| atomic_section f :
    (∀ w, (tick (db w) ≤ tick (db (f w).2))%nat ∧
          settled (run (Critical f) w).1 (f w).1 ∧ agrees (f w).2 (run (Critical f) w).2) →
    atomic (Critical f).

Lemma atomic_files {A B} (t : Task World A) (k : A → Task World B) (reply : A → B) :
  atomic t → (∀ a, files_only (k a) ∧ ensures (λ b, b = reply a) (k a)) → atomic (x ← t; k x).
Proof.
  intros Ht Hk. destruct Ht as [a|f Hf].
  - change (atomic (k a)). destruct (Hk a) as [Hfiles Hans]. destruct (k a) as [b|f]; constructor.
    inversion Hfiles as [|? Hdb]; inversion Hans as [|? Hb]; subst.
    intros w. specialize (Hdb w) as [Hdb Hrest]. specialize (Hb w). simpl.
    pose proof (ensures_run _ _ (f w).2 Hb) as Hr. pose proof (files_only_run _ (f w).2 Hrest) as Hd.
    destruct (f w) as [t' w']. simpl in *. rewrite Hr. split_and!.
    + by rewrite Hdb.
    + split; [by apply files_only_lapses|done].
    + unfold agrees. by rewrite Hd.
  - unfold mbind, task_mbind. cbn [task_bind]. constructor. intros w.
    specialize (Hf w) as (Htick & [Hl He] & Hagree).
    pose proof (run_bind (Critical f) k w) as Hrun. unfold mbind, task_mbind in Hrun.
    cbn [task_bind] in Hrun. rewrite Hrun. clear Hrun.
    destruct (run (Critical f) w) as [a v] eqn:E. destruct (f w) as [t' u] eqn:F. cbn [fst snd] in *.
    destruct (Hk a) as [Hfiles Hans].
    pose proof (ensures_run _ _ v Hans) as Hr. pose proof (files_only_run _ v Hfiles) as Hd.
    destruct (run (k a) v) as [b v'] eqn:G. cbn [fst snd] in *. subst b.
    split_and!; [done| |unfold agrees; by rewrite Hd]. split.
    + apply (respects_bind lapses t' k); [done|]. intros a'. by apply files_only_lapses, Hk.
    + eapply (ensures_bind _ _ t' k); [exact He|]. by intros a' ->.
Qed.

Lemma atomic_on_db {A} (m : State DbState A) : forward m → atomic (on_db (atomically m)).
Proof.
  intros Hm. constructor. intros w. specialize (Hm (db w)). cbn. destruct (m (db w)) as [a s].
  simpl in *. split_and!; [done|apply settled_done|done].
Qed.

Lemma lapses_evict k w : lapses w (set_db (Keyspace.touch k (db w)) w).
Proof. split; [apply Keyspace.touch_tick|apply lapses_touch, lapses_start]. Qed.

(** A read of an expired key has answered when it comes to evict it. *)
Lemma atomic_read {A} k (absent : A) read :
  (∀ e, forward (read e)) → atomic (on_db (read_entry k absent read)).
Proof.
  intros Hread. constructor. intros w. cbn. unfold mbind, state_bind, get_entry, gets.
  destruct (store (db w) !! k) as [e|]; [|split_and!; [done|apply settled_done|done]].
  pose proof (forward_is_expired e (db w)) as Ht.
  destruct (is_expired e (db w)) as [[] s]; simpl in *.
  - rewrite Keyspace.evict_expired_eq. simpl. split_and!; [done| |apply Keyspace.touch_view].
    split; constructor; intros w'; cbn; unfold mbind, state_bind;
      rewrite Keyspace.evict_expired_eq; simpl; [|by constructor].
    split; [apply lapses_evict|constructor].
  - specialize (Hread e s). destruct (read e s) as [a s']. simpl in *.
    split_and!; [lia|apply settled_done|done].
Qed.

Lemma atomic_answer {A} (reply : A → string) (op : Task DbState A) :
  atomic (on_db op) → atomic (answer reply op).
Proof. intros H. apply (atomic_files _ _ reply H). intros a. split; by constructor. Qed.

(** The requests about the keyspace. [INFO] and [SAVE] look at the store once and at
    other things besides; [PUBLISH] does not look at it. *)
Definition about_keys (c : Command) : Prop :=
  match c with
  | Info | Save | Publish _ _ => False
  | _ => True
  end.

Definition request_about_keys (tokens : list string) : Prop :=
  ∀ c, parse tokens = Ok c → about_keys c.

Ltac section_by := apply atomic_on_db; forward_steps; auto with rustkv.
Ltac read_by := apply atomic_read; intros ?; apply forward_ret.

Lemma atomic_execute c : about_keys c → atomic (execute c).
Proof.
  intros Hc. destruct c; try done; cbn [execute]; try (destruct with_scores);
    try (by constructor); apply atomic_answer; try (by read_by); try (by section_by).
  - apply atomic_on_db, forward_for_fold. intros n k. forward_steps; auto with rustkv.
  - apply atomic_read. intros e. forward_steps.
  - apply atomic_on_db, forward_for_each. intros [k v]. auto with rustkv.
Qed.

Lemma atomic_dispatch tokens : request_about_keys tokens → atomic (dispatch tokens).
Proof.
  intros Hok. unfold dispatch. destruct tokens as [|t ts]; [constructor|].
  destruct (parse (t :: ts)) as [c|e] eqn:Hp; [|constructor].
  assert (Hlog : ∀ (b : bool) (reply : string) entry,
    files_only ((if b then log_write entry else mret tt) ;; mret reply) ∧
    ensures (λ a, a = reply) ((if b then log_write entry else mret tt) ;; mret reply)).
  { intros b reply entry. split.
    - apply respects_bind; [|constructor]. destruct b; [apply files_only_log|constructor].
    - eapply ensures_bind; [apply ensures_true|]. by constructor. }
  assert (Hgen : atomic (reply ← execute c;
    (if is_write c && negb (starts_with "-"%char reply) then log_write (t :: ts) else mret tt) ;;
    mret reply)).
  { apply (atomic_files _ _ (λ reply, reply)); [apply atomic_execute; by apply Hok|]. intros reply. apply Hlog. }
  destruct c; try exact Hgen. unfold dispatch_spop.
  apply (atomic_files _ _ reply_optional).
  { apply atomic_on_db. forward_steps; auto with rustkv. }
  intros popped. destruct popped as [[m|]|e]; [apply (Hlog true)|apply (Hlog false _ [])..].
Qed.

(** * Clients *)

(** A connection's requests, one after the other: the replies so far, and those to
    come. *)
Fixpoint serve_all (replies : list string) (requests : list (list string))
    : Task World (list string) :=
  match requests with
  | [] => mret replies
  | tokens :: requests => reply ← dispatch tokens; serve_all (replies ++ [reply]) requests
  end.

(** What a client's task still has to do: [requests] have not had their moment, and
    the replies to those that have had it are [replies]. *)
Inductive client : list string → list (list string) → Task World (list string) → Prop :=
| client_done replies : client replies [] (Done replies)
| client_rest replies requests f :
    (∀ w, lapses w (f w).2 ∧ client replies requests (f w).1) →
    client replies requests (Critical f)
| client_idle replies tokens requests reply t :
    dispatch tokens = Done reply → client (replies ++ [reply]) requests t →
    client replies (tokens :: requests) t
| client_moment replies tokens requests f :
    (∀ w, (tick (db w) ≤ tick (db (f w).2))%nat ∧
          agrees (f w).2 (run (dispatch tokens) w).2 ∧
          client (replies ++ [(run (dispatch tokens) w).1]) requests (f w).1) →
    client replies (tokens :: requests) (Critical f).

Lemma client_settled {A} (a : A) (t : Task World A) k replies requests :
  settled a t → client replies requests (k a) → client replies requests (x ← t; k x).
Proof.
  intros [Hl He] Hk. induction t as [b|f IH] using Task_induction.
  - inversion He; subst. exact Hk.
  - inversion Hl as [|? Hlf]; inversion He as [|? Hef]; subst. unfold mbind, task_mbind in *.
    cbn [task_bind]. constructor. intros w. specialize (Hlf w) as [Hw Hrest].
    specialize (IH w Hrest (Hef w)). destruct (f w) as [t' w']. done.
Qed.

Lemma client_serve_all requests replies :
  Forall request_about_keys requests → client replies requests (serve_all replies requests).
Proof.
  intros H. revert replies. induction H as [|tokens requests Hok _ IH]; intros replies; [constructor|].
  cbn [serve_all]. pose proof (atomic_dispatch tokens Hok) as Hat.
  destruct (dispatch tokens) as [reply|f] eqn:E.
  - eapply client_idle; [exact E|]. apply IH.
  - inversion Hat as [|? Hf]; subst. unfold mbind, task_mbind. cbn [task_bind].
    apply client_moment. intros w. rewrite E. specialize (Hf w) as (Ht & Hs & Ha).
    set (reply := (run (Critical f) w).1) in *. clearbody reply.
    destruct (f w) as [t' u] eqn:F. split_and!; [done|done|]. cbn [fst].
    by eapply (client_settled reply t' (λ reply, serve_all (replies ++ [reply]) requests)).
Qed.

(** A task of the server's own, which serves nobody. *)
Definition on_its_own {A} (t : Task World A) : Task World (list string) := t ;; mret [].

Lemma client_background {A} (t : Task World A) : respects lapses t → client [] [] (on_its_own t).
Proof.
  unfold on_its_own. intros H. induction t as [a|f IH] using Task_induction; [constructor|].
  inversion H as [|? Hf]; subst. unfold mbind, task_mbind in *. cbn [task_bind].
  constructor. intros w. specialize (Hf w) as [Hw Hrest]. specialize (IH w Hrest).
  by destruct (f w) as [t' w'].
Qed.

(** * The order of the moments *)

(** Client, request, reply. *)
Definition Event : Type := nat * list string * string.

(** The requests of client [i], with their replies. *)
Definition of_client (i : nat) (h : list Event) : list (list string * string) :=
  omap (λ '(j, tokens, reply), if decide (j = i) then Some (tokens, reply) else None) h.

Definition turn (i : nat) (requests : list (list string)) (replies : list string) : list Event :=
  zip_with (λ tokens reply, (i, tokens, reply)) requests replies.

Lemma of_client_app i h h' : of_client i (h ++ h') = of_client i h ++ of_client i h'.
Proof. unfold of_client. apply omap_app. Qed.

Lemma of_client_turn i requests replies :
  of_client i (turn i requests replies) = zip requests replies.
Proof.
  revert replies. induction requests as [|q qs IH]; intros [|r rs]; [done..|].
  cbn. rewrite decide_True by done. f_equal. apply IH.
Qed.

Lemma of_client_turn_ne i j requests replies :
  i ≠ j → of_client j (turn i requests replies) = [].
Proof.
  intros Hij. revert replies. induction requests as [|q qs IH]; intros [|r rs]; [done..|].
  cbn. rewrite decide_False by done. apply IH.
Qed.

(** From each event's state the request runs alone; the next event happens where it
    leaves the keyspace, once some time has passed. *)
Inductive moments : World → list Event → World → Prop :=
| moments_none w w' : lapses w w' → moments w [] w'
| moments_next w w1 u i tokens h w' :
    lapses w w1 → (tick (db w1) ≤ tick (db u))%nat →
    agrees u (run (dispatch tokens) w1).2 → moments u h w' →
    moments w ((i, tokens, (run (dispatch tokens) w1).1) :: h) w'.

Lemma moments_lapses w w1 h w' : lapses w w1 → moments w1 h w' → moments w h w'.
Proof. intros Hw. destruct 1; econstructor; [by etrans|by etrans|done..]. Qed.

Lemma moments_idle w i tokens reply h w' :
  dispatch tokens = Done reply → moments w h w' → moments w ((i, tokens, reply) :: h) w'.
Proof.
  intros E H. replace reply with (run (dispatch tokens) w).1 by by rewrite E.
  econstructor; [reflexivity|reflexivity| |exact H]. by rewrite E.
Qed.

(** A section of a client: the requests that have their moment in it. *)
Lemma client_section replies requests f w t u :
  client replies requests (Critical f) → f w = (t, u) →
  ∃ now_served now rest, requests = now_served ++ rest ∧ length now = length now_served ∧
    client (replies ++ now) rest t ∧
    ∀ i h w', moments u h w' → moments w (turn i now_served now ++ h) w'.
Proof.
  intros H Hf. remember (Critical f) as c eqn:Hc.
  induction H as [|replies requests f' Hrest|replies q requests reply c E Hrest IH|replies q requests f' Hm];
    try done.
  - injection Hc as ->. exists [], [], requests. rewrite app_nil_r. specialize (Hrest w) as [Hw Ht].
    rewrite Hf in Hw, Ht. split_and!; [done..|]. intros i h w'. by apply moments_lapses.
  - destruct (IH Hc) as (qs & rs & rest & -> & Hlen & Ht & Hmom). exists (q :: qs), (reply :: rs), rest.
    split_and!; [done|by simpl; f_equal|by rewrite cons_middle, app_assoc|].
    intros i h w' Hh. cbn. apply moments_idle; [done|]. by apply Hmom.
  - injection Hc as ->. exists [q], [(run (dispatch q) w).1], requests. specialize (Hm w).
    rewrite Hf in Hm. destruct Hm as (Ht & Ha & Hc). split_and!; [done..|].
    intros i h w' Hh. cbn. by econstructor.
Qed.

Lemma client_end replies requests out :
  client replies requests (Done out) →
  ∃ last, length last = length requests ∧ out = replies ++ last ∧
    ∀ i w h w', moments w h w' → moments w (turn i requests last ++ h) w'.
Proof.
  intros H. remember (Done out) as c eqn:Hc.
  induction H as [replies| |replies q requests reply c E Hrest IH|]; try done.
  - injection Hc as ->. exists []. by rewrite app_nil_r.
  - destruct (IH Hc) as (rs & Hlen & -> & Hmom). exists (reply :: rs).
    split_and!; [by simpl; f_equal|by rewrite <- app_assoc|].
    intros i w h w' Hh. cbn. apply moments_idle; [done|]. by apply Hmom.
Qed.

(** What is known of each client of a pool: the replies so far, the requests left. *)
Abbreviation Clients := (list (list string * list (list string))).
Definition serving (cs : Clients) (ts : list (Task World (list string))) : Prop :=
  Forall2 (λ c t, client c.1 c.2 t) cs ts.

(** In the end, each client has its replies, as the history has them. *)
Definition finished (o : nat) (cs : Clients) (ts : list (Task World (list string)))
    (h : list Event) : Prop :=
  ∀ i replies requests, cs !! i = Some (replies, requests) →
    ∃ last, ts !! i = Some (Done (replies ++ last)) ∧ length last = length requests ∧
      of_client (o + i) h = zip requests last.

Lemma serving_end cs ts o :
  serving cs ts → Forall (λ t, is_done t = true) ts →
  ∃ h, finished o cs ts h ∧ (∀ i, (i < o)%nat → of_client i h = []) ∧
    ∀ w w' h', moments w h' w' → moments w (h ++ h') w'.
Proof.
  intros H. revert o. induction H as [|[replies requests] t cs ts Hc _ IH]; intros o Hd.
  { exists []. split_and!; [|done..]. intros i. done. }
  inversion Hd as [|? ? Ht Hds]; subst. destruct t as [out|f]; [|done].
  destruct (client_end _ _ _ Hc) as (last & Hlen & -> & Hmom).
  destruct (IH (S o) Hds) as (h & Hfin & Hbelow & Hh). exists (turn o requests last ++ h). split_and!.
  - intros [|i] rs qs Hi; simplify_eq/=.
    + exists last. rewrite Nat.add_0_r, of_client_app, of_client_turn, Hbelow by lia.
      by rewrite app_nil_r.
    + destruct (Hfin i rs qs Hi) as (l & Hl & Hll & Hz). exists l.
      rewrite of_client_app, of_client_turn_ne by lia. by rewrite Nat.add_succ_r.
  - intros i Hi. rewrite of_client_app, of_client_turn_ne, Hbelow by lia. done.
  - intros w w' h' Hw. rewrite <- app_assoc. by apply Hmom, Hh.
Qed.

Lemma finished_step cs ts i replies requests qs rs rest h :
  cs !! i = Some (replies, requests) → requests = qs ++ rest → length rs = length qs →
  finished 0 (<[i := (replies ++ rs, rest)]> cs) ts h →
  finished 0 cs ts (turn i qs rs ++ h).
Proof.
  intros Hi -> Hlen Hfin j replies' requests' Hj. simpl. rewrite of_client_app.
  destruct (decide (i = j)) as [<-|Hij].
  - rewrite Hi in Hj. injection Hj as <- <-. destruct (Hfin i (replies ++ rs) rest) as (l & Hl & Hll & Hz).
    { apply list_lookup_insert_eq. by eapply lookup_lt_Some. }
    exists (rs ++ l). rewrite app_assoc, !length_app, of_client_turn. simpl in Hz. rewrite Hz.
    split_and!; [done|lia|]. symmetry. by apply zip_with_app.
  - rewrite of_client_turn_ne by done. apply Hfin. by rewrite list_lookup_insert_ne.
Qed.

Lemma serving_linear p p' cs :
  rtc step p p' → nf step p' → serving cs p.2 →
  ∃ h, moments p.1 h p'.1 ∧ finished 0 cs p'.2 h.
Proof.
  intros Hsteps Hnf. revert cs. induction Hsteps as [p|p q p' Hstep _ IH]; intros cs Hcs.
  - destruct (serving_end cs p.2 0 Hcs (step_stuck _ Hnf)) as (h & Hfin & _ & Hh). exists h.
    split; [|done]. rewrite <- (app_nil_r h). apply Hh. by constructor.
  - destruct Hstep as [w ts i f t u Hi Hf]. simpl in *.
    destruct (Forall2_lookup_r _ _ _ _ _ Hcs Hi) as ([replies requests] & Hci & Hc).
    destruct (client_section _ _ _ _ _ _ Hc Hf) as (qs & rs & rest & Hreq & Hlen & Ht & Hmom).
    destruct (IH Hnf (<[i := (replies ++ rs, rest)]> cs)) as (h & Hh & Hfin).
    { by apply Forall2_insert. }
    exists (turn i qs rs ++ h). split; [by apply Hmom|]. by eapply finished_step.
Qed.
(** * What the server does on its own *)

Lemma lapses_section {A} (m : State DbState A) :
  (∀ s, (tick s ≤ tick (m s).2)%nat ∧ only_lapses (store s) (m s).2) →
  respects lapses (on_db (atomically m)).
Proof.
  intros Hm. constructor. intros w. cbn. specialize (Hm (db w)). destruct (m (db w)) as [a s].
  split; [done|constructor].
Qed.

Lemma lapses_snapshot_section : respects lapses (on_db (atomically snapshot)).
Proof.
  apply lapses_section. intros s. pose proof (snapshot_spec s) as H. destruct (snapshot s) as [a s'].
  simpl. destruct H as (Hst & Ht & _). split; [done|]. by eapply lapses_same; [apply lapses_start| |].
Qed.

Lemma lapses_sweeper ticks : respects lapses (rounds ticks sweeper).
Proof.
  apply respects_rounds, respects_bind; [|constructor].
  apply lapses_section. intros s. pose proof (KeyOps.sweep_lapses s) as H.
  unfold Database.sweep_expired in H. rewrite run_atomically in H. by destruct H as (? & ? & ? & _).
Qed.

Lemma lapses_flusher ticks : respects lapses (rounds ticks aof_flusher).
Proof.
  apply respects_rounds, respects_bind; [|constructor].
  apply files_only_lapses, respects_bind; [by apply files_only_atomically|]. intros p.
  destruct (aof p); [|constructor]. apply files_only_atomically. intros w. apply on_fs_db.
Qed.

Lemma lapses_background_save : respects lapses save.
Proof.
  apply respects_bind; [by apply files_only_lapses, files_only_atomically|]. intros p.
  destruct (snapshot_path p) as [path|]; [|constructor].
  apply respects_bind; [apply lapses_snapshot_section|]. intros snap.
  destruct (to_vec_pretty snap) as [json|e]; [|constructor].
  apply files_only_lapses, respects_bind; [by apply files_only_atomically|]. intros n.
  apply respects_bind; [apply files_only_atomically; intros w; apply on_fs_db|]. intros [u|e]; [|constructor].
  apply files_only_atomically. intros w. apply on_fs_db.
Qed.

(** * One request at a time *)

(** The requests of the history, run one after the other. [since] is the clock at the
    previous one, and [v] what it left; each runs where the same keys can be seen,
    some time later. *)
Inductive one_at_a_time : nat → World → list Event → World → Prop :=
| none_left since v w' :
    (since ≤ tick (db w'))%nat →
    Keyspace.seen (db w') = view (Keyspace.instant (db w')) (store (db v)) →
    one_at_a_time since v [] w'
| next_request since v w1 i tokens reply w2 h w' :
    (since ≤ tick (db w1))%nat →
    Keyspace.seen (db w1) = view (Keyspace.instant (db w1)) (store (db v)) →
    run (dispatch tokens) w1 = (reply, w2) →
    one_at_a_time (tick (db w1)) w2 h w' →
    one_at_a_time since v ((i, tokens, reply) :: h) w'.

Lemma agrees_lapses u v w :
  agrees u v → lapses u w →
  Keyspace.seen (db w) = view (Keyspace.instant (db w)) (store (db v)).
Proof.
  unfold agrees. intros Ha [Ht [_ Hview]]. apply instant_mono in Ht.
  rewrite Hview, <- (view_twice _ _ (store (db u)) Ht). unfold Keyspace.seen in Ha.
  rewrite <- Ha. by apply view_twice.
Qed.

Lemma moments_ordered u h w' since v :
  moments u h w' → agrees u v → (since ≤ tick (db u))%nat → one_at_a_time since v h w'.
Proof.
  intros H. revert since v. induction H as [u w' Hl|u w1 u1 i tokens h w' Hl Ht Ha _ IH];
    intros since v Hv Hsince; pose proof (agrees_lapses _ _ _ Hv Hl) as Hseen; destruct Hl as [Htick _].
  - constructor; [lia|done].
  - destruct (run (dispatch tokens) w1) as [reply w2] eqn:E. simpl in *.
    apply (next_request _ _ w1 _ _ _ w2); [lia|done|exact E|]. by apply IH.
Qed.

(** The pool of some clients and some tasks of the server. *)
Definition clients_pool {A} (clients : list (list (list string))) (background : list (Task World A))
    : list (Task World (list string)) :=
  (serve_all [] <$> clients) ++ (on_its_own <$> background).

Lemma serving_pool {A} clients (background : list (Task World A)) :
  Forall (Forall request_about_keys) clients → Forall (respects lapses) background →
  serving ((pair [] <$> clients) ++ ((λ _, ([], [])) <$> background)) (clients_pool clients background).
Proof.
  intros Hc Hb. apply Forall2_app; apply Forall2_fmap_2, Forall_Forall2_diag.
  - eapply Forall_impl; [exact Hc|]. intros requests. apply client_serve_all.
  - eapply Forall_impl; [exact Hb|]. apply client_background.
Qed.

Lemma pool_linear {A} clients (background : list (Task World A)) w p' :
  Forall (Forall request_about_keys) clients → Forall (respects lapses) background →
  rtc step (w, clients_pool clients background) p' → nf step p' →
  ∃ h, one_at_a_time (tick (db w)) w h p'.1 ∧
    ∀ i requests, clients !! i = Some requests →
      ∃ replies, p'.2 !! i = Some (Done replies) ∧ length replies = length requests ∧
        of_client i h = zip requests replies.
Proof.
  intros Hc Hb Hsteps Hnf.
  destruct (serving_linear _ _ _ Hsteps Hnf (serving_pool _ _ Hc Hb)) as (h & Hh & Hfin).
  exists h. split; [by eapply moments_ordered|]. intros i requests Hi. apply (Hfin i []).
  apply lookup_app_l_Some. by rewrite list_lookup_fmap, Hi.
Qed.
End linearize.
