(* ===== verification/Concrete.v ===== *)
(** A concrete environment: an instance of each interface the model leaves open,
    for examples.

    The clock stands still, hash tables iterate in one fixed order, scores are
    compared as [ordered_float] documents, mailboxes are numbered, the disk is in
    memory, and snapshots are written as RESP frames. *)

From S2P Require Import Prelude Task RustInt RustStr RustF64 HashOrder Resp Clock Store PubSub.
From S2P Require Import FileSystem Aof Snapshot World Command Execute Session Config Server Durability.
From stdpp Require Import pretty.
Local Open Scope Z_scope.

(** * A serialiser *)

Definition frame_of_pairs (l : list (string * string)) : list frame :=
  (λ p, FArray [FBulk p.1; FBulk p.2]) <$> l.

Definition frame_of_value (v : SerValue) : frame :=
  match v with
  | SStr s => FArray [FInt 0; FBulk s]
  | SList l => FArray [FInt 1; FArray (FBulk <$> l)]
  | SSet l => FArray [FInt 2; FArray (FBulk <$> l)]
  | SZSet l => FArray [FInt 3; FArray (frame_of_pairs l)]
  | SHash l => FArray [FInt 4; FArray (frame_of_pairs l)]
  end.

Definition frame_of_entry (e : SnapshotEntry) : frame :=
  FArray [FBulk (entry_key e); from_option FInt FNull (ttl_secs e); frame_of_value (ser_value e)].

Definition bulk_of (f : frame) : option string := match f with FBulk s => Some s | _ => None end.
Definition pair_of (f : frame) : option (string * string) :=
  match f with FArray [FBulk a; FBulk b] => Some (a, b) | _ => None end.

Definition value_of_frame (f : frame) : option SerValue :=
  match f with
  | FArray [FInt 0; FBulk s] => Some (SStr s)
  | FArray [FInt 1; FArray l] => SList <$> mapM bulk_of l
  | FArray [FInt 2; FArray l] => SSet <$> mapM bulk_of l
  | FArray [FInt 3; FArray l] => SZSet <$> mapM pair_of l
  | FArray [FInt 4; FArray l] => SHash <$> mapM pair_of l
  | _ => None
  end.

Definition entry_of_frame (f : frame) : option SnapshotEntry :=
  match f with
  | FArray [FBulk k; t; v] =>
      v ← value_of_frame v;
      match t with
      | FNull => Some {| entry_key := k; ttl_secs := None; ser_value := v |}
      | FInt n => Some {| entry_key := k; ttl_secs := Some n; ser_value := v |}
      | _ => None
      end
  | _ => None
  end.

Lemma mapM_bulks l : mapM bulk_of (FBulk <$> l) = Some l.
Proof. induction l as [|x l IH]; [done|]. rewrite fmap_cons. cbn [mapM bulk_of]. by rewrite IH. Qed.

Lemma mapM_pairs l : mapM pair_of (frame_of_pairs l) = Some l.
Proof. induction l as [|[a b] l IH]; [done|].
  unfold frame_of_pairs in *. rewrite fmap_cons. cbn [mapM pair_of]. by rewrite IH.
Qed.

Lemma value_of_frame_of v : value_of_frame (frame_of_value v) = Some v.
Proof. destruct v; unfold frame_of_value, value_of_frame; by rewrite ?mapM_bulks, ?mapM_pairs. Qed.

Lemma entry_of_frame_of e : entry_of_frame (frame_of_entry e) = Some e.
Proof.
  destruct e as [k [n|] v]; unfold frame_of_entry, entry_of_frame; cbn [entry_key ttl_secs ser_value from_option];
    by rewrite value_of_frame_of.
Qed.

Definition ttl_fits (e : SnapshotEntry) : Prop := from_option in_i64 True (ttl_secs e).
#[export] Instance ttl_fits_dec e : Decision (ttl_fits e).
Proof. unfold ttl_fits. destruct (ttl_secs e); apply _. Defined.

Lemma frame_ok_pairs l : Forall frame_ok (frame_of_pairs l).
Proof. apply Forall_fmap, Forall_true. intros [a b]. by simpl. Qed.

Lemma tagged_ok n f : 0 ≤ n ≤ 4 → frame_ok f → frame_ok (FArray [FInt n; f]).
Proof.
  intros Hn Hf. apply frame_ok_array, Forall_cons. split; [|by apply Forall_singleton].
  simpl. unfold in_i64, i64_min, i64_max. lia.
Qed.

Lemma frame_of_value_ok v : frame_ok (frame_of_value v).
Proof.
  destruct v; apply tagged_ok; try lia; try done; apply frame_ok_array;
    auto using bulks_ok, frame_ok_pairs.
Qed.

Lemma frame_of_entry_ok e : ttl_fits e → frame_ok (frame_of_entry e).
Proof.
  destruct e as [k t v]. intros Ht. apply frame_ok_array. constructor; [done|].
  constructor; [by destruct t|]. constructor; [apply frame_of_value_ok|constructor].
Qed.

Lemma depth_items l n : Forall (λ f, depth f ≤ n)%nat l → (depth (FArray l) ≤ S n)%nat.
Proof.
  intros H. simpl. apply le_n_S. induction H as [|f l Hf _ IH]; simpl; lia.
Qed.

Lemma depth_tagged n f k : (depth f ≤ S k)%nat → (depth (FArray [FInt n; f]) ≤ S (S k))%nat.
Proof. intros H. apply depth_items. apply Forall_cons. split; [simpl; lia|by apply Forall_singleton]. Qed.

Lemma depth_bulks l : (depth (FArray (FBulk <$> l)) ≤ 2)%nat.
Proof. apply depth_items, Forall_fmap, Forall_true. intros x. simpl. lia. Qed.

Lemma depth_pairs l : (depth (FArray (frame_of_pairs l)) ≤ 3)%nat.
Proof. apply depth_items, Forall_fmap, Forall_true. intros x. simpl. lia. Qed.

Lemma depth_value v : (depth (frame_of_value v) ≤ 4)%nat.
Proof.
  destruct v; apply depth_tagged; try apply depth_pairs;
    try (etrans; [apply depth_bulks|lia]). simpl. lia.
Qed.

Lemma depth_entry e : (depth (frame_of_entry e) ≤ 5)%nat.
Proof.
  apply depth_items. apply Forall_cons. split; [simpl; lia|]. apply Forall_cons.
  split; [destruct (ttl_secs e); simpl; lia|]. apply Forall_singleton, depth_value.
Qed.

Definition frame_of_snapshot (s : Snapshot) : frame := FArray (frame_of_entry <$> entries s).

Definition snapshot_of_frame (f : frame) : option Snapshot :=
  match f with
  | FArray l => es ← mapM entry_of_frame l; Some {| entries := es |}
  | _ => None
  end.

Lemma snapshot_of_frame_of s : snapshot_of_frame (frame_of_snapshot s) = Some s.
Proof.
  destruct s as [es]. unfold frame_of_snapshot, snapshot_of_frame. cbn [entries].
  assert (mapM entry_of_frame (frame_of_entry <$> es) = Some es) as ->; [|done].
  induction es as [|e es IH]; [done|]. rewrite fmap_cons. cbn [mapM].
  by rewrite entry_of_frame_of, IH.
Qed.

Definition resp_serde : Serde.
Proof.
  refine {|
    to_vec_pretty s :=
      if decide (Forall ttl_fits (entries s)) then Ok (encode (frame_of_snapshot s))
      else Err "number out of range";
    from_slice b :=
      match decode 6 b with
      | Some (f, _) => ok_or (snapshot_of_frame f) "not a snapshot"
      | None => Err "not a frame"
      end
  |}.
  intros s json. destruct (decide (Forall ttl_fits (entries s))) as [Hs|]; [|done].
  intros Heq. assert (json = encode (frame_of_snapshot s) +:+ "") as -> by (rewrite sapp_nil_r; congruence).
  rewrite decode_encode.
  - by rewrite snapshot_of_frame_of.
  - apply frame_ok_array, Forall_fmap. eapply Forall_impl; [exact Hs|]. apply frame_of_entry_ok.
  - apply depth_items, Forall_fmap, Forall_true. intros e. apply depth_entry.
Defined.

(** * The process *)

Definition process_7 : Process := {| process_id := 7 |}.

#[export] Existing Instances string_read still_clock total_order counted_channels memory_fs resp_serde
  process_7.

(** * Servers *)

Definition sender (n : nat) : Sender := n.
Definition no_mail : Mail := [] : list (option (list string)).
Definition no_files : Fs := ∅ : gmap string string.

Lemma memory_readable path : readable path.
Proof. intros f b H. cbn in H |- *. by rewrite H. Defined.

(** A server without persistence that holds [st]. *)
Definition fresh_world (st : Store) : World :=
  set_db {| store := st; tick := 0 |} (with_persistence 0 None None no_mail no_files 0).

(** A server with a log and a snapshot path, just started. *)
Definition sample_aof : Aof := {| file := "log.aof" : File; policy := Always |}.
Definition log_file (log : string) : Fs := {["log.aof" := log]} : gmap string string.
Definition logging_world : World :=
  with_persistence 0 (Some "dump.json") (Some sample_aof) no_mail (log_file "") 0.

Definition sample_config : Config :=
  {| host := "127.0.0.1"; port := 7335; log_level := "info"; sweep_secs := 0;
     snapshot_file := "dump.json"; appendonly := true; appendfsync := "Always";
     aof_file := "log.aof" |}.

(** Writes, a removal of an arbitrary member, a command that fails and a read. *)
Definition sample_requests : list (list string) :=
  [["SET"; "k"; "41"]; ["SADD"; "s"; "a"; "b"]; ["SPOP"; "s"]; ["INCR"; "s"]; ["GET"; "k"];
   ["INCR"; "k"]].
