(* ===== verification/Tests.v ===== *)
(** The unit tests of the program, run on the model.

    Every test of the repository's [mod tests] is a definition of the same name, with
    its steps and assertions in the order of the source, and [unit_tests_pass] says that
    the model passes them all.  A test starts from [Database::new()]; the tests over a
    socket give the loop of a connection the requests that the reader task reads from
    the bytes the test sends. *)

From S2P Require Import Prelude Task RustInt RustStr RustF64 HashOrder Resp Clock Store PubSub.
From S2P Require Import FileSystem Aof Snapshot World Command Execute Session Config Server.
From S2P Require Import Concrete.
From S2P Require Database Keyspace RList RSet RHash RSortedSet.
Local Open Scope Z_scope.

(** A test is its steps in order; each tells whether its assertion holds. *)
Definition Test : Type := list (Task World bool).

Fixpoint passes (test : Test) (w : World) : bool :=
  match test with
  | [] => true
  | t :: test => let '(ok, w) := run t w in ok && passes test w
  end.

Definition new_db : World := fresh_world ∅.

(** A step without an assertion, [assert!] and [assert_eq!]. *)
Definition does {A} (t : Task World A) : Task World bool := t ;; mret true.
Definition assert {A} (t : Task World A) (holds : A → bool) : Task World bool :=
  x ← t; mret (holds x).
Definition assert_eq {A} `{EqDecision A} (t : Task World A) (expected : A) : Task World bool :=
  assert t (λ x, bool_decide (x = expected)).
(** [assert!] on a value of the test itself. *)
Definition check (b : bool) : Task World bool := mret b.

(** A text of lines, each with its [\r\n]. *)
Definition lines (l : list string) : string := concat_all ((λ s, s +:+ CRLF) <$> l).
(** The lines of a text, each with its end ([read_line] until the end of the text). *)
Fixpoint read_lines (fuel : nat) (text : string) : list string :=
  match fuel with
  | O => []
  | S fuel =>
      let '(line, rest) := split_line text in
      if decide (line = "") then [] else line :: read_lines fuel rest
  end.
Definition contains (needle text : string) : bool :=
  bool_decide (is_Some (String.index 0 needle text)).

(** * [command/mod.rs] *)

(** [handle]: inline input. *)
Definition handle (input : string) : Task World string := dispatch (split_whitespace input).

(** [assert_eq!(handle(input, &db).await, ..)] and [assert!(handle(..).starts_with(..))]. *)
Definition replies (input : string) (expected : list string) : Task World bool :=
  assert_eq (handle input) (lines expected).
Definition starts (input prefix : string) : Task World bool :=
  assert (handle input) (String.prefix prefix).
Definition sends (input : string) : Task World bool := does (handle input).

(** On a database with a log. The file is read at the end. *)
Definition spop_is_logged_to_the_aof_as_a_deterministic_srem : bool :=
  let w := (run (handle "SADD s a b c") logging_world).2 in
  let '(popped, w) := run (handle "SPOP s") w in
  let member := trim_end (default "" (read_lines 3 popped !! 1%nat)) in
  let logged := default "" (content "log.aof" (fs (run sync_aof w).2)) in
  negb (contains "SPOP" logged) && contains "SREM" logged && contains member logged.

Definition set_and_get_roundtrip : Test :=
  [replies "SET name radley" ["+OK"];
   replies "GET name" ["$6"; "radley"];
   replies "GET missing" ["$-1"]].

Definition command_names_are_case_insensitive : Test :=
  [replies "set k v" ["+OK"];
   replies "Get k" ["$1"; "v"]].

Definition del_returns_an_integer_reply : Test :=
  [sends "SET k v";
   replies "DEL k" [":1"];
   replies "DEL k" [":0"]].

Definition lrange_uses_redis_argument_order : Test :=
  ((λ value, sends ("RPUSH l " +:+ value)) <$> ["a"; "b"; "c"]) ++
  [replies "LRANGE l 0 -1" ["*3"; "$1"; "a"; "$1"; "b"; "$1"; "c"]].

Definition hash_set_get_and_incr : Test :=
  [replies "HSET h f 1" [":1"];
   replies "HSET h f 2" [":0"];
   replies "HGET h f" ["$1"; "2"];
   replies "HGET h missing" ["$-1"];
   replies "HLEN h" [":1"];
   replies "HINCRBY h f 5" [":7"];
   replies "HEXISTS h f" [":1"];
   replies "HDEL h f" [":1"];
   replies "HGET h f" ["$-1"]].

Definition variadic_commands_count_correctly : Test :=
  [replies "RPUSH l a b c" [":3"];
   replies "LRANGE l 0 -1" ["*3"; "$1"; "a"; "$1"; "b"; "$1"; "c"];
   replies "SADD s a b c a" [":3"];
   replies "SREM s a b x" [":2"];
   replies "ZADD z 1 a 2 b 3 c" [":3"];
   replies "DEL l s z missing" [":3"]].

Definition string_number_and_length_commands : Test :=
  [replies "INCR counter" [":1"];
   replies "INCRBY counter 9" [":10"];
   replies "DECR counter" [":9"];
   replies "DECRBY counter 4" [":5"];
   replies "APPEND s ab" [":2"];
   replies "APPEND s cd" [":4"];
   replies "STRLEN s" [":4"];
   starts "INCR s" "-ERR value is not an integer"].

Definition mget_mset_setnx_getset : Test :=
  [replies "MSET a 1 b 2" ["+OK"];
   replies "MGET a missing b" ["*3"; "$1"; "1"; "$-1"; "$1"; "2"];
   replies "SETNX a 9" [":0"];
   replies "SETNX c 9" [":1"];
   replies "GETSET a 5" ["$1"; "1"];
   replies "GET a" ["$1"; "5"]].

Definition list_index_and_set_operations : Test :=
  ((λ value, sends ("RPUSH l " +:+ value)) <$> ["a"; "b"; "c"]) ++
  [replies "LLEN l" [":3"];
   replies "LINDEX l -1" ["$1"; "c"];
   replies "LSET l 0 z" ["+OK"];
   replies "LINDEX l 0" ["$1"; "z"];
   starts "LSET l 9 x" "-ERR index out of range";
   starts "LSET missing 0 x" "-ERR no such key";
   sends "SADD s1 a";
   sends "SADD s1 b";
   sends "SADD s2 b";
   replies "SCARD s1" [":2"];
   replies "SINTER s1 s2" ["*1"; "$1"; "b"]].

Definition sorted_set_rank_incr_and_withscores : Test :=
  [sends "ZADD z 1 a";
   sends "ZADD z 2 b";
   replies "ZCARD z" [":2"];
   replies "ZRANK z b" [":1"];
   replies "ZRANK z missing" ["$-1"];
   replies "ZINCRBY z 5 a" ["$1"; "6"];
   replies "ZRANGE z 0 -1 WITHSCORES" ["*4"; "$1"; "b"; "$1"; "2"; "$1"; "a"; "$1"; "6"];
   replies "ZRANGEBYSCORE z 2 5" ["*1"; "$1"; "b"]].

Definition spop_removes_and_returns_a_member : Test :=
  [sends "SADD s only";
   replies "SPOP s" ["$4"; "only"];
   replies "SPOP s" ["$-1"];
   replies "EXISTS s" [":0"]].

Definition nan_scores_are_rejected : Test :=
  [starts "ZADD z nan m" "-ERR";
   starts "ZINCRBY z nan m" "-ERR";
   starts "ZRANGEBYSCORE z nan 5" "-ERR";
   replies "ZADD z inf m" [":1"]].

Definition generic_key_commands : Test :=
  [sends "SET a 1";
   sends "RPUSH b x";
   replies "EXISTS a b missing" [":2"];
   replies "TYPE a" ["+string"];
   replies "TYPE b" ["+list"];
   replies "TYPE missing" ["+none"];
   replies "DBSIZE" [":2"];
   replies "PING" ["+PONG"];
   replies "PING hey" ["$3"; "hey"];
   replies "ECHO hi" ["$2"; "hi"];
   replies "RENAME missing x" ["-ERR no such key"];
   replies "RENAME a c" ["+OK"];
   replies "GET c" ["$1"; "1"];
   replies "FLUSHALL" ["+OK"];
   replies "DBSIZE" [":0"]].

Definition expire_ttl_and_persist : Test :=
  [sends "SET k v";
   replies "TTL k" [":-1"];
   replies "EXPIRE k 100" [":1"];
   assert (handle "TTL k") (λ ttl, bool_decide (ttl = lines [":100"] ∨ ttl = lines [":99"]));
   replies "PERSIST k" [":1"];
   replies "PERSIST k" [":0"];
   replies "TTL missing" [":-2"]].

Definition keys_matches_glob_patterns : Test :=
  ((λ key, sends ("SET " +:+ key +:+ " v")) <$> ["user:1"; "user:2"; "post:1"]) ++
  [assert (handle "KEYS user:*") (λ reply,
     String.prefix (lines ["*2"]) reply && contains "user:1" reply && contains "user:2" reply &&
     negb (contains "post:1" reply));
   starts "KEYS *" (lines ["*3"])].

Definition wrong_type_produces_an_error_reply : Test :=
  [sends "LPUSH l a";
   starts "GET l" "-WRONGTYPE"].

Definition malformed_input_never_panics : Test :=
  [starts "SET k v EX abc" "-ERR";
   starts "LRANGE l x y" "-ERR";
   replies "FOO bar" ["-ERR unknown command 'FOO'"];
   assert_eq (handle "GET") (error (command_error_to_string (arity "GET")));
   assert_eq (handle "") ""].

Definition command_error_messages_match_redis : Test :=
  check <$>
  [bool_decide (command_error_to_string (Unknown "X") = "ERR unknown command 'X'");
   bool_decide (command_error_to_string (arity "SET") =
     "ERR wrong number of arguments for 'set' command");
   bool_decide (command_error_to_string (Command.NotAnInteger "z") =
     "ERR value 'z' is not a valid integer")].

(** * [database/data_structure.rs] *)

Definition list_range_handles_negative_and_out_of_bounds : bool :=
  let list := fold_left RList.rpush ["a"; "b"; "c"; "d"] RList.new in
  bool_decide (RList.lrange list 0 (-1) = ["a"; "b"; "c"; "d"]) &&
  bool_decide (RList.lrange list (-2) (-1) = ["c"; "d"]) &&
  bool_decide (RList.lrange list 0 100 = ["a"; "b"; "c"; "d"]) &&
  bool_decide (RList.lrange list 2 1 = []) &&
  bool_decide (RList.lrange RList.new 0 (-1) = []).

Definition set_add_remove_and_membership : bool :=
  let '(added, set) := RSet.sadd RSet.new "x" in
  let '(again, set) := RSet.sadd set "x" in
  let member := RSet.sismember set "x" in
  let '(removed, set) := RSet.srem set "x" in
  added && negb again && member && removed && RSet.is_empty set.

Definition hash_set_get_and_remove : bool :=
  let '(new, hash) := RHash.hset RHash.new "f" "1" in
  let '(again, hash) := RHash.hset hash "f" "2" in
  let got := RHash.hget hash "f" in
  let exists_field := RHash.hexists hash "f" in
  let len := RHash.hlen hash in
  let '(removed, hash) := RHash.hdel hash "f" in
  let '(removed_again, hash) := RHash.hdel hash "f" in
  new && negb again && bool_decide (got = Some "2") && exists_field && bool_decide (len = 1) &&
  removed && negb removed_again && RHash.is_empty hash.

Definition sorted_set_orders_by_score_and_counts_only_new_members : bool :=
  let '(new, zset) := RSortedSet.zadd RSortedSet.new (f64_of_text "1.0") "a" in
  let '(updated, zset) := RSortedSet.zadd zset (f64_of_text "2.0") "a" in
  let '(other, zset) := RSortedSet.zadd zset (f64_of_text "0.5") "b" in
  new && negb updated && other &&
  bool_decide (RSortedSet.zrange zset 0 (-1) = ["b"; "a"]) &&
  bool_decide (RSortedSet.zscore zset "a" = Some (f64_of_text "2.0")) &&
  bool_decide (RSortedSet.zscore zset "missing" = None).

(** * [resp.rs] *)

Definition error_sanitizes_embedded_crlf : bool :=
  bool_decide (error ("ERR unknown command 'X" +:+ CRLF +:+ "+OK'") =
    "-ERR unknown command 'X  +OK'" +:+ CRLF).

Definition encodes_scalar_replies : bool :=
  bool_decide (simple_string "OK" = "+OK" +:+ CRLF) &&
  bool_decide (error "ERR nope" = "-ERR nope" +:+ CRLF) &&
  bool_decide (integer 1 = ":1" +:+ CRLF) &&
  bool_decide (integer 0 = ":0" +:+ CRLF) &&
  bool_decide (bulk_string "hi" = "$2" +:+ CRLF +:+ "hi" +:+ CRLF) &&
  bool_decide (null = "$-1" +:+ CRLF).

Definition encodes_arrays : bool :=
  bool_decide (array ["a"; "bb"] = lines ["*2"; "$1"; "a"; "$2"; "bb"]) &&
  bool_decide (array [] = lines ["*0"]).

Definition encodes_nullable_arrays : bool :=
  bool_decide (nullable_array [Some "a"; None; Some "c"] = lines ["*3"; "$1"; "a"; "$-1"; "$1"; "c"]) &&
  bool_decide (nullable_array [] = lines ["*0"]).

(** * [database/db.rs] *)

Definition db_eq {A} `{EqDecision A} (t : Task DbState A) (expected : A) : Task World bool :=
  assert_eq (on_db t) expected.
Definition db_does {A} (t : Task DbState A) : Task World bool := does (on_db t).

Definition set_get_and_delete : Test :=
  [db_does (Database.set "k" "v" None);
   db_eq (Database.get "k") (Ok (Some "v"));
   db_eq (Database.del ["k"]) 1;
   db_eq (Database.del ["k"]) 0;
   db_eq (Database.get "k") (Ok None)].

Definition delete_works_across_every_type : Test :=
  [db_does (Database.rpush "list" ["a"]);
   db_eq (Database.del ["list"]) 1;
   db_eq (Database.lrange "list" 0 (-1)) (Ok [])].

Definition wrong_type_is_reported : Test :=
  [db_does (Database.lpush "list" ["a"]);
   db_eq (Database.get "list") (Err WrongType)].

Definition expired_keys_are_evicted_lazily : Test :=
  [db_does (Database.set "k" "v" (Some 0));
   db_eq (Database.get "k") (Ok None)].

Definition huge_ttl_does_not_panic : Test :=
  [db_does (Database.set "k" "v" (Some u64_max));
   db_eq (Database.get "k") (Ok (Some "v"));
   db_eq (Database.ttl "k") (-1);
   db_eq (Database.expire "k" i64_max) true;
   db_eq (Database.get "k") (Ok (Some "v"))].

Definition zincrby_to_nan_is_rejected : Test :=
  [db_does (Database.zadd "z" [(f64_infinity, "m")]);
   db_eq (Database.zincrby "z" (f64_of_text "-inf") "m") (Err ScoreNaN);
   db_eq (Database.zscore "z" "m") (Ok (Some f64_infinity))].

(** Both snapshot tests go through [load_snapshot] of a second database; the first
    through the bytes of the file, too. *)
Definition restored_from (source : World) : World :=
  let '(snap, _) := run (on_db (atomically Snapshot.snapshot)) source in
  (run (on_db (atomically (load_snapshot snap))) new_db).2.

Definition restored_from_json (source : World) : World :=
  let '(snap, _) := run (on_db (atomically Snapshot.snapshot)) source in
  match let? json := to_vec_pretty snap in from_slice json with
  | Ok snap => (run (on_db (atomically (load_snapshot snap))) new_db).2
  | Err _ => new_db
  end.

Definition snapshot_round_trips_non_finite_scores : bool :=
  let source := (run (on_db (Database.zadd "z" [(f64_infinity, "hi"); (f64_of_text "-inf", "lo")])) new_db).2 in
  passes
    [db_eq (Database.zscore "z" "hi") (Ok (Some f64_infinity));
     db_eq (Database.zscore "z" "lo") (Ok (Some (f64_of_text "-inf")))]
    (restored_from_json source).

Definition sweep_removes_only_expired_keys : Test :=
  [db_does (Database.set "live" "v" None);
   db_does (Database.set "gone" "v" (Some 0));
   db_eq Database.sweep_expired 1;
   db_eq Database.dbsize 1;
   db_eq (Database.get "live") (Ok (Some "v"))].

Definition snapshot_round_trips_every_type : bool :=
  let source := (run (
    on_db (Database.set "s" "v" None) ;;
    on_db (Database.rpush "l" ["a"; "b"]) ;;
    on_db (Database.sadd "set" ["x"]) ;;
    on_db (Database.zadd "z" [(f64_of_text "1.5", "m")]) ;;
    on_db (Database.hset "h" "f" "1")) new_db).2 in
  passes
    [db_eq (Database.get "s") (Ok (Some "v"));
     db_eq (Database.lrange "l" 0 (-1)) (Ok ["a"; "b"]);
     db_eq (Database.sismember "set" "x") (Ok true);
     db_eq (Database.zscore "z" "m") (Ok (Some (f64_of_text "1.5")));
     db_eq (Database.hget "h" "f") (Ok (Some "1"));
     db_eq Database.dbsize 5]
    (restored_from source).

Definition info_reports_clients_and_keys : Test :=
  [db_does (Database.set "k" "v" None);
   assert_eq client_connected 1;
   assert_eq client_connected 2;
   does client_disconnected;
   assert info (λ info, contains "connected_clients:1" info && contains "keys:1" info &&
     contains "uptime_in_seconds:" info)].

Definition popping_the_last_element_removes_the_key : Test :=
  [db_does (Database.rpush "l" ["only"]);
   db_eq (Database.lpop "l") (Ok (Some "only"));
   db_eq (Database.rpush "l" ["x"]) (Ok 1)].

(** * [server/mod.rs] *)

Definition truncated_aof_replay_still_allows_future_writes_to_be_logged : bool :=
  let torn := lines ["*3"; "$3"; "SET"; "$2"; "k1"; "$2"; "v1"; "*3"; "$3"; "SET"; "$2"; "k2"; "$5"] +:+ "val" in
  let w := (run (replay_aof "log.aof") (set_fs (log_file torn) logging_world)).2 in
  passes [db_eq (Database.get "k1") (Ok (Some "v1"))] w &&
  let w := (run (log_write ["SET"; "k3"; "v3"] ;; sync_aof) w).2 in
  contains "k3" (default "" (content "log.aof" (fs w))).

(** What a client reads that sends these bytes and gets every reply. *)
Definition reads_back (bytes : string) : string :=
  let requests := reader_task (S (String.length bytes)) (slice_reader bytes) in
  concat_all (run (handle_connection ((λ tokens, Request tokens true) <$> requests)) new_db).1.

Definition serves_inline_and_resp_requests_over_tcp : bool :=
  bool_decide (reads_back
      ("SET greeting hello" +:+ CRLF +:+
       lines ["*3"; "$3"; "SET"; "$4"; "note"; "$11"; "hello world"] +:+
       "GET note" +:+ CRLF) =
    lines ["+OK"; "+OK"; "$11"; "hello world"]).

Definition multibulk_length_out_of_range_is_rejected : bool :=
  negb (is_ok (read_request (slice_reader ("*99999999999999" +:+ CRLF))).1).

Definition transaction_queues_and_execs : bool :=
  bool_decide (reads_back (lines ["MULTI"; "SET k 1"; "INCR k"; "EXEC"]) =
    lines ["+OK"; "+QUEUED"; "+QUEUED"; "*2"; "+OK"; ":2"]).

(** The lines a client reads. *)
Definition next_lines (bytes : string) : list string :=
  let text := reads_back bytes in read_lines (S (String.length text)) text.

Definition subscribe_inside_multi_aborts_the_transaction : bool :=
  match next_lines (lines ["MULTI"; "SET a 1"; "SUBSCRIBE ch"; "EXEC"]) with
  | [ok; queued; rejected; aborted] =>
      bool_decide (ok = lines ["+OK"]) && bool_decide (queued = lines ["+QUEUED"]) &&
      String.prefix "-ERR" rejected && String.prefix "-EXECABORT" aborted
  | _ => false
  end.

Definition multi_is_rejected_while_subscribed : bool :=
  match next_lines (lines ["SUBSCRIBE ch"; "MULTI"]) with
  | first :: rest =>
      bool_decide (first = lines ["*3"]) && String.prefix "-ERR" (default "" (rest !! 5%nat))
  | _ => false
  end.

Definition exec_without_multi_is_an_error : bool :=
  String.prefix "-ERR EXEC without MULTI" (default "" (head (next_lines (lines ["EXEC"])))).

(** Both connections at the server: the subscriber's sections up to its subscription,
    all of the publisher's, and then the delivery. *)
Definition publish_reaches_a_subscriber : bool :=
  let connections :=
    [handle_connection [Request ["SUBSCRIBE"; "news"] true; Message true];
     handle_connection [Request ["PUBLISH"; "news"; "hello"] true; Disconnected]] in
  let '(_, ended) := schedule (new_db, connections) [0; 0; 0; 1; 1; 1; 1; 0; 0; 0]%nat in
  bool_decide (omap (λ t, match t with Done out => Some (concat_all out) | Critical _ => None end) ended =
    [lines ["*3"; "$9"; "subscribe"; "$4"; "news"; ":1";
            "*3"; "$7"; "message"; "$4"; "news"; "$5"; "hello"];
     lines [":1"]]).

(** * All of them *)

Definition database_tests : list Test :=
  [set_and_get_roundtrip; command_names_are_case_insensitive; del_returns_an_integer_reply;
   lrange_uses_redis_argument_order; hash_set_get_and_incr; variadic_commands_count_correctly;
   string_number_and_length_commands; mget_mset_setnx_getset; list_index_and_set_operations;
   sorted_set_rank_incr_and_withscores; spop_removes_and_returns_a_member; nan_scores_are_rejected;
   generic_key_commands; expire_ttl_and_persist; keys_matches_glob_patterns;
   wrong_type_produces_an_error_reply; malformed_input_never_panics;
   command_error_messages_match_redis;
   set_get_and_delete; delete_works_across_every_type; wrong_type_is_reported;
   expired_keys_are_evicted_lazily; huge_ttl_does_not_panic; zincrby_to_nan_is_rejected;
   sweep_removes_only_expired_keys; info_reports_clients_and_keys;
   popping_the_last_element_removes_the_key].

Definition other_tests : list bool :=
  [spop_is_logged_to_the_aof_as_a_deterministic_srem;
   list_range_handles_negative_and_out_of_bounds; set_add_remove_and_membership;
   hash_set_get_and_remove; sorted_set_orders_by_score_and_counts_only_new_members;
   error_sanitizes_embedded_crlf; encodes_scalar_replies; encodes_arrays; encodes_nullable_arrays;
   snapshot_round_trips_non_finite_scores; snapshot_round_trips_every_type;
   truncated_aof_replay_still_allows_future_writes_to_be_logged;
   serves_inline_and_resp_requests_over_tcp; multibulk_length_out_of_range_is_rejected;
   transaction_queues_and_execs; subscribe_inside_multi_aborts_the_transaction;
   multi_is_rejected_while_subscribed; exec_without_multi_is_an_error;
   publish_reaches_a_subscriber].

(** The model passes the unit tests of the program. *)
Theorem unit_tests_pass :
  Forall (λ test, passes test new_db = true) database_tests ∧
  Forall (λ passed, passed = true) other_tests.
Proof.
  split.
  - repeat (apply Forall_cons_2; [vm_compute; reflexivity|]). apply Forall_nil_2.
  - repeat (apply Forall_cons_2; [vm_compute; reflexivity|]). apply Forall_nil_2.
Qed.
