(* ===== verification/ValueTheorems.v ===== *)
(** Properties of the value types: index ranges, lists, sorted sets and glob
    patterns ([data_structure.rs] and the matcher of [db.rs]). *)

From S2P Require Import Prelude Task RustInt RustStr RustF64 HashOrder BTree Ranges Glob.
From S2P Require RList RSet RHash RSortedSet.
From S2P Require Import Concrete.
Local Open Scope Z_scope.

(** * Lists *)

(** C27: indices into a list, whatever their signs and however far out of range; a
    negative index counts from the end. [LRANGE] gives exactly the elements whose
    position lies between the two positions the indices denote, in order. [LINDEX]
    gives the element at the position of its index, and [LSET] replaces that element
    and no other, when there is such a position, the first and the last included;
    otherwise [LINDEX] gives nothing, and [LSET] says so and leaves the list as it is.
    The wrapping 64-bit arithmetic never shows. *)
Theorem list_indexing l start stop index new :
  in_i64 start → in_i64 stop → in_i64 index → valid_len (RList.len l) →
  let p := if decide (index < 0) then index + Z.of_nat (length l) else index in
  RList.lrange l start stop = RList.select_range start stop l ∧
  (0 ≤ p < Z.of_nat (length l) →
   (∃ x, RList.lindex l index = Some x ∧ l !! Z.to_nat p = Some x) ∧
   RList.lset l index new = (true, <[Z.to_nat p := new]> l)) ∧
  (¬ (0 ≤ p < Z.of_nat (length l)) →
   RList.lindex l index = None ∧ RList.lset l index new = (false, l)).
Proof.
  intros Hstart Hstop Hi Hl. cbv zeta. split; [by apply RList.resolve_select|].
  rewrite RList.lindex_position, RList.lset_position by done. unfold position, RList.len.
  split; intros Hp; [|by rewrite !(decide_False (P := 0 ≤ _ < _))].
  rewrite !(decide_True (P := 0 ≤ _ < _)) by done. split; [|done].
  destruct (lookup_lt_is_Some_2 l (Z.to_nat (if decide (index < 0) then index + Z.of_nat (length l) else index)))
    as [x Hx]; [lia|]. by exists x.
Qed.

(** The first and the last element, by indices of both signs, and the indices next to
    them that are out of range. *)
Lemma list_indexing_witness :
  let l := ["a"; "b"; "c"] in
  RList.lset l 0 "z" = (true, ["z"; "b"; "c"]) ∧ RList.lset l (-3) "z" = (true, ["z"; "b"; "c"]) ∧
  RList.lset l 2 "z" = (true, ["a"; "b"; "z"]) ∧ RList.lset l (-1) "z" = (true, ["a"; "b"; "z"]) ∧
  RList.lset l 3 "z" = (false, l) ∧ RList.lset l (-4) "z" = (false, l) ∧
  RList.lrange l i64_min (-3) = RList.select_range i64_min (-3) l.
Proof.
  cbv zeta. set (l := ["a"; "b"; "c"]).
  assert (Hin : ∀ i, bool_decide (in_i64 i) = true → bool_decide (0 ≤
    (if decide (i < 0) then i + 3 else i) < 3) = true →
    RList.lset l i "z" = (true, <[Z.to_nat (if decide (i < 0) then i + 3 else i) := "z"]> l)).
  { intros i Hi%bool_decide_eq_true Hp%bool_decide_eq_true.
    apply (list_indexing l i64_min (-3) i "z"); [..|exact Hp]; first [exact Hi|vm_compute; split; discriminate]. }
  assert (Hout : ∀ i, bool_decide (in_i64 i) = true → bool_decide (0 ≤
    (if decide (i < 0) then i + 3 else i) < 3) = false → RList.lset l i "z" = (false, l)).
  { intros i Hi%bool_decide_eq_true Hp%bool_decide_eq_false.
    apply (list_indexing l i64_min (-3) i "z"); [..|exact Hp]; first [exact Hi|vm_compute; split; discriminate]. }
  refine (conj (Hin 0 _ _) (conj (Hin (-3) _ _) (conj (Hin 2 _ _) (conj (Hin (-1) _ _)
    (conj (Hout 3 _ _) (conj (Hout (-4) _ _) _)))))); [vm_compute; reflexivity..|].
  apply (list_indexing l i64_min (-3) 0 "z"); vm_compute; split; discriminate.
Defined.

(** * Sorted sets *)

Section zsets.
Context {OF : OrderedFloat}.

(** C25: the hash map and the ordered tree of a sorted set stay in step: adding
    or removing any member keeps the tree strictly ordered by score and member
    with exactly the pairs of the map, records the new score for that member
    and leaves all others alone, and tells whether the member was there. *)
Theorem zset_indexes_agree z :
  RSortedSet.zset_ok z →
  (∀ s m, let '(is_new, z') := RSortedSet.zadd z s m in
     RSortedSet.zset_ok z' ∧
     RSortedSet.members z' =
       <[m := RSortedSet.recorded_score (RSortedSet.members z !! m) s]> (RSortedSet.members z) ∧
     is_new = bool_decide (RSortedSet.zscore z m = None)) ∧
  (∀ m, let '(found, z') := RSortedSet.zrem z m in
     RSortedSet.zset_ok z' ∧ RSortedSet.members z' = delete m (RSortedSet.members z) ∧
     found = bool_decide (is_Some (RSortedSet.zscore z m))).
Proof.
  intros Hz. split; intros.
  - pose proof (RSortedSet.zadd_ok z s m Hz) as Hok.
    pose proof (RSortedSet.zadd_members z s m) as Hm. pose proof (RSortedSet.zadd_new z s m) as Hn.
    by destruct (RSortedSet.zadd z s m).
  - pose proof (RSortedSet.zrem_ok z m Hz) as Hok.
    pose proof (RSortedSet.zrem_members z m) as Hm. pose proof (RSortedSet.zrem_found z m) as Hn.
    by destruct (RSortedSet.zrem z m).
Qed.

(** C26: the listings of a sorted set tell the same story: a member's rank is its place
    in the listing of the whole set, it is absent exactly when [ZSCORE] is, [ZCARD] is
    the length of the listing, and any range is the corresponding selection of the
    listing. [ZRANGEBYSCORE] gives the members whose score satisfies both bounds,
    inclusive or exclusive, each once and in the order of the whole listing; on
    scores that are numbers the bounds are those of IEEE comparison. *)
Theorem zset_listings z start stop lo lo_incl hi hi_incl :
  RSortedSet.zset_ok z → in_i64 start → in_i64 stop → valid_len (RSortedSet.tree_len z) →
  let listing := RSortedSet.zrange z 0 (-1) in
  let selected := RSortedSet.zrange_by_score z lo lo_incl hi hi_incl in
  NoDup listing ∧ Z.of_nat (length listing) = RSortedSet.zcard z ∧
  RSortedSet.zrange z start stop = RList.select_range start stop listing ∧
  (∀ m, (RSortedSet.zrank z m = None ↔ RSortedSet.zscore z m = None) ∧
        ∀ i, RSortedSet.zrank z m = Some i ↔ 0 ≤ i ∧ listing !! Z.to_nat i = Some m) ∧
  selected `sublist_of` listing ∧
  ∀ m, m ∈ selected ↔ ∃ s, RSortedSet.zscore z m = Some s ∧
    (if lo_incl then f64_le lo s = true else f64_lt lo s = true) ∧
    (if hi_incl then f64_le s hi = true else f64_lt s hi = true).
Proof.
  intros Hz Hstart Hstop Hlen.
  rewrite RSortedSet.zrange_all by done. cbv zeta. split_and!.
  - by apply RSortedSet.NoDup_members.
  - rewrite length_fmap. by apply RSortedSet.tree_len_zcard.
  - by apply RSortedSet.zrange_select.
  - intros m. split; [by apply RSortedSet.zrank_none|]. intros i. by apply RSortedSet.zrank_lookup.
  - by apply RSortedSet.by_score_sublist.
  - intros m. by apply RSortedSet.elem_of_by_score.
Qed.
End zsets.

(** A sorted set for the examples: bob 1, amy 2, cid 2. *)
Definition sample_zset : RSortedSet.RSortedSet :=
  fold_left (λ z p, (RSortedSet.zadd z p.1 p.2).2)
    [(f64_of_text "2", "cid"); (f64_of_text "1", "bob"); (f64_of_text "2", "amy")] RSortedSet.new.

Lemma sample_zset_ok : RSortedSet.zset_ok sample_zset.
Proof. unfold sample_zset. cbn [fold_left]. do 3 apply RSortedSet.zadd_ok. apply RSortedSet.new_ok. Qed.

Lemma zset_indexes_agree_witness :
  (RSortedSet.zadd sample_zset (f64_of_text "0.5") "cid").1 = false ∧
  let '(found, z') := RSortedSet.zrem sample_zset "bob" in
  RSortedSet.zset_ok z' ∧ RSortedSet.members z' = delete "bob" (RSortedSet.members sample_zset) ∧
  found = bool_decide (is_Some (RSortedSet.zscore sample_zset "bob")).
Proof.
  split; [reflexivity|].
  exact (proj2 (zset_indexes_agree sample_zset sample_zset_ok) "bob").
Defined.

Lemma zset_listings_witness :
  RSortedSet.zrange sample_zset 0 (-1) = ["bob"; "amy"; "cid"] ∧
  RSortedSet.zrank sample_zset "cid" = Some 2 ∧
  RSortedSet.zrange_by_score sample_zset (f64_of_text "1") false f64_infinity true = ["amy"; "cid"] ∧
  RSortedSet.zrange sample_zset (-2) 5 =
    RList.select_range (-2) 5 (RSortedSet.zrange sample_zset 0 (-1)).
Proof.
  split; [reflexivity|]. split; [reflexivity|]. split; [reflexivity|].
  refine (proj1 (proj2 (proj2 (zset_listings sample_zset (-2) 5 (f64_of_text "1") false f64_infinity true
    sample_zset_ok _ _ _)))); vm_compute; split; discriminate.
Defined.

(** * Patterns *)

(** C28: [KEYS] matching is decided exactly as the glob language says: [*] stands
    for any bytes, [?] for one, a class for a byte of its items (or, negated, for
    any other), a backslash for the next byte itself; the loops of the matcher end
    for every pattern. Matching a class consumes exactly the class, the bytes up
    to its closing bracket or the rest of the pattern when there is none, so the
    slice taken after it is always in range. *)
Theorem glob_match_decides pattern text class ch :
  (glob_match pattern text = true ↔ glob_sem (pattern_tokens (bytes_of pattern)) (bytes_of text)) ∧
  let '(negate, body) := class_body class in
  let '(items, rest) := class_items body in
  let '(matched, consumed) := match_class class ch in
  (matched = true ↔ in_class negate items ch) ∧
  drop consumed class = rest ∧ (consumed ≤ length class)%nat.
Proof.
  split; [apply glob_match_tokens|].
  destruct (match_class_spec class ch) as (consumed & -> & Hdrop & Hlen).
  destruct (class_body class) as [negate body]. cbn [fst snd] in *.
  by destruct (class_items body) as [items rest].
Qed.
