(* ===== verification/StoreTheorems.v ===== *)
(** Properties of the store's operations ([db.rs]): each operation on a key
    implements its specification, and what the operations on expiry, on several
    keys and on the whole keyspace do. *)

From S2P Require Import Prelude Task RustInt RustStr RustF64 HashOrder Ranges Glob Clock Store.
From S2P Require Import Database Keyspace Refinement KeyOps SetAlgebra.
From S2P Require RList RSet RHash RSortedSet.
From S2P Require Import Concrete.
Local Open Scope Z_scope.

Section single_key.
Context {CK : Clock} {HO : HashOrder} {OF : OrderedFloat}.

(** C3: every list operation implements its specification on the list a key
    holds: from any store and at any instant it answers what [list_spec] says
    and leaves the keyspace [list_spec] says, a key whose deadline has passed
    being absent, a key of another type a [WRONGTYPE] error that changes
    nothing, the deadline kept and a list that becomes empty removed. *)
Theorem list_commands_refine {T} (k : string) (op : list_op T) :
  refines (run_list_op k op) k (typed_spec VList as_list (list_spec op)).
Proof. apply list_ops_refine. Qed.

(** C7: the same for [GET], [INCR]/[DECR] and their variants, [APPEND] and
    [STRLEN]; a sum outside the 64-bit range or a value that is not a number is
    an error and stores nothing. *)
Theorem string_commands_refine {T} (k : string) (op : string_op T) :
  string_op_ok op → refines (run_string_op k op) k (typed_spec VStr as_str (string_spec op)).
Proof. apply string_ops_refine. Qed.

(** C5: the same for the set operations; [SADD] and [SREM] count each distinct
    member once, [SPOP] takes the first member of the iteration order. *)
Theorem set_commands_refine {T} (k : string) (op : set_op T) :
  refines (run_set_op k op) k (typed_spec VSet as_set (set_spec op)).
Proof. apply set_ops_refine. Qed.

(** C4: the same for the sorted-set operations; an increment whose result is
    not a number is an error that stores nothing and creates no key. *)
Theorem zset_commands_refine {T} (k : string) (op : zset_op T) :
  zset_op_ok op →
  refines (run_zset_op k op) k (typed_spec VSortedSet as_sorted_set (zset_spec op)).
Proof. apply zset_ops_refine. Qed.

(** C6: the same for the hash operations; [HINCRBY] fails on overflow and on a
    field that is not a number without creating key or field. *)
Theorem hash_commands_refine {T} (k : string) (op : hash_op T) :
  hash_op_ok op → refines (run_hash_op k op) k (typed_spec VHash as_hash (hash_spec op)).
Proof. apply hash_ops_refine. Qed.

(** C29: [SET], [SETNX], [GETSET], [EXPIRE], [PERSIST] and [TYPE] implement their
    specifications: [SET] replaces anything, value and deadline; [SETNX] sets only
    an absent (or lapsed) key; [GETSET] answers the old string and drops the
    deadline, and refuses other types; [EXPIRE] sets the deadline of a live key
    only, counted from a reading of the clock it takes, and with no time left
    deletes the key whatever it holds; [PERSIST] removes a deadline and says
    whether there was one. *)
Theorem key_commands_refine k new :
  refines (setnx k new) k (setnx_spec new) ∧ refines (getset k new) k (getset_spec new) ∧
  refines (persist k) k persist_spec ∧ refines (type_of k) k type_spec ∧
  (∀ duration s, let '(r, s') := run (set k new duration) s in
     (r, view (instant s) (store s')) =
       apply_spec k (set_string_spec new duration (instant s)) (seen s)) ∧
  (∀ seconds s, let '(r, s') := run (expire k seconds) s in
     ∃ n, (tick s ≤ n ≤ tick s')%nat ∧
       (r, view (instant s) (store s')) =
         apply_spec k (expire_spec seconds (instant_at n)) (seen s)).
Proof.
  split_and!; [apply setnx_refines|apply getset_refines|apply persist_refines|apply type_of_refines| |].
  - intros. apply set_refines.
  - intros. apply expire_refines.
Qed.

(** C31: a read is linearised at its first critical section. Whatever other
    tasks do between the section that reads and the one that evicts, the
    answer is the one for the keyspace as the first section saw it. *)
Theorem reads_linearize {A T} k (absent : result T StoreError) (project : Value → option A) (f : A → T) :
  ∃ first, read_entry k absent (read_as project f) = Critical first ∧
    ∀ s, ensures (eq match seen s !! k with
                     | None => absent
                     | Some e => match project (value e) with
                                 | Some inner => Ok (f inner)
                                 | None => Err WrongType
                                 end
                     end) (first s).1.
Proof.
  destruct (read_linearizes k absent (λ e, match project (value e) with
    | Some inner => Ok (f inner) | None => Err WrongType end)) as (first & Hfirst & H).
  exists first. split; [exact Hfirst|]. intros s. specialize (H s). by destruct (seen s !! k).
Qed.
End single_key.

Lemma string_commands_refine_witness :
  refines (incr_by "n" i64_max) "n" (typed_spec VStr as_str (string_spec (IncrBy i64_max))) ∧
  (run (incr_by "n" i64_max) {| store := {["n" := fresh_string "1"]}; tick := 0 |}).1 = Err Overflow.
Proof.
  split; [|reflexivity].
  apply (string_commands_refine "n" (IncrBy i64_max)). vm_compute; split; discriminate.
Defined.

Lemma zset_commands_refine_witness :
  refines (zincrby "z" f64_infinity "m") "z"
    (typed_spec VSortedSet as_sorted_set (zset_spec (ZIncrBy f64_infinity "m"))).
Proof. apply (zset_commands_refine "z" (ZIncrBy f64_infinity "m")). reflexivity. Defined.

Lemma hash_commands_refine_witness :
  refines (hincrby "h" "f" 5) "h" (typed_spec VHash as_hash (hash_spec (HIncrBy "f" 5))) ∧
  (run (hincrby "h" "f" 5) {| store := ∅; tick := 0 |}).1 = Ok 5.
Proof.
  split; [|reflexivity].
  apply (hash_commands_refine "h" (HIncrBy "f" 5)). vm_compute; split; discriminate.
Defined.

Section keyspace.
Context {CK : Clock} {HO : HashOrder} {OF : OrderedFloat}.

(** C30: [EXPIRE] with some seconds and then [TTL]: the deadline is those seconds
    after a reading of the clock by [EXPIRE], and [TTL] then answers the whole seconds
    from a later reading of its own to that deadline, a number between 0 and the one
    given; or -2 once the deadline is over, and -1 when it is beyond what the clock can
    represent. *)
Theorem expire_ttl k seconds e s :
  0 < seconds → in_i64 seconds → seen s !! k = Some e →
  let '(set, s1) := run (expire k seconds) s in
  let '(remaining, s2) := run (ttl k) s1 in
  set = true ∧ ∃ n, (tick s ≤ n ≤ tick s1)%nat ∧
  let deadline := instant_at n + seconds * 10 ^ 9 in
  if decide (instant_max < deadline) then remaining = -1
  else if decide (deadline ≤ instant s1) then remaining = -2
  else ∃ n', (tick s1 < n' < tick s2)%nat ∧
    remaining = ((deadline - instant_at n') `max` 0) / 10 ^ 9 ∧ 0 ≤ remaining ≤ seconds.
Proof. apply expire_then_ttl. Qed.

(** C32: removals. [DEL] removes exactly the keys it names, expired ones included,
    and the count is the number of distinct keys among them that were live, up to
    those that expire while it runs. The sweeper removes every key whose deadline had
    passed when it began, no key that is live, and reports how many it removed. *)
Theorem removals_exact ks s :
  Z.of_nat (size (store s)) ≤ usize_max →
  (let '(count, s') := run (del ks) s in
   (∀ j, store s' !! j = if decide (j ∈ ks) then None else store s !! j) ∧
   Z.of_nat (size (live_among ks (view (instant s') (store s)))) ≤ count ≤
     Z.of_nat (size (live_among ks (seen s)))) ∧
  (let '(removed, s') := run sweep_expired s in
   store s' ⊆ store s ∧ view (instant s') (store s') = view (instant s') (store s) ∧
   map_Forall (λ _, live_at (instant s)) (store s') ∧
   removed = Z.of_nat (size (store s)) - Z.of_nat (size (store s'))).
Proof.
  intros Hs. split.
  - pose proof (del_spec ks s) as H. destruct (run (del ks) s) as [count s'].
    destruct H as (-> & _ & Hcount). split; [|done]. intros j. apply foldl_delete_lookup.
  - pose proof (sweep_spec s Hs) as H. destruct (run sweep_expired s) as [r s']. tauto.
Qed.

(** C35: the scans change nothing and place their answer between the keyspace when
    they begin and when they end, since keys may expire meanwhile: [EXISTS] counts
    each named key as often as it is named, [DBSIZE] counts the keys, and [KEYS]
    lists, each once, live keys that match the pattern, among them every one that
    stays live. *)
Theorem scans_report_live_keys ks pattern s :
  (let '(n, s') := run (exists_ ks) s in
   store s' = store s ∧
   Z.of_nat (length (filter (live_key (instant s') (store s)) ks)) ≤ n ≤
     Z.of_nat (length (filter (live_key (instant s) (store s)) ks))) ∧
  (let '(n, s') := run dbsize s in
   store s' = store s ∧
   Z.of_nat (size (view (instant s') (store s))) ≤ n ≤ Z.of_nat (size (seen s))) ∧
  (let '(found, s') := run (keys pattern) s in
   store s' = store s ∧ NoDup found ∧
   (∀ k, k ∈ found → glob_match pattern k = true ∧ live_key (instant s) (store s) k) ∧
   (∀ k, glob_match pattern k = true → live_key (instant s') (store s) k → k ∈ found)).
Proof.
  pose proof (exists_spec ks s) as H1. pose proof (dbsize_spec s) as H2.
  pose proof (keys_spec pattern s) as H3.
  destruct (run (exists_ ks) s), (run dbsize s), (run (keys pattern) s). tauto.
Qed.

(** C33: the operations on several keys: [RENAME] moves a live key's value and
    deadline, replacing what the new name held, and answers an error for a missing
    key, and renaming a key to itself keeps it; after [MSET], [MGET] gives for each
    key the last value written to it, and for a key that was not written what the
    store held, no value for a key that is missing, lapsed or not a string. *)
Theorem several_keys k new_key pairs ks s :
  (let '(found, s') := run (rename k new_key) s in
   (found = true ↔ is_Some (seen s !! k)) ∧
   view (instant s) (store s') =
     match seen s !! k with
     | None => seen s
     | Some e => <[new_key := e]> (delete k (seen s))
     end ∧
   (k = new_key → view (instant s) (store s') = seen s)) ∧
  (let '(_, s1) := run (mset pairs) s in
   let '(values, s2) := run (mget ks) s1 in
   Forall2 (λ k v, ∃ n, (tick s1 ≤ n ≤ tick s2)%nat ∧
     v = match (list_to_map (reverse pairs) : gmap string string) !! k with
         | Some last => Some last
         | None => string_at (instant_at n) (store s) k
         end) ks values).
Proof.
  split.
  - pose proof (rename_spec k new_key s) as H. destruct (run (rename k new_key) s) as [r s'].
    destruct (seen s !! k) as [e|] eqn:E; injection H as -> Hview; rewrite Hview;
      (split; [by rewrite is_Some_alt|]); (split; [done|]); [|done].
    intros <-. by rewrite insert_delete_eq, insert_id.
  - rewrite mset_spec. set (s1 := {| store := _; tick := _ |}).
    pose proof (mget_spec ks s1) as H. destruct (run (mget ks) s1) as [values s2].
    destruct H as (_ & _ & H). eapply Forall2_impl; [exact H|]. intros j v (n & Hn & ->).
    exists n. split; [done|]. apply string_at_mset.
Qed.

(** C34: the answers of [SINTER], [SUNION] and [SDIFF] are the intersection, the
    union and the difference of the sets the keys hold when they are looked at,
    without repetitions; a missing key is the empty set, a key of another type
    an error, and nothing is changed. *)
Theorem set_algebra ks s :
  (let '(r, s') := run (sinter ks) s in
   answers s s' ks (λ Xs x, Xs ≠ [] ∧ ∀ X, X ∈ Xs → x ∈ X) r) ∧
  (let '(r, s') := run (sunion ks) s in
   answers s s' ks (λ Xs x, ∃ X, X ∈ Xs ∧ x ∈ X) r) ∧
  (let '(r, s') := run (sdiff ks) s in
   answers s s' ks (λ Xs x, ∃ X Ys, Xs = X :: Ys ∧ x ∈ X ∧ ∀ Y, Y ∈ Ys → x ∉ Y) r).
Proof. split_and!; [apply sinter_spec|apply sunion_spec|apply sdiff_spec]. Qed.
End keyspace.

(** A store for the examples, at an instant when one of the deadlines is over. *)
Definition sample_store : Store :=
  {["old" := {| value := VStr "x"; expires_at := Some (-1) |};
    "new" := {| value := VList ["a"]; expires_at := Some (from_secs 5) |};
    "s" := fresh_string "v"]}.
Definition sample_db : DbState := {| store := sample_store; tick := 0 |}.

(** With a clock that gains a second between two readings. *)
Lemma expire_ttl_witness :
  let '(set, s1) := run (expire (CK := ticking_clock) "s" 7) sample_db in
  let '(remaining, s2) := run (ttl (CK := ticking_clock) "s") s1 in
  set = true ∧ remaining = 5 ∧ ∃ n, (0 ≤ n ≤ tick s1)%nat ∧
  let deadline := capped_seconds n + 7 * 10 ^ 9 in
  if decide (2 ^ 63 * 10 ^ 9 < deadline) then remaining = -1
  else if decide (deadline ≤ capped_seconds (tick s1)) then remaining = -2
  else ∃ n', (tick s1 < n' < tick s2)%nat ∧
    remaining = ((deadline - capped_seconds n') `max` 0) / 10 ^ 9 ∧ 0 ≤ remaining ≤ 7.
Proof.
  pose proof (expire_ttl (CK := ticking_clock) "s" 7 (fresh_string "v") sample_db
    ltac:(lia) ltac:(vm_compute; split; discriminate) ltac:(vm_compute; reflexivity)) as H.
  assert (Hr : (run (ttl (CK := ticking_clock) "s") (run (expire (CK := ticking_clock) "s" 7) sample_db).2).1 = 5)
    by (vm_compute; reflexivity).
  destruct (run (expire (CK := ticking_clock) "s" 7) sample_db) as [set s1]. cbn [snd] in Hr.
  destruct (run (ttl (CK := ticking_clock) "s") s1) as [remaining s2]. cbn [fst] in Hr.
  destruct H as [Hset H]. split; [exact Hset|]. split; [exact Hr|exact H].
Defined.

Lemma removals_exact_witness :
  (run sweep_expired sample_db).1 = 1 ∧ (run (del ["new"; "old"; "new"]) sample_db).1 = 1 ∧
  let '(removed, s') := run sweep_expired sample_db in
  store s' ⊆ sample_store ∧ view (instant s') (store s') = view (instant s') sample_store ∧
  map_Forall (λ _, live_at (instant sample_db)) (store s') ∧
  removed = Z.of_nat (size sample_store) - Z.of_nat (size (store s')).
Proof.
  split; [vm_compute; reflexivity|]. split; [vm_compute; reflexivity|].
  apply (removals_exact ["new"] sample_db). vm_compute; discriminate.
Defined.
