(* ===== verification/ProtocolTheorems.v ===== *)
(** Properties of the protocol: what is read, what is parsed, what is answered
    ([resp.rs], [command/mod.rs] and the reader of [server/mod.rs]). *)

From stdpp Require Import relations.
From S2P Require Import Prelude Task RustInt RustStr RustF64 HashOrder Resp Clock Store PubSub.
From S2P Require Import FileSystem Aof Snapshot World Command Execute Dispatch ReadOnly ErrorReply.
From S2P Require Import Session Server Wire Recovery.
From S2P Require Keyspace.
From S2P Require Import Concrete.
Local Open Scope Z_scope.

(** * Replies *)

Section replies.
Context {CK : Clock} {HO : HashOrder} {OF : OrderedFloat} {MP : Mpsc} {FS : FileSystem}
  {SD : Serde} {TP : Process}.

(** C8: whatever the clients send and however their requests interleave, every
    reply of [dispatch] is exactly one RESP frame: a client that decodes it
    from a stream gets that frame and is left with the bytes that follow. No
    error message, key, value or score can break the framing. *)
Theorem replies_are_frames w requests p' i reply :
  Forall (λ tokens, tokens ≠ []) requests →
  rtc step (w, dispatch <$> requests) p' → p'.2 !! i = Some (Done reply) →
  ∃ f, frame_ok f ∧ ∀ fuel rest, (depth f ≤ fuel)%nat → decode fuel (reply +:+ rest) = Some (f, rest).
Proof.
  intros Hreq Hsteps Hi.
  assert (reply_ok reply) as (f & Hf & ->).
  { eapply (ensures_steps reply_ok); [exact Hsteps| |exact Hi]. simpl.
    apply Forall_fmap. eapply Forall_impl; [exact Hreq|]. intros tokens. apply ensures_dispatch. }
  exists f. split; [done|]. intros fuel rest Hfuel. by apply decode_encode.
Qed.

(** C15: a command that is not a write (any request that parses to one) changes
    nothing a client can see, alone or interleaved with other such commands: the
    store only loses keys whose deadline has passed. So [is_write], which
    decides what is logged, misses no change but [SPOP]'s, which [dispatch]
    logs itself. *)
Theorem reads_leave_keyspace w requests p' :
  Forall (λ tokens, ∀ c, parse tokens = Ok c → read_only c) requests →
  rtc step (w, dispatch <$> requests) p' →
  store (db p'.1) ⊆ store (db w) ∧
  Keyspace.seen (db p'.1) = view (Keyspace.instant (db p'.1)) (store (db w)).
Proof.
  intros Hreq Hsteps. apply (keeps_steps (world_lapses (store (db w))) _ _ Hsteps).
  - apply lapses_start.
  - simpl. apply Forall_fmap. eapply Forall_impl; [exact Hreq|]. intros tokens. apply lapses_dispatch.
Qed.

(** C14: a request answered with an error, be it an unknown command, a bad
    argument, a wrong type, an overflow or an index out of range, has changed
    nothing: keys whose deadline has passed may be gone, everything else is as
    it was. *)
Theorem errors_change_nothing tokens w :
  let '(reply, w') := run (dispatch tokens) w in
  is_error reply = true →
  store (db w') ⊆ store (db w) ∧
  Keyspace.seen (db w') = view (Keyspace.instant (db w')) (store (db w)).
Proof. apply error_quiet_dispatch. Qed.
End replies.

Lemma replies_are_frames_witness :
  ∃ p' reply, rtc step (fresh_world ∅, dispatch <$> [["INCR"; "n"]; ["FOO
"]]) p' ∧ p'.2 !! 1%nat = Some (Done reply) ∧
    ∃ f, frame_ok f ∧ ∀ fuel rest, (depth f ≤ fuel)%nat → decode fuel (reply +:+ rest) = Some (f, rest).
Proof.
  set (p := (fresh_world ∅, dispatch <$> [["INCR"; "n"]; ["FOO
"]])). exists p, (error (command_error_to_string (Unknown "FOO
"))). split; [constructor|]. split; [reflexivity|].
  apply (replies_are_frames (fresh_world ∅) [["INCR"; "n"]; ["FOO
"]] p 1); [repeat constructor; discriminate|constructor|reflexivity].
Defined.

(** A store whose only key has lapsed. *)
Definition lapsed_store : Store := {["k" := {| value := VStr "v"; expires_at := Some (-1) |}]}.
Definition two_readers : Pool World string :=
  schedule (fresh_world lapsed_store, dispatch <$> [["GET"; "k"]; ["DBSIZE"]]) [0; 1; 0]%nat.

Lemma reads_leave_keyspace_witness :
  store (db two_readers.1) = ∅ ∧ store (db two_readers.1) ⊆ lapsed_store ∧
  Keyspace.seen (db two_readers.1) = view (Keyspace.instant (db two_readers.1)) lapsed_store.
Proof.
  split; [vm_compute; reflexivity|].
  apply (reads_leave_keyspace (fresh_world lapsed_store) [["GET"; "k"]; ["DBSIZE"]] two_readers);
    [|apply schedule_steps].
  apply Forall_cons_2; [|apply Forall_cons_2; [|apply Forall_nil_2]];
    intros c; vm_compute; intros [= <-]; split; reflexivity || exact I.
Defined.

(** * Parsing *)

(** C36: what [parse] accepts is well formed: integers fit in 64 bits, no score is
    NaN, variadic commands have at least one argument. The operations of the store
    rely on it. The case of the command's name does not matter. *)
Theorem parse_well_formed name args c :
  parse (name :: args) = Ok c →
  command_wf c ∧
  ∀ name', eq_ignore_ascii_case name name' = true → parse (name' :: args) = Ok c.
Proof.
  intros Hp. split; [by eapply parse_wf|]. intros name' Hcase.
  by rewrite <- (parse_ignores_case name name' args Hcase), Hp by (by rewrite Hp).
Qed.

Lemma parse_well_formed_witness :
  parse ["DecrBy"; "k"; "-5"] = Ok (IncrBy "k" 5) ∧ command_wf (IncrBy "k" 5) ∧
  parse ["DECRBY"; "k"; "-9223372036854775808"] = Err (NotAnInteger "-9223372036854775808").
Proof.
  destruct (parse_well_formed "decrby" ["k"; "-5"] (IncrBy "k" 5)) as [Hwf Hcase]; [reflexivity|].
  split; [apply Hcase; reflexivity|]. split; [exact Hwf|reflexivity].
Defined.

(** * Requests *)

Section requests.
Context {AR : AsyncBufRead} {SR : SliceReader AR}.

(** C24: a client that pipelines its requests as RESP arrays is understood. When the
    arguments are UTF-8 texts of at most 512 MB, and a request has at most 1024*1024
    of them, with any bytes that UTF-8 allows, CR and LF included, the connection's
    reader gets exactly those requests in that order. It gets nothing more from what
    may come after them: nothing, a request cut short by the end of the stream, or one
    that is beyond the limits or not UTF-8, which is refused and ends the reading,
    whatever bytes come next. From any stream the reader gets at most as many requests
    as there are bytes, so its loop ends, and the bound on the requests only has to
    exceed the number of bytes. *)
Theorem pipelined_requests_read r :
  (∀ requests tail, Forall request_ok requests → unread tail →
   remaining r = log_of requests +:+ tail →
   reader_task (S (String.length (remaining r))) r = requests) ∧
  ∀ fuel, (length (reader_task fuel r) ≤ String.length (remaining r))%nat ∧
    ((String.length (remaining r) < fuel)%nat →
     reader_task fuel r = reader_task (S (String.length (remaining r))) r).
Proof.
  split.
  - intros requests tail Hok Htail Hr. apply (reader_task_log requests tail); [done|by apply unread_stops| |done].
    rewrite Hr, slen_app. pose proof (log_length requests). lia.
  - intros fuel. split; [apply reader_task_length|]. intros Hf. apply reader_task_fuel; lia.
Qed.
End requests.

(** Two requests, the second of which has a CRLF in an argument, and an argument that is
    not UTF-8 in a third. *)
Definition two_requests : list (list string) := [["SET"; "k"; "two" +:+ CRLF +:+ "words"]; ["GET"; "k"]].
Definition not_utf8 : list string := ["SET"; "k"; String (ascii_of_nat 255) ""].

Lemma pipelined_requests_read_witness :
  reader_task 200 (slice_reader (log_of two_requests +:+ "*1")) = two_requests ∧
  reader_task 200 (slice_reader (log_of two_requests +:+ array not_utf8 +:+ array ["PING"])) = two_requests.
Proof.
  assert (Hok : Forall request_ok two_requests) by (apply (bool_decide_unpack _); vm_compute; exact I).
  split.
  - destruct (pipelined_requests_read (SR := string_slice) (slice_reader (log_of two_requests +:+ "*1")))
      as [H Hfuel].
    rewrite (proj2 (Hfuel 200%nat)) by (vm_compute; repeat constructor).
    apply (H two_requests "*1"); [exact Hok| |apply remaining_slice].
    apply (unread_cut ["PING"] _ CR (sdrop 3 (array ["PING"]))); [discriminate| |vm_compute; reflexivity].
    apply (bool_decide_unpack _); vm_compute; exact I.
  - destruct (pipelined_requests_read (SR := string_slice)
      (slice_reader (log_of two_requests +:+ array not_utf8 +:+ array ["PING"]))) as [H Hfuel].
    rewrite (proj2 (Hfuel 200%nat)) by (vm_compute; repeat constructor).
    apply (H two_requests (array not_utf8 +:+ array ["PING"])); [exact Hok| |apply remaining_slice].
    apply unread_refused.
    + apply (bool_decide_unpack _); vm_compute; exact I.
    + split; [vm_compute; discriminate|]. apply (bool_decide_unpack _); vm_compute; exact I.
Defined.
