(* ===== verification/PersistenceTheorems.v ===== *)
(** Properties of persistence: the log, its replay, and snapshots ([aof.rs],
    [snapshot.rs], [db.rs] and [server/mod.rs]). *)

From S2P Require Import Prelude Task RustInt RustStr RustPath RustF64 HashOrder Resp Clock Store.
From S2P Require Import PubSub FileSystem Aof Snapshot World Command Execute Dispatch ErrorReply.
From S2P Require Import Effects Session Config Server Wire Recovery Durability Crash Restore.
From S2P Require Keyspace KeyOps Invariant.
From S2P Require Import Concrete.
Local Open Scope Z_scope.

(** * The log *)

Section log.
Context {CK : Clock} {HO : HashOrder} {OF : OrderedFloat} {MP : Mpsc} {FS : FileSystem}
  {SD : Serde} {TP : Process}.

(** C13: on a disk that does not fail, after any sequence of requests the log
    holds, in order, the requests that were writes and were answered without an
    error, each as a RESP array of its tokens, a [SPOP] as the [SREM] of the
    member it removed, and nothing else; saving snapshots does not disturb it. *)
Theorem log_holds_successful_writes a L commands w :
  healthy a → logs_to a (persistence w) → content (log_path a) (fs w) = Some (log_of L) →
  content (log_path a) (fs (run (dispatch_all commands) w).2) =
    Some (log_of (L ++ logged_all commands w)).
Proof. rewrite log_of_app. apply run_appends. Qed.

Context {AR : AsyncBufRead} {SR : SliceReader AR}.

(** C19: replaying a log dispatches exactly its entries in order, without logging
    them again; a last entry that a crash cut short is dropped; and the replay
    flag is off afterwards in every case. Replaying any file, damaged or not, ends,
    and more fuel than the file has bytes changes nothing; the store satisfies its
    invariant, and the persistence settings, the replay flag among them, are what
    they were. *)
Theorem replay_dispatches_log path commands tail w :
  (Forall request_ok commands →
   (tail = "" ∨ ∃ last y rest, last ≠ [] ∧ request_ok last ∧ tail +:+ String y rest = array last) →
   read_file path (fs w) = Ok (log_of commands +:+ tail) →
   run (replay_aof path) w =
     (Ok (Z.of_nat (length commands)),
      with_replaying false (run (dispatch_all commands) (with_replaying true w)).2)) ∧
  (world_wf w → replaying (persistence w) = false →
   world_wf (run (replay_aof path) w).2 ∧
   persistence (run (replay_aof path) w).2 = persistence w ∧
   ∀ bytes fuel n w', (String.length bytes < fuel)%nat →
     run (replay_loop fuel (slice_reader bytes) n) w' =
       run (replay_loop (S (String.length bytes)) (slice_reader bytes) n) w').
Proof.
  split.
  - intros Hok Htail. apply replay_aof_log; [done|].
    destruct Htail as [-> | (last & y & rest & Hne & Hlast & Hcut)]; [apply stops_empty|].
    by eapply stops_cut.
  - intros Hwf Hr. destruct (replay_any_file path w Hwf Hr) as [H1 H2].
    split; [done|]. split; [done|]. intros bytes fuel n w' Hf.
    apply replay_loop_fuel; rewrite remaining_slice; lia.
Qed.

(** C40: an entry with more tokens than [MAX_MULTIBULK] ends the replay: the
    entries after it are lost. [dispatch] logs a [DEL] of any number of keys. *)
Theorem oversized_entry_truncates path before keys after w :
  Forall request_ok before → keys ≠ [] →
  MAX_MULTIBULK < Z.of_nat (length ("DEL" :: keys)) ≤ usize_max →
  read_file path (fs w) = Ok (log_of (before ++ ("DEL" :: keys) :: after)) →
  (∀ w', logged ("DEL" :: keys) w' = ["DEL" :: keys]) ∧
  run (replay_aof path) w =
    (Ok (Z.of_nat (length before)),
     with_replaying false (run (dispatch_all before) (with_replaying true w)).2).
Proof.
  intros Hok Hne Hlen Hread. split.
  - intros w'. unfold logged. assert (Hp : parse ("DEL" :: keys) = Ok (Del keys)) by (by destruct keys).
    rewrite Hp. cbn [execute is_write]. by rewrite run_answer.
  - apply (replay_aof_log path before (log_of (("DEL" :: keys) :: after))); [done| |].
    + by apply stops_oversized.
    + rewrite Hread. f_equal. unfold log_of. by rewrite fmap_app, concat_all_app.
Qed.
End log.

(** * Restarting from the log *)

Section restart.
Context {OF : OrderedFloat} {FS : FileSystem} {CK1 CK2 : Clock} {HO1 HO2 : HashOrder}
  {MP1 MP2 : Mpsc} {SD1 SD2 : Serde} {TP1 TP2 : Process} {AR : AsyncBufRead} {SR : SliceReader AR}.

(** C2: a server that logs, runs any requests that give no key a deadline, and
    is restarted from its log has the keyspace it had, although the new process
    has another clock and iterates its hash tables in another order: every key,
    type, element and order, whatever mixture of successful and failed commands
    and of arbitrary removals ([SPOP]) went before. *)
Theorem restart_rebuilds_keyspace a commands (w : @World MP1 FS) config mail ticks (w2 : @World MP2 FS) policy :
  healthy a → logs_to (TP := TP1) a (persistence w) → world_wf w → recorded a w →
  Forall request_untimed commands →
  Forall request_ok (logged_all (CK := CK1) (HO := HO1) (SD := SD1) (TP := TP1) commands w) →
  appendonly config = true → aof_file config = log_path a → readable (aof_file config) →
  let w' := (run (dispatch_all (CK := CK1) (HO := HO1) (SD := SD1) (TP := TP1) commands) w).2 in
  init_persistence (CK := CK2) (HO := HO2) (SD := SD2) (TP := TP2) config mail (fs w') ticks
    = Ok (w2, policy) →
  store (db w2) = store (db w').
Proof.
  intros Hh Ha Hwf Hrec Ht Hok Hon Hpath Hread w' Hinit.
  destruct (recorded_run (CK := CK1) (HO := HO1) (SD := SD1) (TP := TP1) a commands w Hh Ha Hwf Ht Hok Hrec)
    as (L & Hc & HL & HLok & Hst).
  unfold w'. rewrite Hst. rewrite <- Hpath, <- (sapp_nil_r (log_of L)) in Hc.
  exact (restart_store (CK := CK2) (HO := HO2) (SD := SD2) (TP := TP2)
    config mail _ ticks L "" w2 policy Hon Hread Hc stops_empty HL HLok Hinit).
Qed.

(** C10: a crash. Of the log of a run only the beginning is on the disk, cut anywhere,
    but at least what had been flushed when the first [j] requests were done. The
    restarted server has exactly the keyspace that the server had after its first
    [k] requests, for some [k] from [j] on: no request is recovered in part, none out
    of order, and none that was flushed is lost. *)
Theorem crash_recovers_prefix a commands (w : @World MP1 FS) j flushed unflushed lost
    config mail f ticks (w2 : @World MP2 FS) policy :
  healthy a → logs_to (TP := TP1) a (persistence w) → world_wf w → recorded a w →
  Forall request_untimed commands →
  Forall request_ok (logged_all (CK := CK1) (HO := HO1) (SD := SD1) (TP := TP1) commands w) →
  (j ≤ length commands)%nat →
  let state n := after (CK := CK1) (HO := HO1) (SD := SD1) (TP := TP1) n commands w in
  content (log_path a) (fs (state j)) = Some flushed →
  content (log_path a) (fs (state (length commands))) = Some (flushed +:+ unflushed +:+ lost) →
  appendonly config = true → readable (aof_file config) →
  content (aof_file config) f = Some (flushed +:+ unflushed) →
  init_persistence (CK := CK2) (HO := HO2) (SD := SD2) (TP := TP2) config mail f ticks
    = Ok (w2, policy) →
  ∃ k, (j ≤ k ≤ length commands)%nat ∧ store (db w2) = store (db (state k)).
Proof.
  intros Hh Ha Hwf Hrec Ht Hok Hj state Hflushed Hall Hon Hread Hf Hinit.
  destruct (cut_is_prefix (CK := CK1) (HO := HO1) (SD := SD1) (TP := TP1) a commands w j flushed
    unflushed lost Hh Ha Hwf Hrec Ht Hok Hj Hflushed Hall)
    as (L & tail & k & Hcut & Hstop & HL & HLok & Hk & Hst).
  exists k. split; [done|]. unfold state. rewrite Hst. rewrite Hcut in Hf.
  exact (restart_store (CK := CK2) (HO := HO2) (SD := SD2) (TP := TP2)
    config mail f ticks L tail w2 policy Hon Hread Hf Hstop HL HLok Hinit).
Qed.
End restart.

(** * Snapshots *)

Section snapshots.
Context {CK : Clock} {HO : HashOrder} {OF : OrderedFloat} {MP : Mpsc} {FS : FileSystem}
  {SD : Serde} {TP : Process}.

(** C21: saving replaces the snapshot as a whole. When [save_to] succeeds the file
    holds the new snapshot, when it fails at any of its steps the file holds what
    it held, and apart from the temporary file no other file is touched. *)
Theorem save_is_atomic path w :
  has_file_name path →
  let '(r, w') := run (save_to path) w in
  (∀ q, q ≠ path → (∀ n, q ≠ temp_path path n) → content q (fs w') = content q (fs w)) ∧
  match r with
  | Ok _ => ∃ json, to_vec_pretty (snapshot (db w)).1 = Ok json ∧ content path (fs w') = Some json
  | Err _ => content path (fs w') = content path (fs w)
  end.
Proof. apply save_to_atomic. Qed.
End snapshots.

Section restore.
Context {OF : OrderedFloat} {FS : FileSystem} {SD : Serde} {CK1 CK2 : Clock}
  {HO1 HO2 : HashOrder} {MP1 MP2 : Mpsc} {TP1 TP2 : Process}.

(** C20: a snapshot saved by one server and loaded by another, with a clock and hash
    tables of its own, restores the keyspace. What is loaded are keys that were visible
    when the snapshot began, each with the same value: lists in their order, and sorted
    sets with exactly their scores, whose decimal texts read back. Every key that was
    still live when the snapshot ended is there. A key's new deadline is as many whole
    seconds from its loading as it had left when the snapshot began, and none when that
    is beyond the clock; so it is counted again from the restart, as the one of a
    replayed log is, which is not what the README says of snapshots. The store keeps
    its invariant, its scores are 64-bit doubles and its lengths fit in 63 bits. *)
Theorem snapshot_restores_keyspace path (w1 : @World MP1 FS) (w2 : @World MP2 FS) :
  let '(saved, w1') := run (save_to (CK := CK1) (HO := HO1) (TP := TP1) path) w1 in
  let '(loaded, w2') := run (load_from (CK := CK2) path) w2 in
  has_file_name path → Invariant.db_wf (db w1) → map_Forall (λ _ e, representable (value e)) (store (db w1)) →
  saved = Ok tt → readable path → content path (fs w2) = content path (fs w1') →
  loaded = Ok true ∧
  (∀ k e', store (db w2') !! k = Some e' → ∃ e n,
     Keyspace.seen (CK := CK1) (db w1) !! k = Some e ∧ (tick (db w2) ≤ n)%nat ∧
     value e' = value e ∧
     expires_at e' = (expires_at e ≫= λ d,
       checked_add_instant (CK := CK2) (instant_at (Clock := CK2) n)
         (((d - Keyspace.instant (CK := CK1) (db w1)) `max` 0) / 10 ^ 9 * 10 ^ 9))) ∧
  (∀ k e, store (db w1) !! k = Some e → live_at (Keyspace.instant (CK := CK1) (db w1')) e →
     is_Some (store (db w2') !! k)).
Proof. apply save_then_load. Qed.

End restore.

(** * Examples *)

Lemma sample_healthy : healthy sample_aof.
Proof. intros tokens f. reflexivity. Defined.

Lemma sample_logs_to : logs_to sample_aof (persistence logging_world).
Proof.
  split; [reflexivity|]. split; [reflexivity|]. intros path [= <-].
  split; [vm_compute; eauto|]. split; [discriminate|]. intros n. unfold temp_path. discriminate.
Defined.

Lemma log_holds_successful_writes_witness :
  logged_all sample_requests logging_world =
    [["SET"; "k"; "41"]; ["SADD"; "s"; "a"; "b"]; ["SREM"; "s"; "a"]; ["INCR"; "k"]] ∧
  content "log.aof" (fs (run (dispatch_all sample_requests) logging_world).2) =
    Some (log_of ([] ++ logged_all sample_requests logging_world)).
Proof.
  split; [vm_compute; reflexivity|].
  apply (log_holds_successful_writes sample_aof [] sample_requests logging_world);
    [exact sample_healthy|exact sample_logs_to|vm_compute; reflexivity].
Defined.

(** A server that starts with a log on its disk. *)
Definition restarting_world (log : string) : World :=
  with_persistence 0 None (Some sample_aof) no_mail (log_file log) 0.

Lemma restarting_wf log : world_wf (restarting_world log).
Proof. apply map_Forall_empty. Defined.

Lemma replay_dispatches_log_witness :
  let w := restarting_world (log_of [["SET"; "k"; "v"]] +:+ "*1") in
  run (replay_aof "log.aof") w =
    (Ok 1, with_replaying false (run (dispatch_all [["SET"; "k"; "v"]]) (with_replaying true w)).2) ∧
  persistence (run (replay_aof "log.aof") w).2 = persistence w.
Proof.
  destruct (replay_dispatches_log "log.aof" [["SET"; "k"; "v"]] "*1"
    (restarting_world (log_of [["SET"; "k"; "v"]] +:+ "*1"))) as [Hlog Hany].
  split; [apply Hlog|].
  - apply (bool_decide_unpack _); vm_compute; exact I.
  - right. exists ["PING"], CR, (sdrop 3 (array ["PING"])).
    split; [discriminate|]. split; [|vm_compute; reflexivity].
    apply (bool_decide_unpack _); vm_compute; exact I.
  - vm_compute; reflexivity.
  - exact (proj1 (proj2 (Hany (restarting_wf _) eq_refl))).
Defined.

(** More keys than an array may have. *)
Definition many_keys : list string := replicate (Z.to_nat MAX_MULTIBULK) "k".

Lemma many_keys_length : Z.of_nat (length ("DEL" :: many_keys)) = MAX_MULTIBULK + 1.
Proof.
  unfold many_keys. rewrite length_cons, length_replicate, Nat2Z.inj_succ.
  rewrite Z2Nat.id by (unfold MAX_MULTIBULK; lia). lia.
Qed.

Lemma many_keys_nonempty : many_keys ≠ [].
Proof.
  intros H. pose proof many_keys_length as Hl. rewrite H in Hl. discriminate Hl.
Qed.

Lemma many_keys_over : MAX_MULTIBULK < Z.of_nat (length ("DEL" :: many_keys)) ≤ usize_max.
Proof. rewrite many_keys_length. unfold usize_max, u64_max, MAX_MULTIBULK. lia. Qed.

Lemma restarting_read log : read_file "log.aof" (fs (restarting_world log)) = Ok log.
Proof. reflexivity. Qed.

Lemma before_ok : Forall request_ok [["SET"; "a"; "1"]].
Proof. apply (bool_decide_unpack _); vm_compute; exact I. Qed.

Lemma oversized_entry_truncates_witness :
  let log := log_of ([["SET"; "a"; "1"]] ++ ("DEL" :: many_keys) :: [["SET"; "b"; "2"]]) in
  run (replay_aof "log.aof") (restarting_world log) =
    (Ok 1, with_replaying false
       (run (dispatch_all [["SET"; "a"; "1"]]) (with_replaying true (restarting_world log))).2).
Proof.
  exact (proj2 (oversized_entry_truncates "log.aof" [["SET"; "a"; "1"]] many_keys [["SET"; "b"; "2"]]
    _ before_ok many_keys_nonempty many_keys_over (restarting_read _))).
Defined.

Lemma logging_recorded : recorded sample_aof logging_world.
Proof. exists []. split; [reflexivity|]. split; [constructor|]. split; [constructor|reflexivity]. Defined.

Lemma logging_wf : world_wf logging_world.
Proof. apply map_Forall_empty. Defined.

(** The requests, run by a server whose clock gains a second at each reading. *)
Definition sample_run : World :=
  (run (dispatch_all (CK := ticking_clock) sample_requests) logging_world).2.

(** The next process, with its own clock and hash order. *)
Definition sample_restart : result (World * option FsyncPolicy) IoError :=
  init_persistence (HO := reverse_order) sample_config no_mail (fs sample_run) 0.
Definition sample_restarted : World :=
  match sample_restart with Ok (w, _) => w | Err _ => logging_world end.

Lemma sample_untimed : Forall request_untimed sample_requests.
Proof.
  repeat (apply Forall_cons_2; [intros c; vm_compute; intros [= <-]; exact I|]). apply Forall_nil_2.
Qed.

Lemma sample_logged_ok :
  Forall request_ok (logged_all (CK := ticking_clock) sample_requests logging_world).
Proof. apply (bool_decide_unpack _). vm_compute. exact I. Qed.

Lemma sample_restart_policy :
  match sample_restart with Ok (_, policy) => policy | Err _ => None end = Some Always.
Proof. vm_compute. reflexivity. Qed.

Lemma sample_restart_ok : sample_restart = Ok (sample_restarted, Some Always).
Proof.
  pose proof sample_restart_policy as H. unfold sample_restarted.
  destruct sample_restart as [[w policy]|e]; [by subst policy|discriminate H].
Qed.

Lemma restart_rebuilds_keyspace_witness :
  store (db sample_restarted) = store (db sample_run) ∧
  store (db sample_run) !! "k" = Some (Keyspace.fresh_string "42").
Proof.
  split; [|vm_compute; reflexivity].
  exact (restart_rebuilds_keyspace (CK1 := ticking_clock) (CK2 := still_clock)
    (HO1 := canonical_order) (HO2 := reverse_order) sample_aof sample_requests logging_world
    sample_config no_mail 0 sample_restarted (Some Always) sample_healthy sample_logs_to logging_wf
    logging_recorded sample_untimed sample_logged_ok eq_refl eq_refl (memory_readable _)
    sample_restart_ok).
Defined.

(** A crash of the same server: its first request was flushed, and some bytes of the
    next entry reached the disk. *)
Definition sample_flushed : string := log_of [["SET"; "k"; "41"]].
Definition sample_rest : string :=
  log_of [["SADD"; "s"; "a"; "b"]; ["SREM"; "s"; "a"]; ["INCR"; "k"]].
Definition crashed_files : Fs := log_file (sample_flushed +:+ stake 20 sample_rest).
Definition crash_restart : result (World * option FsyncPolicy) IoError :=
  init_persistence (HO := reverse_order) sample_config no_mail crashed_files 0.
Definition crash_restarted : World :=
  match crash_restart with Ok (w, _) => w | Err _ => logging_world end.

Lemma crash_restart_ok : crash_restart = Ok (crash_restarted, Some Always).
Proof.
  assert (H : match crash_restart with Ok (_, policy) => policy | Err _ => None end = Some Always)
    by (vm_compute; reflexivity).
  unfold crash_restarted. destruct crash_restart as [[w policy]|e]; [by subst policy|discriminate H].
Qed.

Lemma crash_recovers_prefix_witness :
  size (store (db crash_restarted)) = 1%nat ∧
  ∃ k, (1 ≤ k ≤ 6)%nat ∧
    store (db crash_restarted) = store (db (after (CK := ticking_clock) k sample_requests logging_world)).
Proof.
  split; [vm_compute; reflexivity|].
  apply (crash_recovers_prefix (CK1 := ticking_clock) (CK2 := still_clock)
    (HO1 := canonical_order) (HO2 := reverse_order) sample_aof sample_requests logging_world 1
    sample_flushed (stake 20 sample_rest) (sdrop 20 sample_rest) sample_config no_mail crashed_files 0
    crash_restarted (Some Always) sample_healthy sample_logs_to logging_wf logging_recorded
    sample_untimed sample_logged_ok).
  - simpl. lia.
  - vm_compute. reflexivity.
  - vm_compute. reflexivity.
  - reflexivity.
  - apply memory_readable.
  - reflexivity.
  - exact crash_restart_ok.
Defined.

(** A server with a key that has two and a half seconds left, a list and a sorted set
    whose scores are hard to write: 0.1, 1e300, the least double, and the infinities. *)
Definition timed_zset : RSortedSet.RSortedSet :=
  fold_left (λ z p, (RSortedSet.zadd z (f64_of_text p.1) p.2).2)
    [("0.1", "a"); ("1e300", "b"); ("-5e-324", "c"); ("inf", "d"); ("-inf", "e"); ("-0", "f")]
    RSortedSet.new.
Definition timed_store : Store :=
  {["t" := {| value := VStr "x"; expires_at := Some 2500000000 |};
    "z" := {| value := VSortedSet timed_zset; expires_at := None |};
    "l" := {| value := VList ["a"; "b"]; expires_at := None |}]}.

Lemma timed_zset_ok : RSortedSet.zset_ok timed_zset.
Proof. unfold timed_zset. cbn [fold_left]. do 6 apply RSortedSet.zadd_ok. apply RSortedSet.new_ok. Qed.

Lemma timed_store_wf : Invariant.store_wf timed_store.
Proof.
  apply map_Forall_insert_2; [exact I|]. apply map_Forall_insert_2; [|apply map_Forall_singleton; discriminate].
  split; [split; [exact timed_zset_ok|]|discriminate].
  apply (bool_decide_unpack _). vm_compute. exact I.
Qed.

Lemma timed_store_representable : map_Forall (λ _ e, representable (value e)) timed_store.
Proof.
  apply map_Forall_insert_2; [exact I|].
  apply map_Forall_insert_2; [|apply map_Forall_singleton; vm_compute; split; discriminate].
  split; [vm_compute; split; discriminate|]. apply (bool_decide_unpack _). vm_compute. exact I.
Qed.

Definition timed_saved : World := (run (save_to "dump.json") (fresh_world timed_store)).2.
Definition timed_restored : World :=
  (run (load_from (CK := ticking_clock) "dump.json") (set_fs (fs timed_saved) (fresh_world ∅))).2.

Lemma timed_save_ok : (run (save_to "dump.json") (fresh_world timed_store)).1 = Ok tt.
Proof. vm_compute. reflexivity. Qed.
Lemma timed_load_ok :
  (run (load_from (CK := ticking_clock) "dump.json") (set_fs (fs timed_saved) (fresh_world ∅))).1
    = Ok true.
Proof. vm_compute. reflexivity. Qed.

Lemma dump_has_name : has_file_name "dump.json".
Proof. vm_compute. eauto. Defined.

Lemma save_is_atomic_witness :
  content "dump.json" (fs timed_saved) ≠ None ∧
  let '(r, w') := run (save_to "dump.json") (fresh_world timed_store) in
  (∀ q, q ≠ "dump.json" → (∀ n, q ≠ temp_path "dump.json" n) →
     content q (fs w') = content q (fs (fresh_world timed_store))) ∧
  match r with
  | Ok _ => ∃ json, to_vec_pretty (snapshot (db (fresh_world timed_store))).1 = Ok json ∧
      content "dump.json" (fs w') = Some json
  | Err _ => content "dump.json" (fs w') = content "dump.json" (fs (fresh_world timed_store))
  end.
Proof.
  split; [vm_compute; discriminate|].
  exact (save_is_atomic "dump.json" (fresh_world timed_store) dump_has_name).
Defined.

Lemma snapshot_restores_keyspace_witness :
  (∃ e', store (db timed_restored) !! "t" = Some e' ∧ expires_at e' = Some 2000000000) ∧
  is_Some (store (db timed_restored) !! "l") ∧
  ∃ e', store (db timed_restored) !! "z" = Some e' ∧ value e' = VSortedSet timed_zset.
Proof.
  split; [eexists; split; vm_compute; reflexivity|].
  assert (Hsaved : run (save_to "dump.json") (fresh_world timed_store) = (Ok tt, timed_saved))
    by exact (pair_of_fst _ _ timed_save_ok).
  assert (Hloaded : run (load_from (CK := ticking_clock) "dump.json")
      (set_fs (fs timed_saved) (fresh_world ∅)) = (Ok true, timed_restored))
    by exact (pair_of_fst _ _ timed_load_ok).
  pose proof (snapshot_restores_keyspace (CK1 := still_clock) (CK2 := ticking_clock) "dump.json"
    (fresh_world timed_store) (set_fs (fs timed_saved) (fresh_world ∅))) as H.
  rewrite Hsaved, Hloaded in H.
  destruct (H dump_has_name timed_store_wf timed_store_representable eq_refl (memory_readable _) eq_refl)
    as (_ & Hsame & Hall).
  split; [apply (Hall "l" {| value := VList ["a"; "b"]; expires_at := None |}); vm_compute; reflexivity|].
  destruct (Hall "z" {| value := VSortedSet timed_zset; expires_at := None |}) as [e' He'];
    [reflexivity|reflexivity|].
  exists e'. split; [exact He'|].
  destruct (Hsame "z" e' He') as (e & n & He & _ & Hvalue & _). rewrite Hvalue.
  unfold Keyspace.seen in He. apply lookup_view_some in He as [He _].
  assert (Hz : store (db (fresh_world timed_store)) !! "z" =
    Some {| value := VSortedSet timed_zset; expires_at := None |}) by reflexivity.
  rewrite Hz in He. injection He as <-. reflexivity.
Defined.
