(* ===== verification/ServerTheorems.v ===== *)
(** Properties of connections and of the server as a whole ([session.rs],
    [pubsub.rs], [server/mod.rs], [config.rs]). *)

From stdpp Require Import relations.
From S2P Require Import Prelude Task RustInt RustStr RustF64 HashOrder Resp Clock Store PubSub.
From S2P Require Import FileSystem Aof Snapshot World Command Execute Dispatch ReadOnly ErrorReply.
From S2P Require Import Effects Session Config Server SelectLoop Wire Recovery Durability Restore.
From S2P Require Import Connection Registry System LogGrows Torn Lapsed Linearize.
From S2P Require Keyspace KeyOps Invariant Database.
From S2P Require RSortedSet.
From S2P Require Import Concrete.
Local Open Scope Z_scope.

Section server.
Context {CK : Clock} {HO : HashOrder} {OF : OrderedFloat} {MP : Mpsc} {FS : FileSystem}
  {SD : Serde} {TP : Process} {AR : AsyncBufRead} {SR : SliceReader AR}.
Context (config : Config) (m : Mail) (f : Fs) (now : nat) (s s' : Server).

(** C1: the store's invariant holds in every state the server can reach, from its
    start with whatever files it recovers from: any number of connections accepted
    at any time and sending anything, the sweeper, the flusher, background saves and
    the shutdown, interleaved in any way at their lock boundaries. No stored
    collection is empty, the two indexes of each sorted set agree, and no score
    is NaN. A snapshot file is assumed to hold none either. *)
Theorem store_invariant_reachable :
  sound_files config f → boots config m f now s → rtc server_step s s' → world_wf (shared s').
Proof. apply server_wf. Qed.

(** C11: the registry of subscriptions tracks the connections exactly. In every
    state the server can reach, its tasks are in phases of a connection's life for
    which: the registry holds, for each open connection, the channels it is
    subscribed to and nothing else, under an id and with a mailbox that no other
    connection has; every such mailbox is still read; no channel is without
    subscribers; and the counter of clients counts the connections. While a connection
    is served its phase follows its session, whatever it sends, whichever writes fail
    and whatever other tasks do meanwhile. *)
Theorem registry_tracks_connections :
  boots config m f now s → rtc server_step s s' → Z.of_nat (length (tasks s')) < u64_max →
  (∃ phs, Forall2 (conforms ended) phs (server_pool s').2 ∧ consistent phs (shared s')) ∧
  ∀ events session, conforms (λ ph r, ph = opened r.2) (opened session) (serve events session).
Proof.
  intros Hboot Hsteps Hlen. split; [|apply serve_conforms].
  destruct (server_consistent _ _ _ _ _ _ Hboot Hsteps Hlen) as (phs & Hphs). by eexists.
Qed.

(** C18: in every state the server can reach, [PUBLISH] appends the message to the
    mailbox of every subscriber of the channel, each of which is there to receive
    it, to no other mailbox, and answers how many subscribers there are. *)
Theorem publish_delivers ch payload :
  boots config m f now s → rtc server_step s s' → Z.of_nat (length (tasks s')) < u64_max →
  let w := shared s' in
  let receivers := iter_ids (subscribers_of (pubsub w) ch) in
  let '(n, m') := publish ch payload (pubsub w) (mail w) in
  n = Z.of_nat (size (subscribers_of (pubsub w) ch)) ∧
  ∀ sender, if decide (sender ∈ receivers.*2)
            then ∃ q, mailbox sender (mail w) = Some q ∧
                      mailbox sender m' = Some (q ++ [message ch payload])
            else mailbox sender m' = mailbox sender (mail w).
Proof.
  intros Hboot Hsteps Hlen. destruct (server_consistent _ _ _ _ _ _ Hboot Hsteps Hlen) as (phs & _ & H).
  by apply (consistent_publish _ _ ch payload) in H.
Qed.

(** C16: the log of a running server. Whatever its connections, background saves and
    other tasks do and however they interleave, the log is at every moment what it was
    when the server started, followed by whole entries, each a request that parses to
    a write: nothing is overwritten, no two entries are mixed, and saving snapshots
    does not disturb it. The log is turned on, its disk does not fail, and the
    snapshot and its temporary files have other paths. *)
Theorem log_grows_by_entries :
  logging config → boots config m f now s → rtc server_step s s' →
  ∃ entries, content (aof_file config) (fs (shared s')) =
      Some (default "" (content (aof_file config) f) +:+ log_of entries) ∧
    Forall (λ tokens, ∃ c, parse tokens = Ok c ∧ is_write c = true) entries.
Proof. apply server_log_grows. Qed.

End server.

Section select.
Context {CK : Clock} {HO : HashOrder} {OF : OrderedFloat} {MP : Mpsc} {FS : FileSystem}
  {SD : Serde} {TP : Process} {AR : AsyncBufRead} {SR : SliceReader AR}.

(** C17: the loop of a connection with its reader task, the bounded channel between
    them and the [select!] over requests and messages implements [serve]: whatever
    the order of their moves, it is never stuck before its end, the channel never
    holds more than 16 requests, and what the loop did to the shared state and wrote
    to the socket is what [serve] does for some events, whose requests are, in order
    and without a gap, those that the reader task reads. *)
Theorem select_loop_refines r session trace c :
  loop_runs (open_loop r session) trace c →
  (length (requests c) ≤ CAPACITY)%nat ∧
  (∀ w, (∃ last, control c = Broken last) ∨ (∃ l c', act_local l c = Some c') ∨
        (∃ c' w', act_shared c w = Some (c', w'))) ∧
  ∀ last, control c = Broken last → ∃ events,
    follows (serve events session) trace (Done (written c, last)) ∧
    ∃ n, ∀ fuel, reader_task (n + fuel) r = requests_of events ++ incoming fuel c.
Proof.
  intros Hrun. split; [apply (runs_bounded _ _ _ Hrun); unfold channel_bounded; simpl; lia|].
  split; [intros w; destruct (loop_progress c w) as [|[|(? & c' & w' & _ & ?)]]; eauto 6|].
  intros last Hlast.
  destruct (runs_refine _ _ _ _ Hrun Hlast) as (flag & events & out & Hf & -> & Hin).
  exists events. split; [exact Hf|exact Hin].
Qed.

(** C12: a connection's loop ends. Whatever state its critical sections find, there
    is no infinite run of it and of its reader task, however many messages it is sent,
    as long as they are finitely many. A run in which nothing more can happen has left
    the loop: it is never at the [select!] after the end of the stream, in a request or
    in a write. What makes it leave is the end of the requests, all of those that the
    reader read having been taken, or a write that fails, with nothing more written;
    and each of the two does make it leave. *)
Theorem connection_loop_ends (w : World) messages r session :
  let start := (messages, open_loop r session) in
  sn loop_step start ∧
  ∀ n c, rtc loop_step start (n, c) →
    (nf loop_step (n, c) → ∃ last, control c = Broken last) ∧
    (∀ n' c' last, loop_step (n, c) (n', c') → control c' = Broken last →
     control c = Broken last ∨ breaks c c' last) ∧
    ∀ last, (control c = Selecting last → reader c = None → sending c = None → requests c = [] →
             act_local Closes c = Some (set_control (Broken last) c)) ∧
      ∀ text, control c = Writing text last →
              act_local (Writes false) c = Some (set_control (Broken last) c).
Proof.
  cbv zeta. split; [apply loop_sn|]. intros n c _. split; [apply (loop_stuck w)|]. split.
  - intros n' c' last Hs. apply (step_breaks _ _ last Hs).
  - intros last. unfold act_local. split; [by intros -> -> -> ->|by intros text ->].
Qed.
End select.

Section requests.
Context {CK : Clock} {HO : HashOrder} {OF : OrderedFloat} {MP : Mpsc} {FS : FileSystem}
  {SD : Serde} {TP : Process}.

(** C9: requests take effect one at a time. Clients that each send requests about
    the keyspace and wait for the replies, and background saves, the sweeper and the
    flusher, these two ticking any number of times, are interleaved in any way at their
    lock boundaries, until all are done. Then there is an order of all requests, which keeps that of each client,
    such that each reply is what the request answers when it runs alone on the
    keyspace that the one before it in the order leaves, keys whose deadline passes
    in between apart; what the last one leaves is the keyspace in the end. *)
Theorem requests_one_at_a_time clients ticks ticks' saves w p' :
  Forall (Forall request_about_keys) clients →
  rtc step (w, clients_pool clients
                 (rounds ticks sweeper :: rounds ticks' aof_flusher ::
                  replicate saves (save ;; mret tt))) p' →
  nf step p' →
  ∃ h, one_at_a_time (tick (db w)) w h p'.1 ∧
    ∀ i requests, clients !! i = Some requests →
      ∃ replies, p'.2 !! i = Some (Done replies) ∧ length replies = length requests ∧
        of_client i h = zip requests replies.
Proof.
  intros Hc. apply pool_linear; [done|]. constructor; [apply lapses_sweeper|].
  constructor; [apply lapses_flusher|]. apply Forall_replicate, respects_bind; [|constructor].
  apply lapses_background_save.
Qed.
End requests.

Section sessions.
Context {CK : Clock} {HO : HashOrder} {OF : OrderedFloat} {MP : Mpsc} {FS : FileSystem}
  {SD : Serde} {TP : Process}.

(** C22: [MULTI], commands that parse, [EXEC]: the commands are queued without
    effect, [EXEC] runs them in order, each once, and the replies are the
    status of [MULTI], one [QUEUED] per command and one array with the replies
    of the commands in order, which is one RESP frame; the session is then as it
    was before. *)
Theorem transaction_runs_queue queue s w :
  subscriptions s = ∅ → transaction s = None → Forall (λ c, is_ok (parse c) = true) queue →
  let '(rs, w') := run (dispatch_each queue) w in
  let reply := "*" +:+ int_to_string (Z.of_nat (length queue)) +:+ CRLF +:+ concat_all rs in
  run (serve (transaction_events queue) s) w =
    ((simple_string "OK" :: replicate (length queue) (simple_string "QUEUED") ++ [reply], s), w') ∧
  length rs = length queue ∧ Forall reply_ok rs ∧ reply_ok reply.
Proof. apply serve_transaction. Qed.

(** C23: a connection is never in a transaction and subscribed at the same time,
    whatever it sends and whatever other connections do meanwhile. Inside a
    transaction nothing but [EXEC] touches the shared state, and an [EXEC] of a
    transaction with an error in it runs nothing. [EXEC], whether it runs the queue or
    refuses to, and [DISCARD] close the transaction; [MULTI] leaves it as it is;
    [SUBSCRIBE], [UNSUBSCRIBE] and what does not parse spoil it; anything else is
    added at the end of its queue. *)
Theorem transaction_isolated name args s :
  session_ok s →
  ensures (λ r, session_ok r.2) (handle (name :: args) s) ∧
  ∀ t, transaction s = Some t →
    ensures (λ r, continues (name :: args) (to_ascii_uppercase name) t (transaction r.2) ∧
                  subscriptions r.2 = ∅) (handle (name :: args) s) ∧
    (to_ascii_uppercase name ≠ "EXEC" ∨ dirty t = true → ∃ r, handle (name :: args) s = Done r).
Proof.
  intros Hs. split; [by apply handle_session_ok|]. intros t Ht.
  assert (Hsub : subscriptions s = ∅) by (destruct Hs as [|Hnone]; [done|by rewrite Hnone in Ht]).
  split; [by apply handle_continues|]. intros Hname.
  destruct (decide (to_ascii_uppercase name = "EXEC")) as [He|He].
  - destruct Hname as [|Hd]; [done|]. by eapply handle_exec_dirty.
  - by eapply handle_in_transaction.
Qed.
End sessions.

(** * Examples *)

(** A server with a log, just started; the sweeper is its loop 0 and its task 0. *)
Definition sample_boot : result Server IoError :=
  run_server (Ok tt) sample_config no_mail (log_file "") 0.
Definition sample_server : Server :=
  match sample_boot with
  | Ok s => s
  | Err _ => {| shared := logging_world; main := None; tasks := []; tickers := [] |}
  end.

Lemma sample_boots : boots sample_config no_mail (log_file "") 0 sample_server.
Proof.
  exists (Ok tt). assert (H : is_ok sample_boot = true) by (vm_compute; reflexivity).
  unfold sample_server. fold sample_boot. destruct sample_boot; [reflexivity|discriminate H].
Qed.

Lemma sample_sound : sound_files sample_config (log_file "").
Proof. left. reflexivity. Qed.

(** The state after some actions. *)
Definition reached (l : list Action) : Server := default sample_server (acts l sample_server).

Lemma reached_steps l :
  from_option (λ _, true) false (acts l sample_server) = true → rtc server_step sample_server (reached l).
Proof.
  unfold reached. destruct (acts l sample_server) as [s|] eqn:E; [|discriminate]. intros _.
  exact (acts_steps _ _ _ E).
Qed.

(** Two connections, the sweeper, a background save and the signal to stop. *)
Definition two_clients : list Action :=
  [Accepts (Connection [request ["ZADD"; "z"; "1.5"; "m"]; request ["LPOP"; "l"]; Disconnected]);
   Runs 1; Runs 1; Accepts Failed;
   Accepts (Connection [request ["MULTI"]; request ["RPUSH"; "l"; "x"]; request ["EXEC"]; Disconnected]);
   Runs 1; Runs 2; Runs 2; Runs 1; Ticks 0; Runs 0; Runs 2; Background_save; Runs 2; Runs 3; Accepts CtrlC;
   Runs 1; Shuts_down; Runs 2; Runs 3; Runs 1; Runs 2; Runs 2; Shuts_down].

Lemma store_invariant_reachable_witness :
  size (store (db (shared (reached two_clients)))) = 2%nat ∧ world_wf (shared (reached two_clients)).
Proof.
  split; [vm_compute; reflexivity|].
  apply (store_invariant_reachable sample_config no_mail (log_file "") 0 sample_server).
  - exact sample_sound.
  - exact sample_boots.
  - apply reached_steps. vm_compute. reflexivity.
Defined.

Lemma sample_logging : logging sample_config.
Proof.
  split; [reflexivity| |vm_compute; eauto|discriminate|].
  - intros a _ tokens f. unfold append, mbind, state_bind. cbn. destruct (decide _); reflexivity.
  - intros n. unfold temp_path. discriminate.
Qed.

Lemma log_grows_by_entries_witness :
  content "log.aof" (fs (shared (reached two_clients))) =
    Some (log_of [["ZADD"; "z"; "1.5"; "m"]; ["RPUSH"; "l"; "x"]]) ∧
  ∃ entries, content "log.aof" (fs (shared (reached two_clients))) = Some ("" +:+ log_of entries) ∧
    Forall (λ tokens, ∃ c, parse tokens = Ok c ∧ is_write c = true) entries.
Proof.
  split; [vm_compute; reflexivity|].
  apply (log_grows_by_entries sample_config no_mail (log_file "") 0 sample_server);
    [exact sample_logging|exact sample_boots|apply reached_steps; vm_compute; reflexivity].
Defined.

(** Two subscribers, one of which leaves a channel and then goes. *)
Definition subscribers : list Action :=
  [Accepts (Connection [request ["SUBSCRIBE"; "news"]; Message true; Disconnected]);
   Accepts (Connection [request ["SUBSCRIBE"; "news"; "old"]; request ["UNSUBSCRIBE"; "news"]]);
   Runs 1; Runs 2; Runs 2; Runs 1; Runs 1; Runs 2; Runs 2; Runs 2; Runs 1].

Lemma registry_tracks_connections_witness :
  connected_clients (stats (shared (reached subscribers))) = 2 ∧
  sender_of (pubsub (shared (reached subscribers))) "old" 1 = Some (sender 0) ∧
  ∃ phs, Forall2 (conforms ended) phs (server_pool (reached subscribers)).2 ∧
    consistent phs (shared (reached subscribers)).
Proof.
  split; [vm_compute; reflexivity|]. split; [vm_compute; reflexivity|].
  refine (proj1 (registry_tracks_connections sample_config no_mail (log_file "") 0 sample_server _
    sample_boots (reached_steps _ _) _)); vm_compute; reflexivity.
Defined.

Lemma publish_delivers_witness :
  (publish "news" "hi" (pubsub (shared (reached subscribers))) (mail (shared (reached subscribers)))).1 = 2 ∧
  let w := shared (reached subscribers) in
  let '(n, m') := publish "news" "hi" (pubsub w) (mail w) in
  n = Z.of_nat (size (subscribers_of (pubsub w) "news")).
Proof.
  split; [vm_compute; reflexivity|].
  pose proof (publish_delivers sample_config no_mail (log_file "") 0 sample_server (reached subscribers)
    "news" "hi" sample_boots) as H.
  assert (Hsteps : rtc server_step sample_server (reached subscribers))
    by (apply reached_steps; vm_compute; reflexivity).
  specialize (H Hsteps eq_refl). cbv zeta in H |- *.
  destruct (publish "news" "hi" _ _) as [n m']. exact (proj1 H).
Defined.

(** The answer of a task that has ended. *)
Definition result_of {S A} (t : Task S A) : option A :=
  match t with Done a => Some a | Critical _ => None end.

(** Two clients that work on one key, with the server's own tasks, in turns. *)
Definition busy_clients : list (list (list string)) :=
  [[["SET"; "k"; "1"]; ["INCR"; "k"]; ["PING"]]; [["APPEND"; "k"; "0"]; ["GET"; "k"]]].
Definition busy_pool : list (Task World (list string)) :=
  clients_pool busy_clients (rounds 1 sweeper :: rounds 1 aof_flusher :: replicate 1 (save ;; mret tt)).
Definition busy_end : Pool World (list string) :=
  schedule (logging_world, busy_pool) (concat (replicate 12 (seq 0 5))).

Lemma busy_clients_about_keys : Forall (Forall request_about_keys) busy_clients.
Proof. repeat constructor; intros c H; vm_compute in H; injection H as <-; exact I. Qed.

Lemma requests_one_at_a_time_witness :
  omap result_of busy_end.2 =
    [[simple_string "OK"; integer 11; simple_string "PONG"]; [integer 2; bulk_string "11"]; []; []; []] ∧
  ∃ h, one_at_a_time (tick (db logging_world)) logging_world h busy_end.1 ∧
    ∀ i requests, busy_clients !! i = Some requests →
      ∃ replies, busy_end.2 !! i = Some (Done replies) ∧ length replies = length requests ∧
        of_client i h = zip requests replies.
Proof.
  split; [vm_compute; reflexivity|].
  assert (Hdone : nf step busy_end) by (apply done_stuck; vm_compute; reflexivity).
  exact (requests_one_at_a_time busy_clients 1 1 1 logging_world busy_end busy_clients_about_keys
    (schedule_steps (concat (replicate 12 (seq 0 5))) (logging_world, busy_pool)) Hdone).
Defined.

Definition sample_session : Session :=
  {| id := 7; mailbox_sender := sender 0; subscriptions := ∅; transaction := None |}.
Definition open_session : Session := in_multi [["INCR"; "n"]] sample_session.

Definition sample_queue : list (list string) := [["INCR"; "n"]; ["LPOP"; "n"]].
Lemma sample_queue_parses : Forall (λ c, is_ok (parse c) = true) sample_queue.
Proof. apply (bool_decide_unpack _). vm_compute. exact I. Qed.

Lemma transaction_runs_queue_witness :
  (run (serve (transaction_events sample_queue) sample_session) (fresh_world ∅)).1.1 =
    ["+OK" +:+ CRLF; "+QUEUED" +:+ CRLF; "+QUEUED" +:+ CRLF;
     "*2" +:+ CRLF +:+ ":1" +:+ CRLF +:+
       "-WRONGTYPE Operation against a key holding the wrong kind of value" +:+ CRLF].
Proof.
  pose proof (transaction_runs_queue sample_queue sample_session (fresh_world ∅)
    eq_refl eq_refl sample_queue_parses) as H.
  assert (Hreplies : (run (dispatch_each sample_queue) (fresh_world ∅)).1 =
    [":1" +:+ CRLF; "-WRONGTYPE Operation against a key holding the wrong kind of value" +:+ CRLF])
    by (vm_compute; reflexivity).
  destruct (run (dispatch_each sample_queue) (fresh_world ∅)) as [rs w]. cbn [fst] in Hreplies.
  subst rs. destruct H as [H _]. apply (f_equal (λ p, p.1.1)) in H. exact H.
Defined.

(** A clean [EXEC] runs its queue and closes the transaction; so does [DISCARD], which
    runs nothing. *)
Lemma transaction_isolated_witness :
  (run (handle ["exec"] open_session) (fresh_world ∅)).1.1 = "*1" +:+ CRLF +:+ integer 1 ∧
  transaction (run (handle ["exec"] open_session) (fresh_world ∅)).1.2 = None ∧
  ∃ r, handle ["discard"] open_session = Done r.
Proof.
  split; [vm_compute; reflexivity|].
  destruct (transaction_isolated "exec" [] open_session) as [_ Hexec]; [left; reflexivity|].
  destruct (transaction_isolated "discard" [] open_session) as [_ Hdiscard]; [left; reflexivity|].
  split.
  - destruct (Hexec _ eq_refl) as [H _]. apply (ensures_run _ _ (fresh_world ∅)) in H as [H _].
    assert (Hname : to_ascii_uppercase "exec" = "EXEC") by (vm_compute; reflexivity). rewrite Hname in H.
    revert H. generalize (transaction (run (handle ["exec"] open_session) (fresh_world ∅)).1.2).
    intros t H. inversion H as [|Hn|Hn _|Hn _]; [reflexivity|discriminate Hn|..];
      exfalso; apply Hn; apply (bool_decide_unpack _); vm_compute; exact I.
  - apply (Hdiscard _ eq_refl). left. vm_compute. discriminate.
Defined.

(** A loop that finds a message of its mailbox between a request and the end of the
    stream. *)
Definition sample_loop : Loop := open_loop (slice_reader ("PING" +:+ CRLF)) sample_session.
Definition mail_world : World := set_mail ([Some ["news"]] : list (option (list string))) (fresh_world ∅).
Definition sample_moves : list (option Local) :=
  [Some Reads; Some Sends; Some Takes; Some Answers; Some Reads; Some (Writes true); None;
   Some (Writes true); Some Closes].
Definition sample_end : Loop := default sample_loop ((λ r, r.1.1) <$> loop_moves sample_moves sample_loop mail_world).
Definition sample_trace : list (World * World) :=
  default [] ((λ r, r.1.2) <$> loop_moves sample_moves sample_loop mail_world).

Lemma sample_loop_runs : loop_runs sample_loop sample_trace sample_end.
Proof.
  assert (H : from_option (λ _, true) false (loop_moves sample_moves sample_loop mail_world) = true)
    by (vm_compute; reflexivity).
  unfold sample_trace, sample_end.
  destruct (loop_moves sample_moves sample_loop mail_world) as [[[c trace] w]|] eqn:E; [|discriminate H].
  exact (loop_moves_runs _ _ _ _ _ _ E).
Qed.

Definition has_ended (c : Loop) : bool := match control c with Broken _ => true | _ => false end.

Lemma select_loop_refines_witness :
  written sample_end = [simple_string "PONG"; "news"] ∧
  ∃ events last, follows (serve events sample_session) sample_trace (Done (written sample_end, last)).
Proof.
  split; [vm_compute; reflexivity|].
  destruct (select_loop_refines _ _ _ _ sample_loop_runs) as (_ & _ & H).
  assert (Hend : has_ended sample_end = true) by (vm_compute; reflexivity). unfold has_ended in Hend.
  destruct (control sample_end) as [| | |last] eqn:E; [discriminate Hend..|].
  destruct (H last eq_refl) as (events & Hf & _). exists events, last. exact Hf.
Defined.

Lemma connection_loop_ends_witness :
  ∃ messages n, sn loop_step (messages, sample_loop) ∧ rtc loop_step (messages, sample_loop) (n, sample_end) ∧
    nf loop_step (n, sample_end) ∧ ∃ last, control sample_end = Broken last.
Proof.
  assert (H : from_option (λ _, true) false (loop_moves sample_moves sample_loop mail_world) = true)
    by (vm_compute; reflexivity).
  destruct (loop_moves sample_moves sample_loop mail_world) as [[[c trace] w]|] eqn:E; [|discriminate H].
  destruct (loop_moves_steps _ _ _ _ _ _ E) as (n & Hsteps).
  assert (Hc : c = sample_end) by (unfold sample_end; rewrite E; reflexivity).
  rewrite Hc in Hsteps. specialize (Hsteps 0%nat). exists (n + 0)%nat, 0%nat.
  destruct (connection_loop_ends mail_world (n + 0) (slice_reader ("PING" +:+ CRLF)) sample_session) as [Hsn Hends].
  assert (Hend : has_ended sample_end = true) by (vm_compute; reflexivity). unfold has_ended in Hend.
  assert (Hnf : nf loop_step (0%nat, sample_end)).
  { destruct (control sample_end) as [| | |last] eqn:Ec; [discriminate Hend..|].
    apply (ended_nf _ _ last Ec); vm_compute; reflexivity. }
  split; [exact Hsn|]. split; [exact Hsteps|]. split; [exact Hnf|].
  exact (proj1 (Hends 0%nat sample_end Hsteps) Hnf).
Defined.

(** * The order of the log *)

(** Two connections write the same key. The first one's command runs first and
    its log entry is written last. *)
Definition two_writers : Pool World string :=
  schedule (logging_world, dispatch <$> [["SET"; "k"; "1"]; ["SET"; "k"; "2"]]) [0; 1; 1; 1; 0; 0]%nat.

(** The key after a restart from the log. *)
Definition key_after_restart (k : string) (f : Fs) : option Entry :=
  match init_persistence sample_config no_mail f 0 with
  | Ok (w, _) => store (db w) !! k
  | Err _ => None
  end.

(** C37: a command and its log entry are two critical sections, so the log of
    concurrent writes need not be in the order in which they took effect: two
    successful [SET]s of one key can leave the later value in memory and the
    earlier one after a restart. *)
Theorem concurrent_writes_logged_out_of_order :
  ∃ p', rtc step (logging_world, dispatch <$> [["SET"; "k"; "1"]; ["SET"; "k"; "2"]]) p' ∧
    result_of <$> p'.2 = [Some ok_reply; Some ok_reply] ∧
    store (db p'.1) !! "k" = Some (Keyspace.fresh_string "2") ∧
    key_after_restart "k" (fs p'.1) = Some (Keyspace.fresh_string "1").
Proof.
  exists two_writers. split; [apply schedule_steps|].
  split_and!; vm_compute; reflexivity.
Qed.

Section torn.
Context {CK : Clock} {HO : HashOrder} {OF : OrderedFloat} {MP : Mpsc} {FS : FileSystem}
  {SD : Serde} {TP : Process} {AR : AsyncBufRead} {SR : SliceReader AR}.

(** C38: a crash can cut the last entry of the log inside its last argument [a +:+ b],
    so that [b] and the line end are missing. The restart drops the entry but leaves
    its bytes in the file, and what is written next, whatever it is, is appended to
    them, on a disk that does not fail. The restart after that takes as many of the new
    bytes, if there are as many, as were missing of the argument, and skips two. If the
    argument so completed is not UTF-8, the replay ends there and loses all that was
    written since the crash; otherwise it runs the cut request with this argument, and
    reads on in the middle of the new entries. *)
Theorem torn_entry_corrupts_later_writes config m m' f now now' w w2 policy policy'
    L tokens a b torn commands :
  logging config → readable (aof_file config) →
  Forall request_ok L → request_ok (tokens ++ [a +:+ b]) →
  torn +:+ b +:+ CRLF = array (tokens ++ [a +:+ b]) →
  content (aof_file config) f = Some (log_of L +:+ torn) →
  init_persistence config m f now = Ok (w, policy) →
  let w1 := (run (dispatch_all commands) w).2 in
  let new := log_of (logged_all commands w) in
  let last := a +:+ stake (String.length b) new in
  replayed now L w ∧ content (aof_file config) (fs w1) = Some (log_of L +:+ torn +:+ new) ∧
  (init_persistence config m' (fs w1) now' = Ok (w2, policy') →
   (String.length b + 2 ≤ String.length new)%nat →
   if utf8_valid last
   then ∃ r, remaining r = sdrop (String.length b + 2) new ∧
     replayed now' (L ++ (tokens ++ [last]) :: reader_task (S (String.length (remaining r))) r) w2
   else replayed now' L w2).
Proof. apply torn_restarts. Qed.
End torn.

(** A log with one whole entry and another that was cut, as [torn_entry_corrupts_later_writes]
    has it, and a write that is acknowledged after the restart. *)
Definition torn_log : string := log_of [["SET"; "i"; "0"]] +:+ stake 26 (array ["SET"; "k"; "hello"]).
Definition torn_start : result (World * option FsyncPolicy) IoError :=
  init_persistence sample_config no_mail (log_file torn_log) 0.
Definition torn_world : World := match torn_start with Ok (w, _) => w | Err _ => logging_world end.
Definition torn_after : World := (run (dispatch_all [["SET"; "j"; "1"]]) torn_world).2.

(** The write is lost, and a key has a value that nobody wrote. *)
Lemma torn_entry_corrupts_later_writes_witness :
  key_after_restart "j" (fs torn_after) = None ∧
  value <$> key_after_restart "k" (fs torn_after) = Some (VStr ("he*3" +:+ String CR "")) ∧
  ∃ w2 policy r, init_persistence sample_config no_mail (fs torn_after) 0 = Ok (w2, policy) ∧
    replayed 0 ([["SET"; "i"; "0"]] ++ ["SET"; "k"; "he*3" +:+ String CR ""] ::
              reader_task (S (String.length (remaining r))) r) w2.
Proof.
  split; [vm_compute; reflexivity|]. split; [vm_compute; reflexivity|].
  assert (Hstart : torn_start = Ok (torn_world, Some Always)).
  { unfold torn_world. assert (H : is_ok torn_start = true) by (vm_compute; reflexivity).
    assert (Hp : match torn_start with Ok (_, p) => p | Err _ => None end = Some Always)
      by (vm_compute; reflexivity).
    destruct torn_start as [[w p]|e]; [rewrite <- Hp; reflexivity|discriminate H]. }
  assert (Hok : is_ok (init_persistence sample_config no_mail (fs torn_after) 0) = true)
    by (vm_compute; reflexivity).
  destruct (init_persistence sample_config no_mail (fs torn_after) 0) as [[w2 policy]|e] eqn:Hinit;
    [|discriminate Hok].
  destruct (torn_entry_corrupts_later_writes sample_config no_mail no_mail (log_file torn_log) 0 0
    torn_world w2 (Some Always) policy [["SET"; "i"; "0"]] ["SET"; "k"] "he" "llo"
    (stake 26 (array ["SET"; "k"; "hello"])) [["SET"; "j"; "1"]]) as (_ & _ & H).
  - exact sample_logging.
  - apply memory_readable.
  - apply (bool_decide_unpack _). vm_compute. exact I.
  - apply (bool_decide_unpack _). vm_compute. exact I.
  - vm_compute. reflexivity.
  - vm_compute. reflexivity.
  - exact Hstart.
  - assert (Hlong : (String.length "llo" + 2 ≤
      String.length (log_of (logged_all [["SET"; "j"; "1"]] torn_world)))%nat)
      by (apply (bool_decide_unpack _); vm_compute; exact I).
    specialize (H Hinit Hlong).
    assert (Hlast : "he" +:+ stake (String.length "llo") (log_of (logged_all [["SET"; "j"; "1"]] torn_world))
      = "he*3" +:+ String CR "") by (vm_compute; reflexivity).
    rewrite Hlast in H. destruct H as (r & _ & H). exists w2, policy, r. split; [reflexivity|exact H].
Defined.

Section lapsed.
Context {OF : OrderedFloat} {FS : FileSystem} {SD : Serde} {AR : AsyncBufRead} {SR : SliceReader AR}
  {CK1 CK2 : Clock} {HO1 HO2 : HashOrder} {MP1 MP2 : Mpsc} {TP1 TP2 : Process}.

(** C39: the expiry of a key leaves no trace in the log, and replay counts a [SET]'s
    seconds anew. A server with an empty log, on a disk that does not fail, sets a key
    with a time to live, and appends text to it once the time is over, so that the key
    holds that text alone and never expires. A server started from this log, with
    whatever clock, on which less than that time passes between the two requests, finds
    the key alive instead: it then holds both texts, a value that it never had, and it
    expires. The two requests are within the limits of the reader. *)
Theorem lapsed_key_replays_differently config af (w : @World MP1 FS) m now (w2 : @World MP2 FS) policy
    k a b seconds :
  appendonly config = true → readable (aof_file config) →
  healthy af → logs_to (TP := TP1) af (persistence w) → log_path af = aof_file config →
  content (aof_file config) (fs w) = Some "" →
  in_u64 seconds → Forall request_ok (timed_requests k a b seconds) →
  instant_at (Clock := CK1) (tick (db w)) + from_secs seconds ≤ instant_at (Clock := CK1) (S (tick (db w))) →
  instant_at (Clock := CK2) (S (S now)) < instant_at (Clock := CK2) (S now) + from_secs seconds
    ≤ instant_max (Clock := CK2) →
  let w1 := (run (dispatch_all (CK := CK1) (HO := HO1) (TP := TP1) (timed_requests k a b seconds)) w).2 in
  store (db w1) !! k = Some (Keyspace.fresh_string b) ∧
  content (aof_file config) (fs w1) = Some (log_of (timed_requests k a b seconds)) ∧
  (init_persistence (CK := CK2) (HO := HO2) (MP := MP2) (TP := TP2) config m (fs w1) now = Ok (w2, policy) →
   store (db w2) !! k = Some {| value := VStr (a +:+ b);
     expires_at := Some (instant_at (Clock := CK2) (S now) + from_secs seconds) |}).
Proof. apply lapsed_restart. Qed.
End lapsed.

(** On the first server the clock gains a second between two readings; on the second it
    stands still. *)
Definition lapsed_world : World :=
  (run (dispatch_all (CK := ticking_clock) (timed_requests "k" "a" "b" 1)) logging_world).2.

Lemma lapsed_key_replays_differently_witness :
  store (db lapsed_world) !! "k" = Some (Keyspace.fresh_string "b") ∧
  ∃ w2 policy, init_persistence (CK := still_clock) sample_config no_mail (fs lapsed_world) 0 = Ok (w2, policy) ∧
    store (db w2) !! "k" = Some {| value := VStr "ab"; expires_at := Some (10 ^ 9) |}.
Proof.
  assert (Hok : is_ok (init_persistence (CK := still_clock) sample_config no_mail (fs lapsed_world) 0) = true)
    by (vm_compute; reflexivity).
  destruct (init_persistence (CK := still_clock) sample_config no_mail (fs lapsed_world) 0)
    as [[w2 policy]|e] eqn:Hinit; [|discriminate Hok].
  destruct (lapsed_key_replays_differently (CK1 := ticking_clock) (CK2 := still_clock) sample_config sample_aof
    logging_world no_mail 0 w2 policy "k" "a" "b" 1) as (Hst & _ & Hrestart).
  - reflexivity.
  - apply memory_readable.
  - apply (logging_healthy _ sample_logging). reflexivity.
  - split; [reflexivity|]. split; [reflexivity|]. intros path [= <-].
    split; [vm_compute; eauto|]. split; [discriminate|]. intros n. unfold temp_path. discriminate.
  - reflexivity.
  - vm_compute. reflexivity.
  - vm_compute. split; discriminate.
  - apply (bool_decide_unpack _). vm_compute. exact I.
  - vm_compute. discriminate.
  - vm_compute. split; [reflexivity|discriminate].
  - split; [exact Hst|]. exists w2, policy. split; [reflexivity|exact (Hrestart Hinit)].
Defined.
